(* ===== verification/_CoqProject ===== *)
-Q . S2P
Prelude.v
Types.v
Scheduler.v
Fragment.v
Kahn.v
Projection.v
Dag.v
Identity.v
Auth.v
Revocation.v
Saturate.v
Contamination.v
BrowserTaint.v
Schema.v
SchemaText.v
Automerge.v
Verify.v
Crdt.v
BrowserCrdt.v
Ledgers.v
Migration.v
CloudQueue.v
Durability.v
CloudLedger.v
Transport.v
Store.v
Sandbox.v
Core.v
Sample.v
Browser.v
Tab.v
TabLife.v
Exports.v
Device.v
Delivery.v
Interop.v
Diagnostics.v
