(* ===== verification/Prelude.v ===== *)
(** * TirBase: prelude of the verification development

    TirBase is an offline-first database for disaster zones: every device keeps a CRDT
    document and a causal DAG of signed changesets (Deltas), gossips them over whatever
    transport is up, and tracks how durable, how trusted and how contaminated each Delta
    is.  This development models the Rust crate [src/tirbase-core] by shallow embedding.

    ** Files and the code they model (paths under [src/tirbase-core/src])

    - [Prelude]: Rust's [Result], machine-width wrapping, iteration of hash maps, sorting
      by key, tactics.
    - [Types]: the Delta and its tags ([crdt/delta.rs]), [errors.rs].
    - [Scheduler]: [transport/priority.rs], [transport/scheduler.rs] (deficit round robin).
    - [Fragment]: [transport/fragment.rs] (fragmentation, bounded reassembly).
    - [Kahn]: the sorting loop that [crdt/dag.rs] and [durability/cloud_queue.rs] share.
    - [Dag]: [crdt/dag.rs], both builds; class [CausalDag] is what the walks of either
      build promise to the components above.
    - [Identity]: [identity/*.rs] over the classes [Bs58] and [Ed25519].
    - [Auth]: [auth/biscuit.rs], [auth/root_ca.rs], [auth/trust.rs], [auth/mod.rs] over
      the class [BiscuitLib].
    - [Revocation]: [auth/revocation.rs] (M-of-N revocation of devices).
    - [Saturate]: [transport/saturate.rs] (the emergency mode and its lease).
    - [Projection]: the projection tables of the native build under their SQLite names, and the
      flags of [store/projection.rs]; [Contamination]: [contamination/*.rs], native;
      [BrowserTaint]: the WASM half of both, with its thread-locals and the events of [lib.rs].
    - [Schema], [SchemaText]: [schema/*.rs], the grammar [schema/tirbase.pest], the
      compaction policy of [store/compaction.rs].
    - [Automerge]: the class of the third-party document library, with two small
      instances; [Verify]: [crdt/verify.rs]; [Crdt]: [crdt/mod.rs], [crdt/merge.rs],
      [crdt/failure.rs], [store/compaction.rs], native; [BrowserCrdt]: their WASM half and
      the compaction snapshots of [store/indexed_db.rs].
    - [Ledgers]: [migration/quarantine.rs], [migration/sidecar.rs] in both builds, with the
      object stores of [store/indexed_db.rs]; [Migration]: [migration/mod.rs],
      [migration/revocation.rs], [migration/version_path.rs],
      [migration/migration_delta.rs] and the background jobs of [api/mod.rs].
    - [CloudQueue], [Durability], [CloudLedger]: [durability/*.rs] and the loops of
      [api/mod.rs] that drive them.
    - [Transport]: [transport/discovery.rs] (peers, time-outs, retries),
      [transport/session.rs] (Noise handshakes, back-off, key rotation), [transport/ble.rs]
      (the chunk format), [transport/mod.rs] and [transport/message.rs] (sending, receiving,
      the scheduler loop).
    - [Store]: [store/mod.rs], over [Projection] and over the rows of [store/indexed_db.rs].
    - [Sandbox]: [migration/wasm_sandbox.rs] over any WASM runtime; [Diagnostics]:
      [diagnostics/mod.rs].
    - [Core]: [api/mod.rs], native, the handle that owns all of the above: [init], every call of the
      host, the inbound dispatch, the migration jobs and the background loops, as one type
      [Op] of what can happen and one function [exec] that carries it out.
    - [Sample]: instances of every class and two started devices, for concrete runs;
      [Device]: histories of a handle; [Delivery]: one write followed to its end.
    - [Browser]: [api/mod.rs], WASM, the handle of a browser tab; [Tab]: its calls as steps of the
      components, and a sample tab; [TabLife]: writes, the queue, foreign Deltas and
      revocations of a tab; [Exports]: the functions of [lib.rs] a page calls; [Interop]: a
      write from either build to the other.

    ** How state and operations correspond to the code

    A struct is a record, an enum an inductive type with the same constructors, a method
    one definition of the same name that takes the state and returns the new state with
    the result; [Err] and early returns are constructors of [result].  Rust integers are
    [Z] with the wrap-around of the release build written out; [f64] is [SpecFloat]'s
    binary64.  A [HashMap] is a [gmap] whose iteration order is the class [HashIter]; a SQL
    table is a [gmap] from its primary key, an unordered query the class [SelectOrder].
    SQL statements succeed, except those that a table name breaks: a name is put between double
    quotes as it is, so a double quote or a NUL in it is an error ([Projection.sql_name]), and
    SQLite finds a table under any letter case ([Projection.same_table]).  Mutex locks succeed.
    A function that reads the clock takes the time it read, one time for a call whose walks read
    it again ([contamination/taint.rs]); callbacks and listeners are lists of emitted events.  Ed25519, base58,
    biscuit-auth, Automerge, IndexedDB cursors, the cloud connection and the sandbox that
    runs a migration are classes or parameters with their documented laws, and each class
    has an instance that satisfies them.  SHA-256, zstd and serde_json are functions.

    ** How the parts interact

    A local write goes through [Crdt.produce_delta_with_tags] (clock, parents, signature,
    DAG); a peer's Delta through [Crdt.apply] (revocation, schema and signature gates,
    merge, post-merge verification of [Verify], DAG).  What the schema gate refuses goes to
    the quarantine ledger.  [Contamination] walks the DAG; [Revocation] hands it the Deltas
    of a revoked author.  [Durability] holds the quorum of receipts and the [CloudQueue].
    [Migration] changes the schema [Crdt] accepts, one transform at a time, and replays the
    side-car into it through the class [ReplayTarget].  [Core] is where they meet: the record
    [CoreHandle] has one field per subsystem, the contamination engine and the CRDT engine
    share the tables of one file ([cce_view], [put_cce]), the transport hands messages to the
    channel that [process_inbound_messages] drains, and the cloud cycle sends the queue of
    [Durability] to the ledger the handle itself holds.  A call of the host, a message or one
    turn of a loop is one step, although the code takes the mutexes one after another within
    it; only the migration pipeline, which lets go of the engine while a transform runs, is
    several operations ([OpJobPrepare], [OpJobAdvance]) that interleave with everything else.
    A tab has no loops and no mesh: [Browser.exec] is a call of the page or a message it hands
    over, each of which runs to its end; [Exports.with_core] is how an export reaches the handle.

    ** What the theorems show

    - CRDT engine: [apply] on every branch, an invariant of the accepted schemas and DAG
      nodes over all histories, what a local write descends from, that a produced Delta
      merges at every peer, write/read round trips; [Verify.verify_outcome] gives the
      whole document the override makes of the merged one, edits of lists included.
    - DAG: both builds compute the same descendants whatever the arrival order; the sort is
      causal and complete; the walk terminates with the reachable set.
    - Contamination: tagging and resolution change exactly what they should; guarded
      operations change nothing when refused.
    - Migration: over every interleaving of jobs and messages the schema follows the version
      path and a revoked migration never commits; the branches of [prepare_migration] and
      of revocation; captured writes are replayed; the definition check never blocks.
    - Schemas: [parse (print s) = Ok s] for every printable [s] (not all the grammar can express:
      [expressible_not_reprinted]), hash and diff agree.
    - Ledgers: the first quarantine entry is kept, replays run in recorded order.
    - Trust: a Verified device presented a valid token, revocations and saturate mode are
      backed by enough signatures, partial revocations reach the threshold.
    - Durability: Tier-1 is backed by k valid receipts of different issuers, queued Deltas
      leave the queue only for Tier-2, uploads are causal and accounted for.
    - Transport: the bandwidth floor of each class, first in first out, delivery of
      fragments in any order and of whatever is sent, what a refused payload costs, the
      scheduler follows saturate mode.
    - Sandbox: a transform only writes values to rows, whatever it does.
    - Store: an IndexedDB store reopens to the view it had; both builds answer alike on a table
      written under one spelling that SQL takes.
    - Ledger: it only grows; what its acknowledgement does and does not mean.
    - Whole devices: every component moves by its own operations only, so each theorem above
      about the histories of a component holds inside a device ([Device.device_refines_components]);
      rows stay readable; the author of another, revoked device adds nothing and a revoked
      device reads and writes nothing until it presents a token; what a restart keeps.
    - One write: [write] on every branch, its arrival as a row at a peer, the receipts that
      take it to tier 1, the cloud cycle that takes it to tier 2.
    - The two builds: their engines agree on all the state they share ([builds_converge]), a write
      of either arrives as a row at both ([write_crosses_builds]), a browser's write hangs
      below nothing ([browser_write_unreachable]).
    - A tab: the calls of a page are, one by one, the operations of the handle they mean, on the
      arguments they decode to ([page_refines_tab]), and every operation is made of steps of its
      components ([Tab.run_moves]); a write on every branch, what a revocation does, that
      contamination does not spread and trust comes from a token only ([tab_never]), how many
      writes there is room for ([tab_write_budget]), what a refused Delta leaves; verification in
      the browser frees no row.
    - What IndexedDB does with an empty object store is the law of [IdbCursor]: there is no cursor.
      The code takes that for an error, so a database without a row cannot be opened
      ([fresh_store_never_opens]) and the side-car never gets its first record
      ([wasm_never_captures]); the tests of the repository ([tests/wasm_tests.rs]) expect both to
      work.  Besides these two only [reopen_restores], which starts from a store that is open, uses
      the law.
    Lemmas and examples beside them record where the code differs from its comments.

    ** Fuel

    [Kahn.kahn_loop], [Dag.bfs_loop] and [Fragment.chunks_fuel] take fuel bounded by the
    number of nodes, edges or bytes, and lemmas show the loop ends before it is spent
    ([bfs_descendants_reachable], [topological_sort_causal]).  [SchemaText.run] recurses on
    the grammar; it is the documented PEG meaning of the operators [schema/tirbase.pest] uses, not
    a translation of code, since the parser pest generates is not in the repository.  A
    repetition has the length of its input as fuel, enough because every repeated expression
    of the grammar consumes input ([parser_total], against the relation [peg] that has no fuel).  [leb128_loop] is bounded by the ten bytes of a u64.
    [Sandbox.run_guest] has the budget of the run, its deadline or its wasmi fuel, as fuel
    ([run_guest_enough]).

    ** Not modelled

    - What else a table name with a double quote can do in a SQL statement: a doubled quote is taken
      for an escaped one, and a crafted name completes the statement with SQL of its own.
    - The fields of the native [CrdtEngine] the WASM one lacks: the record of [BrowserCrdt] is the
      native one, its DAG stays empty, and no theorem rests on that.
    - The text of the other SQL statements and the integrity checks ([store/sqlite.rs]), the opening and
      upgrade of the IndexedDB database; the materialisation of tables in [store/projection.rs]
      and the other functions of [crdt/mod.rs] that no code calls.  Storage does not fail.
    - The libp2p Swarm, the Bluetooth adapter and mDNS themselves: their events are operations
      of [Transport] and [Core].  Two tasks that hold no lock in common are two operations;
      the order in which they run is the order of the list.
    - wasmtime and wasmi: a module is whatever the class [WasmRuntime] resumes.  In a history
      of a device the rows a transform writes are operations of their own ([OpJobRow]) and
      its outcome is an argument; [sandbox_as_job_rows] says that a run is such a history.
    - In a tab, two calls at once: the exports are asynchronous, and a call that starts while
      another waits for IndexedDB meets its locks.  A clock that panics, as the standard one does
      on a bare [wasm32-unknown-unknown].
    - The event channels towards the host of the native build, [dial_peer] and the waiting of the
      tests in [api/mod.rs]; the text of the diagnostics; the JSON of an incident in an event.
    - Key generation and the identity file.
    - [bin/], the test modules, the TypeScript SDK. *)

From stdpp Require Export base decidable countable gmap strings list sorting fin_maps.
From Stdlib Require Export ZArith Lia.

(** ** Notations of the development *)

Declare Scope tirbase_scope.
Delimit Scope tirbase_scope with tirbase.
#[global] Open Scope Z_scope.

(** ** Rust's [Result] *)

Inductive result (E A : Type) : Type :=
| Ok (a : A)
| Err (e : E).
Arguments Ok {E A} a.
Arguments Err {E A} e.

#[export] Instance result_ret {E} : MRet (result E) := fun A a => Ok a.
#[export] Instance result_bind {E} : MBind (result E) :=
  fun A B f m => match m with Ok a => f a | Err e => Err e end.
#[export] Instance result_fmap {E} : FMap (result E) :=
  fun A B f m => match m with Ok a => Ok (f a) | Err e => Err e end.

#[export] Instance result_eq_dec {E A} `{EqDecision E} `{EqDecision A} :
  EqDecision (result E A).
Proof. solve_decision. Defined.

(** [Result::map_err]. *)
Definition map_err {E E' A} (f : E -> E') (m : result E A) : result E' A :=
  match m with Ok a => Ok a | Err e => Err (f e) end.

(** [Result::is_ok] and [Option::ok_or]. *)
Definition is_ok {E A} (m : result E A) : bool :=
  match m with Ok _ => true | Err _ => false end.
Definition ok_or {E A} (o : option A) (e : E) : result E A :=
  match o with Some a => Ok a | None => Err e end.

Lemma bind_ok {E A B} (m : result E A) (f : A -> result E B) b :
  (m ≫= f) = Ok b <-> exists a, m = Ok a /\ f a = Ok b.
Proof.
  destruct m as [a|e]; simpl; split; [by eauto|by intros (a' & [= <-] & ?)|done|].
  by intros (a' & ? & _).
Qed.

Lemma bind_err {E A B} (m : result E A) (f : A -> result E B) e :
  (m ≫= f) = Err e <-> m = Err e \/ exists a, m = Ok a /\ f a = Err e.
Proof.
  destruct m as [a|e']; simpl; split; [by eauto| |intros [= <-]; by left|].
  - by intros [?|(a' & [= <-] & ?)].
  - by intros [[= <-]|(a' & ? & _)].
Qed.

(** ** Machine integers

    An [u64] is a [Z] in [0, 2^64), an [i64] a [Z] in [-2^63, 2^63); release
    builds of the crate wrap on overflow (no profile turns the checks on). *)

Definition wrap_u64 (z : Z) : Z := z mod 2 ^ 64.
Definition wrap_i64 (z : Z) : Z := (z + 2 ^ 63) mod 2 ^ 64 - 2 ^ 63.
Definition wrap_u32 (z : Z) : Z := z mod 2 ^ 32.
Definition u64_ok (z : Z) : Prop := 0 <= z < 2 ^ 64.
Definition i64_ok (z : Z) : Prop := - 2 ^ 63 <= z < 2 ^ 63.
Definition u32_ok (z : Z) : Prop := 0 <= z < 2 ^ 32.

(** [i64::saturating_sub] *)
Definition saturating_sub_i64 (a b : Z) : Z :=
  Z.max (- 2 ^ 63) (Z.min (2 ^ 63 - 1) (a - b)).

Lemma wrap_u64_small z : u64_ok z -> wrap_u64 z = z.
Proof. intros. apply Z.mod_small. done. Qed.
Lemma wrap_u32_small z : u32_ok z -> wrap_u32 z = z.
Proof. intros. apply Z.mod_small. done. Qed.
Lemma wrap_i64_small z : i64_ok z -> wrap_i64 z = z.
Proof. unfold wrap_i64, i64_ok. intros. rewrite Z.mod_small; lia. Qed.
Lemma wrap_u64_ok z : u64_ok (wrap_u64 z).
Proof. unfold wrap_u64, u64_ok. apply Z.mod_pos_bound. lia. Qed.
(** [x as i64 as u64] is the identity on u64. *)
Lemma wrap_u64_of_i64 z : u64_ok z -> wrap_u64 (wrap_i64 z) = z.
Proof.
  unfold wrap_u64, wrap_i64, u64_ok. intros Hz.
  rewrite Zminus_mod, Zmod_mod, <- Zminus_mod.
  replace (z + 2 ^ 63 - 2 ^ 63) with z by lia. by apply Z.mod_small.
Qed.
Lemma wrap_i64_ok z : i64_ok (wrap_i64 z).
Proof.
  unfold wrap_i64, i64_ok.
  pose proof (Z.mod_pos_bound (z + 2 ^ 63) (2 ^ 64)). lia.
Qed.

(** ** Iteration order of hash maps

    [std::collections::HashMap] promises no order.  A definition whose code
    iterates a map takes the order as an instance of this class, so that its
    theorems hold for every order the program may see. *)

Class HashIter (K V : Type) `{Countable K} := {
  hm_iter : gmap K V -> list (K * V);
  hm_iter_perm : forall m, hm_iter m ≡ₚ map_to_list m
}.
Arguments hm_iter {K V _ _ _} m.

(** The order [map_to_list] is one of them: the class is inhabited. *)
Definition hash_iter_canonical {K V} `{Countable K} : HashIter K V :=
  {| hm_iter m := map_to_list m; hm_iter_perm m := reflexivity _ |}.

Lemma elem_of_hm_iter {K V} `{Countable K} `{!HashIter K V} (m : gmap K V) k v :
  (k, v) ∈ hm_iter m <-> m !! k = Some v.
Proof. rewrite hm_iter_perm. apply elem_of_map_to_list. Qed.

Lemma length_hm_iter {K V} `{Countable K} `{!HashIter K V} (m : gmap K V) :
  length (hm_iter m) = size m.
Proof. rewrite hm_iter_perm. by rewrite length_map_to_list. Qed.

(** ** Stable sorting: [slice::sort_by_key] *)

Section SortByKey.
Context {A : Type} (key : A -> Z).

Fixpoint insert_by_key (x : A) (l : list A) : list A :=
  match l with
  | [] => [x]
  | y :: l' => if key x <=? key y then x :: l else y :: insert_by_key x l'
  end.

Definition sort_by_key (l : list A) : list A := foldr insert_by_key [] l.

Definition key_le (x y : A) : Prop := key x <= key y.

Lemma insert_by_key_perm x l : insert_by_key x l ≡ₚ x :: l.
Proof.
  induction l as [|y l IH]; simpl; [done|].
  case_match; [done|]. rewrite IH. by constructor.
Qed.

Lemma sort_by_key_perm l : sort_by_key l ≡ₚ l.
Proof.
  induction l as [|x l IH]; simpl; [done|].
  by rewrite insert_by_key_perm, IH.
Qed.

Lemma insert_by_key_sorted x l :
  Sorted key_le l -> Sorted key_le (insert_by_key x l).
Proof.
  induction l as [|y l IH]; simpl; intros Hl; [by repeat constructor|].
  destruct (Z.leb_spec (key x) (key y)).
  - constructor; [done|]. by constructor.
  - apply Sorted_inv in Hl as [Hl Hy]. constructor; [by apply IH|].
    destruct l as [|z l]; simpl; [constructor; unfold key_le; lia|].
    apply HdRel_inv in Hy. unfold key_le in *.
    case_match; constructor; lia.
Qed.

Lemma sort_by_key_sorted l : Sorted key_le (sort_by_key l).
Proof. induction l; simpl; [constructor|]. by apply insert_by_key_sorted. Qed.

#[local] Instance key_le_trans : Transitive key_le.
Proof. unfold key_le. intros x y z. lia. Qed.

(** Two key-sorted permutations of a list with distinct keys are equal. *)
Lemma sorted_by_key_unique l1 l2 :
  NoDup (map key l1) ->
  Sorted key_le l1 -> Sorted key_le l2 -> l1 ≡ₚ l2 -> l1 = l2.
Proof.
  intros Hnd H1 H2. apply Sorted_StronglySorted in H1; [|apply _].
  apply Sorted_StronglySorted in H2; [|apply _].
  revert l2 H2 Hnd. induction H1 as [|x l1 H1 IH Hx]; intros l2 H2 Hnd Hp.
  - by apply Permutation_nil_l in Hp as ->.
  - destruct H2 as [|y l2 H2 Hy].
    { by apply Permutation_nil_r in Hp. }
    simpl in Hnd. apply NoDup_cons in Hnd as [Hx' Hnd].
    assert (x = y) as <-.
    { assert (y ∈ x :: l1) as Hin1 by (rewrite Hp; left).
      assert (x ∈ y :: l2) as Hin2 by (rewrite <- Hp; left).
      apply elem_of_cons in Hin1 as [->|Hin1]; [done|].
      apply elem_of_cons in Hin2 as [->|Hin2]; [done|].
      rewrite Forall_forall in Hx, Hy.
      assert (key x = key y) as Hk.
      { specialize (Hx _ Hin1). specialize (Hy _ Hin2). unfold key_le in *. lia. }
      exfalso. apply Hx'. rewrite Hk. by apply list_elem_of_fmap_2. }
    f_equal. apply IH; [done|done|]. by apply Permutation_cons_inv in Hp.
Qed.
End SortByKey.

(** ** Lists *)

Lemma foldl_preserves {A B S} (R : relation B) `{!PreOrder R} (g : S -> B) (f : S -> A -> S) (l : list A) (s : S) :
  (forall s x, R (g s) (g (f s x))) -> R (g s) (g (foldl f s l)).
Proof. intros Hf. revert s. induction l as [|x l IH]; intros s; [reflexivity|]. by etrans; [apply Hf|apply IH]. Qed.

Lemma foldl_sum_shift {A} (f : A -> Z) l a b :
  foldl (fun acc x => acc + f x) (a + b) l = a + foldl (fun acc x => acc + f x) b l.
Proof.
  revert b. induction l as [|x l IH]; intros b; simpl; [done|].
  by rewrite <- IH, Z.add_assoc.
Qed.

Lemma Forall_of_sublist {A} (P : A -> Prop) (l k : list A) :
  l `sublist_of` k -> Forall P k -> Forall P l.
Proof. rewrite !Forall_forall. intros Hs HP x Hx. apply HP. by eapply elem_of_sublist. Qed.

Lemma filter_ext_in {A} (P Q : A -> Prop) `{!forall x, Decision (P x), !forall x, Decision (Q x)}
    (l : list A) :
  (forall x, x ∈ l -> P x <-> Q x) -> filter P l = filter Q l.
Proof.
  induction l as [|x l IH]; intros Hl; [done|]. rewrite !filter_cons.
  rewrite (decide_ext (P x) (Q x)) by (apply Hl; left).
  rewrite IH by (intros; apply Hl; by right). done.
Qed.

(** The sum of a measure over a list. *)
Definition sum_of {A} (f : A -> Z) (l : list A) : Z := foldr (fun x acc => f x + acc) 0 l.

Lemma sum_of_app {A} (f : A -> Z) l k : sum_of f (l ++ k) = sum_of f l + sum_of f k.
Proof. induction l; simpl; lia. Qed.

Lemma sum_of_cons {A} (f : A -> Z) x l : sum_of f (x :: l) = f x + sum_of f l.
Proof. done. Qed.

Lemma sum_of_nonneg {A} (f : A -> Z) l : Forall (fun x => 0 <= f x) l -> 0 <= sum_of f l.
Proof. induction 1; simpl; lia. Qed.

Lemma sum_of_zero {A} (f : A -> Z) l :
  (forall x, 0 <= f x) -> sum_of f l = 0 <-> forall x, x ∈ l -> f x = 0.
Proof.
  intros Hf. induction l as [|x l IH]; simpl; [set_solver|].
  pose proof (Hf x). assert (0 <= sum_of f l) by (apply sum_of_nonneg, Forall_forall; auto).
  split.
  - intros Hs y [->|Hy]%elem_of_cons; [lia|]. apply IH; [lia|done].
  - intros Hs. rewrite (Hs x) by left. rewrite (proj2 IH); [done|]. intros y Hy.
    apply Hs. by right.
Qed.

(** ** Hint databases *)

Create HintDb tirbase.
Create Rewrite HintDb tirbase.
#[export] Hint Rewrite @sum_of_app @length_app : tirbase.
#[export] Hint Resolve sum_of_nonneg wrap_u64_ok wrap_i64_ok : tirbase.

(** ** Tactics *)

(** Case analysis on the scrutinee of the first [match]/[if] of the goal or of
    a hypothesis, keeping the equation, then clean up. *)
Ltac step_match :=
  match goal with
  | |- context [match ?x with _ => _ end] => destruct x eqn:?
  | H : context [match ?x with _ => _ end] |- _ => destruct x eqn:?
  end; simplify_eq/=.

(** Closed conjunctions of (in)equalities and [Forall]s by evaluation. *)
Ltac by_compute :=
  vm_compute; repeat first [reflexivity | discriminate | split | constructor].
(** Decide a closed proposition by evaluating its decision procedure. *)
Ltac by_decide :=
  match goal with
  | |- ?P => refine (@bool_decide_unpack P _ _); vm_compute; exact I
  end.
