(* ===== verification/Types.v ===== *)
(** * The data every component shares

    Identifiers, the Delta and its tag log ([crdt/delta.rs]), the states of an
    incident ([contamination/incident.rs]) and the error type of the public
    API ([errors.rs]).

    A [[u8; 32]] (DeltaId, MigrationId, SchemaIdentifierHash, ...) is the
    256-bit number its bytes spell in big-endian order, an [N]: equality and
    the lexicographic order of the byte arrays are equality and [<=] of the
    numbers.  A [Uuid] is a 128-bit number in the same way.  Bytes are [N]s
    below 256 in lists. *)

From S2P Require Import Prelude.

Abbreviation bytes := (list N) (only parsing).
Abbreviation Did := string (only parsing).
Abbreviation DeltaId := N (only parsing).
Abbreviation MigrationId := N (only parsing).
Abbreviation SchemaIdentifierHash := N (only parsing).
Abbreviation IncidentId := N (only parsing).
Abbreviation ReceiptId := N (only parsing).
Abbreviation ActorId := (list N) (only parsing).
Abbreviation Ed25519Signature := (list N) (only parsing).

(** The [n] big-endian bytes of a number: [AsRef<[u8]>] of a byte array. *)
Fixpoint be_bytes (n : nat) (x : N) : bytes :=
  match n with
  | O => []
  | S n' => be_bytes n' (N.shiftr x 8) ++ [N.land x 255]
  end.

Lemma length_be_bytes n x : length (be_bytes n x) = n.
Proof.
  revert x. induction n as [|n IH]; intros x; simpl; [done|].
  rewrite length_app, IH. simpl. lia.
Qed.

(** [str::as_bytes] *)
Fixpoint string_bytes (s : string) : bytes :=
  match s with "" => [] | String a s' => Ascii.N_of_ascii a :: string_bytes s' end.

(** [crdt/delta.rs] *)

Inductive PriorityClass := High | Medium | Low.

#[export] Instance PriorityClass_eq_dec : EqDecision PriorityClass.
Proof. solve_decision. Defined.

Inductive DeltaTag :=
| Contaminated (root_id : DeltaId) (incident_id : IncidentId)
| Decontaminated (incident_id : IncidentId) (resolved_at : Z)
| Resolved (by_manager_did : Did) (at_ : Z)
| ContaminatedByHumanReaction (incident_id : IncidentId)
| ContaminatedByCorruptedMigration (migration_id : MigrationId)
| ReplayComplete (migration_id : MigrationId).

#[export] Instance DeltaTag_eq_dec : EqDecision DeltaTag.
Proof. solve_decision. Defined.

Record Delta := mkDelta {
  d_id : DeltaId;
  d_author_did : Did;
  d_signature : Ed25519Signature;
  d_schema_hash : SchemaIdentifierHash;
  d_automerge_bytes : bytes;
  d_priority : PriorityClass;
  d_causal_parents : list DeltaId;
  d_tags : list DeltaTag;
  d_lamport : Z;
  d_created_at : Z
}.

#[export] Instance Delta_eq_dec : EqDecision Delta.
Proof. solve_decision. Defined.

(** [CanonicalDeltaPayload]: the fields [canonical_bytes] serialises, in its
    order; [id] and [signature] are left out. *)
Record CanonicalDeltaPayload := mkCanonical {
  c_author_did : Did;
  c_schema_hash : SchemaIdentifierHash;
  c_automerge_bytes : bytes;
  c_priority : PriorityClass;
  c_causal_parents : list DeltaId;
  c_tags : list DeltaTag;
  c_lamport : Z;
  c_created_at : Z
}.

Definition canonical_payload (d : Delta) : CanonicalDeltaPayload :=
  mkCanonical (d_author_did d) (d_schema_hash d) (d_automerge_bytes d)
    (d_priority d) (d_causal_parents d) (d_tags d) (d_lamport d) (d_created_at d).

(** [contamination/incident.rs] *)

Inductive IncidentState :=
| Open
| Closed
| SupersededBy (by_ : IncidentId)
| Decomposed.

#[export] Instance IncidentState_eq_dec : EqDecision IncidentState.
Proof. solve_decision. Defined.

(** [errors.rs].  Numbers, DIDs and states are the ones the code puts in the
    error; a free-text [reason] (and a hexadecimal rendering of an id) is kept
    as the literal text of the code's message, without the interpolated
    values. *)
Inductive TirBaseError :=
| DidResolutionFailed (did : Did) (reason : string)
| SignatureVerificationFailed (reason : string)
| PeerRevoked (peer_did : Did)
| ThresholdNotMet (got need : nat)
| AuthorisationFailed (reason : string)
| UnknownSchemaHash (hash : SchemaIdentifierHash)
| DeltaMalformed (reason : string)
| SchemaParseError (line col : Z) (description : string)
| VersionPathMismatch (local_ver source_ver : SchemaIdentifierHash)
    (expected_next : option SchemaIdentifierHash)
| SchemaRegistrationFailed (reason : string)
| NoiseHandshakeFailed (peer_did : Did) (reason : string)
| MeshUnavailable (reason : string)
| FragmentReassemblyFailed (sender_did : Did) (expected : Z)
| CloudQueueFull (depth : nat)
| UnsupportedTaintSource
| InvalidIncidentState (got : IncidentState)
| MigrationCaSignatureInvalid (migration_id : MigrationId)
| MigrationHashMismatch (migration_id : MigrationId)
| MigrationTransformTimeout (migration_id : MigrationId)
| MigrationInProgress (migration_id : MigrationId)
| UnknownMigrationHash (migration_id : MigrationId)
| LocalStoreWriteFailed (reason : string)
| CompactionFailed (table : string) (reason : string)
| RefetchUnavailable (delta_id : DeltaId)
| SpatialDiversityDegraded (available required : nat).

#[export] Instance TirBaseError_eq_dec : EqDecision TirBaseError.
Proof. solve_decision. Defined.

Abbreviation Res A := (result TirBaseError A).

(** ** A concrete serialisation

    For the examples: any countable value as a string of bits, one per byte. *)
Fixpoint pos_bits (p : positive) : bytes :=
  match p with
  | xH => []
  | xO p => 0%N :: pos_bits p
  | xI p => 1%N :: pos_bits p
  end.
Fixpoint bits_pos (b : bytes) : positive :=
  match b with
  | [] => xH
  | 0%N :: b => xO (bits_pos b)
  | _ :: b => xI (bits_pos b)
  end.

Definition pack {A} `{Countable A} (x : A) : bytes := pos_bits (encode x).
Definition unpack {A} `{Countable A} (b : bytes) : option A := decode (bits_pos b).

Lemma unpack_pack {A} `{Countable A} (x : A) : unpack (pack x) = Some x.
Proof.
  unfold unpack, pack. assert (forall p, bits_pos (pos_bits p) = p) as Hp.
  { induction p as [p IH|p IH|]; cbn; by rewrite ?IH. }
  by rewrite Hp, decode_encode.
Qed.
