(* ===== verification/Scheduler.v ===== *)
(** * Priority classes and the Deficit Round Robin scheduler

    [transport/priority.rs] (classification of a delta by its payload flags)
    and [transport/scheduler.rs] (the three queues, their deficit counters,
    [enqueue], [tick], saturate mode).  A [VecDeque] is a list, its front
    first; every addition and cast is the wrapping one of the machine. *)

From S2P Require Import Prelude Types.

Module Priority.

Inductive PayloadFlag :=
| Revocation | SafetyAlert | EmergencyAlert
| PeerReachability | LinkState | SessionValidity.

#[export] Instance PayloadFlag_eq_dec : EqDecision PayloadFlag.
Proof. solve_decision. Defined.

Definition classify (delta : Delta) : PriorityClass := d_priority delta.

(** The [for] loop of [classify_with_flags], from the current [result]. *)
Fixpoint classify_loop (flags : list PayloadFlag) (res : PriorityClass) : PriorityClass :=
  match flags with
  | [] => res
  | flag :: flags' =>
      match flag with
      | Revocation | SafetyAlert | EmergencyAlert => High
      | PeerReachability | LinkState | SessionValidity => classify_loop flags' Medium
      end
  end.

Definition classify_with_flags (flags : list PayloadFlag) : PriorityClass :=
  classify_loop flags Low.

(** The tier of one flag, and the order in which tiers win. *)
Definition is_high (f : PayloadFlag) : bool :=
  match f with Revocation | SafetyAlert | EmergencyAlert => true | _ => false end.

Lemma classify_loop_spec flags r :
  classify_loop flags r =
  if existsb is_high flags then High
  else match flags with [] => r | _ => Medium end.
Proof.
  revert r. induction flags as [|f flags IH]; intros r; simpl; [done|].
  destruct f; simpl; [done|done|done| | |]; rewrite IH;
    destruct flags; simpl; try done; by repeat case_match.
Qed.

(** The classification depends only on which tiers are present, never on
    the order of the flags: HIGH iff some flag is a revocation or an alert,
    LOW iff there is no flag, MEDIUM otherwise. *)
Theorem classify_with_flags_tier flags :
  classify_with_flags flags =
  (if existsb is_high flags then High
   else match flags with [] => Low | _ => Medium end).
Proof. apply classify_loop_spec. Qed.

End Priority.

Module Scheduler.

Record QueuedDelta := mkQueued {
  delta : Delta;
  serialized_len : Z;   (* u64 *)
  enqueued_at : Z       (* i64 *)
}.

Record DrrScheduler := mkDrr {
  high_queue : list QueuedDelta;
  medium_queue : list QueuedDelta;
  low_queue : list QueuedDelta;
  high_deficit : Z;     (* i64 *)
  medium_deficit : Z;
  low_deficit : Z;
  high_quantum : Z;     (* u64 *)
  medium_quantum : Z;
  low_quantum : Z;
  saturate_mode : bool
}.

(** [(link_capacity_bytes_per_sec * pct) / 100] on [u64]. *)
Definition quantum (capacity pct : Z) : Z := wrap_u64 (capacity * pct) / 100.

Definition new (link_capacity_bytes_per_sec : Z) : DrrScheduler :=
  mkDrr [] [] [] 0 0 0
    (quantum link_capacity_bytes_per_sec 70)
    (quantum link_capacity_bytes_per_sec 20)
    (quantum link_capacity_bytes_per_sec 10) false.

Definition update_link_capacity (s : DrrScheduler) (link_capacity_bytes_per_sec : Z)
  : DrrScheduler :=
  mkDrr (high_queue s) (medium_queue s) (low_queue s)
    (high_deficit s) (medium_deficit s) (low_deficit s)
    (quantum link_capacity_bytes_per_sec 70)
    (quantum link_capacity_bytes_per_sec 20)
    (quantum link_capacity_bytes_per_sec 10) (saturate_mode s).

Definition enqueue (s : DrrScheduler) (q : QueuedDelta) : DrrScheduler :=
  let put h m l :=
    mkDrr h m l (high_deficit s) (medium_deficit s) (low_deficit s)
      (high_quantum s) (medium_quantum s) (low_quantum s) (saturate_mode s) in
  match d_priority (delta q) with
  | High => put (high_queue s ++ [q]) (medium_queue s) (low_queue s)
  | Medium => put (high_queue s) (medium_queue s ++ [q]) (low_queue s)
  | Low => put (high_queue s) (medium_queue s) (low_queue s ++ [q])
  end.

(** The [while let] loop of [drain_queue]: the deltas popped, the rest of the
    queue, and the final [bytes_sent]. *)
Fixpoint drain_loop (queue : list QueuedDelta) (budget bytes_sent : Z)
  : list QueuedDelta * list QueuedDelta * Z :=
  match queue with
  | [] => ([], [], bytes_sent)
  | front :: queue' =>
      let len := wrap_i64 (serialized_len front) in
      if wrap_i64 (bytes_sent + len) <=? budget then
        let '(sent, rest, total) := drain_loop queue' budget (wrap_i64 (bytes_sent + len)) in
        (front :: sent, rest, total)
      else ([], queue, bytes_sent)
  end.

(** Returns the deltas sent, the queue left and the new deficit. *)
Definition drain_queue (queue : list QueuedDelta) (budget deficit : Z)
  : list QueuedDelta * list QueuedDelta * Z :=
  let '(sent, rest, bytes_sent) := drain_loop queue budget 0 in
  (sent, rest, wrap_i64 (deficit - bytes_sent)).

(** [iter().map(|d| d.serialized_len).sum::<u64>()] and its [i64] variant. *)
Definition sum_u64 (l : list QueuedDelta) : Z :=
  foldl (fun acc d => wrap_u64 (acc + serialized_len d)) 0 l.
Definition sum_i64 (l : list QueuedDelta) : Z :=
  foldl (fun acc d => wrap_i64 (acc + wrap_i64 (serialized_len d))) 0 l.

(** One redistribution step of phase 3: drain only when there is spare
    capacity and a backlog. *)
Definition drain_spare (spare : Z) (queue : list QueuedDelta) (deficit : Z)
  : list QueuedDelta * list QueuedDelta * Z * Z :=
  if (0 <? spare) && negb (bool_decide (queue = [])) then
    let '(extra, rest, deficit') := drain_queue queue spare deficit in
    (extra, rest, deficit', wrap_i64 (spare - sum_i64 extra))
  else ([], queue, deficit, spare).

Definition tick (s : DrrScheduler) (link_capacity_bytes : Z)
  : DrrScheduler * list QueuedDelta :=
  if saturate_mode s then
    let '(sent, rest, deficit) :=
      drain_queue (high_queue s) (wrap_i64 link_capacity_bytes) (high_deficit s) in
    (mkDrr rest (medium_queue s) (low_queue s)
       deficit (medium_deficit s) (low_deficit s)
       (high_quantum s) (medium_quantum s) (low_quantum s) true, sent)
  else
    (* phase 1: the guaranteed quanta *)
    let hd := wrap_i64 (high_deficit s + wrap_i64 (high_quantum s)) in
    let md := wrap_i64 (medium_deficit s + wrap_i64 (medium_quantum s)) in
    let ld := wrap_i64 (low_deficit s + wrap_i64 (low_quantum s)) in
    (* phase 2: each queue up to its deficit *)
    let '(sent_high, hq, hd) := drain_queue (high_queue s) hd hd in
    let '(sent_medium, mq, md) := drain_queue (medium_queue s) md md in
    let '(sent_low, lq, ld) := drain_queue (low_queue s) ld ld in
    (* phase 3: the spare capacity, HIGH then MEDIUM then LOW *)
    let total_sent :=
      wrap_u64 (wrap_u64 (sum_u64 sent_high + sum_u64 sent_medium) + sum_u64 sent_low) in
    let spare := wrap_i64 (wrap_i64 link_capacity_bytes - wrap_i64 total_sent) in
    let '(extra_high, hq, hd, spare) := drain_spare spare hq hd in
    let '(extra_medium, mq, md, spare) := drain_spare spare mq md in
    let '(extra_low, lq, ld, _) := drain_spare spare lq ld in
    (mkDrr hq mq lq hd md ld
       (high_quantum s) (medium_quantum s) (low_quantum s) false,
     (sent_high ++ extra_high) ++ (sent_medium ++ extra_medium) ++ (sent_low ++ extra_low)).

Definition set_saturate_mode (s : DrrScheduler) (active : bool) : DrrScheduler :=
  mkDrr (high_queue s) (medium_queue s) (low_queue s)
    (if active then high_deficit s else 0)
    (if active then medium_deficit s else 0)
    (if active then low_deficit s else 0)
    (high_quantum s) (medium_quantum s) (low_quantum s) active.

Definition is_saturate_mode (s : DrrScheduler) : bool := saturate_mode s.

Definition has_backlog (s : DrrScheduler) : bool :=
  negb (bool_decide (high_queue s = [])) || negb (bool_decide (medium_queue s = []))
  || negb (bool_decide (low_queue s = [])).

Definition low_queue_depth (s : DrrScheduler) : nat := length (low_queue s).
Definition high_queue_depth (s : DrrScheduler) : nat := length (high_queue s).
Definition medium_queue_depth (s : DrrScheduler) : nat := length (medium_queue s).

Definition low_clearing_capacity (link_capacity_bytes_per_sec : Z) : Z :=
  wrap_u64 (wrap_u64 (link_capacity_bytes_per_sec * 10) / 100 * 10).

(** ** Specification vocabulary: one class at a time *)

Definition queue_of (c : PriorityClass) (s : DrrScheduler) : list QueuedDelta :=
  match c with High => high_queue s | Medium => medium_queue s | Low => low_queue s end.
Definition deficit_of (c : PriorityClass) (s : DrrScheduler) : Z :=
  match c with High => high_deficit s | Medium => medium_deficit s | Low => low_deficit s end.
Definition quantum_of (c : PriorityClass) (s : DrrScheduler) : Z :=
  match c with High => high_quantum s | Medium => medium_quantum s | Low => low_quantum s end.

Definition bytes_of (l : list QueuedDelta) : Z := sum_of serialized_len l.
Definition lens_ok (l : list QueuedDelta) : Prop :=
  Forall (fun d => 0 <= serialized_len d) l.
(** The part of [l] of class [c]. *)
Definition of_class (c : PriorityClass) (l : list QueuedDelta) : list QueuedDelta :=
  filter (fun q => d_priority (delta q) = c) l.

(** Every queue holds deltas of its own class. *)
Definition sorted_queues (s : DrrScheduler) : Prop :=
  forall c, Forall (fun q => d_priority (delta q) = c) (queue_of c s).

(** What draining a queue with a budget means: the longest prefix that fits. *)
Definition drains (budget : Z) (queue sent rest : list QueuedDelta) : Prop :=
  queue = sent ++ rest /\
  (sent = [] \/ bytes_of sent <= budget) /\
  match rest with [] => True | d :: _ => budget < bytes_of sent + serialized_len d end.

Lemma bytes_of_nonneg l : lens_ok l -> 0 <= bytes_of l.
Proof. apply sum_of_nonneg. Qed.

Lemma lens_ok_app l k : lens_ok (l ++ k) <-> lens_ok l /\ lens_ok k.
Proof. apply Forall_app. Qed.

Lemma drain_loop_split queue budget b sent rest total :
  drain_loop queue budget b = (sent, rest, total) -> queue = sent ++ rest.
Proof.
  revert b sent total. induction queue as [|d queue IH]; intros b sent total; simpl.
  - by intros [= <- <- <-].
  - case_match; [|by intros [= <- <- <-]].
    destruct (drain_loop queue _ _) as [[sent' rest'] total'] eqn:E.
    intros [= <- <- <-]. simpl. f_equal. by eapply IH.
Qed.

Lemma drain_loop_spec queue budget b sent rest total :
  lens_ok queue -> 0 <= b -> b + bytes_of queue < 2 ^ 63 ->
  drain_loop queue budget b = (sent, rest, total) ->
  total = b + bytes_of sent /\ drains (budget - b) queue sent rest.
Proof.
  unfold lens_ok, drains, bytes_of.
  revert b sent total. induction queue as [|d queue IH]; intros b sent total; simpl.
  - intros _ ? ? [= <- <- <-]. simpl. split; [lia|]. by repeat split; left.
  - intros [Hd Hq]%Forall_cons Hb Hlt.
    pose proof (sum_of_nonneg _ _ Hq) as Hnn.
    rewrite !wrap_i64_small; try (unfold i64_ok; lia).
    2: { rewrite wrap_i64_small; unfold i64_ok; lia. }
    destruct (Z.leb_spec (b + serialized_len d) budget) as [Hle|Hgt].
    + destruct (drain_loop queue _ _) as [[sent' rest'] total'] eqn:E.
      intros [= <- <- <-].
      apply IH in E as (-> & -> & Hs & Hr); [|done|lia|lia]. simpl.
      split; [lia|]. split_and!; [done|right; destruct Hs as [->|Hs]; simpl; lia|].
      destruct rest'; [done|]. lia.
    + intros [= <- <- <-]. simpl. split; [lia|]. split_and!; [done|by left|lia].
Qed.

Lemma drain_queue_spec queue budget deficit sent rest deficit' :
  lens_ok queue -> bytes_of queue < 2 ^ 63 ->
  drain_queue queue budget deficit = (sent, rest, deficit') ->
  drains budget queue sent rest /\ deficit' = wrap_i64 (deficit - bytes_of sent).
Proof.
  unfold drain_queue. intros Hq Hlt.
  destruct (drain_loop queue budget 0) as [[s r] t] eqn:E. intros [= <- <- <-].
  apply drain_loop_spec in E as [-> Hd]; [|done|lia|lia].
  rewrite Z.sub_0_r in Hd. by split.
Qed.

Lemma drain_queue_split queue budget deficit sent rest deficit' :
  drain_queue queue budget deficit = (sent, rest, deficit') -> queue = sent ++ rest.
Proof.
  unfold drain_queue.
  destruct (drain_loop queue budget 0) as [[s r] t] eqn:E. intros [= <- <- <-].
  by eapply drain_loop_split.
Qed.

Lemma drain_spare_split spare queue deficit extra rest deficit' spare' :
  drain_spare spare queue deficit = (extra, rest, deficit', spare') ->
  queue = extra ++ rest.
Proof.
  unfold drain_spare. case_match; [|by intros [= <- <- <- <-]].
  destruct (drain_queue queue spare deficit) as [[s r] t] eqn:E. intros [= <- <- <- <-].
  by eapply drain_queue_split.
Qed.

Lemma sum_u64_bytes l :
  lens_ok l -> bytes_of l < 2 ^ 64 -> sum_u64 l = bytes_of l.
Proof.
  unfold sum_u64, bytes_of, lens_ok. intros Hl.
  enough (forall b, 0 <= b -> b + sum_of serialized_len l < 2 ^ 64 ->
    foldl (fun acc d => wrap_u64 (acc + serialized_len d)) b l
    = b + sum_of serialized_len l) as H by (intros; rewrite H; lia).
  induction Hl as [|d l Hd Hl IH]; simpl; intros b Hb Hlt; [lia|].
  pose proof (sum_of_nonneg _ _ Hl).
  rewrite wrap_u64_small by (unfold u64_ok; lia). rewrite IH; lia.
Qed.

Lemma sum_i64_bytes l :
  lens_ok l -> bytes_of l < 2 ^ 63 -> sum_i64 l = bytes_of l.
Proof.
  unfold sum_i64, bytes_of, lens_ok. intros Hl.
  enough (forall b, 0 <= b -> b + sum_of serialized_len l < 2 ^ 63 ->
    foldl (fun acc d => wrap_i64 (acc + wrap_i64 (serialized_len d))) b l
    = b + sum_of serialized_len l) as H by (intros; rewrite H; lia).
  induction Hl as [|d l Hd Hl IH]; simpl; intros b Hb Hlt; [lia|].
  pose proof (sum_of_nonneg _ _ Hl).
  rewrite (wrap_i64_small (serialized_len d)) by (unfold i64_ok; lia).
  rewrite wrap_i64_small by (unfold i64_ok; lia). rewrite IH; lia.
Qed.

(** Phase 3 on one queue, when nothing overflows. *)
Lemma drain_spare_spec spare queue deficit extra rest deficit' spare' :
  lens_ok queue -> bytes_of queue <= 2 ^ 62 -> - 2 ^ 62 <= spare < 2 ^ 63 ->
  i64_ok (deficit - bytes_of queue) -> i64_ok deficit ->
  drain_spare spare queue deficit = (extra, rest, deficit', spare') ->
  queue = extra ++ rest /\ deficit' = deficit - bytes_of extra /\
  spare' = spare - bytes_of extra /\ (extra = [] \/ bytes_of extra <= spare).
Proof.
  unfold drain_spare, i64_ok. intros Hq Hlt Hs Hd1 Hd2. case_match.
  - destruct (drain_queue queue spare deficit) as [[s r] t] eqn:E. intros [= <- <- <- <-].
    apply drain_queue_spec in E as [(-> & Hb & _) ->]; [|done|lia].
    apply lens_ok_app in Hq as [Hq1 Hq2].
    apply bytes_of_nonneg in Hq2.
    pose proof (bytes_of_nonneg _ Hq1).
    unfold bytes_of in *. rewrite sum_of_app in *.
    rewrite (sum_i64_bytes s) by (unfold bytes_of; done || lia).
    unfold bytes_of.
    rewrite !wrap_i64_small; unfold i64_ok; try lia.
    split_and!; [done|done|done|done].
  - intros [= <- <- <- <-]. change (bytes_of []) with 0.
    split_and!; [done|lia|lia|by left].
Qed.

(** The head of a backlogged queue costs more than the deficit that is left. *)
Definition head_exceeds (deficit : Z) (queue : list QueuedDelta) : Prop :=
  match queue with [] => True | d :: _ => deficit < serialized_len d end.

(** Phases 2 and 3 on one queue. *)
Lemma serve_class queue budget s1 r1 d1 spare x r2 d2 spare' :
  drain_queue queue budget budget = (s1, r1, d1) ->
  drain_spare spare r1 d1 = (x, r2, d2, spare') ->
  lens_ok queue -> bytes_of queue <= 2 ^ 60 -> budget <= 2 ^ 62 ->
  - 2 ^ 62 <= budget - bytes_of queue -> - 2 ^ 62 <= spare < 2 ^ 63 ->
  queue = (s1 ++ x) ++ r2 /\ d2 = budget - bytes_of (s1 ++ x) /\ head_exceeds d2 r2 /\
  spare' = spare - bytes_of x /\ (x = [] \/ bytes_of x <= spare) /\
  bytes_of s1 <= Z.max 0 budget /\
  0 <= bytes_of x /\ bytes_of s1 + bytes_of x <= bytes_of queue.
Proof.
  intros E1 E2 Hq Hb1 Hb2 Hb3 Hsp.
  apply drain_queue_spec in E1 as [(-> & Hfit & Hhd) ->]; [|done|lia].
  apply lens_ok_app in Hq as [Hq1 Hq2].
  pose proof (bytes_of_nonneg _ Hq1). pose proof (bytes_of_nonneg _ Hq2).
  unfold bytes_of in Hb1, Hb3; rewrite sum_of_app in Hb1, Hb3; fold (bytes_of s1) in *;
    fold (bytes_of r1) in *.
  rewrite wrap_i64_small in E2 by (unfold i64_ok; lia).
  apply drain_spare_spec in E2 as (-> & -> & -> & Hx);
    [|done|lia|lia|unfold i64_ok; lia..].
  apply lens_ok_app in Hq2 as [Hq2 Hq3].
  pose proof (bytes_of_nonneg _ Hq2). pose proof (bytes_of_nonneg _ Hq3).
  split_and!; [by rewrite app_assoc| | |done|done| |done|].
  - unfold bytes_of. rewrite sum_of_app. lia.
  - unfold head_exceeds. destruct r2 as [|d r2]; [done|].
    destruct x as [|e x]; simpl in Hhd.
    + change (bytes_of []) with 0. lia.
    + apply Forall_cons in Hq2 as [He Hx']. apply bytes_of_nonneg in Hx'.
      apply Forall_cons in Hq3 as [Hd _]. unfold bytes_of in *. simpl. lia.
  - destruct Hfit as [->|?]; [change (bytes_of []) with 0; lia|lia].
  - unfold bytes_of. rewrite !sum_of_app. unfold bytes_of in *. lia.
Qed.

(** No counter overflows during a tick. *)
Definition tick_ok (s : DrrScheduler) (cap : Z) : Prop :=
  0 <= cap < 2 ^ 63 /\
  forall c, lens_ok (queue_of c s) /\ bytes_of (queue_of c s) <= 2 ^ 60 /\
    0 <= quantum_of c s < 2 ^ 62 /\
    - 2 ^ 62 <= deficit_of c s - bytes_of (queue_of c s) /\
    deficit_of c s + quantum_of c s <= 2 ^ 62.

(** The effect of a normal tick on one class: [sent] leaves the front of its
    queue, is charged to its deficit, and a backlog left over means that the
    deficit does not pay for its head. *)
Definition served (c : PriorityClass) (s s' : DrrScheduler) (sent : list QueuedDelta) : Prop :=
  queue_of c s = sent ++ queue_of c s' /\
  deficit_of c s' = deficit_of c s + quantum_of c s - bytes_of sent /\
  head_exceeds (deficit_of c s') (queue_of c s') /\
  quantum_of c s' = quantum_of c s.

Lemma drain_queue_sent_le queue budget deficit sent rest d' :
  lens_ok queue -> bytes_of queue <= 2 ^ 60 ->
  drain_queue queue budget deficit = (sent, rest, d') ->
  lens_ok sent /\ 0 <= bytes_of sent <= bytes_of queue.
Proof.
  intros Hq Hb E. apply drain_queue_split in E as ->.
  apply lens_ok_app in Hq as [H1 H2]. split; [done|].
  pose proof (bytes_of_nonneg _ H1). apply bytes_of_nonneg in H2.
  unfold bytes_of in *. rewrite sum_of_app. lia.
Qed.

Lemma tick_served s cap s' out :
  saturate_mode s = false -> tick_ok s cap -> tick s cap = (s', out) ->
  saturate_mode s' = false /\
  exists sh sm sl, out = sh ++ sm ++ sl /\
    served High s s' sh /\ served Medium s s' sm /\ served Low s s' sl /\
    bytes_of out <= Z.max cap
      (Z.max 0 (high_deficit s + high_quantum s) + Z.max 0 (medium_deficit s + medium_quantum s)
       + Z.max 0 (low_deficit s + low_quantum s)).
Proof.
  intros Hm [Hcap Hok] E. unfold tick in E. rewrite Hm in E.
  destruct (Hok High) as (h1 & h2 & h3 & h4 & h5).
  destruct (Hok Medium) as (m1 & m2 & m3 & m4 & m5).
  destruct (Hok Low) as (l1 & l2 & l3 & l4 & l5). clear Hok. simpl in *.
  pose proof (bytes_of_nonneg _ h1). pose proof (bytes_of_nonneg _ m1).
  pose proof (bytes_of_nonneg _ l1).
  rewrite (wrap_i64_small (high_quantum s)), (wrap_i64_small (medium_quantum s)),
    (wrap_i64_small (low_quantum s)), (wrap_i64_small cap) in E by (unfold i64_ok; lia).
  rewrite (wrap_i64_small (high_deficit s + _)), (wrap_i64_small (medium_deficit s + _)),
    (wrap_i64_small (low_deficit s + _)) in E by (unfold i64_ok; lia).
  destruct (drain_queue (high_queue s) _ _) as [[sh hq] hd] eqn:Eh.
  destruct (drain_queue (medium_queue s) _ _) as [[sm mq] md] eqn:Em.
  destruct (drain_queue (low_queue s) _ _) as [[sl lq] ld] eqn:El.
  pose proof (drain_queue_sent_le _ _ _ _ _ _ h1 h2 Eh) as [Lh Bh].
  pose proof (drain_queue_sent_le _ _ _ _ _ _ m1 m2 Em) as [Lm Bm].
  pose proof (drain_queue_sent_le _ _ _ _ _ _ l1 l2 El) as [Ll Bl].
  rewrite !sum_u64_bytes in E by (done || lia).
  rewrite !wrap_u64_small in E by (unfold u64_ok; try rewrite wrap_u64_small; unfold u64_ok; lia).
  rewrite !(wrap_i64_small (_ + _)) in E by (unfold i64_ok; lia).
  rewrite (wrap_i64_small (cap - _)) in E by (unfold i64_ok; lia).
  destruct (drain_spare _ hq hd) as [[[xh hq'] hd'] sp1] eqn:Xh.
  destruct (drain_spare sp1 mq md) as [[[xm mq'] md'] sp2] eqn:Xm.
  destruct (drain_spare sp2 lq ld) as [[[xl lq'] ld'] sp3] eqn:Xl.
  injection E as <- <-.
  destruct (serve_class _ _ _ _ _ _ _ _ _ _ Eh Xh)
    as (P1 & P2 & P3 & -> & P4 & P5 & P6 & P7); [done|lia..|].
  destruct (serve_class _ _ _ _ _ _ _ _ _ _ Em Xm)
    as (M1 & M2 & M3 & -> & M4 & M5 & M6 & M7); [done|lia..|].
  destruct (serve_class _ _ _ _ _ _ _ _ _ _ El Xl)
    as (L1 & L2 & L3 & -> & L4 & L5 & L6 & L7); [done|lia..|].
  split; [done|]. exists (sh ++ xh), (sm ++ xm), (sl ++ xl).
  split_and!; try done; unfold served; simpl; try (split_and!; done).
  unfold bytes_of in *. rewrite !sum_of_app.
  destruct P4 as [->|P4], M4 as [->|M4], L4 as [->|L4]; cbn [sum_of foldr] in *; lia.
Qed.

(** ** Runs of the scheduler *)

(** What the transport does to the scheduler between two capacity changes. *)
Inductive Event :=
| Enqueue (q : QueuedDelta)
| Tick (link_capacity_bytes : Z).

Definition apply_event (s : DrrScheduler) (e : Event) : DrrScheduler * list QueuedDelta :=
  match e with
  | Enqueue q => (enqueue s q, [])
  | Tick cap => tick s cap
  end.

Fixpoint run (s : DrrScheduler) (es : list Event) : DrrScheduler * list QueuedDelta :=
  match es with
  | [] => (s, [])
  | e :: es' =>
      let '(s1, out1) := apply_event s e in
      let '(s2, out2) := run s1 es' in
      (s2, out1 ++ out2)
  end.

Definition ticks (es : list Event) : Z :=
  sum_of (fun e => match e with Tick _ => 1 | _ => 0 end) es.
Definition arrivals (c : PriorityClass) (es : list Event) : list QueuedDelta :=
  omap (fun e => match e with
                 | Enqueue q => if decide (d_priority (delta q) = c) then Some q else None
                 | Tick _ => None end) es.
Definition caps_ok (es : list Event) : Prop :=
  Forall (fun e => match e with Tick cap => 0 <= cap < 2 ^ 63 | _ => True end) es.

(** No counter overflows during the whole run: the bytes present or arriving
    and the quanta of its ticks stay within 2^60. *)
Definition run_ok (s : DrrScheduler) (es : list Event) : Prop :=
  caps_ok es /\ forall c,
    lens_ok (queue_of c s ++ arrivals c es) /\
    bytes_of (queue_of c s ++ arrivals c es) <= 2 ^ 60 /\
    0 <= quantum_of c s < 2 ^ 62 /\
    - 2 ^ 62 <= deficit_of c s - bytes_of (queue_of c s ++ arrivals c es) /\
    deficit_of c s + ticks es * quantum_of c s <= 2 ^ 62.

Lemma ticks_nonneg es : 0 <= ticks es.
Proof. apply sum_of_nonneg, Forall_forall. intros [] _; lia. Qed.

Lemma of_class_app c l k : of_class c (l ++ k) = of_class c l ++ of_class c k.
Proof. apply filter_app. Qed.

Lemma of_class_all c l : Forall (fun q => d_priority (delta q) = c) l -> of_class c l = l.
Proof.
  induction 1 as [|q l Hq Hl IH]; [done|].
  unfold of_class in *. rewrite filter_cons_True by done. by rewrite IH.
Qed.

Lemma of_class_none c c' l :
  c <> c' -> Forall (fun q => d_priority (delta q) = c') l -> of_class c l = [].
Proof.
  intros Hne Hl. induction Hl as [|q l Hq Hl IH]; [done|].
  unfold of_class in *. rewrite filter_cons_False; congruence.
Qed.

Lemma sorted_queues_sub c l k :
  Forall (fun q => d_priority (delta q) = c) (l ++ k) ->
  Forall (fun q => d_priority (delta q) = c) l /\ Forall (fun q => d_priority (delta q) = c) k.
Proof. apply Forall_app. Qed.

(** A tick, whatever its numbers, pops a prefix of each queue and transmits the
    three prefixes in priority order. *)
Lemma tick_prefixes s cap s' out :
  tick s cap = (s', out) ->
  exists sent : PriorityClass -> list QueuedDelta,
    out = sent High ++ sent Medium ++ sent Low /\
    (forall c, queue_of c s = sent c ++ queue_of c s') /\
    saturate_mode s' = saturate_mode s /\
    (saturate_mode s = true -> sent Medium = [] /\ sent Low = []).
Proof.
  unfold tick. destruct (saturate_mode s) eqn:Hm.
  - destruct (drain_queue _ _ _) as [[sent rest] d] eqn:E. intros [= <- <-].
    apply drain_queue_split in E.
    exists (fun c => match c with High => sent | _ => [] end). simpl.
    split_and!; [by rewrite app_nil_r|by intros []|done|done].
  - destruct (drain_queue (high_queue s) _ _) as [[sh hq] hd] eqn:Eh.
    destruct (drain_queue (medium_queue s) _ _) as [[sm mq] md] eqn:Em.
    destruct (drain_queue (low_queue s) _ _) as [[sl lq] ld] eqn:El.
    destruct (drain_spare _ hq hd) as [[[xh hq'] hd'] sp1] eqn:Xh.
    destruct (drain_spare sp1 mq md) as [[[xm mq'] md'] sp2] eqn:Xm.
    destruct (drain_spare sp2 lq ld) as [[[xl lq'] ld'] sp3] eqn:Xl.
    intros [= <- <-].
    apply drain_queue_split in Eh, Em, El. apply drain_spare_split in Xh, Xm, Xl. subst.
    exists (fun c => match c with High => sh ++ xh | Medium => sm ++ xm | Low => sl ++ xl end).
    split_and!; [done| |done|done].
    intros []; simpl; rewrite ?Eh, ?Em, ?El; by rewrite app_assoc.
Qed.

Lemma enqueue_queue c s q :
  queue_of c (enqueue s q) =
  queue_of c s ++ (if decide (d_priority (delta q) = c) then [q] else []).
Proof.
  unfold enqueue. destruct (d_priority (delta q)), c; simpl; by rewrite ?app_nil_r.
Qed.

Lemma enqueue_deficit c s q : deficit_of c (enqueue s q) = deficit_of c s.
Proof. unfold enqueue. by destruct (d_priority (delta q)), c. Qed.
Lemma enqueue_quantum c s q : quantum_of c (enqueue s q) = quantum_of c s.
Proof. unfold enqueue. by destruct (d_priority (delta q)), c. Qed.
Lemma enqueue_saturate s q : saturate_mode (enqueue s q) = saturate_mode s.
Proof. unfold enqueue. by destruct (d_priority (delta q)). Qed.

Lemma arrivals_cons_enqueue c q es :
  arrivals c (Enqueue q :: es) =
  (if decide (d_priority (delta q) = c) then [q] else []) ++ arrivals c es.
Proof. unfold arrivals. simpl. by case_decide. Qed.

Lemma sorted_queues_enqueue s q : sorted_queues s -> sorted_queues (enqueue s q).
Proof.
  intros Hs c. rewrite enqueue_queue. apply Forall_app. split; [apply Hs|].
  case_decide; by repeat constructor.
Qed.

Lemma sorted_queues_tick s cap s' out c :
  sorted_queues s -> tick s cap = (s', out) ->
  sorted_queues s' /\ queue_of c s = of_class c out ++ queue_of c s'.
Proof.
  intros Hs (sent & -> & Hq & _)%tick_prefixes.
  assert (forall c, Forall (fun q => d_priority (delta q) = c) (sent c ++ queue_of c s')) as Hall
    by (intros c'; rewrite <- Hq; apply Hs).
  split.
  - intros c'. by apply (sorted_queues_sub c' (sent c')).
  - rewrite Hq. f_equal. rewrite !of_class_app.
    assert (forall c', of_class c (sent c') = if decide (c = c') then sent c' else []) as Hc.
    { intros c'. specialize (Hall c'). apply sorted_queues_sub in Hall as [Hall _].
      case_decide; [subst; by apply of_class_all|by eapply of_class_none]. }
    rewrite !Hc. destruct c; simpl; by rewrite ?app_nil_r.
Qed.

(** The scheduler never drops, duplicates or reorders a delta of a class:
    over any run of enqueues and ticks, in normal or saturate mode and whatever
    the sizes and counters, what is transmitted of a class followed by what is
    still queued is what was queued followed by what arrived, in order. *)
Theorem run_fifo s es s' out c :
  sorted_queues s -> run s es = (s', out) ->
  sorted_queues s' /\ queue_of c s ++ arrivals c es = of_class c out ++ queue_of c s'.
Proof.
  revert s s' out. induction es as [|e es IH]; intros s s' out Hs; cbn [run].
  - intros [= <- <-]. split; [done|]. by rewrite app_nil_r.
  - destruct (apply_event s e) as [s1 out1] eqn:E1.
    destruct (run s1 es) as [s2 out2] eqn:E2. intros [= <- <-].
    destruct e as [q|cap]; simpl in E1.
    + injection E1 as <- <-. apply (IH _ _ _ (sorted_queues_enqueue _ _ Hs)) in E2 as [H1 H2].
      split; [done|]. rewrite arrivals_cons_enqueue, app_assoc, <- enqueue_queue. done.
    + apply (sorted_queues_tick _ _ _ _ c Hs) in E1 as [Hs1 Hq].
      apply (IH _ _ _ Hs1) in E2 as [H1 H2]. split; [done|].
      rewrite of_class_app, <- app_assoc, <- H2.
      change (arrivals c (Tick cap :: es)) with (arrivals c es).
      by rewrite Hq, <- app_assoc.
Qed.

Lemma bytes_of_app l k : bytes_of (l ++ k) = bytes_of l + bytes_of k.
Proof. apply sum_of_app. Qed.

Lemma run_ok_tick_ok s cap es :
  run_ok s (Tick cap :: es) -> tick_ok s cap.
Proof.
  intros [Hcaps H]. apply Forall_cons in Hcaps as [Hcap _]. split; [done|].
  intros c. destruct (H c) as (H1 & H2 & H3 & H4 & H5).
  change (arrivals c (Tick cap :: es)) with (arrivals c es) in *.
  change (ticks (Tick cap :: es)) with (1 + ticks es) in H5.
  apply lens_ok_app in H1 as [Hl1 Hl2].
  rewrite bytes_of_app in *. apply bytes_of_nonneg in Hl2. pose proof (ticks_nonneg es).
  split_and!; [done|lia|lia|lia|lia|nia].
Qed.

Lemma served_all s cap s' out :
  sorted_queues s -> saturate_mode s = false -> tick_ok s cap -> tick s cap = (s', out) ->
  saturate_mode s' = false /\ forall c, served c s s' (of_class c out).
Proof.
  intros Hs Hm Hok E.
  destruct (tick_served _ _ _ _ Hm Hok E) as (Hm' & sh & sm & sl & _ & Sh & Sm & Sl & _).
  split; [done|]. intros c.
  destruct (sorted_queues_tick _ _ _ _ c Hs E) as [_ Hq].
  assert (exists sent, served c s s' sent) as [sent Hsent] by (destruct c; eauto).
  replace (of_class c out) with sent; [done|].
  destruct Hsent as [Hq' _]. rewrite Hq' in Hq. by apply app_inv_tail in Hq.
Qed.

Lemma run_ok_step s e es s1 out1 :
  sorted_queues s -> saturate_mode s = false -> run_ok s (e :: es) ->
  apply_event s e = (s1, out1) ->
  sorted_queues s1 /\ saturate_mode s1 = false /\ run_ok s1 es /\
  forall c, quantum_of c s1 = quantum_of c s /\
    deficit_of c s1 + bytes_of (of_class c out1)
    = deficit_of c s + ticks [e] * quantum_of c s.
Proof.
  intros Hs Hm Hok E. destruct e as [q|cap]; simpl in E.
  - injection E as <- <-. split_and!.
    + by apply sorted_queues_enqueue.
    + by rewrite enqueue_saturate.
    + destruct Hok as [Hcaps H]. apply Forall_cons in Hcaps as [_ Hcaps].
      split; [done|]. intros c. specialize (H c).
      rewrite arrivals_cons_enqueue, app_assoc, <- enqueue_queue in H.
      by rewrite enqueue_deficit, enqueue_quantum.
    + intros c. rewrite enqueue_deficit, enqueue_quantum.
      change (ticks [Enqueue q]) with 0. change (bytes_of (of_class c [])) with 0. lia.
  - pose proof (run_ok_tick_ok _ _ _ Hok) as Htick.
    destruct (served_all _ _ _ _ Hs Hm Htick E) as [Hm' Hserved].
    split_and!; [by destruct (sorted_queues_tick _ _ _ _ Low Hs E)|done| |].
    + destruct Hok as [Hcaps H]. apply Forall_cons in Hcaps as [_ Hcaps].
      split; [done|]. intros c. specialize (H c).
      destruct (Hserved c) as (Hq & Hd & _ & Hqu).
      change (arrivals c (Tick cap :: es)) with (arrivals c es) in H.
      change (ticks (Tick cap :: es)) with (1 + ticks es) in H.
      destruct H as (H1 & H2 & H3 & H4 & H5).
      rewrite Hq, <- app_assoc in H1, H2, H4. rewrite Hqu, Hd.
      apply lens_ok_app in H1 as [Hl1 Hl2]. rewrite (bytes_of_app (of_class c out1)) in *.
      apply bytes_of_nonneg in Hl1. split_and!; [done|lia|lia|lia|lia|nia].
    + intros c. destruct (Hserved c) as (_ & -> & _ & ->).
      change (ticks [Tick cap]) with 1. lia.
Qed.

Lemma run_accounting s es s' out :
  sorted_queues s -> saturate_mode s = false -> run_ok s es -> run s es = (s', out) ->
  sorted_queues s' /\ saturate_mode s' = false /\
  forall c, quantum_of c s' = quantum_of c s /\
    deficit_of c s' + bytes_of (of_class c out)
    = deficit_of c s + ticks es * quantum_of c s.
Proof.
  revert s out. induction es as [|e es IH]; intros s out Hs Hm Hok; cbn [run].
  - intros [= <- <-]. split_and!; [done|done|]. intros c. split; [done|].
    change (bytes_of (of_class c [])) with 0. change (ticks []) with 0. lia.
  - destruct (apply_event s e) as [s1 out1] eqn:E1.
    destruct (run s1 es) as [s2 out2] eqn:E2. intros [= <- <-].
    destruct (run_ok_step _ _ _ _ _ Hs Hm Hok E1) as (Hs1 & Hm1 & Hok1 & Hacc).
    destruct (IH _ _ Hs1 Hm1 Hok1 E2) as (Hs2 & Hm2 & Hacc2).
    split_and!; [done|done|]. intros c. destruct (Hacc c) as [Hq Hd].
    destruct (Hacc2 c) as [Hq2 Hd2]. rewrite of_class_app, bytes_of_app.
    change (ticks (e :: es)) with (ticks ([e] ++ es)).
    unfold ticks in *. rewrite sum_of_app, Hq2, Hq. split; [done|].
    rewrite Hq in Hd2. lia.
Qed.

Lemma run_app s es1 es2 :
  run s (es1 ++ es2) =
  let '(s1, out1) := run s es1 in
  let '(s2, out2) := run s1 es2 in (s2, out1 ++ out2).
Proof.
  revert s. induction es1 as [|e es1 IH]; intros s; cbn [run app].
  - by destruct (run s es2).
  - destruct (apply_event s e) as [s1 out1]. rewrite IH.
    destruct (run s1 es1) as [s2 out2]. destruct (run s2 es2) as [s3 out3].
    by rewrite app_assoc.
Qed.

Lemma run_ok_prefix s es1 es2 : run_ok s (es1 ++ es2) -> run_ok s es1.
Proof.
  intros [Hc H]. apply Forall_app in Hc as [Hc _]. split; [done|]. intros c.
  destruct (H c) as (H1 & H2 & H3 & H4 & H5).
  unfold arrivals in *. rewrite omap_app, app_assoc in *.
  apply lens_ok_app in H1 as [H1 Hl]. rewrite bytes_of_app in H2, H4.
  apply bytes_of_nonneg in Hl. pose proof (ticks_nonneg es2).
  unfold ticks in *. rewrite sum_of_app in H5. split_and!; [done|lia|lia|lia|lia|nia].
Qed.

Lemma run_ok_after s es1 es2 s1 out1 :
  sorted_queues s -> saturate_mode s = false -> run_ok s (es1 ++ es2) ->
  run s es1 = (s1, out1) -> run_ok s1 es2.
Proof.
  revert s out1. induction es1 as [|e es1 IH]; intros s out1 Hs Hm Hok; cbn [run].
  - by intros [= <- <-].
  - destruct (apply_event s e) as [s0 out0] eqn:E0.
    destruct (run s0 es1) as [s2 out2] eqn:E2. intros [= <- <-].
    destruct (run_ok_step _ _ _ _ _ Hs Hm Hok E0) as (Hs1 & Hm1 & Hok1 & _).
    by eapply IH.
Qed.

(** After a tick that ends a run, no deficit pays for the head of its queue. *)
Lemma run_head_exceeds s es cap s' out c :
  sorted_queues s -> saturate_mode s = false -> run_ok s (es ++ [Tick cap]) ->
  run s (es ++ [Tick cap]) = (s', out) ->
  head_exceeds (deficit_of c s') (queue_of c s').
Proof.
  intros Hs Hm Hok E. rewrite run_app in E. destruct (run s es) as [s1 out1] eqn:E1.
  cbn [run apply_event] in E. destruct (tick s1 cap) as [s2 out2] eqn:E2.
  injection E as <- _.
  destruct (run_accounting _ _ _ _ Hs Hm (run_ok_prefix _ _ _ Hok) E1) as (Hs1 & Hm1 & _).
  pose proof (run_ok_tick_ok _ _ _ (run_ok_after _ _ _ _ _ Hs Hm Hok E1)) as Htick.
  destruct (served_all _ _ _ _ Hs1 Hm1 Htick E2) as [_ Hserved]. apply Hserved.
Qed.

(** C33: bandwidth floors.  Over any run of enqueues and ticks that ends with a
    tick and leaves class [c] backlogged, class [c] was given its quantum on
    every tick, up to less than one delta: the bytes transmitted for it exceed
    its initial deficit plus [ticks * quantum] minus the length of the delta
    at the head of its queue. *)
Theorem bandwidth_floor s es cap s' out c d rest :
  sorted_queues s -> saturate_mode s = false -> run_ok s (es ++ [Tick cap]) ->
  run s (es ++ [Tick cap]) = (s', out) ->
  queue_of c s' = d :: rest ->
  deficit_of c s + ticks (es ++ [Tick cap]) * quantum_of c s - serialized_len d
  < bytes_of (of_class c out).
Proof.
  intros Hs Hm Hok E Hback.
  destruct (run_accounting _ _ _ _ Hs Hm Hok E) as (_ & _ & Hacc).
  destruct (Hacc c) as [_ Hd].
  pose proof (run_head_exceeds _ _ _ _ _ c Hs Hm Hok E) as Hhead.
  rewrite Hback in Hhead. simpl in Hhead. lia.
Qed.

Lemma low_clearing_capacity_quantum cap :
  low_clearing_capacity cap = 10 * quantum cap 10.
Proof.
  unfold low_clearing_capacity, quantum.
  pose proof (wrap_u64_ok (cap * 10)) as H. unfold u64_ok in H.
  assert (0 <= wrap_u64 (cap * 10) / 100 < 1844674407370955161).
  { split; [apply Z.div_pos; lia|]. apply Z.div_lt_upper_bound; lia. }
  rewrite (wrap_u64_small (_ * 10)); [lia|]. unfold u64_ok. lia.
Qed.

(** Clearing of the LOW queue.  A LOW queue within the clearing capacity of
    the link, whose deficit counter is not in debt, is transmitted completely
    and first within ten epochs, whatever else is enqueued meanwhile. *)
Theorem low_queue_clears s es link cap s' out :
  sorted_queues s -> saturate_mode s = false -> run_ok s (es ++ [Tick cap]) ->
  low_quantum s = quantum link 10 -> 0 <= low_deficit s ->
  bytes_of (low_queue s) <= low_clearing_capacity link ->
  10 <= ticks (es ++ [Tick cap]) ->
  run s (es ++ [Tick cap]) = (s', out) ->
  exists later, of_class Low out = low_queue s ++ later.
Proof.
  intros Hs Hm Hok Hq Hd Hcap Hn E. rewrite low_clearing_capacity_quantum in Hcap.
  destruct (run_fifo _ _ _ _ Low Hs E) as [_ Hfifo]. simpl in Hfifo.
  apply app_eq_app in Hfifo as (k & [[Hlow Hrest]|[Hout _]]); [|by eauto].
  destruct k as [|d k]; [exists []; by rewrite Hlow, !app_nil_r|]. exfalso.
  destruct (run_accounting _ _ _ _ Hs Hm Hok E) as (_ & _ & Hacc).
  pose proof Hok as [_ Hok']. destruct (Hok' Low) as (Hl & _ & H0 & _). simpl in Hl, H0.
  pose proof (run_head_exceeds _ _ _ _ _ Low Hs Hm Hok E) as Hhead.
  simpl in Hhead. rewrite Hrest in Hhead. simpl in Hhead.
  destruct (Hacc Low) as [_ Hacc']. simpl in Hacc'.
  rewrite Hlow in Hl, Hcap. rewrite !lens_ok_app in Hl. destruct Hl as [[_ Hk] _].
  apply Forall_cons in Hk as [_ Hk]. apply bytes_of_nonneg in Hk.
  rewrite bytes_of_app in Hcap. unfold bytes_of in *. rewrite sum_of_cons in Hcap.
  rewrite Hq in Hacc', H0.
  assert (10 * quantum link 10 <= ticks (es ++ [Tick cap]) * quantum link 10)
    by (apply Z.mul_le_mono_nonneg_r; lia). lia.
Qed.

(** A normal tick transmits no more than the link capacity, unless the
    credit its classes have accumulated is larger. *)
Theorem tick_bytes_bound s cap s' out :
  saturate_mode s = false -> tick_ok s cap -> tick s cap = (s', out) ->
  bytes_of out <= Z.max cap
    (Z.max 0 (high_deficit s + high_quantum s) + Z.max 0 (medium_deficit s + medium_quantum s)
     + Z.max 0 (low_deficit s + low_quantum s)).
Proof.
  intros Hm Hok E. by destruct (tick_served _ _ _ _ Hm Hok E) as (_ & ? & ? & ? & _ & _ & _ & _ & ?).
Qed.

(** ** Concrete runs *)

Definition sample (p : PriorityClass) (len : Z) : QueuedDelta :=
  mkQueued (mkDelta 1%N "did:key:z6Mk" [] 0%N [] p [] [] 1 0) len 0.

(** Twenty epochs in which only LOW traffic, one full link's worth per epoch,
    is offered; then HIGH traffic of one full link per epoch. *)
Definition idle_history : list Event :=
  concat (replicate 20 [Enqueue (sample Low 100); Tick 100]).
Definition busy_epochs (n : nat) : list Event :=
  concat (replicate n [Enqueue (sample High 100); Tick 100]).

(** The redistribution of spare capacity is charged to the deficit of the
    class that used it, without a bound.  After [idle_history] a LOW delta of
    one byte, far below the clearing capacity of the link, is not transmitted
    during one hundred further epochs of HIGH traffic, although LOW has a
    guaranteed floor of ten bytes per epoch; and the credit HIGH accumulated
    meanwhile exceeds the capacity of the link. *)
Theorem low_starved_after_spare_use :
  let s := (run (new 100) idle_history).1 in
  low_queue s = [] /\
  high_deficit s = 1400 /\ low_deficit s = - 1800 /\
  bytes_of [sample Low 1] <= low_clearing_capacity 100 /\
  of_class Low (run s (Enqueue (sample Low 1) :: busy_epochs 100)).2 = [] /\
  bytes_of (tick (run s (concat (replicate 14 [Enqueue (sample High 100)]))).1 100).2 = 1400.
Proof. by vm_compute. Qed.

Definition sample_state : DrrScheduler :=
  (run (new 1000) [Enqueue (sample Low 90); Enqueue (sample High 800); Enqueue (sample Low 40)]).1.

Lemma sample_sorted : sorted_queues sample_state.
Proof. intros []; vm_compute; by repeat constructor. Defined.

Lemma bandwidth_floor_witness :
  deficit_of Low sample_state + ticks ([] ++ [Tick 100]) * quantum_of Low sample_state - 40
  < bytes_of (of_class Low (run sample_state ([] ++ [Tick 100])).2).
Proof.
  apply (bandwidth_floor sample_state [] 100 (run sample_state ([] ++ [Tick 100])).1 _ Low
    (sample Low 40) [] sample_sorted eq_refl); [|by vm_compute..].
  split; [by repeat constructor|].
  intros []; by_compute.
Defined.

Lemma run_fifo_witness :
  sorted_queues (run sample_state [Tick 850]).1 /\
  [sample Low 90; sample Low 40] = of_class Low (run sample_state [Tick 850]).2 ++
    queue_of Low (run sample_state [Tick 850]).1.
Proof. by apply (run_fifo sample_state [Tick 850] _ _ Low sample_sorted). Defined.

Lemma low_queue_clears_witness :
  exists later, of_class Low (run sample_state (replicate 9 (Tick 1000) ++ [Tick 1000])).2
    = [sample Low 90; sample Low 40] ++ later.
Proof.
  eapply (low_queue_clears sample_state (replicate 9 (Tick 1000)) 1000 1000 _ _
    sample_sorted eq_refl); [|by vm_compute..|by apply surjective_pairing].
  split; [by repeat constructor|]. intros []; by_compute.
Defined.

Lemma tick_bytes_bound_witness : bytes_of (tick sample_state 850).2 <= Z.max 850 1000.
Proof.
  apply (tick_bytes_bound sample_state 850 (tick sample_state 850).1);
    [done| |by vm_compute].
  split; [done|]. intros []; by_compute.
Defined.

End Scheduler.
