(* ===== verification/Fragment.v ===== *)
(** * MTU fragmentation and reassembly

    [transport/fragment.rs]: [fragment] cuts the bytes of a delta into chunks,
    [reassemble] puts a complete set back together, and the
    [ReassemblyBuffer] collects fragments that arrive one by one, bounded in
    the number of assemblies and in their size. *)

From S2P Require Import Prelude Types.

Module Fragment.

Record DeltaFragment := mkFragment {
  delta_id : DeltaId;
  fragment_index : Z;    (* u32 *)
  total_fragments : Z;   (* u32 *)
  payload : bytes
}.

#[export] Instance DeltaFragment_eq_dec : EqDecision DeltaFragment.
Proof. solve_decision. Defined.

(** [<[T]>::chunks(n)] for [n > 0]: the fuel is the length of the slice. *)
Fixpoint chunks_fuel {A} (fuel n : nat) (l : list A) : list (list A) :=
  match fuel, l with
  | _, [] => []
  | O, _ => []
  | S fuel', _ => take n l :: chunks_fuel fuel' n (drop n l)
  end.
Definition chunks {A} (n : nat) (l : list A) : list (list A) :=
  chunks_fuel (length l) n l.

Definition fragment (id : DeltaId) (delta_bytes : bytes) (mtu : nat) : list DeltaFragment :=
  if bool_decide (delta_bytes = []) || bool_decide (mtu = 0%nat) then []
  else
    let cs := chunks mtu delta_bytes in
    let total := wrap_u32 (Z.of_nat (length cs)) in
    imap (fun i chunk => mkFragment id (wrap_u32 (Z.of_nat i)) total chunk) cs.

Definition reassembly_failed {A} (sender_did : Did) (expected : Z) : Res A :=
  Err (FragmentReassemblyFailed sender_did expected).

(** The [enumerate] loop that compares each index with its position. *)
Fixpoint indices_from (i : nat) (l : list DeltaFragment) : bool :=
  match l with
  | [] => true
  | f :: l' => bool_decide (fragment_index f = wrap_u32 (Z.of_nat i)) && indices_from (S i) l'
  end.

Definition reassemble (fragments : list DeltaFragment) (sender_did : Did) : Res bytes :=
  match fragments with
  | [] => reassembly_failed sender_did 0
  | f0 :: _ =>
      let total := total_fragments f0 in
      if total =? 0 then reassembly_failed sender_did 0
      else if negb (forallb (fun f => bool_decide (delta_id f = delta_id f0)
                              && (total_fragments f =? total)) fragments)
      then reassembly_failed sender_did total
      else if negb (Z.of_nat (length fragments) =? total)
      then reassembly_failed sender_did total
      else
        let sorted := sort_by_key fragment_index fragments in
        if indices_from 0 sorted then Ok (concat (map payload sorted))
        else reassembly_failed sender_did total
  end.

Definition MAX_REASSEMBLY_SLOTS : Z := 1024.
Definition MAX_FRAGMENTS_PER_DELTA : Z := 4096.

(** [Iterator::min_by_key]: the first of the minimal elements. *)
Definition min_by_key {A} (key : A -> nat) (l : list A) : option A :=
  match l with
  | [] => None
  | x :: l' => Some (foldl (fun acc y => if (key y <? key acc)%nat then y else acc) x l')
  end.

Section Buffer.
Context `{!HashIter N (list (option DeltaFragment))}.

Record ReassemblyBuffer := mkBuffer {
  pending : gmap N (list (option DeltaFragment))
}.

Definition filled (slots : list (option DeltaFragment)) : nat :=
  length (filter (fun s => is_Some s) slots).

(** Guard 2 of [add_fragment]: make room for a new assembly. *)
Definition evict_for (buf : ReassemblyBuffer) (id : DeltaId) : ReassemblyBuffer :=
  if bool_decide (pending buf !! id = None)
     && (MAX_REASSEMBLY_SLOTS <=? Z.of_nat (size (pending buf)))
  then match min_by_key (fun e => filled e.2) (hm_iter (pending buf)) with
       | Some (evict_key, _) => mkBuffer (delete evict_key (pending buf))
       | None => buf
       end
  else buf.

Definition add_fragment (buf : ReassemblyBuffer) (fragment : DeltaFragment)
    (sender_did : Did) : ReassemblyBuffer * Res (option bytes) :=
  let id := delta_id fragment in
  let total := Z.to_nat (total_fragments fragment) in
  let idx := Z.to_nat (fragment_index fragment) in
  if MAX_FRAGMENTS_PER_DELTA <? total_fragments fragment then
    (buf, reassembly_failed sender_did (total_fragments fragment))
  else if bool_decide (total = 0%nat) || (total <=? idx)%nat then
    (buf, reassembly_failed sender_did (total_fragments fragment))
  else
    let buf := evict_for buf id in
    (* entry(delta_id).or_insert_with(|| vec![None; total]) *)
    let slots := default (replicate total None) (pending buf !! id) in
    if negb (bool_decide (length slots = total)) then
      (mkBuffer (<[id := slots]> (pending buf)),
       reassembly_failed sender_did (total_fragments fragment))
    else
      let slots := <[idx := Some fragment]> slots in
      if forallb (fun s => bool_decide (is_Some s)) slots then
        let fragments := omap (fun s => s) slots in
        (mkBuffer (delete id (pending buf)),
         bytes ← reassemble fragments sender_did; Ok (Some bytes))
      else (mkBuffer (<[id := slots]> (pending buf)), Ok None).

(** Feed a sequence of fragments; the results in order. *)
Fixpoint add_fragments (buf : ReassemblyBuffer) (fs : list DeltaFragment)
    (sender_did : Did) : ReassemblyBuffer * list (Res (option bytes)) :=
  match fs with
  | [] => (buf, [])
  | f :: fs' =>
      let '(buf1, r) := add_fragment buf f sender_did in
      let '(buf2, rs) := add_fragments buf1 fs' sender_did in
      (buf2, r :: rs)
  end.
End Buffer.

(** ** Chunks *)

Lemma chunks_fuel_spec {A} fuel n (l : list A) :
  (0 < n)%nat -> (length l <= fuel)%nat ->
  concat (chunks_fuel fuel n l) = l /\
  Forall (fun c => (0 < length c <= n)%nat) (chunks_fuel fuel n l) /\
  (length (chunks_fuel fuel n l) <= length l)%nat.
Proof.
  intros Hn. revert l. induction fuel as [|fuel IH]; intros l Hl.
  - destruct l; [simpl; by auto|simpl in Hl; lia].
  - destruct l as [|x l]; [simpl; by auto|]. cbn [chunks_fuel].
    destruct (IH (drop n (x :: l))) as (H1 & H2 & H3).
    { rewrite length_drop. simpl in *. lia. }
    rewrite length_drop in H3. simpl length in *.
    split_and!.
    + simpl concat. rewrite H1. apply take_drop.
    + constructor; [|done]. rewrite length_take. simpl. lia.
    + lia.
Qed.

Lemma fragment_index_lookup id bs mtu i f :
  fragment id bs mtu !! i = Some f ->
  exists chunk, chunks mtu bs !! i = Some chunk /\
    f = mkFragment id (wrap_u32 (Z.of_nat i)) (wrap_u32 (Z.of_nat (length (chunks mtu bs)))) chunk.
Proof.
  unfold fragment. case_match; [done|]. rewrite list_lookup_imap.
  destruct (chunks mtu bs !! i) as [c|]; [|done]. intros [= <-]. by exists c.
Qed.

Lemma length_fragment id bs mtu :
  bs <> [] -> (0 < mtu)%nat -> length (fragment id bs mtu) = length (chunks mtu bs).
Proof.
  intros Hb Hm. unfold fragment.
  rewrite !bool_decide_eq_false_2 by (done || lia). simpl. by rewrite length_imap.
Qed.

Lemma concat_payload_fragment id bs mtu :
  bs <> [] -> (0 < mtu)%nat -> concat (map payload (fragment id bs mtu)) = bs.
Proof.
  intros Hb Hm. unfold fragment.
  rewrite !bool_decide_eq_false_2 by (done || lia). simpl.
  change (map payload ?l) with (payload <$> l). rewrite fmap_imap.
  replace (imap _ _) with (chunks mtu bs).
  - by apply chunks_fuel_spec.
  - apply list_eq. intros i. rewrite list_lookup_imap. by destruct (_ !! i).
Qed.

(** ** Complete sets of fragments *)

(** [frs] is the fragment list of one delta, in index order. *)
Definition complete (id : DeltaId) (frs : list DeltaFragment) : Prop :=
  0 < Z.of_nat (length frs) < 2 ^ 32 /\
  forall i f, frs !! i = Some f ->
    delta_id f = id /\ fragment_index f = Z.of_nat i /\
    total_fragments f = Z.of_nat (length frs).

Lemma chunks_nonempty {A} n (l : list A) :
  (0 < n)%nat -> l <> [] -> (0 < length (chunks n l))%nat.
Proof. intros. unfold chunks. destruct l; [done|]. simpl. lia. Qed.

Lemma fragment_complete id bs mtu :
  bs <> [] -> (0 < mtu)%nat -> Z.of_nat (length (chunks mtu bs)) < 2 ^ 32 ->
  complete id (fragment id bs mtu).
Proof.
  intros Hb Hm Hlt. pose proof (chunks_nonempty _ _ Hm Hb).
  unfold complete. rewrite length_fragment by done. split; [lia|].
  intros i f (c & Hc & ->)%fragment_index_lookup. apply lookup_lt_Some in Hc. simpl.
  rewrite !wrap_u32_small by (unfold u32_ok; lia). done.
Qed.

Lemma complete_indices id frs :
  complete id frs -> map fragment_index frs = map Z.of_nat (seq 0 (length frs)).
Proof.
  intros [_ H]. apply list_eq. intros i.
  change (map fragment_index frs) with (fragment_index <$> frs).
  change (map Z.of_nat ?l) with (Z.of_nat <$> l).
  rewrite !list_lookup_fmap. destruct (frs !! i) as [f|] eqn:E; simpl.
  - rewrite lookup_seq_lt by (by eapply lookup_lt_Some). simpl. f_equal. by apply H.
  - rewrite lookup_seq_ge by (by apply lookup_ge_None). done.
Qed.

Lemma complete_nodup id frs : complete id frs -> NoDup (map fragment_index frs).
Proof.
  intros H. rewrite (complete_indices _ _ H). apply NoDup_fmap_2; [|apply NoDup_seq].
  intros x y. lia.
Qed.

Lemma complete_sorted id frs : complete id frs -> Sorted (key_le fragment_index) frs.
Proof.
  intros H%complete_indices. apply StronglySorted_Sorted.
  revert H. generalize 0%nat as i.
  induction frs as [|f frs IH]; intros i Hn; [constructor|].
  simpl in Hn. injection Hn as Hf Hn.
  constructor; [by eapply IH|]. rewrite Forall_forall. intros g Hg.
  assert (fragment_index g ∈ map Z.of_nat (seq (S i) (length frs))) as Hin.
  { rewrite <- Hn. by apply list_elem_of_fmap_2. }
  apply list_elem_of_fmap_1 in Hin as (j & Hj & Hin). apply elem_of_seq in Hin.
  unfold key_le. lia.
Qed.

Lemma indices_from_complete id frs : complete id frs -> indices_from 0 frs = true.
Proof.
  intros [Hn H].
  enough (forall k l, frs = k ++ l -> indices_from (length k) l = true) as Hg by by apply (Hg []).
  intros k l. revert k. induction l as [|f l IH]; intros k Hk; [done|]. simpl.
  apply andb_true_iff. split.
  - apply bool_decide_eq_true. destruct (H (length k) f) as (_ & -> & _).
    { rewrite Hk, lookup_app_r, Nat.sub_diag by lia. done. }
    rewrite wrap_u32_small; [done|]. subst frs. rewrite length_app in Hn. simpl in Hn.
    unfold u32_ok. lia.
  - specialize (IH (k ++ [f])). rewrite length_app, Nat.add_1_r in IH. apply IH.
    by rewrite Hk, <- app_assoc.
Qed.

Lemma reassemble_complete id frs fs did :
  complete id frs -> fs ≡ₚ frs -> reassemble fs did = Ok (concat (map payload frs)).
Proof.
  intros Hc Hp. pose proof Hc as [Hn H].
  assert (forall f, f ∈ fs -> delta_id f = id /\ total_fragments f = Z.of_nat (length frs)) as Hall.
  { intros f Hf. rewrite Hp in Hf. apply list_elem_of_lookup in Hf as [i Hi].
    by destruct (H _ _ Hi) as (? & _ & ?). }
  assert (sort_by_key fragment_index fs = frs) as Hsort.
  { symmetry. apply (sorted_by_key_unique fragment_index).
    - by eapply complete_nodup.
    - by eapply complete_sorted.
    - apply sort_by_key_sorted.
    - by rewrite sort_by_key_perm. }
  unfold reassemble. destruct fs as [|f0 fs'] eqn:E.
  { apply Permutation_nil_l in Hp. subst. simpl in Hn. lia. }
  rewrite <- E in *. destruct (Hall f0) as [-> ->]; [rewrite E; left|].
  destruct (Z.eqb_spec (Z.of_nat (length frs)) 0) as [?|_]; [lia|].
  rewrite (proj2 (forallb_forall _ _)); simpl.
  - rewrite Hp, Z.eqb_refl. simpl. rewrite Hsort, (indices_from_complete _ _ Hc). done.
  - intros f Hf%list_elem_of_In. destruct (Hall f Hf) as [-> ->].
    by rewrite bool_decide_eq_true_2, Z.eqb_refl.
Qed.

(** Fragmentation round trip.  The fragments of a non-empty delta, in
    whatever order they arrive, reassemble to exactly its bytes. *)
Theorem reassemble_fragment id bs mtu fs did :
  bs <> [] -> (0 < mtu)%nat -> Z.of_nat (length (chunks mtu bs)) < 2 ^ 32 ->
  fs ≡ₚ fragment id bs mtu -> reassemble fs did = Ok bs.
Proof.
  intros Hb Hm Hlt Hp.
  rewrite (reassemble_complete id (fragment id bs mtu)); [|by apply fragment_complete|done].
  by rewrite concat_payload_fragment.
Qed.

(** Every fragment carries the id of its delta, a non-empty payload within
    the MTU, its own position and the number of fragments. *)
Theorem fragment_bounds id bs mtu i f :
  (0 < mtu)%nat -> Z.of_nat (length (chunks mtu bs)) < 2 ^ 32 ->
  fragment id bs mtu !! i = Some f ->
  delta_id f = id /\ (0 < length (payload f) <= mtu)%nat /\
  fragment_index f = Z.of_nat i /\
  total_fragments f = Z.of_nat (length (fragment id bs mtu)) /\
  0 <= fragment_index f < total_fragments f.
Proof.
  intros Hm Hlt Hf. destruct (decide (bs = [])) as [->|Hb].
  { by unfold fragment in Hf. }
  destruct (fragment_complete id bs mtu Hb Hm Hlt) as [Hn Hc].
  destruct (Hc _ _ Hf) as (Hid & -> & ->). pose proof (lookup_lt_Some _ _ _ Hf).
  split_and!; [done| | |done|done|lia|lia].
  all: apply fragment_index_lookup in Hf as (c & Hc' & ->); simpl.
  all: destruct (chunks_fuel_spec (length bs) mtu bs Hm (le_n _)) as (_ & Hall & _).
  all: rewrite Forall_lookup in Hall; destruct (Hall _ _ Hc'); lia.
Qed.

(** ** The reassembly buffer *)

Section BufferProofs.
Context `{!HashIter N (list (option DeltaFragment))}.

Lemma min_by_key_elem {A} (key : A -> nat) l x : min_by_key key l = Some x -> x ∈ l.
Proof.
  destruct l as [|y l]; simpl; [done|]. intros [= <-].
  enough (forall acc, acc ∈ y :: l -> forall l', l' ⊆ l ->
    foldl (fun acc y => if (key y <? key acc)%nat then y else acc) acc l' ∈ y :: l) as H.
  { apply H; [left|done]. }
  intros acc Hacc l'. revert acc Hacc.
  induction l' as [|z l' IH]; intros acc Hacc Hl'; simpl; [done|].
  apply IH; [|set_solver]. case_match; [|done]. right. apply Hl'. left.
Qed.

Lemma min_by_key_some {A} (key : A -> nat) l : l <> [] -> is_Some (min_by_key key l).
Proof. destruct l; [done|]. simpl. eauto. Qed.

Lemma evict_for_spec buf id :
  pending (evict_for buf id) !! id = pending buf !! id /\
  pending (evict_for buf id) ⊆ pending buf /\
  (pending buf !! id = None -> Z.of_nat (size (pending buf)) <= MAX_REASSEMBLY_SLOTS ->
   Z.of_nat (size (pending (evict_for buf id))) < MAX_REASSEMBLY_SLOTS).
Proof.
  unfold evict_for. case_bool_decide as Hid; simpl; [|done].
  destruct (Z.leb_spec MAX_REASSEMBLY_SLOTS (Z.of_nat (size (pending buf)))) as [Hsz|Hsz];
    [|done].
  destruct (min_by_key _ _) as [[k v]|] eqn:Hmin.
  - apply min_by_key_elem, elem_of_hm_iter in Hmin. simpl. split_and!.
    + apply lookup_delete_ne. congruence.
    + apply delete_subseteq.
    + intros _ Hle. rewrite map_size_delete_Some by eauto. unfold MAX_REASSEMBLY_SLOTS in *. lia.
  - exfalso. apply eq_None_not_Some in Hmin. apply Hmin, min_by_key_some.
    intros Hnil. apply (f_equal length) in Hnil. rewrite length_hm_iter in Hnil.
    simpl in Hnil. unfold MAX_REASSEMBLY_SLOTS in *. lia.
Qed.

(** [slots] holds exactly the fragments of [frs] that occur in [recv]. *)
Definition received (frs recv : list DeltaFragment) (slots : list (option DeltaFragment)) : Prop :=
  length slots = length frs /\
  forall i f, frs !! i = Some f -> slots !! i = Some (if decide (f ∈ recv) then Some f else None).

Lemma received_nil frs : received frs [] (replicate (length frs) None).
Proof.
  split; [apply length_replicate|]. intros i f Hf.
  rewrite lookup_replicate_2 by (by eapply lookup_lt_Some).
  by rewrite decide_False by set_solver.
Qed.

Lemma received_insert id frs recv slots i f :
  complete id frs -> received frs recv slots -> frs !! i = Some f ->
  received frs (recv ++ [f]) (<[i := Some f]> slots).
Proof.
  intros Hc [Hl H] Hf. split; [by rewrite length_insert|]. intros j g Hg.
  destruct (decide (i = j)) as [<-|Hij].
  - simplify_eq. rewrite list_lookup_insert_eq by (rewrite Hl; by eapply lookup_lt_Some).
    by rewrite decide_True by set_solver.
  - rewrite list_lookup_insert_ne, (H _ _ Hg) by done. f_equal.
    assert (f <> g) as Hne.
    { intros ->. destruct Hc as [_ Hc].
      destruct (Hc _ _ Hf) as (_ & ? & _), (Hc _ _ Hg) as (_ & ? & _). lia. }
    apply decide_ext. set_solver.
Qed.

Lemma received_filled frs recv slots :
  received frs recv slots ->
  forallb (fun s => bool_decide (is_Some s)) slots = true <-> frs ⊆ recv.
Proof.
  intros [Hl H]. rewrite forallb_forall. split.
  - intros Hall f [i Hi]%list_elem_of_lookup. specialize (H _ _ Hi).
    case_decide; [done|]. apply list_elem_of_lookup_2, list_elem_of_In, Hall in H.
    by apply bool_decide_eq_true, is_Some_None in H.
  - intros Hsub s [i Hi]%list_elem_of_In%list_elem_of_lookup. apply bool_decide_eq_true.
    pose proof (lookup_lt_Some _ _ _ Hi) as Hlt. rewrite Hl in Hlt.
    apply lookup_lt_is_Some in Hlt as [f Hf]. rewrite (H _ _ Hf) in Hi.
    rewrite decide_True in Hi by (apply Hsub; by eapply list_elem_of_lookup_2).
    simplify_eq. eauto.
Qed.

Lemma received_all frs recv slots :
  received frs recv slots -> frs ⊆ recv -> omap (fun s => s) slots = frs.
Proof.
  intros [Hl H] Hsub. assert (slots = Some <$> frs) as ->.
  - apply list_eq. intros i. rewrite list_lookup_fmap.
    destruct (frs !! i) as [f|] eqn:Hf; simpl.
    + rewrite (H _ _ Hf), decide_True; [done|]. apply Hsub. by eapply list_elem_of_lookup_2.
    + apply lookup_ge_None. rewrite Hl. by apply lookup_ge_None.
  - clear. induction frs as [|f frs IH]; [done|]. cbn. f_equal. apply IH.
Qed.

(** What the buffer holds for [id]: an absent entry is an empty one. *)
Definition slots_of (buf : ReassemblyBuffer) (id : DeltaId) (n : nat) :=
  default (replicate n None) (pending buf !! id).

Lemma add_fragment_step id frs buf recv f did :
  complete id frs -> Z.of_nat (length frs) <= MAX_FRAGMENTS_PER_DELTA -> f ∈ frs ->
  received frs recv (slots_of buf id (length frs)) ->
  if decide (frs ⊆ recv ++ [f])
  then exists buf', add_fragment buf f did = (buf', Ok (Some (concat (map payload frs)))) /\
    pending buf' !! id = None
  else exists buf', add_fragment buf f did = (buf', Ok None) /\
    received frs (recv ++ [f]) (slots_of buf' id (length frs)).
Proof.
  intros Hc Hmax [i Hi]%list_elem_of_lookup Hr. pose proof Hc as [Hn Hidx].
  destruct (Hidx _ _ Hi) as (Hid & Hfi & Htot). pose proof (lookup_lt_Some _ _ _ Hi).
  unfold add_fragment. rewrite Hid, Hfi, Htot, !Nat2Z.id.
  destruct (Z.ltb_spec MAX_FRAGMENTS_PER_DELTA (Z.of_nat (length frs))); [lia|].
  rewrite bool_decide_eq_false_2 by lia.
  destruct (Nat.leb_spec (length frs) i); [lia|]. simpl.
  destruct (evict_for_spec buf id) as (Hev & _ & _). rewrite Hev.
  fold (slots_of buf id (length frs)).
  rewrite bool_decide_eq_true_2 by apply Hr. simpl.
  pose proof (received_insert _ _ _ _ _ _ Hc Hr Hi) as Hr'.
  pose proof (received_filled _ _ _ Hr') as Hfill. case_decide as Hsub.
  - rewrite (proj2 Hfill Hsub), (received_all _ _ _ Hr' Hsub).
    rewrite (reassemble_complete id frs frs did Hc) by done. simpl.
    eexists. split; [done|]. simpl. apply lookup_delete_eq.
  - destruct (forallb _ _); [by destruct Hsub; apply Hfill|].
    eexists. split; [done|]. unfold slots_of. simpl. by rewrite lookup_insert_eq.
Qed.

Lemma add_fragments_partial id frs buf recv l did :
  complete id frs -> Z.of_nat (length frs) <= MAX_FRAGMENTS_PER_DELTA -> l ⊆ frs ->
  received frs recv (slots_of buf id (length frs)) -> ~ frs ⊆ recv ++ l ->
  exists buf', add_fragments buf l did = (buf', replicate (length l) (Ok None)) /\
    received frs (recv ++ l) (slots_of buf' id (length frs)).
Proof.
  intros Hc Hmax. revert buf recv. induction l as [|f l IH]; intros buf recv Hl Hr Hnot.
  - exists buf. by rewrite app_nil_r.
  - assert (Hf : f ∈ frs) by (apply Hl; left).
    pose proof (add_fragment_step id frs buf recv f did Hc Hmax Hf Hr) as Hstep.
    rewrite decide_False in Hstep by set_solver.
    destruct Hstep as (buf1 & E1 & Hr1).
    destruct (IH buf1 (recv ++ [f])) as (buf2 & E2 & Hr2); [set_solver|done|set_solver|].
    exists buf2. simpl. rewrite E1, E2. split; [done|]. by rewrite <- app_assoc in Hr2.
Qed.

Lemma add_fragments_app buf l k did :
  add_fragments buf (l ++ k) did =
  let '(buf1, rs) := add_fragments buf l did in
  let '(buf2, rs') := add_fragments buf1 k did in (buf2, rs ++ rs').
Proof.
  revert buf. induction l as [|f l IH]; intros buf; simpl.
  - by destruct (add_fragments buf k did).
  - destruct (add_fragment buf f did) as [b r]. rewrite IH.
    destruct (add_fragments b l did) as [b1 rs]. by destruct (add_fragments b1 k did).
Qed.

Lemma buffer_delivers_spec id bs mtu buf l f did :
  bs <> [] -> (0 < mtu)%nat ->
  Z.of_nat (length (chunks mtu bs)) <= MAX_FRAGMENTS_PER_DELTA ->
  pending buf !! id = None ->
  l ⊆ fragment id bs mtu -> f ∈ fragment id bs mtu ->
  ~ fragment id bs mtu ⊆ l -> fragment id bs mtu ⊆ l ++ [f] ->
  exists buf', add_fragments buf (l ++ [f]) did
    = (buf', replicate (length l) (Ok None) ++ [Ok (Some bs)]) /\
    pending buf' !! id = None.
Proof.
  intros Hb Hm Hmax Hnone Hl Hf Hnot Hall. unfold MAX_FRAGMENTS_PER_DELTA in Hmax.
  assert (complete id (fragment id bs mtu)) as Hc by (apply fragment_complete; (done || lia)).
  assert (Z.of_nat (length (fragment id bs mtu)) <= MAX_FRAGMENTS_PER_DELTA) as Hmax'
    by (rewrite length_fragment by done; done).
  destruct (add_fragments_partial id _ buf [] l did Hc Hmax' Hl) as (buf1 & E1 & Hr1);
    [|done|].
  { unfold slots_of. rewrite Hnone. apply received_nil. }
  pose proof (add_fragment_step id _ buf1 l f did Hc Hmax' Hf Hr1) as Hstep.
  rewrite decide_True in Hstep by done. destruct Hstep as (buf2 & E2 & Hnone2).
  rewrite concat_payload_fragment in E2 by done.
  exists buf2. split; [|done]. rewrite add_fragments_app, E1. simpl. by rewrite E2.
Qed.

(** C36: delivery.  Fragments of a delta reach a buffer that holds none of
    them, in any order and with any repetitions: every one but the last
    reports [None], and the fragment that completes the set, whichever it
    is, yields exactly the bytes of the delta and frees its slots. *)
Theorem buffer_delivers id bs mtu buf l f did :
  bs <> [] -> (0 < mtu)%nat ->
  Z.of_nat (length (chunks mtu bs)) <= MAX_FRAGMENTS_PER_DELTA ->
  pending buf !! id = None ->
  l ⊆ fragment id bs mtu -> f ∈ fragment id bs mtu ->
  ~ fragment id bs mtu ⊆ l -> fragment id bs mtu ⊆ l ++ [f] ->
  exists buf', add_fragments buf (l ++ [f]) did
    = (buf', replicate (length l) (Ok None) ++ [Ok (Some bs)]) /\
    pending buf' !! id = None.
Proof. apply buffer_delivers_spec. Qed.
(** The invariant of the buffer: bounded in both directions, every entry is
    missing a fragment, and every stored fragment sits in its own slot. *)
Definition wf_slots (id : DeltaId) (slots : list (option DeltaFragment)) : Prop :=
  0 < Z.of_nat (length slots) <= MAX_FRAGMENTS_PER_DELTA /\
  forall i f, slots !! i = Some (Some f) ->
    delta_id f = id /\ fragment_index f = Z.of_nat i /\
    total_fragments f = Z.of_nat (length slots).

Definition wf_buffer (buf : ReassemblyBuffer) : Prop :=
  Z.of_nat (size (pending buf)) <= MAX_REASSEMBLY_SLOTS /\
  forall id slots, pending buf !! id = Some slots ->
    wf_slots id slots /\ exists i : nat, slots !! i = Some None.

Lemma wf_slots_full id slots :
  wf_slots id slots -> forallb (fun s => bool_decide (is_Some s)) slots = true ->
  complete id (omap (fun s => s) slots).
Proof.
  intros [Hn H] Hall. assert (exists frs, slots = Some <$> frs) as [frs ->].
  { clear Hn H. induction slots as [|[f|] slots IH]; [by exists []| |done].
    simpl in Hall. destruct (IH Hall) as [frs ->]. by exists (f :: frs). }
  assert (omap (fun s => s) (Some <$> frs) = frs) as ->.
  { clear. induction frs as [|f frs IH]; [done|]. cbn. f_equal. apply IH. }
  rewrite length_fmap in Hn, H. unfold MAX_FRAGMENTS_PER_DELTA in Hn. split; [lia|].
  intros i f Hf. apply H. by rewrite list_lookup_fmap, Hf.
Qed.

Lemma not_full_hole (slots : list (option DeltaFragment)) :
  forallb (fun s => bool_decide (is_Some s)) slots = false ->
  exists i : nat, slots !! i = Some None.
Proof.
  induction slots as [|[f|] slots IH]; simpl; [done| |by exists 0%nat].
  intros [i Hi]%IH. by exists (S i).
Qed.

Lemma wf_buffer_insert buf id slots (i : nat) :
  wf_buffer buf -> wf_slots id slots -> slots !! i = Some None ->
  is_Some (pending buf !! id) \/ Z.of_nat (size (pending buf)) < MAX_REASSEMBLY_SLOTS ->
  wf_buffer (mkBuffer (<[id := slots]> (pending buf))).
Proof.
  intros [Hsz H] Hw Hi Hroom. split; simpl.
  - destruct Hroom as [[v Hv]|Hlt].
    + rewrite map_size_insert_Some by (rewrite Hv; eauto). done.
    + rewrite map_size_insert. destruct (pending buf !! id); unfold Datatypes.id; lia.
  - intros k v [[<- <-]|[_ Hk]]%lookup_insert_Some; [by eauto|by apply H].
Qed.

Lemma wf_buffer_sub buf m : wf_buffer buf -> m ⊆ pending buf -> wf_buffer (mkBuffer m).
Proof.
  intros [Hsz H] Hm. split; simpl.
  - apply map_subseteq_size in Hm. lia.
  - intros k v Hk. by apply H, (lookup_weaken _ _ _ _ Hk).
Qed.

Lemma wf_slots_insert buf f slots :
  wf_buffer buf -> 0 <= fragment_index f ->
  slots = default (replicate (Z.to_nat (total_fragments f)) None) (pending buf !! delta_id f) ->
  Z.of_nat (length slots) = total_fragments f ->
  0 < total_fragments f <= MAX_FRAGMENTS_PER_DELTA ->
  fragment_index f < total_fragments f ->
  wf_slots (delta_id f) (<[Z.to_nat (fragment_index f) := Some f]> slots).
Proof.
  intros [_ Hwf] Hpos Hs Hlen Htot Hidx. unfold wf_slots. rewrite length_insert.
  split; [lia|].
  intros i g [(? & ? & ?)|(? & Hg)]%list_lookup_insert_Some;
    [simplify_eq; split_and!; first [done|lia]|].
  destruct (pending buf !! delta_id f) as [sl|] eqn:Hsl; simpl in Hs; subst slots.
  - destruct (Hwf _ _ Hsl) as [[_ Hsl'] _]. by apply Hsl'.
  - apply lookup_replicate in Hg as [? _]. done.
Qed.

(** The guards that make [add_fragment] refuse a fragment. *)
Definition refuses (buf : ReassemblyBuffer) (f : DeltaFragment) : Prop :=
  MAX_FRAGMENTS_PER_DELTA < total_fragments f \/ total_fragments f <= 0 \/
  total_fragments f <= fragment_index f \/
  exists slots, pending buf !! delta_id f = Some slots /\
    Z.of_nat (length slots) <> total_fragments f.

(** Memory safety of the buffer.  Adding any fragment keeps at most 1024
    assemblies of at most 4096 slots each, none of them complete, with every
    fragment in its own slot; a fragment is refused exactly on the metadata
    guards, a refusal changes nothing, and a completed assembly never fails
    to reassemble. *)
Theorem add_fragment_safe buf f did :
  0 <= fragment_index f -> wf_buffer buf ->
  let '(buf', r) := add_fragment buf f did in
  wf_buffer buf' /\
  match r with
  | Err e => buf' = buf /\ refuses buf f /\
      e = FragmentReassemblyFailed did (total_fragments f)
  | Ok _ => ~ refuses buf f
  end.
Proof.
  intros Hpos Hwf. unfold add_fragment, refuses, reassembly_failed.
  destruct (Z.ltb_spec MAX_FRAGMENTS_PER_DELTA (total_fragments f)) as [?|Hmax];
    [split_and!; [done|done|by left|done]|].
  destruct (bool_decide _ || _) eqn:Hg.
  { split_and!; [done|done| |done]. right.
    apply orb_true_iff in Hg as [Hg%bool_decide_eq_true|Hg%Nat.leb_le]; [left|right; left]; lia. }
  apply orb_false_iff in Hg as [H0%bool_decide_eq_false Hi%Nat.leb_gt].
  destruct (evict_for_spec buf (delta_id f)) as (Hev & Hsub & Hroom).
  set (buf1 := evict_for buf (delta_id f)) in *.
  assert (wf_buffer buf1) as Hwf1 by (destruct buf1; by apply (wf_buffer_sub buf)).
  set (total := Z.to_nat (total_fragments f)) in *.
  remember (default (replicate total None) (pending buf1 !! delta_id f)) as slots eqn:Hs.
  case_bool_decide as Hlen; simpl.
  - pose proof (wf_slots_insert _ _ _ Hwf1 Hpos Hs ltac:(lia) ltac:(lia) ltac:(lia)) as Hw.
    assert (~ refuses buf f) as Hnref.
    { unfold refuses. intros [?|[?|[?|(sl & Hsl & Hne)]]]; [lia..|].
      apply Hne. rewrite <- Hev in Hsl. rewrite Hsl in Hs. simpl in Hs. subst. lia. }
    destruct (forallb _ _) eqn:Hfull.
    + rewrite (reassemble_complete (delta_id f) _ _ did
        (wf_slots_full _ _ Hw Hfull) (reflexivity _)). simpl. split; [|done].
      apply (wf_buffer_sub buf1); [done|apply delete_subseteq].
    + apply not_full_hole in Hfull as [i Hnone]. split; [|done].
      eapply wf_buffer_insert; [done|done|done|].
      destruct (pending buf1 !! delta_id f) as [sl|] eqn:Hsl; [by eauto|right].
      apply Hroom; [done|]. apply Hwf.
  - assert (exists sl, pending buf1 !! delta_id f = Some sl /\ slots = sl) as (sl & Hsl & ->).
    { destruct (pending buf1 !! delta_id f); [by eauto|].
      simpl in Hs. subst slots. by rewrite length_replicate in Hlen. }
    assert (buf1 = buf) as Hb.
    { unfold buf1, evict_for. rewrite Hev in Hsl. rewrite Hsl. done. }
    rewrite insert_id by done. rewrite Hb. destruct buf as [m]; simpl in *.
    split_and!; [done|done| |done]. do 3 right. exists sl. rewrite Hb in Hsl. split; [done|].
    intros Heq. apply Hlen. unfold total. lia.
Qed.
End BufferProofs.

(** ** Concrete instances *)

#[local] Existing Instance hash_iter_canonical.

Definition sample_bytes : bytes := [10; 20; 30; 40; 50; 60; 70]%N.
Definition sample_fragments : list DeltaFragment := fragment 5 sample_bytes 3.

Lemma reassemble_fragment_witness :
  reassemble (reverse sample_fragments) "did:key:z6MkPeer" = Ok sample_bytes.
Proof.
  apply (reassemble_fragment 5 sample_bytes 3); [done|lia|done|].
  by rewrite reverse_Permutation.
Defined.

Lemma fragment_bounds_witness :
  delta_id (mkFragment 5 1 3 [40; 50; 60]%N) = 5%N /\ (0 < length [40; 50; 60]%N <= 3)%nat /\
  1 = Z.of_nat 1 /\ 3 = Z.of_nat (length sample_fragments) /\ 0 <= 1 < 3.
Proof.
  apply (fragment_bounds 5 sample_bytes 3 1 (mkFragment 5 1 3 [40; 50; 60]%N)); [lia|done|done].
Defined.

Definition empty_buffer : ReassemblyBuffer := mkBuffer ∅.

Lemma buffer_delivers_witness :
  exists buf', add_fragments empty_buffer
    ([mkFragment 5 2 3 [70]; mkFragment 5 0 3 [10; 20; 30]; mkFragment 5 2 3 [70]]%N
     ++ [mkFragment 5 1 3 [40; 50; 60]%N]) "did:key:z6MkPeer"
    = (buf', [Ok None; Ok None; Ok None] ++ [Ok (Some sample_bytes)]) /\
    pending buf' !! 5%N = None.
Proof.
  apply (buffer_delivers 5 sample_bytes 3); [done|lia|done|done|..].
  - change (fragment 5 sample_bytes 3) with
      [mkFragment 5 0 3 [10; 20; 30]; mkFragment 5 1 3 [40; 50; 60]; mkFragment 5 2 3 [70]]%N.
    set_solver.
  - change (fragment 5 sample_bytes 3) with
      [mkFragment 5 0 3 [10; 20; 30]; mkFragment 5 1 3 [40; 50; 60]; mkFragment 5 2 3 [70]]%N.
    set_solver.
  - intros Hsub.
    assert (mkFragment 5 1 3 [40; 50; 60]%N ∈ fragment 5 sample_bytes 3) as H
      by (apply (list_elem_of_lookup_2 _ 1); done).
    apply Hsub in H. revert H. rewrite !elem_of_cons, elem_of_nil. naive_solver.
  - change (fragment 5 sample_bytes 3) with
      [mkFragment 5 0 3 [10; 20; 30]; mkFragment 5 1 3 [40; 50; 60]; mkFragment 5 2 3 [70]]%N.
    set_solver.
Defined.

Lemma add_fragment_safe_witness :
  wf_buffer (add_fragment empty_buffer (mkFragment 5 1 3 [40]%N) "did:key:z6MkPeer").1.
Proof.
  pose proof (add_fragment_safe empty_buffer (mkFragment 5 1 3 [40]%N) "did:key:z6MkPeer") as H.
  destruct (add_fragment _ _ _) as [buf' r]. apply H; [done|]. split; [done|].
  intros id slots Hs. simpl in Hs. by rewrite lookup_empty in Hs.
Defined.
End Fragment.
