(* ===== verification/Kahn.v ===== *)
(** * Kahn's algorithm

    The same loop sorts the changeset DAG ([crdt/dag.rs], [topological_sort])
    and the cloud outbound queue ([durability/cloud_queue.rs],
    [topological_sort_queue]).  The two differ in how a child without a counter
    is treated and in the order in which a batch of ready nodes is queued; both
    are parameters here, and both clients instantiate the theorems below. *)

From S2P Require Import Prelude Types.

(** [*in_degree.entry(c).or_insert(0) += 1], [children_map.entry(p).or_default().push(c)]
    and [entry(k).or_insert(d)]. *)
Definition incr (m : gmap N Z) (c : N) : gmap N Z := <[c := default 0 (m !! c) + 1]> m.
Definition push_child (m : gmap N (list N)) (e : N * N) : gmap N (list N) :=
  <[e.1 := default [] (m !! e.1) ++ [e.2]]> m.
Definition or_default {A} (d : A) (m : gmap N A) (k : N) : gmap N A :=
  <[k := default d (m !! k)]> m.


Section Kahn.
(** The counter of a child: [in_degree.entry(child).or_insert(0)] or
    [in_degree.get_mut(child)?]. *)
Context (counter : gmap N Z -> N -> option Z).
(** The order in which a batch of newly ready nodes is pushed. *)
Context (arrange : list N -> list N).

(** [for child in children { *deg -= 1; if *deg == 0 { ready } }] *)
Fixpoint release (children : list N) (in_degree : gmap N Z) : list N * gmap N Z :=
  match children with
  | [] => ([], in_degree)
  | child :: children' =>
      match counter in_degree child with
      | None => release children' in_degree
      | Some deg =>
          let deg := wrap_u64 (deg - 1) in
          let '(ready, in_degree') := release children' (<[child := deg]> in_degree) in
          (if deg =? 0 then child :: ready else ready, in_degree')
      end
  end.

(** [while let Some(node) = queue.pop_front()]; the fuel bounds the number of
    iterations, and the queue left tells whether it was enough. *)
Fixpoint kahn_loop (fuel : nat) (queue : list N) (in_degree : gmap N Z)
    (children_map : gmap N (list N)) (sorted : list N) : list N * list N :=
  match fuel, queue with
  | S fuel', node :: queue' =>
      let '(ready, in_degree') := release (default [] (children_map !! node)) in_degree in
      kahn_loop fuel' (queue' ++ arrange ready) in_degree' children_map (sorted ++ [node])
  | _, _ => (sorted, queue)
  end.
End Kahn.

(** ** The graph the maps describe *)

Section Spec.
(** The nodes that have a counter, and the edges [(parent, child)]. *)
Context (K : list N) (E : list (N * N)).

Definition children_in (p : N) : list N :=
  omap (fun e => if decide (e.1 = p) then Some e.2 else None) E.
(** The number of edges into [c] from parents that are not in [done]. *)
Definition remaining (done : list N) (c : N) : Z :=
  sum_of (fun e : N * N => if decide (e.2 = c /\ e.1 ∉ done) then 1 else 0) E.

(** A node that can be ordered: known, and so are all its ancestors, none of
    which lies on a cycle. *)
Inductive grounded : N -> Prop :=
| grounded_intro x : x ∈ K -> (forall p, (p, x) ∈ E -> grounded p) -> grounded x.

(** Every parent of a listed node is listed before it. *)
Definition parents_first (l : list N) : Prop :=
  forall i c, l !! i = Some c -> forall p, (p, c) ∈ E -> p ∈ take i l.

Lemma remaining_zero done c : remaining done c = 0 <-> forall p, (p, c) ∈ E -> p ∈ done.
Proof.
  unfold remaining. rewrite sum_of_zero by (intros; case_decide; lia). split.
  - intros H p Hp. specialize (H _ Hp). case_decide as Hd; [done|].
    destruct (decide (p ∈ done)); [done|]. by destruct Hd.
  - intros H [p c'] Hin. case_decide as Hd; [|done]. destruct Hd as [Heq Hne].
    simpl in *. subst. by destruct Hne; apply H.
Qed.

Lemma remaining_bounds done c : 0 <= remaining done c <= Z.of_nat (length E).
Proof. unfold remaining. induction E as [|e E' IH]; simpl; [lia|]. case_decide; lia. Qed.
End Spec.


(** The number of occurrences of [c] in a list of children. *)
Definition occ (c : N) (l : list N) : Z := sum_of (fun x => if decide (x = c) then 1 else 0) l.

Lemma occ_cons c x l : occ c (x :: l) = (if decide (x = c) then 1 else 0) + occ c l.
Proof. done. Qed.

Lemma occ_nonneg c l : 0 <= occ c l.
Proof. apply sum_of_nonneg, Forall_forall. intros. case_decide; lia. Qed.

Lemma occ_zero c l : occ c l = 0 <-> c ∉ l.
Proof.
  unfold occ. rewrite sum_of_zero by (intros; case_decide; lia). split.
  - intros H Hin. specialize (H _ Hin). by rewrite decide_True in H.
  - intros H x Hx. rewrite decide_False by (by intros ->). done.
Qed.

Lemma remaining_snoc E done p c :
  p ∉ done -> remaining E (done ++ [p]) c = remaining E done c - occ c (children_in E p).
Proof.
  intros Hp. unfold remaining, occ. induction E as [|[q c'] E' IH]; [done|].
  rewrite !sum_of_cons, IH. unfold children_in. cbn [omap list_omap fst snd].
  destruct (decide (q = p)) as [->|Hne].
  - rewrite sum_of_cons, (decide_False (P := _ /\ _)) by set_solver.
    destruct (decide (c' = c)) as [->|?].
    + rewrite decide_True by done. lia.
    + rewrite decide_False by naive_solver. lia.
  - rewrite (decide_ext (c' = c /\ q ∉ done ++ [p]) (c' = c /\ q ∉ done)) by set_solver. lia.
Qed.

Section Correct.
Context (counter : gmap N Z -> N -> option Z) (arrange : list N -> list N).
Hypothesis counter_present : forall m c d, m !! c = Some d -> counter m c = Some d.
Hypothesis arrange_perm : forall l, arrange l ≡ₚ l.

Lemma release_spec cs m :
  (forall c, c ∈ cs -> exists d, m !! c = Some d /\ occ c cs <= d < 2 ^ 64) ->
  let '(ready, m') := release counter cs m in
  (forall c, m' !! c = (fun d => d - occ c cs) <$> m !! c) /\
  NoDup ready /\ (forall c, c ∈ ready <-> c ∈ cs /\ m !! c = Some (occ c cs)).
Proof.
  revert m. induction cs as [|x cs IH]; intros m Hm; cbn [release].
  - split_and!; [|constructor|set_solver].
    intros c. destruct (m !! c); simpl; [|done]. f_equal. change (occ c []) with 0. lia.
  - destruct (Hm x) as (d & Hd & Hocc); [left|]. rewrite (counter_present _ _ _ Hd).
    rewrite occ_cons, decide_True in Hocc by done. pose proof (occ_nonneg x cs).
    rewrite wrap_u64_small by (unfold u64_ok; lia).
    specialize (IH (<[x := d - 1]> m)).
    destruct (release counter cs _) as [ready m'].
    destruct IH as (H1 & H2 & H3).
    { intros c Hc. destruct (Hm c) as (dc & Hdc & Hoc); [by right|].
      rewrite occ_cons in Hoc. destruct (decide (x = c)) as [<-|Hne].
      - exists (d - 1). rewrite lookup_insert_eq. simplify_eq. split; [done|lia].
      - exists dc. rewrite lookup_insert_ne by done. split; [done|lia]. }
    assert (forall c, m' !! c = (fun d => d - occ c (x :: cs)) <$> m !! c) as Hlook.
    { intros c. rewrite H1, occ_cons. destruct (decide (x = c)) as [<-|Hne].
      - rewrite lookup_insert_eq, Hd. simpl. f_equal. lia.
      - rewrite lookup_insert_ne by done. done. }
    assert (forall c, c <> x -> c ∈ ready <-> c ∈ x :: cs /\ m !! c = Some (occ c (x :: cs)))
      as Hother.
    { intros c Hc. rewrite H3, occ_cons, decide_False, lookup_insert_ne by done.
      set_solver. }
    assert (m !! x = Some (occ x (x :: cs)) <-> d - 1 = occ x cs) as Hx.
    { rewrite Hd, occ_cons, decide_True by done. split; [intros [= ->]|intros]; f_equal; lia. }
    destruct (Z.eqb_spec (d - 1) 0) as [H0|H0]; (split; [exact Hlook|]).
    + assert (x ∉ cs) as Hnin by (apply occ_zero; lia).
      assert (x ∉ ready) by (rewrite H3; naive_solver).
      split; [by constructor|]. intros c. destruct (decide (c = x)) as [->|Hc].
      * rewrite Hx. apply occ_zero in Hnin. split; [|left]. intros _. split; [left|lia].
      * rewrite elem_of_cons. rewrite <- (Hother c Hc). naive_solver.
    + split; [done|]. intros c. destruct (decide (c = x)) as [->|Hc]; [|by apply Hother].
      rewrite H3, lookup_insert_eq, Hx. split.
      * intros [? [= <-]]. split; [by left|done].
      * intros [_ Heq]. split; [|by rewrite Heq].
        destruct (decide (x ∈ cs)); [done|]. assert (occ x cs = 0) by (by apply occ_zero). lia.
Qed.

Context (K : list N) (E : list (N * N)) (children_map : gmap N (list N)).
Hypothesis K_nodup : NoDup K.
Hypothesis targets_known : forall p c, (p, c) ∈ E -> c ∈ K.
Hypothesis E_small : Z.of_nat (length E) < 2 ^ 64.
Hypothesis children_map_spec : forall p, default [] (children_map !! p) = children_in E p.

Record kahn_inv (queue : list N) (in_degree : gmap N Z) (done : list N) : Prop := {
  ki_nodup : NoDup (queue ++ done);
  ki_degree : forall c, c ∈ K -> in_degree !! c = Some (remaining E done c);
  ki_ready : forall x, x ∈ queue ++ done <-> x ∈ K /\ remaining E done x = 0;
  ki_order : parents_first E done;
  ki_grounded : forall x, x ∈ queue ++ done -> grounded K E x
}.

Lemma elem_of_children_in p c : c ∈ children_in E p <-> (p, c) ∈ E.
Proof.
  unfold children_in. rewrite list_elem_of_omap. split.
  - intros ([q c'] & Hin & Heq). simpl in Heq. case_decide; by simplify_eq.
  - intros Hin. exists (p, c). simpl. by rewrite decide_True.
Qed.

(** What taking one node releases: the nodes it was the last open parent of. *)
Lemma release_ready node queue in_degree done ready in_degree' :
  kahn_inv (node :: queue) in_degree done ->
  release counter (children_in E node) in_degree = (ready, in_degree') ->
  NoDup ready /\
  (forall c, c ∈ K -> in_degree' !! c = Some (remaining E (done ++ [node]) c)) /\
  forall x, x ∈ ready <-> x ∈ K /\ 0 < remaining E done x /\ remaining E (done ++ [node]) x = 0.
Proof.
  intros [Hnd Hdeg _ _ _] Hrel. apply NoDup_cons in Hnd as [Hnode _].
  assert (forall c, remaining E (done ++ [node]) c = remaining E done c - occ c (children_in E node))
    as Hrem by (intros c; apply remaining_snoc; set_solver).
  pose proof (release_spec (children_in E node) in_degree) as Hspec. rewrite Hrel in Hspec.
  destruct Hspec as (Hdeg' & Hnd2 & Hin).
  { intros c Hc%elem_of_children_in. exists (remaining E done c).
    split; [by eapply Hdeg, targets_known|].
    pose proof (remaining_bounds E (done ++ [node]) c).
    pose proof (remaining_bounds E done c). rewrite Hrem in *. lia. }
  split_and!; [done|intros c HK; rewrite Hdeg', Hdeg by done; simpl; by rewrite Hrem|].
  intros x. rewrite Hin, elem_of_children_in, Hrem. split.
  - intros [Hx Hd]. pose proof (targets_known _ _ Hx) as HK. rewrite Hdeg in Hd by done. simplify_eq.
    assert (occ x (children_in E node) <> 0) by (rewrite occ_zero, elem_of_children_in; naive_solver).
    pose proof (occ_nonneg x (children_in E node)). split_and!; [done|lia|lia].
  - intros (HK & Hpos & H0). rewrite Hdeg by done. split; [|f_equal; lia].
    apply elem_of_children_in. destruct (decide (x ∈ children_in E node)); [done|].
    assert (occ x (children_in E node) = 0) by (by apply occ_zero). lia.
Qed.

Lemma kahn_inv_step node queue in_degree done ready in_degree' :
  kahn_inv (node :: queue) in_degree done ->
  release counter (children_in E node) in_degree = (ready, in_degree') ->
  kahn_inv (queue ++ arrange ready) in_degree' (done ++ [node]).
Proof.
  intros Hinv Hrel. destruct (release_ready _ _ _ _ _ _ Hinv Hrel) as (Hnd2 & Hdeg' & Hin').
  destruct Hinv as [Hnd Hdeg Hready Hord Hgr]. apply NoDup_cons in Hnd as [Hnode Hnd].
  assert (forall x, x ∈ (queue ++ arrange ready) ++ done ++ [node] <->
    x ∈ (node :: queue) ++ done \/ x ∈ ready) as Hmem.
  { intros x. rewrite !elem_of_app, arrange_perm, !elem_of_cons, elem_of_nil.
    naive_solver. }
  split.
  - rewrite (Permutation_app_comm done), arrange_perm.
    rewrite <- app_assoc, (Permutation_app_comm ready), app_assoc, (app_assoc queue).
    apply NoDup_app. split_and!; [|intros x Hx Hr|done].
    + rewrite (Permutation_app_comm queue [node]). simpl. by constructor.
    + apply Hin' in Hr as (_ & Hpos & _).
      assert (x ∈ (node :: queue) ++ done) as Hx' by set_solver.
      apply Hready in Hx'. lia.
  - exact Hdeg'.
  - intros x. rewrite Hmem, Hready, Hin'. pose proof (remaining_bounds E done x).
    pose proof (remaining_bounds E (done ++ [node]) x).
    assert (remaining E (done ++ [node]) x <= remaining E done x)
      by (rewrite remaining_snoc by set_solver; pose proof (occ_nonneg x (children_in E node)); lia).
    destruct (Z.eq_dec (remaining E done x) 0); split; [intros [?|?]; split; lia || tauto| |
      intros [?|?]; split; lia || tauto|]; intros [? ?]; [left|right]; split_and!; done || lia.
  - intros i c Hi p Hp. apply lookup_app_Some in Hi as [Hi|[Hge Hi]].
    + rewrite take_app_le by (apply Nat.lt_le_incl; by eapply lookup_lt_Some).
      by eapply Hord.
    + apply list_lookup_singleton_Some in Hi as [Hi <-].
      assert (i = length done) as -> by lia. rewrite take_app_length.
      destruct (Hready node) as [Hr _]. destruct Hr as [_ H0]; [set_solver|].
      by eapply (proj1 (remaining_zero E done node)).
  - intros x [Hx|Hx]%Hmem; [by apply Hgr|].
    apply Hin' in Hx as (HK & _ & H0). constructor; [done|].
    intros p Hp. apply (proj1 (remaining_zero E _ x) H0) in Hp. apply Hgr. set_solver.
Qed.
Lemma kahn_inv_length queue in_degree done :
  kahn_inv queue in_degree done -> (length queue + length done <= length K)%nat.
Proof.
  intros [Hnd _ Hready _ _]. rewrite <- length_app. apply submseteq_length.
  apply NoDup_submseteq; [done|]. intros x Hx. by apply Hready.
Qed.

Lemma kahn_loop_spec fuel queue in_degree done :
  kahn_inv queue in_degree done -> (length K < fuel + length done)%nat ->
  let '(sorted, rest) := kahn_loop counter arrange fuel queue in_degree children_map done in
  rest = [] /\ NoDup sorted /\ parents_first E sorted /\
  forall x, x ∈ sorted <-> grounded K E x.
Proof.
  revert queue in_degree done. induction fuel as [|fuel IH]; intros queue in_degree done Hinv Hfuel.
  { apply kahn_inv_length in Hinv. lia. }
  cbn [kahn_loop]. destruct queue as [|node queue].
  - destruct Hinv as [Hnd _ Hready Hord Hgr]. simpl in *. split_and!; [done|done|done|].
    intros x. split; [by apply Hgr|]. induction 1 as [x HK _ IHx].
    apply Hready. split; [done|]. by apply remaining_zero.
  - rewrite children_map_spec.
    destruct (release counter (children_in E node) in_degree) as [ready in_degree'] eqn:Hrel.
    apply IH; [by eapply kahn_inv_step|]. rewrite length_app. simpl. lia.
Qed.

Lemma kahn_init queue in_degree :
  NoDup queue -> (forall x, x ∈ queue <-> x ∈ K /\ in_degree !! x = Some 0) ->
  (forall c, c ∈ K -> in_degree !! c = Some (remaining E [] c)) ->
  kahn_inv queue in_degree [].
Proof.
  intros Hnd Hq Hdeg.
  assert (forall x, x ∈ queue <-> x ∈ K /\ remaining E [] x = 0) as Hq'.
  { intros x. rewrite Hq. split; intros [HK Hx]; (split; [done|]); rewrite Hdeg in * by done;
      congruence. }
  split; rewrite ?app_nil_r; [done|done|done|by intros i c Hi|].
  intros x Hx. apply Hq' in Hx as [HK H0]. constructor; [done|].
  intros p Hp. apply (proj1 (remaining_zero E [] x) H0) in Hp. set_solver.
Qed.

(** Kahn's loop with more fuel than nodes empties its queue, and returns each
    groundable node once, after all of its parents. *)
Lemma kahn_correct fuel queue in_degree :
  NoDup queue -> (forall x, x ∈ queue <-> x ∈ K /\ in_degree !! x = Some 0) ->
  (forall c, c ∈ K -> in_degree !! c = Some (remaining E [] c)) ->
  (length K < fuel)%nat ->
  let '(sorted, rest) := kahn_loop counter arrange fuel queue in_degree children_map [] in
  rest = [] /\ NoDup sorted /\ parents_first E sorted /\
  forall x, x ∈ sorted <-> grounded K E x.
Proof.
  intros. apply kahn_loop_spec; [by apply kahn_init|]. simpl. lia.
Qed.
End Correct.

(** A graph with a rank that decreases towards the parents, all of whose
    parents are known, is groundable everywhere. *)
Lemma grounded_ranked K E (rank : N -> nat) :
  (forall p c, (p, c) ∈ E -> p ∈ K /\ (rank p < rank c)%nat) ->
  forall x, x ∈ K -> grounded K E x.
Proof.
  intros HE x. remember (rank x) as n eqn:Hn. revert x Hn.
  induction (lt_wf n) as [n _ IH]. intros x -> HK. constructor; [done|].
  intros p Hp. apply HE in Hp as [HpK Hlt]. by eapply IH.
Qed.

(** ** The maps both sorts build *)

Lemma foldl_or_default {A} (d : A) l m k :
  foldl (or_default d) m l !! k =
  if decide (k ∈ l) then Some (default d (m !! k)) else m !! k.
Proof.
  revert m. induction l as [|x l IH]; intros m; simpl; [done|].
  rewrite IH. unfold or_default. destruct (decide (k = x)) as [->|Hne].
  - rewrite lookup_insert_eq, (decide_True (P := x ∈ x :: l)) by left.
    by case_decide.
  - rewrite lookup_insert_ne by done.
    by rewrite (decide_ext (k ∈ l) (k ∈ x :: l)) by set_solver.
Qed.

Lemma foldl_incr l m k :
  foldl incr m l !! k =
  if decide (k ∈ l) then Some (default 0 (m !! k) + occ k l) else m !! k.
Proof.
  revert m. induction l as [|x l IH]; intros m; cbn [foldl]; [done|].
  rewrite IH, occ_cons. unfold incr. destruct (decide (k = x)) as [->|Hne].
  - rewrite lookup_insert_eq, (decide_True (P := x ∈ x :: l)) by left.
    rewrite (decide_True (P := x = x)) by done.
    case_decide as Hx; simpl; [f_equal; lia|]. apply occ_zero in Hx. f_equal. lia.
  - rewrite lookup_insert_ne, (decide_False (P := x = k)) by done. rewrite Z.add_0_l.
    by rewrite (decide_ext (k ∈ l) (k ∈ x :: l)) by set_solver.
Qed.

Lemma foldl_push_child E m p :
  default [] (foldl push_child m E !! p) = default [] (m !! p) ++ children_in E p.
Proof.
  revert m. induction E as [|[q c] E IH]; intros m; cbn [foldl].
  - unfold children_in. simpl. by rewrite app_nil_r.
  - rewrite IH. unfold push_child, children_in. cbn [omap list_omap fst snd].
    destruct (decide (q = p)) as [->|Hne].
    + rewrite lookup_insert_eq. simpl. by rewrite <- app_assoc.
    + by rewrite lookup_insert_ne.
Qed.

Lemma remaining_nil E c : remaining E [] c = occ c (map snd E).
Proof.
  unfold remaining, occ. induction E as [|e E IH]; [done|]. cbn [map].
  rewrite !sum_of_cons, IH. f_equal. apply decide_ext. set_solver.
Qed.

Lemma grounded_ext K K' E E' x :
  (forall y, y ∈ K -> y ∈ K') -> (forall e, e ∈ E' -> e ∈ E) -> grounded K E x -> grounded K' E' x.
Proof. intros HK HE. induction 1 as [x Hx _ IH]. constructor; auto. Qed.

Lemma zero_queue_spec `{!HashIter N Z} (m : gmap N Z) :
  let queue := map fst (filter (fun e => e.2 = 0) (hm_iter m)) in
  NoDup queue /\ forall x, x ∈ queue <-> m !! x = Some 0.
Proof.
  simpl. split.
  - eapply (sublist_NoDup _ (map fst (hm_iter m))).
    + rewrite hm_iter_perm. apply NoDup_fst_map_to_list.
    + apply (fmap_sublist fst), sublist_filter.
  - intros x. rewrite list_elem_of_fmap. split.
    + intros ([y z] & -> & [Hz Hin]%list_elem_of_filter). simpl in *. subst.
      by apply elem_of_hm_iter in Hin.
    + intros Hx. exists (x, 0). split; [done|]. apply list_elem_of_filter.
      split; [done|]. by apply elem_of_hm_iter.
Qed.

(** Sending a part of an ordered list keeps the order. *)
Lemma parents_first_filter E (P : N -> Prop) `{!forall x, Decision (P x)} l l1 x l2 :
  NoDup l -> parents_first E l -> filter P l = l1 ++ x :: l2 ->
  forall p, (p, x) ∈ E -> P p -> p ∈ l1.
Proof.
  intros Hnd Hpf Hsplit p Hp HP.
  assert (NoDup (l1 ++ x :: l2)) as Hnd' by (rewrite <- Hsplit; by apply NoDup_filter).
  assert (x ∈ filter P l) as [HPx Hx]%list_elem_of_filter.
  { rewrite Hsplit. apply elem_of_app. right. left. }
  apply list_elem_of_lookup in Hx as [i Hi].
  pose proof (Hpf _ _ Hi _ Hp) as Hin. apply list_elem_of_split_length in Hi as (k1 & k2 & -> & ->).
  rewrite take_app_length in Hin. apply NoDup_app in Hnd as (_ & Hdis & _).
  rewrite filter_app, filter_cons_True in Hsplit by done.
  apply not_elem_of_app_cons_inv_l in Hsplit as (<- & _ & _).
  - by apply list_elem_of_filter.
  - intros Hx. apply NoDup_app in Hnd' as (_ & Hd & _). apply (Hd x); [done|left].
  - intros [_ Hx]%list_elem_of_filter. apply (Hdis x); [done|left].
Qed.
