(* ===== verification/Projection.v ===== *)
(** * The projection tables: the names and the flags of [store/projection.rs]

    A logical table [t] is the SQLite table [proj_t], and every statement on it is built by
    interpolating the name between double quotes.  SQLite compares the names of tables up
    to the case of the ASCII letters and keeps the spelling of the statement that created
    one: [Projection] is a list of tables under their first spelling, and a lookup takes
    the one whose name agrees up to case.  A double quote or a NUL in the name ends the
    quoted identifier early and the statement is an error, [sql_name].  Two things a name
    with a quote can also do are left out: a doubled quote is an escaped one for SQLite, and
    a crafted name can complete the statement with SQL of its own. *)

From Stdlib Require Import Ascii.
From S2P Require Import Prelude.

Module Projection.

(** ** Names *)

Definition DOUBLE_QUOTE : ascii := ascii_of_N 34.
Definition NUL : ascii := ascii_of_N 0.

Definition fold_char (c : ascii) : ascii :=
  if (65 <=? N_of_ascii c)%N && (N_of_ascii c <=? 90)%N then ascii_of_N (N_of_ascii c + 32) else c.
Fixpoint fold_case (s : string) : string :=
  match s with "" => "" | String c s => String (fold_char c) (fold_case s) end.

(** The name can stand between the quotes of a statement. *)
Fixpoint sql_name (s : string) : bool :=
  match s with
  | "" => true
  | String c s => negb (Ascii.eqb c DOUBLE_QUOTE) && negb (Ascii.eqb c NUL) && sql_name s
  end.

(** Two spellings of one SQLite table. *)
Definition same_table (a b : string) : Prop := fold_case a = fold_case b.
#[export] Instance same_table_dec a b : Decision (same_table a b) := decide (fold_case a = fold_case b).
#[export] Instance same_table_equiv : Equivalence same_table.
Proof. split; [done|by intros ? ?|intros ? ? ?; apply eq_trans]. Qed.

Lemma fold_char_eqb c d :
  (N_of_ascii d < 65)%N -> Ascii.eqb (fold_char c) d = Ascii.eqb c d.
Proof.
  intros Hd. unfold fold_char. destruct (_ && _) eqn:Hc; [|done].
  apply andb_true_iff in Hc as [H1%N.leb_le H2%N.leb_le].
  destruct (Ascii.eqb_spec c d) as [->|_]; [lia|]. apply Ascii.eqb_neq. intros <-.
  rewrite N_ascii_embedding in Hd by lia. lia.
Qed.

Lemma sql_name_fold s : sql_name (fold_case s) = sql_name s.
Proof. induction s as [|c s IH]; [done|]. cbn [fold_case sql_name]. by rewrite IH, !fold_char_eqb. Qed.

#[export] Instance sql_name_proper : Proper (same_table ==> eq) sql_name.
Proof. intros a b Hab. by rewrite <- sql_name_fold, Hab, sql_name_fold. Qed.

(** ** Rows *)

Record ProjRow := mkProjRow { p_data_json : string; p_contaminated : Z }.
Abbreviation Rows := (gmap string ProjRow).
Abbreviation Projection := (list (string * Rows)).

Definition table_rows (pr : Projection) (table : string) : option Rows :=
  snd <$> List.find (fun e => bool_decide (same_table e.1 table)) pr.

(** [CREATE TABLE IF NOT EXISTS] keeps the spelling there is. *)
Fixpoint set_rows (pr : Projection) (table : string) (rows : Rows) : Projection :=
  match pr with
  | [] => [(table, rows)]
  | (name, old) :: pr =>
      if decide (same_table name table) then (name, rows) :: pr else (name, old) :: set_rows pr table rows
  end.

Definition set_flag (f : Z) (r : ProjRow) : ProjRow := mkProjRow (p_data_json r) f.

(** [CREATE TABLE IF NOT EXISTS], then [UPDATE .. SET contaminated = 1]; the callers ignore
    the error of either. *)
Definition mark_row_contaminated (pr : Projection) (table row_key : string) : Projection :=
  if sql_name table then
    set_rows pr table (alter (set_flag 1) row_key (default ∅ (table_rows pr table)))
  else pr.
Definition clear_row_contamination (pr : Projection) (table row_key : string) : Projection :=
  if sql_name table then
    match table_rows pr table with
    | Some rows => set_rows pr table (alter (set_flag 0) row_key rows)
    | None => pr
    end
  else pr.

(** ** What a statement finds *)

Lemma table_rows_set pr table rows t :
  table_rows (set_rows pr table rows) t = if decide (same_table t table) then Some rows else table_rows pr t.
Proof.
  unfold table_rows. induction pr as [|[name old] pr IH]; cbn [set_rows].
  - cbn. destruct (decide (same_table t table)) as [Hs|Hs].
    + by rewrite bool_decide_true by (by symmetry).
    + by rewrite bool_decide_false by (intros H; apply Hs; by symmetry).
  - destruct (decide (same_table name table)) as [Hn|Hn]; cbn [List.find fst];
      destruct (decide (same_table t table)) as [Hs|Hs].
    + by rewrite bool_decide_true by (etrans; [exact Hn|by symmetry]).
    + by rewrite !bool_decide_false by (intros H; apply Hs; etrans; [symmetry; exact H|exact Hn]).
    + rewrite bool_decide_false; [exact IH|]. intros H. apply Hn. etrans; [exact H|exact Hs].
    + by case_bool_decide.
Qed.

#[export] Instance table_rows_proper pr : Proper (same_table ==> eq) (table_rows pr).
Proof.
  intros a b Hab. unfold table_rows. f_equal. induction pr as [|e pr IH]; [done|]. cbn.
  rewrite IH. by rewrite (bool_decide_ext (same_table e.1 a) (same_table e.1 b)) by (by rewrite Hab).
Qed.

(** The row the statements on table [t] reach under key [k]. *)
Definition row_at (pr : Projection) (t k : string) : option ProjRow :=
  if sql_name t then table_rows pr t ≫= fun rows => rows !! k else None.

#[export] Instance row_at_proper pr : Proper (same_table ==> eq ==> eq) (row_at pr).
Proof. intros a b Hab k _ <-. unfold row_at. by rewrite (sql_name_proper a b Hab), (table_rows_proper pr a b Hab). Qed.

(** Two names of one row. *)
Definition same_row (x y : string * string) : Prop := same_table x.1 y.1 /\ x.2 = y.2.
#[export] Instance same_row_dec x y : Decision (same_row x y).
Proof. unfold same_row. apply _. Defined.

Lemma row_at_set pr table rows t k :
  row_at (set_rows pr table rows) t k =
  if decide (same_table t table) then if sql_name t then rows !! k else None else row_at pr t k.
Proof. unfold row_at. rewrite table_rows_set. by repeat case_decide. Qed.

Lemma row_at_upsert pr table key r t k :
  sql_name table = true ->
  row_at (set_rows pr table (<[key := r]> (default ∅ (table_rows pr table)))) t k =
  if decide (same_row (t, k) (table, key)) then Some r else row_at pr t k.
Proof.
  intros Hn. rewrite row_at_set. unfold same_row. cbn [fst snd]. destruct (decide (same_table t table)) as [Hs|Hs].
  - rewrite (sql_name_proper _ _ Hs), Hn. destruct (decide (k = key)) as [->|Hk].
    + by rewrite lookup_insert_eq, decide_True.
    + rewrite lookup_insert_ne, decide_False by naive_solver. unfold row_at. rewrite (sql_name_proper _ _ Hs), (table_rows_proper pr _ _ Hs), Hn.
      by destruct (table_rows pr table).
  - by rewrite decide_False by naive_solver.
Qed.

Lemma row_at_mark pr t k t' k' :
  row_at (mark_row_contaminated pr t k) t' k' =
  if decide (same_row (t', k') (t, k)) then set_flag 1 <$> row_at pr t' k' else row_at pr t' k'.
Proof.
  unfold mark_row_contaminated, same_row. cbn [fst snd]. destruct (sql_name t) eqn:Hn.
  - rewrite row_at_set. destruct (decide (same_table t' t)) as [Hs|Hs].
    + unfold row_at. rewrite (sql_name_proper _ _ Hs), (table_rows_proper pr _ _ Hs), Hn. destruct (decide (k' = k)) as [->|Hk].
      * rewrite lookup_alter_eq, decide_True by done. by destruct (table_rows pr t).
      * rewrite lookup_alter_ne, decide_False by naive_solver. by destruct (table_rows pr t).
    + by rewrite decide_False by naive_solver.
  - destruct (decide _) as [[Hs _]|]; [|done]. unfold row_at. by rewrite (sql_name_proper _ _ Hs), Hn.
Qed.

Lemma row_at_clear pr t k t' k' :
  row_at (clear_row_contamination pr t k) t' k' =
  if decide (same_row (t', k') (t, k)) then set_flag 0 <$> row_at pr t' k' else row_at pr t' k'.
Proof.
  unfold clear_row_contamination, same_row. cbn [fst snd]. destruct (sql_name t) eqn:Hn.
  2: { destruct (decide _) as [[Hs _]|]; [|done]. unfold row_at. by rewrite (sql_name_proper _ _ Hs), Hn. }
  destruct (table_rows pr t) as [rows|] eqn:Ht.
  - rewrite row_at_set. destruct (decide (same_table t' t)) as [Hs|Hs].
    + unfold row_at. rewrite (sql_name_proper _ _ Hs), (table_rows_proper pr _ _ Hs), Hn, Ht. cbn. destruct (decide (k' = k)) as [->|Hk].
      * by rewrite lookup_alter_eq, decide_True by done.
      * by rewrite lookup_alter_ne, decide_False by naive_solver.
    + by rewrite decide_False by naive_solver.
  - destruct (decide _) as [[Hs _]|]; [|done]. unfold row_at. by rewrite (sql_name_proper _ _ Hs), (table_rows_proper pr _ _ Hs), Hn, Ht.
Qed.

(** The text of a row, whatever its flag. *)
Definition text_at (pr : Projection) (t k : string) : option string := p_data_json <$> row_at pr t k.
Definition same_texts (pr pr' : Projection) : Prop := forall t k, text_at pr' t k = text_at pr t k.
#[export] Instance same_texts_preorder : PreOrder same_texts.
Proof. split; [done|]. intros p1 p2 p3 H1 H2 t k. by rewrite H2. Qed.

Lemma same_texts_mark_row pr t k : same_texts pr (mark_row_contaminated pr t k).
Proof. intros t' k'. unfold text_at. rewrite row_at_mark. case_decide; [|done]. by destruct (row_at pr t' k'). Qed.

Lemma same_texts_clear_row pr t k : same_texts pr (clear_row_contamination pr t k).
Proof. intros t' k'. unfold text_at. rewrite row_at_clear. case_decide; [|done]. by destruct (row_at pr t' k'). Qed.

(** A statement reaches the rows of a listed table. *)
Lemma row_at_listed pr t k :
  is_Some (row_at pr t k) ->
  exists name rows, same_table name t /\ (name, rows) ∈ pr /\ is_Some (rows !! k).
Proof.
  unfold row_at, table_rows. destruct (sql_name t); [|by intros []%is_Some_None].
  destruct (List.find _ pr) as [[name rows]|] eqn:Hf; [|by intros []%is_Some_None]. cbn. intros Hk.
  apply List.find_some in Hf as [Hin Hs%bool_decide_eq_true]. exists name, rows.
  split; [exact Hs|]. split; [by apply list_elem_of_In|done].
Qed.

(** [Users] and [users] are one table, under the spelling of the first statement. *)
Example letter_case_ignored :
  let pr := set_rows (set_rows [] "Users" ∅) "users" {[ "k" := mkProjRow "1" 0 ]} in
  map fst pr = ["Users"] /\ text_at pr "USERS" "k" = Some "1".
Proof. split; reflexivity. Qed.

Example quote_breaks_statement : sql_name (String "a" (String DOUBLE_QUOTE "b")) = false.
Proof. reflexivity. Qed.
End Projection.
