(* ===== verification/Dag.v ===== *)
(** * The changeset DAG

    [crdt/dag.rs]: the native build keeps the DAG in two SQLite tables,
    [dag_nodes] (keyed by delta id) and [dag_edges] (keyed by the pair), the
    WASM build in two hash maps.  Both are modelled with their breadth-first
    walk and their topological sort; the interface [CausalDag] states what the
    walks of either build promise to the contamination engine.

    SQLite is the source of two freedoms: the order of the rows of an unordered
    [SELECT] (class [SelectOrder]) and failures of a statement, which are not
    modelled (every statement succeeds).  zstd is a pair of functions. *)

From S2P Require Import Prelude Types Kahn.

(** The order in which SQLite returns the rows of a query without [ORDER BY]. *)
Class SelectOrder := {
  select : forall {A : Type}, list A -> list A;
  select_perm : forall A (l : list A), select l ≡ₚ l
}.

Definition select_canonical : SelectOrder :=
  {| select A l := l; select_perm A l := reflexivity l |}.

Module Dag.

Record DagNode := mkNode {
  delta_id : DeltaId;
  payload : bytes;
  delta_bytes : option bytes;
  parent_ids : list DeltaId;
  actor_id : ActorId;
  lamport : Z;                        (* u64 *)
  schema_hash : SchemaIdentifierHash;
  compacted : bool;
  author_did : Did
}.

(** A row of [dag_nodes]; [r_tags] is the decoded [tags_json] column. *)
Record NodeRow := mkRow {
  r_payload : bytes;
  r_delta_bytes : option bytes;
  r_lamport : Z;                      (* INTEGER, an i64 *)
  r_schema_hash : SchemaIdentifierHash;
  r_compacted : Z;
  r_author_did : Did;
  r_tags : list DeltaTag
}.

(** The two tables.  The order of [dag_edges] is the insertion order. *)
Record Tables := mkTables {
  dag_nodes : gmap N NodeRow;
  dag_edges : list (N * N)
}.

(** ** Breadth-first walk, over any child relation *)

Section Bfs.
Context (children : N -> list N).

Fixpoint bfs_loop (fuel : nat) (queue : list N) (visited : gset N) (result : list N)
  : list N * list N :=
  match fuel, queue with
  | S fuel', current :: queue' =>
      if bool_decide (current ∈ visited) then bfs_loop fuel' queue' visited result
      else
        let visited := {[current]} ∪ visited in
        bfs_loop fuel' (queue' ++ filter (fun child => child ∉ visited) (children current))
          visited (result ++ [current])
  | _, _ => (result, queue)
  end.
End Bfs.

(** ** Native build *)

Section Native.
Context `{!SelectOrder} `{!HashIter N Z}.
Context (zstd_encode : bytes -> Res bytes) (zstd_decode : bytes -> Res bytes).

Definition compress_payload (data : bytes) : Res bytes := zstd_encode data.
Definition decompress_payload (data : bytes) : Res bytes := zstd_decode data.

Definition insert_edge (edges : list (N * N)) (e : N * N) : list (N * N) :=
  if bool_decide (e ∈ edges) then edges else edges ++ [e].

Definition insert (db : Tables) (node : DagNode) : Tables * Res unit :=
  match compress_payload (payload node) with
  | Err e => (db, Err e)
  | Ok compressed =>
      let row := mkRow compressed (delta_bytes node) (wrap_i64 (lamport node))
        (schema_hash node) (if compacted node then 1 else 0) (author_did node) [] in
      (* INSERT OR IGNORE *)
      let nodes :=
        match dag_nodes db !! delta_id node with
        | Some _ => dag_nodes db
        | None => <[delta_id node := row]> (dag_nodes db)
        end in
      let edges :=
        foldl (fun es parent_id => insert_edge es (parent_id, delta_id node))
          (dag_edges db) (parent_ids node) in
      (mkTables nodes edges, Ok tt)
  end.

Definition children (db : Tables) (parent_id : N) : list N :=
  select (children_in (dag_edges db) parent_id).

Definition parents (db : Tables) (child_id : N) : list N :=
  select (omap (fun e => if decide (e.2 = child_id) then Some e.1 else None) (dag_edges db)).

Definition nodes_by_schema_hash (db : Tables) (h : SchemaIdentifierHash) : list N :=
  select (map fst (filter (fun e => r_schema_hash e.2 = h) (map_to_list (dag_nodes db)))).

Definition nodes_by_author (db : Tables) (did : Did) : list N :=
  select (map fst (filter (fun e => r_author_did e.2 = did) (map_to_list (dag_nodes db)))).

(** One more iteration than edges is enough (Lemma [bfs_loop_spec]). *)
Definition bfs_descendants (db : Tables) (root_id : N) : list N :=
  (bfs_loop (children db) (S (S (length (dag_edges db)))) [root_id] ∅ []).1.

Definition descendants_of (db : Tables) (delta_id : N) : list N := bfs_descendants db delta_id.

Definition len (db : Tables) : nat := size (dag_nodes db).

(** [*in_degree.entry(child).or_insert(0) -= 1] *)
Definition entry_counter (m : gmap N Z) (c : N) : option Z := Some (default 0 (m !! c)).

(** The in-memory part, shared with the WASM build: the ids and the edges in
    the order they were read. *)
Definition kahn_sort (all_ids : list N) (all_edges : list (N * N)) : list N :=
  let in_degree := foldl incr (foldl (or_default 0) ∅ all_ids) (map snd all_edges) in
  let children_map := foldl push_child (foldl (or_default []) ∅ all_ids) all_edges in
  let queue := map fst (filter (fun e => e.2 = 0) (hm_iter in_degree)) in
  (kahn_loop entry_counter (fun ready => ready) (S (size in_degree)) queue
     in_degree children_map []).1.

Definition topological_sort (db : Tables) : list N :=
  kahn_sort (select (map fst (map_to_list (dag_nodes db)))) (select (dag_edges db)).

Definition get (db : Tables) (id : N) : Res (option DagNode) :=
  match dag_nodes db !! id with
  | None => Ok None
  | Some row =>
      decompressed ← decompress_payload (r_payload row);
      Ok (Some (mkNode id decompressed (r_delta_bytes row) (parents db id) []
        (wrap_u64 (r_lamport row)) (r_schema_hash row)
        (negb (r_compacted row =? 0)) (r_author_did row)))
  end.

Definition set_compacted (row : NodeRow) : NodeRow :=
  mkRow (r_payload row) (r_delta_bytes row) (r_lamport row) (r_schema_hash row) 1
    (r_author_did row) (r_tags row).

Definition mark_compacted (db : Tables) (id : N) : Tables :=
  mkTables (alter set_compacted id (dag_nodes db)) (dag_edges db).

(** The [delta_bytes] accessor: the bytes kept for re-fetch. *)
Definition refetch_bytes (db : Tables) (id : N) : option bytes :=
  dag_nodes db !! id ≫= r_delta_bytes.
End Native.

(** ** WASM build *)

Section Wasm.
Context `{!HashIter N Z} `{!HashIter N DagNode}.

Record WasmDag := mkWasm {
  nodes : gmap N DagNode;
  children_map : gmap N (list N)
}.

Definition wasm_insert (d : WasmDag) (node : DagNode) : WasmDag :=
  let cm := foldl (fun m parent_id => push_child m (parent_id, delta_id node))
    (children_map d) (parent_ids node) in
  mkWasm (<[delta_id node := node]> (nodes d)) (or_default [] cm (delta_id node)).

Definition wasm_children (d : WasmDag) (parent_id : N) : list N :=
  default [] (children_map d !! parent_id).

Definition wasm_parents (d : WasmDag) (child_id : N) : list N :=
  default [] (parent_ids <$> nodes d !! child_id).

(** Every entry of [children_map] was pushed once: their number bounds the walk. *)
Definition wasm_edges (d : WasmDag) : list (N * N) :=
  map_to_list (children_map d) ≫= fun e => (fun c => (e.1, c)) <$> e.2.

Definition wasm_bfs_descendants (d : WasmDag) (root_id : N) : list N :=
  (bfs_loop (wasm_children d) (S (S (length (wasm_edges d)))) [root_id] ∅ []).1.

Definition wasm_nodes_by_author (d : WasmDag) (did : Did) : list N :=
  map (fun e => delta_id e.2) (filter (fun e => author_did e.2 = did) (hm_iter (nodes d))).

Definition wasm_nodes_by_schema_hash (d : WasmDag) (h : SchemaIdentifierHash) : list N :=
  map (fun e => delta_id e.2) (filter (fun e => schema_hash e.2 = h) (hm_iter (nodes d))).

Definition wasm_topological_sort (d : WasmDag) : list N :=
  kahn_sort (map fst (hm_iter (nodes d)))
    (hm_iter (nodes d) ≫= fun e => (fun p => (p, delta_id e.2)) <$> parent_ids e.2).

Definition wasm_mark_compacted (d : WasmDag) (id : N) : WasmDag :=
  mkWasm (alter (fun n => mkNode (delta_id n) (payload n) (delta_bytes n) (parent_ids n)
    (actor_id n) (lamport n) (schema_hash n) true (author_did n)) id (nodes d))
    (children_map d).
End Wasm.

(** ** The walk computes forward reachability *)

Definition edge (E : list (N * N)) (p c : N) : Prop := (p, c) ∈ E.
(** [x] is [root] or a transitive child of it. *)
Definition reachable (E : list (N * N)) (root x : N) : Prop := rtc (edge E) root x.

(** The edges that can still put a node in the queue. *)
Definition open_edges (visited : gset N) (E : list (N * N)) : list (N * N) :=
  filter (fun e => e.1 ∉ visited) E.

Lemma open_edges_visit visited E x :
  x ∉ visited ->
  length (open_edges visited E) =
  (length (open_edges ({[x]} ∪ visited) E) + length (children_in E x))%nat.
Proof.
  intros Hx. unfold open_edges, children_in. induction E as [|[p c] E IH]; [done|].
  cbn [omap list_omap]. destruct (decide (p = x)) as [->|Hne]; cbn [fst snd].
  - rewrite filter_cons_True, filter_cons_False by set_solver.
    rewrite decide_True by done. simpl. lia.
  - rewrite decide_False by done. destruct (decide (p ∈ visited)).
    + rewrite !filter_cons_False by set_solver. lia.
    + rewrite !filter_cons_True by set_solver. simpl. lia.
Qed.

Lemma length_open_edges visited E : (length (open_edges visited E) <= length E)%nat.
Proof. apply length_filter. Qed.

Section BfsProofs.
Context (children : N -> list N) (E : list (N * N)) (root : N).
Hypothesis children_spec : forall p, children p ≡ₚ children_in E p.

Lemma elem_of_children p c : c ∈ children p <-> (p, c) ∈ E.
Proof. rewrite children_spec. apply elem_of_children_in. Qed.

Record bfs_inv (queue : list N) (visited : gset N) (result : list N) : Prop := {
  bi_visited : forall x, x ∈ visited <-> x ∈ result;
  bi_nodup : NoDup result;
  bi_reach : forall x, x ∈ queue \/ x ∈ result -> reachable E root x;
  bi_root : root ∈ queue \/ root ∈ result;
  bi_closed : forall x y, x ∈ result -> (x, y) ∈ E -> y ∈ result \/ y ∈ queue
}.

Lemma bfs_inv_init : bfs_inv [root] ∅ [].
Proof.
  split; [set_solver|constructor| |left; left|set_solver].
  intros x [->%list_elem_of_singleton|Hx]; [apply rtc_refl|set_solver].
Qed.

Lemma bfs_inv_skip x queue visited result :
  x ∈ visited -> bfs_inv (x :: queue) visited result -> bfs_inv queue visited result.
Proof.
  intros Hx [Hvis Hnd Hreach Hroot Hcl]. apply Hvis in Hx.
  split; [done|done|set_solver| |].
  - destruct Hroot as [[->|?]%elem_of_cons|?]; auto.
  - intros y z Hy Hz. destruct (Hcl _ _ Hy Hz) as [?|[->|?]%elem_of_cons]; auto.
Qed.

Lemma bfs_inv_visit x queue visited result :
  x ∉ visited -> bfs_inv (x :: queue) visited result ->
  bfs_inv (queue ++ filter (fun c => c ∉ {[x]} ∪ visited) (children x))
    ({[x]} ∪ visited) (result ++ [x]).
Proof.
  intros Hx [Hvis Hnd Hreach Hroot Hcl].
  assert (x ∉ result) as Hx' by (by rewrite <- Hvis).
  split.
  - set_solver.
  - apply NoDup_app. split_and!; [done|set_solver|apply NoDup_singleton].
  - intros y. rewrite !elem_of_app, list_elem_of_filter, elem_of_children, elem_of_cons.
    intros [[?|[_ Hc]]|[?|[->|[]%elem_of_nil]]].
    + apply Hreach. left. by right.
    + apply rtc_r with x; [|done]. apply Hreach. left. left.
    + apply Hreach. by right.
    + apply Hreach. left. left.
  - rewrite !elem_of_app. destruct Hroot as [[->|?]%elem_of_cons|?]; [right; right; left|auto..].
  - intros y z [Hy|Hy%list_elem_of_singleton]%elem_of_app Hz.
    + destruct (Hcl _ _ Hy Hz) as [?|[->|?]%elem_of_cons]; set_solver.
    + subst y. destruct (decide (z ∈ {[x]} ∪ visited)) as [Hz'|Hz']; [left; set_solver|].
      right. rewrite elem_of_app, list_elem_of_filter, elem_of_children. by right.
Qed.

Lemma bfs_inv_final visited result :
  bfs_inv [] visited result -> forall x, x ∈ result <-> reachable E root x.
Proof.
  intros [_ _ Hreach Hroot Hcl] x. split; [by auto|]. unfold reachable.
  assert (forall a b, rtc (edge E) a b -> a ∈ result -> b ∈ result) as H.
  { induction 1 as [y|y z w Hyz _ IHw]; [done|]. intros Hy. apply IHw.
    destruct (Hcl _ _ Hy Hyz); [done|set_solver]. }
  intros Hx. apply (H root); [done|]. destruct Hroot; [set_solver|done].
Qed.

Lemma bfs_loop_spec fuel queue visited result :
  bfs_inv queue visited result ->
  (length queue + length (open_edges visited E) < fuel)%nat ->
  let '(out, rest) := bfs_loop children fuel queue visited result in
  rest = [] /\ NoDup out /\ (forall x, x ∈ out <-> reachable E root x) /\
  exists more, out = result ++ more.
Proof.
  revert queue visited result.
  induction fuel as [|fuel IH]; intros queue visited result Hinv Hfuel; [lia|].
  destruct queue as [|x queue]; cbn [bfs_loop].
  - split_and!; [done|apply Hinv|by eapply bfs_inv_final|].
    exists []. by rewrite app_nil_r.
  - case_bool_decide as Hx.
    + apply IH; [by eapply bfs_inv_skip|simpl in Hfuel; lia].
    + specialize (IH _ _ _ (bfs_inv_visit _ _ _ _ Hx Hinv)).
      destruct (bfs_loop _ _ _ _ _) as [out rest]. destruct IH as (H1 & H2 & H3 & more & H4).
      { rewrite (open_edges_visit _ _ _ Hx) in Hfuel. rewrite length_app. simpl in Hfuel.
        pose proof (length_filter (fun c => c ∉ {[x]} ∪ visited) (children x)).
        rewrite children_spec in H at 2. lia. }
      split_and!; [done|done|done|]. exists (x :: more). by rewrite H4, <- app_assoc.
Qed.

Lemma bfs_loop_cons fuel x queue visited result :
  bfs_loop children (S fuel) (x :: queue) visited result =
  if bool_decide (x ∈ visited) then bfs_loop children fuel queue visited result
  else bfs_loop children fuel
    (queue ++ filter (fun child => child ∉ {[x]} ∪ visited) (children x))
    ({[x]} ∪ visited) (result ++ [x]).
Proof. done. Qed.

(** From the root, with the fuel of [bfs_descendants]. *)
Lemma bfs_from_root :
  let '(out, rest) := bfs_loop children (S (S (length E))) [root] ∅ [] in
  rest = [] /\ NoDup out /\ (forall x, x ∈ out <-> reachable E root x) /\
  out !! 0%nat = Some root.
Proof.
  assert (root ∉ (∅ : gset N)) as Hr by set_solver.
  rewrite bfs_loop_cons, bool_decide_eq_false_2 by done.
  pose proof (bfs_loop_spec (S (length E)) _ _ _
    (bfs_inv_visit root [] ∅ [] Hr bfs_inv_init)) as H.
  destruct (bfs_loop _ _ _ _ _) as [out rest]. destruct H as (H1 & H2 & H3 & more & ->).
  - pose proof (open_edges_visit ∅ E root Hr) as Ho.
    pose proof (length_open_edges ∅ E) as Hl.
    eapply Nat.le_lt_trans; [apply Nat.add_le_mono_r, length_filter|].
    rewrite children_spec. lia.
  - repeat (split; [done|]). done.
Qed.
End BfsProofs.

(** ** The sort is a causal order *)

Section SortProofs.
Context `{!HashIter N Z}.

(** The nodes the sort knows: the ids it read and the children of edges. *)
Definition known (ids : list N) (E : list (N * N)) : list N := ids ++ map snd E.

Definition in_degrees (ids : list N) (E : list (N * N)) : gmap N Z :=
  foldl incr (foldl (or_default 0) ∅ ids) (map snd E).

Lemma in_degrees_lookup ids E c :
  in_degrees ids E !! c = if decide (c ∈ known ids E) then Some (remaining E [] c) else None.
Proof.
  unfold in_degrees, known. rewrite foldl_incr, foldl_or_default, lookup_empty, remaining_nil.
  destruct (decide (c ∈ map snd E)) as [Hc|Hc].
  - rewrite (decide_True (P := c ∈ ids ++ _)) by set_solver. by case_decide.
  - apply occ_zero in Hc as H0. rewrite H0. simpl.
    by rewrite (decide_ext (c ∈ ids) (c ∈ ids ++ map snd E)) by set_solver.
Qed.

Lemma kahn_sort_spec ids E :
  Z.of_nat (length E) < 2 ^ 64 ->
  NoDup (kahn_sort ids E) /\ parents_first E (kahn_sort ids E) /\
  forall x, x ∈ kahn_sort ids E <-> grounded (known ids E) E x.
Proof.
  intros HE. unfold kahn_sort. fold (in_degrees ids E).
  set (cm := foldl push_child _ E).
  destruct (zero_queue_spec (in_degrees ids E)) as [Hnd Hq].
  set (queue := map fst _) in *. set (K := map fst (map_to_list (in_degrees ids E))).
  assert (forall c, c ∈ K <-> c ∈ known ids E) as HK.
  { intros c. unfold K. rewrite list_elem_of_fmap. split.
    - intros ([y z] & -> & Hin%elem_of_map_to_list). rewrite in_degrees_lookup in Hin.
      by case_decide.
    - intros Hc. exists (c, remaining E [] c). split; [done|]. apply elem_of_map_to_list.
      by rewrite in_degrees_lookup, decide_True. }
  assert (forall m c d, m !! c = Some d -> entry_counter m c = Some d) as Hcounter.
  { intros m c d Hd. unfold entry_counter. by rewrite Hd. }
  assert (forall p c, (p, c) ∈ E -> c ∈ K) as Htargets.
  { intros p c Hpc. apply HK. unfold known. apply elem_of_app. right.
    apply (list_elem_of_fmap_2 snd _ _ Hpc). }
  assert (forall p, default [] (cm !! p) = children_in E p) as Hcm.
  { intros p. unfold cm. rewrite foldl_push_child, foldl_or_default, lookup_empty.
    by case_decide. }
  pose proof (kahn_correct entry_counter (fun ready => ready) Hcounter
    (fun l => reflexivity l) K E cm (NoDup_fst_map_to_list _) Htargets HE Hcm
    (S (size (in_degrees ids E))) queue (in_degrees ids E) Hnd) as Hkahn.
  destruct (kahn_loop _ _ _ _ _ _ _) as [sorted rest]. simpl.
  destruct Hkahn as (_ & H1 & H2 & H3).
  - intros x. rewrite Hq. split; [|by intros [_ ?]]. intros Hx. split; [|done].
    apply HK. rewrite in_degrees_lookup in Hx. by case_decide.
  - intros c Hc. rewrite in_degrees_lookup, decide_True; [done|]. by apply HK.
  - unfold K. rewrite length_map, length_map_to_list. lia.
  - split_and!; [done|done|]. intros x. rewrite H3.
    split; apply grounded_ext; try done; intros y; by rewrite HK.
Qed.
End SortProofs.

(** ** What the two builds promise to their clients *)

(** A causal DAG: its edges, and a [children] query that answers them.  The
    descent of either build is an instance of the same walk. *)
Class CausalDag (D : Type) := {
  edges_of : D -> list (N * N);
  children_of : D -> N -> list N;
  children_of_spec : forall d p, children_of d p ≡ₚ children_in (edges_of d) p
}.

Definition descend `{CausalDag D} (d : D) (root : N) : list N :=
  (bfs_loop (children_of d) (S (S (length (edges_of d)))) [root] ∅ []).1.

#[export] Instance native_dag `{!SelectOrder} : CausalDag Tables.
Proof.
  refine {| edges_of := dag_edges; children_of := children |}.
  intros d p. apply select_perm.
Defined.

Lemma children_in_app E1 E2 p : children_in (E1 ++ E2) p = children_in E1 p ++ children_in E2 p.
Proof. apply omap_app. Qed.

Lemma children_in_pairs k cs p :
  children_in ((fun c : N => (k, c)) <$> cs) p = if decide (k = p) then cs else [].
Proof.
  induction cs as [|c cs IH]; [by case_decide|]. rewrite fmap_cons.
  change (children_in ((k, c) :: ?l) p) with (children_in ([(k, c)] ++ l) p).
  rewrite children_in_app, IH. unfold children_in. simpl. by case_decide.
Qed.

Lemma children_in_rows (l : list (N * list N)) p :
  NoDup l.*1 ->
  children_in (l ≫= fun e => (fun c => (e.1, c)) <$> e.2) p =
  default [] ((list_to_map l : gmap N (list N)) !! p).
Proof.
  induction l as [|[k cs] l IH]; [done|]. intros [Hk Hnd]%NoDup_cons.
  rewrite bind_cons, children_in_app, children_in_pairs, IH by done. cbn [fst snd list_to_map foldr].
  destruct (decide (k = p)) as [->|Hne].
  - by rewrite lookup_insert_eq, not_elem_of_list_to_map_1, app_nil_r by done.
  - by rewrite lookup_insert_ne.
Qed.

Lemma wasm_children_spec d p : wasm_children d p = children_in (wasm_edges d) p.
Proof.
  unfold wasm_edges, wasm_children. rewrite children_in_rows by apply NoDup_fst_map_to_list.
  by rewrite list_to_map_to_list.
Qed.

#[export] Instance wasm_dag : CausalDag WasmDag.
Proof.
  refine {| edges_of := wasm_edges; children_of := wasm_children |}.
  intros d p. by rewrite wasm_children_spec.
Defined.

Lemma descend_spec `{CausalDag D} (d : D) root :
  (bfs_loop (children_of d) (S (S (length (edges_of d)))) [root] ∅ []).2 = [] /\
  NoDup (descend d root) /\ descend d root !! 0%nat = Some root /\
  forall x, x ∈ descend d root <-> reachable (edges_of d) root x.
Proof.
  pose proof (bfs_from_root (children_of d) (edges_of d) root (children_of_spec d)) as Hw.
  unfold descend. destruct (bfs_loop _ _ _ _ _) as [out rest]. naive_solver.
Qed.

(** The walk of the native build. *)
Theorem bfs_descendants_reachable `{!SelectOrder} db root :
  (bfs_loop (children db) (S (S (length (dag_edges db)))) [root] ∅ []).2 = [] /\
  NoDup (bfs_descendants db root) /\
  bfs_descendants db root !! 0%nat = Some root /\
  forall x, x ∈ bfs_descendants db root <-> reachable (dag_edges db) root x.
Proof. exact (descend_spec (D := Tables) db root). Qed.

(** ** Inserting *)

Definition foldl_edges (E : list (N * N)) (id : N) (ps : list N) : list (N * N) :=
  foldl (fun es parent_id => insert_edge es (parent_id, id)) E ps.

Lemma elem_of_insert_edge E e x : x ∈ insert_edge E e <-> x ∈ E \/ x = e.
Proof. unfold insert_edge. case_bool_decide; set_solver. Qed.

Lemma NoDup_insert_edge E e : NoDup E -> NoDup (insert_edge E e).
Proof.
  intros HE. unfold insert_edge. case_bool_decide; [done|]. apply NoDup_app.
  split_and!; [done|set_solver|apply NoDup_singleton].
Qed.

Lemma elem_of_foldl_edges E id ps p c :
  (p, c) ∈ foldl_edges E id ps <-> (p, c) ∈ E \/ (c = id /\ p ∈ ps).
Proof.
  revert E. induction ps as [|q ps IH]; intros E; [set_solver|].
  change (foldl_edges E id (q :: ps)) with (foldl_edges (insert_edge E (q, id)) id ps).
  rewrite IH, elem_of_insert_edge. set_solver.
Qed.

Lemma NoDup_foldl_edges E id ps : NoDup E -> NoDup (foldl_edges E id ps).
Proof.
  revert E. induction ps as [|q ps IH]; intros E HE; simpl; [done|].
  by apply IH, NoDup_insert_edge.
Qed.

Lemma foldl_edges_absorb E id ps :
  (forall p, p ∈ ps -> (p, id) ∈ E) -> foldl_edges E id ps = E.
Proof.
  unfold foldl_edges. induction ps as [|q ps IH]; intros Hps; simpl; [done|].
  unfold insert_edge at 2. rewrite bool_decide_eq_true_2 by (apply Hps; left).
  apply IH. intros p Hp. apply Hps. by right.
Qed.

(** Edges are a set, and each one was inserted with its child. *)
Record wf (db : Tables) : Prop := {
  wf_nodup : NoDup (dag_edges db);
  wf_child : forall p c, (p, c) ∈ dag_edges db -> is_Some (dag_nodes db !! c)
}.

Section InsertProofs.
Context (zstd_encode : bytes -> Res bytes).

Lemma insert_edges db node db' :
  insert zstd_encode db node = (db', Ok tt) ->
  dag_edges db' = foldl_edges (dag_edges db) (delta_id node) (parent_ids node).
Proof.
  unfold insert. destruct (compress_payload _ _); [|done]. by intros [= <-].
Qed.

Lemma insert_nodes db node db' k :
  insert zstd_encode db node = (db', Ok tt) ->
  is_Some (dag_nodes db' !! k) <-> is_Some (dag_nodes db !! k) \/ k = delta_id node.
Proof.
  unfold insert. destruct (compress_payload _ _); [|done]. intros [= <-]. simpl.
  destruct (dag_nodes db !! delta_id node) eqn:Hn; [naive_solver|].
  rewrite lookup_insert_is_Some. destruct (decide (delta_id node = k)); naive_solver.
Qed.

Lemma insert_wf db node : wf db -> wf (insert zstd_encode db node).1.
Proof.
  intros [Hnd Hch]. destruct (insert zstd_encode db node) as [db' [[]|e]] eqn:Hi; simpl.
  - split; rewrite (insert_edges _ _ _ Hi); [by apply NoDup_foldl_edges|].
    intros p c [He|[-> He]]%elem_of_foldl_edges; rewrite (insert_nodes _ _ _ _ Hi); [|by right].
    left. by eapply Hch.
  - unfold insert in Hi. destruct (compress_payload _ _); by simplify_eq.
Qed.

Lemma mark_compacted_wf db id : wf db -> wf (mark_compacted db id).
Proof.
  intros [Hnd Hch]. split; [done|]. intros p c He. simpl. rewrite lookup_alter_is_Some.
  by eapply Hch.
Qed.

Context `{!SelectOrder} (zstd_decode : bytes -> Res bytes).

Lemma elem_of_parents db c p : p ∈ parents db c <-> (p, c) ∈ dag_edges db.
Proof.
  unfold parents. rewrite select_perm, list_elem_of_omap. split.
  - intros ([q c'] & He & Heq). simpl in Heq. case_decide; by simplify_eq.
  - intros He. exists (p, c). simpl. by rewrite decide_True.
Qed.

Lemma NoDup_parents db c : NoDup (dag_edges db) -> NoDup (parents db c).
Proof.
  unfold parents. rewrite select_perm. induction 1 as [|[p c'] E He _ IH]; csimpl; [constructor|].
  case_decide; [|done]. simplify_eq. constructor; [|done].
  rewrite list_elem_of_omap. intros ([q c''] & ? & ?). simpl in *. case_decide; by simplify_eq.
Qed.

Definition roundtrips : Prop := forall x y, zstd_encode x = Ok y -> zstd_decode y = Ok x.

(** A node inserted under a fresh id is read back with its payload, its
    u64 Lamport clock, its hash, author and flag, and the set of its parents;
    the actor id, which no column stores, comes back empty; inserting it a
    second time changes nothing. *)
Theorem insert_get_roundtrip db node db' :
  roundtrips -> wf db -> dag_nodes db !! delta_id node = None -> u64_ok (lamport node) ->
  insert zstd_encode db node = (db', Ok tt) ->
  insert zstd_encode db' node = (db', Ok tt) /\
  exists ps, NoDup ps /\ (forall p, p ∈ ps <-> p ∈ parent_ids node) /\
    get zstd_decode db' (delta_id node) =
    Ok (Some (mkNode (delta_id node) (payload node) (delta_bytes node) ps []
      (lamport node) (schema_hash node) (compacted node) (author_did node))).
Proof.
  intros Hz [Hnd Hch] Hfresh Hl Hi. pose proof (insert_edges _ _ _ Hi) as Hedges. split.
  - clear Hz Hl Hch. unfold insert in *. destruct (compress_payload _ _) as [y|e]; [|done].
    injection Hi as <-. simpl. rewrite Hfresh, lookup_insert_eq. do 2 f_equal.
    fold (foldl_edges (dag_edges db) (delta_id node) (parent_ids node)).
    apply foldl_edges_absorb. intros p Hp. apply elem_of_foldl_edges. auto.
  - exists (parents db' (delta_id node)). split_and!.
    + apply NoDup_parents. rewrite Hedges. by apply NoDup_foldl_edges.
    + intros p. rewrite elem_of_parents, Hedges, elem_of_foldl_edges. split; [|auto].
      intros [He|[_ ?]]; [|done]. apply Hch in He. rewrite Hfresh in He. by destruct He.
    + unfold insert in Hi. destruct (compress_payload _ _) as [y|e] eqn:Hy; [|done].
      injection Hi as <-. unfold get. cbn [dag_nodes]. rewrite Hfresh, lookup_insert_eq.
      cbn [r_payload r_delta_bytes r_lamport r_schema_hash r_compacted r_author_did].
      unfold decompress_payload. rewrite (Hz _ _ Hy), wrap_u64_of_i64 by done.
      by destruct (compacted node).
Qed.
End InsertProofs.

(** ** The topological sort of the tables *)

Definition node_ids (db : Tables) : list N := map fst (map_to_list (dag_nodes db)).

Lemma elem_of_node_ids db x : x ∈ node_ids db <-> is_Some (dag_nodes db !! x).
Proof.
  unfold node_ids. rewrite list_elem_of_fmap. split.
  - intros ([y r] & -> & Hin%elem_of_map_to_list). by exists r.
  - intros [r Hr]. exists (x, r). split; [done|]. by apply elem_of_map_to_list.
Qed.

Lemma parents_first_ext E E' l :
  (forall e, e ∈ E' -> e ∈ E) -> parents_first E l -> parents_first E' l.
Proof. intros HE H i c Hi p Hp. eapply H; eauto. Qed.

Lemma topological_sort_spec `{!SelectOrder} `{!HashIter N Z} db :
  wf db -> Z.of_nat (length (dag_edges db)) < 2 ^ 64 ->
  NoDup (topological_sort db) /\ parents_first (dag_edges db) (topological_sort db) /\
  forall x, x ∈ topological_sort db <-> grounded (node_ids db) (dag_edges db) x.
Proof.
  intros [_ Hch] HE. unfold topological_sort. fold (node_ids db).
  destruct (kahn_sort_spec (select (node_ids db)) (select (dag_edges db))) as (Hnd & Hpf & Hgr).
  { by rewrite select_perm. }
  split_and!; [done| |].
  - eapply parents_first_ext, Hpf. intros e. by rewrite select_perm.
  - intros x. rewrite Hgr. unfold known. split; apply grounded_ext.
    + intros y [Hy|Hy]%elem_of_app; [by rewrite select_perm in Hy|].
      apply list_elem_of_fmap in Hy as ([p c] & -> & He). rewrite select_perm in He.
      apply elem_of_node_ids. eauto.
    + intros e. by rewrite select_perm.
    + intros y Hy. apply elem_of_app. left. by rewrite select_perm.
    + intros e. by rewrite select_perm.
Qed.

(** The parents of every edge are stored, and ranks grow along the edges. *)
Definition ranked_by (db : Tables) (rank : N -> nat) : Prop :=
  forall p c, (p, c) ∈ dag_edges db -> p ∈ node_ids db /\ (rank p < rank c)%nat.

Lemma topological_sort_ranked `{!SelectOrder} `{!HashIter N Z} db rank :
  wf db -> Z.of_nat (length (dag_edges db)) < 2 ^ 64 -> ranked_by db rank ->
  topological_sort db ≡ₚ node_ids db.
Proof.
  intros Hwf HE Hrank. destruct (topological_sort_spec db Hwf HE) as (Hnd & _ & Hgr).
  apply NoDup_Permutation; [done|apply NoDup_fst_map_to_list|].
  intros x. rewrite Hgr. split; [by intros []|]. by apply (grounded_ranked _ _ rank).
Qed.

(** C39: the sort lists every parent before its children, no node twice, and
      exactly the nodes all of whose ancestors are stored and off every cycle;
      with every parent stored and ranks that decrease towards the parents it
      is an ordering of the whole DAG.  The queue of Kahn's loop is emptied. *)
Theorem topological_sort_causal `{!SelectOrder} `{!HashIter N Z} db :
  wf db -> Z.of_nat (length (dag_edges db)) < 2 ^ 64 ->
  NoDup (topological_sort db) /\ parents_first (dag_edges db) (topological_sort db) /\
  (forall x, x ∈ topological_sort db <-> grounded (node_ids db) (dag_edges db) x) /\
  forall rank : N -> nat,
    (forall p c, (p, c) ∈ dag_edges db -> p ∈ node_ids db /\ (rank p < rank c)%nat) ->
    topological_sort db ≡ₚ node_ids db.
Proof.
  intros Hwf HE. destruct (topological_sort_spec db Hwf HE) as (Hnd & Hpf & Hgr).
  split_and!; [done|done|done|]. intros rank Hrank. by apply (topological_sort_ranked db rank).
Qed.

(** ** Replicas *)

Definition insert_all (zstd_encode : bytes -> Res bytes) (db : Tables) (ns : list DagNode)
  : Tables := foldl (fun db n => (insert zstd_encode db n).1) db ns.
Definition wasm_insert_all (d : WasmDag) (ns : list DagNode) : WasmDag := foldl wasm_insert d ns.

Definition linked (ns : list DagNode) (p c : N) : Prop :=
  exists n, n ∈ ns /\ c = delta_id n /\ p ∈ parent_ids n.

Lemma insert_all_edges zstd_encode db ns p c :
  (forall n, n ∈ ns -> is_ok (zstd_encode (payload n)) = true) ->
  (p, c) ∈ dag_edges (insert_all zstd_encode db ns) <-> (p, c) ∈ dag_edges db \/ linked ns p c.
Proof.
  revert db. induction ns as [|n ns IH]; intros db Hok.
  - split; [by left|]. intros [?|(? & []%elem_of_nil & _)]. done.
  - change (insert_all _ db (n :: ns)) with (insert_all zstd_encode (insert zstd_encode db n).1 ns).
    destruct (insert zstd_encode db n) as [db' r] eqn:Hi.
    assert (r = Ok tt) as ->.
    { unfold insert in Hi. specialize (Hok n (list_elem_of_here _ _)).
      unfold compress_payload in Hi. destruct (zstd_encode (payload n)); [by simplify_eq|done]. }
    cbn [fst]. rewrite IH by (intros; apply Hok; by right).
    rewrite (insert_edges _ _ _ _ Hi), elem_of_foldl_edges. unfold linked.
    setoid_rewrite elem_of_cons. naive_solver.
Qed.

Lemma elem_of_wasm_edges d p c : (p, c) ∈ wasm_edges d <-> c ∈ wasm_children d p.
Proof. by rewrite wasm_children_spec, elem_of_children_in. Qed.

Lemma wasm_insert_edges d n p c :
  (p, c) ∈ wasm_edges (wasm_insert d n) <->
  (p, c) ∈ wasm_edges d \/ (c = delta_id n /\ p ∈ parent_ids n).
Proof.
  rewrite !elem_of_wasm_edges. unfold wasm_children, wasm_insert. cbn [children_map].
  set (cm := foldl _ _ _).
  assert (default [] (or_default [] cm (delta_id n) !! p) = default [] (cm !! p)) as ->.
  { unfold or_default. destruct (decide (delta_id n = p)) as [->|];
      [by rewrite lookup_insert_eq|by rewrite lookup_insert_ne]. }
  assert (cm = foldl push_child (children_map d) ((fun q => (q, delta_id n)) <$> parent_ids n))
    as ->.
  { unfold cm. generalize (children_map d). induction (parent_ids n); intros m; simpl; auto. }
  rewrite foldl_push_child, elem_of_app, elem_of_children_in, list_elem_of_fmap. naive_solver.
Qed.

Lemma wasm_insert_all_edges d ns p c :
  (p, c) ∈ wasm_edges (wasm_insert_all d ns) <-> (p, c) ∈ wasm_edges d \/ linked ns p c.
Proof.
  revert d. induction ns as [|n ns IH]; intros d; cbn [wasm_insert_all foldl].
  - split; [by left|]. intros [?|(? & []%elem_of_nil & _)]. done.
  - unfold wasm_insert_all in IH. rewrite IH, wasm_insert_edges. unfold linked.
    setoid_rewrite elem_of_cons. naive_solver.
Qed.

Lemma reachable_ext E E' x y :
  (forall p c, (p, c) ∈ E <-> (p, c) ∈ E') -> reachable E x y <-> reachable E' x y.
Proof. intros H. split; apply rtc_subrel; intros p c; apply H. Qed.

Definition empty_tables : Tables := mkTables ∅ [].
Definition empty_wasm : WasmDag := mkWasm ∅ ∅.

(** C31: replicas that received the same deltas, in whatever order and with
      whatever repetitions, agree on the descendants of every delta, whether
      they run the native or the WASM build; each lists the delta itself
      first and nothing twice. *)
Theorem replicas_agree `{!SelectOrder} zstd_encode ns ns' root :
  (forall n, n ∈ ns <-> n ∈ ns') ->
  (forall n, n ∈ ns -> is_ok (zstd_encode (payload n)) = true) ->
  bfs_descendants (insert_all zstd_encode empty_tables ns) root
    ≡ₚ bfs_descendants (insert_all zstd_encode empty_tables ns') root /\
  bfs_descendants (insert_all zstd_encode empty_tables ns) root
    ≡ₚ wasm_bfs_descendants (wasm_insert_all empty_wasm ns') root /\
  forall x, x ∈ bfs_descendants (insert_all zstd_encode empty_tables ns) root <->
    rtc (linked ns) root x.
Proof.
  intros Hns Hok.
  assert (forall n, n ∈ ns' -> is_ok (zstd_encode (payload n)) = true) as Hok'
    by (intros; by apply Hok, Hns).
  destruct (descend_spec (D := Tables) (insert_all zstd_encode empty_tables ns) root)
    as (_ & Hnd & _ & Hin).
  destruct (descend_spec (D := Tables) (insert_all zstd_encode empty_tables ns') root)
    as (_ & Hnd' & _ & Hin').
  destruct (descend_spec (D := WasmDag) (wasm_insert_all empty_wasm ns') root)
    as (_ & Hndw & _ & Hinw).
  assert (forall p c, linked ns p c <-> linked ns' p c) as Hl
    by (intros p c; unfold linked; by setoid_rewrite Hns).
  split_and!; [| |intros x; etransitivity; [apply Hin|]].
  - apply NoDup_Permutation; [exact Hnd|exact Hnd'|]. intros x.
    etransitivity; [apply Hin|]. etransitivity; [|symmetry; apply Hin'].
    apply reachable_ext. intros p c. cbn [edges_of native_dag]. rewrite !insert_all_edges by done.
    by rewrite Hl.
  - apply NoDup_Permutation; [exact Hnd|exact Hndw|]. intros x.
    etransitivity; [apply Hin|]. etransitivity; [|symmetry; apply Hinw].
    apply reachable_ext. intros p c. cbn [edges_of native_dag wasm_dag].
    rewrite insert_all_edges, wasm_insert_all_edges, Hl by done.
    rewrite elem_of_wasm_edges. unfold wasm_children. simpl. set_solver.
  - unfold reachable. split; apply rtc_subrel; intros p c; unfold edge;
      cbn [edges_of native_dag]; rewrite insert_all_edges by done; simpl; set_solver.
Qed.

(** ** Witnesses: a diamond, whose second node names a parent twice *)

Definition diamond_node (id : N) (ps : list N) : DagNode :=
  mkNode id [1%N; id] None ps [] (2 ^ 63 + 1) 7 false "did:key:zA".
Definition diamond : list DagNode :=
  [diamond_node 1 []; diamond_node 2 [1; 1]%N; diamond_node 3 [1]%N; diamond_node 4 [3; 2]%N].
Definition diamond_db : Tables := insert_all Ok empty_tables diamond.

Lemma diamond_wf : wf diamond_db.
Proof.
  unfold diamond_db, diamond, insert_all. cbn [foldl].
  do 4 apply insert_wf. split; [constructor|]. intros p c Hc. by apply elem_of_nil in Hc.
Defined.

#[local] Existing Instance select_canonical.
#[local] Existing Instance hash_iter_canonical.

Lemma insert_get_roundtrip_witness :
  exists ps, NoDup ps /\ (forall p, p ∈ ps <-> p ∈ [2; 4; 2]%N) /\
    get Ok (insert Ok diamond_db (diamond_node 9 [2; 4; 2]%N)).1 9 =
    Ok (Some (mkNode 9 [1%N; 9%N] None ps [] (2 ^ 63 + 1) 7 false "did:key:zA")).
Proof.
  refine (proj2 (insert_get_roundtrip Ok Ok diamond_db (diamond_node 9 [2; 4; 2]%N) _ _ _ _ _ _)).
  - intros x y [= ->]. reflexivity.
  - apply diamond_wf.
  - vm_compute. reflexivity.
  - unfold u64_ok. simpl. lia.
  - vm_compute. reflexivity.
Defined.

Lemma topological_sort_causal_witness :
  topological_sort diamond_db ≡ₚ node_ids diamond_db /\
  topological_sort diamond_db = [1; 2; 3; 4]%N.
Proof.
  split; [|vm_compute; reflexivity].
  refine (proj2 (proj2 (proj2 (topological_sort_causal diamond_db diamond_wf _))) N.to_nat _).
  - vm_compute. reflexivity.
  - intros p c Hpc.
    assert (Forall (fun e => e.1 ∈ node_ids diamond_db /\ (N.to_nat e.1 < N.to_nat e.2)%nat)
      (dag_edges diamond_db)) as Hall.
    { vm_compute dag_edges. repeat constructor; try (vm_compute; lia).
      all: apply bool_decide_unpack; vm_compute; reflexivity. }
    rewrite Forall_forall in Hall. exact (Hall (p, c) Hpc).
Defined.

Lemma replicas_agree_witness :
  bfs_descendants diamond_db 2 ≡ₚ wasm_bfs_descendants (wasm_insert_all empty_wasm (reverse diamond)) 2 /\
  bfs_descendants diamond_db 2 = [2; 4]%N.
Proof.
  split; [|vm_compute; reflexivity].
  refine (proj1 (proj2 (replicas_agree Ok diamond (reverse diamond) 2 _ _))).
  - intros n. by rewrite elem_of_reverse.
  - intros n _. reflexivity.
Defined.
End Dag.
