(* ===== verification/Identity.v ===== *)
(** * Identities: [identity/did.rs], [identity/keypair.rs], [identity/mod.rs]

    base58 and Ed25519 are third-party crates and stay abstract: the classes
    [Bs58] and [Ed25519] hold their functions with the documented laws the code
    relies on, and the instances at the end show that the laws can hold.
    SHA-256 and serde_json are plain functions without laws. *)

From S2P Require Import Prelude Types.

(** [bs58]: decoding an encoding gives the bytes back, and the alphabet has no
    character outside it, so that stripping the [z] prefix is unambiguous. *)
Class Bs58 := {
  bs58_encode : bytes -> string;
  bs58_decode : string -> option bytes;
  bs58_decode_encode : forall b, Forall (fun x => (x < 256)%N) b ->
    bs58_decode (bs58_encode b) = Some b
}.

(** [ed25519-dalek]: the public key of a 32-byte seed is a valid 32-byte key, and
    the 64-byte signature a seed makes verifies under it. *)
Class Ed25519 := {
  ed_public : bytes -> bytes;                  (* SigningKey::verifying_key *)
  ed_sign : bytes -> bytes -> bytes;           (* seed, message *)
  ed_key_ok : bytes -> bool;                   (* VerifyingKey::from_bytes *)
  ed_verify : bytes -> bytes -> bytes -> bool; (* key, message, signature *)
  ed_public_length : forall s, length (ed_public s) = 32%nat;
  ed_public_bytes : forall s, Forall (fun x => (x < 256)%N) (ed_public s);
  ed_public_ok : forall s, ed_key_ok (ed_public s) = true;
  ed_sign_length : forall s m, length (ed_sign s m) = 64%nat;
  ed_sign_verify : forall s m, ed_verify (ed_public s) m (ed_sign s m) = true
}.

(** [str::strip_prefix] *)
Fixpoint strip_prefix (p s : string) : option string :=
  match p, s with
  | EmptyString, _ => Some s
  | String a p', String b s' => if decide (a = b) then strip_prefix p' s' else None
  | String _ _, EmptyString => None
  end.

Lemma strip_prefix_app p s : strip_prefix p (p +:+ s) = Some s.
Proof.
  induction p as [|a p IH]; [done|].
  change (strip_prefix (String a p) (String a p +:+ s))
    with (if decide (a = a) then strip_prefix p (p +:+ s) else None).
  by rewrite decide_True.
Qed.

Lemma strip_prefix_Some p s r : strip_prefix p s = Some r -> s = p +:+ r.
Proof.
  revert s. induction p as [|a p IH]; intros s.
  - by intros [= ->].
  - destruct s as [|b s]; cbn [strip_prefix]; [done|]. case_decide; [|done]. subst.
    intros Hr. by rewrite (IH _ Hr).
Qed.

(** ** DIDs *)

Module Did.
Section Did.
Context `{!Bs58}.

Definition ED25519_MULTICODEC_PREFIX : bytes := [0xed; 0x01]%N.

Definition derive_did (public_key : bytes) : Did :=
  "did:key:z" +:+ bs58_encode (ED25519_MULTICODEC_PREFIX ++ public_key).

Definition resolve_did (did : Did) : Res bytes :=
  encoded ← ok_or (strip_prefix "did:key:z" did)
              (DidResolutionFailed did "DID must start with 'did:key:z'");
  decoded ← ok_or (bs58_decode encoded) (DidResolutionFailed did "base58btc decode error");
  match decoded with
  | b0 :: b1 :: key_bytes =>
      if (b0 =? 0xed)%N && (b1 =? 0x01)%N then
        if decide (length key_bytes = 32%nat) then Ok key_bytes
        else Err (DidResolutionFailed did "expected 32-byte public key")
      else Err (DidResolutionFailed did "not an ed25519 did:key (wrong multicodec prefix)")
  | _ => Err (DidResolutionFailed did "not an ed25519 did:key (wrong multicodec prefix)")
  end.

Lemma resolve_derive k :
  length k = 32%nat -> Forall (fun x => (x < 256)%N) k -> resolve_did (derive_did k) = Ok k.
Proof.
  intros Hl Hk. unfold resolve_did, derive_did. rewrite strip_prefix_app. simpl.
  rewrite bs58_decode_encode by (repeat constructor; done). simpl. by rewrite decide_True.
Qed.

(** Every failure names the DID that failed. *)
Lemma resolve_did_result did :
  (exists k, resolve_did did = Ok k /\ length k = 32%nat) \/
  (exists reason, resolve_did did = Err (DidResolutionFailed did reason)).
Proof.
  unfold resolve_did. destruct (strip_prefix _ _) as [e|]; simpl; [|eauto].
  destruct (bs58_decode e) as [[|b0 [|b1 k]]|]; simpl; eauto.
  destruct (_ && _); [|eauto]. case_decide; eauto.
Qed.

Lemma derive_did_inj k k' :
  length k = 32%nat -> length k' = 32%nat ->
  Forall (fun x => (x < 256)%N) k -> Forall (fun x => (x < 256)%N) k' ->
  derive_did k = derive_did k' -> k = k'.
Proof.
  intros Hl Hl' Hk Hk' Heq.
  pose proof (resolve_derive k Hl Hk) as Hr. rewrite Heq, (resolve_derive k' Hl' Hk') in Hr.
  by injection Hr.
Qed.
End Did.
End Did.

(** ** Keys *)

Module Keypair.
Section Keypair.
Context `{!Ed25519}.

(** [Ed25519Signature::as_bytes] *)
Definition as_bytes (signature : Ed25519Signature) : option bytes :=
  if decide (length signature = 64%nat) then Some signature else None.

Definition sign (secret_key payload : bytes) : Res Ed25519Signature :=
  Ok (ed_sign secret_key payload).

Definition verify (public_key payload : bytes) (signature : Ed25519Signature) : Res unit :=
  if negb (ed_key_ok public_key) then Err (SignatureVerificationFailed "invalid public key")
  else
    sig_bytes ← ok_or (as_bytes signature)
                  (SignatureVerificationFailed "signature is not exactly 64 bytes");
    if ed_verify public_key payload sig_bytes then Ok tt
    else Err (SignatureVerificationFailed "signature verification failed").

Lemma verify_ok k m s :
  verify k m s = Ok tt <-> ed_key_ok k = true /\ length s = 64%nat /\ ed_verify k m s = true.
Proof.
  unfold verify, as_bytes. destruct (ed_key_ok k); simpl; [|naive_solver].
  case_decide; simpl; [|naive_solver]. destruct (ed_verify k m s); naive_solver.
Qed.

Lemma verify_sign s m : verify (ed_public s) m (ed_sign s m) = Ok tt.
Proof. apply verify_ok. auto using ed_public_ok, ed_sign_length, ed_sign_verify. Qed.
End Keypair.
End Keypair.

(** ** The identity manager *)

Module Identity.
Import Did Keypair.

Record IdentityManager := mkIdentity {
  did : Did;
  signing_key : bytes          (* the 32-byte seed *)
}.

Section Identity.
Context `{!Bs58} `{!Ed25519}.
(** [serde_json::to_vec] on the canonical payload, SHA-256. *)
Context (to_json : CanonicalDeltaPayload -> bytes) (sha256 : bytes -> N).

Definition canonical_bytes (d : Delta) : bytes := to_json (canonical_payload d).
Definition compute_id (canonical : bytes) : DeltaId := sha256 canonical.

(** [init_with_path(None)], with the seed the generator returned. *)
Definition init_in_memory (seed : bytes) : IdentityManager :=
  mkIdentity (derive_did (ed_public seed)) seed.

Definition public_key_bytes (m : IdentityManager) : bytes := ed_public (signing_key m).
Definition sign (m : IdentityManager) (payload : bytes) : Res bytes :=
  Ok (ed_sign (signing_key m) payload).

Definition set_author (d : Delta) (a : Did) : Delta :=
  mkDelta (d_id d) a (d_signature d) (d_schema_hash d) (d_automerge_bytes d) (d_priority d)
    (d_causal_parents d) (d_tags d) (d_lamport d) (d_created_at d).
Definition set_signed (d : Delta) (id : DeltaId) (s : Ed25519Signature) : Delta :=
  mkDelta id (d_author_did d) s (d_schema_hash d) (d_automerge_bytes d) (d_priority d)
    (d_causal_parents d) (d_tags d) (d_lamport d) (d_created_at d).

Definition sign_delta (m : IdentityManager) (delta : Delta) : Res Delta :=
  let delta := set_author delta (did m) in
  let canonical := canonical_bytes delta in
  sig_bytes ← sign m canonical;
  Ok (set_signed delta (compute_id canonical) sig_bytes).

Definition verify_delta_signature (sender_did : Did) (payload signature : bytes) : Res unit :=
  public_key ← resolve_did sender_did;
  Keypair.verify public_key payload signature.

Definition verify_delta (delta : Delta) : Res unit :=
  sig_bytes ← ok_or (as_bytes (d_signature delta))
                (SignatureVerificationFailed "delta signature is not 64 bytes");
  verify_delta_signature (d_author_did delta) (canonical_bytes delta) sig_bytes.

Lemma canonical_set_signed d id s : canonical_bytes (set_signed d id s) = canonical_bytes d.
Proof. done. Qed.

(** A Delta signed by a fresh identity verifies, under the author DID the
    identity was derived to, for every payload; its id is the hash of the
    bytes that were signed. *)
Theorem sign_delta_verifies seed delta :
  exists signed, sign_delta (init_in_memory seed) delta = Ok signed /\
    verify_delta signed = Ok tt /\
    d_author_did signed = derive_did (ed_public seed) /\
    d_id signed = compute_id (canonical_bytes signed) /\
    resolve_did (d_author_did signed) = Ok (ed_public seed).
Proof.
  assert (resolve_did (derive_did (ed_public seed)) = Ok (ed_public seed)) as Hr.
  { apply resolve_derive; [apply ed_public_length|apply ed_public_bytes]. }
  eexists. split; [reflexivity|]. split_and!; [|done|done|done].
  unfold verify_delta, as_bytes. cbn [d_signature set_signed].
  rewrite decide_True by apply ed_sign_length. simpl.
  unfold verify_delta_signature. rewrite canonical_set_signed. cbn [d_author_did set_signed set_author].
  simpl. rewrite Hr. simpl. apply verify_sign.
Qed.

(** What [verify_delta] establishes: the author's DID resolves to a key
    under which the signature verifies on the canonical bytes.  The id is not
    among them: a Delta whose id was replaced verifies as before. *)
Theorem verify_delta_sound delta :
  (verify_delta delta = Ok tt <->
    exists k, resolve_did (d_author_did delta) = Ok k /\ ed_key_ok k = true /\
      length (d_signature delta) = 64%nat /\
      ed_verify k (canonical_bytes delta) (d_signature delta) = true) /\
  forall id, verify_delta (set_signed delta id (d_signature delta)) = verify_delta delta.
Proof.
  split; [|done]. unfold verify_delta, as_bytes. case_decide as Hl; simpl; [|naive_solver].
  unfold verify_delta_signature. destruct (resolve_did _) as [k|e]; simpl; [|naive_solver].
  rewrite verify_ok. naive_solver.
Qed.
End Identity.
End Identity.

(** ** Instances: the laws can hold

    An encoding that spells each byte as one character, and a signature scheme
    whose signature is a checksum anyone can compute. *)

Fixpoint toy_encode (b : bytes) : string :=
  match b with
  | [] => ""
  | x :: b => String (Ascii.ascii_of_N x) (toy_encode b)
  end.
Fixpoint toy_decode (s : string) : bytes :=
  match s with
  | "" => []
  | String a s => Ascii.N_of_ascii a :: toy_decode s
  end.

Definition toy_bs58 : Bs58.
Proof.
  refine {| bs58_encode := toy_encode; bs58_decode s := Some (toy_decode s) |}.
  intros b Hb. f_equal. induction Hb as [|x b Hx _ IH]; simpl; [done|].
  by rewrite Ascii.N_ascii_embedding, IH.
Defined.

Definition toy_pad (n : nat) (b : bytes) : bytes :=
  take n ((fun x => (x mod 256)%N) <$> b ++ replicate n 0%N).

Lemma length_toy_pad n b : length (toy_pad n b) = n.
Proof. unfold toy_pad. rewrite length_take, length_fmap, length_app, length_replicate. lia. Qed.

Definition toy_ed25519 : Ed25519.
Proof.
  refine {| ed_public := toy_pad 32; ed_sign s m := toy_pad 64 (toy_pad 32 s ++ m);
    ed_key_ok k := bool_decide (length k = 32%nat);
    ed_verify k m s := bool_decide (s = toy_pad 64 (k ++ m)) |}; intros.
  - apply length_toy_pad.
  - apply Forall_take, Forall_fmap, Forall_forall. intros x _. simpl. by apply N.mod_lt.
  - by rewrite bool_decide_eq_true_2 by apply length_toy_pad.
  - apply length_toy_pad.
  - by rewrite bool_decide_eq_true_2.
Defined.
