(* ===== verification/Auth.v ===== *)
(** * Tokens and trust: [auth/biscuit.rs], [auth/root_ca.rs], [auth/trust.rs],
    [auth/mod.rs]

    The [biscuit-auth] crate stays abstract (class [BiscuitLib]): parsing a token
    under a key, building an authorizer at a time, authorizing it and querying
    its facts.  The clock is an argument of every operation that reads it. *)

From S2P Require Import Prelude Types.
From stdpp Require Import pretty.
Open Scope Z_scope.

(** Limits of an authorizer run: the crate's default, or the 10,000 facts and
    iterations and 5 seconds the code calls generous. *)
Inductive Limits := DefaultLimits | Generous.

(** Errors of the crate are their [Display] text. *)
Class BiscuitLib := {
  PublicKey : Type;
  Token : Type;
  Authorizer : Type;
  key_from_bytes : bytes -> result string PublicKey;
  biscuit_from : bytes -> PublicKey -> result string Token;
  (* a [time] fact, an [allow_all] policy, then [build] *)
  build_authorizer : Z -> Token -> result string Authorizer;
  authorize : Limits -> Authorizer -> result string Authorizer;
  query_strings : Limits -> Authorizer -> string -> result string (list string);
  query_ints : Limits -> Authorizer -> string -> result string (list Z);
  (* the builder: facts, expiration check (nanoseconds), root key *)
  build_biscuit : list string -> Z -> bytes -> Res bytes
}.

(** [str::contains], and [str::to_lowercase] on ASCII letters (the two words
    the code looks for are ASCII). *)
Fixpoint is_prefix_of (p s : string) : bool :=
  match p, s with
  | "", _ => true
  | String a p', String b s' => bool_decide (a = b) && is_prefix_of p' s'
  | _, _ => false
  end.
Fixpoint contains (p s : string) : bool :=
  is_prefix_of p s || match s with "" => false | String _ s' => contains p s' end.
Definition lower_ascii (a : Ascii.ascii) : Ascii.ascii :=
  let n := Ascii.N_of_ascii a in
  if ((65 <=? n) && (n <=? 90))%N then Ascii.ascii_of_N (n + 32) else a.
Fixpoint to_lowercase (s : string) : string :=
  match s with "" => "" | String a s' => String (lower_ascii a) (to_lowercase s') end.

(** ** Tokens *)

Module Biscuit.

Definition TTL_MIN_SECS : Z := 3600.
Definition TTL_MAX_SECS : Z := 86400.
Definition TTL_OVERRIDE_CEILING_SECS : Z := 7 * 24 * 3600.

Record BiscuitClaims := mkClaims {
  c_did : string;
  c_role : string;
  c_issued_at : Z;
  c_expires_at : Z
}.

Inductive TokenVerifyError :=
| TokenExpired
| OtherFailure (e : TirBaseError).

(** The character of code 34. *)
Definition dq : string := String (Ascii.ascii_of_nat 34) "".
Definition string_fact (name value : string) : string :=
  name +:+ "(" +:+ dq +:+ value +:+ dq +:+ ")".
Definition int_fact (name : string) (value : Z) : string := name +:+ "(" +:+ pretty value +:+ ")".

Section Biscuit.
Context `{!BiscuitLib}.

Definition build_token (did role : string) (ttl_secs : Z) (extra_facts : list string)
    (root_ca_private_key : bytes) (now_nanos issued_secs : Z) : Res bytes :=
  let expiry := now_nanos + ttl_secs * 10 ^ 9 in
  let issued_at_val := wrap_i64 issued_secs in
  let expiry_secs := issued_secs + ttl_secs in
  build_biscuit ([string_fact "did" did; string_fact "role" role;
    int_fact "issued_at" issued_at_val; int_fact "expires_at" expiry_secs] ++ extra_facts)
    expiry root_ca_private_key.

Definition create_token (did role : string) (ttl_secs : Z) (root_ca_private_key : bytes)
    (extended_ttl_accepted_risk : bool) (now_nanos : Z) : Res bytes :=
  if ttl_secs <? TTL_MIN_SECS then
    Err (AuthorisationFailed "TTL is below minimum of 3600s (1 hour)")
  else if (TTL_MAX_SECS <? ttl_secs) && negb extended_ttl_accepted_risk then
    Err (AuthorisationFailed "TTL exceeds maximum of 86400s (24 hours)")
  else if (TTL_MAX_SECS <? ttl_secs) && (TTL_OVERRIDE_CEILING_SECS <? ttl_secs) then
    Err (AuthorisationFailed "TTL exceeds the extended-TTL ceiling")
  else
    let issued_secs := Z.max 0 now_nanos / 10 ^ 9 in
    let extra_facts :=
      if extended_ttl_accepted_risk && (TTL_MAX_SECS <? ttl_secs)
      then [string_fact "ttl_override" "true"] else [] in
    build_token did role ttl_secs extra_facts root_ca_private_key now_nanos issued_secs.

(** The common beginning of the verifiers: the key, then the token. *)
Definition parse_token (token_bytes root_ca_public_key : bytes) : Res Token :=
  public_key ← map_err (fun _ => AuthorisationFailed "invalid root CA public key")
                 (key_from_bytes root_ca_public_key);
  map_err (fun _ => AuthorisationFailed "failed to parse/verify Biscuit token")
    (biscuit_from token_bytes public_key).

Definition authorizer_at (token : Token) (now_secs : Z) : Res Authorizer :=
  map_err (fun _ => AuthorisationFailed "authorizer construction failed")
    (build_authorizer (Z.max now_secs 0) token).

Definition extract_claims (authorizer : Authorizer) (now_secs : Z) : Res BiscuitClaims :=
  did_results ← map_err (fun _ => AuthorisationFailed "did query failed")
                  (query_strings Generous authorizer "did");
  role_results ← map_err (fun _ => AuthorisationFailed "role query failed")
                   (query_strings Generous authorizer "role");
  issued_results ← map_err (fun _ => AuthorisationFailed "issued_at query failed")
                     (query_ints Generous authorizer "issued_at");
  expires_results ← map_err (fun _ => AuthorisationFailed "expires_at query failed")
                      (query_ints Generous authorizer "expires_at");
  Ok (mkClaims (default "" (head did_results)) (default "" (head role_results))
    (default 0 (head issued_results)) (default now_secs (head expires_results))).

Definition verify_token (token_bytes root_ca_public_key : bytes) (now_secs : Z)
  : Res BiscuitClaims :=
  token ← parse_token token_bytes root_ca_public_key;
  authorizer ← authorizer_at token now_secs;
  authorizer ← map_err
    (fun _ => AuthorisationFailed "token authorization failed (possibly expired)")
    (authorize Generous authorizer);
  extract_claims authorizer now_secs.

Definition verify_token_distinguish_expiry (token_bytes root_ca_public_key : bytes)
    (now_secs : Z) : result TokenVerifyError BiscuitClaims :=
  token ← map_err OtherFailure (parse_token token_bytes root_ca_public_key);
  authorizer ← map_err OtherFailure (authorizer_at token now_secs);
  match authorize Generous authorizer with
  | Err e =>
      let msg := to_lowercase e in
      if contains "expired" msg || contains "authorization failed" msg
      then Err TokenExpired
      else Err (OtherFailure (AuthorisationFailed "token authorization failed"))
  | Ok authorizer => map_err OtherFailure (extract_claims authorizer now_secs)
  end.

Definition has_caveat (token_bytes : bytes) (caveat : string) (root_ca_public_key : bytes)
    (now_secs : Z) : bool :=
  match
    token ← parse_token token_bytes root_ca_public_key;
    authorizer ← authorizer_at token now_secs;
    map_err (fun _ => AuthorisationFailed "") (authorize DefaultLimits authorizer)
  with
  | Err _ => false
  | Ok authorizer =>
      match query_strings DefaultLimits authorizer "caveat" with
      | Ok results => existsb (fun v => bool_decide (v = caveat)) results
      | Err _ => false
      end
  end.

Definition verify_and_check_caveat (token_bytes : bytes) (caveat : string)
    (root_ca_public_key : bytes) (now_secs : Z) : Res bool :=
  token ← parse_token token_bytes root_ca_public_key;
  authorizer ← authorizer_at token now_secs;
  authorizer ← map_err
    (fun _ => AuthorisationFailed "token authorization failed (possibly expired)")
    (authorize Generous authorizer);
  let results :=
    match query_strings Generous authorizer "caveat" with Ok r => r | Err _ => [] end in
  Ok (existsb (fun v => bool_decide (v = caveat)) results).

Definition verify_token_expiry_only (token_bytes root_ca_public_key : bytes) (now_secs : Z)
  : Res unit :=
  token ← parse_token token_bytes root_ca_public_key;
  authorizer ← authorizer_at token now_secs;
  _ ← map_err
    (fun _ => AuthorisationFailed "token authorization failed (possibly expired)")
    (authorize DefaultLimits authorizer);
  Ok tt.

(** The two verifiers accept the same tokens with the same claims. *)
Lemma verify_token_agree token ca now c :
  verify_token token ca now = Ok c <-> verify_token_distinguish_expiry token ca now = Ok c.
Proof.
  unfold verify_token, verify_token_distinguish_expiry.
  destruct (parse_token token ca) as [t|]; simpl; [|done].
  destruct (authorizer_at t now) as [a|]; simpl; [|done].
  destruct (authorize Generous a) as [a'|m]; simpl; [|destruct (_ || _); by split].
  destruct (extract_claims a' now); simpl; split; congruence.
Qed.

(** The facts a token of the given parameters carries. *)
Definition token_facts (did role : string) (issued ttl_secs : Z) (override : bool)
  : list string :=
  [string_fact "did" did; string_fact "role" role; int_fact "issued_at" issued;
   int_fact "expires_at" (issued + ttl_secs)] ++
  (if override then [string_fact "ttl_override" "true"] else []).

(** A token is only ever built with a lifetime between one hour and one
    day, or, when the deployment accepted the risk, up to seven days and then
    with the [ttl_override] fact; its expiration check and its [expires_at]
    fact are both the issue time plus that lifetime; every other request is
    refused before the builder runs. *)
Theorem create_token_ttl did role ttl key risk now :
  u64_ok ttl -> 0 <= now -> now / 10 ^ 9 < 2 ^ 63 ->
  let allowed := 3600 <= ttl <= 86400 \/ (risk = true /\ 86400 < ttl <= 604800) in
  (allowed -> create_token did role ttl key risk now =
    build_biscuit (token_facts did role (now / 10 ^ 9) ttl (86400 <? ttl))
      (now + ttl * 10 ^ 9) key) /\
  (~ allowed -> exists reason,
    create_token did role ttl key risk now = Err (AuthorisationFailed reason)).
Proof.
  intros Httl Hnow Hnow' allowed. unfold create_token, build_token, token_facts.
  unfold TTL_MIN_SECS, TTL_MAX_SECS, TTL_OVERRIDE_CEILING_SECS.
  rewrite Z.max_r by lia. rewrite wrap_i64_small.
  2:{ unfold i64_ok. pose proof (Z.div_pos now (10 ^ 9)). lia. }
  destruct (Z.ltb_spec ttl 3600), (Z.ltb_spec 86400 ttl), (Z.ltb_spec (7 * 24 * 3600) ttl), risk;
    simpl; (split; [intros Ha; unfold allowed in Ha; try done; destruct Ha; lia
                   |intros Hn; try eauto; exfalso; apply Hn; unfold allowed; lia]).
Qed.
End Biscuit.
End Biscuit.

(** ** The root CA registry *)

Module RootCa.

Record RootCaRegistry := mkRegistry { keys : list bytes }.

Definition new (ks : list bytes) : RootCaRegistry := mkRegistry ks.
Definition is_registered (r : RootCaRegistry) (key : bytes) : bool := bool_decide (key ∈ keys r).
Definition register (r : RootCaRegistry) (key : bytes) : RootCaRegistry :=
  if is_registered r key then r else mkRegistry (keys r ++ [key]).
Definition primary_key (r : RootCaRegistry) : option bytes := head (keys r).

Lemma elem_of_register r key k : k ∈ keys (register r key) <-> k ∈ keys r \/ k = key.
Proof. unfold register, is_registered. case_bool_decide; simpl; set_solver. Qed.
End RootCa.

(** ** The trust level *)

Module Trust.

Inductive TrustLevel := Verified | Unverified | Revoked.

#[export] Instance TrustLevel_eq_dec : EqDecision TrustLevel.
Proof. solve_decision. Defined.

Record TrustLevelStateMachine := mkTrust {
  level : TrustLevel;
  unverified_since : option Z
}.

Definition new (initial_level : TrustLevel) : TrustLevelStateMachine := mkTrust initial_level None.
Definition on_valid_token (s : TrustLevelStateMachine) : TrustLevelStateMachine :=
  mkTrust Verified None.
Definition on_token_expired (s : TrustLevelStateMachine) (now_micros : Z)
  : TrustLevelStateMachine :=
  if decide (level s = Revoked) then s
  else mkTrust Unverified
    (match unverified_since s with None => Some now_micros | since => since end).
Definition on_revocation (s : TrustLevelStateMachine) : TrustLevelStateMachine :=
  mkTrust Revoked None.
Definition unverified_warning (s : TrustLevelStateMachine) : option Z :=
  if decide (level s = Unverified) then unverified_since s else None.

(** A time is recorded only while the device is unverified. *)
Definition wf (s : TrustLevelStateMachine) : Prop :=
  level s <> Unverified -> unverified_since s = None.

Lemma new_wf l : wf (new l).
Proof. by intros _. Qed.
Lemma on_valid_token_wf s : wf (on_valid_token s).
Proof. by intros _. Qed.
Lemma on_revocation_wf s : wf (on_revocation s).
Proof. by intros _. Qed.
Lemma on_token_expired_wf s now : wf s -> wf (on_token_expired s now).
Proof. unfold on_token_expired. case_decide; [done|]. by intros _ []. Qed.
End Trust.

#[export] Hint Resolve Trust.new_wf Trust.on_valid_token_wf Trust.on_revocation_wf
  Trust.on_token_expired_wf : tirbase.

(** ** The capability manager *)

Module Capability.
Import Trust.

(** [pending_revocations], [revocation_m] and [revocation_n] belong to the
    revocation component. *)
Record CapabilityManager := mkCap {
  trust_state : TrustLevelStateMachine;
  root_ca_registry : RootCa.RootCaRegistry;
  extended_ttl_accepted_risk : bool;
  current_token_expires_at : option Z;
  last_revocation_ts : option Z
}.

Definition set_trust (m : CapabilityManager) (s : TrustLevelStateMachine) : CapabilityManager :=
  mkCap s (root_ca_registry m) (extended_ttl_accepted_risk m) (current_token_expires_at m)
    (last_revocation_ts m).

Section Capability.
Context `{!BiscuitLib}.

Definition new (root_ca_keys : list bytes) (risk : bool) : CapabilityManager :=
  mkCap (Trust.new Unverified) (RootCa.new root_ca_keys) risk None None.

Definition trust_level (m : CapabilityManager) : TrustLevel := level (trust_state m).
Definition unverified_warning (m : CapabilityManager) : option Z :=
  Trust.unverified_warning (trust_state m).

Fixpoint verify_loop (m : CapabilityManager) (ca_keys : list bytes) (token_bytes : bytes)
    (now_secs : Z) (last_err : option TirBaseError) : CapabilityManager * Res TrustLevel :=
  match ca_keys with
  | [] => (m, Err (default (AuthorisationFailed "no registered root CA keys") last_err))
  | ca_key :: ca_keys =>
      match Biscuit.verify_token token_bytes ca_key now_secs with
      | Ok _ =>
          let m := set_trust m (on_valid_token (trust_state m)) in (m, Ok (trust_level m))
      | Err e => verify_loop m ca_keys token_bytes now_secs (Some e)
      end
  end.

Definition verify_token (m : CapabilityManager) (token_bytes : bytes) (now_secs : Z)
  : CapabilityManager * Res TrustLevel :=
  if decide (trust_level m = Revoked) then
    (m, Err (AuthorisationFailed "device is REVOKED; token verification is not permitted"))
  else verify_loop m (RootCa.keys (root_ca_registry m)) token_bytes now_secs None.

Definition on_token_expired (m : CapabilityManager) (now_micros : Z) : CapabilityManager :=
  set_trust m (Trust.on_token_expired (trust_state m) now_micros).

Fixpoint present_loop (m : CapabilityManager) (ca_keys : list bytes) (token_bytes : bytes)
    (now_secs now_micros : Z) : CapabilityManager * Res TrustLevel :=
  match ca_keys with
  | [] => (m, Ok Unverified)
  | ca_key :: ca_keys =>
      match Biscuit.verify_token_distinguish_expiry token_bytes ca_key now_secs with
      | Ok claims =>
          let m := mkCap (on_valid_token (trust_state m)) (root_ca_registry m)
            (extended_ttl_accepted_risk m) (Some (Biscuit.c_expires_at claims))
            (last_revocation_ts m) in
          (m, Ok (trust_level m))
      | Err Biscuit.TokenExpired => (on_token_expired m now_micros, Ok Unverified)
      | Err (Biscuit.OtherFailure _) => present_loop m ca_keys token_bytes now_secs now_micros
      end
  end.

Definition present_token (m : CapabilityManager) (token_bytes : bytes)
    (now_secs now_micros : Z) : CapabilityManager * Res TrustLevel :=
  match RootCa.keys (root_ca_registry m) with
  | [] => (m, Err (AuthorisationFailed
            "no registered root CA keys; cannot verify Biscuit token"))
  | ca_keys => present_loop m ca_keys token_bytes now_secs now_micros
  end.

Definition apply_revocation (m : CapabilityManager) (now_micros : Z) : CapabilityManager :=
  mkCap (on_revocation (trust_state m)) (root_ca_registry m) (extended_ttl_accepted_risk m)
    (current_token_expires_at m) (Some now_micros).

Definition root_ca_primary_key (m : CapabilityManager) : option bytes :=
  RootCa.primary_key (root_ca_registry m).

Definition DEFAULT_BISCUIT_TTL_SECS : Z := 3600.

Definition mint_token (m : CapabilityManager) (did role : string) (root_ca_private_key : bytes)
    (ttl_secs : option Z) (now_nanos : Z) : Res bytes :=
  Biscuit.create_token did role (default DEFAULT_BISCUIT_TTL_SECS ttl_secs)
    root_ca_private_key (extended_ttl_accepted_risk m) now_nanos.

Definition register_root_ca_key (m : CapabilityManager) (key : bytes)
    (token_bytes : option (bytes * Z)) : CapabilityManager * Res TrustLevel :=
  let m := mkCap (trust_state m) (RootCa.register (root_ca_registry m) key)
    (extended_ttl_accepted_risk m) (current_token_expires_at m) (last_revocation_ts m) in
  match token_bytes with
  | Some (token, now_secs) => verify_token m token now_secs
  | None => (m, Ok (trust_level m))
  end.

(** The token-expiry monitor of [api/mod.rs]: one pass of its loop.  The
    comparison is the derived order of [Option<i64>], where [None] is least. *)
Definition expiry_monitor (m : CapabilityManager) (now : Z) : CapabilityManager :=
  if decide (trust_level m = Verified) then
    match current_token_expires_at m with
    | Some t => if t <=? now then on_token_expired m (wrap_i64 (now * 1000000)) else m
    | None => on_token_expired m (wrap_i64 (now * 1000000))
    end
  else m.

(** ** The operations a manager receives *)

Inductive Op :=
| OpVerify (token : bytes) (now_secs : Z)
| OpPresent (token : bytes) (now_secs now_micros : Z)
| OpExpired (now_micros : Z)
| OpRevoke (now_micros : Z)
| OpRegister (key : bytes) (token : option (bytes * Z))
| OpMonitor (now_secs : Z).

Definition apply_op (m : CapabilityManager) (op : Op) : CapabilityManager :=
  match op with
  | OpVerify token now => (verify_token m token now).1
  | OpPresent token now micros => (present_token m token now micros).1
  | OpExpired micros => on_token_expired m micros
  | OpRevoke micros => apply_revocation m micros
  | OpRegister key token => (register_root_ca_key m key token).1
  | OpMonitor now => expiry_monitor m now
  end.

Definition run (m : CapabilityManager) (ops : list Op) : CapabilityManager :=
  foldl apply_op m ops.

(** The token and the time an operation verifies. *)
Definition token_of (op : Op) : option (bytes * Z) :=
  match op with
  | OpVerify token now | OpPresent token now _ => Some (token, now)
  | OpRegister _ token => token
  | _ => None
  end.

Lemma verify_loop_spec m ks token now last_err :
  let '(m', r) := verify_loop m ks token now last_err in
  (exists ca claims, ca ∈ ks /\ Biscuit.verify_token token ca now = Ok claims /\
    m' = set_trust m (on_valid_token (trust_state m)) /\ r = Ok Verified) \/
  ((forall ca claims, ca ∈ ks -> Biscuit.verify_token token ca now <> Ok claims) /\
    m' = m /\ exists e, r = Err e).
Proof.
  revert last_err. induction ks as [|ca ks IH]; intros last_err; cbn [verify_loop].
  - right. split_and!; [set_solver|done|eauto].
  - destruct (Biscuit.verify_token token ca now) as [claims|e] eqn:Hv.
    + left. exists ca, claims. split_and!; [left|done..].
    + specialize (IH (Some e)). destruct (verify_loop _ _ _ _ _) as [m' r].
      destruct IH as [(ca' & claims & ? & H')|(Hno & H')]; [left|right].
      * exists ca', claims. split; [by right|done].
      * split; [|done]. intros ca' claims [->|?]%elem_of_cons; [by rewrite Hv|by apply Hno].
Qed.

(** What the loop over the keys decides: the first key whose failure is not of
    the other kind. *)
Lemma present_loop_spec m ks token now micros :
  let verify ca := Biscuit.verify_token_distinguish_expiry token ca now in
  let other ca := exists e, verify ca = Err (Biscuit.OtherFailure e) in
  (exists pre ca post claims, ks = pre ++ ca :: post /\ Forall other pre /\
    verify ca = Ok claims /\
    present_loop m ks token now micros =
      (mkCap (mkTrust Verified None) (root_ca_registry m) (extended_ttl_accepted_risk m)
        (Some (Biscuit.c_expires_at claims)) (last_revocation_ts m), Ok Verified)) \/
  (exists pre ca post, ks = pre ++ ca :: post /\ Forall other pre /\
    verify ca = Err Biscuit.TokenExpired /\
    present_loop m ks token now micros = (on_token_expired m micros, Ok Unverified)) \/
  (Forall other ks /\ present_loop m ks token now micros = (m, Ok Unverified)).
Proof.
  intros verify other. induction ks as [|ca ks IH]; [by right; right|].
  cbn [present_loop]. fold (verify ca). destruct (verify ca) as [claims|[|e]] eqn:Hv.
  - left. by exists [], ca, ks, claims.
  - right. left. by exists [], ca, ks.
  - assert (other ca) as Ho by (by exists e).
    destruct IH as [(pre & ca' & post & c & -> & ? & ? & ?)|[(pre & ca' & post & -> & ? & ? & ?)|[? ?]]].
    + left. exists (ca :: pre), ca', post, c. split_and!; [done|by constructor|done..].
    + right. left. exists (ca :: pre), ca', post. split_and!; [done|by constructor|done..].
    + right. right. auto.
Qed.

Lemma registry_mono m op k :
  k ∈ RootCa.keys (root_ca_registry m) -> k ∈ RootCa.keys (root_ca_registry (apply_op m op)).
Proof.
  assert (forall m token now last, root_ca_registry
    (verify_loop m (RootCa.keys (root_ca_registry m)) token now last).1 = root_ca_registry m) as Hv.
  { intros m0 token now last.
    pose proof (verify_loop_spec m0 (RootCa.keys (root_ca_registry m0)) token now last) as Hs.
    destruct (verify_loop _ _ _ _ _). by destruct Hs as [(? & ? & _ & _ & -> & _)|(_ & -> & _)]. }
  intros Hk. destruct op as [token now|token now micros| | |key [[token now]|]|now];
    cbn [apply_op]; try done.
  - unfold verify_token. case_decide; [done|]. by rewrite Hv.
  - unfold present_token. destruct (RootCa.keys (root_ca_registry m)) as [|k0 ks] eqn:Hks.
    { by apply elem_of_nil in Hk. }
    destruct (present_loop_spec m (k0 :: ks) token now micros)
      as [(? & ? & ? & ? & _ & _ & _ & ->)|[(? & ? & ? & _ & _ & _ & ->)|[_ ->]]];
      simpl; by rewrite Hks.
  - unfold register_root_ca_key, verify_token. case_decide; [|rewrite Hv]; simpl;
      apply RootCa.elem_of_register; by left.
  - simpl. apply RootCa.elem_of_register. by left.
  - unfold expiry_monitor. case_decide; [|done]. destruct (current_token_expires_at m); [|done].
    by case_match.
Qed.

Lemma registry_mono_run m ops k :
  k ∈ RootCa.keys (root_ca_registry m) -> k ∈ RootCa.keys (root_ca_registry (run m ops)).
Proof.
  revert m. induction ops as [|op ops IH]; intros m Hk; [done|].
  apply (IH (apply_op m op)). by apply registry_mono.
Qed.

(** An operation that makes the device [Verified] carries a token that verifies
    under a registered key. *)
Definition justified (m : CapabilityManager) (op : Op) : Prop :=
  exists token now ca claims, token_of op = Some (token, now) /\
    ca ∈ RootCa.keys (root_ca_registry m) /\ Biscuit.verify_token token ca now = Ok claims.

Lemma verify_loop_justified m token now last m' r :
  verify_loop m (RootCa.keys (root_ca_registry m)) token now last = (m', r) ->
  trust_level m <> Verified -> trust_level m' = Verified ->
  exists ca claims, ca ∈ RootCa.keys (root_ca_registry m') /\
    Biscuit.verify_token token ca now = Ok claims.
Proof.
  intros Hv Hm Hm'.
  pose proof (verify_loop_spec m (RootCa.keys (root_ca_registry m)) token now last) as Hs.
  rewrite Hv in Hs. destruct Hs as [(ca & claims & Hin & Hok & -> & _)|(_ & -> & _)]; [|done].
  by exists ca, claims.
Qed.

Lemma expired_not_verified m micros :
  trust_level m <> Verified -> trust_level (on_token_expired m micros) <> Verified.
Proof.
  unfold trust_level, on_token_expired, Trust.on_token_expired. simpl. by case_decide.
Qed.

Lemma step_justified m op :
  trust_level m <> Verified -> trust_level (apply_op m op) = Verified ->
  justified (apply_op m op) op.
Proof.
  intros Hm Hm'. unfold justified.
  destruct op as [token now|token now micros|micros| |key [[token now]|]|now];
    cbn [apply_op token_of] in *; try done.
  - unfold verify_token in *. case_decide; [done|].
    destruct (verify_loop _ _ _ _ _) as [m' r] eqn:Hv.
    destruct (verify_loop_justified _ _ _ _ _ _ Hv Hm Hm') as (ca & claims & ?).
    by exists token, now, ca, claims.
  - unfold present_token in *. destruct (RootCa.keys (root_ca_registry m)) as [|k0 ks] eqn:Hks;
      [done|].
    destruct (present_loop_spec m (k0 :: ks) token now micros)
      as [(pre & ca & post & claims & Heq & _ & Hv & Hp)|
          [(? & ? & ? & _ & _ & _ & Hp)|[_ Hp]]]; rewrite Hp in *; simpl in *.
    + exists token, now, ca, claims. split_and!; [done| |by apply Biscuit.verify_token_agree].
      rewrite Hks, Heq. set_solver.
    + by destruct (expired_not_verified m micros Hm).
    + done.
  - by destruct (expired_not_verified m micros Hm).
  - unfold register_root_ca_key, verify_token in *. case_decide; [done|].
    destruct (verify_loop _ _ _ _ _) as [m' r] eqn:Hv.
    apply verify_loop_justified in Hv as (ca & claims & ?); [|done..].
    by exists token, now, ca, claims.
  - unfold expiry_monitor in Hm'. by rewrite decide_False in Hm'.
Qed.

(** A manager that was not [Verified] and is now has been given a token on the way. *)
Lemma verified_justified m ops :
  trust_level m <> Verified -> trust_level (run m ops) = Verified ->
  exists op, op ∈ ops /\ justified (run m ops) op.
Proof.
  revert m. induction ops as [|op ops IH]; intros m Hm Hv; [done|].
  change (run m (op :: ops)) with (run (apply_op m op) ops) in *.
  destruct (decide (trust_level (apply_op m op) = Verified)) as [Hop|Hop].
  - exists op. split; [left|]. destruct (step_justified m op Hm Hop) as (t & now & ca & c & ? & ? & ?).
    exists t, now, ca, c. split_and!; [done|by apply registry_mono_run|done].
  - destruct (IH _ Hop Hv) as (op' & ? & ?). exists op'. split; [by right|done].
Qed.

(** C38: A device is [Verified] only after an operation presented a token that
    verifies, at the time of the operation, under a root key registered at
    the end: no sequence of the other operations leads there from a new
    manager. *)
Theorem verified_needs_token ks risk ops :
  trust_level (run (new ks risk) ops) = Verified ->
  exists op, op ∈ ops /\ justified (run (new ks risk) ops) op.
Proof. by apply verified_justified. Qed.

(** Revocation is final for every operation except [present_token]: once
    [Revoked], the device stays so under verification of tokens, expiry,
    further revocations, registration of keys (with or without a token) and
    the expiry monitor, and every token verification is refused. *)
Theorem revoked_sticky m ops :
  trust_level m = Revoked ->
  (forall token now micros, OpPresent token now micros ∉ ops) ->
  trust_level (run m ops) = Revoked /\
  forall token now, verify_token (run m ops) token now =
    (run m ops, Err (AuthorisationFailed
      "device is REVOKED; token verification is not permitted")).
Proof.
  intros Hm Hops. assert (trust_level (run m ops) = Revoked) as Hr.
  { revert m Hm Hops. induction ops as [|op ops IH]; intros m Hm Hops; [done|].
    apply (IH (apply_op m op)); [|intros token now micros ?; eapply Hops; by right].
    destruct op as [token now|token now micros|micros| |key [[token now]|]|now];
      cbn [apply_op]; try done.
    - unfold verify_token. by rewrite decide_True.
    - destruct (Hops token now micros). left.
    - unfold on_token_expired, Trust.on_token_expired, trust_level in *. simpl.
      by rewrite decide_True.
    - unfold register_root_ca_key, verify_token. by rewrite decide_True.
    - unfold expiry_monitor. rewrite decide_False; [done|]. by rewrite Hm. }
  split; [done|]. intros token now. unfold verify_token. by rewrite decide_True.
Qed.

(** [present_token] on every branch.  It fails only without keys.
    Otherwise the first key whose verification is not some other failure
    decides: valid makes the device [Verified], whatever its level was, and
    records the expiry of the claims; expired runs the expiry transition; no
    such key changes nothing. *)
Theorem present_token_spec m token now micros :
  let verify ca := Biscuit.verify_token_distinguish_expiry token ca now in
  let other ca := exists e, verify ca = Err (Biscuit.OtherFailure e) in
  let ks := RootCa.keys (root_ca_registry m) in
  (ks = [] /\ present_token m token now micros =
    (m, Err (AuthorisationFailed "no registered root CA keys; cannot verify Biscuit token"))) \/
  (exists pre ca post claims, ks = pre ++ ca :: post /\ Forall other pre /\
    verify ca = Ok claims /\
    present_token m token now micros =
      (mkCap (mkTrust Verified None) (root_ca_registry m) (extended_ttl_accepted_risk m)
        (Some (Biscuit.c_expires_at claims)) (last_revocation_ts m), Ok Verified)) \/
  (exists pre ca post, ks = pre ++ ca :: post /\ Forall other pre /\
    verify ca = Err Biscuit.TokenExpired /\
    present_token m token now micros = (on_token_expired m micros, Ok Unverified)) \/
  (ks <> [] /\ Forall other ks /\ present_token m token now micros = (m, Ok Unverified)).
Proof.
  intros verify other ks. unfold present_token. fold ks.
  destruct ks as [|k0 ks'] eqn:Hks; [by left|].
  destruct (present_loop_spec m (k0 :: ks') token now micros) as [Hp|[Hp|[Hp Hp']]]; auto 10.
Qed.

(** ** Behaviours the comments of the code exclude *)

(** A device whose revocation was applied is [Verified] again once a token that
    verifies under the first root key is presented. *)
Lemma revoked_device_reverified m ca ks token now micros claims t :
  RootCa.keys (root_ca_registry m) = ca :: ks ->
  Biscuit.verify_token token ca now = Ok claims ->
  trust_level (apply_revocation m t) = Revoked /\
  trust_level (present_token (apply_revocation m t) token now micros).1 = Verified.
Proof.
  intros Hks Hv. split; [done|]. unfold present_token. simpl. rewrite Hks. cbn [present_loop].
  apply Biscuit.verify_token_agree in Hv. by rewrite Hv.
Qed.

(** A token accepted while its key is registered leaves no expiry behind, and
    the monitor, at whatever time it first runs, demotes the device. *)
Lemma registered_token_demoted m key token now m' later :
  current_token_expires_at m = None ->
  register_root_ca_key m key (Some (token, now)) = (m', Ok Verified) ->
  trust_level m' = Verified /\ trust_level (expiry_monitor m' later) = Unverified.
Proof.
  unfold register_root_ca_key, verify_token. intros Hexp Hr. case_decide; [done|].
  set (m0 := mkCap _ _ _ _ _) in *.
  pose proof (verify_loop_spec m0 (RootCa.keys (root_ca_registry m0)) token now None) as Hs.
  rewrite Hr in Hs. destruct Hs as [(ca & claims & _ & _ & -> & _)|(_ & _ & e & ?)]; [|done].
  split; [done|]. unfold expiry_monitor. rewrite decide_True by done. simpl. by rewrite Hexp.
Qed.

(** A new device is [Unverified] and carries no warning. *)
Lemma new_device_unwarned ks risk :
  trust_level (new ks risk) = Unverified /\ unverified_warning (new ks risk) = None.
Proof. done. Qed.
End Capability.
End Capability.

(** ** Witnesses: tokens that spell their expiry and the key that made them *)

Section Toy.
Local Open Scope N_scope.

Definition toy_from (t k : bytes) : result string bytes :=
  match t with
  | _ :: k' => if decide (k' = k) then Ok t else Err "signature mismatch"
  | [] => Err "empty"
  end.
Definition toy_authorize (a : bytes * Z) : result string (bytes * Z) :=
  match a.1 with
  | e :: _ => if (a.2 <? Z.of_N e)%Z then Ok a else Err "Authorization Failed"
  | [] => Err "empty"
  end.
End Toy.

Definition toy_biscuit : BiscuitLib :=
  {| PublicKey := bytes; Token := bytes; Authorizer := bytes * Z;
     key_from_bytes k := if decide (k = []) then Err "no key" else Ok k;
     biscuit_from := toy_from;
     build_authorizer now t := Ok (t, now);
     authorize _ := toy_authorize;
     query_strings _ _ name := if decide (name = "caveat") then Ok ["disaster-alert"] else Ok ["manager"];
     query_ints _ a _ := Ok (Z.of_N <$> take 1 a.1);
     build_biscuit _ expiry key := Ok (Z.to_N (expiry / 10 ^ 9) :: key) |}.

#[local] Existing Instance toy_biscuit.

Definition toy_manager : Capability.CapabilityManager := Capability.new [[1]; [2]]%N false.
Definition toy_ops : list Capability.Op :=
  [Capability.OpPresent [100; 3]%N 50 0; Capability.OpPresent [100; 2]%N 50 0;
   Capability.OpMonitor 60].

Lemma create_token_ttl_witness :
  exists reason, Biscuit.create_token "a" "manager" 90000 [1]%N false (10 ^ 18)
    = Err (AuthorisationFailed reason).
Proof.
  refine (proj2 (Biscuit.create_token_ttl "a" "manager" 90000 [1]%N false (10 ^ 18) _ _ _) _).
  - unfold u64_ok. lia.
  - lia.
  - vm_compute. reflexivity.
  - intros [H|[H _]]; [lia|discriminate].
Defined.

Lemma verified_needs_token_witness :
  exists op, op ∈ toy_ops /\ Capability.justified (Capability.run toy_manager toy_ops) op.
Proof. apply (Capability.verified_needs_token [[1]; [2]]%N false toy_ops). reflexivity. Defined.

Lemma revoked_sticky_witness :
  Capability.trust_level (Capability.run (Capability.apply_revocation toy_manager 7)
    [Capability.OpVerify [100; 1]%N 50; Capability.OpRegister [9]%N (Some ([100; 9]%N, 50));
     Capability.OpMonitor 60; Capability.OpExpired 8]) = Trust.Revoked.
Proof.
  refine (proj1 (Capability.revoked_sticky _ _ _ _)).
  - reflexivity.
  - intros token now micros H. repeat (apply elem_of_cons in H as [H|H]; [discriminate|]).
    apply elem_of_nil in H. destruct H.
Defined.

(** The two behaviours above, on the toy tokens. *)
Example revoked_then_verified :
  let m := Capability.apply_revocation toy_manager 7 in
  Capability.trust_level m = Trust.Revoked /\
  Capability.trust_level (Capability.present_token m [100; 2]%N 50 0).1 = Trust.Verified.
Proof. vm_compute. split; reflexivity. Qed.

Example registered_then_demoted :
  let '(m, r) := Capability.register_root_ca_key toy_manager [3]%N (Some ([200; 3]%N, 50)) in
  r = Ok Trust.Verified /\
  Capability.trust_level (Capability.expiry_monitor m 51) = Trust.Unverified.
Proof. vm_compute. split; reflexivity. Qed.
