(* ===== verification/Revocation.v ===== *)
(** * M-of-N revocation: [auth/revocation.rs]

    Partial signatures accumulate per target until the threshold is met; then
    the target is recorded as revoked, the complete revocation is gossiped and
    the deltas its author wrote are handed to the contamination engine.  The
    two callbacks are an output: the list of [Effect]s in the order of the
    calls.  The clock is an argument; one call reads one time. *)

From S2P Require Import Prelude Types Kahn Dag Identity Auth.

Module Revocation.
Import Did Keypair Trust.

Record ManagerSignature := mkSig {
  manager_did : Did;
  signature : Ed25519Signature
}.

Record RevocationDelta := mkRevDelta {
  target_did : Did;
  signatures : list ManagerSignature;
  created_at : Z
}.

Record PendingRevocation := mkPending {
  p_target_did : Did;
  p_signatures : list ManagerSignature;
  p_threshold_m : nat;
  p_threshold_n : nat;
  initiated_at : Z;
  last_receipt_timestamp : option Z
}.

Inductive RevocationStatus :=
| Pending (collected required : nat)
| Applied.

#[export] Instance RevocationStatus_eq_dec : EqDecision RevocationStatus.
Proof. solve_decision. Defined.

Record DeviceRevocationStatus := mkStatus {
  device_did : Did;
  last_known_trust_level : TrustLevel;
  last_revocation_delta_received_at : option Z
}.

Abbreviation PendingRevocationStore := (gmap string PendingRevocation).

Inductive Effect :=
| OnRevocationApplied (target : Did) (delta : RevocationDelta)
| OnCceTrigger (target : Did) (deltas : list DeltaId).

Section Revocation.
Context {BS : Bs58} {ED : Ed25519} (sha256 : bytes -> bytes).

Definition signing_payload (target_did : string) : bytes :=
  sha256 (string_bytes "revoke:" ++ string_bytes target_did).

(** ** The store *)

Definition add_signature (store : PendingRevocationStore) (target : Did)
    (sig : ManagerSignature) (threshold_m threshold_n : nat) (revoked_dids : list Did)
    (now : Z) : PendingRevocationStore * Res RevocationStatus :=
  if decide (manager_did sig ∈ revoked_dids) then
    (store, Err (AuthorisationFailed
      "manager DID is REVOKED and cannot contribute revocation signatures"))
  else
    match
      public_key ← resolve_did (manager_did sig);
      verify public_key (signing_payload target) (signature sig)
    with
    | Err e => (store, Err e)
    | Ok _ =>
        let entry := default (mkPending target [] threshold_m threshold_n now None)
          (store !! target) in
        let sigs := p_signatures entry in
        let put sigs last := <[target := mkPending (p_target_did entry) sigs threshold_m
          threshold_n (initiated_at entry) last]> store in
        let last := last_receipt_timestamp entry in
        if existsb (fun s => bool_decide (manager_did s = manager_did sig)) sigs then
          (put sigs last, Err (AuthorisationFailed "duplicate signature from manager DID"))
        else if decide (threshold_m <= length sigs)%nat then (put sigs last, Ok Applied)
        else
          let sigs := sigs ++ [sig] in
          if decide (threshold_m <= length sigs)%nat then (put sigs (Some now), Ok Applied)
          else (put sigs last, Ok (Pending (length sigs) threshold_m))
    end.

Definition entry_status (p : PendingRevocation) : RevocationStatus :=
  if decide (p_threshold_m p <= length (p_signatures p))%nat then Applied
  else Pending (length (p_signatures p)) (p_threshold_m p).

Definition status (store : PendingRevocationStore) (target : Did) : option RevocationStatus :=
  entry_status <$> store !! target.

Definition last_revocation_receipt_timestamp (store : PendingRevocationStore) (target : Did)
  : option Z := store !! target ≫= last_receipt_timestamp.

Definition build_revocation_delta (store : PendingRevocationStore) (target : Did)
  : option RevocationDelta :=
  match store !! target with
  | None => None
  | Some entry =>
      if decide (length (p_signatures entry) < p_threshold_m entry)%nat then None
      else Some (mkRevDelta target (p_signatures entry)
             (default (initiated_at entry) (last_receipt_timestamp entry)))
  end.

Definition check_1_of_1_warning (threshold_m threshold_n : nat) : bool :=
  (threshold_m =? 1)%nat && (threshold_n =? 1)%nat.

(** ** The subsystem *)

Record RevocationSubsystem := mkSub {
  store : PendingRevocationStore;
  device_status : gmap string DeviceRevocationStatus;
  threshold_m : nat;
  threshold_n : nat;
  revoked_dids : list Did
}.

Definition new (m n : nat) : RevocationSubsystem := mkSub ∅ ∅ m n [].

(** [for sig in &delta.signatures]: the store and the last status. *)
Fixpoint add_all (s : RevocationSubsystem) (target : Did) (sigs : list ManagerSignature)
    (now : Z) (store : PendingRevocationStore) (last_status : option RevocationStatus)
  : PendingRevocationStore * option RevocationStatus :=
  match sigs with
  | [] => (store, last_status)
  | sig :: sigs =>
      let '(store, r) := add_signature store target sig (threshold_m s) (threshold_n s)
        (revoked_dids s) now in
      add_all s target sigs now store
        (match r with Ok st => Some st | Err _ => last_status end)
  end.

(** The body both builds share; [authored] are the deltas of the target. *)
Definition process (authored : list DeltaId) (s : RevocationSubsystem) (delta : RevocationDelta)
    (now : Z) : RevocationSubsystem * list Effect * Res RevocationStatus :=
  let target := target_did delta in
  if decide (target = "") then
    (s, [], Err (DeltaMalformed "RevocationDelta.target_did is empty"))
  else if decide (signatures delta = []) then (s, [], Err (ThresholdNotMet 0 (threshold_m s)))
  else
    let '(st, last_status) := add_all s target (signatures delta) now (store s) None in
    let s := mkSub st (device_status s) (threshold_m s) (threshold_n s) (revoked_dids s) in
    match (match last_status with Some x => Some x | None => status st target end) with
    | None => (s, [], Err (ThresholdNotMet 0 (threshold_m s)))
    | Some current_status =>
        if decide (current_status = Applied /\ target ∉ revoked_dids s) then
          let complete_delta := default delta (build_revocation_delta st target) in
          let s := mkSub st
            (<[target := mkStatus target Revoked (Some now)]> (device_status s))
            (threshold_m s) (threshold_n s) (revoked_dids s ++ [target]) in
          (s, OnRevocationApplied target complete_delta ::
              (if decide (authored = []) then [] else [OnCceTrigger target authored]),
           Ok current_status)
        else (s, [], Ok current_status)
    end.

(** Native: the authored deltas are a query on [dag_nodes]. *)
Definition process_incoming_delta `{!SelectOrder} (db : Dag.Tables) (s : RevocationSubsystem)
    (delta : RevocationDelta) (now : Z) :=
  process (Dag.nodes_by_author db (target_did delta)) s delta now.

(** WASM: an index the write and receive paths keep. *)
Record WasmRevocation := mkWasmRev {
  sub : RevocationSubsystem;
  authored_deltas : gmap string (gset N)
}.
Definition record_authored_delta (w : WasmRevocation) (author : Did) (delta_id : DeltaId)
  : WasmRevocation :=
  mkWasmRev (sub w)
    (<[author := {[delta_id]} ∪ default ∅ (authored_deltas w !! author)]> (authored_deltas w)).
Definition authored_delta_ids (w : WasmRevocation) (did : Did) : list DeltaId :=
  elements (default ∅ (authored_deltas w !! did)).
Definition process_incoming_delta_wasm (w : WasmRevocation) (delta : RevocationDelta) (now : Z)
  : WasmRevocation * list Effect * Res RevocationStatus :=
  let '(s, es, r) := process (authored_delta_ids w (target_did delta)) (sub w) delta now in
  (mkWasmRev s (authored_deltas w), es, r).

(** The signatures [validate_revocation_delta] counts. *)
Definition valid_sig (target : Did) (sig : ManagerSignature) : bool :=
  match resolve_did (manager_did sig) with
  | Ok public_key => is_ok (verify public_key (signing_payload target) (signature sig))
  | Err _ => false
  end.
Fixpoint count_valid (revoked : list Did) (target : Did) (sigs : list ManagerSignature)
    (seen_dids : list Did) : nat :=
  match sigs with
  | [] => 0
  | sig :: sigs =>
      if decide (manager_did sig ∈ revoked) then count_valid revoked target sigs seen_dids
      else if decide (manager_did sig ∈ seen_dids) then count_valid revoked target sigs seen_dids
      else
        ((if valid_sig target sig then 1 else 0) +
         count_valid revoked target sigs (manager_did sig :: seen_dids))%nat
  end.
Definition validate_revocation_delta (s : RevocationSubsystem) (delta : RevocationDelta)
  : Res unit :=
  if decide (target_did delta = "") then
    Err (DeltaMalformed "RevocationDelta.target_did is empty")
  else
    let valid_count := count_valid (revoked_dids s) (target_did delta) (signatures delta) [] in
    if decide (threshold_m s <= valid_count)%nat then Ok tt
    else Err (ThresholdNotMet valid_count (threshold_m s)).

Definition produce_partial_delta (target : Did) (manager : Did) (manager_signing_key : bytes)
    (now : Z) : Res RevocationDelta :=
  sig ← sign manager_signing_key (signing_payload target);
  Ok (mkRevDelta target [mkSig manager sig] now).

Definition build_recent_revocation_deltas (s : RevocationSubsystem) (within_micros now : Z)
  : list RevocationDelta :=
  let cutoff := now - within_micros in
  omap (build_revocation_delta (store s))
    (filter (fun did =>
      match device_status s !! did ≫= last_revocation_delta_received_at with
      | Some ts => cutoff <=? ts
      | None => false
      end = true) (revoked_dids s)).

(** ** Invariants *)

Definition sigs_of (st : PendingRevocationStore) (t : Did) : list ManagerSignature :=
  default [] (p_signatures <$> st !! t).

(** The signatures of an entry are of distinct managers and all verify. *)
Record entry_wf (m n : nat) (t : Did) (p : PendingRevocation) : Prop := {
  ew_target : p_target_did p = t;
  ew_m : p_threshold_m p = m;
  ew_nodup : NoDup (manager_did <$> p_signatures p);
  ew_valid : Forall (fun sig => valid_sig t sig = true) (p_signatures p)
}.
Definition store_wf (m n : nat) (st : PendingRevocationStore) : Prop :=
  map_Forall (entry_wf m n) st.

Lemma sigs_of_wf m n st t :
  store_wf m n st ->
  NoDup (manager_did <$> sigs_of st t) /\ Forall (fun sig => valid_sig t sig = true) (sigs_of st t).
Proof.
  intros Hst. unfold sigs_of. destruct (st !! t) as [p|] eqn:Hp; simpl; [|by repeat constructor].
  apply Hst in Hp. split; apply Hp.
Qed.

(** One signature: refused with the store as it was, or verified and then
    a duplicate, superfluous or recorded. *)
Lemma add_signature_spec st t sig m n rev now :
  let '(st', r) := add_signature st t sig m n rev now in
  (st' = st /\ (manager_did sig ∈ rev \/ valid_sig t sig = false) /\ exists e, r = Err e) \/
  (manager_did sig ∉ rev /\ valid_sig t sig = true /\ exists p,
    st' = <[t := p]> st /\ p_target_did p = default t (p_target_did <$> st !! t) /\
    p_threshold_m p = m /\
    ((manager_did sig ∈ manager_did <$> sigs_of st t /\ p_signatures p = sigs_of st t /\
       exists e, r = Err e) \/
     (manager_did sig ∉ manager_did <$> sigs_of st t /\
      p_signatures p = (if decide (m <= length (sigs_of st t))%nat then sigs_of st t
                        else sigs_of st t ++ [sig]) /\ r = Ok (entry_status p)))).
Proof.
  unfold add_signature, valid_sig, sigs_of. case_decide as Hrev; [left; eauto 10|].
  destruct (resolve_did (manager_did sig)) as [k|e]; simpl; [|left; eauto 10].
  destruct (verify k (signing_payload t) (signature sig)) as [[]|e]; simpl; [|left; eauto 10].
  assert (forall l, existsb (fun s => bool_decide (manager_did s = manager_did sig)) l = true
    <-> manager_did sig ∈ manager_did <$> l) as Hex.
  { intros l. rewrite existsb_exists, list_elem_of_fmap. setoid_rewrite bool_decide_eq_true.
    setoid_rewrite list_elem_of_In. naive_solver. }
  assert (p_signatures (default (mkPending t [] m n now None) (st !! t)) =
    default [] (p_signatures <$> st !! t)) as Hs by (by destruct (st !! t)).
  assert (p_target_did (default (mkPending t [] m n now None) (st !! t)) =
    default t (p_target_did <$> st !! t)) as Ht by (by destruct (st !! t)).
  rewrite Hs, Ht. set (sigs := default [] _). destruct (existsb _ sigs) eqn:Hdup.
  - right. split_and!; [done..|]. eexists. split_and!; [done..|]. left.
    split_and!; [by apply Hex|done|eauto].
  - assert (manager_did sig ∉ manager_did <$> sigs) as Hnin by (rewrite <- Hex; congruence).
    destruct (decide (m <= length sigs)%nat) as [Hm|Hm]; [|case_decide as Hm'];
      right; (split_and!; [done..|]); eexists; (split_and!; [done..|]); right;
      (split_and!; [done|done|]); unfold entry_status; cbn [p_threshold_m p_signatures].
    + by rewrite decide_True.
    + by rewrite decide_True.
    + by rewrite decide_False.
Qed.

Lemma add_signature_wf st t sig m n rev now :
  store_wf m n st -> store_wf m n (add_signature st t sig m n rev now).1.
Proof.
  intros Hst. pose proof (add_signature_spec st t sig m n rev now) as Hspec.
  destruct (add_signature _ _ _ _ _ _ _) as [st' r]. simpl.
  destruct Hspec as [[-> _]|(_ & Hv & p & -> & Ht & Hm & Hp)]; [done|].
  apply map_Forall_insert_2; [|done]. destruct (sigs_of_wf m n st t Hst) as [Hnd Hval].
  assert (p_target_did p = t) as Ht'.
  { rewrite Ht. destruct (st !! t) as [q|] eqn:Hq; [|done]. by apply Hst in Hq as []. }
  destruct Hp as [(_ & Hp & _)|(Hnin & Hp & _)]; split; try done; rewrite Hp; try done.
  - case_decide; [done|]. rewrite fmap_app. apply NoDup_app.
    split_and!; [done|set_solver|apply NoDup_singleton].
  - case_decide; [done|]. apply Forall_app_2; [done|]. by repeat constructor.
Qed.

(** A further signature never drops one, and reaches the threshold or records
    its manager when it is valid. *)
Lemma add_signature_mono st t sig m n rev now :
  store_wf m n st ->
  let st' := (add_signature st t sig m n rev now).1 in
  manager_did <$> sigs_of st t ⊆ manager_did <$> sigs_of st' t /\
  (length (sigs_of st t) <= length (sigs_of st' t))%nat /\
  (forall t', t' <> t -> st' !! t' = st !! t') /\
  (manager_did sig ∉ rev -> valid_sig t sig = true ->
    manager_did sig ∈ manager_did <$> sigs_of st' t \/ (m <= length (sigs_of st' t))%nat).
Proof.
  intros Hst. pose proof (add_signature_spec st t sig m n rev now) as Hspec.
  destruct (add_signature _ _ _ _ _ _ _) as [st' r]. simpl.
  destruct Hspec as [[-> [H1 _]]|(_ & Hv & p & -> & _ & _ & Hp)].
  - split_and!; [done..|]. intros Hn Hv. destruct H1; congruence.
  - assert (sigs_of (<[t:=p]> st) t = p_signatures p) as Hs.
    { unfold sigs_of. by rewrite lookup_insert_eq. }
    rewrite Hs. destruct Hp as [(Hin & -> & _)|(Hnin & -> & _)].
    + split_and!; [done..| |auto]. intros t' ?. by apply lookup_insert_ne.
    + split_and!; [| |intros t' ?; by apply lookup_insert_ne|intros _ _]; case_decide; try done.
      * rewrite fmap_app. set_solver.
      * rewrite length_app. lia.
      * by right.
      * left. rewrite fmap_app. set_solver.
Qed.

Lemma status_wf m n st t x :
  store_wf m n st -> status st t = Some x ->
  (x = Applied <-> (m <= length (sigs_of st t))%nat).
Proof.
  intros Hst. unfold status, sigs_of. destruct (st !! t) as [p|] eqn:Hp; simpl; [|done].
  intros [= <-]. unfold entry_status. apply Hst in Hp as [_ -> _ _].
  case_decide; split; done.
Qed.

Lemma add_all_spec s t sigs now st last :
  store_wf (threshold_m s) (threshold_n s) st ->
  (forall x, last = Some x -> status st t = Some x) ->
  let '(st', last') := add_all s t sigs now st last in
  store_wf (threshold_m s) (threshold_n s) st' /\
  (forall x, last' = Some x -> status st' t = Some x) /\
  manager_did <$> sigs_of st t ⊆ manager_did <$> sigs_of st' t /\
  (length (sigs_of st t) <= length (sigs_of st' t))%nat /\
  (forall t', t' <> t -> st' !! t' = st !! t') /\
  (forall sig, sig ∈ sigs -> manager_did sig ∉ revoked_dids s -> valid_sig t sig = true ->
    manager_did sig ∈ manager_did <$> sigs_of st' t \/
    (threshold_m s <= length (sigs_of st' t))%nat).
Proof.
  revert st last. induction sigs as [|sig sigs IH]; intros st last Hst Hlast; cbn [add_all].
  { split_and!; [done..|]. set_solver. }
  pose proof (add_signature_spec st t sig (threshold_m s) (threshold_n s) (revoked_dids s) now) as Hspec.
  pose proof (add_signature_wf st t sig (threshold_m s) (threshold_n s) (revoked_dids s) now Hst) as Hwf.
  pose proof (add_signature_mono st t sig (threshold_m s) (threshold_n s) (revoked_dids s) now Hst) as Hmono.
  destruct (add_signature _ _ _ _ _ _ _) as [st1 r]. simpl in Hwf, Hmono.
  destruct Hmono as (Hsub & Hle & Hne & Hadd).
  specialize (IH st1 (match r with Ok st => Some st | Err _ => last end) Hwf).
  destruct (add_all _ _ _ _ _ _) as [st' last']. destruct IH as (H1 & H2 & H3 & H4 & H5 & H6).
  - intros x Hx. destruct Hspec as [(-> & _ & e & ->)|(_ & _ & p & -> & _ & Hm & Hp)]; [by apply Hlast|].
    unfold status. rewrite lookup_insert_eq.
    destruct Hp as [(_ & Hp & e & ->)|(_ & _ & ->)]; [|done]. apply Hlast in Hx.
    unfold status, sigs_of in *. destruct (st !! t) as [q|] eqn:Hq; [|done]. simpl in *.
    rewrite <- Hx. unfold entry_status. rewrite Hp, Hm. by apply Hst in Hq as [_ -> _ _].
  - split_and!; [done|done|set_solver|lia|intros; by rewrite H5, Hne|].
    intros sig' [->|Hin]%elem_of_cons Hrev Hv; [|by apply H6].
    destruct (Hadd Hrev Hv); [left; set_solver|right; lia].
Qed.

Record sub_wf (s : RevocationSubsystem) : Prop := {
  sw_store : store_wf (threshold_m s) (threshold_n s) (store s);
  sw_nodup : NoDup (revoked_dids s);
  sw_applied : forall t, t ∈ revoked_dids s -> (threshold_m s <= length (sigs_of (store s) t))%nat;
  sw_status : forall t, t ∈ revoked_dids s <->
    exists now, device_status s !! t = Some (mkStatus t Revoked (Some now))
}.

Lemma new_sub_wf m n : sub_wf (new m n).
Proof.
  split; [apply map_Forall_empty|constructor|simpl; set_solver|].
  intros t. split; [simpl; set_solver|]. by intros (? & ?).
Qed.

(** The targets an output announces as revoked. *)
Definition announced (es : list Effect) : list Did :=
  omap (fun e => match e with OnRevocationApplied t _ => Some t | _ => None end) es.

(** One incoming delta. *)
Lemma process_spec authored s delta now :
  sub_wf s ->
  let '(s', es, r) := process authored s delta now in
  let t := target_did delta in
  sub_wf s' /\ threshold_m s' = threshold_m s /\ threshold_n s' = threshold_n s /\
  revoked_dids s' = revoked_dids s ++ announced es /\
  (manager_did <$> sigs_of (store s) t ⊆ manager_did <$> sigs_of (store s') t) /\
  (r = Ok Applied -> t ∈ revoked_dids s') /\
  (es = [] \/ exists complete, (threshold_m s <= length (signatures complete))%nat /\
    target_did complete = t /\ signatures complete = sigs_of (store s') t /\
    es = OnRevocationApplied t complete ::
         (if decide (authored = []) then [] else [OnCceTrigger t authored])).
Proof.
  intros Hs. unfold process. set (t := target_did delta).
  case_decide; [simpl; rewrite app_nil_r; split_and!; auto; done|].
  case_decide; [simpl; rewrite app_nil_r; split_and!; auto; done|].
  destruct Hs as [Hst Hnd Happ Hdev].
  pose proof (add_all_spec s t (signatures delta) now (store s) None Hst) as Hall.
  destruct (add_all _ _ _ _ _ _) as [st last]. destruct Hall as (H1 & H2 & H3 & H4 & H5 & H6); [done|].
  cbn [threshold_m threshold_n revoked_dids device_status].
  assert (forall t', t' ∈ revoked_dids s -> (threshold_m s <= length (sigs_of st t'))%nat) as Happ'.
  { intros t' Ht'. apply Happ in Ht'. destruct (decide (t' = t)) as [->|Hne]; [lia|].
    unfold sigs_of in *. by rewrite H5. }
  assert (forall x, (match last with Some x => Some x | None => status st t end) = Some x ->
    status st t = Some x) as Hcur by (destruct last; auto).
  destruct (match last with Some x => Some x | None => status st t end) as [cur|]; last first.
  { simpl. rewrite app_nil_r. split_and!; auto; done. }
  specialize (Hcur _ eq_refl). pose proof (status_wf _ _ _ _ _ H1 Hcur) as Hcur'.
  case_decide as Hap; cbn [threshold_m threshold_n revoked_dids store].
  - destruct Hap as [-> Hnin]. destruct Hcur' as [Hcur' _]. specialize (Hcur' eq_refl).
    assert (exists at_, build_revocation_delta st t = Some (mkRevDelta t (sigs_of st t) at_))
      as [at_ Hb].
    { unfold status, build_revocation_delta, sigs_of in *. destruct (st !! t) as [p|] eqn:Hp; [|done].
      simpl in *. apply H1 in Hp as [_ -> _ _]. rewrite decide_False by lia. eauto. }
    split_and!; [|done|done| |done|set_solver|].
    + split; cbn [threshold_m threshold_n revoked_dids store device_status].
      * done.
      * apply NoDup_app. split_and!; [done|set_solver|apply NoDup_singleton].
      * intros t' [?| ->%list_elem_of_singleton]%elem_of_app; auto.
      * intros t'. rewrite elem_of_app, list_elem_of_singleton.
        destruct (decide (t' = t)) as [->|Hne].
        -- rewrite lookup_insert_eq. naive_solver.
        -- rewrite lookup_insert_ne by done. rewrite Hdev. naive_solver.
    + unfold announced. simpl. by case_decide.
    + right. rewrite Hb. by exists (mkRevDelta t (sigs_of st t) at_).
  - rewrite app_nil_r. split_and!; try done.
    + intros [= ->]. destruct (decide (t ∈ revoked_dids s)); [done|]. by destruct Hap.
    + by left.
Qed.

(** ** Histories *)

(** An incoming delta, the deltas its target authored and the time. *)
Record Incoming := mkIncoming {
  i_authored : list DeltaId;
  i_delta : RevocationDelta;
  i_now : Z
}.

Fixpoint run (s : RevocationSubsystem) (evs : list Incoming)
  : RevocationSubsystem * list Effect :=
  match evs with
  | [] => (s, [])
  | ev :: evs =>
      let '(s, es, _) := process (i_authored ev) s (i_delta ev) (i_now ev) in
      let '(s', es') := run s evs in (s', es ++ es')
  end.

(** A revocation that carries enough signatures of distinct managers. *)
Definition authorised (m : nat) (d : RevocationDelta) : Prop :=
  (m <= length (signatures d))%nat /\ NoDup (manager_did <$> signatures d) /\
  forall sig, sig ∈ signatures d -> exists k, resolve_did (manager_did sig) = Ok k /\
    ed_verify k (signing_payload (target_did d)) (signature sig) = true.

Lemma valid_sig_key t sig :
  valid_sig t sig = true ->
  exists k, resolve_did (manager_did sig) = Ok k /\
    ed_verify k (signing_payload t) (signature sig) = true.
Proof.
  unfold valid_sig. destruct (resolve_did _) as [k|]; [|done].
  destruct (verify _ _ _) as [[]|] eqn:Hv; [|done]. intros _. exists k.
  by apply verify_ok in Hv as (_ & _ & ?).
Qed.

Lemma announced_app es es' : announced (es ++ es') = announced es ++ announced es'.
Proof. apply omap_app. Qed.

Lemma run_spec s evs :
  sub_wf s ->
  let '(s', es) := run s evs in
  sub_wf s' /\ threshold_m s' = threshold_m s /\ threshold_n s' = threshold_n s /\
  revoked_dids s' = revoked_dids s ++ announced es /\
  forall t d, OnRevocationApplied t d ∈ es -> target_did d = t /\ authorised (threshold_m s) d.
Proof.
  revert s. induction evs as [|ev evs IH]; intros s Hs; cbn [run].
  { simpl. rewrite app_nil_r. split_and!; try done. set_solver. }
  pose proof (process_spec (i_authored ev) s (i_delta ev) (i_now ev) Hs) as Hp.
  destruct (process _ _ _ _) as [[s1 es1] r]. destruct Hp as (Hs1 & Hm & Hn & Hr & _ & _ & Hes).
  specialize (IH s1 Hs1). destruct (run s1 evs) as [s' es']. destruct IH as (H1 & H2 & H3 & H4 & H5).
  split_and!; [done|congruence|congruence| |].
  - by rewrite H4, Hr, announced_app, app_assoc.
  - intros t d [Hin|Hin]%elem_of_app; [|rewrite <- Hm; by apply H5].
    destruct Hes as [->|(c & Hlen & Ht & Hsig & ->)]; [set_solver|].
    assert (OnRevocationApplied t d = OnRevocationApplied (target_did (i_delta ev)) c) as [= -> ->].
    { apply elem_of_cons in Hin as [->|Hin]; [done|].
      case_decide; [set_solver|]. apply list_elem_of_singleton in Hin. done. }
    split; [done|]. rewrite <- Hm. destruct (sigs_of_wf _ _ _ (target_did (i_delta ev)) (sw_store _ Hs1))
      as [Hnd Hval].
    split_and!; [congruence|by rewrite Hsig|].
    rewrite Hsig, Ht. intros sig Hsig'. apply valid_sig_key.
    rewrite Forall_forall in Hval. by apply Hval.
Qed.

(** C30: no device is revoked without M signatures.  After any history of
    incoming deltas, valid or not, the devices recorded as revoked are exactly
    those the gossip callback announced, each of them once, and every
    announcement carries at least M signatures of pairwise distinct DIDs,
    each valid for the target under the key its DID encodes. *)
Theorem revocation_sound m n evs :
  let '(s, es) := run (new m n) evs in
  announced es = revoked_dids s /\ NoDup (revoked_dids s) /\
  (forall t, t ∈ revoked_dids s <->
    exists now, device_status s !! t = Some (mkStatus t Revoked (Some now))) /\
  forall t d, OnRevocationApplied t d ∈ es -> target_did d = t /\ authorised m d.
Proof.
  pose proof (run_spec (new m n) evs (new_sub_wf m n)) as H.
  destruct (run _ _) as [s es]. destruct H as ([] & _ & _ & Hr & Hes). split_and!; auto.
Qed.

(** The managers [count_valid] counted. *)
Lemma count_valid_spec rev t sigs seen :
  exists ds, length ds = count_valid rev t sigs seen /\ NoDup ds /\
    forall d, d ∈ ds -> d ∉ seen /\ exists sig, sig ∈ sigs /\ manager_did sig = d /\
      d ∉ rev /\ valid_sig t sig = true.
Proof.
  revert seen. induction sigs as [|sig sigs IH]; intros seen; cbn [count_valid].
  { exists []. split_and!; [done|constructor|set_solver]. }
  case_decide as Hrev; [|case_decide as Hseen].
  - destruct (IH seen) as (ds & ? & ? & Hds). exists ds. split_and!; [done..|].
    intros d (? & sig' & ? & ?)%Hds. split; [done|]. exists sig'. split; [by right|done].
  - destruct (IH seen) as (ds & ? & ? & Hds). exists ds. split_and!; [done..|].
    intros d (? & sig' & ? & ?)%Hds. split; [done|]. exists sig'. split; [by right|done].
  - destruct (IH (manager_did sig :: seen)) as (ds & Hl & Hnd & Hds).
    assert (forall d, d ∈ ds -> d ∉ seen /\ exists s, s ∈ sig :: sigs /\ manager_did s = d /\
      d ∉ rev /\ valid_sig t s = true) as Hds'.
    { intros d (Hn & sig' & ? & ?)%Hds. apply not_elem_of_cons in Hn as [_ ?].
      split; [done|]. exists sig'. split; [by right|done]. }
    destruct (valid_sig t sig) eqn:Hv; [|exists ds; split_and!; [lia|done..]].
    exists (manager_did sig :: ds). split_and!; [simpl; lia| |].
    + constructor; [|done]. intros [Hn _]%Hds. set_solver.
    + intros d [->|Hd]%elem_of_cons; [|by apply Hds'].
      split; [done|]. exists sig. split_and!; [left|done..].
Qed.

Lemma validated_is_applied_spec authored s delta now :
  sub_wf s -> (0 < threshold_m s)%nat -> validate_revocation_delta s delta = Ok tt ->
  let '(s', _, r) := process authored s delta now in
  r = Ok Applied /\ target_did delta ∈ revoked_dids s'.
Proof.
  intros Hs Hm Hval.
  pose proof (process_spec authored s delta now Hs) as Hspec.
  destruct (process authored s delta now) as [[s' es] r] eqn:Hp.
  destruct Hspec as (_ & _ & _ & _ & _ & Happ & _).
  assert (r = Ok Applied) as ->; [|auto]. clear Happ.
  unfold validate_revocation_delta in Hval. case_decide as Hne; [done|].
  case_decide as Hcnt; [|done]. unfold process in Hp. rewrite decide_False in Hp by done.
  destruct (count_valid_spec (revoked_dids s) (target_did delta) (signatures delta) [])
    as (ds & Hl & Hnd & Hds).
  rewrite decide_False in Hp.
  2:{ intros Hnil. rewrite Hnil in Hcnt. simpl in Hcnt. lia. }
  pose proof (add_all_spec s (target_did delta) (signatures delta) now (store s) None
    (sw_store _ Hs)) as Hall.
  destruct (add_all _ _ _ _ _ _) as [st last]. destruct Hall as (H1 & H2 & _ & _ & _ & H6); [done|].
  assert (threshold_m s <= length (sigs_of st (target_did delta)))%nat as Hfull.
  { destruct (decide (threshold_m s <= length (sigs_of st (target_did delta)))%nat) as [|Hlt]; [done|].
    assert (ds ⊆+ (manager_did <$> sigs_of st (target_did delta))) as Hsub.
    { apply NoDup_submseteq; [done|]. intros d (_ & sig & Hin & <- & Hrev & Hv)%Hds.
      by destruct (H6 sig Hin Hrev Hv). }
    apply submseteq_length in Hsub. rewrite length_fmap in Hsub. lia. }
  assert (status st (target_did delta) = Some Applied) as Hst.
  { destruct (status st (target_did delta)) as [x|] eqn:Hx.
    - f_equal. by apply (status_wf _ _ _ _ _ H1 Hx).
    - unfold status, sigs_of in *. destruct (st !! _); [done|]. simpl in Hfull. lia. }
  assert ((match last with Some x => Some x | None => status st (target_did delta) end)
    = Some Applied) as Hcur.
  { destruct last as [x|]; [|done]. rewrite <- Hst. symmetry. auto. }
  rewrite Hcur in Hp. cbn [revoked_dids] in Hp. case_decide; by injection Hp.
Qed.

(** Whatever [validate_revocation_delta] accepts, one call of the
    processing applies: at least M signatures of distinct, not revoked
    managers that verify make the status [Applied] and the target revoked,
    in any state the subsystem can be in. *)
Theorem validated_is_applied authored s delta now :
  sub_wf s -> (0 < threshold_m s)%nat -> validate_revocation_delta s delta = Ok tt ->
  let '(s', _, r) := process authored s delta now in
  r = Ok Applied /\ target_did delta ∈ revoked_dids s'.
Proof. apply validated_is_applied_spec. Qed.

(** ** Partial revocations gossiped one by one *)

(** A partial delta with one signature, by a manager that is not revoked. *)
Lemma process_partial s t sig at_ now :
  sub_wf s -> t <> "" -> valid_sig t sig = true -> manager_did sig ∉ revoked_dids s ->
  let '(s', _, r) := process [] s (mkRevDelta t [sig] at_) now in
  (manager_did sig ∈ manager_did <$> sigs_of (store s') t \/
     (threshold_m s <= length (sigs_of (store s') t))%nat) /\
  (length (sigs_of (store s') t) <= S (length (sigs_of (store s) t)))%nat /\
  ((threshold_m s <= length (sigs_of (store s') t))%nat -> t ∈ revoked_dids s') /\
  (forall t', t' ∈ revoked_dids s' -> t' ∈ revoked_dids s \/ t' = t).
Proof.
  intros Hs Ht Hv Hrev. unfold process. cbn [target_did signatures].
  rewrite !decide_False by done. cbn [add_all].
  pose proof (add_signature_spec (store s) t sig (threshold_m s) (threshold_n s) (revoked_dids s) now) as Hspec.
  pose proof (add_signature_wf (store s) t sig (threshold_m s) (threshold_n s) (revoked_dids s) now
    (sw_store _ Hs)) as Hwf.
  pose proof (add_signature_mono (store s) t sig (threshold_m s) (threshold_n s) (revoked_dids s) now
    (sw_store _ Hs)) as (_ & _ & _ & Hadd).
  destruct (add_signature _ _ _ _ _ _ _) as [st r]. simpl in Hwf, Hadd. specialize (Hadd Hrev Hv).
  destruct Hspec as [(-> & [?|?] & _)|(_ & _ & p & -> & _ & Hm & Hp)]; [done|congruence|].
  set (st := <[t:=p]> (store s)) in *.
  assert (sigs_of st t = p_signatures p) as Hs' by (unfold sigs_of, st; by rewrite lookup_insert_eq).
  assert (status st t = Some (entry_status p)) as Hst by (unfold status, st; by rewrite lookup_insert_eq).
  assert (match match r with Ok st => Some st | Err _ => None end with
    | Some x => Some x | None => status st t end = Some (entry_status p)) as Hcur.
  { by destruct Hp as [(_ & _ & e & ->)|(_ & _ & ->)]. }
  pose proof (status_wf _ _ _ _ _ Hwf Hst) as Happ.
  assert (length (p_signatures p) <= S (length (sigs_of (store s) t)))%nat as Hlen.
  { destruct Hp as [(_ & -> & _)|(_ & -> & _)]; [lia|]. case_decide; rewrite ?length_app; simpl; lia. }
  rewrite Hcur. cbn [revoked_dids device_status threshold_m threshold_n].
  destruct (decide (entry_status p = Applied /\ t ∉ revoked_dids s)) as [Hap|Hap];
    cbn [store revoked_dids]; rewrite Hs' in *.
  - split_and!; [done|done|set_solver|set_solver].
  - split_and!; [done|done| |by left]. intros Hfull%Happ.
    destruct (decide (t ∈ revoked_dids s)); [done|]. by destruct Hap.
Qed.

(** The partial delta of the manager whose key is grown from a seed. *)
Definition partial (t : Did) (now : Z) (seed : bytes) : Incoming :=
  mkIncoming []
    (mkRevDelta t [mkSig (derive_did (ed_public seed)) (ed_sign seed (signing_payload t))] now)
    now.

Lemma valid_partial t seed :
  valid_sig t (mkSig (derive_did (ed_public seed)) (ed_sign seed (signing_payload t))) = true.
Proof.
  unfold valid_sig. cbn [manager_did signature].
  rewrite resolve_derive by (apply ed_public_length || apply ed_public_bytes).
  by rewrite verify_sign.
Qed.

Lemma run_cons s ev evs :
  (run s (ev :: evs)).1 = (run (process (i_authored ev) s (i_delta ev) (i_now ev)).1.1 evs).1.
Proof.
  cbn [run]. destruct (process _ _ _ _) as [[s1 es] r]. simpl. by destruct (run s1 evs).
Qed.

Lemma run_partials s t now seeds :
  sub_wf s -> t <> "" -> (forall t', t' ∈ revoked_dids s -> t' = t) ->
  t ∉ derive_did ∘ ed_public <$> seeds ->
  let s' := (run s (partial t now <$> seeds)).1 in
  let dids := derive_did ∘ ed_public <$> seeds in
  sub_wf s' /\ threshold_m s' = threshold_m s /\
  (length (sigs_of (store s') t) <= length (sigs_of (store s) t) + length seeds)%nat /\
  (t ∈ revoked_dids s -> t ∈ revoked_dids s') /\
  (t ∉ revoked_dids s' -> manager_did <$> sigs_of (store s) t ⊆ manager_did <$> sigs_of (store s') t /\
    dids ⊆ manager_did <$> sigs_of (store s') t /\
    (seeds <> [] -> length (sigs_of (store s') t) < threshold_m s')%nat).
Proof.
  revert s. induction seeds as [|seed seeds IH]; intros s Hs Ht Hrev Hself.
  { simpl. split_and!; try done; [lia|]. intros _. split_and!; [done|set_solver|done]. }
  rewrite fmap_cons, run_cons. set (ev := partial t now seed).
  set (sig := mkSig (derive_did (ed_public seed)) (ed_sign seed (signing_payload t))).
  pose proof (process_spec [] s (i_delta ev) now Hs) as Hspec.
  change (i_authored ev) with (@nil DeltaId). change (i_now ev) with now.
  assert (manager_did sig ∉ revoked_dids s) as Hnin.
  { intros Hin%Hrev. apply Hself. rewrite fmap_cons, <- Hin. left. }
  pose proof (process_partial s t sig now now Hs Ht (valid_partial t seed) Hnin) as Hp.
  change (mkRevDelta t [sig] now) with (i_delta ev) in Hp.
  destruct (process [] s (i_delta ev) now) as [[s1 es] r]. simpl.
  destruct Hspec as (Hs1 & Hm & _ & Hr & Hsub & _). destruct Hp as (Hadd & Hlen & Hfull & Hin1).
  change (target_did (i_delta ev)) with t in Hsub.
  assert (forall t', t' ∈ revoked_dids s1 -> t' = t) as Hrev1.
  { intros t' [?|?]%Hin1; auto. }
  assert (t ∉ derive_did ∘ ed_public <$> seeds) as Hself1.
  { intros Hin. apply Hself. rewrite fmap_cons. by right. }
  destruct (IH s1 Hs1 Ht Hrev1 Hself1) as (H1 & H2 & H3 & H4 & H5).
  split_and!; [done|congruence|lia|intros ?; apply H4; rewrite Hr; set_solver|].
  intros Hnot. destruct (H5 Hnot) as (H6 & H7 & H8).
  assert (length (sigs_of (store s1) t) < threshold_m s)%nat as Hlt.
  { destruct (decide (threshold_m s <= length (sigs_of (store s1) t))%nat); [|lia]. naive_solver. }
  assert (manager_did sig ∈ manager_did <$> sigs_of (store s1) t) by (destruct Hadd; [done|lia]).
  split_and!; [set_solver| |].
  + intros d Hd. apply elem_of_cons in Hd as [->|Hd]; [by apply H6|by apply H7].
  + intros _. destruct seeds; [simpl in *; lia|by apply H8].
Qed.

(** Partial revocations for a target gossiped one by one, each signed
    with the key of another DID, revoke the target exactly when M of them
    have arrived.  Any M keys do: the subsystem holds no list of managers. *)
Theorem gossip_reaches_threshold m n t now seeds :
  (0 < m)%nat -> t <> "" -> NoDup (derive_did ∘ ed_public <$> seeds) ->
  t ∉ derive_did ∘ ed_public <$> seeds ->
  t ∈ revoked_dids (run (new m n) (partial t now <$> seeds)).1 <-> (m <= length seeds)%nat.
Proof.
  intros Hm Ht Hnd Hself.
  destruct (run_partials (new m n) t now seeds (new_sub_wf m n) Ht) as (Hs & Hm' & Hle & _ & Hnot);
    [simpl; set_solver|done|].
  set (s' := (run _ _).1) in *. change (sigs_of (store (new m n)) t) with (@nil ManagerSignature) in *.
  change (threshold_m (new m n)) with m in *. split.
  - intros Hin%(sw_applied _ Hs). simpl in Hle. lia.
  - intros Hlen. destruct (decide (t ∈ revoked_dids s')) as [|Hout]; [done|].
    destruct (Hnot Hout) as (_ & Hsub & Hlt).
    assert (derive_did ∘ ed_public <$> seeds ⊆+ manager_did <$> sigs_of (store s') t) as Hsm
      by (by apply NoDup_submseteq).
    apply submseteq_length in Hsm. rewrite !length_fmap in Hsm.
    destruct seeds; [simpl in *; lia|]. specialize (Hlt ltac:(done)). lia.
Qed.
End Revocation.
End Revocation.

(** ** Witnesses, with the toy signatures *)

Section Witnesses.
#[local] Existing Instance toy_bs58.
#[local] Existing Instance toy_ed25519.
Import Revocation.

Definition toy_delta : RevocationDelta :=
  mkRevDelta "dev" (flat_map (fun ev => signatures (i_delta ev))
    (partial id "dev" 9 <$> [[1]; [2]]%N)) 9.

Lemma validated_is_applied_witness :
  let '(s', _, r) := process id [] (new 2 3) toy_delta 9 in
  r = Ok Applied /\ target_did toy_delta ∈ revoked_dids s'.
Proof.
  refine (validated_is_applied id [] (new 2 3) toy_delta 9 (new_sub_wf id 2 3) _ _).
  - simpl. lia.
  - vm_compute. reflexivity.
Defined.

Lemma gossip_reaches_threshold_witness :
  "dev" ∈ revoked_dids (run id (new 2 3) (partial id "dev" 9 <$> [[1]; [2]]%N)).1.
Proof.
  refine (proj2 (gossip_reaches_threshold id 2 3 "dev" 9 [[1]; [2]]%N _ _ _ _) _).
  - lia.
  - discriminate.
  - by_decide.
  - by_decide.
  - simpl. lia.
Defined.
End Witnesses.
