(* ===== verification/Saturate.v ===== *)
(** * Saturate mode: [transport/saturate.rs]

    The mode machine a DISASTER_ALERT token opens, heartbeats extend, and lease
    expiry or an M-of-N termination closes.  Tokens are checked by
    [Biscuit.verify_and_check_caveat], signatures with the key a DID spells. *)

From S2P Require Import Prelude Types Identity Auth.

Module Saturate.
Import Did Keypair.

Definition SATURATE_LEASE_DURATION_SECS : Z := 60 * 60.
Definition RENEWAL_WINDOW_SECS : Z := 15 * 60.

Inductive SaturateState := Normal | Saturate.

#[export] Instance SaturateState_eq_dec : EqDecision SaturateState.
Proof. solve_decision. Defined.

Record SaturateLease := mkLease {
  activated_at : Z;
  expires_at : Z;
  last_renewed_at : option Z;
  activating_manager_did : Did
}.

Definition is_expired (l : SaturateLease) (now_secs : Z) : bool := expires_at l <=? now_secs.
Definition in_renewal_window (l : SaturateLease) (now_secs : Z) : bool :=
  let window_start := wrap_i64 (expires_at l - RENEWAL_WINDOW_SECS) in
  (window_start <=? now_secs) && (now_secs <? expires_at l).

Record SaturateModeStateMachine := mkMachine {
  state : SaturateState;
  lease : option SaturateLease;
  termination_threshold_m : nat;
  root_ca_public_key : bytes;
  lease_duration_secs : Z
}.

Definition new (m : nat) (root_ca : bytes) (duration : Z) : SaturateModeStateMachine :=
  mkMachine Normal None m root_ca duration.

Definition set_mode (s : SaturateModeStateMachine) (st : SaturateState) (l : option SaturateLease)
  : SaturateModeStateMachine :=
  mkMachine st l (termination_threshold_m s) (root_ca_public_key s) (lease_duration_secs s).

Section Machine.
Context {BS : Bs58} {ED : Ed25519} {BL : BiscuitLib}.

(** ** Signatures of DIDs *)

Definition decode_multibase_z (s : string) : option bytes :=
  s ← strip_prefix "z" s; bs58_decode s.

Definition verify_did_signature (did : string) (sig_bytes message : bytes) : bool :=
  match strip_prefix "did:key:" did with
  | None => false
  | Some key_part =>
      match decode_multibase_z key_part with
      | Some (b0 :: b1 :: key_bytes) =>
          if (b0 =? 0xED)%N && (b1 =? 0x01)%N then
            if decide (length key_bytes = 32%nat) then
              if ed_key_ok key_bytes then
                if decide (length sig_bytes = 64%nat)
                then ed_verify key_bytes message sig_bytes else false
              else false
            else false
          else false
      | _ => false
      end
  end.

Fixpoint count_loop (signatures : list (Did * bytes)) (message : bytes) (seen_dids : gset string)
  : gset string :=
  match signatures with
  | [] => seen_dids
  | (did, sig_bytes) :: signatures =>
      if decide (did ∈ seen_dids) then count_loop signatures message seen_dids
      else if verify_did_signature did sig_bytes message
      then count_loop signatures message ({[did]} ∪ seen_dids)
      else count_loop signatures message seen_dids
  end.
Definition count_valid_distinct_signatures (signatures : list (Did * bytes)) (message : bytes)
  : nat := size (count_loop signatures message ∅).

(** ** The machine *)

Definition verify_disaster_alert_token (s : SaturateModeStateMachine) (biscuit_token : bytes)
    (now_secs : Z) : Res unit :=
  if decide (biscuit_token = []) then
    Err (SignatureVerificationFailed "DISASTER_ALERT token is absent")
  else
    has_caveat ← map_err
      (fun _ => SignatureVerificationFailed "DISASTER_ALERT token verification failed")
      (Biscuit.verify_and_check_caveat biscuit_token "disaster-alert" (root_ca_public_key s)
        now_secs);
    if negb has_caveat then
      Err (SignatureVerificationFailed
        "DISASTER_ALERT token does not carry the 'disaster-alert' caveat")
    else Ok tt.

Definition activate (s : SaturateModeStateMachine) (manager_did : Did) (biscuit_token : bytes)
    (now_secs : Z) : SaturateModeStateMachine * Res unit :=
  match verify_disaster_alert_token s biscuit_token now_secs with
  | Err e => (s, Err e)
  | Ok _ =>
      let expires_at := wrap_i64 (now_secs + lease_duration_secs s) in
      (set_mode s Saturate (Some (mkLease now_secs expires_at None manager_did)), Ok tt)
  end.

Definition renew (s : SaturateModeStateMachine) (manager_did : Did) (biscuit_token : bytes)
    (now_secs : Z) : SaturateModeStateMachine * Res unit :=
  if decide (state s <> Saturate) then
    (s, Err (SignatureVerificationFailed
      "heartbeat renewal rejected: not in SATURATE mode"))
  else
    match verify_disaster_alert_token s biscuit_token now_secs with
    | Err e => (s, Err e)
    | Ok _ =>
        match lease s with
        | Some l =>
            (set_mode s (state s) (Some (mkLease (activated_at l)
              (wrap_i64 (now_secs + lease_duration_secs s)) (Some now_secs)
              (activating_manager_did l))), Ok tt)
        | None =>
            (s, Err (SignatureVerificationFailed
              "heartbeat renewal rejected: no active lease"))
        end
    end.

Definition terminate (s : SaturateModeStateMachine) (signatures : list (Did * bytes))
    (message : bytes) (now_secs : Z) : SaturateModeStateMachine * Res unit :=
  if decide (state s <> Saturate) then (s, Ok tt)
  else
    let valid_distinct := count_valid_distinct_signatures signatures message in
    if (valid_distinct <? termination_threshold_m s)%nat then
      (s, Err (ThresholdNotMet valid_distinct (termination_threshold_m s)))
    else (set_mode s Normal None, Ok tt).

Definition tick (s : SaturateModeStateMachine) (now_secs : Z) : SaturateModeStateMachine :=
  if decide (state s = Saturate) then
    match lease s with
    | Some l => if is_expired l now_secs then set_mode s Normal None else s
    | None => s
    end
  else s.

(** ** Two ways to check a DID's signature agree *)

Lemma strip_prefix_split p q s :
  strip_prefix (p +:+ q) s = (strip_prefix p s ≫= strip_prefix q).
Proof.
  revert s. induction p as [|a p IH]; intros s; [done|].
  destruct s as [|b s]; [done|].
  change (String a p +:+ q) with (String a (p +:+ q)). cbn [strip_prefix].
  case_decide; [apply IH|done].
Qed.

(** The signature check of this file and the one of the identity component
    ([resolve_did] then [verify]) accept the same signatures. *)
Theorem verify_did_signature_agrees did sig msg :
  verify_did_signature did sig msg =
  match resolve_did did with Ok k => is_ok (verify k msg sig) | Err _ => false end.
Proof.
  unfold verify_did_signature, resolve_did, decode_multibase_z.
  change "did:key:z" with ("did:key:" +:+ "z"). rewrite strip_prefix_split.
  destruct (strip_prefix "did:key:" did) as [k|]; [|done].
  change (Some k ≫= strip_prefix "z") with (strip_prefix "z" k).
  destruct (strip_prefix "z" k) as [e|]; [|done]. simpl.
  destruct (bs58_decode e) as [[|b0 [|b1 key]]|]; simpl; try done.
  destruct (_ && _); [|done]. case_decide; [|done]. unfold verify, as_bytes.
  destruct (ed_key_ok key); simpl; [|done]. case_decide; simpl; [|done].
  by destruct (ed_verify key msg sig).
Qed.

(** The set counted: the DIDs with a valid signature in the list. *)
Lemma elem_of_count_loop sigs msg seen d :
  d ∈ count_loop sigs msg seen <->
  d ∈ seen \/ exists sig, (d, sig) ∈ sigs /\ verify_did_signature d sig msg = true.
Proof.
  revert seen. induction sigs as [|[d' sig'] sigs IH]; intros seen; cbn [count_loop].
  - split; [by left|]. intros [?|(? & ?%elem_of_nil & _)]; done.
  - assert ((exists sig, (d, sig) ∈ (d', sig') :: sigs /\ verify_did_signature d sig msg = true) <->
      (d = d' /\ verify_did_signature d' sig' msg = true) \/
      exists sig, (d, sig) ∈ sigs /\ verify_did_signature d sig msg = true) as Hcons.
    { setoid_rewrite elem_of_cons. split.
      - intros (sig & [[= -> ->]|?] & ?); eauto.
      - intros [[-> ?]|(sig & ? & ?)]; eauto. }
    rewrite Hcons. destruct (decide (d' ∈ seen)); [|destruct (verify_did_signature d' sig' msg)];
      rewrite IH, ?elem_of_union, ?elem_of_singleton; intuition (subst; auto; congruence).
Qed.

(** ** Histories *)

Inductive Event :=
| Activate (manager_did : Did) (token : bytes) (now : Z)
| Renew (manager_did : Did) (token : bytes) (now : Z)
| Terminate (signatures : list (Did * bytes)) (message : bytes) (now : Z)
| Tick (now : Z).

Definition apply_event (s : SaturateModeStateMachine) (e : Event)
  : SaturateModeStateMachine * Res unit :=
  match e with
  | Activate d token now => activate s d token now
  | Renew d token now => renew s d token now
  | Terminate sigs msg now => terminate s sigs msg now
  | Tick now => (tick s now, Ok tt)
  end.
Definition run (s : SaturateModeStateMachine) (es : list Event) : SaturateModeStateMachine :=
  foldl (fun s e => (apply_event s e).1) s es.

(** A machine in saturate mode holds a lease, and only then. *)
Definition wf (s : SaturateModeStateMachine) : Prop :=
  state s = Saturate <-> is_Some (lease s).

(** A token that opens or extends the lease at [now]. *)
Definition alert (root_ca token : bytes) (now : Z) : Prop :=
  token <> [] /\ Biscuit.verify_and_check_caveat token "disaster-alert" root_ca now = Ok true.

Lemma verify_disaster_alert_ok s token now :
  verify_disaster_alert_token s token now = Ok tt <-> alert (root_ca_public_key s) token now.
Proof.
  unfold verify_disaster_alert_token, alert. case_decide; [naive_solver|].
  destruct (Biscuit.verify_and_check_caveat _ _ _ _) as [[]|]; simpl; naive_solver.
Qed.

Lemma verify_disaster_alert_err s token now e :
  verify_disaster_alert_token s token now = Err e ->
  exists reason, e = SignatureVerificationFailed reason.
Proof.
  unfold verify_disaster_alert_token. case_decide; [naive_solver|].
  destruct (Biscuit.verify_and_check_caveat _ _ _ _) as [[]|]; simpl; naive_solver.
Qed.

Lemma new_machine_wf m ca dur : wf (new m ca dur).
Proof. split; [done|]. by intros []. Qed.

Lemma apply_event_config s e :
  root_ca_public_key (apply_event s e).1 = root_ca_public_key s /\
  lease_duration_secs (apply_event s e).1 = lease_duration_secs s.
Proof.
  destruct e; cbn [apply_event]; unfold activate, renew, terminate, tick;
    repeat (case_match; simpl); done.
Qed.

Lemma apply_event_wf s e : wf s -> wf (apply_event s e).1.
Proof.
  intros Hs. assert (wf (set_mode s Normal None)) as Hn by (split; [done|by intros []]).
  assert (forall l, wf (set_mode s Saturate (Some l))) as Hl by (split; [eauto|done]).
  destruct e; cbn [apply_event]; unfold activate, renew, terminate, tick;
    repeat (case_match; simpl); try done.
  destruct (state s) eqn:Hst; [naive_solver|]. done.
Qed.

(** The lease in force was opened or extended by a valid token, and expires the
    lease duration after it. *)
Definition backed (es : list Event) (s : SaturateModeStateMachine) : Prop :=
  forall l, lease s = Some l -> exists d token t,
    (Activate d token t ∈ es \/ Renew d token t ∈ es) /\
    alert (root_ca_public_key s) token t /\
    expires_at l = wrap_i64 (t + lease_duration_secs s).

Lemma step_backed es s e : backed es s -> backed (es ++ [e]) (apply_event s e).1.
Proof.
  intros Hs. unfold backed. destruct (apply_event_config s e) as [-> ->].
  assert (forall l, lease s = Some l -> exists d token t,
    (Activate d token t ∈ es ++ [e] \/ Renew d token t ∈ es ++ [e]) /\
    alert (root_ca_public_key s) token t /\ expires_at l = wrap_i64 (t + lease_duration_secs s))
    as Hold.
  { intros l (d & token & t & Hin & ?)%Hs. exists d, token, t. split; [|done].
    rewrite !elem_of_app. tauto. }
  destruct e as [d token now|d token now|sigs msg now|now]; cbn [apply_event].
  - unfold activate. destruct (verify_disaster_alert_token s token now) as [[]|] eqn:Hv;
      [|exact Hold].
    intros l [= <-]. exists d, token, now. split; [left; set_solver|].
    by apply verify_disaster_alert_ok in Hv.
  - unfold renew. case_decide; [exact Hold|].
    destruct (verify_disaster_alert_token s token now) as [[]|] eqn:Hv; [|exact Hold].
    destruct (lease s) as [l0|] eqn:Hl; [|simpl; by rewrite Hl].
    intros l [= <-]. exists d, token, now. split; [right; set_solver|].
    by apply verify_disaster_alert_ok in Hv.
  - unfold terminate. case_decide; [exact Hold|]. case_match; [exact Hold|]. by intros l.
  - unfold tick. case_decide; [|exact Hold]. destruct (lease s) as [l0|] eqn:Hl.
    + simpl. destruct (is_expired l0 now); [by intros l|]. simpl. by rewrite Hl.
    + simpl. by rewrite Hl.
Qed.

Lemma run_backed pre es s :
  wf s -> backed pre s ->
  wf (run s es) /\ backed (pre ++ es) (run s es) /\
  root_ca_public_key (run s es) = root_ca_public_key s /\
  lease_duration_secs (run s es) = lease_duration_secs s.
Proof.
  revert pre s. induction es as [|e es IH]; intros pre s Hwf Hs; [by rewrite app_nil_r|].
  destruct (IH (pre ++ [e]) (apply_event s e).1) as (H1 & H2 & H3 & H4);
    [by apply apply_event_wf|by apply step_backed|].
  rewrite <- app_assoc in H2. destruct (apply_event_config s e) as [Hc Hd].
  change (run s (e :: es)) with (run (apply_event s e).1 es).
  split_and!; [done|done|by rewrite H3|by rewrite H4].
Qed.

(** C37: saturate mode is always backed by a recent alert: after any history, if
    the machine is still in saturate mode once it has ticked at [now], some
    activation or renewal of the history carried a token that verified with
    the [disaster-alert] caveat at its time [t], and [now] is before [t] plus
    the lease duration.  The mode and the lease never disagree. *)
Theorem saturate_backed m ca dur es now :
  let s := run (new m ca dur) es in
  wf s /\
  (state (tick s now) = Saturate -> exists d token t,
    (Activate d token t ∈ es \/ Renew d token t ∈ es) /\ alert ca token t /\
    now < wrap_i64 (t + dur)).
Proof.
  intros s. destruct (run_backed [] es (new m ca dur) (new_machine_wf m ca dur)) as (Hwf & Hb & Hca & Hdur).
  { intros l. done. }
  split; [done|]. fold s in Hwf, Hb, Hca, Hdur. simpl in Hb, Hca, Hdur.
  unfold tick. case_decide as Hst; [|done].
  apply Hwf in Hst as Hl. destruct Hl as [l Hl]. rewrite Hl. unfold is_expired.
  destruct (Z.leb_spec (expires_at l) now) as [|Hlt]; [done|]. intros _.
  destruct (Hb l Hl) as (d & token & t & Hin & Ha & Hexp). exists d, token, t.
  rewrite Hca in Ha. rewrite Hexp, Hdur in Hlt. done.
Qed.

(** The transitions.  An event that fails leaves the machine exactly as it
    was; the mode changes from normal only by an activation with a valid
    alert, and back to normal only by a termination with at least M distinct
    DIDs that signed the message, or by a tick at or past the expiry. *)
Theorem mode_transitions s e s' r :
  wf s -> apply_event s e = (s', r) ->
  (forall err, r = Err err -> s' = s) /\
  (state s <> state s' ->
    match e with
    | Activate _ token now => state s = Normal /\ alert (root_ca_public_key s) token now
    | Renew _ _ _ => False
    | Terminate sigs msg _ => state s = Saturate /\
        exists dids : gset string, (termination_threshold_m s <= size dids)%nat /\
          forall d, d ∈ dids -> exists sig, (d, sig) ∈ sigs /\ verify_did_signature d sig msg = true
    | Tick now => state s = Saturate /\ exists l, lease s = Some l /\ expires_at l <= now
    end).
Proof.
  intros Hwf. destruct e as [d token now|d token now|sigs msg now|now]; cbn [apply_event].
  - unfold activate. destruct (verify_disaster_alert_token s token now) as [[]|] eqn:Hv;
      intros [= <- <-]; (split; [done|]); [|done]. intros Hne.
    apply verify_disaster_alert_ok in Hv. split; [|done]. simpl in Hne. by destruct (state s).
  - unfold renew. repeat (case_match || case_decide); intros [= <- <-]; (split; [done|]); done.
  - unfold terminate. case_decide as Hst; [by intros [= <- <-]|].
    destruct (Nat.ltb_spec (count_valid_distinct_signatures sigs msg) (termination_threshold_m s));
      intros [= <- <-]; (split; [done|]); [done|]. intros _.
    split; [by destruct (state s); [destruct Hst|]|].
    exists (count_loop sigs msg ∅). split; [done|]. intros d Hd%elem_of_count_loop. set_solver.
  - unfold tick. case_decide; [|by intros [= <- <-]].
    destruct (lease s) as [l|]; [|by intros [= <- <-]].
    unfold is_expired. destruct (Z.leb_spec (expires_at l) now); intros [= <- <-];
      (split; [done|]); [|done]. intros _. split; [done|]. by exists l.
Qed.

(** A termination counts exactly the distinct DIDs that have some valid
    signature in the list, and succeeds exactly when there are M of them;
    otherwise it reports both numbers and changes nothing. *)
Theorem terminate_threshold s sigs msg now (dids : gset string) :
  state s = Saturate ->
  (forall d, d ∈ dids <-> exists sig, (d, sig) ∈ sigs /\ verify_did_signature d sig msg = true) ->
  terminate s sigs msg now =
  if decide (termination_threshold_m s <= size dids)%nat
  then (set_mode s Normal None, Ok tt)
  else (s, Err (ThresholdNotMet (size dids) (termination_threshold_m s))).
Proof.
  intros Hst Hdids. assert (count_loop sigs msg ∅ = dids) as Heq.
  { apply set_eq. intros d. rewrite elem_of_count_loop, Hdids. set_solver. }
  unfold terminate, count_valid_distinct_signatures. rewrite Heq, decide_False by naive_solver.
  destruct (Nat.ltb_spec (size dids) (termination_threshold_m s));
    [rewrite decide_False by lia|rewrite decide_True by lia]; done.
Qed.

(** A renewal is accepted at any time while the mode lasts, before the renewal
    window and after the expiry of the lease alike. *)
Lemma renew_at_any_time s l d token now :
  state s = Saturate -> lease s = Some l -> alert (root_ca_public_key s) token now ->
  exists l', renew s d token now = (set_mode s Saturate (Some l'), Ok tt) /\
    expires_at l' = wrap_i64 (now + lease_duration_secs s).
Proof.
  intros Hst Hl Ha%verify_disaster_alert_ok. unfold renew.
  rewrite decide_False by naive_solver. rewrite Ha, Hl, Hst. eauto.
Qed.
End Machine.
End Saturate.

(** ** Witnesses, with the toy tokens and signatures *)

Section Witnesses.
#[local] Existing Instance toy_bs58.
#[local] Existing Instance toy_ed25519.
#[local] Existing Instance toy_biscuit.
Import Saturate.

Definition toy_run : SaturateModeStateMachine :=
  run (new 2 [1]%N 3600) [Activate "m" [200; 1]%N 100; Renew "m" [3200; 1]%N 3100].
Definition toy_sigs : list (Did * bytes) :=
  (fun seed => (Did.derive_did (ed_public seed), ed_sign seed [42%N])) <$> [[1]; [2]; [1]]%N.

Lemma saturate_backed_witness :
  exists d token t,
    (Activate d token t ∈ [Activate "m" [200; 1]%N 100; Renew "m" [3200; 1]%N 3100] \/
     Renew d token t ∈ [Activate "m" [200; 1]%N 100; Renew "m" [3200; 1]%N 3100]) /\
    alert [1]%N token t /\ 5000 < wrap_i64 (t + 3600).
Proof.
  apply (proj2 (saturate_backed 2 [1]%N 3600
    [Activate "m" [200; 1]%N 100; Renew "m" [3200; 1]%N 3100] 5000)).
  vm_compute. reflexivity.
Defined.


Lemma mode_transitions_witness :
  state toy_run = Saturate /\ exists l, lease toy_run = Some l /\ expires_at l <= 6700.
Proof.
  refine (proj2 (mode_transitions toy_run (Tick 6700) (tick toy_run 6700) (Ok tt) _ _) _).
  - split; [intros _; vm_compute; eauto|intros _; vm_compute; reflexivity].
  - reflexivity.
  - vm_compute. discriminate.
Defined.

Lemma terminate_threshold_witness :
  terminate toy_run toy_sigs [42]%N 4000 = (set_mode toy_run Normal None, Ok tt).
Proof.
  refine (terminate_threshold toy_run toy_sigs [42]%N 4000
    (list_to_set (fst <$> toy_sigs)) _ _).
  - vm_compute. reflexivity.
  - intros d. rewrite elem_of_list_to_set, list_elem_of_fmap. split.
    + intros ([d' sig] & -> & Hin). exists sig. split; [exact Hin|].
      assert (Forall (fun p => verify_did_signature p.1 p.2 [42]%N = true) toy_sigs) as Hall
        by by_decide.
      rewrite Forall_forall in Hall. apply (Hall (d', sig) Hin).
    + intros (sig & Hin & _). by exists (d, sig).
Defined.
End Witnesses.
