(* ===== verification/Contamination.v ===== *)
(** * The causal contamination engine (native build): [contamination/taint.rs],
    [contamination/incident.rs], [contamination/resolution.rs],
    [contamination/human_reaction.rs], [contamination/mod.rs]

    The engine reads and writes the tables of the changeset DAG (tags are a
    column of [dag_nodes]) and of the projection ([Projection.v]), and keeps its
    incidents in memory.  Its SQL statements succeed: the names of tables they
    use are those of tables that exist.  The clock and the UUIDs are arguments;
    one reading of the clock serves a whole [verify_data], where the code reads
    it again in each walk for late arrivals.  A [BTreeSet] is a [gset]: the one loop over it appends a tag to
    each of its members, in an order nothing observes. *)

From S2P Require Import Prelude Types Kahn Projection Dag Identity.

Module Contamination.
Import Projection.

(** ** Data *)

Inductive TaintSource :=
| DeviceRevocation (revocation_delta_id : DeltaId)
| BadMigration (migration_id : MigrationId)
| HumanReaction (triggered_by_incident_id : IncidentId).

Record AffectedRow := mkAffected {
  a_table : string;
  a_row_key : string;
  a_delta_id : DeltaId
}.

Inductive AuditOperation := VerifyData | AdminClose.

Record AuditEntry := mkAudit {
  au_operation : AuditOperation;
  au_manager_did : Did;
  au_utc_timestamp : Z;
  au_affected_delta_ids : list DeltaId
}.

Record IncidentContextObject := mkIco {
  i_id : IncidentId;
  i_state : IncidentState;
  i_taint_source : TaintSource;
  i_roots : list DeltaId;              (* contamination_roots *)
  i_deltas : gset N;                   (* contaminated_deltas *)
  i_rows : list AffectedRow;           (* affected_rows *)
  i_composite_of : option (list IncidentId);
  i_created_at : Z;
  i_updated_at : Z;
  i_audit_log : list AuditEntry
}.

Record CompositeIncidentInstance := mkComposite {
  c_id : IncidentId;
  c_state : IncidentState;
  c_composite_of : list IncidentId;
  c_roots : list DeltaId;
  c_deltas : gset N;
  c_rows : list AffectedRow;
  c_created_at : Z;
  c_updated_at : Z;
  c_audit_log : list AuditEntry
}.

Definition i_set_state (i : IncidentContextObject) (st : IncidentState) : IncidentContextObject :=
  mkIco (i_id i) st (i_taint_source i) (i_roots i) (i_deltas i) (i_rows i) (i_composite_of i)
    (i_created_at i) (i_updated_at i) (i_audit_log i).
Definition i_set_deltas (i : IncidentContextObject) (ds : gset N) : IncidentContextObject :=
  mkIco (i_id i) (i_state i) (i_taint_source i) (i_roots i) ds (i_rows i) (i_composite_of i)
    (i_created_at i) (i_updated_at i) (i_audit_log i).
Definition i_audit (i : IncidentContextObject) (at_ : Z) (e : AuditEntry) : IncidentContextObject :=
  mkIco (i_id i) (i_state i) (i_taint_source i) (i_roots i) (i_deltas i) (i_rows i)
    (i_composite_of i) (i_created_at i) at_ (i_audit_log i ++ [e]).
Definition c_set_state (c : CompositeIncidentInstance) (st : IncidentState)
  : CompositeIncidentInstance :=
  mkComposite (c_id c) st (c_composite_of c) (c_roots c) (c_deltas c) (c_rows c)
    (c_created_at c) (c_updated_at c) (c_audit_log c).
Definition c_set_deltas (c : CompositeIncidentInstance) (ds : gset N)
  : CompositeIncidentInstance :=
  mkComposite (c_id c) (c_state c) (c_composite_of c) (c_roots c) ds (c_rows c)
    (c_created_at c) (c_updated_at c) (c_audit_log c).

(** ** Tags *)

Definition push_tag (tag : DeltaTag) (r : Dag.NodeRow) : Dag.NodeRow :=
  Dag.mkRow (Dag.r_payload r) (Dag.r_delta_bytes r) (Dag.r_lamport r) (Dag.r_schema_hash r)
    (Dag.r_compacted r) (Dag.r_author_did r) (Dag.r_tags r ++ [tag]).

(** The [UPDATE] of a missing row changes nothing. *)
Definition append_tag (db : Dag.Tables) (delta_id : DeltaId) (tag : DeltaTag) : Dag.Tables :=
  Dag.mkTables (alter (push_tag tag) delta_id (Dag.dag_nodes db)) (Dag.dag_edges db).

Definition read_tags (db : Dag.Tables) (delta_id : DeltaId) : list DeltaTag :=
  default [] (Dag.r_tags <$> Dag.dag_nodes db !! delta_id).

Definition is_resolved (t : DeltaTag) : bool := match t with Resolved _ _ => true | _ => false end.
Definition has_resolved_tag (db : Dag.Tables) (delta_id : DeltaId) : bool :=
  existsb is_resolved (read_tags db delta_id).
Definition all_resolved (db : Dag.Tables) (roots : list DeltaId) : bool :=
  forallb (has_resolved_tag db) roots.

Definition append_all (db : Dag.Tables) (ids : list DeltaId) (tag : DeltaTag) : Dag.Tables :=
  foldl (fun db delta_id => append_tag db delta_id tag) db ids.

(** ** Merging two incidents *)

Definition composite_merge (composite_id : IncidentId) (ico_a ico_b : IncidentContextObject)
    (now_micros : Z)
  : CompositeIncidentInstance * IncidentContextObject * IncidentContextObject :=
  let roots := foldl (fun roots r => if decide (r ∈ roots) then roots else roots ++ [r])
    (i_roots ico_a) (i_roots ico_b) in
  let affected_rows :=
    foldl (fun rows row =>
      if existsb (fun r => bool_decide (a_row_key r = a_row_key row)) rows then rows
      else rows ++ [row]) (i_rows ico_a) (i_rows ico_b) in
  (mkComposite composite_id Open [i_id ico_a; i_id ico_b] roots (i_deltas ico_a ∪ i_deltas ico_b)
     affected_rows now_micros now_micros [],
   i_set_state ico_a (SupersededBy composite_id), i_set_state ico_b (SupersededBy composite_id)).

(** ** Human reactions *)

Record WriteContext := mkWriteContext {
  local_projection_contaminated : bool;
  quarantine_active : bool;
  active_incident_id : option IncidentId
}.

Definition d_push_tag (d : Delta) (tag : DeltaTag) : Delta :=
  mkDelta (d_id d) (d_author_did d) (d_signature d) (d_schema_hash d) (d_automerge_bytes d)
    (d_priority d) (d_causal_parents d) (d_tags d ++ [tag]) (d_lamport d) (d_created_at d).

Definition on_write_commit (delta : Delta) (ctx : WriteContext)
  : Delta * Res (option (DeltaId * IncidentId)) :=
  if negb (local_projection_contaminated ctx) && negb (quarantine_active ctx) then (delta, Ok None)
  else
    match active_incident_id ctx with
    | Some incident_id =>
        (d_push_tag delta (ContaminatedByHumanReaction incident_id),
         Ok (Some (d_id delta, incident_id)))
    | None => (delta, Ok None)
    end.

(** ** Resolution *)

(** What [verify_data] reads and writes: the two groups of tables, the two
    registries; [next] numbers the UUIDs drawn. *)
Record State := mkState {
  db : Dag.Tables;
  proj : Projection;
  incidents : gmap N IncidentContextObject;
  composite_incidents : gmap N CompositeIncidentInstance;
  next : nat
}.

Section Resolution.
Context {BS : Bs58} {ED : Ed25519}.
Context {SO : SelectOrder} {HI : HashIter N IncidentContextObject}
  {HC : HashIter N CompositeIncidentInstance}.
(** [Uuid::now_v7], one value per call. *)
Context (now_v7 : nat -> IncidentId).

Definition verify_manager_auth (manager_did : Did) (sig payload : bytes)
    (token_expiry now_secs : Z) : Res unit :=
  let now_micros := wrap_i64 (now_secs * 1000000) in
  if token_expiry <=? now_micros then Err (AuthorisationFailed "manager token expired")
  else
    public_key ← map_err (fun _ => AuthorisationFailed "DID resolution failed")
                   (Did.resolve_did manager_did);
    map_err (fun _ => AuthorisationFailed "manager signature invalid")
      (Keypair.verify public_key payload sig).

(** [walk_dag_descendants] and [bfs_descendants_raw]: the second is the first
    on a connection that is already locked. *)
Definition walk_dag_descendants (db : Dag.Tables) (root : DeltaId) : list DeltaId :=
  Dag.bfs_descendants db root.
Definition bfs_descendants_raw (db : Dag.Tables) (root : DeltaId) : list DeltaId :=
  (Dag.bfs_loop (fun p => select (children_in (Dag.dag_edges db) p))
     (S (S (length (Dag.dag_edges db)))) [root] ∅ []).1.

Definition walk_late_arrival_descendants (db : Dag.Tables) (root : DeltaId) (snapshot : gset N)
    (resolved : bool) (incident_id : IncidentId) (at_ : Z) : Dag.Tables * list DeltaId :=
  let late_arrivals := filter (fun d => d ∉ snapshot) (bfs_descendants_raw db root) in
  (append_all db late_arrivals
     (if resolved then Decontaminated incident_id at_ else Contaminated root incident_id),
   late_arrivals).

(** All the rows of all the projection tables, under the names the tables are listed with. *)
Definition resolve_affected_rows (pr : Projection) (root : DeltaId) : list AffectedRow :=
  select pr ≫= fun t => (fun r => mkAffected t.1 r.1 root) <$> select (map_to_list t.2).

Definition mark_rows (pr : Projection) (rows : list AffectedRow) : Projection :=
  foldl (fun pr row => mark_row_contaminated pr (a_table row) (a_row_key row)) pr rows.
Definition clear_rows (pr : Projection) (rows : list AffectedRow) : Projection :=
  foldl (fun pr row => clear_row_contamination pr (a_table row) (a_row_key row)) pr rows.

(** Step 3, for one incident. *)
Definition resolve_ico (root : DeltaId) (manager : Did) (at_ : Z) (s : State) (ico_id : IncidentId)
  : State :=
  match incidents s !! ico_id with
  | None => s
  | Some ico =>
      let ico := i_audit ico at_ (mkAudit VerifyData manager at_ [root]) in
      let incs := <[ico_id := ico]> (incidents s) in
      if all_resolved (db s) (i_roots ico) then
        mkState (append_all (db s) (elements (i_deltas ico)) (Decontaminated (i_id ico) at_))
          (clear_rows (proj s) (i_rows ico)) incs (composite_incidents s) (next s)
      else mkState (db s) (proj s) incs (composite_incidents s) (next s)
  end.

(** Step 4, for one list of roots: the walk from each root whose resolution is
    [resolved], the snapshot growing with what it finds. *)
Fixpoint late_loop (roots : list DeltaId) (resolved : bool) (incident_id : IncidentId) (at_ : Z)
    (db : Dag.Tables) (snapshot : gset N) : Dag.Tables * gset N :=
  match roots with
  | [] => (db, snapshot)
  | root :: roots =>
      if eqb (has_resolved_tag db root) resolved then
        let '(db, late) := walk_late_arrival_descendants db root snapshot resolved incident_id at_ in
        late_loop roots resolved incident_id at_ db (snapshot ∪ list_to_set late)
      else late_loop roots resolved incident_id at_ db snapshot
  end.

Definition late_ico (at_ : Z) (s : State) (ico_id : IncidentId) : State :=
  match incidents s !! ico_id with
  | None => s
  | Some ico =>
      let '(db', ds) := late_loop (i_roots ico) (all_resolved (db s) (i_roots ico)) ico_id at_
        (db s) (i_deltas ico) in
      mkState db' (proj s) (<[ico_id := i_set_deltas ico ds]> (incidents s))
        (composite_incidents s) (next s)
  end.
Definition late_composite (at_ : Z) (s : State) (comp_id : IncidentId) : State :=
  match composite_incidents s !! comp_id with
  | None => s
  | Some comp =>
      let '(db', ds) := late_loop (c_roots comp) (all_resolved (db s) (c_roots comp)) comp_id at_
        (db s) (c_deltas comp) in
      mkState db' (proj s) (incidents s)
        (<[comp_id := c_set_deltas comp ds]> (composite_incidents s)) (next s)
  end.

(** Step 5: a fresh incident for one unresolved root. *)
Definition reregister (at_ : Z) (acc : State * list (IncidentId * list AffectedRow))
    (root : DeltaId) : State * list (IncidentId * list AffectedRow) :=
  let '(s, new_icos) := acc in
  let new_ico_id := now_v7 (next s) in
  let descendants := bfs_descendants_raw (db s) root in
  let affected_rows := resolve_affected_rows (proj s) root in
  let new_ico := mkIco new_ico_id Open (DeviceRevocation root) [root] (list_to_set descendants)
    affected_rows None at_ at_ [] in
  (mkState (db s) (mark_rows (proj s) affected_rows) (<[new_ico_id := new_ico]> (incidents s))
     (composite_incidents s) (S (next s)),
   new_icos ++ [(new_ico_id, affected_rows)]).

Definition decompose_one (at_ : Z) (acc : State * list (IncidentId * list AffectedRow))
    (composite_id : IncidentId) : State * list (IncidentId * list AffectedRow) :=
  let '(s, new_icos) := acc in
  match composite_incidents s !! composite_id with
  | None => (s, new_icos)
  | Some composite =>
      let unresolved_roots := filter (fun r => has_resolved_tag (db s) r = false) (c_roots composite) in
      let s := mkState (db s) (proj s) (incidents s)
        (<[composite_id := c_set_state composite Decomposed]> (composite_incidents s)) (next s) in
      foldl (reregister at_) (s, new_icos) unresolved_roots
  end.

Definition decompose_composites_if_needed (resolved_root : DeltaId) (at_ : Z) (s : State)
  : State * list (IncidentId * list AffectedRow) :=
  let composite_ids :=
    c_id ∘ snd <$> filter (fun e => resolved_root ∈ c_roots e.2) (hm_iter (composite_incidents s)) in
  foldl (decompose_one at_) (s, []) composite_ids.

Definition verify_data (root : DeltaId) (manager_did : Did) (manager_sig : bytes)
    (manager_token_expiry now_secs now_micros : Z) (s : State)
  : State * Res (list (IncidentId * list AffectedRow)) :=
  match verify_manager_auth manager_did manager_sig (be_bytes 32 root) manager_token_expiry
          now_secs with
  | Err e => (s, Err e)
  | Ok _ =>
      let at_ := now_micros in
      let s := mkState (append_tag (db s) root (Resolved manager_did at_)) (proj s) (incidents s)
        (composite_incidents s) (next s) in
      let ico_ids := i_id ∘ snd <$> filter (fun e => root ∈ i_roots e.2) (hm_iter (incidents s)) in
      let s := foldl (resolve_ico root manager_did at_) s ico_ids in
      let composite_ids := c_id ∘ snd <$>
        filter (fun e => c_state e.2 = Open /\ root ∈ c_roots e.2)
          (hm_iter (composite_incidents s)) in
      let s := foldl (late_ico at_) s ico_ids in
      let s := foldl (late_composite at_) s composite_ids in
      let '(s, new_icos) := decompose_composites_if_needed root at_ s in
      (s, Ok new_icos)
  end.

Definition admin_close (incident_id : IncidentId) (manager_did : Did) (manager_sig : bytes)
    (manager_token_expiry now_secs now_micros : Z) (incs : gmap N IncidentContextObject)
  : gmap N IncidentContextObject * Res unit :=
  match verify_manager_auth manager_did manager_sig (be_bytes 16 incident_id)
          manager_token_expiry now_secs with
  | Err e => (incs, Err e)
  | Ok _ =>
      match incs !! incident_id with
      | None => (incs, Err (LocalStoreWriteFailed "incident not found"))
      | Some ico =>
          if decide (i_state ico <> Open) then (incs, Err (InvalidIncidentState (i_state ico)))
          else
            (<[incident_id := i_audit (i_set_state ico Closed) now_micros
                (mkAudit AdminClose manager_did now_micros [])]> incs, Ok tt)
      end
  end.

Definition append_audit_entry (incident_id : IncidentId) (entry : AuditEntry)
    (incs : gmap N IncidentContextObject) : gmap N IncidentContextObject * Res unit :=
  match incs !! incident_id with
  | None => (incs, Err (LocalStoreWriteFailed "incident not found for audit"))
  | Some ico => (<[incident_id := i_audit ico (i_updated_at ico) entry]> incs, Ok tt)
  end.

(** ** The engine *)

Record CausalContaminationEngine := mkEngine {
  core : State;
  contaminated_rows : gmap (string * string) IncidentId
}.

Definition new (d : Dag.Tables) (p : Projection) : CausalContaminationEngine :=
  mkEngine (mkState d p ∅ ∅ 0) ∅.

Definition index_rows (idx : gmap (string * string) IncidentId) (rows : list AffectedRow)
    (id : IncidentId) : gmap (string * string) IncidentId :=
  foldl (fun idx row => <[(a_table row, a_row_key row) := id]> idx) idx rows.

Definition tag_contamination_root (e : CausalContaminationEngine) (root : DeltaId)
    (source : TaintSource) (now : Z) : CausalContaminationEngine * Res IncidentId :=
  let s := core e in
  let ico_id := now_v7 (next s) in
  let descendants := walk_dag_descendants (db s) root in
  let db' := append_all (db s) descendants (Contaminated root ico_id) in
  let affected_rows := resolve_affected_rows (proj s) root in
  let proj' := mark_rows (proj s) affected_rows in
  let new_ico := mkIco ico_id Open source [root] (list_to_set descendants) affected_rows None
    now now [] in
  let overlapping_id := head (i_id ∘ snd <$>
    filter (fun x => i_state x.2 = Open /\ ~ (i_deltas x.2 ## i_deltas new_ico))
      (hm_iter (incidents s))) in
  match overlapping_id ≫= fun id => pair id <$> incidents s !! id with
  | Some (existing_ico_id, ico_a) =>
      let composite_id := now_v7 (S (next s)) in
      let '(composite, ico_a', ico_b) := composite_merge composite_id ico_a new_ico now in
      (mkEngine
         (mkState db' proj' (<[ico_id := ico_b]> (<[existing_ico_id := ico_a']> (incidents s)))
           (<[composite_id := composite]> (composite_incidents s)) (S (S (next s))))
         (index_rows (contaminated_rows e) (c_rows composite) composite_id),
       Ok composite_id)
  | None =>
      (mkEngine
         (mkState db' proj' (<[ico_id := new_ico]> (incidents s)) (composite_incidents s)
           (S (next s)))
         (index_rows (contaminated_rows e) affected_rows ico_id), Ok ico_id)
  end.

(** The entry of a row is kept while its incident is open with an unresolved root. *)
Definition keeps (s : State) (incident_id : IncidentId) : bool :=
  match incidents s !! incident_id with
  | Some ico => bool_decide (i_state ico = Open) && negb (all_resolved (db s) (i_roots ico))
  | None =>
      match composite_incidents s !! incident_id with
      | Some comp => bool_decide (c_state comp = Open) && negb (all_resolved (db s) (c_roots comp))
      | None => false
      end
  end.

Definition engine_verify_data (e : CausalContaminationEngine) (root : DeltaId)
    (manager_did : Did) (manager_sig : bytes) (manager_token_expiry now_secs now_micros : Z)
  : CausalContaminationEngine * Res unit :=
  match verify_data root manager_did manager_sig manager_token_expiry now_secs now_micros (core e) with
  | (s, Err err) => (mkEngine s (contaminated_rows e), Err err)
  | (s, Ok new_icos) =>
      let idx := foldl (fun idx x => index_rows idx x.2 x.1) (contaminated_rows e) new_icos in
      (mkEngine s (filter (fun kv => keeps s kv.2 = true) idx), Ok tt)
  end.

Definition engine_admin_close (e : CausalContaminationEngine) (incident_id : IncidentId)
    (manager_did : Did) (manager_sig : bytes) (manager_token_expiry now_secs now_micros : Z)
  : CausalContaminationEngine * Res unit :=
  let s := core e in
  let '(incs, r) := admin_close incident_id manager_did manager_sig manager_token_expiry now_secs
    now_micros (incidents s) in
  (mkEngine (mkState (db s) (proj s) incs (composite_incidents s) (next s)) (contaminated_rows e), r).

Definition get_incident (e : CausalContaminationEngine) (id : IncidentId)
  : option IncidentContextObject := incidents (core e) !! id.
Definition open_incidents (e : CausalContaminationEngine) : list IncidentContextObject :=
  snd <$> filter (fun x => i_state x.2 = Open) (hm_iter (incidents (core e))).
Definition is_row_contaminated (e : CausalContaminationEngine) (table row_key : string) : bool :=
  bool_decide (is_Some (contaminated_rows e !! (table, row_key))).
Definition active_incident_for_row (e : CausalContaminationEngine) (table row_key : string)
  : option IncidentId := contaminated_rows e !! (table, row_key).
(** Defined in the code, without a caller. *)
Definition prune_contaminated_rows (e : CausalContaminationEngine) : CausalContaminationEngine :=
  let s := core e in
  mkEngine s (filter (fun kv =>
    match incidents s !! kv.2 with
    | Some ico => bool_decide (i_state ico = Open)
    | None => false
    end ||
    match composite_incidents s !! kv.2 with
    | Some c => bool_decide (c_state c = Open)
    | None => false
    end = true) (contaminated_rows e)).

(** ** The tag log only grows *)

Definition add_tags (more : list DeltaTag) (r : Dag.NodeRow) : Dag.NodeRow :=
  Dag.mkRow (Dag.r_payload r) (Dag.r_delta_bytes r) (Dag.r_lamport r) (Dag.r_schema_hash r)
    (Dag.r_compacted r) (Dag.r_author_did r) (Dag.r_tags r ++ more).

(** [d'] is [d] with tags that [P] allows appended to some rows. *)
Record grows (P : DeltaId -> DeltaTag -> Prop) (d d' : Dag.Tables) : Prop := {
  g_edges : Dag.dag_edges d' = Dag.dag_edges d;
  g_rows : forall x, exists more, Forall (P x) more /\
    Dag.dag_nodes d' !! x = add_tags more <$> Dag.dag_nodes d !! x
}.

Lemma add_tags_nil r : add_tags [] r = r.
Proof. destruct r. unfold add_tags. simpl. by rewrite app_nil_r. Qed.
Lemma add_tags_app r l l' : add_tags l' (add_tags l r) = add_tags (l ++ l') r.
Proof. unfold add_tags. simpl. by rewrite app_assoc. Qed.

#[export] Instance grows_preorder P : PreOrder (grows P).
Proof.
  split.
  - intros d. split; [done|]. intros x. exists []. split; [constructor|].
    destruct (_ !! x); simpl; [by rewrite add_tags_nil|done].
  - intros d1 d2 d3 [He12 H12] [He23 H23]. split; [congruence|]. intros x.
    destruct (H12 x) as (m1 & HP1 & H1), (H23 x) as (m2 & HP2 & H2).
    exists (m1 ++ m2). split; [by apply Forall_app|]. rewrite H2, H1.
    destruct (Dag.dag_nodes d1 !! x); cbn [fmap option_fmap option_map]; [by rewrite add_tags_app|done].
Qed.

Lemma grows_mono (P Q : DeltaId -> DeltaTag -> Prop) d d' :
  (forall x t, P x t -> Q x t) -> grows P d d' -> grows Q d d'.
Proof.
  intros HPQ [He Hr]. split; [done|]. intros x. destruct (Hr x) as (m & Hm & Hx).
  exists m. split; [|done]. eapply Forall_impl; [done|]. apply HPQ.
Qed.

Lemma append_tag_grows (P : DeltaId -> DeltaTag -> Prop) d x t : P x t -> grows P d (append_tag d x t).
Proof.
  intros HP. split; [done|]. intros y. cbn [append_tag Dag.dag_nodes].
  destruct (decide (y = x)) as [->|Hne].
  - exists [t]. split; [by repeat constructor|]. rewrite lookup_alter_eq. done.
  - exists []. split; [constructor|]. rewrite lookup_alter_ne by done.
    destruct (_ !! y); simpl; [by rewrite add_tags_nil|done].
Qed.

Lemma append_all_grows (P : DeltaId -> DeltaTag -> Prop) d ids t :
  (forall x, x ∈ ids -> P x t) -> grows P d (append_all d ids t).
Proof.
  revert d. induction ids as [|x ids IH]; intros d HP; [reflexivity|].
  transitivity (append_tag d x t); [apply append_tag_grows, HP; left|].
  apply IH. intros y Hy. apply HP. by right.
Qed.

Lemma grows_read P d d' x :
  grows P d d' -> exists more, Forall (P x) more /\ read_tags d' x = read_tags d x ++ more.
Proof.
  intros [_ Hr]. destruct (Hr x) as (m & Hm & Hx). unfold read_tags. rewrite Hx.
  destruct (Dag.dag_nodes d !! x); simpl; [by exists m|]. exists []. split; [constructor|done].
Qed.

Lemma grows_resolved P d d' x :
  (forall y t, P y t -> is_resolved t = false) -> grows P d d' ->
  has_resolved_tag d' x = has_resolved_tag d x.
Proof.
  intros HP Hg. destruct (grows_read P d d' x Hg) as (m & Hm & Hx).
  unfold has_resolved_tag. rewrite Hx, existsb_app.
  replace (existsb is_resolved m) with false; [by rewrite orb_false_r|].
  clear Hx. induction Hm as [|t m Ht _ IH]; [done|]. cbn [existsb].
  rewrite (HP x t Ht). exact IH.
Qed.

Lemma grows_all_resolved P d d' roots :
  (forall y t, P y t -> is_resolved t = false) -> grows P d d' ->
  all_resolved d' roots = all_resolved d roots.
Proof.
  intros HP Hg. unfold all_resolved. induction roots as [|r roots IH]; [done|]. simpl.
  by rewrite IH, (grows_resolved P d d' r).
Qed.

(** The tags of a row after one pass over a list without duplicates. *)
Lemma read_append_all d ids t x :
  NoDup ids -> is_Some (Dag.dag_nodes d !! x) ->
  read_tags (append_all d ids t) x = read_tags d x ++ (if decide (x ∈ ids) then [t] else []).
Proof.
  revert d. induction ids as [|y ids IH]; intros d Hnd [r Hr]; [by rewrite app_nil_r|].
  apply NoDup_cons in Hnd as [Hy Hnd]. cbn [append_all foldl]. fold (append_all (append_tag d y t) ids t).
  rewrite IH by (try done; simpl; apply lookup_alter_is_Some; by exists r).
  assert (read_tags (append_tag d y t) x = read_tags d x ++ (if decide (x = y) then [t] else [])) as ->.
  { unfold read_tags, append_tag. cbn [Dag.dag_nodes].
    destruct (decide (x = y)) as [->|Hxy].
    - by rewrite lookup_alter_eq, Hr.
    - by rewrite lookup_alter_ne, app_nil_r by done. }
  rewrite <- app_assoc. f_equal. destruct (decide (x = y)) as [->|Hne].
  - rewrite (decide_False (P := y ∈ ids)), (decide_True (P := y ∈ y :: ids)) by (done || left). done.
  - by rewrite (decide_ext (x ∈ ids) (x ∈ y :: ids)) by set_solver.
Qed.

Lemma bfs_raw_eq d root : bfs_descendants_raw d root = walk_dag_descendants d root.
Proof. done. Qed.

Lemma elem_of_walk d root x :
  x ∈ walk_dag_descendants d root <-> Dag.reachable (Dag.dag_edges d) root x.
Proof. apply (Dag.bfs_descendants_reachable d root). Qed.
Lemma NoDup_walk d root : NoDup (walk_dag_descendants d root).
Proof. apply (Dag.bfs_descendants_reachable d root). Qed.

(** ** Rows of the projection *)

Definition row_key (r : AffectedRow) : string * string := (a_table r, a_row_key r).

(** The list has an entry for the row, under some spelling of its table. *)
#[export] Instance listed_dec (keys : list (string * string)) x : Decision (Exists (same_row x) keys).
Proof. apply _. Defined.

Lemma row_at_mark_rows pr rows t k :
  row_at (mark_rows pr rows) t k =
  if decide (Exists (same_row (t, k)) (row_key <$> rows)) then set_flag 1 <$> row_at pr t k else row_at pr t k.
Proof.
  revert pr. induction rows as [|r rows IH]; intros pr.
  { rewrite decide_False; [done|]. cbn. by intros ?%Exists_nil. }
  cbn [mark_rows foldl]. fold (mark_rows (mark_row_contaminated pr (a_table r) (a_row_key r)) rows).
  rewrite IH, row_at_mark, fmap_cons. fold (row_key r).
  rewrite (decide_ext (Exists (same_row (t, k)) (row_key r :: (row_key <$> rows)))
    (same_row (t, k) (row_key r) \/ Exists (same_row (t, k)) (row_key <$> rows))) by apply Exists_cons.
  destruct (decide (same_row (t, k) (row_key r))) as [Heq|Hne].
  - rewrite (decide_True (P := _ \/ _)) by auto. case_decide; [|done]. by destruct (row_at pr t k).
  - by rewrite (decide_ext (_ \/ _) (Exists (same_row (t, k)) (row_key <$> rows))) by tauto.
Qed.

(** Marking and clearing leave the text of a row alone. *)
Lemma same_texts_mark pr rows : same_texts pr (mark_rows pr rows).
Proof. unfold mark_rows. apply (foldl_preserves same_texts id). intros pr' row. apply same_texts_mark_row. Qed.

Lemma same_texts_clear pr rows : same_texts pr (clear_rows pr rows).
Proof. unfold clear_rows. apply (foldl_preserves same_texts id). intros pr' row. apply same_texts_clear_row. Qed.

Lemma elem_of_affected pr root t k :
  is_Some (row_at pr t k) ->
  exists name, same_table name t /\ (name, k) ∈ row_key <$> resolve_affected_rows pr root.
Proof.
  intros (name & rows & Hs & Hin & r & Hr)%row_at_listed. exists name. split; [done|].
  apply list_elem_of_fmap. exists (mkAffected name k root). split; [done|].
  apply list_elem_of_bind. exists (name, rows). split; [|by rewrite select_perm].
  apply list_elem_of_fmap. exists (k, r). split; [done|]. rewrite select_perm. by apply elem_of_map_to_list.
Qed.

Lemma index_rows_lookup idx rows id key :
  index_rows idx rows id !! key = if decide (key ∈ row_key <$> rows) then Some id else idx !! key.
Proof.
  revert idx. induction rows as [|r rows IH]; intros idx; [done|].
  cbn [index_rows foldl]. fold (index_rows (<[(a_table r, a_row_key r):=id]> idx) rows id).
  rewrite IH, fmap_cons. fold (row_key r). destruct (decide (key = row_key r)) as [->|Hne].
  - rewrite lookup_insert_eq, (decide_True (P := row_key r ∈ _ :: _)) by left. by case_decide.
  - rewrite lookup_insert_ne by done.
    by rewrite (decide_ext (key ∈ row_key <$> rows) (key ∈ row_key r :: (row_key <$> rows)))
      by set_solver.
Qed.

(** ** Tagging a root *)

Lemma tag_root_result e root source now :
  let '(e', r) := tag_contamination_root e root source now in
  let s := core e in
  let ico_id := now_v7 (next s) in
  db (core e') = append_all (db s) (walk_dag_descendants (db s) root) (Contaminated root ico_id) /\
  proj (core e') = mark_rows (proj s) (resolve_affected_rows (proj s) root) /\
  exists id ico, r = Ok id /\ incidents (core e') !! ico_id = Some ico /\
    i_roots ico = [root] /\ i_taint_source ico = source /\
    i_deltas ico = list_to_set (walk_dag_descendants (db s) root) /\
    ((i_state ico = Open /\ id = ico_id) \/ i_state ico = SupersededBy id).
Proof.
  unfold tag_contamination_root. destruct (_ ≫= _) as [[a ico_a]|].
  - split_and!; [done|done|]. cbn [core incidents composite_merge].
    eexists _, _. split; [done|]. rewrite lookup_insert_eq. split; [done|]. split_and!; try done. by right.
  - split_and!; [done|done|]. cbn [core incidents].
    eexists _, _. split; [done|]. rewrite lookup_insert_eq. split; [done|]. split_and!; try done. by left.
Qed.

(** C24: tagging a root is complete and exact.  Every stored delta reachable
    from the root gets one [Contaminated] entry, naming the root and the new
    incident, at the end of its tag log; no other stored delta changes; the
    incident registered lists exactly the reachable deltas; and every row of
    every projection table is flagged. *)
Theorem tag_root_complete e root source now :
  let '(e', r) := tag_contamination_root e root source now in
  let d := db (core e) in
  let d' := db (core e') in
  let ico_id := now_v7 (next (core e)) in
  (exists id ico, r = Ok id /\ incidents (core e') !! ico_id = Some ico /\ i_roots ico = [root] /\
    (forall x, x ∈ i_deltas ico <-> Dag.reachable (Dag.dag_edges d) root x) /\
    ((i_state ico = Open /\ id = ico_id) \/ i_state ico = SupersededBy id)) /\
  Dag.dag_edges d' = Dag.dag_edges d /\
  (forall x, is_Some (Dag.dag_nodes d !! x) ->
    (Dag.reachable (Dag.dag_edges d) root x ->
      read_tags d' x = read_tags d x ++ [Contaminated root ico_id]) /\
    (~ Dag.reachable (Dag.dag_edges d) root x -> read_tags d' x = read_tags d x)) /\
  (forall t k, row_at (proj (core e')) t k = set_flag 1 <$> row_at (proj (core e)) t k).
Proof.
  pose proof (tag_root_result e root source now) as Hres.
  destruct (tag_contamination_root e root source now) as [e' r].
  destruct Hres as (Hdb & Hproj & id & ico & -> & Hico & Hroots & _ & Hds & Hst).
  split_and!.
  - exists id, ico. split_and!; try done. intros x. rewrite Hds, elem_of_list_to_set. apply elem_of_walk.
  - rewrite Hdb. apply (append_all_grows (fun _ _ => True)). done.
  - intros x Hx. rewrite Hdb, read_append_all by (apply NoDup_walk || done).
    split; intros Hr; rewrite <- elem_of_walk in Hr.
    + by rewrite decide_True.
    + by rewrite decide_False, app_nil_r.
  - intros t k. rewrite Hproj, row_at_mark_rows. case_decide as Hin; [done|].
    destruct (row_at (proj (core e)) t k) eqn:Hr; [|done]. destruct Hin.
    destruct (elem_of_affected (proj (core e)) root t k) as (name & Hs & Hin); [by rewrite Hr|].
    apply Exists_exists. exists (name, k). split; [exact Hin|]. by split; [symmetry|].
Qed.

(** The registries are keyed by the ids of their values, and the ids still to
    be drawn are new. *)
Record registry_wf (s : State) : Prop := {
  rw_ico : forall id ico, incidents s !! id = Some ico -> i_id ico = id;
  rw_comp : forall id comp, composite_incidents s !! id = Some comp -> c_id comp = id;
  rw_fresh : forall n, (next s <= n)%nat ->
    incidents s !! now_v7 n = None /\ composite_incidents s !! now_v7 n = None;
  rw_inj : Inj (=) (=) now_v7
}.

(** Two chains that share a delta are joined.  If some open incident shares
    a delta with the new chain, one of them and the new incident are both
    superseded by a new open composite, whose deltas are the union of the two
    and whose roots include both; otherwise the new incident stays open and
    every row is indexed under it, by the name its table is listed with. *)
Theorem tag_root_joins e root source now :
  registry_wf (core e) ->
  let '(e', r) := tag_contamination_root e root source now in
  let s := core e in
  let s' := core e' in
  let chain := list_to_set (walk_dag_descendants (db s) root) : gset N in
  ((exists id ico, incidents s !! id = Some ico /\ i_state ico = Open /\ ~ (i_deltas ico ## chain)) /\
   exists id ico cid comp, incidents s !! id = Some ico /\ i_state ico = Open /\
     ~ (i_deltas ico ## chain) /\ r = Ok cid /\
     incidents s' !! id = Some (i_set_state ico (SupersededBy cid)) /\
     (exists ico_b, incidents s' !! now_v7 (next s) = Some ico_b /\ i_state ico_b = SupersededBy cid) /\
     composite_incidents s' !! cid = Some comp /\ c_state comp = Open /\
     c_deltas comp = i_deltas ico ∪ chain /\
     (forall x, x ∈ c_roots comp <-> x ∈ i_roots ico \/ x = root)) \/
  ((forall id ico, incidents s !! id = Some ico -> i_state ico = Open -> i_deltas ico ## chain) /\
   r = Ok (now_v7 (next s)) /\ composite_incidents s' = composite_incidents s /\
   (exists ico, incidents s' = <[now_v7 (next s) := ico]> (incidents s) /\ i_state ico = Open) /\
   forall t k, is_Some (row_at (proj s) t k) -> exists name, same_table name t /\
     active_incident_for_row e' name k = Some (now_v7 (next s))).
Proof.
  intros [Hkey _ Hfresh Hinj]. unfold tag_contamination_root. cbn [i_deltas].
  set (s := core e) in *. set (chain := list_to_set (walk_dag_descendants (db s) root) : gset N).
  set (l := filter _ (hm_iter (incidents s))).
  assert (forall x, x ∈ l <-> incidents s !! x.1 = Some x.2 /\ i_state x.2 = Open /\
    ~ (i_deltas x.2 ## chain)) as Hl.
  { intros [id ico]. unfold l. rewrite list_elem_of_filter, <- elem_of_hm_iter. simpl. tauto. }
  destruct l as [|[id ico] l'].
  - simpl. right. split_and!; [|done|done| |].
    + intros id ico Hi Ho. destruct (decide (i_deltas ico ## chain)) as [|Hn]; [done|].
      assert ((id, ico) ∈ ([] : list (N * IncidentContextObject))) as Hin by (by apply Hl).
      by apply elem_of_nil in Hin.
    + eexists. split; reflexivity.
    + intros t k Hr. apply elem_of_affected with (root := root) in Hr as (name & Hs & Hin).
      exists name. split; [done|]. unfold active_incident_for_row. simpl.
      by rewrite index_rows_lookup, decide_True.
  - destruct (proj1 (Hl (id, ico)) (list_elem_of_here _ _)) as (Hi & Ho & Hn). simpl in Hi, Ho, Hn.
    simpl. rewrite (Hkey _ _ Hi), Hi. simpl. left. split; [by exists id, ico|].
    assert (id <> now_v7 (next s)) as Hne.
    { intros ->. destruct (Hfresh (next s)) as [Hf _]; [done|]. congruence. }
    exists id, ico, (now_v7 (S (next s))). eexists. split_and!; [done..| | | | | |].
    + rewrite lookup_insert_ne by done. by rewrite lookup_insert_eq.
    + eexists. rewrite lookup_insert_eq. by split.
    + by rewrite lookup_insert_eq.
    + done.
    + done.
    + intros x. cbn [c_roots]. case_decide; [set_solver|]. rewrite elem_of_app, list_elem_of_singleton. done.
Qed.

(** ** Verifying a root *)

(** The incident or composite [id] of [s] has these roots. *)
Definition lists (s : State) (id : IncidentId) (roots : list DeltaId) : Prop :=
  (exists ico, incidents s !! id = Some ico /\ i_roots ico = roots) \/
  (exists comp, composite_incidents s !! id = Some comp /\ c_roots comp = roots).

(** The tags a verification may append once the root is tagged, [d1] being the
    tables after that: [Decontaminated] for an incident all of whose roots are
    resolved, [Contaminated] below a root that is not. *)
Definition justified (s : State) (d1 : Dag.Tables) (at_ : Z) (x : DeltaId) (t : DeltaTag) : Prop :=
  match t with
  | Decontaminated id a => a = at_ /\ exists roots, lists s id roots /\ all_resolved d1 roots = true
  | Contaminated r id => has_resolved_tag d1 r = false /\
      (exists roots, lists s id roots /\ r ∈ roots) /\ Dag.reachable (Dag.dag_edges d1) r x
  | _ => False
  end.

Lemma justified_not_resolved s d1 at_ x t : justified s d1 at_ x t -> is_resolved t = false.
Proof. by destruct t. Qed.

(** What the loops preserve of the registries. *)
Definition same_ico (i i' : IncidentContextObject) : Prop :=
  i_id i' = i_id i /\ i_roots i' = i_roots i /\ i_deltas i ⊆ i_deltas i'.
Definition same_comp (c c' : CompositeIncidentInstance) : Prop :=
  c_id c' = c_id c /\ c_roots c' = c_roots c /\ c_deltas c ⊆ c_deltas c'.

Section Loops.
Context (s0 : State) (d1 : Dag.Tables) (at_ : Z).
Hypothesis keyed : forall id ico, incidents s0 !! id = Some ico -> i_id ico = id.

Record loop_inv (s : State) : Prop := {
  li_db : grows (justified s0 d1 at_) d1 (db s);
  li_ico : forall id, option_Forall2 same_ico (incidents s0 !! id) (incidents s !! id);
  li_comp : forall id, option_Forall2 same_comp (composite_incidents s0 !! id)
    (composite_incidents s !! id)
}.

Lemma loop_inv_lists s id roots : loop_inv s -> lists s id roots -> lists s0 id roots.
Proof.
  intros [_ Hi Hc] [(ico & Hl & <-)|(c & Hl & <-)].
  - specialize (Hi id). rewrite Hl in Hi. inversion Hi as [i0 ? (_ & Hr & _) Heq|]. subst.
    left. exists i0. by rewrite Hr.
  - specialize (Hc id). rewrite Hl in Hc. inversion Hc as [c0 ? (_ & Hr & _) Heq|]. subst.
    right. exists c0. by rewrite Hr.
Qed.

Lemma loop_inv_ico s id ico :
  loop_inv s -> incidents s !! id = Some ico ->
  i_id ico = id /\ lists s0 id (i_roots ico).
Proof.
  intros Hs Hl. split; [|apply (loop_inv_lists s); [done|left; by exists ico]].
  destruct Hs as [_ Hi _]. specialize (Hi id). rewrite Hl in Hi.
  inversion Hi as [i0 ? (Hid & _ & _) Heq|]. subst. rewrite Hid. by apply keyed.
Qed.

Lemma loop_all_resolved s roots :
  loop_inv s -> all_resolved (db s) roots = all_resolved d1 roots.
Proof.
  intros [Hg _ _]. eapply grows_all_resolved, Hg. intros y t. apply justified_not_resolved.
Qed.

Lemma insert_same_ico s id ico ico' :
  loop_inv s -> incidents s !! id = Some ico -> same_ico ico ico' ->
  forall id', option_Forall2 same_ico (incidents s0 !! id') (<[id := ico']> (incidents s) !! id').
Proof.
  intros [_ Hi _] Hl (H1 & H2 & H3) id'. destruct (decide (id' = id)) as [->|Hne].
  - rewrite lookup_insert_eq. specialize (Hi id). rewrite Hl in Hi.
    inversion Hi as [i0 ? (K1 & K2 & K3)|]. subst. constructor.
    split_and!; [congruence|congruence|set_solver].
  - by rewrite lookup_insert_ne.
Qed.

Lemma insert_same_comp s id c c' :
  loop_inv s -> composite_incidents s !! id = Some c -> same_comp c c' ->
  forall id', option_Forall2 same_comp (composite_incidents s0 !! id')
    (<[id := c']> (composite_incidents s) !! id').
Proof.
  intros [_ _ Hi] Hl (H1 & H2 & H3) id'. destruct (decide (id' = id)) as [->|Hne].
  - rewrite lookup_insert_eq. specialize (Hi id). rewrite Hl in Hi.
    inversion Hi as [i0 ? (K1 & K2 & K3)|]. subst. constructor.
    split_and!; [congruence|congruence|set_solver].
  - by rewrite lookup_insert_ne.
Qed.

Lemma resolve_ico_inv root manager s id : loop_inv s -> loop_inv (resolve_ico root manager at_ s id).
Proof.
  intros Hs. unfold resolve_ico. destruct (incidents s !! id) as [ico|] eqn:Hl; [|done].
  destruct (loop_inv_ico s id ico Hs Hl) as [Hid Hlist].
  assert (same_ico ico (i_audit ico at_ (mkAudit VerifyData manager at_ [root]))) as Hsame
    by (by split_and!).
  pose proof (insert_same_ico s id ico _ Hs Hl Hsame) as Hins.
  destruct (all_resolved (db s) _) eqn:Hall; split; try apply Hins; try apply Hs.
  simpl. transitivity (db s); [apply Hs|]. apply append_all_grows. intros x _. simpl.
  split; [done|]. exists (i_roots ico). rewrite Hid. split; [done|].
  by rewrite <- (loop_all_resolved s).
Qed.

(** The walk of step 4 over a list of roots of the incident [id]. *)
Lemma late_loop_spec id all roots resolved d ds :
  lists s0 id all -> roots ⊆ all -> (resolved = true -> all_resolved d1 all = true) ->
  grows (justified s0 d1 at_) d1 d ->
  let '(d', ds') := late_loop roots resolved id at_ d ds in
  grows (justified s0 d1 at_) d1 d' /\ grows (justified s0 d1 at_) d d' /\ ds ⊆ ds' /\
  (forall r x, r ∈ roots -> has_resolved_tag d1 r = resolved ->
    Dag.reachable (Dag.dag_edges d1) r x -> x ∈ ds' /\
    (x ∉ ds -> is_Some (Dag.dag_nodes d !! x) -> exists r',
      (if resolved then Decontaminated id at_ else Contaminated r' id) ∈ read_tags d' x)).
Proof.
  intros Hid. revert d ds. induction roots as [|root roots IH]; intros d ds Hsub Hres Hg;
    cbn [late_loop].
  { split_and!; [done|reflexivity|done|]. intros r x Hr. by apply elem_of_nil in Hr. }
  assert (roots ⊆ all) as Hsub' by set_solver.
  assert (forall y t, justified s0 d1 at_ y t -> is_resolved t = false) as Hnr
    by (intros y t; apply justified_not_resolved).
  rewrite (grows_resolved _ _ _ root Hnr Hg).
  destruct (eqb (has_resolved_tag d1 root) resolved) eqn:Heq.
  - apply eqb_prop in Heq. unfold walk_late_arrival_descendants.
    set (late := filter _ _). set (tag := if resolved then _ else _).
    assert (forall x, x ∈ late <-> x ∉ ds /\ Dag.reachable (Dag.dag_edges d1) root x) as Hlate.
    { intros x. unfold late. rewrite list_elem_of_filter, bfs_raw_eq, elem_of_walk.
      by rewrite (g_edges _ _ _ Hg). }
    assert (grows (justified s0 d1 at_) d (append_all d late tag)) as Hg'.
    { apply append_all_grows. intros x [_ Hx]%Hlate. unfold tag. destruct resolved; simpl.
      - split; [done|]. exists all. auto.
      - split_and!; [done| |done]. exists all. split; [done|]. apply Hsub. left. }
    specialize (IH (append_all d late tag) (ds ∪ list_to_set late) Hsub' Hres
      (transitivity Hg Hg')).
    destruct (late_loop _ _ _ _ _ _) as [d' ds']. destruct IH as (H1 & H2 & H3 & H4).
    split_and!; [done|by transitivity (append_all d late tag)|set_solver|].
    intros r x Hr Hrr Hx.
    assert (x ∈ late -> is_Some (Dag.dag_nodes d !! x) -> exists r',
      (if resolved then Decontaminated id at_ else Contaminated r' id) ∈ read_tags d' x) as Htag.
    { intros Hin Hst. exists root. destruct (grows_read _ _ _ x H2) as (more & _ & ->).
      rewrite read_append_all, decide_True.
      - apply elem_of_app. left. apply elem_of_app. right. left.
      - done.
      - apply NoDup_filter. rewrite bfs_raw_eq. apply NoDup_walk.
      - done. }
    apply elem_of_cons in Hr as [->|Hr].
    + destruct (decide (x ∈ ds)) as [Hd|Hd]; [split; [set_solver|done]|].
      assert (x ∈ late) by (by apply Hlate). split; [|by auto].
      apply H3, elem_of_union. right. by apply elem_of_list_to_set.
    + destruct (H4 r x Hr Hrr Hx) as [Hin Ht]. split; [done|]. intros Hd Hst.
      destruct (decide (x ∈ late)) as [Hl|Hl]; [by apply Htag|]. apply Ht.
      * rewrite elem_of_union, elem_of_list_to_set. tauto.
      * destruct (g_rows _ _ _ Hg' x) as (more & _ & ->). by apply fmap_is_Some.
  - specialize (IH d ds Hsub' Hres Hg). destruct (late_loop _ _ _ _ _ _) as [d' ds'].
    destruct IH as (H1 & H2 & H3 & H4). split_and!; [done..|].
    intros r x [->|Hr]%elem_of_cons Hrr; [|by apply H4]. rewrite Hrr, eqb_reflx in Heq. done.
Qed.

Lemma late_ico_inv s id : loop_inv s -> loop_inv (late_ico at_ s id).
Proof.
  intros Hs. unfold late_ico. destruct (incidents s !! id) as [ico|] eqn:Hl; [|done].
  destruct (loop_inv_ico s id ico Hs Hl) as [_ Hlist].
  pose proof (late_loop_spec id (i_roots ico) (i_roots ico) (all_resolved (db s) (i_roots ico))
    (db s) (i_deltas ico) Hlist ltac:(done)) as Hloop.
  destruct (late_loop _ _ _ _ _ _) as [d' ds'].
  destruct Hloop as (H1 & _ & H3 & _); [by rewrite (loop_all_resolved s)|apply Hs|].
  split; [done| |apply Hs]. cbn [incidents].
  by apply (insert_same_ico s id ico).
Qed.

Lemma late_composite_inv s id : loop_inv s -> loop_inv (late_composite at_ s id).
Proof.
  intros Hs. unfold late_composite.
  destruct (composite_incidents s !! id) as [c|] eqn:Hl; [|done].
  assert (lists s0 id (c_roots c)) as Hlist.
  { apply (loop_inv_lists s); [done|]. right. by exists c. }
  pose proof (late_loop_spec id (c_roots c) (c_roots c) (all_resolved (db s) (c_roots c))
    (db s) (c_deltas c) Hlist ltac:(done)) as Hloop.
  destruct (late_loop _ _ _ _ _ _) as [d' ds'].
  destruct Hloop as (H1 & _ & H3 & _); [by rewrite (loop_all_resolved s)|apply Hs|].
  split; [done|apply Hs|]. cbn [composite_incidents].
  by apply (insert_same_comp s id c).
Qed.

(** One step of a loop: the invariant, and growth. *)
Definition advances (f : State -> IncidentId -> State) : Prop :=
  forall s id, loop_inv s -> loop_inv (f s id) /\ grows (justified s0 d1 at_) (db s) (db (f s id)).

Lemma foldl_advances f ids s :
  advances f -> loop_inv s ->
  loop_inv (foldl f s ids) /\ grows (justified s0 d1 at_) (db s) (db (foldl f s ids)).
Proof.
  intros Hf. revert s. induction ids as [|id ids IH]; intros s Hs; [by split|]. simpl.
  destruct (Hf s id Hs) as [H1 H2]. destruct (IH _ H1) as [H3 H4].
  split; [done|]. by transitivity (db (f s id)).
Qed.

Lemma resolve_ico_advances root manager : advances (resolve_ico root manager at_).
Proof.
  intros s id Hs. split; [by apply resolve_ico_inv|]. unfold resolve_ico.
  destruct (incidents s !! id) as [ico|] eqn:Hl; [|reflexivity].
  destruct (loop_inv_ico s id ico Hs Hl) as [Hid Hlist].
  destruct (all_resolved _ _) eqn:Hall; [|reflexivity]. simpl.
  apply append_all_grows. intros x _. split; [done|]. exists (i_roots ico).
  cbn [i_id i_audit]. rewrite Hid. split; [done|]. by rewrite <- (loop_all_resolved s).
Qed.

Lemma late_ico_advances : advances (late_ico at_).
Proof.
  intros s id Hs. split; [by apply late_ico_inv|]. unfold late_ico.
  destruct (incidents s !! id) as [ico|] eqn:Hl; [|reflexivity].
  destruct (loop_inv_ico s id ico Hs Hl) as [_ Hlist].
  pose proof (late_loop_spec id (i_roots ico) (i_roots ico) (all_resolved (db s) (i_roots ico))
    (db s) (i_deltas ico) Hlist ltac:(done)) as Hloop.
  destruct (late_loop _ _ _ _ _ _) as [d' ds'].
  by destruct Hloop as (_ & H2 & _); [rewrite (loop_all_resolved s)|apply Hs|].
Qed.

Lemma late_composite_advances : advances (late_composite at_).
Proof.
  intros s id Hs. split; [by apply late_composite_inv|]. unfold late_composite.
  destruct (composite_incidents s !! id) as [c|] eqn:Hl; [|reflexivity].
  assert (lists s0 id (c_roots c)) as Hlist.
  { apply (loop_inv_lists s); [done|]. right. by exists c. }
  pose proof (late_loop_spec id (c_roots c) (c_roots c) (all_resolved (db s) (c_roots c))
    (db s) (c_deltas c) Hlist ltac:(done)) as Hloop.
  destruct (late_loop _ _ _ _ _ _) as [d' ds'].
  by destruct Hloop as (_ & H2 & _); [rewrite (loop_all_resolved s)|apply Hs|].
Qed.

(** What a loop over the incidents does to one of them. *)
Lemma resolve_ico_done root manager s id ico x :
  loop_inv s -> incidents s !! id = Some ico -> all_resolved d1 (i_roots ico) = true ->
  x ∈ i_deltas ico -> is_Some (Dag.dag_nodes (db s) !! x) ->
  Decontaminated id at_ ∈ read_tags (db (resolve_ico root manager at_ s id)) x.
Proof.
  intros Hs Hl Hall Hx Hst. destruct (loop_inv_ico s id ico Hs Hl) as [Hid _].
  unfold resolve_ico. rewrite Hl. cbn [i_roots i_audit].
  rewrite (loop_all_resolved s) by done. rewrite Hall. cbn [db i_deltas i_id i_audit].
  rewrite read_append_all by (apply NoDup_elements || done).
  rewrite decide_True by (by apply elem_of_elements). rewrite Hid.
  apply elem_of_app. right. left.
Qed.
End Loops.

Lemma reregister_db at_ acc roots : db (foldl (reregister at_) acc roots).1 = db acc.1.
Proof.
  revert acc. induction roots as [|r roots IH]; intros acc; [done|]. cbn [foldl].
  rewrite IH. by destruct acc.
Qed.

Lemma decompose_db root at_ s : db (decompose_composites_if_needed root at_ s).1 = db s.
Proof.
  unfold decompose_composites_if_needed. generalize (@nil (IncidentId * list AffectedRow)).
  generalize (c_id ∘ snd <$> filter (fun e => root ∈ c_roots e.2) (hm_iter (composite_incidents s))).
  intros ids. revert s. induction ids as [|id ids IH]; intros s l; [done|]. cbn [foldl].
  destruct (decompose_one at_ (s, l) id) as [s1 l1] eqn:Hd. rewrite IH.
  unfold decompose_one in Hd. destruct (composite_incidents s !! id) as [c|]; [|by injection Hd as <- _].
  pose proof (reregister_db at_ (mkState (db s) (proj s) (incidents s)
    (<[id := c_set_state c Decomposed]> (composite_incidents s)) (next s), l)
    (filter (fun r => has_resolved_tag (db s) r = false) (c_roots c))) as Hr.
  rewrite Hd in Hr. exact Hr.
Qed.

Lemma stored_append_tag d x t y :
  is_Some (Dag.dag_nodes (append_tag d x t) !! y) <-> is_Some (Dag.dag_nodes d !! y).
Proof. apply lookup_alter_is_Some. Qed.

(** The tables after [verify_data]: the loops, in order. *)
Lemma verify_data_loops root manager sig expiry secs now s :
  verify_manager_auth manager sig (be_bytes 32 root) expiry secs = Ok tt ->
  let s1 := mkState (append_tag (db s) root (Resolved manager now)) (proj s) (incidents s)
    (composite_incidents s) (next s) in
  let ids := i_id ∘ snd <$> filter (fun e => root ∈ i_roots e.2) (hm_iter (incidents s)) in
  exists comp_ids new_icos,
    (verify_data root manager sig expiry secs now s).2 = Ok new_icos /\
    db (verify_data root manager sig expiry secs now s).1 =
    db (foldl (late_composite now) (foldl (late_ico now)
      (foldl (resolve_ico root manager now) s1 ids) ids) comp_ids).
Proof.
  intros Hauth s1 ids. unfold verify_data. rewrite Hauth. fold s1. fold ids.
  set (s2 := foldl (resolve_ico root manager now) s1 ids).
  set (comp_ids := c_id ∘ snd <$> _). set (s3 := foldl _ _ comp_ids).
  pose proof (decompose_db root now s3) as Hd.
  destruct (decompose_composites_if_needed root now s3) as [s4 l]. exists comp_ids, l.
  split; [done|exact Hd].
Qed.

(** The roots and deltas of an incident. *)
Definition chain_of (s : State) (id : IncidentId) : option (list DeltaId * gset N) :=
  (fun i => (i_roots i, i_deltas i)) <$> incidents s !! id.

Lemma resolve_loop_chain root manager at_ ids s id :
  chain_of (foldl (resolve_ico root manager at_) s ids) id = chain_of s id.
Proof.
  revert s. induction ids as [|id' ids IH]; intros s; [done|]. cbn [foldl]. rewrite IH.
  unfold chain_of, resolve_ico. destruct (incidents s !! id') as [ico|] eqn:Hl; [|done].
  assert (forall db pr, (fun i => (i_roots i, i_deltas i)) <$>
    incidents (mkState db pr (<[id':=i_audit ico at_ (mkAudit VerifyData manager at_ [root])]>
      (incidents s)) (composite_incidents s) (next s)) !! id =
    (fun i => (i_roots i, i_deltas i)) <$> incidents s !! id) as Hsame.
  { intros d pr. cbn [incidents]. destruct (decide (id = id')) as [->|Hne].
    - by rewrite lookup_insert_eq, Hl.
    - by rewrite lookup_insert_ne. }
  destruct (all_resolved _ _); apply Hsame.
Qed.

Lemma late_loop_chain at_ ids s id :
  id ∉ ids -> chain_of (foldl (late_ico at_) s ids) id = chain_of s id.
Proof.
  revert s. induction ids as [|id' ids IH]; intros s Hid; [done|]. cbn [foldl].
  apply not_elem_of_cons in Hid as [Hne Hid]. rewrite IH by done. unfold chain_of, late_ico.
  destruct (incidents s !! id') as [ico|]; [|done].
  destruct (late_loop _ _ _ _ _ _) as [d ds]. cbn [incidents]. by rewrite lookup_insert_ne.
Qed.

Lemma grows_stored P d d' x :
  grows P d d' -> is_Some (Dag.dag_nodes d !! x) -> is_Some (Dag.dag_nodes d' !! x).
Proof. intros [_ Hr] Hx. destruct (Hr x) as (more & _ & ->). by apply fmap_is_Some. Qed.

Lemma grows_keeps P d d' x t : grows P d d' -> t ∈ read_tags d x -> t ∈ read_tags d' x.
Proof.
  intros Hg Ht. destruct (grows_read _ _ _ x Hg) as (more & _ & ->). apply elem_of_app. by left.
Qed.

Section LoopResults.
Context (s0 : State) (d1 : Dag.Tables) (at_ : Z).
Hypothesis keyed : forall id ico, incidents s0 !! id = Some ico -> i_id ico = id.

(** The loop of step 3 decontaminates the deltas of a resolved incident. *)
Lemma resolve_loop_done root manager ids s id ico x :
  loop_inv s0 d1 at_ s -> id ∈ ids -> incidents s !! id = Some ico ->
  all_resolved d1 (i_roots ico) = true -> x ∈ i_deltas ico ->
  is_Some (Dag.dag_nodes d1 !! x) ->
  Decontaminated id at_ ∈ read_tags (db (foldl (resolve_ico root manager at_) s ids)) x.
Proof.
  intros Hs Hin Hl Hall Hx Hst. apply list_elem_of_split in Hin as (pre & post & ->).
  rewrite foldl_app. cbn [foldl]. set (sp := foldl _ s pre).
  pose proof (resolve_ico_advances s0 d1 at_ keyed root manager) as Hadv.
  destruct (foldl_advances s0 d1 at_ _ pre s Hadv Hs) as [Hp Gp]. fold sp in Hp, Gp.
  pose proof (resolve_loop_chain root manager at_ pre s id) as Hc. fold sp in Hc.
  unfold chain_of in Hc. rewrite Hl in Hc.
  destruct (incidents sp !! id) as [icop|] eqn:Hlp; [|done]. injection Hc as Hr Hd.
  destruct (Hadv sp id Hp) as [Hq _].
  destruct (foldl_advances s0 d1 at_ _ post _ Hadv Hq) as [_ Gq].
  eapply grows_keeps; [exact Gq|].
  eapply resolve_ico_done; [exact keyed|exact Hp|exact Hlp|by rewrite Hr|by rewrite Hd|].
  eapply grows_stored; [apply Hp|done].
Qed.

(** The loop of step 4 tags what arrived below the roots of an incident. *)
Lemma late_loop_done ids s id ico r x :
  loop_inv s0 d1 at_ s -> id ∈ ids -> incidents s !! id = Some ico -> r ∈ i_roots ico ->
  has_resolved_tag d1 r = all_resolved d1 (i_roots ico) ->
  Dag.reachable (Dag.dag_edges d1) r x -> x ∉ i_deltas ico ->
  is_Some (Dag.dag_nodes d1 !! x) ->
  exists r', (if all_resolved d1 (i_roots ico) then Decontaminated id at_ else Contaminated r' id)
    ∈ read_tags (db (foldl (late_ico at_) s ids)) x.
Proof.
  intros Hs Hin Hl Hr Hrr Hx Hnin Hst.
  apply list_elem_of_split_l in Hin as (pre & post & -> & Hpre).
  rewrite foldl_app. cbn [foldl]. set (sp := foldl _ s pre).
  pose proof (late_ico_advances s0 d1 at_ keyed) as Hadv.
  destruct (foldl_advances s0 d1 at_ _ pre s Hadv Hs) as [Hp Gp]. fold sp in Hp, Gp.
  pose proof (late_loop_chain at_ pre s id Hpre) as Hc. fold sp in Hc.
  unfold chain_of in Hc. rewrite Hl in Hc.
  destruct (incidents sp !! id) as [icop|] eqn:Hlp; [|done]. injection Hc as Hroots Hd.
  destruct (Hadv sp id Hp) as [Hq _].
  destruct (foldl_advances s0 d1 at_ _ post _ Hadv Hq) as [_ Gq].
  destruct (loop_inv_ico s0 d1 at_ keyed sp id icop Hp Hlp) as [_ Hlist].
  pose proof (late_loop_spec s0 d1 at_ keyed id (i_roots icop) (i_roots icop)
    (all_resolved (db sp) (i_roots icop)) (db sp) (i_deltas icop) Hlist ltac:(done)) as Hloop.
  revert Gq. unfold late_ico at 1. rewrite Hlp.
  rewrite (loop_all_resolved s0 d1 at_ sp), Hroots, Hd in * by done.
  destruct (late_loop _ _ _ _ _ _) as [d' ds'] eqn:Hll. cbn [db]. intros Gq.
  destruct Hloop as (_ & _ & _ & Hlate); [done|apply Hp|].
  destruct (Hlate r x Hr Hrr Hx) as [_ Hex]. destruct Hex as [r' Ht]; [done| |].
  - eapply grows_stored; [apply Hp|done].
  - exists r'. eapply grows_keeps; [exact Gq|exact Ht].
Qed.
End LoopResults.

(** C25: what a verification appends to the tag log.  Beyond the [Resolved] entry
    of the root, only [Decontaminated] entries for incidents all of whose
    roots are then resolved and [Contaminated] entries below roots that are
    not; nothing is removed or changed.  For every incident of the root, if
    all its roots are resolved each of its stored deltas is decontaminated,
    and the deltas that arrived below its roots after the incident was
    opened are tagged too: decontaminated when all roots are resolved,
    contaminated below the unresolved ones otherwise. *)
Theorem verify_data_tags root manager sig expiry secs now s :
  registry_wf s -> verify_manager_auth manager sig (be_bytes 32 root) expiry secs = Ok tt ->
  let s' := (verify_data root manager sig expiry secs now s).1 in
  let d1 := append_tag (db s) root (Resolved manager now) in
  grows (justified s d1 now) d1 (db s') /\
  forall id ico, incidents s !! id = Some ico -> root ∈ i_roots ico ->
    let resolved := all_resolved d1 (i_roots ico) in
    (resolved = true -> forall x, x ∈ i_deltas ico -> is_Some (Dag.dag_nodes (db s) !! x) ->
      Decontaminated id now ∈ read_tags (db s') x) /\
    (forall r x, r ∈ i_roots ico -> has_resolved_tag d1 r = resolved ->
      Dag.reachable (Dag.dag_edges (db s)) r x -> x ∉ i_deltas ico ->
      is_Some (Dag.dag_nodes (db s) !! x) ->
      exists r', (if resolved then Decontaminated id now else Contaminated r' id)
        ∈ read_tags (db s') x).
Proof.
  intros Hwf Hauth s' d1.
  destruct (verify_data_loops root manager sig expiry secs now s Hauth) as (comp_ids & l & _ & Hdb).
  fold s' in Hdb. set (s1 := mkState _ _ _ _ _) in Hdb. set (ids := i_id ∘ snd <$> _) in Hdb.
  pose proof (rw_ico s Hwf) as Hkey.
  assert (loop_inv s d1 now s1) as H1.
  { split; [reflexivity| |]; intros id; cbn [s1 incidents composite_incidents];
      destruct (_ !! id); constructor; by split_and!. }
  destruct (foldl_advances s d1 now _ ids s1 (resolve_ico_advances s d1 now Hkey root manager) H1)
    as [H2 G2].
  destruct (foldl_advances s d1 now _ ids _ (late_ico_advances s d1 now Hkey) H2) as [H3 G3].
  destruct (foldl_advances s d1 now _ comp_ids _ (late_composite_advances s d1 now Hkey) H3)
    as [_ G4]. rewrite <- Hdb in G4.
  split; [by etrans; [exact G2|]; etrans; [exact G3|]|].
  intros id ico Hl Hroot resolved.
  assert (id ∈ ids) as Hin.
  { unfold ids. apply list_elem_of_fmap. exists (id, ico). split; [by rewrite <- (Hkey _ _ Hl)|].
    apply list_elem_of_filter. split; [done|]. by apply elem_of_hm_iter. }
  split.
  - intros Hall x Hx Hst. eapply grows_keeps; [by etrans; [exact G3|]|].
    eapply resolve_loop_done; try done. by apply stored_append_tag.
  - intros r x Hr Hrr Hx Hnin Hst.
    set (s2 := foldl _ s1 ids) in *.
    assert (chain_of s2 id = chain_of s1 id) as Hc by apply resolve_loop_chain.
    unfold chain_of in Hc. cbn [s1 incidents] in Hc. rewrite Hl in Hc.
    destruct (incidents s2 !! id) as [ico2|] eqn:Hl2; [|done]. injection Hc as Hroots Hd.
    destruct (late_loop_done s d1 now Hkey ids s2 id ico2 r x) as [r' Ht]; try done.
    + by rewrite Hroots.
    + by rewrite Hroots.
    + by rewrite Hd.
    + by apply stored_append_tag.
    + rewrite Hroots in Ht. exists r'. eapply grows_keeps; [exact G4|exact Ht].
Qed.

(** In any state: a verification only appends to the tag log. *)
Lemma late_loop_grows roots resolved id at_ d ds :
  grows (fun _ _ => True) d (late_loop roots resolved id at_ d ds).1.
Proof.
  revert d ds. induction roots as [|r roots IH]; intros d ds; [reflexivity|]. cbn [late_loop].
  case_match; [|apply IH]. unfold walk_late_arrival_descendants. etrans; [|apply IH]. by apply append_all_grows.
Qed.

Lemma verify_data_grows root manager sig expiry secs now s :
  grows (fun _ _ => True) (db s) (db (verify_data root manager sig expiry secs now s).1).
Proof.
  destruct (verify_manager_auth manager sig (be_bytes 32 root) expiry secs) as [[]|e] eqn:Ha;
    [|unfold verify_data; by rewrite Ha].
  destruct (verify_data_loops root manager sig expiry secs now s Ha) as (comp_ids & l & _ & ->).
  etrans; [by apply (append_tag_grows _ (db s) root (Resolved manager now))|].
  etrans; [|apply (foldl_preserves _ db)]; [etrans; [|apply (foldl_preserves _ db)];
    [apply (foldl_preserves (grows _) db _ _ (mkState _ _ _ _ _))|]|]; clear; intros s id.
  - unfold resolve_ico. destruct (incidents s !! id); [|done]. case_match; [|done]. by apply append_all_grows.
  - unfold late_ico. destruct (incidents s !! id) as [ico|]; [|done].
    pose proof (late_loop_grows (i_roots ico) (all_resolved (db s) (i_roots ico)) id now (db s) (i_deltas ico)).
    by destruct (late_loop _ _ _ _ _ _).
  - unfold late_composite. destruct (composite_incidents s !! id) as [c|]; [|done].
    pose proof (late_loop_grows (c_roots c) (all_resolved (db s) (c_roots c)) id now (db s) (c_deltas c)).
    by destruct (late_loop _ _ _ _ _ _).
Qed.

Lemma verify_data_texts root manager sig expiry secs now s :
  same_texts (proj s) (proj (verify_data root manager sig expiry secs now s).1).
Proof.
  unfold verify_data. destruct (verify_manager_auth _ _ _ _ _) as [[]|e]; [|done].
  unfold decompose_composites_if_needed. set (s1 := foldl (late_composite now) _ _). set (ids := c_id ∘ snd <$> _).
  assert (same_texts (proj s) (proj s1)) as Hs1.
  { unfold s1. etrans; [|apply (foldl_preserves _ proj)]; [etrans; [|apply (foldl_preserves _ proj)];
      [apply (foldl_preserves same_texts proj _ _ (mkState _ _ _ _ _))|]|]; clear; intros s id.
    - unfold resolve_ico. destruct (incidents s !! id); [|done]. case_match; [apply same_texts_clear|done].
    - unfold late_ico. destruct (incidents s !! id); [|done]. by destruct (late_loop _ _ _ _ _ _).
    - unfold late_composite. destruct (composite_incidents s !! id); [|done]. by destruct (late_loop _ _ _ _ _ _). }
  clearbody s1 ids. etrans; [exact Hs1|].
  pose proof (foldl_preserves same_texts (proj ∘ fst) (decompose_one now) ids (s1, [])) as Hd.
  destruct (foldl (decompose_one now) (s1, []) ids) as [s2 icos]. apply Hd. clear. intros [s icos] id.
  cbn [decompose_one]. destruct (composite_incidents s !! id) as [comp|]; [|done].
  apply (foldl_preserves same_texts (proj ∘ fst) _ _ (mkState _ _ _ _ _, _)). clear. intros [s icos] r. apply same_texts_mark.
Qed.

(** ** Authorisation and closing *)

Lemma verify_manager_auth_ok manager sig payload expiry secs :
  verify_manager_auth manager sig payload expiry secs = Ok tt <->
  wrap_i64 (secs * 1000000) < expiry /\ exists k, Did.resolve_did manager = Ok k /\
    Keypair.verify k payload sig = Ok tt.
Proof.
  unfold verify_manager_auth. destruct (Z.leb_spec expiry (wrap_i64 (secs * 1000000))).
  - split; [done|]. intros [? _]. lia.
  - destruct (Did.resolve_did manager) as [k|]; simpl; [|by split; [done|intros (_ & ? & ? & _)]].
    destruct (Keypair.verify k payload sig) as [[]|] eqn:Hk; simpl.
    + split; [|done]. intros _. split; [done|]. by exists k.
    + split; [done|]. intros (_ & k' & [= ->] & ?). congruence.
Qed.

Lemma verify_manager_auth_err manager sig payload expiry secs e :
  verify_manager_auth manager sig payload expiry secs = Err e ->
  exists reason, e = AuthorisationFailed reason.
Proof.
  unfold verify_manager_auth. case_match; [intros [= <-]; eauto|].
  destruct (Did.resolve_did manager) as [k|]; simpl; [|intros [= <-]; eauto].
  destruct (Keypair.verify k payload sig) as [[]|]; simpl; [done|intros [= <-]; eauto].
Qed.

(** The manager's token is in force and the signature covers the payload. *)
Definition authorised (manager : Did) (sig payload : bytes) (expiry secs : Z) : Prop :=
  wrap_i64 (secs * 1000000) < expiry /\ exists k, Did.resolve_did manager = Ok k /\
    Keypair.verify k payload sig = Ok tt.

(** No operation of the engine takes effect without a manager's signature.
    [verify_data] without authorisation (an expired token, a DID that does not
    resolve, a signature that does not cover the root) leaves the whole engine
    as it was and says [AuthorisationFailed]; with it, it succeeds.
    [admin_close], which signs the incident id, closes only an open incident
    and reports the state otherwise, keeps every tag and every row flag, and
    adds one audit entry by that manager. *)
Theorem engine_operations_guarded e manager sig expiry secs now :
  (forall root,
    let '(e', r) := engine_verify_data e root manager sig expiry secs now in
    (authorised manager sig (be_bytes 32 root) expiry secs -> r = Ok tt) /\
    (~ authorised manager sig (be_bytes 32 root) expiry secs ->
      e' = e /\ exists reason, r = Err (AuthorisationFailed reason))) /\
  (forall id,
    let '(e', r) := engine_admin_close e id manager sig expiry secs now in
    db (core e') = db (core e) /\ proj (core e') = proj (core e) /\
    contaminated_rows e' = contaminated_rows e /\
    (~ authorised manager sig (be_bytes 16 id) expiry secs ->
      e' = e /\ exists reason, r = Err (AuthorisationFailed reason)) /\
    (authorised manager sig (be_bytes 16 id) expiry secs ->
      match incidents (core e) !! id with
      | None => e' = e /\ exists reason, r = Err (LocalStoreWriteFailed reason)
      | Some ico =>
          if decide (i_state ico = Open) then
            r = Ok tt /\ incidents (core e') = <[id := i_audit (i_set_state ico Closed) now
              (mkAudit AdminClose manager now [])]> (incidents (core e))
          else e' = e /\ r = Err (InvalidIncidentState (i_state ico))
      end)).
Proof.
  split.
  - intros root. unfold engine_verify_data, verify_data.
    pose proof (verify_manager_auth_ok manager sig (be_bytes 32 root) expiry secs) as Hok.
    fold (authorised manager sig (be_bytes 32 root) expiry secs) in Hok.
    destruct (verify_manager_auth manager sig (be_bytes 32 root) expiry secs) as [[]|err] eqn:Ha.
    + destruct (decompose_composites_if_needed _ _ _) as [s l].
      split; [done|]. intros Hn. destruct Hn. by apply Hok.
    + apply verify_manager_auth_err in Ha as [reason ->]. destruct e. cbn [core contaminated_rows].
      split; [intros Hau; by apply Hok in Hau|]. split; [done|eauto].
  - intros id. unfold engine_admin_close, admin_close.
    pose proof (verify_manager_auth_ok manager sig (be_bytes 16 id) expiry secs) as Hok.
    fold (authorised manager sig (be_bytes 16 id) expiry secs) in Hok.
    destruct e as [[d p incs comps n] idx]. cbn [core incidents].
    destruct (verify_manager_auth manager sig (be_bytes 16 id) expiry secs) as [[]|err] eqn:Ha.
    + assert (authorised manager sig (be_bytes 16 id) expiry secs) as Hau by (by apply Hok).
      destruct (incs !! id) as [ico|]; [|split_and!; eauto; done].
      destruct (decide (i_state ico = Open)) as [Ho|Ho];
        [rewrite decide_False by (intros ?; contradiction)|rewrite decide_True by done];
        (split_and!; try done; intros ?; by split).
    + apply verify_manager_auth_err in Ha as [reason ->].
      split_and!; try done; [intros _; split; eauto|]. intros Hau. by apply Hok in Hau.
Qed.

(** The registries stay keyed and the undrawn ids new. *)
Lemma tag_registry_wf e root source now :
  registry_wf (core e) -> registry_wf (core (tag_contamination_root e root source now).1).
Proof.
  intros [Hi Hc Hf Hinj].
  assert (forall n m, (n < m)%nat -> now_v7 n <> now_v7 m) as Hne.
  { intros n m Hlt Heq. apply Hinj in Heq. lia. }
  unfold tag_contamination_root. destruct (_ ≫= _) as [[a ico_a]|] eqn:Ho.
  - apply bind_Some in Ho as (a' & _ & Ho). apply fmap_Some in Ho as (ico' & Ha & Ho).
    injection Ho as <- <-. split; simpl; [| | |done].
    + intros id ico [[<- <-]|[? [[<- <-]|[? ?]]%lookup_insert_Some]]%lookup_insert_Some;
        [done|simpl; by apply Hi|by apply Hi].
    + intros id c [[<- <-]|[? ?]]%lookup_insert_Some; [done|by apply Hc].
    + intros n Hn. destruct (Hf n) as [H1 H2]; [lia|].
      rewrite !lookup_insert_ne; [done|apply Hne; lia| |apply Hne; lia].
      intros ->. congruence.
  - split; simpl; [|done| |done].
    + intros id ico [[<- <-]|[? ?]]%lookup_insert_Some; [done|by apply Hi].
    + intros n Hn. destruct (Hf n) as [H1 H2]; [lia|].
      rewrite lookup_insert_ne; [done|apply Hne; lia].
Qed.
End Resolution.
End Contamination.

(** ** Witnesses, and behaviours the comments of the code exclude

    Deltas 1 and 2 are parents of 3, 4 is another parent of 3, 5 is alone; one
    projection table with one row. *)

Section Witnesses.
#[local] Existing Instance toy_bs58.
#[local] Existing Instance toy_ed25519.
#[local] Existing Instance select_canonical.
#[local] Existing Instance hash_iter_canonical.
Import Projection Contamination.

Definition toy_v7 (n : nat) : N := N.of_nat (100 + n).
Definition toy_db : Dag.Tables :=
  Dag.insert_all Ok Dag.empty_tables
    [Dag.diamond_node 1 []; Dag.diamond_node 2 []; Dag.diamond_node 4 [];
     Dag.diamond_node 3 [1; 2; 4]%N; Dag.diamond_node 5 []].
Definition toy_proj : Projection := [("t", {[ "k" := mkProjRow "1" 0 ]})].
Definition toy_new : CausalContaminationEngine := new toy_db toy_proj.
Definition tag (e : CausalContaminationEngine) (root : N) : CausalContaminationEngine :=
  (tag_contamination_root toy_v7 e root (DeviceRevocation root) 9).1.
Definition toy_manager_did : Did := Did.derive_did (ed_public [7]%N).
Definition verify (e : CausalContaminationEngine) (root : N) : CausalContaminationEngine :=
  (engine_verify_data toy_v7 e root toy_manager_did (ed_sign [7]%N (be_bytes 32 root)) 2000000 1 9).1.

Lemma toy_new_wf : registry_wf toy_v7 (core toy_new).
Proof.
  split; [done|done|by intros n _|]. intros n m H. unfold toy_v7 in H. lia.
Defined.

Lemma tag_root_joins_witness :
  exists cid comp, composite_incidents (core (tag (tag toy_new 1) 2)) !! cid = Some comp /\
    c_state comp = Open /\ forall x, x ∈ c_roots comp <-> x ∈ [1%N] \/ x = 2%N.
Proof.
  pose proof (tag_root_joins toy_v7 (tag toy_new 1) 2 (DeviceRevocation 2) 9
    (tag_registry_wf toy_v7 _ _ _ _ toy_new_wf)) as H.
  unfold tag at 1. destruct (tag_contamination_root toy_v7 (tag toy_new 1) 2 _ 9) as [e' r].
  destruct H as [[_ (id & ico & cid & comp & Hi & _ & _ & _ & _ & _ & Hc & Ho & _ & Hr)]|(Hn & _)].
  - exists cid, comp. split; [exact Hc|]. split; [exact Ho|]. intros x. rewrite Hr.
    assert (i_roots ico = [1%N]) as ->; [|done].
    assert (map_Forall (fun _ i => i_roots i = [1%N]) (incidents (core (tag toy_new 1)))) as Hall
      by by_decide.
    exact (Hall id ico Hi).
  - exfalso. destruct (incidents (core (tag toy_new 1)) !! 100%N) as [ico|] eqn:Hico;
      [|vm_compute in Hico; discriminate].
    specialize (Hn 100%N ico Hico).
    assert (Some (bool_decide (i_state ico = Open), bool_decide (3%N ∈ i_deltas ico)) =
      Some (true, true)) as Hb.
    { change (Some (bool_decide (i_state ico = Open), bool_decide (3%N ∈ i_deltas ico))) with
        ((fun i => (bool_decide (i_state i = Open), bool_decide (3%N ∈ i_deltas i))) <$> Some ico).
      rewrite <- Hico. vm_compute. reflexivity. }
    injection Hb as Hs Hd. apply bool_decide_eq_true in Hs, Hd.
    apply (Hn Hs 3%N Hd). by_decide.
Defined.

Lemma verify_data_tags_witness :
  Decontaminated 100 9 ∈ read_tags (db (core (verify (tag toy_new 1) 1))) 3.
Proof.
  pose proof (verify_data_tags toy_v7 1 toy_manager_did (ed_sign [7]%N (be_bytes 32 1)) 2000000 1 9
    (core (tag toy_new 1)) (tag_registry_wf toy_v7 _ _ _ _ toy_new_wf)) as H.
  destruct H as [_ H]; [vm_compute; reflexivity|].
  destruct (incidents (core (tag toy_new 1)) !! 100%N) as [ico|] eqn:Hico;
    [|vm_compute in Hico; discriminate].
  specialize (H 100%N ico Hico).
  assert (Some (bool_decide (1%N ∈ i_roots ico),
    all_resolved (append_tag (db (core (tag toy_new 1))) 1 (Resolved toy_manager_did 9)) (i_roots ico),
    bool_decide (3%N ∈ i_deltas ico)) = Some (true, true, true)) as Hb.
  { change (Some (bool_decide (1%N ∈ i_roots ico),
      all_resolved (append_tag (db (core (tag toy_new 1))) 1 (Resolved toy_manager_did 9)) (i_roots ico),
      bool_decide (3%N ∈ i_deltas ico))) with ((fun i => (bool_decide (1%N ∈ i_roots i),
        all_resolved (append_tag (db (core (tag toy_new 1))) 1 (Resolved toy_manager_did 9)) (i_roots i),
        bool_decide (3%N ∈ i_deltas i))) <$> Some ico).
    rewrite <- Hico. vm_compute. reflexivity. }
  injection Hb as Hr Hall Hd. apply bool_decide_eq_true in Hr, Hd.
  destruct (H Hr) as [Hdone _].
  unfold verify, engine_verify_data.
  specialize (Hdone Hall 3%N Hd ltac:(vm_compute; eauto)).
  destruct (verify_data _ _ _ _ _ _ _ _) as [s [l|err]]; exact Hdone.
Defined.

(** Delta 3 descends from the roots 1 and 2.  Only 1 is resolved, and 3 carries
    a [Decontaminated] entry. *)
Example shared_delta_decontaminated :
  let e := verify (tag (tag toy_new 1) 2) 1 in
  has_resolved_tag (db (core e)) 2 = false /\
  existsb (fun t => bool_decide (t = Decontaminated 100 9)) (read_tags (db (core e)) 3) = true.
Proof. vm_compute. split; reflexivity. Qed.

(** Two disjoint incidents list the same row.  Resolving the later one clears
    the row and its index entry while the earlier is open and unresolved. *)
Example row_of_open_incident_forgotten :
  let e := verify (tag (tag toy_new 1) 5) 5 in
  ((fun i => (i_state i, map row_key (i_rows i))) <$> incidents (core e) !! 100%N)
    = Some (Open, [("t", "k")]) /\
  has_resolved_tag (db (core e)) 1 = false /\
  is_row_contaminated e "t" "k" = false /\
  (p_contaminated <$> row_at (proj (core e)) "t" "k") = Some 0.
Proof. vm_compute. repeat split. Qed.

(** Closing the only incident leaves its row indexed as contaminated. *)
Example closed_incident_keeps_row :
  let '(e, r) := engine_admin_close (tag toy_new 1) 100 toy_manager_did
    (ed_sign [7]%N (be_bytes 16 100)) 2000000 1 9 in
  r = Ok tt /\ open_incidents e = [] /\ is_row_contaminated e "t" "k" = true.
Proof. vm_compute. repeat split. Qed.

(** A third chain that shares delta 3 with a composite is not joined to it. *)
Example third_chain_not_joined :
  let e := tag (tag (tag toy_new 1) 2) 4 in
  (i_state <$> incidents (core e) !! 103%N) = Some Open /\
  size (composite_incidents (core e)) = 1%nat.
Proof. vm_compute. repeat split. Qed.

(** The union of rows compares keys without their tables. *)
Example merge_drops_row :
  let ico t := mkIco 1 Open (DeviceRevocation 1) [1%N] ∅ [mkAffected t "k" 1] None 0 0 [] in
  c_rows (composite_merge 9 (ico "t1") (ico "t2") 0).1.1 = [mkAffected "t1" "k" 1].
Proof. vm_compute. reflexivity. Qed.

(** The index keeps the name a table is listed with, SQLite any spelling of it: a flagged
    row asked for in another letter case is not in the index. *)
Example other_spelling_not_indexed :
  let e := tag (new toy_db [("T", {[ "k" := mkProjRow "1" 0 ]})]) 1 in
  (p_contaminated <$> row_at (proj (core e)) "t" "k") = Some 1 /\
  is_row_contaminated e "T" "k" = true /\ is_row_contaminated e "t" "k" = false.
Proof. vm_compute. repeat split. Qed.
End Witnesses.
