(* ===== verification/BrowserTaint.v ===== *)
(** * The contamination engine of the browser build: the WASM half of [contamination/mod.rs],
      [contamination/taint.rs] and [store/projection.rs], and the event queue of [lib.rs]

    Without SQLite the tag log, the flags of the rows, the index of the rows a Delta wrote and the
    events for the page are thread-locals, the record [Page]; the engine keeps its incidents and a
    DAG of its own.  The data, the merge of two incidents and the closing of one are those of
    [Contamination].  An event carries the incident its JSON is made from, [None] for the [Null]
    of a missing one. *)

From S2P Require Import Prelude Types Kahn Dag Identity Contamination.

Module BrowserTaint.
Import Contamination.

Abbreviation RowKey := (string * string)%type.

(** [lib.rs] *)
Inductive IncidentJson :=
| IcoJson (ico : IncidentContextObject)
| CompositeJson (composite : CompositeIncidentInstance).

Inductive WasmEvent :=
| TrustLevelChanged (previous new : string)
| IncidentCreated (ico : option IncidentJson)
| IncidentUpdated (ico : option IncidentJson)
| IncidentClosed (ico : option IncidentJson)
| DurabilityTierChanged (delta_id previous_tier new_tier : string).

(** The thread-locals; [drawn] numbers the UUIDs. *)
Record Page := mkPage {
  WASM_TAG_STORE : gmap DeltaId (list DeltaTag);
  WASM_PROJ_STORE : gmap string (gmap string bool);
  WASM_DELTA_INDEX : gmap DeltaId (list RowKey);
  WASM_EVENT_QUEUE : list WasmEvent;
  drawn : nat
}.
Definition empty_page : Page := mkPage ∅ ∅ ∅ [] 0.

Record CausalContaminationEngine := mkEngine {
  incidents : gmap IncidentId IncidentContextObject;
  composite_incidents : gmap IncidentId CompositeIncidentInstance;
  dag : Dag.WasmDag;
  contaminated_rows : gmap RowKey IncidentId
}.

Definition set_tags (p : Page) t := mkPage t (WASM_PROJ_STORE p) (WASM_DELTA_INDEX p) (WASM_EVENT_QUEUE p) (drawn p).
Definition set_flags (p : Page) f := mkPage (WASM_TAG_STORE p) f (WASM_DELTA_INDEX p) (WASM_EVENT_QUEUE p) (drawn p).
Definition set_index (p : Page) i := mkPage (WASM_TAG_STORE p) (WASM_PROJ_STORE p) i (WASM_EVENT_QUEUE p) (drawn p).
Definition set_queue (p : Page) q := mkPage (WASM_TAG_STORE p) (WASM_PROJ_STORE p) (WASM_DELTA_INDEX p) q (drawn p).
Definition set_drawn (p : Page) n :=
  mkPage (WASM_TAG_STORE p) (WASM_PROJ_STORE p) (WASM_DELTA_INDEX p) (WASM_EVENT_QUEUE p) n.
Definition set_incidents (e : CausalContaminationEngine) i :=
  mkEngine i (composite_incidents e) (dag e) (contaminated_rows e).
Definition set_rows (e : CausalContaminationEngine) r :=
  mkEngine (incidents e) (composite_incidents e) (dag e) r.

(** ** The thread-locals *)

Definition push_wasm_event (p : Page) (event : WasmEvent) : Page := set_queue p (WASM_EVENT_QUEUE p ++ [event]).

Definition core_poll_events (p : Page) : Page * list WasmEvent := (set_queue p [], WASM_EVENT_QUEUE p).

Definition append_tag (p : Page) (delta_id : DeltaId) (tag : DeltaTag) : Page :=
  set_tags p (<[delta_id := default [] (WASM_TAG_STORE p !! delta_id) ++ [tag]]> (WASM_TAG_STORE p)).

Definition read_tags_from_mem (p : Page) (delta_id : DeltaId) : list DeltaTag :=
  default [] (WASM_TAG_STORE p !! delta_id).

Definition mark_row_contaminated (p : Page) (table row_key : string) : Page :=
  set_flags p (<[table := <[row_key := true]> (default ∅ (WASM_PROJ_STORE p !! table))]> (WASM_PROJ_STORE p)).

Definition clear_row_contamination (p : Page) (table row_key : string) : Page :=
  set_flags p (alter <[row_key := false]> table (WASM_PROJ_STORE p)).

Definition record_delta_row (p : Page) (delta_id : DeltaId) (table row_key : string) : Page :=
  let entry := default [] (WASM_DELTA_INDEX p !! delta_id) in
  let entry := if decide ((table, row_key) ∈ entry) then entry else entry ++ [(table, row_key)] in
  set_index p (<[delta_id := entry]> (WASM_DELTA_INDEX p)).

Definition rows_by_delta_id (p : Page) (delta_id : DeltaId) : list RowKey :=
  default [] (WASM_DELTA_INDEX p !! delta_id).

Definition append_all (p : Page) (ids : list DeltaId) (tag : DeltaTag) : Page :=
  foldl (fun p delta_id => append_tag p delta_id tag) p ids.

Definition all_resolved (p : Page) (roots : list DeltaId) : bool :=
  forallb (fun root => existsb is_resolved (read_tags_from_mem p root)) roots.

Section BrowserTaint.
Context {BS : Bs58} {ED : Ed25519}.
Context {HR : HashIter RowKey N} {HI : HashIter N IncidentContextObject}.
Context (now_v7 : nat -> IncidentId).

(** ** The walk and the rows *)

Definition walk_dag_descendants (g : Dag.WasmDag) (root : DeltaId) : list DeltaId := Dag.wasm_bfs_descendants g root.

(** Defined in the code, without a caller. *)
Definition walk_late_arrival_descendants (p : Page) (root : DeltaId) (g : Dag.WasmDag) (snapshot : gset N)
    (resolved : bool) (incident_id : IncidentId) (at_ : Z) : Page * list DeltaId :=
  let late_arrivals := filter (fun d => d ∉ snapshot) (Dag.wasm_bfs_descendants g root) in
  (append_all p late_arrivals (if resolved then Decontaminated incident_id at_ else Contaminated root incident_id),
   late_arrivals).

Definition or_insert (seen : gmap RowKey DeltaId) (row : RowKey) (delta_id : DeltaId) : gmap RowKey DeltaId :=
  match seen !! row with Some _ => seen | None => <[row := delta_id]> seen end.

(** The first Delta of the list that wrote a row is the one it is attributed to. *)
Definition seen_rows (p : Page) (delta_ids : list DeltaId) : gmap RowKey DeltaId :=
  foldl (fun seen delta_id =>
    foldl (fun seen row => or_insert seen row delta_id) seen (rows_by_delta_id p delta_id)) ∅ delta_ids.

Definition resolve_affected_rows (p : Page) (delta_ids : list DeltaId) : list AffectedRow :=
  (fun e => mkAffected e.1.1 e.1.2 e.2) <$> hm_iter (seen_rows p delta_ids).

(** ** The engine *)

Definition new : CausalContaminationEngine := mkEngine ∅ ∅ Dag.empty_wasm ∅.

Definition tag_contamination_root (e : CausalContaminationEngine) (p : Page) (root_delta_id : DeltaId)
    (source : TaintSource) (now : Z) : CausalContaminationEngine * Page * Res IncidentId :=
  let ico_id := now_v7 (drawn p) in
  let descendants := walk_dag_descendants (dag e) root_delta_id in
  let p := append_all p descendants (Contaminated root_delta_id ico_id) in
  let affected_rows := resolve_affected_rows p descendants in
  let new_ico := mkIco ico_id Open source [root_delta_id] (list_to_set descendants) affected_rows None now now [] in
  let overlapping_id := head (i_id ∘ snd <$>
    filter (fun x => i_state x.2 = Open /\ ~ (i_deltas x.2 ## i_deltas new_ico)) (hm_iter (incidents e))) in
  match overlapping_id ≫= fun id => pair id <$> incidents e !! id with
  | Some (existing_ico_id, ico_a) =>
      let composite_id := now_v7 (S (drawn p)) in
      let '(composite, ico_a, ico_b) := composite_merge composite_id ico_a new_ico now in
      let p := push_wasm_event (set_drawn p (S (S (drawn p)))) (IncidentCreated (Some (CompositeJson composite))) in
      (mkEngine (<[ico_id := ico_b]> (<[existing_ico_id := ico_a]> (incidents e)))
         (<[composite_id := composite]> (composite_incidents e)) (dag e)
         (index_rows (contaminated_rows e) (c_rows composite) composite_id), p, Ok composite_id)
  | None =>
      let p := push_wasm_event (set_drawn p (S (drawn p))) (IncidentCreated (Some (IcoJson new_ico))) in
      (mkEngine (<[ico_id := new_ico]> (incidents e)) (composite_incidents e) (dag e)
         (index_rows (contaminated_rows e) affected_rows ico_id), p, Ok ico_id)
  end.

(** The loop of [verify_data] over the incidents of the root. *)
Definition verify_ico (root : DeltaId) (manager : Did) (at_ : Z) (s : gmap IncidentId IncidentContextObject * Page)
    (ico_id : IncidentId) : gmap IncidentId IncidentContextObject * Page :=
  let '(incs, p) := s in
  match incs !! ico_id with
  | None => (incs, p)
  | Some ico =>
      let ico := i_audit ico at_ (mkAudit VerifyData manager at_ [root]) in
      let incs := <[ico_id := ico]> incs in
      if all_resolved p (i_roots ico) then
        let p := append_all p (elements (i_deltas ico)) (Decontaminated ico_id at_) in
        (incs, push_wasm_event p (IncidentClosed (IcoJson <$> incs !! ico_id)))
      else (incs, push_wasm_event p (IncidentUpdated (IcoJson <$> incs !! ico_id)))
  end.

(** The entry of a row is kept while its incident is open. *)
Definition keeps (e : CausalContaminationEngine) (incident_id : IncidentId) : bool :=
  match incidents e !! incident_id with Some ico => bool_decide (i_state ico = Open) | None => false end ||
  match composite_incidents e !! incident_id with Some c => bool_decide (c_state c = Open) | None => false end.

Definition verify_data (e : CausalContaminationEngine) (p : Page) (root_delta_id : DeltaId) (manager_did : Did)
    (manager_sig : bytes) (manager_token_expiry now_secs now_micros : Z) : CausalContaminationEngine * Page * Res unit :=
  match verify_manager_auth manager_did manager_sig (be_bytes 32 root_delta_id) manager_token_expiry now_secs with
  | Err err => (e, p, Err err)
  | Ok _ =>
      let p := append_tag p root_delta_id (Resolved manager_did now_micros) in
      let ico_ids := i_id ∘ snd <$> filter (fun x => root_delta_id ∈ i_roots x.2) (hm_iter (incidents e)) in
      let '(incs, p) := foldl (verify_ico root_delta_id manager_did now_micros) (incidents e, p) ico_ids in
      let e := set_incidents e incs in
      (set_rows e (filter (fun kv => keeps e kv.2 = true) (contaminated_rows e)), p, Ok tt)
  end.

Definition admin_close (e : CausalContaminationEngine) (p : Page) (incident_id : IncidentId) (manager_did : Did)
    (manager_sig : bytes) (manager_token_expiry now_secs now_micros : Z) : CausalContaminationEngine * Page * Res unit :=
  match Contamination.admin_close incident_id manager_did manager_sig manager_token_expiry now_secs now_micros
      (incidents e) with
  | (incs, Err err) => (set_incidents e incs, p, Err err)
  | (incs, Ok _) => (set_incidents e incs, push_wasm_event p (IncidentClosed (IcoJson <$> incs !! incident_id)), Ok tt)
  end.

Definition get_incident (e : CausalContaminationEngine) (id : IncidentId) : option IncidentContextObject :=
  incidents e !! id.
Definition open_incidents (e : CausalContaminationEngine) : list IncidentContextObject :=
  snd <$> filter (fun x => i_state x.2 = Open) (hm_iter (incidents e)).
Definition is_row_contaminated (e : CausalContaminationEngine) (table row_key : string) : bool :=
  bool_decide (is_Some (contaminated_rows e !! (table, row_key))).
Definition active_incident_for_row (e : CausalContaminationEngine) (table row_key : string) : option IncidentId :=
  contaminated_rows e !! (table, row_key).

(** ** Histories *)

Inductive TaintOp :=
| OpTag (root : DeltaId) (source : TaintSource) (now : Z)
| OpVerify (root : DeltaId) (manager_did : Did) (manager_sig : bytes) (expiry now_secs now_micros : Z)
| OpClose (id : IncidentId) (manager_did : Did) (manager_sig : bytes) (expiry now_secs now_micros : Z)
| OpRecordRow (delta_id : DeltaId) (table row_key : string)
| OpPoll.

Definition exec (s : CausalContaminationEngine * Page) (op : TaintOp) : CausalContaminationEngine * Page :=
  match op with
  | OpTag root source now => (tag_contamination_root s.1 s.2 root source now).1
  | OpVerify root did sig expiry now_secs now_micros => (verify_data s.1 s.2 root did sig expiry now_secs now_micros).1
  | OpClose id did sig expiry now_secs now_micros => (admin_close s.1 s.2 id did sig expiry now_secs now_micros).1
  | OpRecordRow delta_id table row_key => (s.1, record_delta_row s.2 delta_id table row_key)
  | OpPoll => (s.1, (core_poll_events s.2).1)
  end.
Definition run (s : CausalContaminationEngine * Page) (ops : list TaintOp) : CausalContaminationEngine * Page :=
  foldl exec s ops.

(** ** Rows *)

Lemma seen_one delta_id rows seen row :
  foldl (fun seen row => or_insert seen row delta_id) seen rows !! row =
  match seen !! row with Some d => Some d | None => if decide (row ∈ rows) then Some delta_id else None end.
Proof.
  revert seen. induction rows as [|r rows IH]; intros seen; cbn [foldl]; [by destruct (seen !! row)|].
  rewrite IH. unfold or_insert. destruct (decide (r = row)) as [->|Hne].
  - destruct (seen !! row) as [d|] eqn:Hs; rewrite ?Hs, ?lookup_insert_eq; [done|].
    by rewrite decide_True by left.
  - assert ((match seen !! r with Some _ => seen | None => <[r := delta_id]> seen end) !! row = seen !! row) as ->
      by (destruct (seen !! r); [done|by rewrite lookup_insert_ne]).
    by rewrite (decide_ext (row ∈ rows) (row ∈ r :: rows)) by set_solver.
Qed.

(** The first Delta of [ids] that recorded the row. *)
Definition first_writer (p : Page) (ids : list DeltaId) (row : RowKey) : option DeltaId :=
  head (filter (fun d => row ∈ rows_by_delta_id p d) ids).

Lemma seen_rows_lookup p ids row : seen_rows p ids !! row = first_writer p ids row.
Proof.
  unfold seen_rows. assert (forall seen, foldl (fun seen delta_id =>
      foldl (fun seen row => or_insert seen row delta_id) seen (rows_by_delta_id p delta_id)) seen ids !! row =
    match seen !! row with Some d => Some d | None => first_writer p ids row end) as ->;
    [|by rewrite lookup_empty].
  induction ids as [|d ids IH]; intros seen; cbn [foldl]; [by destruct (seen !! row)|].
  rewrite IH, seen_one. unfold first_writer. rewrite filter_cons.
  destruct (seen !! row); [done|]. by case_decide.
Qed.

Lemma affected_rows_spec p ids r :
  r ∈ resolve_affected_rows p ids <-> first_writer p ids (a_table r, a_row_key r) = Some (a_delta_id r).
Proof.
  unfold resolve_affected_rows. rewrite list_elem_of_fmap, <- seen_rows_lookup. split.
  - intros (([t k] & d) & -> & Hin). by apply elem_of_hm_iter in Hin.
  - intros Hl. exists ((a_table r, a_row_key r), a_delta_id r). split; [by destruct r|]. by apply elem_of_hm_iter.
Qed.

Lemma page_index_lookup idx rows id row :
  index_rows idx rows id !! row =
  if decide (row ∈ (fun r => (a_table r, a_row_key r)) <$> rows) then Some id else idx !! row.
Proof.
  revert idx. unfold index_rows. induction rows as [|r rows IH]; intros idx; cbn [foldl fmap list_fmap]; [done|].
  rewrite IH. destruct (decide (row = (a_table r, a_row_key r))) as [->|Hne].
  - rewrite (decide_True (P := _ ∈ _ :: _)) by left. case_decide; [done|]. by rewrite lookup_insert_eq.
  - rewrite lookup_insert_ne by done.
    by rewrite (decide_ext (row ∈ (fun r => (a_table r, a_row_key r)) <$> rows)
      (row ∈ (a_table r, a_row_key r) :: ((fun r => (a_table r, a_row_key r)) <$> rows))) by set_solver.
Qed.

(** ** Tags *)

Lemma append_all_frame p ids t :
  WASM_PROJ_STORE (append_all p ids t) = WASM_PROJ_STORE p /\ WASM_DELTA_INDEX (append_all p ids t) = WASM_DELTA_INDEX p /\
  WASM_EVENT_QUEUE (append_all p ids t) = WASM_EVENT_QUEUE p /\ drawn (append_all p ids t) = drawn p.
Proof. revert p. induction ids as [|d ids IH]; intros p; [done|]. exact (IH (append_tag p d t)). Qed.

Lemma read_append_tag p d t x :
  read_tags_from_mem (append_tag p d t) x = read_tags_from_mem p x ++ (if decide (x = d) then [t] else []).
Proof.
  unfold read_tags_from_mem, append_tag. cbn. case_decide as Hx.
  - subst. by rewrite lookup_insert_eq.
  - by rewrite lookup_insert_ne, app_nil_r.
Qed.

Lemma page_append_all p ids t x :
  exists n, read_tags_from_mem (append_all p ids t) x = read_tags_from_mem p x ++ replicate n t /\
    (0 < n <-> x ∈ ids)%nat.
Proof.
  revert p. induction ids as [|d ids IH]; intros p; cbn [append_all foldl].
  - exists 0%nat. rewrite app_nil_r. split; [done|]. split; [lia|by intros ?%not_elem_of_nil].
  - destruct (IH (append_tag p d t)) as (n & Hn & Hin). unfold append_all in Hn. rewrite Hn, read_append_tag.
    destruct (decide (x = d)) as [->|Hne].
    + exists (S n). rewrite <- app_assoc. split; [done|]. split; [by left|lia].
    + exists n. rewrite app_nil_r. split; [done|]. rewrite Hin. set_solver.
Qed.

Lemma append_all_resolved p ids t roots : is_resolved t = false ->
  all_resolved (append_all p ids t) roots = all_resolved p roots.
Proof.
  intros Ht. unfold all_resolved. induction roots as [|r roots IH]; [done|]. cbn [forallb]. rewrite IH. f_equal.
  destruct (page_append_all p ids t r) as (n & -> & _). rewrite existsb_app.
  replace (existsb is_resolved (replicate n t)) with false; [by rewrite orb_false_r|].
  induction n as [|n IHn]; [done|]. cbn. by rewrite Ht, <- IHn.
Qed.

(** ** One verification *)

Definition ids_ok (incs : gmap IncidentId IncidentContextObject) : Prop := map_Forall (fun id ico => i_id ico = id) incs.

Definition audited (root : DeltaId) (manager : Did) (at_ : Z) (ico : IncidentContextObject) : IncidentContextObject :=
  i_audit ico at_ (mkAudit VerifyData manager at_ [root]).

(** The event of one incident. *)
Definition verdict (p : Page) (ico : IncidentContextObject) : WasmEvent :=
  if all_resolved p (i_roots ico) then IncidentClosed (Some (IcoJson ico)) else IncidentUpdated (Some (IcoJson ico)).

Lemma verify_ico_spec root did at_ incs p id :
  let r := verify_ico root did at_ (incs, p) id in
  r.1 = alter (audited root did at_) id incs /\
  WASM_EVENT_QUEUE r.2 = WASM_EVENT_QUEUE p ++ option_list (verdict p <$> (audited root did at_ <$> incs !! id)) /\
  (forall roots, all_resolved r.2 roots = all_resolved p roots) /\
  (forall d, exists n, read_tags_from_mem r.2 d = read_tags_from_mem p d ++ replicate n (Decontaminated id at_) /\
     ((0 < n)%nat <-> exists ico, incs !! id = Some ico /\ all_resolved p (i_roots ico) = true /\ d ∈ i_deltas ico)).
Proof.
  cbn zeta. unfold verify_ico. destruct (incs !! id) as [ico|] eqn:Hico.
  2:{ cbn. split_and!; [by rewrite alter_id by (by intros ? ?; simplify_eq)|by rewrite app_nil_r|done|].
      intros d. exists 0%nat. rewrite app_nil_r. split; [done|]. split; [lia|by intros (? & ? & _)]. }
  fold (audited root did at_ ico). assert (<[id := audited root did at_ ico]> incs = alter (audited root did at_) id incs) as Hins.
  { apply map_eq. intros j. destruct (decide (j = id)) as [->|Hj].
    - by rewrite lookup_insert_eq, lookup_alter_eq, Hico.
    - by rewrite lookup_insert_ne, lookup_alter_ne. }
  assert ((alter (audited root did at_) id incs) !! id = Some (audited root did at_ ico)) as Hl
    by (by rewrite lookup_alter_eq, Hico).
  cbn [fmap option_fmap option_map option_list]. unfold verdict.
  change (i_roots (audited root did at_ ico)) with (i_roots ico).
  change (i_deltas (audited root did at_ ico)) with (i_deltas ico).
  rewrite Hins, Hl. cbn [fmap option_fmap option_map].
  destruct (all_resolved p (i_roots ico)) eqn:Hres; cbn [fst snd].
  - destruct (append_all_frame p (elements (i_deltas ico)) (Decontaminated id at_)) as (_ & _ & Hq & _).
    split_and!; [done|by cbn; rewrite Hq|by intros roots; apply append_all_resolved|].
    intros d. destruct (page_append_all p (elements (i_deltas ico)) (Decontaminated id at_) d) as (n & Hn & Hin).
    exists n. split; [exact Hn|]. rewrite Hin, elem_of_elements. naive_solver.
  - split_and!; [done|done|done|]. intros d. exists 0%nat. rewrite app_nil_r. split; [done|]. split; [lia|].
    intros (ico' & [= <-] & Hr & _). congruence.
Qed.

Lemma verify_fold root did at_ ids : NoDup ids -> forall incs p,
  let r := foldl (verify_ico root did at_) (incs, p) ids in
  (forall id, r.1 !! id = if decide (id ∈ ids) then audited root did at_ <$> incs !! id else incs !! id) /\
  WASM_EVENT_QUEUE r.2 = WASM_EVENT_QUEUE p ++ omap (fun id => verdict p <$> (audited root did at_ <$> incs !! id)) ids /\
  (forall d tag, tag ∈ read_tags_from_mem r.2 d <-> tag ∈ read_tags_from_mem p d \/
     exists id ico, id ∈ ids /\ incs !! id = Some ico /\ all_resolved p (i_roots ico) = true /\ d ∈ i_deltas ico /\
       tag = Decontaminated id at_).
Proof.
  induction 1 as [|id ids Hid Hnd IH]; intros incs p; cbn [foldl].
  { split_and!; [done|by rewrite app_nil_r|]. intros d tag. split; [by left|].
    intros [?|(? & ? & ?%not_elem_of_nil & _)]; done. }
  destruct (verify_ico_spec root did at_ incs p id) as (Hi & Hq & Hres & Htag).
  destruct (verify_ico root did at_ (incs, p) id) as [incs1 p1]. cbn [fst snd] in *. subst incs1.
  specialize (IH (alter (audited root did at_) id incs) p1) as (IHi & IHq & IHt).
  assert (forall j, j ∈ ids -> alter (audited root did at_) id incs !! j = incs !! j) as Hne
    by (intros j Hj; rewrite lookup_alter_ne; [done|by intros ->]).
  split_and!.
  - intros j. rewrite IHi. destruct (decide (j = id)) as [->|Hj].
    + rewrite decide_False, (decide_True (P := _ ∈ _ :: _)) by (done || left). by rewrite lookup_alter_eq.
    + rewrite lookup_alter_ne by done. by rewrite (decide_ext (j ∈ ids) (j ∈ id :: ids)) by set_solver.
  - rewrite IHq, Hq, <- app_assoc. cbn [omap list_omap]. f_equal.
    assert (omap (fun id0 => verdict p1 <$> (audited root did at_ <$> alter (audited root did at_) id incs !! id0)) ids =
      omap (fun id0 => verdict p <$> (audited root did at_ <$> incs !! id0)) ids) as ->.
    { clear -Hne Hres. induction ids as [|j ids IH]; [done|]. cbn [omap list_omap].
      rewrite Hne, IH by (try (intros ? ?; apply Hne; by right); left).
      destruct (incs !! j); [|done]. cbn. unfold verdict. by rewrite Hres. }
    by destruct (verdict p <$> _).
  - intros d tag. rewrite IHt. destruct (Htag d) as (n & -> & Hn). rewrite elem_of_app.
    split.
    + intros [[Hin|Hin]|(j & ico & Hj & Hl & Hr & Hd & ->)].
      * by left.
      * apply elem_of_replicate in Hin as [-> Hpos]. destruct (proj1 Hn ltac:(lia)) as (ico & Hl & Hr & Hd).
        right. exists id, ico. split_and!; [by left|done..].
      * right. rewrite Hne in Hl by done. rewrite Hres in Hr. exists j, ico. split_and!; [by right|done..].
    + intros [Hin|(j & ico & [->|Hj]%elem_of_cons & Hl & Hr & Hd & ->)].
      * by left; left.
      * left; right. apply elem_of_replicate. split; [done|]. assert (0 < n)%nat by (apply Hn; eauto). lia.
      * right. exists j, ico. rewrite Hne, Hres by done. done.
Qed.

(** The incidents a Delta is a root of, by the keys of the registry. *)
Lemma root_ids incs root : ids_ok incs ->
  let ids := i_id ∘ snd <$> filter (fun x => root ∈ i_roots x.2) (hm_iter incs) in
  NoDup ids /\ forall id, id ∈ ids <-> exists ico, incs !! id = Some ico /\ root ∈ i_roots ico.
Proof.
  intros Hok. cbn zeta. set (l := filter _ (hm_iter incs)).
  assert (forall x, x ∈ l <-> incs !! x.1 = Some x.2 /\ root ∈ i_roots x.2) as Hl.
  { intros [k v]. unfold l. rewrite list_elem_of_filter, elem_of_hm_iter. cbn. tauto. }
  assert ((i_id ∘ snd <$> l) = l.*1) as ->.
  { apply list_fmap_ext. intros i x Hx. apply list_elem_of_lookup_2, Hl in Hx as [Hx _]. exact (Hok _ _ Hx). }
  split.
  - assert (NoDup (hm_iter incs).*1) as Hnd by (rewrite hm_iter_perm; apply NoDup_fst_map_to_list).
    eapply sublist_NoDup; [exact Hnd|]. apply (fmap_sublist fst), sublist_filter.
  - intros id. rewrite list_elem_of_fmap. split.
    + intros (x & -> & Hx). apply Hl in Hx as [? ?]. eauto.
    + intros (ico & Hi & Hr). exists (id, ico). split; [done|]. by apply Hl.
Qed.

(** ** The walk of an engine nobody inserts into *)

Lemma walk_empty root : walk_dag_descendants Dag.empty_wasm root = [root].
Proof. reflexivity. Qed.

(** ** Verifying data *)

Lemma tag_in_append p d t x : forall tag,
  tag ∈ read_tags_from_mem (append_tag p d t) x <-> tag ∈ read_tags_from_mem p x \/ x = d /\ tag = t.
Proof. intros tag. rewrite read_append_tag. case_decide; set_solver. Qed.

Lemma verify_data_spec e p root did sig expiry now_secs at_ :
  ids_ok (incidents e) ->
  let '(e', p', r) := verify_data e p root did sig expiry now_secs at_ in
  let auth := verify_manager_auth did sig (be_bytes 32 root) expiry now_secs in
  r = auth /\
  (auth <> Ok tt -> e' = e /\ p' = p) /\
  (auth = Ok tt ->
    let p0 := append_tag p root (Resolved did at_) in
    composite_incidents e' = composite_incidents e /\ dag e' = dag e /\
    (forall id, incidents e' !! id =
      (fun ico => if decide (root ∈ i_roots ico) then audited root did at_ ico else ico) <$> incidents e !! id) /\
    (forall row id, contaminated_rows e' !! row = Some id <-> contaminated_rows e !! row = Some id /\ keeps e id = true) /\
    (exists ids, NoDup ids /\ (forall id, id ∈ ids <-> exists ico, incidents e !! id = Some ico /\ root ∈ i_roots ico) /\
       WASM_EVENT_QUEUE p' = WASM_EVENT_QUEUE p ++
         omap (fun id => verdict p0 <$> (audited root did at_ <$> incidents e !! id)) ids) /\
    (forall d tag, tag ∈ read_tags_from_mem p' d <-> tag ∈ read_tags_from_mem p0 d \/
       exists id ico, incidents e !! id = Some ico /\ root ∈ i_roots ico /\ all_resolved p0 (i_roots ico) = true /\
         d ∈ i_deltas ico /\ tag = Decontaminated id at_)).
Proof.
  intros Hok. unfold verify_data. destruct (verify_manager_auth _ _ _ _ _) as [[]|err]; [|done].
  set (p0 := append_tag p root (Resolved did at_)). set (ids := i_id ∘ snd <$> _).
  destruct (root_ids _ root Hok) as [Hnd Hids]. fold ids in Hnd, Hids.
  pose proof (verify_fold root did at_ ids Hnd (incidents e) p0) as (Hi & Hq & Ht).
  destruct (foldl _ _ _) as [incs p1]. cbn [fst snd] in *.
  assert (forall id, incs !! id =
    (fun ico => if decide (root ∈ i_roots ico) then audited root did at_ ico else ico) <$> incidents e !! id) as Hinc.
  { intros id. rewrite Hi. destruct (incidents e !! id) as [ico|] eqn:Hico; [|by case_decide]. cbn.
    by rewrite (decide_ext (id ∈ ids) (root ∈ i_roots ico)) by (rewrite Hids, Hico; naive_solver); case_decide. }
  split; [done|]. split; [done|]. intros _. cbn zeta. split_and!; [done|done|exact Hinc| | |].
  - intros row id. cbn [set_rows contaminated_rows]. rewrite map_lookup_filter_Some. cbn [snd].
    assert (keeps (set_incidents e incs) id = keeps e id) as ->; [|done].
    unfold keeps. cbn [set_incidents incidents composite_incidents]. rewrite Hinc.
    destruct (incidents e !! id) as [ico|]; [|done]. cbn. by case_decide.
  - exists ids. by rewrite Hq.
  - intros d tag. rewrite Ht. setoid_rewrite Hids. split; [|naive_solver].
    intros [?|(id & ico & (ico' & Hl & Hr) & Hl' & ?)]; [by left|]. simplify_eq. naive_solver.
Qed.

(** In the browser verifying data releases no row.  When the manager is authorised and every root of an
    open incident is now resolved, each of its Deltas is tagged decontaminated and the page is told
    the incident is closed; but the incident it is told of is still open, and every row of an open
    incident, this one or another, is as contaminated as before. *)
Theorem verification_keeps_rows (e : CausalContaminationEngine) (p : Page) (root : DeltaId) (did : Did) (sig : bytes)
    (expiry now_secs at_ : Z) (e' : CausalContaminationEngine) (p' : Page) (id : IncidentId) (ico : IncidentContextObject) :
  ids_ok (incidents e) ->
  verify_data e p root did sig expiry now_secs at_ = (e', p', Ok tt) ->
  incidents e !! id = Some ico -> i_state ico = Open -> root ∈ i_roots ico ->
  (forall r, r ∈ i_roots ico -> r = root \/ existsb is_resolved (read_tags_from_mem p r) = true) ->
  let ico' := audited root did at_ ico in
  incidents e' !! id = Some ico' /\ i_state ico' = Open /\
  IncidentClosed (Some (IcoJson ico')) ∈ WASM_EVENT_QUEUE p' /\
  (forall d, d ∈ i_deltas ico -> Decontaminated id at_ ∈ read_tags_from_mem p' d) /\
  (forall row j, contaminated_rows e !! row = Some j -> keeps e j = true -> contaminated_rows e' !! row = Some j) /\
  (forall row, contaminated_rows e !! row = Some id -> contaminated_rows e' !! row = Some id).
Proof.
  intros Hok Hv Hico Hopen Hroot Hall. pose proof (verify_data_spec e p root did sig expiry now_secs at_ Hok) as Hs.
  rewrite Hv in Hs. destruct Hs as (Ha & _ & Hs). destruct (Hs (eq_sym Ha)) as (_ & _ & Hi & Hrows & (ids & _ & Hids & Hq) & Ht).
  assert (all_resolved (append_tag p root (Resolved did at_)) (i_roots ico) = true) as Hres.
  { apply forallb_forall. intros r Hr%list_elem_of_In. rewrite read_append_tag, existsb_app.
    destruct (Hall r Hr) as [->|H]; [rewrite decide_True by done; apply orb_true_r|by rewrite H]. }
  cbn zeta. split_and!.
  - rewrite Hi, Hico. cbn. by rewrite decide_True.
  - done.
  - rewrite Hq. apply elem_of_app. right. apply list_elem_of_omap. exists id. split; [apply Hids; eauto|].
    rewrite Hico. cbn. unfold verdict. change (i_roots (audited root did at_ ico)) with (i_roots ico). by rewrite Hres.
  - intros d Hd. apply Ht. right. exists id, ico. done.
  - intros row j Hrow Hk. by apply Hrows.
  - intros row Hrow. apply Hrows. split; [done|]. unfold keeps. rewrite Hico, Hopen. done.
Qed.

(** ** Histories *)

(** Nothing but its root is in an incident, and nothing but a root is tagged. *)
Record roots_only (s : CausalContaminationEngine * Page) : Prop := {
  ro_dag : dag s.1 = Dag.empty_wasm;
  ro_ids : ids_ok (incidents s.1);
  ro_incidents : forall id ico, incidents s.1 !! id = Some ico -> exists r, i_roots ico = [r] /\ i_deltas ico = {[r]};
  ro_composites : forall id c, composite_incidents s.1 !! id = Some c -> exists r, c_roots c = [r] /\ c_deltas c = {[r]};
  ro_tags : forall d r id, Contaminated r id ∈ read_tags_from_mem s.2 d -> d = r
}.

Lemma tag_roots_only s root source now : roots_only s -> roots_only (tag_contamination_root s.1 s.2 root source now).1.
Proof.
  destruct s as [e p]. intros [Hg Hok Hi Hc Ht]. cbn [fst snd] in *. unfold tag_contamination_root.
  rewrite Hg, walk_empty. cbn -[composite_merge].
  assert (forall q d r id, (forall x, read_tags_from_mem q x = read_tags_from_mem (append_tag p root (Contaminated root (now_v7 (drawn p)))) x) ->
    Contaminated r id ∈ read_tags_from_mem q d -> d = r) as Htags.
  { intros q d r id -> Hin. apply tag_in_append in Hin as [Hin|[-> [= -> _]]]; [by eapply Ht|done]. }
  destruct (_ ≫= _) as [[a ico_a]|] eqn:Ho.
  - apply bind_Some in Ho as (a' & Hhd & Ho). apply fmap_Some in Ho as (ico' & Ha & [= <- <-]).
    apply head_Some_elem_of, list_elem_of_fmap in Hhd as ((k & v) & -> & Hin). cbn in Ha.
    apply list_elem_of_filter in Hin as [[_ Hov] Hin]. cbn in Hov. apply elem_of_hm_iter in Hin.
    rewrite (Hok _ _ Hin) in *. assert (v = ico_a) as -> by congruence. destruct (Hi _ _ Ha) as (r & Hr & Hd).
    assert (r = root) as -> by (rewrite Hd in Hov; destruct (decide (r = root)); [done|set_solver]).
    split; cbn [fst snd dag incidents composite_incidents composite_merge].
    + done.
    + intros j ico. rewrite !lookup_insert_Some. intros [[<- <-]|[_ [[<- <-]|[_ ?]]]]; [done|done|by apply Hok].
    + intros j ico. rewrite !lookup_insert_Some. intros [[<- <-]|[_ [[<- <-]|[_ ?]]]].
      * exists root. split; [done|]. cbn. set_solver.
      * exists root. done.
      * by eapply Hi.
    + intros j c. rewrite lookup_insert_Some. intros [[<- <-]|[_ ?]]; [|by eapply Hc].
      exists root. cbn. rewrite Hr, Hd. cbn. rewrite decide_True by by left. split; [done|set_solver].
    + intros d r id. by apply Htags.
  - split; cbn [fst snd dag incidents composite_incidents].
    + done.
    + intros j ico. rewrite lookup_insert_Some. intros [[<- <-]|[_ ?]]; [done|by apply Hok].
    + intros j ico. rewrite lookup_insert_Some. intros [[<- <-]|[_ ?]]; [|by eapply Hi].
      exists root. split; [done|]. cbn. set_solver.
    + done.
    + intros d r id. by apply Htags.
Qed.

Lemma verify_roots_only s root did sig expiry now_secs at_ :
  roots_only s -> roots_only (verify_data s.1 s.2 root did sig expiry now_secs at_).1.
Proof.
  destruct s as [e p]. intros Hro. pose proof Hro as [Hg Hok Hi Hc Ht]. cbn [fst snd] in *.
  pose proof (verify_data_spec e p root did sig expiry now_secs at_ Hok) as Hs.
  destruct (verify_data e p root did sig expiry now_secs at_) as [[e' p'] r]. cbn [fst].
  destruct Hs as (_ & Herr & Hs). destruct (verify_manager_auth did sig (be_bytes 32 root) expiry now_secs) as [[]|err].
  2:{ destruct Herr as [-> ->]; done. }
  destruct (Hs eq_refl) as (Hc' & Hg' & Hi' & _ & _ & Ht'). split; cbn [fst snd].
  - congruence.
  - intros j ico Hj. rewrite Hi' in Hj. apply fmap_Some in Hj as (ico0 & Hj & ->). case_decide; by apply Hok in Hj.
  - intros j ico Hj. rewrite Hi' in Hj. apply fmap_Some in Hj as (ico0 & Hj & ->). case_decide; by apply (Hi _ _ Hj).
  - intros j c. rewrite Hc'. apply Hc.
  - intros d r' id. rewrite Ht', tag_in_append. intros [[Hin|[_ ?]]|(? & ? & _ & _ & _ & _ & ?)]; [by eapply Ht|done..].
Qed.

Lemma admin_close_incidents e p id did sig expiry now_secs at_ :
  let '(e', p', r) := admin_close e p id did sig expiry now_secs at_ in
  composite_incidents e' = composite_incidents e /\ dag e' = dag e /\ contaminated_rows e' = contaminated_rows e /\
  WASM_TAG_STORE p' = WASM_TAG_STORE p /\
  (incidents e' = incidents e \/ exists ico, incidents e !! id = Some ico /\ i_state ico = Open /\
     incidents e' = <[id := i_audit (i_set_state ico Closed) at_ (mkAudit AdminClose did at_ [])]> (incidents e)).
Proof.
  unfold admin_close, Contamination.admin_close. destruct (verify_manager_auth _ _ _ _ _); [|by split_and!; auto].
  destruct (incidents e !! id) as [ico|]; [|by split_and!; auto].
  destruct (decide (i_state ico <> Open)) as [|Ho]; [by split_and!; auto|]. split_and!; [done..|]. right. exists ico.
  split_and!; [done| |done]. destruct (decide (i_state ico = Open)); done.
Qed.

Lemma close_roots_only s id did sig expiry now_secs at_ :
  roots_only s -> roots_only (admin_close s.1 s.2 id did sig expiry now_secs at_).1.
Proof.
  destruct s as [e p]. intros [Hg Hok Hi Hc Ht]. cbn [fst snd] in *.
  pose proof (admin_close_incidents e p id did sig expiry now_secs at_) as Hs.
  destruct (admin_close e p id did sig expiry now_secs at_) as [[e' p'] r]. destruct Hs as (Hc' & Hg' & _ & Ht' & Hi').
  assert (forall j ico, incidents e' !! j = Some ico -> exists ico0, incidents e !! j = Some ico0 /\
    i_id ico = i_id ico0 /\ i_roots ico = i_roots ico0 /\ i_deltas ico = i_deltas ico0) as Hsame.
  { intros j ico. destruct Hi' as [->|(ico0 & Hl & _ & ->)]; [by exists ico|].
    rewrite lookup_insert_Some. intros [[<- <-]|[_ ?]]; [by exists ico0|by exists ico]. }
  split; cbn [fst snd].
  - congruence.
  - intros j ico (ico0 & Hj & -> & _)%Hsame. by apply Hok.
  - intros j ico (ico0 & Hj & _ & -> & ->)%Hsame. by eapply Hi.
  - rewrite Hc'. exact Hc.
  - unfold read_tags_from_mem in *. rewrite Ht'. exact Ht.
Qed.

(** Contamination never spreads in the browser.  Whatever a fresh page tags, verifies and closes, every
    incident holds its one root and no other Delta, a composite incident is two incidents about the
    same Delta, and the only Delta tagged contaminated by a root is that root: the engine's DAG is
    its own and nothing is ever inserted into it. *)
Theorem contaminates_roots_only (ops : list TaintOp) :
  let '(e, p) := run (new, empty_page) ops in
  (forall id ico, incidents e !! id = Some ico -> i_id ico = id /\ exists r, i_roots ico = [r] /\ i_deltas ico = {[r]}) /\
  (forall id c, composite_incidents e !! id = Some c -> exists r, c_roots c = [r] /\ c_deltas c = {[r]}) /\
  (forall d r id, Contaminated r id ∈ read_tags_from_mem p d -> d = r).
Proof.
  assert (roots_only (run (new, empty_page) ops)) as Hro.
  { assert (roots_only (new, empty_page)) as Hst.
    { split; cbn; try done. intros d r id Hin. by apply not_elem_of_nil in Hin. }
    revert Hst. generalize (new, empty_page). induction ops as [|op ops IH]; intros s Hs; [done|].
    unfold run. cbn [foldl]. apply IH. destruct op; cbn [exec].
    - by apply tag_roots_only.
    - by apply verify_roots_only.
    - by apply close_roots_only.
    - destruct Hs. by split.
    - destruct Hs. by split. }
  destruct (run (new, empty_page) ops) as [e p]. destruct Hro as [_ Hok Hi Hc Ht]. cbn [fst snd] in *.
  split_and!; [|done|done]. intros id ico Hl. split; [exact (Hok _ _ Hl)|by eapply Hi].
Qed.

(** A row a composite incident holds is never released.  However often its roots are verified and
    whatever incidents managers close, the composite stays open and the row stays with it, until a
    new incident takes the row over: no operation closes a composite. *)
Theorem composite_row_never_freed (s : CausalContaminationEngine * Page) (row : RowKey) (id : IncidentId)
    (c : CompositeIncidentInstance) (ops : list TaintOp) :
  composite_incidents s.1 !! id = Some c -> c_state c = Open -> contaminated_rows s.1 !! row = Some id ->
  (forall op, op ∈ ops -> match op with OpTag _ _ _ => False | _ => True end) ->
  let e := (run s ops).1 in
  composite_incidents e !! id = Some c /\ is_row_contaminated e row.1 row.2 = true /\
  active_incident_for_row e row.1 row.2 = Some id.
Proof.
  intros Hc Ho Hr Hops. cbn zeta.
  assert (composite_incidents (run s ops).1 !! id = Some c /\ contaminated_rows (run s ops).1 !! row = Some id) as [H1' H2'].
  { revert s Hc Hr Hops. induction ops as [|op ops IH]; intros s Hc Hr Hops; [done|]. unfold run. cbn [foldl].
    assert (forall op, op ∈ ops -> match op with OpTag _ _ _ => False | _ => True end) as Hops'
      by (intros op' Hin; apply Hops; by right).
    specialize (Hops op ltac:(by left)). apply IH; [| |exact Hops']; destruct op; try done; cbn [exec fst].
    - unfold verify_data. destruct (verify_manager_auth _ _ _ _ _); [|done]. by destruct (foldl _ _ _).
    - pose proof (admin_close_incidents s.1 s.2 id0 manager_did manager_sig expiry now_secs now_micros) as Hcl.
      destruct (admin_close _ _ _ _ _ _ _ _) as [[e' p'] r']. destruct Hcl as (Hcl & _). cbn. by rewrite Hcl.
    - unfold verify_data. destruct (verify_manager_auth _ _ _ _ _); [|done]. destruct (foldl _ _ _) as [incs p'].
      cbn. apply map_lookup_filter_Some. split; [done|]. unfold keeps. cbn. rewrite Hc, Ho. apply orb_true_r.
    - pose proof (admin_close_incidents s.1 s.2 id0 manager_did manager_sig expiry now_secs now_micros) as Hcl.
      destruct (admin_close _ _ _ _ _ _ _ _) as [[e' p'] r']. destruct Hcl as (_ & _ & Hcl & _). cbn. by rewrite Hcl. }
  destruct row as [t k]. unfold is_row_contaminated, active_incident_for_row. cbn. rewrite H2'.
  split_and!; [done| |done]. by rewrite bool_decide_eq_true_2.
Qed.

End BrowserTaint.
End BrowserTaint.

(** ** A concrete page

    Delta 1 wrote the row [k] of the table [t]. *)
Section Witnesses.
#[local] Existing Instance toy_bs58.
#[local] Existing Instance toy_ed25519.
#[local] Existing Instance hash_iter_canonical.
Import Contamination BrowserTaint.

Let v7 (n : nat) : N := N.of_nat (100 + n).
Let manager : Did := Did.derive_did (ed_public [7]%N).
Let signed (root : N) : bytes := ed_sign [7]%N (be_bytes 32 root).
Let written : Page := record_delta_row (record_delta_row empty_page 1 "t" "k") 2 "t" "l".
Let tagged : CausalContaminationEngine * Page := exec v7 (new, written) (OpTag 1 (DeviceRevocation 1) 9).
Let twice : CausalContaminationEngine * Page := exec v7 tagged (OpTag 1 (DeviceRevocation 1) 9).

Lemma tagged_ids : ids_ok (incidents tagged.1).
Proof. by_decide. Defined.

Lemma verification_keeps_rows_witness :
  is_row_contaminated (verify_data tagged.1 tagged.2 1 manager (signed 1) 2000000 1 9).1.1 "t" "k" = true.
Proof.
  destruct (incidents tagged.1 !! 100%N) as [ico|] eqn:Hico; [|vm_compute in Hico; discriminate].
  assert (Some (i_state ico, i_roots ico) = Some (Open, [1%N])) as Hi.
  { change (Some (i_state ico, i_roots ico)) with ((fun i => (i_state i, i_roots i)) <$> Some ico).
    rewrite <- Hico. vm_compute. reflexivity. }
  injection Hi as Hst Hr.
  assert ((verify_data tagged.1 tagged.2 1 manager (signed 1) 2000000 1 9).2 = Ok tt) as Hok
    by (vm_compute; reflexivity).
  destruct (verify_data tagged.1 tagged.2 1 manager (signed 1) 2000000 1 9) as [[e' p'] r] eqn:Hv.
  cbn [snd] in Hok. subst r.
  destruct (verification_keeps_rows v7 tagged.1 tagged.2 1 manager (signed 1) 2000000 1 9 e' p' 100 ico)
    as (_ & _ & _ & _ & _ & Hrow).
  - exact tagged_ids.
  - exact Hv.
  - exact Hico.
  - exact Hst.
  - rewrite Hr. by left.
  - rewrite Hr. intros r ->%list_elem_of_singleton. by left.
  - unfold is_row_contaminated. cbn [fst]. rewrite (Hrow ("t", "k")); [reflexivity|vm_compute; reflexivity].
Defined.

Lemma composite_row_never_freed_witness :
  is_row_contaminated (run v7 twice [OpVerify 1 manager (signed 1) 2000000 1 9;
    OpClose 102 manager (ed_sign [7]%N (be_bytes 16 102)) 2000000 1 10]).1 "t" "k" = true.
Proof.
  destruct (composite_incidents twice.1 !! 102%N) as [c|] eqn:Hc; [|vm_compute in Hc; discriminate].
  assert (Some (c_state c) = Some Open) as Hs.
  { change (Some (c_state c)) with (c_state <$> Some c). rewrite <- Hc. vm_compute. reflexivity. }
  injection Hs as Hs.
  apply (composite_row_never_freed v7 twice ("t", "k") 102 c).
  - exact Hc.
  - exact Hs.
  - vm_compute. reflexivity.
  - intros op [->|[->|[]%not_elem_of_nil]%elem_of_cons]%elem_of_cons; exact I.
Defined.

(** The row of the other Delta is untouched, and closing the composite says it is not found. *)
Example composite_cannot_be_closed :
  is_row_contaminated twice.1 "t" "l" = false /\
  (admin_close twice.1 twice.2 102 manager (ed_sign [7]%N (be_bytes 16 102)) 2000000 1 10).2 =
    Err (LocalStoreWriteFailed "incident not found").
Proof. vm_compute. split; reflexivity. Qed.
End Witnesses.
