(* ===== verification/Schema.v ===== *)
(** * Schemas

    The schema object ([schema/mod.rs]), its identifier hash
    ([schema/hash.rs]), the field-level diff that decides whether a peer's
    schema is compatible ([schema/diff.rs]) and the compaction policy of a table
    ([store/compaction.rs]).

    SHA-256 is a function of the bytes that are hashed.  Strings compare byte by
    byte.  A [HashMap] collected from a list keeps the last entry of a key. *)

From Stdlib Require Import SpecFloat.
From S2P Require Import Prelude Types.

(** ** The byte order of strings *)

Section Strings.
Definition str_le (s t : string) : Prop := String.leb s t = true.

Lemma str_le_refl s : str_le s s.
Proof. destruct (String.leb_total s s); done. Qed.

Lemma str_le_cons a b s t :
  str_le (String a s) (String b t) <->
  (Ascii.N_of_ascii a < Ascii.N_of_ascii b)%N \/ a = b /\ str_le s t.
Proof.
  unfold str_le, String.leb. cbn [String.compare]. unfold Ascii.compare.
  destruct (N.compare_spec (Ascii.N_of_ascii a) (Ascii.N_of_ascii b)) as [Heq|Hlt|Hgt].
  - apply (f_equal Ascii.ascii_of_N) in Heq. rewrite !Ascii.ascii_N_embedding in Heq. subst b.
    split; [by right|]. intros [?|[_ ?]]; [lia|done].
  - split; [by left|done].
  - split; [done|]. intros [?|[-> _]]; lia.
Qed.

Lemma str_le_trans s t u : str_le s t -> str_le t u -> str_le s u.
Proof.
  revert t u. induction s as [|a s IH]; intros [|b t] [|c u]; try done.
  rewrite !str_le_cons. intros [Hab|[-> Hst]] [Hbc|[-> Htu]]; [left; lia|by left|by left|].
  right. split; [done|]. by eapply IH.
Qed.
End Strings.

(** [sort_by_key(|(name, _)| *name)]: stable insertion by name. *)
Section SortByName.
Context {A : Type} (name : A -> string).

Fixpoint insert_by_name (x : A) (l : list A) : list A :=
  match l with
  | [] => [x]
  | y :: l' => if String.leb (name x) (name y) then x :: l else y :: insert_by_name x l'
  end.

Definition sort_by_name (l : list A) : list A := foldr insert_by_name [] l.

Definition name_le (x y : A) : Prop := str_le (name x) (name y).

Lemma insert_by_name_perm x l : insert_by_name x l ≡ₚ x :: l.
Proof.
  induction l as [|y l IH]; simpl; [done|]. case_match; [done|]. rewrite IH. by constructor.
Qed.

Lemma sort_by_name_perm l : sort_by_name l ≡ₚ l.
Proof. induction l as [|x l IH]; simpl; [done|]. by rewrite insert_by_name_perm, IH. Qed.

#[export] Instance name_le_trans : Transitive name_le.
Proof. intros x y z. apply str_le_trans. Qed.

Lemma sort_by_name_sorted l : StronglySorted name_le (sort_by_name l).
Proof.
  induction l as [|x l IH]; simpl; [constructor|]. revert IH. generalize (sort_by_name l).
  clear l. intros l Hl. induction Hl as [|y l Hl IH Hy]; simpl; [repeat constructor|].
  destruct (String.leb (name x) (name y)) eqn:Hxy.
  - constructor; [by constructor|]. constructor; [done|].
    eapply Forall_impl; [exact Hy|]. intros z. by apply str_le_trans.
  - constructor; [done|]. rewrite insert_by_name_perm. constructor; [|done].
    unfold name_le, str_le. destruct (String.leb_total (name x) (name y)); congruence.
Qed.

(** Two sorted arrangements of a list with distinct names are equal. *)
Lemma sorted_by_name_unique l1 l2 :
  NoDup (map name l1) -> StronglySorted name_le l1 -> StronglySorted name_le l2 ->
  l1 ≡ₚ l2 -> l1 = l2.
Proof.
  intros Hnd H1 H2. revert l2 H2 Hnd. induction H1 as [|x l1 H1 IH Hx]; intros l2 H2 Hnd Hp.
  - by apply Permutation_nil_l in Hp as ->.
  - destruct H2 as [|y l2 H2 Hy]; [by apply Permutation_nil_r in Hp|].
    simpl in Hnd. apply NoDup_cons in Hnd as [Hx' Hnd].
    assert (x = y) as <-.
    { assert (y ∈ x :: l1) as Hin1 by (rewrite Hp; left).
      assert (x ∈ y :: l2) as Hin2 by (rewrite <- Hp; left).
      apply elem_of_cons in Hin1 as [->|Hin1]; [done|].
      apply elem_of_cons in Hin2 as [->|Hin2]; [done|].
      rewrite Forall_forall in Hx, Hy. exfalso. apply Hx'.
      rewrite (String.leb_antisym _ _ (Hx _ Hin1) (Hy _ Hin2)). by apply list_elem_of_fmap_2. }
    f_equal. apply IH; [done|done|]. by apply Permutation_cons_inv in Hp.
Qed.

Lemma sort_by_name_permuted l1 l2 :
  NoDup (map name l1) -> l1 ≡ₚ l2 -> sort_by_name l1 = sort_by_name l2.
Proof.
  intros Hnd Hp. apply sorted_by_name_unique; [|apply sort_by_name_sorted..|].
  - assert (map name (sort_by_name l1) ≡ₚ map name l1) as ->; [|done].
    apply (fmap_Permutation name), sort_by_name_perm.
  - by rewrite !sort_by_name_perm.
Qed.
End SortByName.

Module Schema.

(** [store/compaction.rs] *)
Inductive CompactionPolicy :=
| Aggressive (threshold : Z)
| NoCompaction.

Definition should_compact (policy : CompactionPolicy) (current_delta_count : Z) : bool :=
  match policy with
  | Aggressive threshold => current_delta_count >? threshold
  | NoCompaction => false
  end.

(** [schema/mod.rs] *)
Inductive FieldType := Text | Integer | Real | Blob | Boolean.

#[export] Instance FieldType_eq_dec : EqDecision FieldType.
Proof. solve_decision. Defined.

Definition canonical_str (t : FieldType) : string :=
  match t with
  | Text => "TEXT" | Integer => "INTEGER" | Real => "REAL" | Blob => "BLOB" | Boolean => "BOOLEAN"
  end.

Lemma canonical_str_inj t u : canonical_str t = canonical_str u -> t = u.
Proof. by destruct t, u. Qed.

Inductive DefaultValue :=
| DText (s : string)
| DInteger (i : Z)
| DReal (f : spec_float)
| DBoolean (b : bool)
| DNull.

Inductive Constraint :=
| PrimaryKey (cols : list string)
| Unique (cols : list string)
| NotNull (col : string).

Record FieldDef := mkField {
  f_name : string;
  field_type : FieldType;
  nullable : bool;
  f_default : option DefaultValue
}.

Record TableDef := mkTable {
  t_name : string;
  fields : list FieldDef;
  compaction_policy : CompactionPolicy;
  constraints : list Constraint
}.

Record Schema := mkSchema {
  tables : list TableDef;
  version : string
}.

(** ** [schema/hash.rs] *)

Section Hash.
Context (sha256 : bytes -> N).

(** The bytes fed to the hasher for one table. *)
Definition hash_table (t : string * list (string * string)) : bytes :=
  string_bytes t.1 ++ string_bytes "|" ++
  concat (map (fun f => string_bytes f.1 ++ string_bytes ":" ++ string_bytes f.2 ++ string_bytes ";")
            (sort_by_name fst t.2)) ++
  string_bytes "||".

Definition hash_input (tables : list (string * list (string * string))) : bytes :=
  concat (map hash_table (sort_by_name fst tables)).

Definition compute_schema_identifier_hash (tables : list (string * list (string * string)))
  : SchemaIdentifierHash := sha256 (hash_input tables).

Definition table_data (s : Schema) : list (string * list (string * string)) :=
  map (fun t => (t_name t, map (fun f => (f_name f, canonical_str (field_type f))) (fields t)))
    (tables s).

Definition identifier_hash (s : Schema) : SchemaIdentifierHash :=
  compute_schema_identifier_hash (table_data s).
End Hash.

(** ** [schema/diff.rs] *)

Record FieldRef := mkRef { fr_table : string; fr_field : string }.
Record RetypedField := mkRetyped {
  rt_table : string; rt_field : string; rt_from : string; rt_to : string
}.

Record SchemaDiff := mkDiff {
  added_tables : list string;
  removed_tables : list string;
  added_fields : list FieldRef;
  removed_fields : list FieldRef;
  retyped_fields : list RetypedField
}.

Definition is_empty {A} (l : list A) : bool := match l with [] => true | _ => false end.

Definition is_identical (d : SchemaDiff) : bool :=
  is_empty (added_tables d) && is_empty (removed_tables d) && is_empty (added_fields d) &&
  is_empty (removed_fields d) && is_empty (retyped_fields d).

Definition is_additive (d : SchemaDiff) : bool :=
  negb (is_identical d) && is_empty (removed_tables d) && is_empty (removed_fields d) &&
  is_empty (retyped_fields d).

Definition is_breaking (d : SchemaDiff) : bool :=
  negb (is_empty (removed_tables d)) || negb (is_empty (removed_fields d)) ||
  negb (is_empty (retyped_fields d)).

(** [iter().map(|x| (name(x), x)).collect::<HashMap<_, _>>()] *)
Definition collect_by {A} (name : A -> string) (l : list A) : gmap string A :=
  foldl (fun m x => <[name x := x]> m) ∅ l.

(** [keys().copied().collect(); sort()] *)
Definition sorted_keys {A} (m : gmap string A) : list string :=
  sort_by_name (fun s => s) (map fst (map_to_list m)).

(** The turn of the field loop for one common table. *)
Definition diff_table (name : string) (base incoming : gmap string FieldDef) : SchemaDiff :=
  let base_field_names := sorted_keys base in
  let incoming_field_names := sorted_keys incoming in
  mkDiff [] []
    (map (mkRef name) (filter (fun f => base !! f = None) incoming_field_names))
    (map (mkRef name) (filter (fun f => incoming !! f = None) base_field_names))
    (omap (fun f =>
       match base !! f, incoming !! f with
       | Some b, Some i =>
           let base_type := canonical_str (field_type b) in
           let incoming_type := canonical_str (field_type i) in
           if decide (base_type = incoming_type) then None
           else Some (mkRetyped name f base_type incoming_type)
       | _, _ => None
       end) base_field_names).

Definition append_diff (d e : SchemaDiff) : SchemaDiff :=
  mkDiff (added_tables d ++ added_tables e) (removed_tables d ++ removed_tables e)
    (added_fields d ++ added_fields e) (removed_fields d ++ removed_fields e)
    (retyped_fields d ++ retyped_fields e).

Definition diff_schemas (base incoming : Schema) : SchemaDiff :=
  let base_tables := collect_by t_name (tables base) in
  let incoming_tables := collect_by t_name (tables incoming) in
  let base_names := sorted_keys base_tables in
  let incoming_names := sorted_keys incoming_tables in
  foldl (fun d name =>
    match base_tables !! name, incoming_tables !! name with
    | Some b, Some i =>
        append_diff d (diff_table name (collect_by f_name (fields b)) (collect_by f_name (fields i)))
    | _, _ => d
    end)
    (mkDiff (filter (fun t => base_tables !! t = None) incoming_names)
       (filter (fun t => incoming_tables !! t = None) base_names) [] [] [])
    base_names.

(** [maybe_compact] of [crdt/mod.rs] asks this with the policy of the table in the
    current schema; a missing definition or table never compacts. *)
Definition policy_in (s : Schema) (table : string) : CompactionPolicy :=
  default NoCompaction (compaction_policy <$> head (filter (fun t => t_name t = table) (tables s))).

(** ** The diff: its specification

    [field_at s t f] is the type of field [f] of table [t], as the diff reads it:
    the last declaration of a name counts. *)

Definition table_at (s : Schema) (t : string) : option TableDef := collect_by t_name (tables s) !! t.

Definition field_at (s : Schema) (t f : string) : option FieldType :=
  td ← table_at s t; field_type <$> collect_by f_name (fields td) !! f.

(** [extends s s']: every table and every field of [s] is in [s'], with its type. *)
Definition extends (s s' : Schema) : Prop :=
  (forall t, is_Some (table_at s t) -> is_Some (table_at s' t)) /\
  (forall t f ty, field_at s t f = Some ty -> field_at s' t f = Some ty).

#[export] Instance extends_preorder : PreOrder extends.
Proof.
  split; [by split|]. intros s1 s2 s3 [H1 H1'] [H2 H2']. split; [by eauto|]. by eauto.
Qed.

Lemma elem_of_sorted_keys {A} (m : gmap string A) k : k ∈ sorted_keys m <-> is_Some (m !! k).
Proof.
  unfold sorted_keys. rewrite sort_by_name_perm, list_elem_of_fmap. split.
  - intros ([k' x] & -> & Hin). apply elem_of_map_to_list in Hin. by exists x.
  - intros [x Hx]. exists (k, x). by rewrite elem_of_map_to_list.
Qed.

Lemma is_empty_true {A} (l : list A) : is_empty l = true <-> l = [].
Proof. by destruct l. Qed.

Lemma is_empty_forall {A} (l : list A) : is_empty l = true <-> forall x, x ∉ l.
Proof.
  rewrite is_empty_true. split; [intros ->; intros x; by apply not_elem_of_nil|].
  destruct l as [|x l]; [done|]. intros H. destruct (H x). by left.
Qed.

(** The loop of the diff in one piece: the whole-table differences first, then the
    turn of each common table. *)
Definition table_turn (base incoming : Schema) (name : string) : SchemaDiff :=
  match table_at base name, table_at incoming name with
  | Some b, Some i => diff_table name (collect_by f_name (fields b)) (collect_by f_name (fields i))
  | _, _ => mkDiff [] [] [] [] []
  end.

Lemma diff_fields_loop base incoming names d :
  let e := foldl (fun d name =>
    match table_at base name, table_at incoming name with
    | Some b, Some i =>
        append_diff d (diff_table name (collect_by f_name (fields b)) (collect_by f_name (fields i)))
    | _, _ => d
    end) d names in
  added_tables e = added_tables d /\ removed_tables e = removed_tables d /\
  added_fields e = added_fields d ++ concat (map (fun n => added_fields (table_turn base incoming n)) names) /\
  removed_fields e = removed_fields d ++ concat (map (fun n => removed_fields (table_turn base incoming n)) names) /\
  retyped_fields e = retyped_fields d ++ concat (map (fun n => retyped_fields (table_turn base incoming n)) names).
Proof.
  revert d. induction names as [|n names IH]; intros d; cbn -[table_turn]; [by rewrite !app_nil_r|].
  match goal with |- context [foldl _ ?d' names] => specialize (IH d') end. cbn zeta in IH.
  destruct IH as (-> & -> & -> & -> & ->). unfold table_turn.
  destruct (table_at base n) as [b|], (table_at incoming n) as [i|]; cbn; try done.
  by rewrite <- !app_assoc, !app_nil_r.
Qed.

Lemma diff_schemas_parts base incoming :
  let d := diff_schemas base incoming in
  let names := sorted_keys (collect_by t_name (tables base)) in
  added_tables d = filter (fun t => table_at base t = None)
    (sorted_keys (collect_by t_name (tables incoming))) /\
  removed_tables d = filter (fun t => table_at incoming t = None) names /\
  added_fields d = concat (map (fun n => added_fields (table_turn base incoming n)) names) /\
  removed_fields d = concat (map (fun n => removed_fields (table_turn base incoming n)) names) /\
  retyped_fields d = concat (map (fun n => retyped_fields (table_turn base incoming n)) names).
Proof.
  cbn zeta. unfold diff_schemas. cbn zeta.
  match goal with |- context [foldl _ ?d ?names] =>
    destruct (diff_fields_loop base incoming names d) as (H1 & H2 & H3 & H4 & H5) end.
  unfold table_at in *. rewrite H1, H2, H3, H4, H5. done.
Qed.

(** An entry of the field lists comes from the turn of one common table. *)
Lemma in_turns {A} (part : SchemaDiff -> list A) base incoming x :
  part (mkDiff [] [] [] [] []) = [] ->
  x ∈ concat (map (fun n => part (table_turn base incoming n))
                (sorted_keys (collect_by t_name (tables base)))) <->
  exists n b i, table_at base n = Some b /\ table_at incoming n = Some i /\
    x ∈ part (diff_table n (collect_by f_name (fields b)) (collect_by f_name (fields i))).
Proof.
  intros Hnil. rewrite list_elem_of_In, in_concat. setoid_rewrite in_map_iff.
  setoid_rewrite <- list_elem_of_In. split.
  - intros (l & (n & <- & Hn) & Hx). unfold table_turn in Hx.
    destruct (table_at base n) as [b|] eqn:Hb, (table_at incoming n) as [i|] eqn:Hi;
      try (rewrite Hnil in Hx; by apply not_elem_of_nil in Hx).
    by exists n, b, i.
  - intros (n & b & i & Hb & Hi & Hx). eexists. split.
    + exists n. split; [done|]. apply elem_of_sorted_keys. by exists b.
    + unfold table_turn. by rewrite Hb, Hi.
Qed.

(** What each list of the diff holds. *)
Lemma in_added_tables base incoming t :
  t ∈ added_tables (diff_schemas base incoming) <->
  table_at base t = None /\ is_Some (table_at incoming t).
Proof.
  destruct (diff_schemas_parts base incoming) as (-> & _).
  by rewrite list_elem_of_filter, elem_of_sorted_keys.
Qed.

Lemma in_removed_tables base incoming t :
  t ∈ removed_tables (diff_schemas base incoming) <->
  table_at incoming t = None /\ is_Some (table_at base t).
Proof.
  destruct (diff_schemas_parts base incoming) as (_ & -> & _).
  by rewrite list_elem_of_filter, elem_of_sorted_keys.
Qed.

Lemma in_added_fields base incoming t f :
  mkRef t f ∈ added_fields (diff_schemas base incoming) <->
  is_Some (table_at base t) /\ field_at base t f = None /\ is_Some (field_at incoming t f).
Proof.
  destruct (diff_schemas_parts base incoming) as (_ & _ & -> & _).
  rewrite in_turns by done. unfold field_at. split.
  - intros (n & b & i & Hb & Hi & Hin).
    cbn in Hin. apply list_elem_of_fmap in Hin as (g & [= -> ->] & Hg).
    apply list_elem_of_filter in Hg as [Hg Hg']. apply elem_of_sorted_keys in Hg'.
    rewrite Hb, Hi. cbn. rewrite Hg. split; [by eexists|]. split; [done|]. by apply fmap_is_Some.
  - intros ([b Hb] & Hf & Hi'). rewrite Hb in Hf.
    destruct (table_at incoming t) as [i|] eqn:Hi; [|by destruct Hi']. exists t, b, i. cbn in *.
    repeat (split; [done|]). apply list_elem_of_fmap_2, list_elem_of_filter. apply fmap_None in Hf.
    rewrite fmap_is_Some in Hi'. by rewrite elem_of_sorted_keys.
Qed.

Lemma in_removed_fields base incoming t f :
  mkRef t f ∈ removed_fields (diff_schemas base incoming) <->
  is_Some (table_at incoming t) /\ field_at incoming t f = None /\ is_Some (field_at base t f).
Proof.
  destruct (diff_schemas_parts base incoming) as (_ & _ & _ & -> & _).
  rewrite in_turns by done. unfold field_at. split.
  - intros (n & b & i & Hb & Hi & Hin).
    cbn in Hin. apply list_elem_of_fmap in Hin as (g & [= -> ->] & Hg).
    apply list_elem_of_filter in Hg as [Hg Hg']. apply elem_of_sorted_keys in Hg'.
    rewrite Hb, Hi. cbn. rewrite Hg. split; [by eexists|]. split; [done|]. by apply fmap_is_Some.
  - intros ([i Hi] & Hf & Hb'). rewrite Hi in Hf.
    destruct (table_at base t) as [b|] eqn:Hb; [|by destruct Hb']. exists t, b, i. cbn in *.
    repeat (split; [done|]). apply list_elem_of_fmap_2, list_elem_of_filter. apply fmap_None in Hf.
    rewrite fmap_is_Some in Hb'. by rewrite elem_of_sorted_keys.
Qed.

Lemma in_retyped_fields base incoming t f from to :
  mkRetyped t f from to ∈ retyped_fields (diff_schemas base incoming) <->
  exists ty ty', field_at base t f = Some ty /\ field_at incoming t f = Some ty' /\ ty <> ty' /\
    from = canonical_str ty /\ to = canonical_str ty'.
Proof.
  destruct (diff_schemas_parts base incoming) as (_ & _ & _ & _ & ->).
  rewrite in_turns by done. unfold field_at. split.
  - intros (n & b & i & Hb & Hi & Hin).
    cbn in Hin. apply list_elem_of_omap in Hin as (g & Hg & Heq).
    destruct (collect_by f_name (fields b) !! g) as [fb|] eqn:Hfb; [|done].
    destruct (collect_by f_name (fields i) !! g) as [fi|] eqn:Hfi; [|done].
    destruct (decide (canonical_str (field_type fb) = canonical_str (field_type fi))); [done|].
    injection Heq as -> -> <- <-. exists (field_type fb), (field_type fi).
    rewrite Hb, Hi. cbn. rewrite Hfb, Hfi. repeat (split; [done|]). split; [congruence|done].
  - intros (ty & ty' & H1 & H2 & Hne & -> & ->).
    destruct (table_at base t) as [b|] eqn:Hb; [|done].
    destruct (table_at incoming t) as [i|] eqn:Hi; [|done]. exists t, b, i.
    repeat (split; [done|]). cbn in *. apply fmap_Some in H1 as (fb & Hfb & ->).
    apply fmap_Some in H2 as (fi & Hfi & ->). apply list_elem_of_omap. exists f.
    rewrite elem_of_sorted_keys, Hfb, Hfi. split; [by eexists|].
    rewrite decide_False; [done|]. intros He. by apply canonical_str_inj in He.
Qed.

Lemma additive_split d : is_additive d = negb (is_identical d) && negb (is_breaking d).
Proof.
  unfold is_additive, is_breaking. destruct (is_identical d), (is_empty (removed_tables d)),
    (is_empty (removed_fields d)), (is_empty (retyped_fields d)); done.
Qed.

(** A field is declared only in a table that is. *)
Lemma field_at_table s t f : is_Some (field_at s t f) -> is_Some (table_at s t).
Proof. unfold field_at. destruct (table_at s t); [by eexists|by intros []]. Qed.

(** A schema is breaking exactly when it does not extend the base. *)
Lemma breaking_extends base incoming :
  is_breaking (diff_schemas base incoming) = false <-> extends base incoming.
Proof.
  unfold is_breaking. rewrite !orb_false_iff, !negb_false_iff, !is_empty_forall. split.
  - intros ((Hrt & Hrf) & Hty). assert (forall t, is_Some (table_at base t) -> is_Some (table_at incoming t)) as Ht.
    { intros t Hb. specialize (Hrt t). rewrite in_removed_tables in Hrt.
      destruct (table_at incoming t); [by eexists|by destruct Hrt]. }
    split; [done|]. intros t f ty Hf. specialize (Hrf (mkRef t f)). rewrite in_removed_fields in Hrf.
    destruct (field_at incoming t f) as [ty'|] eqn:Hf'.
    + destruct (decide (ty = ty')) as [->|Hne]; [done|]. exfalso.
      eapply (Hty (mkRetyped t f _ _)), in_retyped_fields. by exists ty, ty'.
    + exfalso. apply Hrf. split_and!; [|done|by eexists]. eapply Ht, (field_at_table _ _ f). by eexists.
  - intros [Ht Hf]. split_and!.
    + intros t Hin. apply in_removed_tables in Hin as [Hn Hs]. apply Ht in Hs. rewrite Hn in Hs. by destruct Hs.
    + intros [t f] Hin. apply in_removed_fields in Hin as (_ & Hn & [ty Hs]). by rewrite (Hf _ _ _ Hs) in Hn.
    + intros [t f a b] Hin. apply in_retyped_fields in Hin as (ty & ty' & H1 & H2 & Hne & _).
      rewrite (Hf _ _ _ H1) in H2. congruence.
Qed.

Lemma identical_extends base incoming :
  is_identical (diff_schemas base incoming) = true <-> extends base incoming /\ extends incoming base.
Proof.
  rewrite <- breaking_extends. unfold is_identical, is_breaking.
  rewrite !andb_true_iff, !orb_false_iff, !negb_false_iff, !is_empty_forall. split.
  - intros ((((Hat & Hrt) & Haf) & Hrf) & Hty). split; [done|]. split.
    + intros t Hi. destruct (table_at base t) eqn:Hb; [by eexists|]. exfalso. by apply (Hat t), in_added_tables.
    + intros t f ty Hi. destruct (field_at base t f) as [ty'|] eqn:Hb.
      * destruct (decide (ty' = ty)) as [->|Hne]; [done|]. exfalso.
        eapply (Hty (mkRetyped t f _ _)), in_retyped_fields. by exists ty', ty.
      * exfalso. assert (is_Some (table_at incoming t)) as Hti by (apply (field_at_table _ _ f); by eexists).
        destruct (table_at base t) eqn:Hbt; [|by apply (Hat t), in_added_tables].
        apply (Haf (mkRef t f)), in_added_fields. rewrite Hbt. split_and!; [by eexists|done|by eexists].
  - intros (((Hrt & Hrf) & Hty) & Ht & Hf). split_and!; try done.
    + intros t Hin. apply in_added_tables in Hin as [Hn Hs]. apply Ht in Hs. rewrite Hn in Hs. by destruct Hs.
    + intros [t f] Hin. apply in_added_fields in Hin as (_ & Hn & [ty Hs]). by rewrite (Hf _ _ _ Hs) in Hn.
Qed.

(** ** The hash: equal structure, equal hash, and back

    [distinct_names]: no table and no field of a table is declared twice.
    [hash_safe]: no name holds the separators that delimit it in the hashed bytes;
    the identifiers of the grammar have letters, digits and underscores only. *)

Definition distinct_names (s : Schema) : Prop :=
  NoDup (map t_name (tables s)) /\ Forall (fun t => NoDup (map f_name (fields t))) (tables s).

Definition hash_safe (s : Schema) : Prop :=
  Forall (fun t => 124%N ∉ string_bytes (t_name t) /\
    Forall (fun f => 58%N ∉ string_bytes (f_name f) /\ head (string_bytes (f_name f)) <> Some 124%N)
      (fields t)) (tables s).

#[export] Instance distinct_names_dec s : Decision (distinct_names s).
Proof. unfold distinct_names. solve_decision. Defined.

#[export] Instance hash_safe_dec s : Decision (hash_safe s).
Proof. unfold hash_safe. solve_decision. Defined.

Lemma collect_by_app {A} (name : A -> string) l x :
  collect_by name (l ++ [x]) = <[name x := x]> (collect_by name l).
Proof. unfold collect_by. by rewrite foldl_app. Qed.

Lemma collect_by_lookup {A} (name : A -> string) l k x :
  NoDup (map name l) -> collect_by name l !! k = Some x <-> x ∈ l /\ name x = k.
Proof.
  induction l as [|y l IH] using rev_ind; intros Hnd.
  - unfold collect_by. cbn. rewrite lookup_empty. split; [done|]. by intros [?%not_elem_of_nil _].
  - rewrite map_app in Hnd. apply NoDup_app in Hnd as (Hnd & Hdis & _).
    rewrite collect_by_app, elem_of_app, list_elem_of_singleton. specialize (IH Hnd).
    destruct (decide (name y = k)) as [<-|Hne].
    + rewrite lookup_insert_eq. split; [intros [= ->]; auto|]. intros [[Hx| ->] Heq]; [|done].
      exfalso. apply (Hdis (name y)); [|by left]. rewrite <- Heq. by apply list_elem_of_fmap_2.
    + rewrite lookup_insert_ne by done. rewrite IH. split; [tauto|]. intros [[?| ->] ?]; done.
Qed.

Lemma NoDup_of_map {A B} (f : A -> B) l : NoDup (map f l) -> NoDup l.
Proof. apply NoDup_fmap_1. Qed.

(** What the hasher reads, sorted at both levels. *)
Definition field_data (t : TableDef) : list (string * string) :=
  map (fun f => (f_name f, canonical_str (field_type f))) (fields t).

Definition norm (s : Schema) : list (string * list (string * string)) :=
  map (fun t => (t.1, sort_by_name fst t.2)) (sort_by_name fst (table_data s)).

Definition enc_field (f : string * string) : bytes :=
  string_bytes f.1 ++ string_bytes ":" ++ string_bytes f.2 ++ string_bytes ";".

Definition enc_table (t : string * list (string * string)) : bytes :=
  string_bytes t.1 ++ string_bytes "|" ++ concat (map enc_field t.2) ++ string_bytes "||".

Lemma hash_input_norm s : hash_input (table_data s) = concat (map enc_table (norm s)).
Proof. unfold hash_input, norm. by rewrite map_map. Qed.

Lemma in_norm s t fs :
  distinct_names s ->
  (t, fs) ∈ norm s <-> exists td, table_at s t = Some td /\ fs = sort_by_name fst (field_data td).
Proof.
  intros [Hnd _]. unfold norm, table_at. rewrite list_elem_of_fmap.
  setoid_rewrite (sort_by_name_perm fst (table_data s)). unfold table_data. split.
  - intros ([t' fs'] & [= -> ->] & Hin). apply list_elem_of_fmap in Hin as (td & [= -> ->] & Hin).
    exists td. by rewrite collect_by_lookup.
  - intros (td & Hin & ->). apply collect_by_lookup in Hin as [Hin <-]; [|done].
    exists (t_name td, field_data td). split; [done|]. by eapply list_elem_of_fmap_2'.
Qed.

Lemma in_field_data s t td f ty :
  distinct_names s -> table_at s t = Some td ->
  (f, ty) ∈ sort_by_name fst (field_data td) <->
  exists T, field_at s t f = Some T /\ ty = canonical_str T.
Proof.
  intros [Hnd Hfs] Ht. rewrite sort_by_name_perm. unfold field_at, field_data. rewrite Ht. cbn.
  apply collect_by_lookup in Ht as [Hin _]; [|done]. rewrite Forall_forall in Hfs.
  specialize (Hfs _ Hin). rewrite list_elem_of_fmap. setoid_rewrite fmap_Some.
  setoid_rewrite (collect_by_lookup f_name _ _ _ Hfs). naive_solver.
Qed.

Lemma norm_names s : map fst (norm s) ≡ₚ map t_name (tables s).
Proof.
  unfold norm. rewrite map_map. cbn.
  assert (forall l, map (fun t : string * list (string * string) => t.1) (sort_by_name fst l) ≡ₚ map fst l) as Hp
    by (intros l; apply (fmap_Permutation fst), sort_by_name_perm).
  rewrite Hp. unfold table_data. by rewrite map_map.
Qed.

Lemma norm_sorted s : StronglySorted (name_le fst) (norm s).
Proof.
  unfold norm. pose proof (sort_by_name_sorted fst (table_data s)) as Hs. revert Hs.
  generalize (sort_by_name fst (table_data s)). intros l. induction 1 as [|x l Hl IH Hx]; cbn; constructor; [done|].
  by apply Forall_map.
Qed.

Lemma NoDup_field_data s t td :
  distinct_names s -> table_at s t = Some td -> NoDup (map fst (field_data td)).
Proof.
  intros [Hnd Hfs] Ht. apply collect_by_lookup in Ht as [Hin _]; [|done].
  rewrite Forall_forall in Hfs. specialize (Hfs _ Hin). unfold field_data. by rewrite map_map.
Qed.

(** Mutual extension is equality of what is hashed. *)
Lemma norm_incl s s' :
  distinct_names s -> distinct_names s' -> extends s s' -> extends s' s -> forall x, x ∈ norm s -> x ∈ norm s'.
Proof.
  intros Hd Hd' [Ht Hf] [_ Hf'] [t fs] Hin. apply in_norm in Hin as (td & Htd & ->); [|done].
  apply in_norm; [done|]. destruct (Ht t) as [td' Htd']; [by exists td|]. exists td'. split; [done|].
  apply sort_by_name_permuted; [by apply (NoDup_field_data s t)|].
  apply NoDup_Permutation; [by apply (NoDup_of_map fst), (NoDup_field_data s t)|by apply (NoDup_of_map fst), (NoDup_field_data s' t)|].
  intros [f ty]. rewrite <- (sort_by_name_perm fst (field_data td)), <- (sort_by_name_perm fst (field_data td')).
  rewrite (in_field_data s t td) by done. rewrite (in_field_data s' t td') by done.
  split; intros (T & HT & ->); exists T; split; auto.
Qed.

Lemma norm_extends s s' :
  distinct_names s -> distinct_names s' -> norm s = norm s' <-> extends s s' /\ extends s' s.
Proof.
  intros Hd Hd'. assert (forall s s', distinct_names s -> distinct_names s' -> norm s = norm s' -> extends s s') as Hone.
  { clear. intros s s' Hd Hd' Heq.
    assert (forall t td, table_at s t = Some td -> exists td', table_at s' t = Some td' /\
      sort_by_name fst (field_data td) = sort_by_name fst (field_data td')) as Ht.
    { intros t td Htd. apply in_norm; [done|]. rewrite <- Heq. apply in_norm; [done|]. by exists td. }
    split.
    - intros t [td Htd]. destruct (Ht _ _ Htd) as (td' & ? & _). by exists td'.
    - intros t f ty Hf. destruct (table_at s t) as [td|] eqn:Htd; [|unfold field_at in Hf; by rewrite Htd in Hf].
      destruct (Ht _ _ Htd) as (td' & Htd' & Hs).
      assert ((f, canonical_str ty) ∈ sort_by_name fst (field_data td)) as Hin
        by (apply (in_field_data s t); [done..|]; by exists ty).
      rewrite Hs in Hin. apply (in_field_data s' t) in Hin as (T & HT & Hc); [|done..].
      by rewrite (canonical_str_inj _ _ Hc). }
  split; [intros; split; by apply Hone|]. intros [H1 H2].
  apply (sorted_by_name_unique fst); [|apply norm_sorted..|].
  - rewrite norm_names. apply Hd.
  - apply NoDup_Permutation.
    + apply (NoDup_of_map fst). rewrite norm_names. apply Hd.
    + apply (NoDup_of_map fst). rewrite norm_names. apply Hd'.
    + split; by apply norm_incl.
Qed.

(** The encoding of the hasher is read back unambiguously. *)
Lemma string_bytes_inj s t : string_bytes s = string_bytes t -> s = t.
Proof.
  revert t. induction s as [|a s IH]; intros [|b t]; try done. cbn. intros [= Hab Hst].
  apply (f_equal Ascii.ascii_of_N) in Hab. rewrite !Ascii.ascii_N_embedding in Hab.
  by rewrite Hab, (IH _ Hst).
Qed.

Definition field_safe (f : string * string) : Prop :=
  58%N ∉ string_bytes f.1 /\ head (string_bytes f.1) <> Some 124%N /\ 59%N ∉ string_bytes f.2.

Lemma enc_fields_inj l1 l2 r1 r2 :
  Forall field_safe l1 -> Forall field_safe l2 ->
  concat (map enc_field l1) ++ string_bytes "||" ++ r1 = concat (map enc_field l2) ++ string_bytes "||" ++ r2 ->
  l1 = l2 /\ r1 = r2.
Proof.
  intros H1. revert l2. induction H1 as [|[n1 y1] l1 (Ha1 & Hb1 & Hc1) H1 IH];
    intros l2 [|[n2 y2] l2' (Ha2 & Hb2 & Hc2) H2]; cbn -[string_bytes] in *.
  - by intros [= ->].
  - intros He. destruct n2 as [|a n2]; cbn in *; [done|]. injection He as He _. by rewrite <- He in Hb2.
  - intros He. destruct n1 as [|a n1]; cbn in *; [done|]. injection He as He _. by rewrite He in Hb1.
  - rewrite <- !app_assoc. unfold enc_field. cbn [fst snd].
    rewrite <- !app_assoc. intros He. cbn [string_bytes] in He.
    apply not_elem_of_app_cons_inv_l in He as (He1 & _ & He); [|done..].
    apply not_elem_of_app_cons_inv_l in He as (He2 & _ & He); [|done..].
    destruct (IH l2' H2 He) as [-> ->].
    by rewrite (string_bytes_inj _ _ He1), (string_bytes_inj _ _ He2).
Qed.

Definition table_safe (t : string * list (string * string)) : Prop :=
  124%N ∉ string_bytes t.1 /\ Forall field_safe t.2.

Lemma enc_tables_inj l1 l2 :
  Forall table_safe l1 -> Forall table_safe l2 ->
  concat (map enc_table l1) = concat (map enc_table l2) -> l1 = l2.
Proof.
  intros H1. revert l2. induction H1 as [|[n1 f1] l1 [Ha1 Hb1] H1 IH];
    intros l2 [|[n2 f2] l2' [Ha2 Hb2] H2]; cbn -[string_bytes enc_table] in *.
  - done.
  - intros He. symmetry in He. apply app_nil in He as [He _]. by apply app_nil in He as [_ He].
  - intros He. apply app_nil in He as [He _]. by apply app_nil in He as [_ He].
  - unfold enc_table at 1 3. cbn [fst snd]. rewrite <- !app_assoc. intros He.
    change (string_bytes "|") with [124%N] in He. cbn [app] in He.
    apply not_elem_of_app_cons_inv_l in He as (He1 & _ & He); [|done..].
    apply enc_fields_inj in He as [-> He]; [|done..].
    by rewrite (string_bytes_inj _ _ He1), (IH l2').
Qed.

Lemma norm_safe s : hash_safe s -> Forall table_safe (norm s).
Proof.
  intros Hs. unfold norm. apply Forall_map. rewrite sort_by_name_perm. unfold table_data.
  apply Forall_map. eapply Forall_impl; [exact Hs|]. intros t [Ht Hf]. split; [done|]. cbn [snd].
  rewrite sort_by_name_perm. apply Forall_map. eapply Forall_impl; [exact Hf|].
  intros f [Hn Hh]. split_and!; [done..|]. cbn. destruct (field_type f); by apply (bool_decide_unpack _).
Qed.

(** The identifier hash and the diff agree: whatever SHA-256 is, two schemas
    without a duplicate declaration that the diff calls identical have the same hash
    in whatever order they declare tables and fields; and when no name holds a
    separator, two schemas whose hashed bytes are equal are identical for the
    diff. *)
Theorem hash_agrees_with_diff (s s' : Schema) :
  distinct_names s -> distinct_names s' ->
  let d := diff_schemas s s' in
  (is_identical d = true -> forall sha256, identifier_hash sha256 s = identifier_hash sha256 s') /\
  (hash_safe s -> hash_safe s' ->
   hash_input (table_data s) = hash_input (table_data s') -> is_identical d = true).
Proof.
  intros Hd Hd' d. unfold d. rewrite identical_extends, <- norm_extends by done. split.
  - intros Hn sha256. unfold identifier_hash, compute_schema_identifier_hash.
    by rewrite !hash_input_norm, Hn.
  - rewrite !hash_input_norm. intros H1 H2. by apply enc_tables_inj; apply norm_safe.
Qed.

(** An incoming schema is breaking exactly when it does not extend the base, that is
    when a table or a field of the base is gone or has another type; it is identical
    exactly when each extends the other; of the three classes exactly one holds; and
    a chain of schemas none of which breaks the one before never breaks the first. *)
Theorem diff_classifies (base incoming : Schema) :
  let d := diff_schemas base incoming in
  (is_breaking d = false <-> extends base incoming) /\
  (is_identical d = true <-> extends base incoming /\ extends incoming base) /\
  is_additive d = negb (is_identical d) && negb (is_breaking d) /\
  (is_identical d = true -> is_breaking d = false) /\
  (forall newer, is_breaking d = false -> is_breaking (diff_schemas incoming newer) = false ->
     is_breaking (diff_schemas base newer) = false).
Proof.
  intros d. unfold d. split_and!.
  - apply breaking_extends.
  - apply identical_extends.
  - apply additive_split.
  - rewrite breaking_extends, identical_extends. tauto.
  - intros newer. rewrite !breaking_extends. intros H1 H2. by transitivity incoming.
Qed.

(** The lists of the diff are exact: the tables and fields only one side has, and the
    fields both have with different types. *)
Theorem diff_lists_exact (base incoming : Schema) :
  let d := diff_schemas base incoming in
  (forall t, t ∈ added_tables d <-> table_at base t = None /\ is_Some (table_at incoming t)) /\
  (forall t, t ∈ removed_tables d <-> table_at incoming t = None /\ is_Some (table_at base t)) /\
  (forall t f, mkRef t f ∈ added_fields d <->
     is_Some (table_at base t) /\ field_at base t f = None /\ is_Some (field_at incoming t f)) /\
  (forall t f, mkRef t f ∈ removed_fields d <->
     is_Some (table_at incoming t) /\ field_at incoming t f = None /\ is_Some (field_at base t f)) /\
  (forall t f from to, mkRetyped t f from to ∈ retyped_fields d <->
     exists ty ty', field_at base t f = Some ty /\ field_at incoming t f = Some ty' /\ ty <> ty' /\
       from = canonical_str ty /\ to = canonical_str ty').
Proof.
  split_and!; [apply in_added_tables|apply in_removed_tables|apply in_added_fields|
    apply in_removed_fields|apply in_retyped_fields].
Qed.

Section Examples.
Let text n := mkField n Text false None.
Let users fs := mkSchema [mkTable "users" fs (Aggressive 100) []] "1.0.0".
Let two := mkSchema [mkTable "b" [text "y"; text "x"] NoCompaction []; mkTable "a" [] NoCompaction []] "1".
Let two' := mkSchema [mkTable "a" [] NoCompaction []; mkTable "b" [text "x"; text "y"] NoCompaction []] "2".

Lemma hash_agrees_with_diff_witness :
  is_identical (diff_schemas two two') = true /\
  identifier_hash (fun b => N.of_nat (length b)) two = identifier_hash (fun b => N.of_nat (length b)) two'.
Proof.
  assert (distinct_names two) as H1 by (apply (bool_decide_unpack _); vm_compute; done).
  assert (distinct_names two') as H2 by (apply (bool_decide_unpack _); vm_compute; done).
  assert (hash_safe two) as H3 by (apply (bool_decide_unpack _); vm_compute; done).
  assert (hash_safe two') as H4 by (apply (bool_decide_unpack _); vm_compute; done).
  destruct (hash_agrees_with_diff two two' H1 H2) as [Hh Hi].
  assert (is_identical (diff_schemas two two') = true) as Heq
    by (apply Hi; [exact H3|exact H4|vm_compute; reflexivity]).
  split; [exact Heq|exact (Hh Heq _)].
Defined.

(** A rename is a removal and an addition; a new field is additive. *)
Example rename_is_breaking :
  let d := diff_schemas (users [text "id"; text "name"]) (users [text "id"; text "label"]) in
  is_breaking d = true /\ removed_fields d = [mkRef "users" "name"] /\ added_fields d = [mkRef "users" "label"].
Proof. by vm_compute. Qed.

(** A field declared twice changes the hashed bytes but not the diff. *)
Example duplicate_declaration :
  let s := users [text "a"; text "a"] in let s' := users [text "a"] in
  is_identical (diff_schemas s' s) = true /\
  bool_decide (hash_input (table_data s) = hash_input (table_data s')) = false.
Proof. by vm_compute. Qed.

(** Without the restriction on names two different schemas are hashed alike. *)
Example hash_input_ambiguous :
  hash_input (table_data (users [text "b"; text "c"])) = hash_input (table_data (users [text "b:TEXT;c"])).
Proof. by vm_compute. Qed.
End Examples.

End Schema.
