(* ===== verification/SchemaText.v ===== *)
(** * Schema documents: [schema/tirbase.pest], [schema/parser.rs], [schema/printer.rs]

    The grammar is data: its rules are the terms of [tirbase.pest], in the same order
    and with the same combinators, and [run] is the meaning pest gives them (ordered
    choice, greedy repetition, the implicit [WHITESPACE] and [COMMENT] between the parts
    of a rule that is not atomic).  [run] builds the pairs [parser.rs] walks, and the
    walk is translated function by function.  Strings are their bytes; the position and
    the text of a syntax error are pest's and stay a parameter, as do [Display] and
    [FromStr] of [f64]. *)

From Stdlib Require Import Ascii SpecFloat.
From S2P Require Import Prelude Types Schema.

(** ** Strings *)

#[local] Arguments String.append : simpl nomatch.
#[local] Arguments Ascii.eqb !a !b /.

(** The first [n] bytes of a string. *)
Fixpoint str_take (n : nat) (s : string) : string :=
  match n, s with
  | S n', String c s' => String c (str_take n' s')
  | _, _ => ""
  end.

Fixpoint str_forall (p : ascii -> bool) (s : string) : bool :=
  match s with "" => true | String c s' => p c && str_forall p s' end.

Fixpoint str_exists (p : ascii -> bool) (s : string) : bool :=
  match s with "" => false | String c s' => p c || str_exists p s' end.

(** The rest of [s] after [lit]: [match_string]. *)
Fixpoint match_string (lit s : string) : option string :=
  match lit, s with
  | "", _ => Some s
  | String a lit', String b s' => if Ascii.eqb a b then match_string lit' s' else None
  | String _ _, "" => None
  end.

Definition in_range (lo hi c : ascii) : bool :=
  (Ascii.N_of_ascii lo <=? Ascii.N_of_ascii c)%N && (Ascii.N_of_ascii c <=? Ascii.N_of_ascii hi)%N.

Definition newline : ascii := "010".
Definition quote : ascii := "034".

(** ** The decimal digits of a number: [u64] and [i64] as [Display] and [FromStr] have them *)

Definition digit (n : N) : ascii := Ascii.ascii_of_N (48 + n).

Fixpoint digits (fuel : nat) (n : N) : string :=
  match fuel with
  | O => ""
  | S fuel' => (if (n <? 10)%N then "" else digits fuel' (n / 10)) +:+ String (digit (n mod 10)) ""
  end.

Definition print_N (n : N) : string := digits (S (N.to_nat (N.log2 n))) n.

Definition print_Z (z : Z) : string :=
  if z <? 0 then String "-" (print_N (Z.abs_N z)) else print_N (Z.abs_N z).

(** The value of a run of digits, and [None] on any other string or on the empty one. *)
Fixpoint digits_value (acc : N) (s : string) : option N :=
  match s with
  | "" => Some acc
  | String c s' =>
      if in_range "0" "9" c then digits_value (10 * acc + (Ascii.N_of_ascii c - 48))%N s' else None
  end.

(** [from_str_radix(s, 10)]: an optional sign, then at least one digit; a minus sign only
    on a signed type. *)
Definition digits_only (s : string) : option N :=
  match s with "" => None | _ => digits_value 0 s end.

Definition parse_u64 (s : string) : option Z :=
  let body := default s (match_string "+" s) in
  n ← digits_only body; if decide (u64_ok (Z.of_N n)) then Some (Z.of_N n) else None.

Definition parse_i64 (s : string) : option Z :=
  z ← match match_string "-" s with
      | Some body => n ← digits_only body; Some (- Z.of_N n)
      | None => n ← digits_only (default s (match_string "+" s)); Some (Z.of_N n)
      end;
  if decide (i64_ok z) then Some z else None.

(** ** Lemmas on strings *)

Lemma str_app_assoc a b c : (a +:+ b) +:+ c = a +:+ b +:+ c.
Proof. induction a as [|x a IH]; cbn; [done|]. by rewrite IH. Qed.

Lemma str_app_nil a : a +:+ "" = a.
Proof. induction a as [|x a IH]; cbn; [done|]. by rewrite IH. Qed.

Lemma length_str_app a b : String.length (a +:+ b) = (String.length a + String.length b)%nat.
Proof. induction a as [|x a IH]; cbn; [done|]. by rewrite IH. Qed.

Lemma match_string_app p k : match_string p (p +:+ k) = Some k.
Proof. induction p as [|x p IH]; cbn; [done|]. by rewrite Ascii.eqb_refl. Qed.

Lemma match_string_split p s r : match_string p s = Some r -> s = p +:+ r.
Proof.
  revert s. induction p as [|x p IH]; intros s; cbn; [by intros [= ->]|].
  destruct s as [|y s]; [done|]. destruct (Ascii.eqb_spec x y) as [->|]; [|done].
  intros Hm. by rewrite (IH s Hm).
Qed.

Lemma str_take_app a b : str_take (String.length a) (a +:+ b) = a.
Proof. induction a as [|x a IH]; cbn; [by destruct b|]. by rewrite IH. Qed.

Lemma str_forall_app p a b : str_forall p (a +:+ b) = str_forall p a && str_forall p b.
Proof. induction a as [|x a IH]; cbn; [done|]. by rewrite IH, andb_assoc. Qed.

Lemma str_forall_impl (p q : ascii -> bool) s :
  (forall c, p c = true -> q c = true) -> str_forall p s = true -> str_forall q s = true.
Proof.
  intros Hpq. induction s as [|c s IH]; cbn; [done|]. intros [Hc Hs]%andb_true_iff.
  by rewrite (Hpq c Hc), IH.
Qed.

(** The text in front of [k] cannot run on into it. *)
Definition stops (p : ascii -> bool) (k : string) : Prop :=
  match k with "" => True | String c _ => p c = false end.

(** *** Decimal numbers *)

Lemma digit_range n : (n < 10)%N -> in_range "0" "9" (digit n) = true /\ Ascii.N_of_ascii (digit n) = (48 + n)%N.
Proof.
  intros Hn. unfold in_range, digit. rewrite Ascii.N_ascii_embedding by lia.
  split; [|done]. apply andb_true_iff. split; apply N.leb_le; cbn; lia.
Qed.

Lemma digits_value_app acc a b :
  digits_value acc (a +:+ b) = digits_value acc a ≫= fun acc' => digits_value acc' b.
Proof.
  revert acc. induction a as [|c a IH]; intros acc; cbn [String.append digits_value]; [done|].
  case_match; [apply IH|done].
Qed.

Lemma digits_value_digits fuel n :
  (N.to_nat (N.log2 n) < fuel)%nat -> digits_value 0 (digits fuel n) = Some n.
Proof.
  revert n. induction fuel as [|fuel IH]; intros n Hf; [lia|]. cbn [digits].
  rewrite digits_value_app.
  assert (digits_value 0 (if (n <? 10)%N then "" else digits fuel (n / 10)) = Some (n / 10)%N) as ->.
  { destruct (N.ltb_spec n 10) as [Hn|Hn]; [by rewrite N.div_small|]. apply IH.
    assert (N.log2 (n / 10) < N.log2 n)%N; [|lia].
    apply N.log2_lt_pow2; [apply N.div_str_pos; lia|]. apply N.Div0.div_lt_upper_bound.
    pose proof (N.log2_spec n) as Hs. rewrite N.pow_succ_r' in Hs. lia. }
  cbn [mbind option_bind digits_value].
  destruct (digit_range (n mod 10)) as [-> ->]; [apply N.mod_lt; lia|].
  f_equal. rewrite (N.add_comm 48), N.add_sub. symmetry. by apply N.div_mod.
Qed.

Lemma digits_shape fuel n : str_forall (in_range "0" "9") (digits fuel n) = true.
Proof.
  revert n. induction fuel as [|fuel IH]; intros n; [done|]. cbn [digits]. rewrite str_forall_app.
  destruct (digit_range (n mod 10)) as [Hd _]; [apply N.mod_lt; lia|].
  cbn [str_forall]. rewrite Hd. cbn. case_match; by rewrite ?IH.
Qed.

Lemma digits_cons fuel n : exists c s, digits (S fuel) n = String c s.
Proof.
  cbn [digits]. destruct (if (n <? 10)%N then _ else _) as [|c s]; cbn; by repeat eexists.
Qed.

Lemma print_N_value n : digits_only (print_N n) = Some n.
Proof.
  unfold print_N, digits_only. destruct (digits_cons (N.to_nat (N.log2 n)) n) as (c & s & Heq).
  rewrite Heq, <- Heq. apply digits_value_digits. lia.
Qed.

Lemma print_N_head n c s : print_N n = String c s -> in_range "0" "9" c = true.
Proof.
  intros Heq. pose proof (digits_shape (S (N.to_nat (N.log2 n))) n) as Hd. unfold print_N in Heq.
  rewrite Heq in Hd. cbn in Hd. by apply andb_true_iff in Hd as [? _].
Qed.

Lemma no_sign a n : in_range "0" "9" a = false -> match_string (String a "") (print_N n) = None.
Proof.
  intros Ha. destruct (print_N n) as [|c s] eqn:Heq; [done|]. cbn [match_string].
  apply print_N_head in Heq. destruct (Ascii.eqb_spec a c) as [->|]; [congruence|done].
Qed.

Lemma parse_print_u64 z : u64_ok z -> parse_u64 (print_Z z) = Some z.
Proof.
  intros Hz. unfold parse_u64, print_Z, u64_ok in *. rewrite (proj2 (Z.ltb_ge _ _)) by lia.
  rewrite no_sign by done. cbn [default]. rewrite print_N_value. cbn [mbind option_bind].
  rewrite N2Z.inj_abs_N, Z.abs_eq by lia. by rewrite decide_True.
Qed.

Lemma parse_print_i64 z : i64_ok z -> parse_i64 (print_Z z) = Some z.
Proof.
  intros Hz. unfold parse_i64, print_Z.
  destruct (Z.ltb_spec z 0) as [Hlt|Hge].
  - cbn [match_string Ascii.eqb Bool.eqb]. rewrite print_N_value. cbn [mbind option_bind]. rewrite N2Z.inj_abs_N.
    replace (- Z.abs z) with z by lia. by rewrite decide_True.
  - rewrite !no_sign by done. cbn [default]. rewrite print_N_value. cbn [mbind option_bind].
    rewrite N2Z.inj_abs_N, Z.abs_eq by lia. by rewrite decide_True.
Qed.

(** ** Parsing expressions *)

Module SchemaText.
Import Schema.

(** The rules of the grammar that make a pair. *)
Inductive Rule :=
| R_ident | R_string_literal | R_integer_literal | R_real_literal
| R_bool_true | R_bool_false | R_null_lit | R_default_value | R_field_type
| R_compaction_aggressive | R_compaction_none | R_compaction_directive
| R_not_null_modifier | R_default_modifier | R_field_def
| R_column_list | R_primary_key_constraint | R_unique_constraint | R_constraint
| R_table_item | R_table_def | R_version_directive | R_schema.

#[export] Instance Rule_eq_dec : EqDecision Rule.
Proof. solve_decision. Defined.

(** [pest::iterators::Pair]: the rule, where the pair starts (the number of bytes from
    there to the end of the source), [as_str] and [into_inner]. *)
Inductive Pair := mkPair {
  as_rule : Rule;
  at_rest : nat;
  as_str : string;
  into_inner : list Pair
}.

Inductive Expr :=
| Str (lit : string)
| Chr (p : ascii -> bool)          (* ANY, ASCII_ALPHA, ... *)
| NotP (e : Expr)                  (* !e *)
| Seq (a b : Expr)                 (* a ~ b *)
| Alt (a b : Expr)                 (* a | b *)
| Opt (e : Expr)                   (* e? *)
| Star (e : Expr)                  (* e* *)
| SOI | EOI
| Named (r : Rule) (atomic : bool) (e : Expr).

Definition WHITESPACE (c : ascii) : bool :=
  Ascii.eqb c " " || Ascii.eqb c "009" || Ascii.eqb c "013" || Ascii.eqb c newline.

(** [WHITESPACE* ~ (COMMENT ~ WHITESPACE* )*], a comment running up to the end of its line. *)
Fixpoint skip_in (comment : bool) (s : string) : string :=
  match s with
  | "" => ""
  | String c s' =>
      if comment then skip_in (negb (Ascii.eqb c newline)) s'
      else if WHITESPACE c then skip_in false s'
      else if Ascii.eqb c "/" then
        match s' with
        | String d s'' => if Ascii.eqb d "/" then skip_in true s'' else s
        | "" => s
        end
      else s
  end.

Definition skip (atomic : bool) (s : string) : string := if atomic then s else skip_in false s.

(** The part of [s] in front of its suffix [r]. *)
Definition consumed (s r : string) : string := str_take (String.length s - String.length r) s.

(** The rest of a repetition: [(skip ~ e)*]; the text skipped in front of a failure is
    given back. *)
Section Loop.
Context (step : string -> option (list Pair * string)) (atomic : bool).

Fixpoint star_loop (fuel : nat) (s : string) : list Pair * string :=
  match fuel with
  | O => ([], s)
  | S fuel' =>
      match step (skip atomic s) with
      | None => ([], s)
      | Some (ps, r) => let '(qs, r') := star_loop fuel' r in (ps ++ qs, r')
      end
  end.
End Loop.

Fixpoint run (e : Expr) (atomic : bool) (s : string) : option (list Pair * string) :=
  match e with
  | Str lit => r ← match_string lit s; Some ([], r)
  | Chr p => match s with String c s' => if p c then Some ([], s') else None | "" => None end
  | NotP e => match run e atomic s with Some _ => None | None => Some ([], s) end
  | Seq a b =>
      '(ps, r) ← run a atomic s;
      '(qs, r') ← run b atomic (skip atomic r);
      Some (ps ++ qs, r')
  | Alt a b => match run a atomic s with Some x => Some x | None => run b atomic s end
  | Opt e => match run e atomic s with Some x => Some x | None => Some ([], s) end
  | Star e =>
      match run e atomic s with
      | None => Some ([], s)
      | Some (ps, r) =>
          let '(qs, r') := star_loop (run e atomic) atomic (String.length r) r in Some (ps ++ qs, r')
      end
  | SOI => Some ([], s)
  | EOI => match s with "" => Some ([], s) | _ => None end
  | Named rule at_ e =>
      '(ps, r) ← run e (atomic || at_) s;
      Some (if atomic then []
            else [mkPair rule (String.length s) (consumed s r) (if at_ then [] else ps)], r)
  end.

(** *** Laws of the interpreter *)

Lemma consumed_app t k : consumed (t +:+ k) k = t.
Proof.
  unfold consumed. rewrite length_str_app.
  replace (String.length t + String.length k - String.length k)%nat with (String.length t) by lia.
  apply str_take_app.
Qed.

Lemma string_length_ind (P : string -> Prop) :
  (forall s, (forall s', (String.length s' < String.length s)%nat -> P s') -> P s) -> forall s, P s.
Proof.
  intros HP s. remember (String.length s) as n eqn:Hn. revert s Hn.
  induction (Nat.lt_wf_0 n) as [n _ IH]. intros s ->. apply HP. intros s' Hs. by eapply IH.
Qed.

Lemma skip_in_length b s : (String.length (skip_in b s) <= String.length s)%nat.
Proof.
  revert b. induction s as [s IH] using string_length_ind. intros b.
  assert (forall b s', (String.length s' < String.length s)%nat ->
    (String.length (skip_in b s') <= String.length s)%nat) as Hs.
  { intros b' s' Hl. specialize (IH s' Hl b'). lia. }
  destruct s as [|c s]; [by destruct b|]. cbn [skip_in].
  destruct b; [apply Hs; cbn; lia|]. destruct (WHITESPACE c); [apply Hs; cbn; lia|].
  destruct (Ascii.eqb c "/"); [|done]. destruct s as [|d s]; [done|].
  destruct (Ascii.eqb d "/"); [apply Hs; cbn; lia|done].
Qed.

Lemma skip_skip b s : skip_in false (skip_in b s) = skip_in b s.
Proof.
  revert b. induction s as [s IH] using string_length_ind. intros b.
  destruct s as [|c s]; [by destruct b|]. cbn [skip_in].
  destruct b; [apply IH; cbn; lia|]. destruct (WHITESPACE c) eqn:Hw; [apply IH; cbn; lia|].
  destruct (Ascii.eqb c "/") eqn:Hc; [|cbn [skip_in]; by rewrite Hw, Hc].
  destruct s as [|d s]; [cbn [skip_in]; by rewrite Hw, Hc|].
  destruct (Ascii.eqb d "/") eqn:Hd; [apply IH; cbn; lia|]. cbn [skip_in]. by rewrite Hw, Hc, Hd.
Qed.

Lemma star_loop_rest step atomic fuel s :
  (forall s ps r, step s = Some (ps, r) -> (String.length r <= String.length s)%nat) ->
  (String.length (star_loop step atomic fuel s).2 <= String.length s)%nat.
Proof.
  intros Hstep. revert s. induction fuel as [|fuel IH]; intros s; cbn; [done|].
  destruct (step _) as [[ps r]|] eqn:Hs; [|done]. apply Hstep in Hs.
  specialize (IH r). destruct (star_loop step atomic fuel r) as [qs r']. cbn in *.
  assert (String.length (skip atomic s) <= String.length s)%nat; [|lia].
  destruct atomic; [done|]. apply skip_in_length.
Qed.

(** No expression gives back more text than it was given. *)
Lemma run_rest e atomic s ps r : run e atomic s = Some (ps, r) -> (String.length r <= String.length s)%nat.
Proof.
  revert atomic s ps r.
  induction e as [lit|p|e IHe|a IHa b IHb|a IHa b IHb|e IHe|e IHe| | |rl at_ e IHe];
    intros atomic s ps r; cbn [run].
  - destruct (match_string lit s) as [r'|] eqn:Hm; [|done]. intros [= _ <-].
    apply match_string_split in Hm as ->. rewrite length_str_app. lia.
  - destruct s as [|c s]; [done|]. case_match; [|done]. intros [= _ <-]. cbn. lia.
  - by destruct (run e atomic s); [|intros [= _ <-]].
  - destruct (run a atomic s) as [[p1 r1]|] eqn:Ha; [|done]. cbn.
    destruct (run b _ _) as [[p2 r2]|] eqn:Hb; [|done]. intros [= _ <-].
    apply IHa in Ha. apply IHb in Hb. destruct atomic; cbn [skip] in Hb; [lia|].
    pose proof (skip_in_length false r1). lia.
  - destruct (run a atomic s) as [[p1 r1]|] eqn:Ha; [intros [= <- <-]; by eapply IHa|apply IHb].
  - destruct (run e atomic s) as [[p1 r1]|] eqn:Ha; intros [= _ <-]; [by eapply IHe|done].
  - destruct (run e atomic s) as [[p1 r1]|] eqn:Ha; [|by intros [= _ <-]].
    pose proof (star_loop_rest (run e atomic) atomic (String.length r1) r1 (IHe atomic)) as Hl.
    destruct (star_loop _ _ _ _) as [qs r']. intros [= _ <-]. apply IHe in Ha. cbn in Hl. lia.
  - by intros [= _ <-].
  - destruct s; [by intros [= _ <-]|done].
  - destruct (run e _ s) as [[p1 r1]|] eqn:Ha; [|done]. intros [= _ <-]. by eapply IHe.
Qed.

(** An expression that takes at least one byte whenever it succeeds. *)
Fixpoint consumes (e : Expr) : bool :=
  match e with
  | Str lit => match lit with "" => false | _ => true end
  | Chr _ => true
  | Seq a b => consumes a || consumes b
  | Alt a b => consumes a && consumes b
  | Named _ _ e => consumes e
  | _ => false
  end.

Lemma run_consumes e atomic s ps r :
  consumes e = true -> run e atomic s = Some (ps, r) -> (String.length r < String.length s)%nat.
Proof.
  revert atomic s ps r.
  induction e as [lit|p|e IHe|a IHa b IHb|a IHa b IHb|e IHe|e IHe| | |rl at_ e IHe];
    intros atomic s ps r; cbn [run consumes]; intros Hc; try done.
  - destruct (match_string lit s) as [r'|] eqn:Hm; [|done]. intros [= _ <-].
    apply match_string_split in Hm as ->. rewrite length_str_app. destruct lit; [done|cbn; lia].
  - destruct s as [|c s]; [done|]. case_match; [|done]. intros [= _ <-]. cbn. lia.
  - destruct (run a atomic s) as [[p1 r1]|] eqn:Ha; [|done]. cbn.
    destruct (run b _ _) as [[p2 r2]|] eqn:Hb; [|done]. intros [= _ <-].
    assert (String.length (skip atomic r1) <= String.length r1)%nat.
    { destruct atomic; [done|apply skip_in_length]. }
    pose proof (run_rest _ _ _ _ _ Ha). pose proof (run_rest _ _ _ _ _ Hb).
    apply orb_true_iff in Hc as [Hc|Hc]; [apply IHa in Ha; [lia|done]|apply IHb in Hb; [lia|done]].
  - apply andb_true_iff in Hc as [Hca Hcb].
    destruct (run a atomic s) as [[p1 r1]|] eqn:Ha; [intros [= <- <-]; by eapply IHa|by apply IHb].
  - destruct (run e _ s) as [[p1 r1]|] eqn:Ha; [|done]. intros [= _ <-]. by eapply IHe.
Qed.

(** *** Termination *)

(** The bodies of all repetitions take something. *)
Fixpoint well_founded_expr (e : Expr) : bool :=
  match e with
  | NotP e | Opt e | Named _ _ e => well_founded_expr e
  | Seq a b | Alt a b => well_founded_expr a && well_founded_expr b
  | Star e => consumes e && well_founded_expr e
  | _ => true
  end.

(** The meaning of pest's repetition, without fuel. *)
Inductive repeats (step : string -> option (list Pair * string)) (atomic : bool)
  : string -> list Pair -> string -> Prop :=
| repeats_stop s : step (skip atomic s) = None -> repeats step atomic s [] s
| repeats_more s ps r qs r' :
    step (skip atomic s) = Some (ps, r) -> repeats step atomic r qs r' ->
    repeats step atomic s (ps ++ qs) r'.

(** The meaning of an expression, by its rules and without fuel: [peg e atomic s o] when
    [e] matched at [s] gives [o]. *)
Inductive peg : Expr -> bool -> string -> option (list Pair * string) -> Prop :=
| peg_str lit at_ k : peg (Str lit) at_ (lit +:+ k) (Some ([], k))
| peg_str_none lit at_ s : (forall k, s <> lit +:+ k) -> peg (Str lit) at_ s None
| peg_chr p at_ c k : p c = true -> peg (Chr p) at_ (String c k) (Some ([], k))
| peg_chr_none p at_ s : stops p s -> peg (Chr p) at_ s None
| peg_not e at_ s : peg e at_ s None -> peg (NotP e) at_ s (Some ([], s))
| peg_not_none e at_ s x : peg e at_ s (Some x) -> peg (NotP e) at_ s None
| peg_seq a b at_ s ps r qs r' :
    peg a at_ s (Some (ps, r)) -> peg b at_ (skip at_ r) (Some (qs, r')) ->
    peg (Seq a b) at_ s (Some (ps ++ qs, r'))
| peg_seq_none_l a b at_ s : peg a at_ s None -> peg (Seq a b) at_ s None
| peg_seq_none_r a b at_ s ps r :
    peg a at_ s (Some (ps, r)) -> peg b at_ (skip at_ r) None -> peg (Seq a b) at_ s None
| peg_alt_l a b at_ s x : peg a at_ s (Some x) -> peg (Alt a b) at_ s (Some x)
| peg_alt_r a b at_ s o : peg a at_ s None -> peg b at_ s o -> peg (Alt a b) at_ s o
| peg_opt e at_ s x : peg e at_ s (Some x) -> peg (Opt e) at_ s (Some x)
| peg_opt_none e at_ s : peg e at_ s None -> peg (Opt e) at_ s (Some ([], s))
| peg_star e at_ s ps r qs r' :
    peg e at_ s (Some (ps, r)) -> peg_loop e at_ r qs r' -> peg (Star e) at_ s (Some (ps ++ qs, r'))
| peg_star_none e at_ s : peg e at_ s None -> peg (Star e) at_ s (Some ([], s))
| peg_SOI at_ s : peg SOI at_ s (Some ([], s))
| peg_EOI at_ : peg EOI at_ "" (Some ([], ""))
| peg_EOI_none at_ s : s <> "" -> peg EOI at_ s None
| peg_named rl own e at_ s ps r :
    peg e (at_ || own) s (Some (ps, r)) ->
    peg (Named rl own e) at_ s
      (Some (if at_ then [] else [mkPair rl (String.length s) (consumed s r) (if own then [] else ps)], r))
| peg_named_none rl own e at_ s : peg e (at_ || own) s None -> peg (Named rl own e) at_ s None
with peg_loop : Expr -> bool -> string -> list Pair -> string -> Prop :=
| peg_stop e at_ s : peg e at_ (skip at_ s) None -> peg_loop e at_ s [] s
| peg_more e at_ s ps r qs r' :
    peg e at_ (skip at_ s) (Some (ps, r)) -> peg_loop e at_ r qs r' ->
    peg_loop e at_ s (ps ++ qs) r'.

Scheme peg_mut := Minimality for peg Sort Prop
with peg_loop_mut := Minimality for peg_loop Sort Prop.
Combined Scheme peg_ind2 from peg_mut, peg_loop_mut.

Lemma star_loop_repeats e atomic fuel s :
  consumes e = true -> (String.length s <= fuel)%nat ->
  repeats (run e atomic) atomic s (star_loop (run e atomic) atomic fuel s).1
    (star_loop (run e atomic) atomic fuel s).2.
Proof.
  intros He. revert s. induction fuel as [|fuel IH]; intros s Hs; cbn [star_loop].
  - destruct s as [|c s]; [|cbn in Hs; lia]. cbn. apply repeats_stop.
    destruct (run e atomic _) as [[ps r]|] eqn:Hr; [|done]. apply run_consumes in Hr; [|done].
    destruct atomic; cbn in Hr; lia.
  - destruct (run e atomic (skip atomic s)) as [[ps r]|] eqn:Hr; [|by apply repeats_stop].
    assert (String.length r <= fuel)%nat as Hl.
    { pose proof (run_consumes _ _ _ _ _ He Hr).
      assert (String.length (skip atomic s) <= String.length s)%nat; [|lia].
      destruct atomic; [done|apply skip_in_length]. }
    specialize (IH r Hl). destruct (star_loop (run e atomic) atomic fuel r) as [qs r'].
    cbn in *. by eapply repeats_more.
Qed.

Lemma repeats_unique step atomic s ps r qs r' :
  repeats step atomic s ps r -> repeats step atomic s qs r' -> ps = qs /\ r = r'.
Proof.
  intros Hr. revert qs r'. induction Hr as [s Hs|s ps r qs r1 Hs Hr IH]; intros qs' r' Hr'.
  - inversion Hr'; subst; [done|congruence].
  - inversion Hr'; subst; [congruence|].
    match goal with Hx : step _ = Some _ |- _ => rewrite Hs in Hx; injection Hx as <- <- end.
    by edestruct IH as [-> ->].
Qed.

Lemma repeats_peg e atomic s qs r :
  (forall s, peg e atomic s (run e atomic s)) ->
  repeats (run e atomic) atomic s qs r -> peg_loop e atomic s qs r.
Proof.
  intros He. induction 1 as [s Hs|s ps r qs r' Hs Hr IH].
  - apply peg_stop. rewrite <- Hs. apply He.
  - eapply peg_more; [rewrite <- Hs; apply He|done].
Qed.

(** [run] gives a result its rules allow... *)
Lemma run_peg e atomic s : well_founded_expr e = true -> peg e atomic s (run e atomic s).
Proof.
  revert atomic s.
  induction e as [lit|p|e IHe|a IHa b IHb|a IHa b IHb|e IHe|e IHe| | |rl own e IHe];
    intros atomic s Hw; cbn [well_founded_expr] in Hw; cbn [run];
    try (apply andb_true_iff in Hw as [Hw1 Hw2]).
  - destruct (match_string lit s) as [r|] eqn:Hm; cbn.
    + apply match_string_split in Hm as ->. apply peg_str.
    + apply peg_str_none. intros k ->. by rewrite match_string_app in Hm.
  - destruct s as [|c s]; [by apply peg_chr_none|]. destruct (p c) eqn:Hp; [by apply peg_chr|by apply peg_chr_none].
  - pose proof (IHe atomic s Hw) as He. destruct (run e atomic s); [by eapply peg_not_none|by apply peg_not].
  - pose proof (IHa atomic s Hw1) as Ha. destruct (run a atomic s) as [[ps r]|]; cbn; [|by apply peg_seq_none_l].
    pose proof (IHb atomic (skip atomic r) Hw2) as Hb.
    destruct (run b _ _) as [[qs r']|]; cbn; [by eapply peg_seq|by eapply peg_seq_none_r].
  - pose proof (IHa atomic s Hw1) as Ha. destruct (run a atomic s); [by apply peg_alt_l|].
    apply peg_alt_r; [done|by apply IHb].
  - pose proof (IHe atomic s Hw) as He. destruct (run e atomic s); [by apply peg_opt|by apply peg_opt_none].
  - pose proof (IHe atomic s Hw2) as He. destruct (run e atomic s) as [[ps r]|]; [|by apply peg_star_none].
    pose proof (star_loop_repeats e atomic (String.length r) r Hw1 (le_n _)) as Hl.
    destruct (star_loop _ _ _ _) as [qs r']. cbn in Hl. eapply peg_star; [done|].
    apply repeats_peg; [intros; by apply IHe|done].
  - apply peg_SOI.
  - destruct s; [apply peg_EOI|by apply peg_EOI_none].
  - pose proof (IHe (atomic || own) s Hw) as He. destruct (run e _ s) as [[ps r]|]; cbn;
      [by apply peg_named|by apply peg_named_none].
Qed.

(** ...and the only one. *)
Lemma peg_run :
  (forall e atomic s o, peg e atomic s o -> well_founded_expr e = true -> run e atomic s = o) /\
  (forall e atomic s qs r, peg_loop e atomic s qs r -> well_founded_expr e = true ->
     repeats (run e atomic) atomic s qs r).
Proof.
  apply peg_ind2; intros; cbn [well_founded_expr] in *;
    repeat match goal with Hw : _ && _ = true |- _ => apply andb_true_iff in Hw as [? ?] end;
    repeat match goal with IH : ?w = true -> _, Hw : ?w = true |- _ => specialize (IH Hw) end; cbn [run];
    repeat match goal with IH : run _ _ _ = _ |- _ => rewrite IH; clear IH; cbn [mbind option_bind] end; try done.
  - by rewrite match_string_app.
  - destruct (match_string lit s) as [k|] eqn:Hm; [|done]. apply match_string_split in Hm as ->. naive_solver.
  - by case_match.
  - destruct s as [|c s]; [done|]. cbn in *. by case_match.
  - match goal with Hr : repeats _ _ r _ _, Hc : consumes e = true |- _ =>
      pose proof (star_loop_repeats e at_ (String.length r) r Hc (le_n _)) as Hl;
      destruct (star_loop _ _ _ _) as [qs2 r2]; cbn in Hl;
      by destruct (repeats_unique _ _ _ _ _ _ _ Hr Hl) as [-> ->]
    end.
  - by destruct s.
  - by apply repeats_stop.
  - by eapply repeats_more.
Qed.

(** ** [tirbase.pest] *)

Notation "a ~> b" := (Seq a b) (at level 52, right associativity) : tirbase_scope.
Notation "a <|> b" := (Alt a b) (at level 54, right associativity) : tirbase_scope.
#[local] Open Scope tirbase_scope.

Definition is_digit (c : ascii) : bool := in_range "0" "9" c.
Definition is_alpha (c : ascii) : bool := in_range "a" "z" c || in_range "A" "Z" c.
Definition ident_start (c : ascii) : bool := is_alpha c || Ascii.eqb c "_".
Definition ident_char (c : ascii) : bool := is_alpha c || is_digit c || Ascii.eqb c "_".
Definition any (c : ascii) : bool := true.

Definition digits1 : Expr := Chr is_digit ~> Star (Chr is_digit).

Definition ident : Expr :=
  Named R_ident true
    ((Chr is_alpha <|> Str "_") ~> Star ((Chr (fun c => is_alpha c || is_digit c)) <|> Str "_")).
Definition string_literal : Expr :=
  Named R_string_literal true
    (Str (String quote "") ~> Star (NotP (Str (String quote "")) ~> Chr any) ~> Str (String quote "")).
Definition integer_literal : Expr := Named R_integer_literal true (Opt (Str "-") ~> digits1).
Definition real_literal : Expr :=
  Named R_real_literal true (Opt (Str "-") ~> digits1 ~> Str "." ~> Star (Chr is_digit)).

Definition default_value : Expr :=
  Named R_default_value false
    (real_literal <|> integer_literal <|> string_literal <|>
     Named R_bool_true false (Str "true") <|> Named R_bool_false false (Str "false") <|>
     Named R_null_lit false (Str "null")).

Definition field_type_rule : Expr :=
  Named R_field_type false
    (Str "TEXT" <|> Str "INTEGER" <|> Str "REAL" <|> Str "BLOB" <|> Str "BOOLEAN").

Definition compaction_directive : Expr :=
  Named R_compaction_directive false
    (Str "compaction" ~> Str "=" ~>
     (Named R_compaction_aggressive false (Str "aggressive" ~> Str "(" ~> integer_literal ~> Str ")")
      <|> Named R_compaction_none false (Str "none"))).

Definition not_null_modifier : Expr := Named R_not_null_modifier false (Str "NOT" ~> Str "NULL").
Definition default_modifier : Expr := Named R_default_modifier false (Str "DEFAULT" ~> default_value).
Definition field_def : Expr :=
  Named R_field_def false (ident ~> field_type_rule ~> Opt not_null_modifier ~> Opt default_modifier).

Definition column_list : Expr :=
  Named R_column_list false (Str "(" ~> ident ~> Star (Str "," ~> ident) ~> Str ")").
Definition constraint_rule : Expr :=
  Named R_constraint false
    (Named R_primary_key_constraint false (Str "PRIMARY" ~> Str "KEY" ~> column_list)
     <|> Named R_unique_constraint false (Str "UNIQUE" ~> column_list)).

Definition table_item : Expr := Named R_table_item false (constraint_rule <|> field_def).
Definition table_def : Expr :=
  Named R_table_def false
    (Str "table" ~> ident ~> Str "{" ~> compaction_directive ~> Star table_item ~> Str "}").
Definition version_directive : Expr :=
  Named R_version_directive false (Str "version" ~> Str "=" ~> string_literal).
Definition schema_rule : Expr :=
  Named R_schema false
    (SOI ~> Str "schema" ~> Str "{" ~> version_directive ~> Star table_def ~> Str "}" ~> EOI).

(** ** [parser.rs] *)

(** [Pair::line_col]: lines and columns count from one, a column is a [char]. *)
Definition is_char (c : ascii) : bool := negb (in_range "128" "191" c).
Fixpoint line_col_of (line col : Z) (prefix : string) : Z * Z :=
  match prefix with
  | "" => (line, col)
  | String c s =>
      if Ascii.eqb c newline then line_col_of (line + 1) 1 s
      else line_col_of line (if is_char c then col + 1 else col) s
  end.
Definition line_col (source : string) (p : Pair) : Z * Z :=
  line_col_of 1 1 (str_take (String.length source - at_rest p) source).

(** [s[1..s.len() - 1]] *)
Definition unquote (s : string) : string := String.substring 1 (String.length s - 2) s.

(** The first inner pair a [for] loop returns at. *)
Definition find_rule (r : Rule) (ps : list Pair) : option Pair :=
  head (filter (fun p => as_rule p = r) ps).

Definition parse_version_directive (pair : Pair) : string :=
  match find_rule R_string_literal (into_inner pair) with
  | Some inner => unquote (as_str inner)
  | None => ""
  end.

Definition parse_compaction_directive (pair : Pair) : CompactionPolicy :=
  default NoCompaction
    (head (omap (fun inner =>
       match as_rule inner with
       | R_compaction_aggressive =>
           head (omap (fun lit =>
             if decide (as_rule lit = R_integer_literal) then Aggressive <$> parse_u64 (as_str lit)
             else None) (into_inner inner))
       | R_compaction_none => Some NoCompaction
       | _ => None
       end) (into_inner pair))).

Definition parse_field_type (pair : Pair) : FieldType :=
  if decide (as_str pair = "TEXT") then Text
  else if decide (as_str pair = "INTEGER") then Integer
  else if decide (as_str pair = "REAL") then Real
  else if decide (as_str pair = "BLOB") then Blob
  else if decide (as_str pair = "BOOLEAN") then Boolean
  else Text.

Definition parse_column_list (pair : Pair) : list string :=
  concat (map (fun inner =>
    if decide (as_rule inner = R_column_list) then
      map as_str (filter (fun col => as_rule col = R_ident) (into_inner inner))
    else []) (into_inner pair)).

Abbreviation Parsed A := (result (list TirBaseError) A).

Definition parse_constraint (source : string) (pair : Pair) : Parsed Constraint :=
  let (line, col) := line_col source pair in
  default (Err [SchemaParseError line col "unrecognised constraint"])
    (head (omap (fun inner =>
       match as_rule inner with
       | R_primary_key_constraint => Some (Ok (PrimaryKey (parse_column_list inner)))
       | R_unique_constraint => Some (Ok (Unique (parse_column_list inner)))
       | _ => None
       end) (into_inner pair))).

Section Text.
Context (f64_parse : string -> spec_float) (f64_display : spec_float -> string).
(** The line, the column and the message of pest's error. *)
Context (pest_error : string -> Z * Z * string).

Definition parse_default_value (pair : Pair) : DefaultValue :=
  default DNull
    (head (omap (fun inner =>
       match as_rule inner with
       | R_real_literal => Some (DReal (f64_parse (as_str inner)))
       | R_integer_literal => Some (DInteger (default 0 (parse_i64 (as_str inner))))
       | R_string_literal => Some (DText (unquote (as_str inner)))
       | R_bool_true => Some (DBoolean true)
       | R_bool_false => Some (DBoolean false)
       | R_null_lit => Some DNull
       | _ => None
       end) (into_inner pair))).

Definition parse_default_modifier (pair : Pair) : DefaultValue :=
  match find_rule R_default_value (into_inner pair) with
  | Some inner => parse_default_value inner
  | None => DNull
  end.

(** The locals of [parse_field_def]. *)
Record FieldAcc := mkFieldAcc {
  fa_name : string; fa_type : option FieldType; fa_nullable : bool; fa_default : option DefaultValue
}.

Definition field_step (a : FieldAcc) (inner : Pair) : FieldAcc :=
  match as_rule inner with
  | R_ident => mkFieldAcc (as_str inner) (fa_type a) (fa_nullable a) (fa_default a)
  | R_field_type => mkFieldAcc (fa_name a) (Some (parse_field_type inner)) (fa_nullable a) (fa_default a)
  | R_not_null_modifier => mkFieldAcc (fa_name a) (fa_type a) false (fa_default a)
  | R_default_modifier =>
      mkFieldAcc (fa_name a) (fa_type a) (fa_nullable a) (Some (parse_default_modifier inner))
  | _ => a
  end.

Definition parse_field_def (source : string) (pair : Pair) : Parsed FieldDef :=
  let (line, col) := line_col source pair in
  let a := foldl field_step (mkFieldAcc "" None true None) (into_inner pair) in
  match fa_type a with
  | Some ft => Ok (mkField (fa_name a) ft (fa_nullable a) (fa_default a))
  | None => Err [SchemaParseError line col "field has no type"]
  end.

(** The locals of [parse_table_def]. *)
Record TableAcc := mkTableAcc {
  ta_name : string; ta_policy : CompactionPolicy; ta_fields : list FieldDef;
  ta_constraints : list Constraint; ta_errors : list TirBaseError
}.

Definition item_step (source : string) (a : TableAcc) (item : Pair) : TableAcc :=
  match as_rule item with
  | R_field_def =>
      match parse_field_def source item with
      | Ok fd => mkTableAcc (ta_name a) (ta_policy a) (ta_fields a ++ [fd]) (ta_constraints a) (ta_errors a)
      | Err es => mkTableAcc (ta_name a) (ta_policy a) (ta_fields a) (ta_constraints a) (ta_errors a ++ es)
      end
  | R_constraint =>
      match parse_constraint source item with
      | Ok c => mkTableAcc (ta_name a) (ta_policy a) (ta_fields a) (ta_constraints a ++ [c]) (ta_errors a)
      | Err es => mkTableAcc (ta_name a) (ta_policy a) (ta_fields a) (ta_constraints a) (ta_errors a ++ es)
      end
  | _ => a
  end.

Definition table_step (source : string) (a : TableAcc) (inner : Pair) : TableAcc :=
  match as_rule inner with
  | R_ident => mkTableAcc (as_str inner) (ta_policy a) (ta_fields a) (ta_constraints a) (ta_errors a)
  | R_compaction_directive =>
      mkTableAcc (ta_name a) (parse_compaction_directive inner) (ta_fields a) (ta_constraints a) (ta_errors a)
  | R_table_item => foldl (item_step source) a (into_inner inner)
  | _ => a
  end.

Definition parse_table_def (source : string) (pair : Pair) : Parsed TableDef :=
  let a := foldl (table_step source) (mkTableAcc "" NoCompaction [] [] []) (into_inner pair) in
  match ta_errors a with
  | [] => Ok (mkTable (ta_name a) (ta_fields a) (ta_policy a) (ta_constraints a))
  | es => Err es
  end.

(** The locals of [parse]. *)
Record SchemaAcc := mkSchemaAcc {
  sa_version : string; sa_tables : list TableDef; sa_errors : list TirBaseError
}.

Definition schema_step (source : string) (a : SchemaAcc) (inner : Pair) : SchemaAcc :=
  match as_rule inner with
  | R_version_directive => mkSchemaAcc (parse_version_directive inner) (sa_tables a) (sa_errors a)
  | R_table_def =>
      match parse_table_def source inner with
      | Ok td => mkSchemaAcc (sa_version a) (sa_tables a ++ [td]) (sa_errors a)
      | Err es => mkSchemaAcc (sa_version a) (sa_tables a) (sa_errors a ++ es)
      end
  | _ => a
  end.

Definition parse (source : string) : Parsed Schema :=
  match run schema_rule false source with
  | None =>
      let '(line, col, message) := pest_error source in Err [SchemaParseError line col message]
  | Some (pairs, _) =>
      let a := foldl (fun a pair =>
          if decide (as_rule pair = R_schema) then foldl (schema_step source) a (into_inner pair) else a)
        (mkSchemaAcc "" [] []) pairs in
      match sa_errors a with
      | [] => Ok (mkSchema (sa_tables a) (sa_version a))
      | es => Err es
      end
  end.

(** ** [printer.rs] *)

Definition print_compaction (policy : CompactionPolicy) : string :=
  match policy with
  | Aggressive threshold => "aggressive(" +:+ print_Z threshold +:+ ")"
  | NoCompaction => "none"
  end.

Definition print_real (f : spec_float) : string :=
  let s := f64_display f in
  if str_exists (fun c => Ascii.eqb c "." || Ascii.eqb c "e" || Ascii.eqb c "E") s then s
  else s +:+ ".0".

Definition print_default_value (dv : DefaultValue) : string :=
  match dv with
  | DText s => String quote s +:+ String quote ""
  | DInteger i => print_Z i
  | DReal f => print_real f
  | DBoolean true => "true"
  | DBoolean false => "false"
  | DNull => "null"
  end.

Definition print_field (field : FieldDef) : string :=
  String.concat " "
    ([f_name field; canonical_str (field_type field)] ++
     (if nullable field then [] else ["NOT NULL"]) ++
     match f_default field with
     | Some dv => ["DEFAULT " +:+ print_default_value dv]
     | None => []
     end).

Definition print_constraint (c : Constraint) : string :=
  match c with
  | PrimaryKey cols => "PRIMARY KEY (" +:+ String.concat ", " cols +:+ ")"
  | Unique cols => "UNIQUE (" +:+ String.concat ", " cols +:+ ")"
  | NotNull col => "// NOT NULL " +:+ col
  end.

(** [out.push_str] over a list. *)
Definition concat_map {A} (f : A -> string) (l : list A) : string :=
  foldr (fun x out => f x +:+ out) "" l.

Definition nl : string := String newline "".

Definition print_table (table : TableDef) : string :=
  "  table " +:+ t_name table +:+ " {" +:+ nl +:+
  "    compaction = " +:+ print_compaction (compaction_policy table) +:+ nl +:+
  (match fields table with [] => "" | _ => nl end) +:+
  concat_map (fun f => "    " +:+ print_field f +:+ nl) (fields table) +:+
  (match constraints table with [] => "" | _ => nl end) +:+
  concat_map (fun c => "    " +:+ print_constraint c +:+ nl) (constraints table) +:+
  "  }" +:+ nl.

Definition print (schema : Schema) : string :=
  "schema {" +:+ nl +:+
  "  version = " +:+ String quote (version schema) +:+ String quote "" +:+ nl +:+
  concat_map (fun t => nl +:+ print_table t) (tables schema) +:+
  "}" +:+ nl.

(** ** Running the grammar on printed text *)

Lemma run_seq a b atomic s ps r qs r' :
  run a atomic s = Some (ps, r) -> run b atomic (skip atomic r) = Some (qs, r') ->
  run (Seq a b) atomic s = Some (ps ++ qs, r').
Proof. intros Ha Hb. cbn [run]. rewrite Ha. cbn [mbind option_bind]. by rewrite Hb. Qed.

Lemma run_alt_l a b atomic s x : run a atomic s = Some x -> run (Alt a b) atomic s = Some x.
Proof. intros Ha. cbn [run]. by rewrite Ha. Qed.

Lemma run_alt_r a b atomic s : run a atomic s = None -> run (Alt a b) atomic s = run b atomic s.
Proof. intros Ha. cbn [run]. by rewrite Ha. Qed.

Lemma run_str lit atomic k : run (Str lit) atomic (lit +:+ k) = Some ([], k).
Proof. cbn [run]. by rewrite match_string_app. Qed.

Lemma run_named rl e s ps r :
  run e false s = Some (ps, r) ->
  run (Named rl false e) false s = Some ([mkPair rl (String.length s) (consumed s r) ps], r).
Proof. intros He. cbn [run orb]. by rewrite He. Qed.

Lemma run_named_none rl at_ e s : run e at_ s = None -> run (Named rl at_ e) false s = None.
Proof. intros He. cbn [run orb]. by rewrite He. Qed.

Lemma run_token rl e t ps k :
  run e true (t +:+ k) = Some (ps, k) ->
  run (Named rl true e) false (t +:+ k) = Some ([mkPair rl (String.length (t +:+ k)) t []], k).
Proof. intros He. cbn [run orb]. rewrite He. cbn. by rewrite consumed_app. Qed.

(** A repetition that starts on text. *)
Lemma run_star e s ps r :
  consumes e = true -> skip_in false s = s -> repeats (run e false) false s ps r ->
  run (Star e) false s = Some (ps, r).
Proof.
  intros He Hs Hr. cbn [run]. destruct Hr as [s Hn|s ps r qs r' Hm Hr]; cbn [skip] in *; rewrite Hs in *.
  - by rewrite Hn.
  - rewrite Hm. pose proof (star_loop_repeats e false (String.length r) r He (le_n _)) as Hl.
    destruct (star_loop _ _ _ _) as [qs2 r2]. cbn in Hl.
    by destruct (repeats_unique _ _ _ _ _ _ _ Hr Hl) as [-> ->].
Qed.

(** Repetitions of one character. *)
Lemma run_star_chars e (p : ascii -> bool) t k :
  consumes e = true ->
  (forall c s, p c = true -> run e true (String c s) = Some ([], s)) -> run e true k = None ->
  str_forall p t = true -> run (Star e) true (t +:+ k) = Some ([], k).
Proof.
  intros He Hc Hk Ht.
  assert (repeats (run e true) true (t +:+ k) [] k) as Hr.
  { induction t as [|c t IH]; cbn in *; [by apply repeats_stop|].
    apply andb_true_iff in Ht as [Hp Ht].
    change (@nil Pair) with (@nil Pair ++ []). eapply repeats_more; [by apply Hc|by apply IH]. }
  cbn [run]. destruct Hr as [s Hn|s ps r qs r' Hm Hr]; cbn [skip] in *; [by rewrite Hn|].
  rewrite Hm. pose proof (star_loop_repeats e true (String.length r) r He (le_n _)) as Hl.
  destruct (star_loop _ _ _ _) as [qs2 r2]. cbn in Hl.
  by destruct (repeats_unique _ _ _ _ _ _ _ Hr Hl) as [-> ->].
Qed.

Lemma run_chars p t k :
  str_forall p t = true -> stops p k -> run (Star (Chr p)) true (t +:+ k) = Some ([], k).
Proof.
  intros Ht Hk. apply (run_star_chars _ p); [done| | |done].
  - intros c s Hc. cbn. by rewrite Hc.
  - destruct k as [|c k]; cbn in *; [done|]. by rewrite Hk.
Qed.

(** *** Identifiers *)

Definition ident_name (s : string) : bool :=
  match s with "" => false | String c s' => ident_start c && str_forall ident_char s' end.

Lemma ident_char_not_space c : ident_char c = true -> WHITESPACE c = false /\ Ascii.eqb c "/" = false.
Proof.
  intros Hc. split.
  - unfold WHITESPACE. repeat rewrite orb_false_iff. repeat split;
      match goal with |- Ascii.eqb c ?d = false => destruct (Ascii.eqb_spec c d) as [->|]; [vm_compute in Hc; done|done] end.
  - destruct (Ascii.eqb_spec c "/") as [->|]; [vm_compute in Hc; done|done].
Qed.

Lemma ident_start_char c : ident_start c = true -> ident_char c = true.
Proof. unfold ident_start, ident_char. destruct (is_alpha c), (is_digit c); cbn; tauto. Qed.

Lemma skip_ident_char c k : ident_char c = true -> skip_in false (String c k) = String c k.
Proof. intros Hc. destruct (ident_char_not_space _ Hc) as [Hw Hs]. cbn [skip_in]. by rewrite Hw, Hs. Qed.

Lemma skip_ident t k : ident_name t = true -> skip_in false (t +:+ k) = t +:+ k.
Proof.
  destruct t as [|c t]; cbn [ident_name]; [done|]. intros [Hc _]%andb_true_iff.
  by apply skip_ident_char, ident_start_char.
Qed.

Lemma run_ident t k :
  ident_name t = true -> stops ident_char k ->
  run ident false (t +:+ k) = Some ([mkPair R_ident (String.length (t +:+ k)) t []], k).
Proof.
  intros Ht Hk. apply (run_token _ _ _ []). destruct t as [|c t]; [done|].
  cbn [ident_name] in Ht. apply andb_true_iff in Ht as [Hc Ht].
  change (@nil Pair) with (@nil Pair ++ []). eapply (run_seq _ _ _ _ _ (t +:+ k)).
  - unfold ident_start in Hc. cbn. destruct (is_alpha c); [done|]. cbn in Hc.
    rewrite Ascii.eqb_sym, Hc. by destruct t.
  - cbn [skip]. apply (run_star_chars _ ident_char); [done| | |done].
    + intros d s Hd. unfold ident_char in Hd. cbn. destruct (is_alpha d || is_digit d); [done|].
      cbn in Hd. rewrite Ascii.eqb_sym, Hd. by destruct s.
    + destruct k as [|d k]; [done|]. cbn in Hk. unfold ident_char in Hk. cbn.
      destruct (is_alpha d || is_digit d); [done|]. cbn in Hk. by rewrite Ascii.eqb_sym, Hk.
Qed.

(** *** Literals *)

Definition digit_run (d : string) : Prop := d <> "" /\ str_forall is_digit d = true.
Definition sign_of (sign : string) : Prop := sign = "" \/ sign = "-".

Lemma run_sign sign d k :
  sign_of sign -> digit_run d -> run (Opt (Str "-")) true (sign +:+ d +:+ k) = Some ([], d +:+ k).
Proof.
  intros [->| ->] [Hd Hds]; [|done]. destruct d as [|c d]; [done|]. cbn in Hds |- *.
  apply andb_true_iff in Hds as [Hc _].
  destruct (Ascii.eqb_spec "-" c) as [<-|]; [by vm_compute in Hc|done].
Qed.

Lemma run_digits d k :
  digit_run d -> stops is_digit k -> run digits1 true (d +:+ k) = Some ([], k).
Proof.
  intros [Hd Hds] Hk. destruct d as [|c d]; [done|]. cbn in Hds. apply andb_true_iff in Hds as [Hc Hds].
  change (@nil Pair) with (@nil Pair ++ []). apply (run_seq _ _ _ _ _ (d +:+ k)).
  - cbn. by rewrite Hc.
  - by apply run_chars.
Qed.

Lemma print_N_run n : digit_run (print_N n).
Proof.
  split; [|apply digits_shape]. unfold print_N.
  destruct (digits_cons (N.to_nat (N.log2 n)) n) as (c & s & ->). done.
Qed.

Lemma print_Z_run z : exists sign d, sign_of sign /\ digit_run d /\ print_Z z = sign +:+ d.
Proof.
  unfold print_Z. destruct (z <? 0).
  - exists "-", (print_N (Z.abs_N z)). split; [by right|]. split; [apply print_N_run|done].
  - exists "", (print_N (Z.abs_N z)). split; [by left|]. split; [apply print_N_run|done].
Qed.

Lemma run_integer z k :
  stops is_digit k ->
  run integer_literal false (print_Z z +:+ k) =
    Some ([mkPair R_integer_literal (String.length (print_Z z +:+ k)) (print_Z z) []], k).
Proof.
  intros Hk. apply (run_token _ _ _ []). destruct (print_Z_run z) as (sign & d & Hs & Hd & ->).
  rewrite str_app_assoc. change (@nil Pair) with (@nil Pair ++ []). eapply run_seq; [by apply run_sign|].
  by apply run_digits.
Qed.

(** A printed integer has no decimal point. *)
Lemma run_integer_not_real z k :
  stops is_digit k -> stops (fun c => Ascii.eqb "." c) k -> run real_literal false (print_Z z +:+ k) = None.
Proof.
  intros Hk Hp. apply run_named_none. destruct (print_Z_run z) as (sign & d & Hs & Hd & ->).
  rewrite str_app_assoc. cbn [run]. pose proof (run_sign sign d k Hs Hd) as Hsign.
  cbn [run] in Hsign. rewrite Hsign. cbn [mbind option_bind skip].
  pose proof (run_digits d k Hd Hk) as Hdig. unfold digits1 in *. cbn [run] in Hdig. cbn [run]. rewrite Hdig.
  cbn [mbind option_bind skip]. destruct k as [|c k]; [done|]. cbn in Hp |- *. by rewrite Hp.
Qed.

(** The lexemes of [real_literal]. *)
Definition real_lexeme (t : string) : Prop :=
  exists sign d1 d2, sign_of sign /\ digit_run d1 /\ str_forall is_digit d2 = true /\
    t = sign +:+ d1 +:+ "." +:+ d2.

Lemma run_real t k :
  real_lexeme t -> stops is_digit k ->
  run real_literal false (t +:+ k) = Some ([mkPair R_real_literal (String.length (t +:+ k)) t []], k).
Proof.
  intros (sign & d1 & d2 & Hs & Hd1 & Hd2 & ->) Hk. apply (run_token _ _ _ []).
  rewrite !str_app_assoc. change (@nil Pair) with (@nil Pair ++ [] ++ [] ++ []).
  eapply run_seq; [by apply run_sign|]. cbn [skip].
  eapply run_seq; [by apply run_digits|]. cbn [skip]. eapply run_seq; [apply run_str|].
  by apply run_chars.
Qed.

Definition not_quote (c : ascii) : bool := negb (Ascii.eqb quote c).
Definition quotable (s : string) : bool := str_forall not_quote s.

Lemma run_string t k :
  quotable t = true ->
  let lexeme := String quote t +:+ String quote "" in
  run string_literal false (lexeme +:+ k) =
    Some ([mkPair R_string_literal (String.length (lexeme +:+ k)) lexeme []], k).
Proof.
  intros Ht lexeme. apply (run_token _ _ _ []). unfold lexeme. rewrite str_app_assoc.
  change (@nil Pair) with (@nil Pair ++ [] ++ []).
  eapply run_seq; [apply (run_str (String quote ""))|]. cbn [skip].
  eapply run_seq; [|apply (run_str (String quote ""))]. apply (run_star_chars _ not_quote); [done| |done|done].
  intros c s Hc. unfold not_quote in Hc. apply negb_true_iff in Hc. cbn [run match_string].
  rewrite Hc. done.
Qed.

Lemma unquote_quoted t : unquote (String quote t +:+ String quote "") = t.
Proof.
  unfold unquote. cbn [String.append String.length String.substring]. rewrite length_str_app. cbn.
  replace (String.length t + 1 - 1)%nat with (String.length t) by lia.
  induction t as [|c t IH]; cbn; [done|]. by rewrite IH.
Qed.

(** *** Defaults *)

(** The values whose text reads back as themselves; the laws of [Display] and [FromStr] of
    [f64] enter here, for the reals the schema has. *)
Definition default_ok (d : DefaultValue) : Prop :=
  match d with
  | DText t => quotable t = true
  | DInteger i => i64_ok i
  | DReal f => real_lexeme (print_real f) /\ f64_parse (print_real f) = f
  | _ => True
  end.

Lemma skip_number sign d k : sign_of sign -> digit_run d -> skip_in false (sign +:+ d +:+ k) = sign +:+ d +:+ k.
Proof.
  intros [->| ->] [Hd Hds]; [|done]. destruct d as [|c d]; [done|]. cbn in Hds.
  apply andb_true_iff in Hds as [Hc _]. apply skip_ident_char. unfold ident_char. fold (is_digit c) in Hc.
  rewrite Hc. by destruct (is_alpha c).
Qed.

Lemma skip_default d k : default_ok d -> skip_in false (print_default_value d +:+ k) = print_default_value d +:+ k.
Proof.
  destruct d as [t|i|f|[]|]; cbn [default_ok print_default_value]; intros Hd; try done.
  - destruct (print_Z_run i) as (sign & d & Hs & Hr & ->). rewrite str_app_assoc. by apply skip_number.
  - destruct Hd as [(sign & d1 & d2 & Hs & Hr & _ & ->) _]. rewrite !str_app_assoc. by apply skip_number.
Qed.

Lemma run_default_value d k :
  default_ok d -> exists p, run default_value false (print_default_value d +:+ nl +:+ k) = Some ([p], nl +:+ k) /\
    as_rule p = R_default_value /\ parse_default_value p = d.
Proof.
  assert (forall rl t (v : DefaultValue),
    run default_value false (t +:+ nl +:+ k) =
      Some ([mkPair R_default_value (String.length (t +:+ nl +:+ k)) (consumed (t +:+ nl +:+ k) (nl +:+ k))
               [mkPair rl (String.length (t +:+ nl +:+ k)) t []]], nl +:+ k) ->
    (forall n m u, parse_default_value (mkPair R_default_value n m [mkPair rl u t []]) = v) ->
    exists p, run default_value false (t +:+ nl +:+ k) = Some ([p], nl +:+ k) /\
      as_rule p = R_default_value /\ parse_default_value p = v) as Htok.
  { intros rl t v Hr Hv. eexists. split; [exact Hr|]. split; [done|]. apply Hv. }
  destruct d as [t|i|f|b|]; cbn [default_ok print_default_value]; intros Hd.
  - apply (Htok R_string_literal).
    + apply run_named. rewrite !run_alt_r by done. apply run_alt_l. by apply run_string.
    + intros. unfold parse_default_value. cbn -[unquote String.append]. by rewrite unquote_quoted.
  - apply (Htok R_integer_literal).
    + apply run_named. rewrite run_alt_r by by apply run_integer_not_real. apply run_alt_l.
      by apply run_integer.
    + intros. unfold parse_default_value. cbn -[parse_i64]. by rewrite parse_print_i64.
  - destruct Hd as [Hl Hv]. apply (Htok R_real_literal).
    + apply run_named, run_alt_l. by apply run_real.
    + intros. unfold parse_default_value. cbn. by rewrite Hv.
  - destruct b; eexists; (split; [reflexivity|done]).
  - eexists; (split; [reflexivity|done]).
Qed.

(** *** Fields *)

Lemma print_field_eq f :
  print_field f = f_name f +:+ " " +:+ canonical_str (field_type f) +:+
    (if nullable f then "" else " NOT NULL") +:+
    match f_default f with Some dv => " DEFAULT " +:+ print_default_value dv | None => "" end.
Proof.
  unfold print_field. destruct (nullable f), (f_default f); cbn [app String.concat];
    rewrite ?str_app_assoc; do 2 f_equal; cbn; try done; by rewrite str_app_nil.
Qed.

Lemma run_field_type ft k :
  exists p, run field_type_rule false (canonical_str ft +:+ k) = Some ([p], k) /\
    as_rule p = R_field_type /\ parse_field_type p = ft.
Proof.
  eexists. split; [|split].
  - apply run_named. by destruct ft.
  - done.
  - unfold parse_field_type. cbn [as_str]. rewrite consumed_app. by destruct ft.
Qed.

Lemma run_opt e s ps r : run e false s = Some (ps, r) -> run (Opt e) false s = Some (ps, r).
Proof. intros He. cbn [run]. by rewrite He. Qed.
Lemma run_opt_none e s : run e false s = None -> run (Opt e) false s = Some ([], s).
Proof. intros He. cbn [run]. by rewrite He. Qed.

(** What follows a field cannot be read as a modifier of it. *)
Definition field_ends (f : FieldDef) (k : string) : Prop :=
  f_default f = None ->
  (nullable f = true -> run not_null_modifier false (skip_in false k) = None) /\
  run default_modifier false (skip_in false k) = None.

Lemma run_not_null f d k :
  let mods := (if nullable f then "" else " NOT NULL") +:+ d +:+ nl +:+ k in
  (nullable f = true -> run not_null_modifier false (skip_in false (d +:+ nl +:+ k)) = None) ->
  exists ps r, run (Opt not_null_modifier) false (skip_in false mods) = Some (ps, r) /\
    skip_in false r = skip_in false (d +:+ nl +:+ k) /\
    foldl field_step (mkFieldAcc (f_name f) (Some (field_type f)) true None) ps =
      mkFieldAcc (f_name f) (Some (field_type f)) (nullable f) None.
Proof.
  intros mods Hn. unfold mods. destruct (nullable f).
  - exists [], (skip_in false (d +:+ nl +:+ k)). split; [by apply run_opt_none, Hn|].
    split; [apply skip_skip|done].
  - eexists _, (d +:+ nl +:+ k). split; [apply run_opt, run_named; reflexivity|].
    split; [done|]. cbn. done.
Qed.

Lemma run_default f k :
  match f_default f with Some d => default_ok d | None => True end ->
  (f_default f = None -> run default_modifier false (skip_in false k) = None) ->
  let d := match f_default f with Some dv => " DEFAULT " +:+ print_default_value dv | None => "" end in
  exists ps r, run (Opt default_modifier) false (skip_in false (d +:+ nl +:+ k)) = Some (ps, r) /\
    skip_in false r = skip_in false k /\
    foldl field_step (mkFieldAcc (f_name f) (Some (field_type f)) (nullable f) None) ps =
      mkFieldAcc (f_name f) (Some (field_type f)) (nullable f) (f_default f).
Proof.
  intros Hd Hn. destruct (f_default f) as [v|].
  - destruct (run_default_value v k Hd) as (p & Hp & Hr & Hv).
    eexists _, (nl +:+ k). split; [|split; [done|]].
    + apply run_opt, run_named. eapply (run_seq _ _ _ _ [] (" " +:+ print_default_value v +:+ nl +:+ k)).
      * by rewrite str_app_assoc.
      * cbn [skip]. change (skip_in false (" " +:+ ?x)) with (skip_in false x).
        by rewrite skip_default.
    + cbn. unfold parse_default_modifier, find_rule. cbn [into_inner app].
      rewrite filter_cons_True by done. cbn. by rewrite Hv.
  - exists [], (skip_in false k). split; [by apply run_opt_none, Hn|]. split; [apply skip_skip|done].
Qed.

Definition field_ok (f : FieldDef) : Prop :=
  ident_name (f_name f) = true /\ match f_default f with Some d => default_ok d | None => True end.

Lemma run_field f k :
  field_ok f -> field_ends f k ->
  exists p r, run field_def false (print_field f +:+ nl +:+ k) = Some ([p], r) /\
    skip_in false r = skip_in false k /\ as_rule p = R_field_def /\
    forall src, parse_field_def src p = Ok f.
Proof.
  intros [Hname Hd] Hends. rewrite print_field_eq, !str_app_assoc.
  set (d := match f_default f with Some _ => _ | None => _ end).
  destruct (run_field_type (field_type f) ((if nullable f then "" else " NOT NULL") +:+ d +:+ nl +:+ k))
    as (pt & Hpt & Hrt & Hvt).
  destruct (run_not_null f d k) as (pn & rn & Hpn & Hrn & Hfn).
  { intros Hnull. unfold d. destruct (f_default f) as [v|] eqn:Hf; [reflexivity|]. by apply Hends. }
  destruct (run_default f k Hd) as (pd & rd & Hpd & Hrd & Hfd); [by intros Hf; apply Hends|].
  fold d in Hpd. eexists _, rd. split; [|split; [done|split]].
  - apply run_named. eapply run_seq; [by apply run_ident|]. cbn [skip].
    change (skip_in false (" " +:+ ?x)) with (skip_in false x).
    eapply run_seq; [|cbn [skip]; eapply run_seq; [exact Hpn|cbn [skip]; rewrite Hrn; exact Hpd]].
    rewrite skip_ident; [exact Hpt|by destruct (field_type f)].
  - done.
  - intros src. unfold parse_field_def. destruct (line_col _ _) as [line col]. cbn [into_inner].
    rewrite foldl_app.
    change (foldl field_step (mkFieldAcc "" None true None) [_]) with (mkFieldAcc (f_name f) None true None).
    rewrite foldl_app.
    assert (foldl field_step (mkFieldAcc (f_name f) None true None) [pt] =
      mkFieldAcc (f_name f) (Some (field_type f)) true None) as ->.
    { cbn [foldl]. unfold field_step. by rewrite Hrt, Hvt. }
    rewrite foldl_app, Hfn, Hfd. by destruct f.
Qed.

(** *** Names that read as a modifier *)

Definition clash_null (name : string) : bool :=
  match match_string "NOT" name with
  | Some rest => match match_string "NULL" rest with Some _ => true | None => false end
  | None => false
  end.

Definition clash_default (name : string) : bool :=
  match match_string "DEFAULT" name with
  | Some rest =>
      match rest with "" => false | String c _ => is_digit c end ||
      existsb (fun lit => match match_string lit rest with Some _ => true | None => false end)
        ["true"; "false"; "null"]
  | None => false
  end.

Lemma match_string_ends lit t c k :
  str_forall (fun a => negb (Ascii.eqb a c)) lit = true ->
  match_string lit (t +:+ String c k) =
    match match_string lit t with Some r => Some (r +:+ String c k) | None => None end.
Proof.
  revert t. induction lit as [|a lit IH]; intros t Ha; cbn in Ha; [done|].
  apply andb_true_iff in Ha as [Ha Hl]. apply negb_true_iff in Ha.
  destruct t as [|b t]; cbn [String.append match_string]; [by rewrite Ha|].
  destruct (Ascii.eqb a b); [by apply IH|done].
Qed.

Lemma skip_rest t k : str_forall ident_char t = true -> t <> "" -> skip_in false (t +:+ k) = t +:+ k.
Proof.
  destruct t as [|c t]; [done|]. cbn. intros [Hc _]%andb_true_iff _. by apply skip_ident_char.
Qed.

Lemma ident_rest lit rest : lit <> "" -> ident_name (lit +:+ rest) = true -> str_forall ident_char rest = true.
Proof.
  destruct lit as [|c lit]; [done|]. intros _. cbn [String.append ident_name].
  rewrite str_forall_app. by intros (_ & (_ & Hr)%andb_true_iff)%andb_true_iff.
Qed.

(** After the name come a space and a field type. *)
Lemma name_not_null name ft k :
  ident_name name = true -> clash_null name = false ->
  run not_null_modifier false (name +:+ " " +:+ canonical_str ft +:+ k) = None.
Proof.
  intros Hid Hc. apply run_named_none. cbn [run].
  change (" " +:+ ?x) with (String " " x). rewrite match_string_ends by done.
  unfold clash_null in Hc. destruct (match_string "NOT" name) as [rest|] eqn:Hm; [|done].
  cbn [mbind option_bind skip]. apply match_string_split in Hm. rewrite Hm in Hid. apply ident_rest in Hid; [|done].
  destruct rest as [|c rest].
  - cbn [String.append]. change (skip_in false (String " " ?x)) with (skip_in false x).
    by destruct ft.
  - rewrite skip_rest by done. rewrite match_string_ends by done.
    by destruct (match_string "NULL" (String c rest)).
Qed.

Lemma name_not_default name ft k :
  ident_name name = true -> clash_default name = false ->
  run default_modifier false (name +:+ " " +:+ canonical_str ft +:+ k) = None.
Proof.
  intros Hid Hc. apply run_named_none. cbn [run].
  change (" " +:+ ?x) with (String " " x). rewrite match_string_ends by done.
  unfold clash_default in Hc. destruct (match_string "DEFAULT" name) as [rest|] eqn:Hm; [|done].
  cbn [mbind option_bind skip]. apply match_string_split in Hm. rewrite Hm in Hid. apply ident_rest in Hid; [|done].
  destruct rest as [|c rest].
  - cbn [String.append]. change (skip_in false (String " " ?x)) with (skip_in false x).
    by destruct ft.
  - rewrite skip_rest by done. cbn [existsb] in Hc. rewrite !orb_false_iff in Hc.
    destruct Hc as (Hdig & Ht & Hf & Hn & _). cbn [str_forall] in Hid. apply andb_true_iff in Hid as [Hci _].
    assert (forall a, ident_char a = false -> Ascii.eqb a c = false) as Hne.
    { intros a Ha. destruct (Ascii.eqb_spec a c) as [->|]; [congruence|done]. }
    assert (forall lit, str_forall (fun a => negb (Ascii.eqb a " ")) lit = true ->
      match match_string lit (String c rest) with Some _ => true | None => false end = false ->
      match_string lit (String c rest +:+ String " " (canonical_str ft +:+ k)) = None) as Hlit.
    { intros lit Hl Hm'. rewrite match_string_ends by done. by destruct (match_string lit _). }
    assert (run default_value false (String c rest +:+ String " " (canonical_str ft +:+ k)) = None) as ->; [|done].
    apply run_named_none. unfold real_literal, integer_literal, string_literal.
    cbn [run orb]. rewrite (Hlit "true"), (Hlit "false"), (Hlit "null") by done.
    cbn [String.append match_string]. rewrite !Hne by done. cbn [mbind option_bind skip digits1 run].
    by rewrite Hdig.
Qed.

(** *** Constraints *)

Definition columns_ok (cols : list string) : Prop :=
  cols <> [] /\ Forall (fun c => ident_name c = true) cols.

Definition constraint_ok (c : Constraint) : Prop :=
  match c with
  | PrimaryKey cols | Unique cols => columns_ok cols
  | NotNull _ => False
  end.

Definition more_cols (cols : list string) : string := concat_map (fun c => ", " +:+ c) cols.

Lemma concat_cols c cols : String.concat ", " (c :: cols) = c +:+ more_cols cols.
Proof.
  revert c. induction cols as [|d cols IH]; intros c; [by rewrite str_app_nil|].
  change (String.concat ", " (c :: d :: cols)) with (c +:+ ", " +:+ String.concat ", " (d :: cols)).
  rewrite IH. cbn [more_cols concat_map foldr]. by rewrite str_app_assoc.
Qed.

Lemma run_more_cols cols k :
  Forall (fun c => ident_name c = true) cols ->
  exists ps, run (Star (Str "," ~> ident)) false (more_cols cols +:+ ")" +:+ k) = Some (ps, ")" +:+ k) /\
    Forall (fun p => as_rule p = R_ident) ps /\ map as_str ps = cols.
Proof.
  intros Hc.
  assert (exists ps, repeats (run (Str "," ~> ident) false) false (more_cols cols +:+ ")" +:+ k) ps (")" +:+ k) /\
    Forall (fun p => as_rule p = R_ident) ps /\ map as_str ps = cols) as (ps & Hr & Hps).
  { induction Hc as [|c cols Hc Hcs (ps & Hr & Hps & <-)].
    { exists []. split; [by apply repeats_stop|done]. }
    eexists ([mkPair R_ident _ c []] ++ ps). split; [|split; [by constructor|done]].
    eapply repeats_more; [|exact Hr]. cbn [more_cols concat_map foldr skip]. rewrite !str_app_assoc.
    change (skip_in false (", " +:+ ?x)) with ("," +:+ " " +:+ x).
    change [mkPair R_ident ?n c []] with ([] ++ [mkPair R_ident n c []]).
    eapply run_seq; [apply run_str|]. cbn [skip].
    change (skip_in false (" " +:+ ?x)) with (skip_in false x). rewrite skip_ident by done.
    apply run_ident; [done|]. by destruct (map as_str ps). }
  exists ps. split; [|done]. apply run_star; [done| |done]. by destruct cols.
Qed.

Lemma run_columns cols k :
  columns_ok cols ->
  exists p, run column_list false ("(" +:+ String.concat ", " cols +:+ ")" +:+ k) = Some ([p], k) /\
    as_rule p = R_column_list /\ map as_str (filter (fun col => as_rule col = R_ident) (into_inner p)) = cols.
Proof.
  intros [Hne Hok]. destruct cols as [|c cols]; [done|]. apply Forall_cons in Hok as [Hc Hcs].
  rewrite concat_cols, str_app_assoc. destruct (run_more_cols cols k Hcs) as (ps & Hps & Hr & <-).
  eexists. split; [|split].
  - apply run_named. eapply run_seq; [apply run_str|]. cbn [skip]. rewrite skip_ident by done.
    eapply run_seq; [apply run_ident; [done|by destruct (map as_str ps)]|]. cbn [skip].
    assert (skip_in false (more_cols (map as_str ps) +:+ ")" +:+ k) = more_cols (map as_str ps) +:+ ")" +:+ k) as ->.
    { by destruct (map as_str ps). }
    eapply run_seq; [exact Hps|]. reflexivity.
  - done.
  - cbn [into_inner app]. rewrite filter_cons_True by done. cbn [map as_str]. f_equal.
    rewrite app_nil_r. f_equal. clear -Hr. induction Hr as [|p ps Hp Hps IH]; [done|].
    by rewrite filter_cons_True, IH.
Qed.

Lemma run_constraint c k :
  constraint_ok c ->
  exists p, run constraint_rule false (print_constraint c +:+ k) = Some ([p], k) /\
    as_rule p = R_constraint /\ forall src, parse_constraint src p = Ok c.
Proof.
  destruct c as [cols|cols|col]; cbn [constraint_ok print_constraint]; intros Hok; [| |done];
    destruct (run_columns cols k Hok) as (p & Hp & Hr & Hv); rewrite !str_app_assoc; eexists.
  - split; [|split].
    + apply run_named, run_alt_l, run_named.
      eapply (run_seq _ _ _ _ [] (" KEY (" +:+ String.concat ", " cols +:+ ")" +:+ k)); [done|].
      change (skip false (" KEY (" +:+ ?x)) with ("KEY" +:+ " (" +:+ x).
      eapply run_seq; [apply run_str|]. exact Hp.
    + done.
    + intros src. unfold parse_constraint. destruct (line_col _ _). cbn.
      rewrite decide_True by done. by rewrite Hv, app_nil_r.
  - split; [|split].
    + apply run_named. rewrite run_alt_r by done. apply run_named.
      eapply (run_seq _ _ _ _ [] (" (" +:+ String.concat ", " cols +:+ ")" +:+ k)); [done|]. exact Hp.
    + done.
    + intros src. unfold parse_constraint. destruct (line_col _ _). cbn.
      rewrite decide_True by done. by rewrite Hv, app_nil_r.
Qed.

(** *** Items *)

(** A field is never taken for a constraint. *)
Lemma columns_none rest ft k :
  str_forall ident_char rest = true ->
  run column_list false (skip_in false (rest +:+ String " " (canonical_str ft +:+ k))) = None.
Proof.
  intros Hr. apply run_named_none. destruct rest as [|c rest].
  - cbn [String.append]. change (skip_in false (String " " ?x)) with (skip_in false x). by destruct ft.
  - rewrite skip_rest by done. cbn [str_forall] in Hr. apply andb_true_iff in Hr as [Hc _].
    cbn [run String.append match_string].
    destruct (Ascii.eqb_spec "(" c) as [<-|]; [by vm_compute in Hc|done].
Qed.

Lemma name_not_constraint name ft k :
  ident_name name = true -> run constraint_rule false (name +:+ " " +:+ canonical_str ft +:+ k) = None.
Proof.
  intros Hid. apply run_named_none. change (" " +:+ ?x) with (String " " x).
  rewrite run_alt_r; apply run_named_none; cbn [run]; rewrite match_string_ends by done.
  - destruct (match_string "UNIQUE" name) as [rest|] eqn:Hm; [|done]. apply match_string_split in Hm.
    rewrite Hm in Hid. apply ident_rest in Hid; [|done]. cbn [mbind option_bind skip].
    by rewrite columns_none.
  - destruct (match_string "PRIMARY" name) as [rest|] eqn:Hm; [|done]. apply match_string_split in Hm.
    rewrite Hm in Hid. apply ident_rest in Hid; [|done]. cbn [mbind option_bind skip].
    destruct rest as [|c rest].
    { cbn [String.append]. change (skip_in false (String " " ?x)) with (skip_in false x). by destruct ft. }
    rewrite skip_rest, match_string_ends by done.
    destruct (match_string "KEY" (String c rest)) as [rest'|] eqn:Hk; [|done].
    apply match_string_split in Hk. rewrite Hk, str_forall_app in Hid. apply andb_true_iff in Hid as [_ Hid].
    cbn [mbind option_bind skip]. by rewrite columns_none.
Qed.

Lemma run_item_field f k :
  field_ok f -> field_ends f k ->
  exists p r, run table_item false (print_field f +:+ nl +:+ k) = Some ([p], r) /\
    skip_in false r = skip_in false k /\
    forall src a, table_step src a p =
      mkTableAcc (ta_name a) (ta_policy a) (ta_fields a ++ [f]) (ta_constraints a) (ta_errors a).
Proof.
  intros Hok Hends. destruct (run_field f k Hok Hends) as (p & r & Hp & Hr & Hrule & Hv).
  eexists _, r. split; [|split; [done|]].
  - apply run_named. rewrite run_alt_r; [exact Hp|]. rewrite print_field_eq, !str_app_assoc.
    by apply name_not_constraint, Hok.
  - intros src a. unfold table_step. cbn [as_rule into_inner foldl]. unfold item_step. by rewrite Hrule, Hv.
Qed.

Lemma run_item_constraint c k :
  constraint_ok c ->
  exists p, run table_item false (print_constraint c +:+ k) = Some ([p], k) /\
    forall src a, table_step src a p =
      mkTableAcc (ta_name a) (ta_policy a) (ta_fields a) (ta_constraints a ++ [c]) (ta_errors a).
Proof.
  intros Hok. destruct (run_constraint c k Hok) as (p & Hp & Hrule & Hv). eexists. split.
  - apply run_named, run_alt_l. exact Hp.
  - intros src a. unfold table_step. cbn [as_rule into_inner foldl]. unfold item_step. by rewrite Hrule, Hv.
Qed.

Definition constraint_lines (cs : list Constraint) : string :=
  concat_map (fun c => "    " +:+ print_constraint c +:+ nl) cs.
Definition field_lines (fs : list FieldDef) : string :=
  concat_map (fun f => "    " +:+ print_field f +:+ nl) fs.

(** What [s] holds up to blanks, read as items in front of [k], and their effect. *)
Definition items_read (s k : string) (fs : list FieldDef) (cs : list Constraint) : Prop :=
  exists ps r, repeats (run table_item false) false s ps r /\ skip_in false r = skip_in false k /\
    forall src a, foldl (table_step src) a ps =
      mkTableAcc (ta_name a) (ta_policy a) (ta_fields a ++ fs) (ta_constraints a ++ cs) (ta_errors a).

Lemma read_constraints cs k s :
  run table_item false (skip_in false k) = None -> Forall constraint_ok cs ->
  skip_in false s = skip_in false (constraint_lines cs +:+ k) -> items_read s k [] cs.
Proof.
  intros Hk Hcs. revert s. induction Hcs as [|c cs Hc Hcs IH]; intros s Hs.
  - exists [], s. split; [apply repeats_stop; cbn [skip]; by rewrite Hs|]. split; [done|].
    intros src [? ? ? ? ?]. cbn. by rewrite !app_nil_r.
  - destruct (run_item_constraint c (nl +:+ constraint_lines cs +:+ k) Hc) as (p & Hp & Hv).
    destruct (IH (nl +:+ constraint_lines cs +:+ k)) as (ps & r & Hr & Hsk & Hps); [done|].
    exists ([p] ++ ps), r. split; [|split; [done|]].
    + eapply repeats_more; [|exact Hr]. cbn [skip]. rewrite Hs. cbn [constraint_lines concat_map foldr].
      rewrite !str_app_assoc. change (skip_in false ("    " +:+ ?x)) with (skip_in false x).
      by destruct c.
    + intros src a. rewrite foldl_app. cbn [foldl]. rewrite Hv, Hps. cbn. by rewrite <- app_assoc.
Qed.

(** Consecutive fields whose texts do not run together. *)
Definition apart (f g : FieldDef) : Prop :=
  f_default f = None ->
  (nullable f = true -> clash_null (f_name g) = false) /\ clash_default (f_name g) = false.

Fixpoint fields_apart (fs : list FieldDef) : Prop :=
  match fs with
  | f :: rest => match rest with g :: _ => apart f g | [] => True end /\ fields_apart rest
  | [] => True
  end.

Lemma read_fields fs cs k k' s :
  (forall s', skip_in false s' = skip_in false k -> items_read s' k' [] cs) ->
  (forall f, field_ends f k) ->
  Forall field_ok fs -> fields_apart fs ->
  skip_in false s = skip_in false (field_lines fs +:+ k) -> items_read s k' fs cs.
Proof.
  intros Hrest Hends Hfs. revert s. induction Hfs as [|f fs Hf Hfs IH]; intros s Hapart Hs; [by apply Hrest|].
  destruct Hapart as [Hfg Hapart].
  assert (field_ends f (field_lines fs +:+ k)) as He.
  { destruct fs as [|g fs]; [apply Hends|]. intros Hd. destruct (Hfg Hd) as [Hn Hdf].
    apply Forall_cons in Hfs as [[Hg _] _]. cbn [field_lines concat_map foldr].
    rewrite !str_app_assoc. change (skip_in false ("    " +:+ ?x)) with (skip_in false x).
    rewrite print_field_eq, !str_app_assoc, skip_ident by done.
    split; [intros Hnull; apply name_not_null; auto|by apply name_not_default]. }
  destruct (run_item_field f _ Hf He) as (p & r & Hp & Hr & Hv).
  destruct (IH r Hapart Hr) as (ps & r' & Hrep & Hsk & Hps).
  exists ([p] ++ ps), r'. split; [|split; [done|]].
  - eapply repeats_more; [|exact Hrep]. cbn [skip]. rewrite Hs. cbn [field_lines concat_map foldr].
    rewrite !str_app_assoc. change (skip_in false ("    " +:+ ?x)) with (skip_in false x).
    destruct Hf as [Hname _]. rewrite print_field_eq, !str_app_assoc, skip_ident in * by done. exact Hp.
  - intros src a. rewrite foldl_app. cbn [foldl]. rewrite Hv, Hps. cbn. by rewrite <- app_assoc.
Qed.

(** *** Tables *)

Definition policy_ok (policy : CompactionPolicy) : Prop :=
  match policy with Aggressive threshold => u64_ok threshold | NoCompaction => True end.

Record table_ok (t : TableDef) : Prop := {
  to_name : ident_name (t_name t) = true;
  to_policy : policy_ok (compaction_policy t);
  to_fields : Forall field_ok (fields t);
  to_apart : fields_apart (fields t);
  to_constraints : Forall constraint_ok (constraints t)
}.

Lemma run_compaction policy k :
  policy_ok policy ->
  exists p, run compaction_directive false ("compaction = " +:+ print_compaction policy +:+ nl +:+ k) =
      Some ([p], nl +:+ k) /\
    as_rule p = R_compaction_directive /\ parse_compaction_directive p = policy.
Proof.
  assert (forall alt q, run alt false (print_compaction policy +:+ nl +:+ k) = Some (q, nl +:+ k) ->
    run (Str "compaction" ~> Str "=" ~> alt) false ("compaction = " +:+ print_compaction policy +:+ nl +:+ k) =
      Some (q, nl +:+ k)) as Hdir.
  { intros alt q Hq. eapply (run_seq _ _ _ _ [] (" = " +:+ _)); [reflexivity|]. cbn [skip].
    eapply (run_seq _ _ _ _ [] (" " +:+ _)); [reflexivity|]. by destruct policy. }
  intros Hp. destruct policy as [z|].
  - eexists. split; [|split].
    + apply run_named, Hdir, run_alt_l, run_named. cbn [print_compaction]. rewrite !str_app_assoc.
      eapply (run_seq _ _ _ _ [] ("(" +:+ _)); [reflexivity|].
      change (skip false ("(" +:+ ?x)) with ("(" +:+ x).
      eapply run_seq; [apply run_str|]. cbn [skip].
      assert (skip_in false (print_Z z +:+ ")" +:+ nl +:+ k) = print_Z z +:+ ")" +:+ nl +:+ k) as ->.
      { destruct (print_Z_run z) as (sign & d & Hs & Hr & ->). rewrite str_app_assoc. by apply skip_number. }
      eapply run_seq; [by apply run_integer|]. reflexivity.
    + done.
    + unfold parse_compaction_directive. cbn -[parse_u64]. by rewrite parse_print_u64.
  - eexists. split; [|split]; [apply run_named, Hdir; rewrite run_alt_r by done; by apply run_named|done|done].
Qed.

Lemma skip_table t k :
  skip_in false (nl +:+ print_table t +:+ k) = "table " +:+ t_name t +:+ " {" +:+ nl +:+
    "    compaction = " +:+ print_compaction (compaction_policy t) +:+ nl +:+
    (match fields t with [] => "" | _ => nl end) +:+ field_lines (fields t) +:+
    (match constraints t with [] => "" | _ => nl end) +:+ constraint_lines (constraints t) +:+
    "  }" +:+ nl +:+ k.
Proof. unfold print_table. by rewrite !str_app_assoc. Qed.

Lemma read_items t k :
  table_ok t ->
  items_read (skip_in false (nl +:+ (match fields t with [] => "" | _ => nl end) +:+ field_lines (fields t) +:+
      (match constraints t with [] => "" | _ => nl end) +:+ constraint_lines (constraints t) +:+ "  }" +:+ k))
    ("  }" +:+ k) (fields t) (constraints t).
Proof.
  intros [_ _ Hf Ha Hc].
  set (tl := (match constraints t with [] => "" | _ => nl end) +:+ constraint_lines (constraints t) +:+ "  }" +:+ k).
  apply (read_fields _ _ tl); [| |done|done|].
  - intros s' Hs. apply read_constraints; [done|done|]. rewrite Hs. unfold tl. by destruct (constraints t).
  - intros f _. unfold tl. destruct (constraints t) as [|[cols|cols|col] cs]; [split; reflexivity|split; reflexivity..|].
    by apply Forall_cons in Hc as [Hc _].
  - rewrite skip_skip. by destruct (fields t).
Qed.

Lemma run_table t k :
  table_ok t ->
  exists p, run table_def false (skip_in false (nl +:+ print_table t +:+ k)) = Some ([p], nl +:+ k) /\
    as_rule p = R_table_def /\ forall src, parse_table_def src p = Ok t.
Proof.
  intros Hok. rewrite skip_table.
  destruct (run_compaction (compaction_policy t)
    ((match fields t with [] => "" | _ => nl end) +:+ field_lines (fields t) +:+
     (match constraints t with [] => "" | _ => nl end) +:+ constraint_lines (constraints t) +:+
     "  }" +:+ nl +:+ k) (to_policy t Hok)) as (pc & Hpc & Hrc & Hvc).
  destruct (read_items t (nl +:+ k) Hok) as (ps & r & Hrep & Hr & Hv).
  eexists. split; [|split].
  - apply run_named. eapply (run_seq _ _ _ _ [] (" " +:+ _)); [reflexivity|]. cbn [skip].
    change (skip_in false (" " +:+ ?x)) with (skip_in false x). rewrite skip_ident by apply Hok.
    eapply run_seq; [apply run_ident; [apply Hok|done]|]. cbn [skip].
    eapply (run_seq _ _ _ _ [] (nl +:+ _)); [reflexivity|]. cbn [skip].
    eapply run_seq; [exact Hpc|]. cbn [skip].
    eapply run_seq; [apply run_star; [done|apply skip_skip|exact Hrep]|]. cbn [skip]. rewrite Hr.
    reflexivity.
  - done.
  - intros src. unfold parse_table_def. cbn [into_inner app foldl].
    change (table_step src ?a (mkPair R_ident ?n ?x [])) with
      (mkTableAcc x (ta_policy a) (ta_fields a) (ta_constraints a) (ta_errors a)).
    assert (forall a, table_step src a pc =
      mkTableAcc (ta_name a) (compaction_policy t) (ta_fields a) (ta_constraints a) (ta_errors a)) as Hpcs.
    { intros a. unfold table_step. by rewrite Hrc, Hvc. }
    rewrite Hpcs, app_nil_r, Hv. cbn. by destruct t.
Qed.

(** ** Theorems *)

Record printable (s : Schema) : Prop := {
  pr_version : quotable (version s) = true;
  pr_tables : Forall table_ok (tables s)
}.

Lemma read_tables ts k s :
  Forall table_ok ts -> run table_def false (skip_in false k) = None ->
  skip_in false s = skip_in false (concat_map (fun t => nl +:+ print_table t) ts +:+ k) ->
  exists ps r, repeats (run table_def false) false s ps r /\ skip_in false r = skip_in false k /\
    forall src a, foldl (schema_step src) a ps =
      mkSchemaAcc (sa_version a) (sa_tables a ++ ts) (sa_errors a).
Proof.
  intros Hts Hk. revert s. induction Hts as [|t ts Ht Hts IH]; intros s Hs.
  - exists [], s. split; [apply repeats_stop; cbn [skip]; by rewrite Hs|]. split; [done|].
    intros src [? ? ?]. cbn. by rewrite app_nil_r.
  - destruct (run_table t (concat_map (fun t => nl +:+ print_table t) ts +:+ k) Ht) as (p & Hp & Hr & Hv).
    destruct (IH (nl +:+ concat_map (fun t => nl +:+ print_table t) ts +:+ k) eq_refl) as (ps & r & Hrep & Hsk & Hps).
    exists ([p] ++ ps), r. split; [|split; [done|]].
    + eapply repeats_more; [|exact Hrep]. cbn [skip]. rewrite Hs. cbn [concat_map foldr].
      by rewrite !str_app_assoc.
    + intros src a. rewrite foldl_app. cbn [foldl]. unfold schema_step at 2. rewrite Hr, Hv, Hps. cbn.
      by rewrite <- app_assoc.
Qed.

Lemma parse_print_spec (s : Schema) : printable s -> parse (print s) = Ok s.
Proof.
  intros [Hv Hts]. set (rest := concat_map (fun t => nl +:+ print_table t) (tables s) +:+ "}" +:+ nl).
  destruct (read_tables (tables s) ("}" +:+ nl) (skip_in false (nl +:+ rest))) as (ps & r & Hrep & Hr & Hps);
    [done|reflexivity|by rewrite skip_skip|].
  assert (exists p, run version_directive false
      ("version = " +:+ String quote (version s) +:+ String quote "" +:+ nl +:+ rest) = Some ([p], nl +:+ rest) /\
    as_rule p = R_version_directive /\ parse_version_directive p = version s) as (pv & Hpv & Hrv & Hvv).
  { eexists. split; [|split].
    - apply run_named. eapply (run_seq _ _ _ _ [] (" = " +:+ _)); [reflexivity|].
      eapply (run_seq _ _ _ _ [] (" " +:+ _)); [reflexivity|]. cbn [skip].
      pose proof (run_string (version s) (nl +:+ rest) Hv) as Hstr. cbn zeta in Hstr.
      rewrite str_app_assoc in Hstr. exact Hstr.
    - done.
    - unfold parse_version_directive, find_rule. cbn [into_inner app].
      rewrite filter_cons_True by done. cbn [head as_str]. apply unquote_quoted. }
  assert (exists p, run schema_rule false (print s) = Some ([p], "") /\ as_rule p = R_schema /\
    into_inner p = pv :: ps) as (p & Hp & Hrp & Hin).
  { eexists. split; [|split].
    - apply run_named. change (print s) with ("schema {" +:+ nl +:+ "  version = " +:+
        String quote (version s) +:+ String quote "" +:+ nl +:+ rest).
      eapply (run_seq _ _ _ _ [] _); [reflexivity|]. cbn [skip].
      eapply (run_seq _ _ _ _ [] (" {" +:+ _)); [reflexivity|]. cbn [skip].
      eapply (run_seq _ _ _ _ [] (nl +:+ _)); [reflexivity|]. cbn [skip].
      eapply run_seq; [exact Hpv|]. cbn [skip].
      eapply run_seq; [apply run_star; [done|apply skip_skip|exact Hrep]|]. cbn [skip]. rewrite Hr.
      reflexivity.
    - done.
    - cbn [into_inner app]. by rewrite app_nil_r. }
  unfold parse. rewrite Hp. cbn [foldl]. rewrite decide_True by done. rewrite Hin. cbn [foldl].
  assert (schema_step (print s) (mkSchemaAcc "" [] []) pv = mkSchemaAcc (version s) [] []) as ->.
  { unfold schema_step. by rewrite Hrv, Hvv. }
  rewrite Hps. cbn. by destruct s.
Qed.

(** C16: printing a printable schema loses nothing: the parser reads the document the printer writes
    for it back as that schema.  Printable is less than what the parser can answer
    ([expressible_not_reprinted]).  The names have to be identifiers, the version and the
    textual defaults free of double quotes, the numbers in range, the column lists not empty,
    no constraint a [NotNull] (it is printed as a comment), and no field that may be followed
    by a modifier is followed, constraints left out, by one whose name begins like that
    modifier; of a real default the theorem needs that [Display] wrote a decimal lexeme that
    [FromStr] reads back, which excludes a literal so long that it is read as infinity. *)
Theorem parse_print (s : Schema) : printable s -> parse (print s) = Ok s.
Proof. exact (parse_print_spec s). Qed.

(** The interpreter answers as pest's documented meaning of the grammar has it: the number of
    rounds the repetitions are given, the length of the text, is never what stops them. *)
Lemma parser_total (source : string) :
  peg schema_rule false source (run schema_rule false source) /\
  forall o, peg schema_rule false source o -> o = run schema_rule false source.
Proof.
  split; [by apply run_peg|]. intros o Ho. symmetry. by apply peg_run.
Qed.
End Text.

(** ** Witness and boundary cases *)

Definition no_real (s : string) : spec_float := S754_zero false.
Definition no_real_text (f : spec_float) : string := "0".
Definition no_position (s : string) : Z * Z * string := (1, 1, "expected schema").

Definition sample : Schema :=
  mkSchema
    [mkTable "users"
       [mkField "id" Text false None; mkField "age" Integer true (Some (DInteger (-42)));
        mkField "score" Real false (Some (DReal (S754_zero false)));
        mkField "NOTE" Text true (Some (DText "a // b")); mkField "UNIQUE" Boolean true None;
        mkField "PRIMARY" Blob true (Some DNull)]
       (Aggressive 18446744073709551615) [PrimaryKey ["id"; "age"]; Unique ["NOTE"]];
     mkTable "_log" [] NoCompaction []] "1.0.0".

Lemma parse_print_witness :
  printable no_real no_real_text sample /\
  parse no_real no_position (print no_real_text sample) = Ok sample.
Proof.
  assert (printable no_real no_real_text sample) as Hs.
  { split; [reflexivity|]. repeat constructor; try done; try (intros ?; split; done).
    exists "", "0", "0". by repeat split; try left. }
  split; [exact Hs|]. apply (parse_print no_real no_real_text no_position). exact Hs.
Defined.

(** A nullable field in front of one whose name starts with a modifier: the second name is
    cut and the first field changes. *)
Example modifier_name_misread :
  parse no_real no_position (print no_real_text
    (mkSchema [mkTable "t" [mkField "a" Text true None; mkField "NOTNULLABLE" Text true None] NoCompaction []] "1"))
  = Ok (mkSchema [mkTable "t" [mkField "a" Text false None; mkField "ABLE" Text true None] NoCompaction []] "1").
Proof. reflexivity. Qed.

(** The parser can answer such a schema itself: in the source a constraint stands between the
    two fields, and the printer writes the constraints after them. *)
Example expressible_not_reprinted :
  let source := "schema { version = " +:+ String quote "1" +:+ String quote
    " table t { compaction = none a TEXT UNIQUE (a) NOTNULLABLE TEXT } }" in
  let s := mkSchema [mkTable "t" [mkField "a" Text true None; mkField "NOTNULLABLE" Text true None] NoCompaction
    [Unique ["a"]]] "1" in
  parse no_real no_position source = Ok s /\
  parse no_real no_position (print no_real_text s) <> Ok s.
Proof. split; [reflexivity|]. vm_compute. congruence. Qed.

(** A [NotNull] constraint is printed as a comment and lost. *)
Example not_null_lost :
  parse no_real no_position (print no_real_text
    (mkSchema [mkTable "t" [mkField "a" Text true None] NoCompaction [NotNull "a"]] "1"))
  = Ok (mkSchema [mkTable "t" [mkField "a" Text true None] NoCompaction []] "1").
Proof. reflexivity. Qed.

(** An integer default out of range becomes zero, a threshold out of range turns the
    compaction off; neither is an error. *)
Example overflow_silent :
  parse no_real no_position
    ("schema { version = " +:+ String quote "1" +:+ String quote " table t { compaction = aggressive(18446744073709551616) n INTEGER DEFAULT 9223372036854775808 } }")
  = Ok (mkSchema [mkTable "t" [mkField "n" Integer true (Some (DInteger 0))] NoCompaction []] "1").
Proof. reflexivity. Qed.
End SchemaText.
