(* ===== verification/Automerge.v ===== *)
(** * Automerge

    The [automerge] crate is third-party code: the class [Automerge] holds the
    operations the engine calls on an [AutoCommit] document and on element ids,
    [AutomergeLaws] the documented behaviour the theorems rely on.  A document
    operation that takes [&mut self] returns the new document, also when it
    fails.

    Two small documents at the end show that the laws can hold and serve the
    concrete examples: a map of last-writer-wins registers and a document of one
    list. *)

From Stdlib Require Import SpecFloat.
From S2P Require Import Prelude Types.

Inductive ScalarValue :=
| SBytes (b : bytes)
| SStr (s : string)
| SInt (z : Z)
| SUint (z : Z)
| SF64 (f : spec_float)
| SCounter (z : Z)
| STimestamp (z : Z)
| SBoolean (b : bool)
| SUnknown (type_code : Z) (b : bytes)
| SNull.

#[export] Instance spec_float_eq_dec : EqDecision spec_float.
Proof. solve_decision. Defined.

#[export] Instance ScalarValue_eq_dec : EqDecision ScalarValue.
Proof. solve_decision. Defined.

#[export] Instance spec_float_countable : Countable spec_float.
Proof.
  apply (inj_countable' (fun f => match f with
      | S754_zero s => inl (inl s) | S754_infinity s => inl (inr s)
      | S754_nan => inr (inl tt) | S754_finite s m e => inr (inr (s, m, e)) end)
    (fun x => match x with
      | inl (inl s) => S754_zero s | inl (inr s) => S754_infinity s
      | inr (inl _) => S754_nan | inr (inr (s, m, e)) => S754_finite s m e end)).
  by intros [].
Defined.

#[export] Instance ScalarValue_countable : Countable ScalarValue.
Proof.
  apply (inj_countable' (fun v => match v with
      | SBytes b => inl (inl (inl b)) | SStr s => inl (inl (inr s))
      | SInt z => inl (inr (inl z)) | SUint z => inl (inr (inr z))
      | SF64 f => inr (inl (inl f)) | SCounter z => inr (inl (inr (inl z)))
      | STimestamp z => inr (inl (inr (inr z))) | SBoolean b => inr (inr (inl b))
      | SUnknown t b => inr (inr (inr (inl (t, b)))) | SNull => inr (inr (inr (inr tt))) end)
    (fun x => match x with
      | inl (inl (inl b)) => SBytes b | inl (inl (inr s)) => SStr s
      | inl (inr (inl z)) => SInt z | inl (inr (inr z)) => SUint z
      | inr (inl (inl f)) => SF64 f | inr (inl (inr (inl z))) => SCounter z
      | inr (inl (inr (inr z))) => STimestamp z | inr (inr (inl b)) => SBoolean b
      | inr (inr (inr (inl (t, b)))) => SUnknown t b | inr (inr (inr (inr _))) => SNull end)).
  by intros [].
Defined.

Inductive ObjType := OMap | OTable | OList | OText.

Inductive Value :=
| VScalar (v : ScalarValue)
| VObject (t : ObjType).

(** An operation of a decoded change: its [insert] flag, its [primitive_value] and
    the operation id its key refers to, when it has one. *)
Record Op := mkOp {
  op_insert : bool;
  op_primitive_value : option ScalarValue;
  op_element : option (Z * bytes)
}.

Record ExpandedChange := mkChange {
  start_op : Z;
  change_actor : bytes;
  operations : list Op
}.

Class Automerge := {
  Doc : Type;
  ObjId : Type;
  ObjId_eq_dec :: EqDecision ObjId;
  am_new : bytes -> Doc;                              (* new().with_actor(..) *)
  am_load : bytes -> option Doc;
  am_save : Doc -> Doc * bytes;
  am_merge : Doc -> Doc -> Doc * option string;
  am_actor : Doc -> bytes;
  am_root : Doc -> list (string * ObjId * Value);     (* map_range(ROOT, ..) *)
  am_get : Doc -> string -> option (Value * ObjId);   (* get(ROOT, key).ok().flatten() *)
  am_list : Doc -> ObjId -> list ObjId;               (* list_range(obj, ..) *)
  am_get_changes : Doc -> Doc * list ExpandedChange;  (* get_changes(&[]), decoded *)
  am_put : Doc -> string -> ScalarValue -> Doc * option string;  (* put(ROOT, ..) *)
  am_delete : Doc -> ObjId -> nat -> Doc * option string;
  am_insert : Doc -> ObjId -> nat -> ScalarValue -> Doc * option string;
  exid_to_bytes : ObjId -> bytes
}.

(** What the theorems use of the documentation: the ROOT map has one entry per key,
    which [get] reads; a put that succeeds is read back and, succeed or not, leaves
    the other keys alone; editing a list leaves the ROOT map alone; saving changes
    nothing that is read. *)
Class AutomergeLaws `{!Automerge} := {
  am_root_get : forall d k id v, (k, id, v) ∈ am_root d <-> am_get d k = Some (v, id);
  am_put_get : forall d d' k v, am_put d k v = (d', None) ->
    exists id, am_get d' k = Some (VScalar v, id);
  am_put_other : forall d k v k', k' <> k -> am_get (am_put d k v).1 k' = am_get d k';
  am_save_get : forall d k, am_get (am_save d).1 k = am_get d k;
  am_delete_root : forall d o i k, am_get (am_delete d o i).1 k = am_get d k;
  am_insert_root : forall d o i v k, am_get (am_insert d o i v).1 k = am_get d k
}.

(** A saved document loads, and reads the same. *)
Class AutomergeSaved `{!Automerge} : Prop :=
  am_load_save : forall d, exists d', am_load (am_save d).2 = Some d' /\ forall k, am_get d' k = am_get d k.

(** ** A map of registers

    A document is its actor and its operations, each a counter, an actor, a key and
    a value; a key reads the operation with the greatest counter, ties broken by the
    actor.  Counters, actors and integers of one byte and keys of one character are
    saved in four bytes. *)
Module Registers.

Record reg := mkReg { r_ctr : N; r_actor : N; r_key : string; r_val : ScalarValue }.

#[export] Instance reg_eq_dec : EqDecision reg.
Proof. solve_decision. Defined.

Record doc := mkDoc { actor : N; ops : list reg }.

Definition newer (a b : reg) : bool :=
  ((r_ctr b <? r_ctr a) || ((r_ctr b =? r_ctr a) && (r_actor b <=? r_actor a)))%N.

Definition better (o : option reg) (r : reg) : option reg :=
  match o with
  | None => Some r
  | Some r' => if newer r r' then Some r else Some r'
  end.

Definition winner (d : doc) (k : string) : option reg :=
  foldl better None (filter (fun r => r_key r = k) (ops d)).

Definition max_ctr (l : list reg) : N := foldr (fun r m => N.max (r_ctr r) m) 0%N l.

Definition next_ctr (d : doc) : N := N.succ (max_ctr (ops d)).

Definition put (d : doc) (k : string) (v : ScalarValue) : doc :=
  mkDoc (actor d) (ops d ++ [mkReg (next_ctr d) (actor d) k v]).

Definition keys (d : doc) : list string := remove_dups (map r_key (ops d)).

Definition merge (d e : doc) : doc :=
  mkDoc (actor d) (ops d ++ filter (fun r => r ∉ ops d) (ops e)).

(** The first byte is the first of Automerge's magic bytes. *)
Definition save (d : doc) : bytes := 133%N :: pack (map (fun r => (r_ctr r, r_actor r, r_key r, r_val r)) (ops d)).

Definition load (b : bytes) : option (list reg) :=
  match b with
  | 133%N :: b => map (fun '(c, a, k, v) => mkReg c a k v) <$> (unpack b : option (list (N * N * string * ScalarValue)))
  | _ => None
  end.

Definition read (d : doc) (k : string) : option (Value * (N * N)) :=
  (fun r => (VScalar (r_val r), (r_ctr r, r_actor r))) <$> winner d k.

Definition registers : Automerge := {|
  Doc := doc;
  ObjId := N * N;
  am_new a := mkDoc (hd 0%N a) [];
  am_load b := mkDoc 0 <$> load b;
  am_save d := (d, save d);
  am_merge d e := (merge d e, None);
  am_actor d := [actor d];
  am_root d := omap (fun k => (fun '(v, id) => (k, id, v)) <$> read d k) (keys d);
  am_get := read;
  am_list _ _ := [];
  am_get_changes d := (d, []);
  am_put d k v := (put d k v, None);
  am_delete d _ _ := (d, Some "not a list");
  am_insert d _ _ _ := (d, Some "not a list");
  exid_to_bytes _ := []
|}.

Lemma foldl_better_key k l o r :
  foldl better o (filter (fun x => r_key x = k) l) = Some r ->
  (exists x, x ∈ l /\ r_key x = k) \/ o = Some r.
Proof.
  revert o. induction l as [|x l IH]; intros o; [by right|].
  rewrite filter_cons. case_decide as Hk; cbn [foldl].
  - intros _. left. exists x. split; [left|done].
  - intros H. destruct (IH _ H) as [(y & Hy & ?)|?]; [|by right]. left. exists y. split; [by right|done].
Qed.

Lemma foldl_better_some l : forall r, exists r', foldl better (Some r) l = Some r' /\
  (r_ctr r' <= N.max (r_ctr r) (max_ctr l))%N.
Proof.
  induction l as [|x l IH]; intros r; cbn [foldl max_ctr foldr]; [exists r; split; [done|lia]|].
  fold (max_ctr l). cbn [better]. destruct (newer x r).
  - destruct (IH x) as (r' & -> & Hle). exists r'. split; [done|lia].
  - destruct (IH r) as (r' & -> & Hle). exists r'. split; [done|lia].
Qed.

Lemma foldl_better_ctr l r : foldl better None l = Some r -> (r_ctr r <= max_ctr l)%N.
Proof.
  destruct l as [|x l]; [done|]. cbn [foldl better max_ctr foldr]. fold (max_ctr l).
  destruct (foldl_better_some l x) as (r' & -> & Hle). intros [= ->]. lia.
Qed.

Lemma filter_ctr_le (P : reg -> Prop) `{!forall r, Decision (P r)} l :
  (max_ctr (filter P l) <= max_ctr l)%N.
Proof.
  induction l as [|x l IH]; [done|]. rewrite filter_cons.
  destruct (decide (P x)); cbn [max_ctr foldr]; fold (max_ctr l) (max_ctr (filter P l)); lia.
Qed.

(** A new operation has a greater counter than all, so it is the one read back. *)
Lemma put_winner d k v : winner (put d k v) k = Some (mkReg (next_ctr d) (actor d) k v).
Proof.
  unfold winner, put. cbn [ops]. rewrite filter_app, filter_cons_True by done. rewrite filter_nil.
  rewrite foldl_app. cbn [foldl].
  destruct (foldl better None (filter (fun r => r_key r = k) (ops d))) as [r|] eqn:Hw; [|done].
  cbn [better]. apply foldl_better_ctr in Hw.
  pose proof (filter_ctr_le (fun r => r_key r = k) (ops d)) as Hf.
  unfold newer. cbn [r_ctr]. assert (r_ctr r <? next_ctr d = true)%N as ->; [|done].
  apply N.ltb_lt. unfold next_ctr. lia.
Qed.

Lemma registers_laws : @AutomergeLaws registers.
Proof.
  split; cbn -[winner].
  - intros d k id v. rewrite list_elem_of_omap. split.
    + intros (k' & _ & Hr). destruct (read d k') as [[v' id']|] eqn:He; [|done].
      cbn in Hr. by injection Hr as <- <- <-.
    + intros Hr. exists k. rewrite Hr. split; [|done]. unfold keys. rewrite elem_of_remove_dups.
      unfold read in Hr. destruct (winner d k) as [r|] eqn:Hw; [|done].
      unfold winner in Hw. apply foldl_better_key in Hw as [(x & Hx & <-)|?]; [|done].
      by apply list_elem_of_fmap_2.
  - intros d d' k v [= <-].
    eexists. unfold read. rewrite put_winner. done.
  - intros d k v k' Hne. unfold read, winner, put. cbn [fst ops].
    rewrite filter_app, filter_cons_False by (cbn; congruence). by rewrite filter_nil, app_nil_r.
  - done.
  - done.
  - done.
Qed.

(** Loading what was saved reads the same. *)
Lemma registers_saved : @AutomergeSaved registers.
Proof.
  intros d. exists (mkDoc 0 (ops d)). cbn. split; [|done]. unfold load, save. rewrite unpack_pack. cbn. do 2 f_equal.
  rewrite map_map. induction (ops d) as [|[] l IH]; cbn; congruence.
Qed.

End Registers.

(** ** A document of one list

    The elements are integers with their counters; actor 1 made every change.  The
    history inserts each element after the one before it. *)
Module OneList.

Record doc := mkDoc { elems : list (N * Z) }.

Definition elem_id (e : N * Z) : N * N := (e.1, 1%N).

Definition next_ctr (d : doc) : N := N.succ (foldr (fun e m => N.max e.1 m) 0%N (elems d)).

Fixpoint history (pred : option (Z * bytes)) (l : list (N * Z)) : list ExpandedChange :=
  match l with
  | [] => []
  | e :: l' =>
      mkChange (Z.of_N e.1) [1%N] [mkOp true (Some (SInt e.2)) pred] ::
      history (Some (Z.of_N e.1, [1%N])) l'
  end.

Fixpoint load (b : bytes) : option (list (N * Z)) :=
  match b with
  | [] => Some []
  | c :: v :: b' => cons (c, Z.of_N v) <$> load b'
  | _ => None
  end.

Definition one_list : Automerge := {|
  Doc := doc;
  ObjId := N * N;
  am_new _ := mkDoc [];
  am_load b := mkDoc <$> load b;
  am_save d := (d, concat (map (fun e => [e.1; Z.to_N e.2]) (elems d)));
  am_merge d e := (mkDoc (elems d ++ filter (fun x => x ∉ elems d) (elems e)), None);
  am_actor _ := [1%N];
  am_root _ := [("l", (0, 0)%N, VObject OList)];
  am_get _ k := if decide (k = "l") then Some (VObject OList, (0, 0)%N) else None;
  am_list d _ := map elem_id (elems d);
  am_get_changes d := (d, history None (elems d));
  am_put d _ _ := (d, Some "read-only");
  am_delete d _ i :=
    if decide (i < length (elems d))%nat then (mkDoc (delete i (elems d)), None)
    else (d, Some "out of bounds");
  am_insert d _ i v :=
    match v with
    | SInt z => (mkDoc (take i (elems d) ++ (next_ctr d, z) :: drop i (elems d)), None)
    | _ => (d, Some "not an integer")
    end;
  exid_to_bytes id := [16; 1; id.2; 0; id.1]%N
|}.

Lemma one_list_laws : @AutomergeLaws one_list.
Proof.
  split; cbn; try done.
  intros d k id v. rewrite list_elem_of_singleton. case_decide; [subst|]; split; try done; try congruence.
Qed.

End OneList.
