(* ===== verification/Verify.v ===== *)
(** * Post-merge verification: [crdt/verify.rs] and the two orders of [crdt/mod.rs]

    Before the merge of a peer's document the engine records the keys and list
    positions both documents hold; after it, it compares what the merge kept with
    what the Lamport rule says and overrides the document when the incoming Delta's
    clock is strictly ahead ([capture_conflicts], [verify_and_override]).

    The decisions that only feed a log line (the predictions) are not in the
    report of the code and are left out. *)

From S2P Require Import Prelude Types Schema Automerge.

Module Verify.

(** ** The Lamport rule *)

(** [Ord] of byte slices *)
Fixpoint bytes_gt (a b : bytes) : bool :=
  match a, b with
  | _ :: _, [] => true
  | x :: a', y :: b' => ((y <? x) || ((x =? y) && bytes_gt a' b'))%N
  | [], _ => false
  end.

Definition lww_incoming_wins (incoming_lamport : Z) (incoming_actor : bytes)
    (current_lamport : Z) (current_actor : bytes) : bool :=
  match incoming_lamport ?= current_lamport with
  | Gt => true
  | Lt => false
  | Eq => bytes_gt incoming_actor current_actor
  end.

Definition rga_incoming_has_priority := lww_incoming_wins.

(** [crdt/merge.rs] *)
Definition merge_lww := lww_incoming_wins.
Definition merge_rga := rga_incoming_has_priority.

(** ** Element ids *)

(** [leb128_u64(b, &mut pos)]: the value and the new position.  The shift reaches 64
    after ten bytes, so ten turns are all there are. *)
Fixpoint leb128_loop (fuel : nat) (b : bytes) (pos : nat) (result : Z) (shift : Z) : option (Z * nat) :=
  match fuel with
  | O => None
  | S fuel' =>
      byte ← b !! pos;
      let pos := S pos in
      let result := Z.lor result (wrap_u64 (Z.shiftl (Z.land (Z.of_N byte) 0x7f) shift)) in
      if Z.land (Z.of_N byte) 0x80 =? 0 then Some (result, pos)
      else
        let shift := shift + 7 in
        if shift >=? 64 then None else leb128_loop fuel' b pos result shift
  end.

Definition leb128_u64 (b : bytes) (pos : nat) : option (Z * nat) := leb128_loop 10 b pos 0 0.

(** [b.get(lo..hi)] *)
Definition get_range (b : bytes) (lo hi : nat) : option bytes :=
  if decide ((lo <= hi)%nat /\ (hi <= length b)%nat) then Some (take (hi - lo) (drop lo b)) else None.

(** [exid_parts], on the bytes of the id; the addition to [pos] is that of a 64-bit
    [usize]. *)
Definition exid_parts_bytes (b : bytes) : option (Z * bytes) :=
  match b with
  | b0 :: _ :: _ =>
      if negb (N.land b0 15 =? 0)%N then None
      else if (N.shiftr b0 4 =? 0)%N then None
      else
        '(actor_len, pos) ← leb128_u64 b 1;
        let stop := Z.to_nat (wrap_u64 (Z.of_nat pos + actor_len)) in
        actor ← get_range b pos stop;
        '(_, pos) ← leb128_u64 b stop;
        '(counter, _) ← leb128_u64 b pos;
        Some (counter, actor)
  | _ => None
  end.

Section Verify.
Context `{!Automerge}.

Definition exid_parts (exid : ObjId) : option (Z * bytes) := exid_parts_bytes (exid_to_bytes exid).

(** ** Conflicts *)

Record LwwConflict := mkLww {
  key : string;
  incoming_exid : ObjId;
  incoming_value : ScalarValue;
  local_exid : ObjId;
  local_value : ScalarValue
}.

Record RgaConflict := mkRga {
  local_element : Z * bytes;
  incoming_element : Z * bytes;
  rga_local_value : ScalarValue;
  rga_incoming_value : ScalarValue
}.

Record ConflictSnapshot := mkSnapshot {
  lww : list LwwConflict;
  rga : list RgaConflict
}.

Definition root_scalars (doc : Doc) : gmap string (ObjId * ScalarValue) :=
  foldl (fun m item =>
    match item with
    | (k, id, VScalar v) => <[k := (id, v)]> m
    | (_, _, VObject _) => m
    end) ∅ (am_root doc).

(** The turn of the [filter_map] for one incoming key. *)
Definition lww_conflict (local_map : gmap string (ObjId * ScalarValue))
    (e : string * (ObjId * ScalarValue)) : option LwwConflict :=
  let '(key, (incoming_exid, incoming_value)) := e in
  '(local_exid, local_value) ← local_map !! key;
  if decide (local_exid = incoming_exid) then None
  else Some (mkLww key incoming_exid incoming_value local_exid local_value).

(** The keys of a hash map are distinct, so sorting by key leaves nothing of its
    iteration order. *)
Definition capture_lww (local incoming : Doc) : list LwwConflict :=
  sort_by_name key (omap (lww_conflict (root_scalars local)) (map_to_list (root_scalars incoming))).

Abbreviation InsertOp := (option (Z * bytes) * (Z * bytes) * ScalarValue)%type.

(** The operations of one change, from the index [i] on. *)
Fixpoint change_inserts (start_op : Z) (actor : bytes) (i : nat) (ops : list Op) : list InsertOp :=
  match ops with
  | [] => []
  | op :: ops' =>
      let rest := change_inserts start_op actor (S i) ops' in
      if negb (op_insert op) then rest
      else
        match op_primitive_value op with
        | None => rest
        | Some value => (op_element op, (wrap_u64 (start_op + Z.of_nat i), actor), value) :: rest
        end
  end.

Definition list_inserts (doc : Doc) : list InsertOp :=
  (am_get_changes doc).2 ≫= fun c => change_inserts (start_op c) (change_actor c) 0 (operations c).

Definition capture_rga (local incoming : Doc) : list RgaConflict :=
  list_inserts local ≫= fun '(loc_pred, loc_elem, loc_val) =>
    list_inserts incoming ≫= fun '(inc_pred, inc_elem, inc_val) =>
      if decide (loc_pred = inc_pred) then [mkRga loc_elem inc_elem loc_val inc_val] else [].

Definition capture_conflicts (local incoming : Doc) : ConflictSnapshot :=
  mkSnapshot (capture_lww local incoming) (capture_rga local incoming).

(** ** Read-back and override *)

Record VerificationReport := mkReport {
  lww_checked : nat;
  rga_checked : nat;
  divergences : nat;
  overrides_applied : nat;
  overrides_failed : nat;
  indeterminate : nat
}.

Definition empty_report : VerificationReport := mkReport 0 0 0 0 0 0.

Definition add_lww (r : VerificationReport) := mkReport (S (lww_checked r)) (rga_checked r)
  (divergences r) (overrides_applied r) (overrides_failed r) (indeterminate r).
Definition add_rga (r : VerificationReport) := mkReport (lww_checked r) (S (rga_checked r))
  (divergences r) (overrides_applied r) (overrides_failed r) (indeterminate r).
Definition add_indeterminate (r : VerificationReport) := mkReport (lww_checked r) (rga_checked r)
  (divergences r) (overrides_applied r) (overrides_failed r) (S (indeterminate r)).
(** A divergence and the outcome of its override. *)
Definition add_override (r : VerificationReport) (e : option string) :=
  match e with
  | None => mkReport (lww_checked r) (rga_checked r) (S (divergences r))
      (S (overrides_applied r)) (overrides_failed r) (indeterminate r)
  | Some _ => mkReport (lww_checked r) (rga_checked r) (S (divergences r))
      (overrides_applied r) (S (overrides_failed r)) (indeterminate r)
  end.

Definition current_exid (doc : Doc) (key : string) : option ObjId := snd <$> am_get doc key.

Definition lww_turn (definitive : bool) (acc : Doc * VerificationReport) (c : LwwConflict)
  : Doc * VerificationReport :=
  let '(doc, report) := acc in
  match current_exid doc (key c) with
  | None => acc
  | Some actual =>
      let report := add_lww report in
      if negb definitive then (doc, add_indeterminate report)
      else if decide (actual = incoming_exid c) then (doc, report)
      else if decide (actual = local_exid c) then
        let '(doc, e) := am_put doc (key c) (incoming_value c) in (doc, add_override report e)
      else (doc, add_indeterminate report)
  end.

(** The index of each element of each ROOT list. *)
Definition list_index (ids : list ObjId) : gmap (Z * bytes) nat :=
  foldl (fun m (e : nat * ObjId) =>
    match exid_parts e.2 with Some parts => <[parts := e.1]> m | None => m end)
    ∅ (imap pair ids).

Definition index_maps (doc : Doc) : list (ObjId * gmap (Z * bytes) nat) :=
  omap (fun item =>
    match item with
    | (_, item_id, VObject OList) => Some (item_id, list_index (am_list doc item_id))
    | _ => None
    end) (am_root doc).

(** The first list that holds both elements. *)
Fixpoint find_lists (maps : list (ObjId * gmap (Z * bytes) nat)) (c : RgaConflict)
  : option (ObjId * nat * nat) :=
  match maps with
  | [] => None
  | (obj, m) :: maps' =>
      match m !! local_element c, m !! incoming_element c with
      | Some idx_local, Some idx_incoming => Some (obj, idx_local, idx_incoming)
      | _, _ => find_lists maps' c
      end
  end.

(** The closure of the override: four edits, the first failure ends it. *)
Definition reorder (doc : Doc) (obj : ObjId) (lo hi : nat) (incoming local : ScalarValue)
  : Doc * option string :=
  let '(doc, e) := am_delete doc obj hi in
  if e is Some _ then (doc, e) else
  let '(doc, e) := am_delete doc obj lo in
  if e is Some _ then (doc, e) else
  let '(doc, e) := am_insert doc obj lo incoming in
  if e is Some _ then (doc, e) else
  am_insert doc obj (S lo) local.

Definition rga_turn (definitive : bool) (maps : list (ObjId * gmap (Z * bytes) nat))
    (acc : Doc * VerificationReport) (c : RgaConflict) : Doc * VerificationReport :=
  let '(doc, report) := acc in
  match find_lists maps c with
  | None => acc
  | Some (obj, idx_local, idx_incoming) =>
      let report := add_rga report in
      if negb definitive then (doc, add_indeterminate report)
      else if (idx_incoming <? idx_local)%nat then (doc, report)
      else
        let '(doc, e) := reorder doc obj (idx_local `min` idx_incoming) (idx_local `max` idx_incoming)
          (rga_incoming_value c) (rga_local_value c) in
        (doc, add_override report e)
  end.

Definition verify_and_override (doc : Doc) (snapshot : ConflictSnapshot)
    (delta_lamport local_lamport : Z) : Doc * VerificationReport :=
  let definitive := delta_lamport >? local_lamport in
  let '(doc, report) := foldl (lww_turn definitive) (doc, empty_report) (lww snapshot) in
  let maps := index_maps doc in
  foldl (rga_turn definitive maps) (doc, report) (rga snapshot).
End Verify.

(** ** The Lamport rule is a strict total order on clock and actor *)

Lemma bytes_gt_irrefl a : bytes_gt a a = false.
Proof. induction a as [|x a IH]; cbn; [done|]. by rewrite N.ltb_irrefl, N.eqb_refl, IH. Qed.

Lemma bytes_gt_cons x a y b :
  bytes_gt (x :: a) (y :: b) = true <-> (y < x)%N \/ x = y /\ bytes_gt a b = true.
Proof. cbn [bytes_gt]. rewrite orb_true_iff, andb_true_iff, N.ltb_lt, N.eqb_eq. done. Qed.

Lemma bytes_gt_trans a b c : bytes_gt a b = true -> bytes_gt b c = true -> bytes_gt a c = true.
Proof.
  revert b c. induction a as [|x a IH]; intros [|y b] [|z c]; try done.
  rewrite !bytes_gt_cons. intros [?|[-> Hab]] [?|[-> Hbc]]; [left; lia|by left|by left|].
  right. split; [done|]. by eapply IH.
Qed.

Lemma bytes_gt_total a b : a <> b -> bytes_gt a b = true \/ bytes_gt b a = true.
Proof.
  revert b. induction a as [|x a IH]; intros [|y b] Hne; [done|by right|by left|].
  rewrite !bytes_gt_cons. destruct (N.lt_trichotomy x y) as [?|[->|?]]; [by right; left| |by left; left].
  destruct (IH b) as [?|?]; [congruence| |]; [left|right]; by right.
Qed.

Lemma lww_wins_iff l1 a1 l2 a2 :
  lww_incoming_wins l1 a1 l2 a2 = true <-> l2 < l1 \/ l1 = l2 /\ bytes_gt a1 a2 = true.
Proof.
  unfold lww_incoming_wins. destruct (Z.compare_spec l1 l2) as [->|Hl|Hl].
  - split; [by right|]. intros [?|[_ ?]]; [lia|done].
  - split; [done|]. intros [?|[? _]]; lia.
  - split; [left; lia|done].
Qed.

(** ** LEB128: the encoding [leb128_u64] reads *)

Fixpoint leb128_encode (fuel : nat) (n : Z) : bytes :=
  match fuel with
  | O => []
  | S fuel' =>
      if n <? 128 then [Z.to_N n]
      else Z.to_N (128 + n mod 128) :: leb128_encode fuel' (n / 128)
  end.

Lemma lor_shift r x s : 0 <= s -> 0 <= r < 2 ^ s -> 0 <= x -> Z.lor r (Z.shiftl x s) = r + x * 2 ^ s.
Proof.
  intros Hs Hr Hx. rewrite Z.shiftl_mul_pow2 by done.
  assert (Z.land r (x * 2 ^ s) = 0) as Hland.
  { apply Z.bits_inj'. intros i Hi. rewrite Z.land_spec, Z.bits_0.
    destruct (Z.ltb_spec i s).
    - rewrite Z.mul_pow2_bits_low by done. apply andb_false_r.
    - destruct (decide (r = 0)) as [->|]; [by rewrite Z.bits_0|].
      rewrite (Z.bits_above_log2 r i); [done|lia|].
      apply Z.lt_le_trans with s; [apply Z.log2_lt_pow2; lia|lia]. }
  rewrite <- Z.lxor_lor, <- Z.add_nocarry_lxor by done. lia.
Qed.

Lemma leb128_group n : 0 <= n < 128 ->
  Z.land n 127 = n /\ Z.land n 128 = 0 /\ Z.land (128 + n) 127 = n /\ Z.land (128 + n) 128 = 128.
Proof.
  intros Hn. assert (forall m, 0 <= m < 256 -> Z.land m 127 = m mod 128 /\ Z.land m 128 = 128 * (m / 128)) as H.
  { intros m Hm. split; [by apply (Z.land_ones m 7)|].
    assert (Hd : m / 128 = 0 \/ m / 128 = 1) by (Z.div_mod_to_equations; lia).
    apply Z.bits_inj'. intros i Hi. rewrite Z.land_spec. change 128 with (2 ^ 7) at 1.
    rewrite Z.pow2_bits_eqb by done. replace (128 * (m / 128)) with (m / 2 ^ 7 * 2 ^ 7) by (change (2^7) with 128; lia).
    destruct (Z.eqb_spec 7 i) as [<-|Hne].
    - rewrite andb_true_r, Z.mul_pow2_bits by done. by rewrite Z.div_pow2_bits.
    - rewrite andb_false_r. symmetry. destruct (Z.ltb_spec i 7); [by apply Z.mul_pow2_bits_low|].
      rewrite Z.mul_pow2_bits, Z.div_pow2_bits by lia. change (2 ^ 7) with 128 in *.
      destruct (decide (m = 0)) as [->|]; [by rewrite Z.bits_0|]. apply Z.bits_above_log2; [lia|].
      apply Z.log2_lt_pow2; [lia|]. apply Z.lt_le_trans with (2 ^ 8); [change (2^8) with 256; lia|].
      apply Z.pow_le_mono_r; lia. }
  destruct (H n) as [-> ->]; [lia|]. destruct (H (128 + n)) as [-> ->]; [lia|].
  rewrite Z.mod_small, Z.div_small by lia. split_and!; [done|done| |].
  - rewrite <- Z.add_mod_idemp_l, Z.mod_same by lia. apply Z.mod_small. lia.
  - replace (128 + n) with (n + 1 * 128) by lia. rewrite Z.div_add, Z.div_small by lia. done.
Qed.

Lemma leb128_loop_encode n pre post k result :
  (k <= 9)%nat -> 0 <= n < 2 ^ (64 - 7 * Z.of_nat k) -> 0 <= result < 2 ^ (7 * Z.of_nat k) ->
  leb128_loop (10 - k) (pre ++ leb128_encode (10 - k) n ++ post) (length pre) result (7 * Z.of_nat k) =
  Some (result + n * 2 ^ (7 * Z.of_nat k), (length pre + length (leb128_encode (10 - k) n))%nat).
Proof.
  intros Hk. remember (10 - k)%nat as fuel eqn:Hf. revert k n pre result Hk Hf.
  induction fuel as [|fuel IH]; intros k n pre result Hk Hf Hn Hr; [lia|].
  set (s := 7 * Z.of_nat k) in *. assert (0 <= s <= 63) as Hs by lia.
  assert (0 < 2 ^ s) as Hpos by (apply Z.pow_pos_nonneg; lia).
  cbn [leb128_encode leb128_loop]. destruct (Z.ltb_spec n 128) as [Hlt|Hge].
  - rewrite lookup_app_r, Nat.sub_diag by done. cbn [app lookup list_lookup length mbind option_bind].
    destruct (leb128_group n) as (H1 & H2 & _); [lia|]. rewrite Z2N.id by lia. rewrite H1, H2. cbn [Z.eqb].
    rewrite wrap_u64_small.
    + rewrite lor_shift by lia. f_equal. f_equal. lia.
    + rewrite Z.shiftl_mul_pow2 by lia. split; [lia|].
      replace (2 ^ 64) with (2 ^ (64 - s) * 2 ^ s) by (rewrite <- Z.pow_add_r by lia; f_equal; lia).
      apply Z.mul_lt_mono_pos_r; lia.
  - rewrite lookup_app_r, Nat.sub_diag by done. cbn [app lookup list_lookup length mbind option_bind].
    pose proof (Z.mod_pos_bound n 128 ltac:(lia)) as Hm.
    destruct (leb128_group (n mod 128)) as (_ & _ & H3 & H4); [lia|].
    rewrite Z2N.id by lia. rewrite H3, H4. cbn [Z.eqb].
    assert (k <> 9)%nat as Hk9.
    { intros H9. assert (s = 63) as Hs63 by (unfold s; rewrite H9; done). rewrite Hs63 in Hn.
      change (2 ^ (64 - 63)) with 2 in Hn. lia. }
    destruct (Z.geb_spec (s + 7) 64); [lia|].
    rewrite wrap_u64_small.
    2:{ rewrite Z.shiftl_mul_pow2 by lia. split; [lia|].
        apply Z.lt_le_trans with (2 ^ 7 * 2 ^ s); [apply Z.mul_lt_mono_pos_r; [done|apply Hm]|].
        rewrite <- Z.pow_add_r by lia. apply Z.pow_le_mono_r; lia. }
    rewrite lor_shift by lia.
    replace (s + 7) with (7 * Z.of_nat (S k)) by lia.
    pose proof (IH (S k) (n / 128) (pre ++ [Z.to_N (128 + n mod 128)]) (result + n mod 128 * 2 ^ s)) as IH'.
    rewrite <- app_assoc in IH'. rewrite length_app in IH'. cbn [length app] in IH'.
    rewrite Nat.add_1_r in IH'. rewrite IH'; [|lia|lia| |].
    + f_equal. f_equal; [|lia]. replace (7 * Z.of_nat (S k)) with (7 + s) by lia.
      rewrite Z.pow_add_r by lia. change (2 ^ 7) with 128.
      rewrite (Z.div_mod n 128) at 3 by lia. lia.
    + split; [apply Z.div_pos; lia|]. apply Z.div_lt_upper_bound; [lia|].
      change 128 with (2 ^ 7) at 1. rewrite <- Z.pow_add_r by lia. replace (7 + (64 - 7 * Z.of_nat (S k))) with (64 - s) by lia. lia.
    + replace (7 * Z.of_nat (S k)) with (7 + s) by lia. rewrite Z.pow_add_r by lia. change (2 ^ 7) with 128. nia.
Qed.

Lemma leb128_u64_encode n pre post :
  u64_ok n ->
  leb128_u64 (pre ++ leb128_encode 10 n ++ post) (length pre) =
  Some (n, (length pre + length (leb128_encode 10 n))%nat).
Proof.
  intros Hn. unfold leb128_u64. pose proof (leb128_loop_encode n pre post 0 0) as H.
  change (7 * Z.of_nat 0) with 0 in H. change (10 - 0)%nat with 10%nat in H.
  rewrite H; [|lia|exact Hn|lia]. f_equal. f_equal. lia.
Qed.

Lemma get_range_mid pre mid post :
  get_range (pre ++ mid ++ post) (length pre) (length pre + length mid) = Some mid.
Proof.
  unfold get_range. rewrite decide_True by (rewrite !length_app; lia).
  rewrite drop_app_length. replace (length pre + length mid - length pre)%nat with (length mid) by lia.
  by rewrite take_app_length.
Qed.

(** [exid_parts] reads the layout [ObjId::to_bytes] documents. *)
Lemma exid_parts_layout version_type actor hint counter :
  N.land version_type 15 = 0%N -> N.shiftr version_type 4 <> 0%N ->
  u64_ok (Z.of_nat (length actor) + 11) -> u64_ok hint -> u64_ok counter ->
  exid_parts_bytes (version_type :: leb128_encode 10 (Z.of_nat (length actor)) ++ actor ++
    leb128_encode 10 hint ++ leb128_encode 10 counter) = Some (counter, actor).
Proof.
  intros Hv Ht Hl Hh Hc. unfold exid_parts_bytes.
  assert (forall n post, exists x t, leb128_encode 10 n ++ post = x :: t) as Hcons
    by (intros; cbn [leb128_encode]; destruct (_ <? _); eauto).
  pose proof (leb128_u64_encode (Z.of_nat (length actor)) [version_type]
    (actor ++ leb128_encode 10 hint ++ leb128_encode 10 counter)) as H1.
  pose proof (leb128_u64_encode hint (version_type :: leb128_encode 10 (Z.of_nat (length actor)) ++ actor)
    (leb128_encode 10 counter)) as H2.
  pose proof (leb128_u64_encode counter (version_type :: leb128_encode 10 (Z.of_nat (length actor)) ++ actor ++
    leb128_encode 10 hint) []) as H3.
  assert (forall n, (length (leb128_encode 10 n) <= 10)%nat) as H10.
  { assert (forall f n, (length (leb128_encode f n) <= f)%nat) as Hf; [|done].
    induction f as [|f IH]; intros n; cbn [leb128_encode length]; [lia|].
    destruct (_ <? _); cbn [length]; [lia|]. specialize (IH (n / 128)). lia. }
  specialize (H10 (Z.of_nat (length actor))). unfold u64_ok in *.
  set (enc_len := leb128_encode 10 (Z.of_nat (length actor))) in *.
  cbn [app length] in H1, H2, H3. rewrite <- !app_assoc, ?app_nil_r in *.
  cbn [app] in H1, H2, H3. rewrite !length_app in *.
  destruct (Hcons (Z.of_nat (length actor)) (actor ++ leb128_encode 10 hint ++ leb128_encode 10 counter))
    as (x & t & Hx). fold enc_len in Hx. rewrite Hx at 1.
  rewrite Hv. cbn [N.eqb negb]. rewrite (proj2 (N.eqb_neq _ _) Ht). clear Hx x t Hcons.
  rewrite H1 by lia. cbn [mbind option_bind].
  replace (Z.to_nat (wrap_u64 (Z.of_nat (1 + length enc_len) + Z.of_nat (length actor))))
    with (S (length enc_len + length actor)) by (rewrite wrap_u64_small by (unfold u64_ok; lia); lia).
  pose proof (get_range_mid (version_type :: enc_len) actor
    (leb128_encode 10 hint ++ leb128_encode 10 counter)) as Hg.
  cbn [app length Nat.add] in Hg |- *. rewrite Hg. cbn [mbind option_bind]. rewrite H2 by lia. cbn [mbind option_bind].
  replace (S (length enc_len + length actor) + length (leb128_encode 10 hint))%nat
    with (S (length enc_len + (length actor + length (leb128_encode 10 hint)))) by lia.
  by rewrite H3 by lia.
Qed.

(** ** What the snapshot holds *)

Section VerifyProofs.
Context `{!Automerge} `{!AutomergeLaws}.

Lemma root_scalars_lookup d k id v :
  root_scalars d !! k = Some (id, v) <-> am_get d k = Some (VScalar v, id).
Proof.
  rewrite <- am_root_get. unfold root_scalars.
  assert (forall l (m : gmap string (ObjId * ScalarValue)), (forall k id v, (k, id, v) ∈ l -> am_get d k = Some (v, id)) ->
    (forall k id v, m !! k = Some (id, v) -> am_get d k = Some (VScalar v, id)) ->
    foldl (fun m item => match item with
      | (k, id, VScalar v) => <[k := (id, v)]> m | (_, _, VObject _) => m end) m l !! k = Some (id, v) <->
    (k, id, VScalar v) ∈ l \/ m !! k = Some (id, v)) as Hloop.
  { induction l as [|[[k' id'] v'] l IH]; intros m Hl Hm; cbn [foldl].
    { split; [by right|]. by intros [?%not_elem_of_nil|?]. }
    pose proof (Hl k' id' v' ltac:(left)) as Hk'.
    rewrite IH; [|intros; apply Hl; by right|].
    2:{ intros k0 id0 v0. destruct v' as [v'|]; [|by apply Hm].
        destruct (decide (k' = k0)) as [->|]; [rewrite lookup_insert_eq|rewrite lookup_insert_ne by done; by apply Hm].
        by intros [= <- <-]. }
    rewrite elem_of_cons. destruct v' as [v'|t].
    - destruct (decide (k' = k)) as [->|Hne].
      + rewrite lookup_insert_eq. split; [intros [?|[= -> ->]]; auto|].
        intros [[[= -> ->]|?]|Hin]; [by right|by left|]. apply Hm in Hin. right. congruence.
      + rewrite lookup_insert_ne by done. split; [tauto|]. intros [[[= ? _ _]|?]|?]; [congruence|tauto..].
    - split; [tauto|]. intros [[[=]|?]|?]; tauto. }
  rewrite Hloop; [|intros k' id' v'; by rewrite am_root_get|intros ???; by rewrite lookup_empty].
  rewrite lookup_empty. split; [by intros [?|?]|by left].
Qed.

Lemma elem_of_capture_lww local incoming c :
  c ∈ capture_lww local incoming <->
  am_get local (key c) = Some (VScalar (local_value c), local_exid c) /\
  am_get incoming (key c) = Some (VScalar (incoming_value c), incoming_exid c) /\
  local_exid c <> incoming_exid c.
Proof.
  unfold capture_lww. rewrite sort_by_name_perm, list_elem_of_omap. split.
  - intros ([k [iid iv]] & Hin & Hc). apply elem_of_map_to_list, root_scalars_lookup in Hin.
    unfold lww_conflict in Hc. destruct (root_scalars local !! k) as [[lid lv]|] eqn:Hl; [|done].
    apply root_scalars_lookup in Hl. cbn in Hc. destruct (decide (lid = iid)); [done|].
    by injection Hc as <-.
  - intros (Hl & Hi & Hne). destruct c as [k iid iv lid lv]. cbn in *.
    exists (k, (iid, iv)). rewrite elem_of_map_to_list, root_scalars_lookup. split; [done|].
    unfold lww_conflict. apply root_scalars_lookup in Hl. rewrite Hl. cbn. by rewrite decide_False.
Qed.

Lemma capture_lww_keys local incoming : NoDup (map key (capture_lww local incoming)).
Proof.
  unfold capture_lww. set (l := omap _ _).
  assert (map key (sort_by_name key l) ≡ₚ map key l) as -> by apply (fmap_Permutation key), sort_by_name_perm.
  assert (map key l `sublist_of` map fst (map_to_list (root_scalars incoming))) as Hsub.
  { unfold l. generalize (map_to_list (root_scalars incoming)). clear. intros es.
    induction es as [|[k [iid iv]] es IH]; cbn [omap list_omap map fst]; [done|].
    unfold lww_conflict at 1. destruct (root_scalars local !! k) as [[lid lv]|]; cbn; [|by apply sublist_cons].
    destruct (decide (lid = iid)); [by apply sublist_cons|]. cbn. by apply sublist_skip. }
  exact (sublist_NoDup _ _ (NoDup_fst_map_to_list (root_scalars incoming)) Hsub).
Qed.

(** ** The loops *)

Lemma lww_turn_other definitive acc c k :
  k <> key c -> am_get (lww_turn definitive acc c).1 k = am_get acc.1 k.
Proof.
  intros Hne. destruct acc as [d r]. unfold lww_turn. destruct (current_exid d (key c)); [|done].
  destruct definitive; [|done]. cbn [negb]. destruct (decide (_ = incoming_exid c)); [done|].
  destruct (decide (_ = local_exid c)); [|done].
  pose proof (am_put_other d (key c) (incoming_value c) k Hne) as Hput. by destruct (am_put _ _ _).
Qed.

(** The turn of the conflict on a key decides what the loop leaves there. *)
Lemma lww_loop_get definitive cs d r k :
  NoDup (map key cs) ->
  let final := (foldl (lww_turn definitive) (d, r) cs).1 in
  (k ∉ map key cs -> am_get final k = am_get d k) /\
  (forall c, c ∈ cs -> key c = k -> exists d0 r0,
     am_get d0 k = am_get d k /\ am_get final k = am_get (lww_turn definitive (d0, r0) c).1 k).
Proof.
  intros Hnd. revert d r. induction cs as [|c cs IH]; intros d r; cbn [foldl map] in *.
  { split; [done|]. by intros c ?%not_elem_of_nil. }
  apply NoDup_cons in Hnd as [Hc Hnd]. destruct (lww_turn definitive (d, r) c) as [d' r'] eqn:Ht.
  destruct (IH Hnd d' r') as [IH1 IH2].
  pose proof (lww_turn_other definitive (d, r) c k) as Ho. rewrite Ht in Ho. cbn [fst] in *. split.
  - rewrite not_elem_of_cons. intros [Hk Hin]. rewrite (IH1 Hin). by apply Ho.
  - intros c' [->|Hin]%elem_of_cons Hk.
    + exists d, r. split; [done|]. rewrite Ht. apply IH1. by rewrite <- Hk.
    + destruct (IH2 c' Hin Hk) as (d0 & r0 & H1 & H2). exists d0, r0. split; [|done]. rewrite H1. apply Ho.
      intros ->. apply Hc. rewrite <- Hk. by apply list_elem_of_fmap_2.
Qed.

Lemma reorder_root d o lo hi v w k : am_get (reorder d o lo hi v w).1 k = am_get d k.
Proof.
  unfold reorder.
  pose proof (am_delete_root d o hi k) as H1. destruct (am_delete d o hi) as [d1 [e|]]; [done|].
  pose proof (am_delete_root d1 o lo k) as H2. destruct (am_delete d1 o lo) as [d2 [e|]]; cbn in *; [congruence|].
  pose proof (am_insert_root d2 o lo v k) as H3. destruct (am_insert d2 o lo v) as [d3 [e|]]; cbn in *; [congruence|].
  rewrite am_insert_root. congruence.
Qed.

Lemma rga_loop_root definitive maps cs acc k :
  am_get (foldl (rga_turn definitive maps) acc cs).1 k = am_get acc.1 k.
Proof.
  revert acc. induction cs as [|c cs IH]; intros [d r]; cbn [foldl]; [done|]. rewrite IH.
  unfold rga_turn. destruct (find_lists maps c) as [[[o i] j]|]; [|done].
  destruct definitive; [|done]. cbn [negb]. destruct (j <? i)%nat; [done|].
  pose proof (reorder_root d o (i `min` j) (i `max` j) (rga_incoming_value c) (rga_local_value c) k) as Hre.
  by destruct (reorder _ _ _ _ _ _).
Qed.

Lemma verify_get d snap dl ll k :
  am_get (verify_and_override d snap dl ll).1 k =
  am_get (foldl (lww_turn (dl >? ll)) (d, empty_report) (lww snap)).1 k.
Proof. unfold verify_and_override. destruct (foldl _ _ (lww snap)). by rewrite rga_loop_root. Qed.

(** Behind or level with the local clock the two loops only count. *)
Definition same_counts (r r' : VerificationReport) : Prop :=
  divergences r = divergences r' /\ overrides_applied r = overrides_applied r' /\
  overrides_failed r = overrides_failed r'.

Lemma lww_loop_indeterminate cs acc :
  (foldl (lww_turn false) acc cs).1 = acc.1 /\ same_counts (foldl (lww_turn false) acc cs).2 acc.2.
Proof.
  revert acc. induction cs as [|c cs IH]; intros [d r]; cbn [foldl]; [done|].
  destruct (IH (lww_turn false (d, r) c)) as [-> (H1 & H2 & H3)].
  unfold same_counts. rewrite H1, H2, H3. unfold lww_turn. by destruct (current_exid d (key c)).
Qed.

Lemma rga_loop_indeterminate maps cs acc :
  (foldl (rga_turn false maps) acc cs).1 = acc.1 /\ same_counts (foldl (rga_turn false maps) acc cs).2 acc.2.
Proof.
  revert acc. induction cs as [|c cs IH]; intros [d r]; cbn [foldl]; [done|].
  destruct (IH (rga_turn false maps (d, r) c)) as [-> (H1 & H2 & H3)].
  unfold same_counts. rewrite H1, H2, H3. unfold rga_turn. by destruct (find_lists maps c) as [[[??]?]|].
Qed.

Lemma verify_indeterminate d snap dl ll :
  dl <= ll -> let '(final, report) := verify_and_override d snap dl ll in
  final = d /\ same_counts report empty_report.
Proof.
  intros Hle. unfold verify_and_override.
  assert ((dl >? ll) = false) as -> by (rewrite Z.gtb_ltb; by apply Z.ltb_ge).
  destruct (lww_loop_indeterminate (lww snap) (d, empty_report)) as [H1 (H2 & H3 & H4)].
  destruct (foldl _ _ (lww snap)) as [d' r]. cbn [fst snd] in *. subst d'.
  destruct (rga_loop_indeterminate (index_maps d) (rga snap) (d, r)) as [H1' (H2' & H3' & H4')].
  destruct (foldl _ _ (rga snap)) as [d'' r']. cbn [fst snd] in *. unfold same_counts. split_and!; congruence.
Qed.

(** ** What an override edits, all at once *)

(** The conflicts on keys where the merge has kept the local element. *)
Definition kept_local (merged : Doc) (c : LwwConflict) : Prop := snd <$> am_get merged (key c) = Some (local_exid c).
#[export] Instance kept_local_dec merged c : Decision (kept_local merged c).
Proof. unfold kept_local. apply _. Defined.

Definition put_incoming (d : Doc) (c : LwwConflict) : Doc := (am_put d (key c) (incoming_value c)).1.

(** A pair of insertions whose incoming element does not stand before the local one. *)
Definition out_of_place (maps : list (ObjId * gmap (Z * bytes) nat)) (c : RgaConflict)
  : option (ObjId * nat * nat * RgaConflict) :=
  '(obj, idx_local, idx_incoming) ← find_lists maps c;
  if (idx_incoming <? idx_local)%nat then None else Some (obj, idx_local, idx_incoming, c).

Definition reinsert (d : Doc) (e : ObjId * nat * nat * RgaConflict) : Doc :=
  let '(obj, idx_local, idx_incoming, c) := e in
  (reorder d obj (idx_local `min` idx_incoming) (idx_local `max` idx_incoming) (rga_incoming_value c) (rga_local_value c)).1.

(** Each override counts as one divergence and as applied or failed. *)
Definition counts_more (n : nat) (r r' : VerificationReport) : Prop :=
  divergences r' = (divergences r + n)%nat /\
  (overrides_applied r' + overrides_failed r')%nat = (overrides_applied r + overrides_failed r + n)%nat /\
  (overrides_failed r <= overrides_failed r')%nat.

Lemma counts_more_override r e n r' : counts_more n (add_override r e) r' -> counts_more (S n) r r'.
Proof. unfold counts_more. destruct e; cbn; lia. Qed.

Lemma lww_turn_definitive merged d r c :
  local_exid c <> incoming_exid c -> am_get d (key c) = am_get merged (key c) ->
  exists r0, divergences r0 = divergences r /\ overrides_applied r0 = overrides_applied r /\
    overrides_failed r0 = overrides_failed r /\
    lww_turn true (d, r) c =
      if decide (kept_local merged c)
      then (put_incoming d c, add_override r0 (am_put d (key c) (incoming_value c)).2) else (d, r0).
Proof.
  intros Hne Hd. unfold lww_turn, current_exid, put_incoming. rewrite Hd.
  assert (kept_local merged c <-> snd <$> am_get merged (key c) = Some (local_exid c)) as Hkl by done.
  destruct (am_get merged (key c)) as [[v id]|]; cbn [fmap option_fmap option_map snd negb] in *.
  2:{ exists r. by rewrite decide_False by (by rewrite Hkl). }
  destruct (decide (id = incoming_exid c)) as [->|Hi].
  { exists (add_lww r). rewrite decide_False by (rewrite Hkl; congruence). by split_and!. }
  destruct (decide (id = local_exid c)) as [->|Hl].
  - exists (add_lww r). rewrite decide_True by (by rewrite Hkl). split_and!; try done. by destruct (am_put _ _ _).
  - exists (add_indeterminate (add_lww r)). rewrite decide_False by (rewrite Hkl; congruence). by split_and!.
Qed.

Lemma lww_loop_puts merged cs d r :
  NoDup (map key cs) -> Forall (fun c => local_exid c <> incoming_exid c) cs ->
  (forall c, c ∈ cs -> am_get d (key c) = am_get merged (key c)) ->
  let '(d', r') := foldl (lww_turn true) (d, r) cs in
  let puts := filter (kept_local merged) cs in
  d' = foldl put_incoming d puts /\ counts_more (length puts) r r' /\
  (overrides_failed r' = overrides_failed r -> forall c, c ∈ puts ->
     exists id, am_get d' (key c) = Some (VScalar (incoming_value c), id)).
Proof.
  intros Hnd Hne. revert d r. induction cs as [|c cs IH]; intros d r Hd; cbn [foldl].
  { split_and!; [done|unfold counts_more; cbn; lia|]. by intros _ c ?%not_elem_of_nil. }
  cbn [map] in Hnd. apply NoDup_cons in Hnd as [Hc Hnd]. apply Forall_cons in Hne as [Hcne Hne].
  pose proof (lww_turn_definitive merged d r c Hcne (Hd c ltac:(left))) as (r0 & E1 & E2 & E3 & Ht).
  pose proof (lww_turn_other true (d, r) c) as Ho. rewrite Ht in Ho.
  pose proof (fun d' r' => lww_loop_get true cs d' r' (key c) Hnd) as Hkeep.
  rewrite Ht, filter_cons. clear Ht. destruct (decide (kept_local merged c)) as [Hk|Hk]; cbn [fst] in Ho.
  - specialize (IH Hnd Hne (put_incoming d c) (add_override r0 (am_put d (key c) (incoming_value c)).2)).
    specialize (Hkeep (put_incoming d c) (add_override r0 (am_put d (key c) (incoming_value c)).2)).
    destruct (foldl _ _ cs) as [d' r']. destruct IH as (-> & Hcount & Hread).
    { intros c' Hin. rewrite Ho; [by apply Hd; right|]. intros He. apply Hc. rewrite <- He. by apply list_elem_of_fmap_2. }
    split; [done|]. split.
    { apply counts_more_override in Hcount. unfold counts_more in *. cbn [length]. lia. }
    destruct Hkeep as [Hkeep _]. specialize (Hkeep Hc). cbn [fst] in Hkeep. destruct Hcount as (_ & _ & Hmono). intros Hf c'.
    destruct (am_put d (key c) (incoming_value c)) as [d1 [e|]] eqn:Hp; cbn in Hmono; [lia|].
    intros [->|Hin]%elem_of_cons; [|apply Hread; [cbn; lia|done]].
    rewrite Hkeep. unfold put_incoming. rewrite Hp. by eapply am_put_get.
  - specialize (IH Hnd Hne d r0). destruct (foldl _ _ cs) as [d' r']. destruct IH as (-> & Hcount & Hread).
    { intros c' Hin. apply Hd. by right. }
    split; [done|]. split; [unfold counts_more in *; lia|]. intros Hf. apply Hread. lia.
Qed.

Lemma rga_loop_reinserts maps cs d r :
  let '(d', r') := foldl (rga_turn true maps) (d, r) cs in
  let edits := omap (out_of_place maps) cs in
  d' = foldl reinsert d edits /\ counts_more (length edits) r r'.
Proof.
  revert d r. induction cs as [|c cs IH]; intros d r; cbn [foldl omap list_omap].
  { split; [done|]. unfold counts_more. cbn. lia. }
  assert (out_of_place maps c = '(obj, il, ii) ← find_lists maps c; if (ii <? il)%nat then None else Some (obj, il, ii, c))
    as Ho by done. rewrite Ho. clear Ho. unfold rga_turn at 2.
  destruct (find_lists maps c) as [[[obj il] ii]|]; cbn [mbind option_bind negb].
  - destruct (ii <? il)%nat.
    + specialize (IH d (add_rga r)). by destruct (foldl _ _ cs).
    + destruct (reorder d obj (il `min` ii) (il `max` ii) (rga_incoming_value c) (rga_local_value c)) as [d1 e] eqn:Hre.
      specialize (IH d1 (add_override (add_rga r) e)). destruct (foldl _ _ cs) as [d' r']. destruct IH as [-> Hcount].
      cbn [foldl length reinsert]. rewrite Hre. split; [done|]. by apply counts_more_override in Hcount.
  - specialize (IH d r). by destruct (foldl _ _ cs).
Qed.

(** C14: what verification makes of the merged document.  When the incoming clock is not ahead, nothing: the
    document is left as merged and no divergence is counted.  When it is strictly ahead, the
    document is the merged one after two rounds of edits and nothing else: the incoming value
    is put over every key that both documents hold with different elements and whose local
    element the merge has kept, whichever of the two writes the merge knew to be newer; then,
    for every pair of insertions behind the same predecessor that stands in one ROOT list with
    the incoming element not in front, both elements are deleted and inserted again in the
    other order.  Each edit is one divergence, applied or failed.  At the ROOT keys that
    means: unless an override failed, the first kind of key reads the incoming value; every
    other key reads what the merge left.  The lists are not protected that way: an element
    both histories hold is paired with itself and its list loses a neighbour
    ([shared_element_lost]). *)
Theorem verify_outcome (local incoming merged : Doc) (delta_lamport local_lamport : Z) :
  let snap := capture_conflicts local incoming in
  let '(final, report) := verify_and_override merged snap delta_lamport local_lamport in
  (delta_lamport <= local_lamport ->
     final = merged /\ divergences report = 0%nat /\ overrides_applied report = 0%nat /\ overrides_failed report = 0%nat) /\
  (local_lamport < delta_lamport ->
     let puts := filter (kept_local merged) (lww snap) in
     let put := foldl put_incoming merged puts in
     let pairs := omap (out_of_place (index_maps put)) (rga snap) in
     final = foldl reinsert put pairs /\ divergences report = (length puts + length pairs)%nat /\
     (overrides_applied report + overrides_failed report)%nat = divergences report /\
     forall k, let before := am_get merged k in let after := am_get final k in
       ((forall lv lid iv iid, am_get local k = Some (VScalar lv, lid) ->
           am_get incoming k = Some (VScalar iv, iid) -> lid = iid) -> after = before) /\
       (forall lv lid iv iid, am_get local k = Some (VScalar lv, lid) ->
          am_get incoming k = Some (VScalar iv, iid) -> lid <> iid ->
          if decide (snd <$> before = Some lid) then
            overrides_failed report = 0%nat -> exists id, after = Some (VScalar iv, id)
          else after = before)).
Proof.
  cbn zeta. set (snap := capture_conflicts local incoming).
  destruct (verify_and_override merged snap delta_lamport local_lamport) as [final report] eqn:Hv. split.
  { intros Hle. pose proof (verify_indeterminate merged snap _ _ Hle) as Hi. rewrite Hv in Hi.
    destruct Hi as (-> & H1 & H2 & H3). done. }
  intros Hlt. pose proof (fun k => verify_get merged snap delta_lamport local_lamport k) as Hget. rewrite Hv in Hget.
  cbn [fst] in Hget. unfold verify_and_override in Hv.
  assert ((delta_lamport >? local_lamport) = true) as Hd by (by apply Z.gtb_lt). rewrite Hd in *.
  pose proof (capture_lww_keys local incoming) as Hnd.
  pose proof (lww_loop_puts merged (lww snap) merged empty_report Hnd) as Hlww.
  pose proof (fun k => lww_loop_get true (lww snap) merged empty_report k Hnd) as Hkeep.
  destruct (foldl (lww_turn true) (merged, empty_report) (lww snap)) as [d1 r1].
  destruct Hlww as (-> & Hc1 & Hread).
  { apply Forall_forall. intros c Hc. by apply elem_of_capture_lww in Hc as (_ & _ & ?). }
  { done. }
  pose proof (rga_loop_reinserts (index_maps (foldl put_incoming merged (filter (kept_local merged) (lww snap))))
    (rga snap) (foldl put_incoming merged (filter (kept_local merged) (lww snap))) r1) as Hrga.
  rewrite Hv in Hrga. destruct Hrga as [Hfinal Hc2]. unfold counts_more in *. cbn [empty_report divergences
    overrides_applied overrides_failed] in *. split; [done|]. split; [lia|]. split; [lia|]. intros k.
  cbn [fst] in *. rewrite Hget. destruct (Hkeep k) as [Hout Hin]. split.
  - intros Hsame. apply Hout. intros (c & -> & Hc)%list_elem_of_fmap.
    apply elem_of_capture_lww in Hc as (H1 & H2 & H3). by eapply H3, Hsame.
  - intros lv lid iv iid Hl Hi Hne.
    assert (mkLww k iid iv lid lv ∈ lww snap) as Hc by (by apply elem_of_capture_lww).
    case_decide as Hk.
    + intros Hf. apply (Hread ltac:(lia) (mkLww k iid iv lid lv)). by apply list_elem_of_filter.
    + destruct (Hin _ Hc eq_refl) as (d0 & r0 & Hd0 & ->).
      destruct (lww_turn_definitive merged d0 r0 (mkLww k iid iv lid lv)) as (r2 & _ & _ & _ & ->); [done|done|].
      rewrite decide_False by done. done.
Qed.
End VerifyProofs.

(** The Lamport rule orders any two writes by clock and then by actor bytes: never
    both ways, one of the two ways whenever clock or actor differ, and transitively,
    so every set of writes has one winner in whatever order they arrive. *)
Theorem lww_rule_total_order (l1 l2 l3 : Z) (a1 a2 a3 : bytes) :
  ~ (lww_incoming_wins l1 a1 l2 a2 = true /\ lww_incoming_wins l2 a2 l1 a1 = true) /\
  ((l1, a1) <> (l2, a2) -> lww_incoming_wins l1 a1 l2 a2 = true \/ lww_incoming_wins l2 a2 l1 a1 = true) /\
  (lww_incoming_wins l1 a1 l2 a2 = true -> lww_incoming_wins l2 a2 l3 a3 = true ->
   lww_incoming_wins l1 a1 l3 a3 = true) /\
  lww_incoming_wins l1 a1 l1 a1 = false /\
  rga_incoming_has_priority l1 a1 l2 a2 = lww_incoming_wins l1 a1 l2 a2.
Proof.
  assert (forall l a, lww_incoming_wins l a l a = false) as Hirr.
  { intros l a. apply not_true_iff_false. rewrite lww_wins_iff, bytes_gt_irrefl. by intros [?|[_ ?]]; [lia|]. }
  assert (forall l1 a1 l2 a2 l3 a3, lww_incoming_wins l1 a1 l2 a2 = true ->
    lww_incoming_wins l2 a2 l3 a3 = true -> lww_incoming_wins l1 a1 l3 a3 = true) as Htr.
  { clear. intros l1 a1 l2 a2 l3 a3. rewrite !lww_wins_iff.
    intros [?|[-> H]] [?|[-> H']]; [left; lia|by left; lia|by left|].
    right. split; [done|]. by eapply bytes_gt_trans. }
  split_and!; [| |apply Htr|apply Hirr|done].
  - intros [H1 H2]. pose proof (Htr _ _ _ _ _ _ H1 H2) as H. by rewrite Hirr in H.
  - intros Hne. rewrite !lww_wins_iff. destruct (Z.lt_trichotomy l1 l2) as [?|[->|?]]; [by right; left| |by left; left].
    destruct (bytes_gt_total a1 a2) as [?|?]; [congruence| |]; [left|right]; by right.
Qed.

(** The parser of element ids gives back the counter and the actor an id of the
    documented layout spells, for every actor and every 64-bit counter and hint:
    LEB128 groups are reassembled without loss up to ten bytes. *)
Theorem exid_parts_roundtrip (version_type : N) (actor : bytes) (hint counter : Z) :
  N.land version_type 15 = 0%N -> N.shiftr version_type 4 <> 0%N ->
  u64_ok (Z.of_nat (length actor) + 11) -> u64_ok hint -> u64_ok counter ->
  exid_parts_bytes (version_type :: leb128_encode 10 (Z.of_nat (length actor)) ++ actor ++
    leb128_encode 10 hint ++ leb128_encode 10 counter) = Some (counter, actor) /\
  leb128_u64 (leb128_encode 10 counter) 0 = Some (counter, length (leb128_encode 10 counter)).
Proof.
  intros Hv Ht Hl Hh Hc. split; [by apply exid_parts_layout|].
  pose proof (leb128_u64_encode counter [] [] Hc) as H. by rewrite app_nil_r in H.
Qed.

Lemma exid_parts_roundtrip_witness :
  exid_parts_bytes [16; 3; 10; 20; 30; 5; 255; 255; 255; 255; 255; 255; 255; 255; 255; 1]%N =
    Some (2 ^ 64 - 1, [10; 20; 30]%N).
Proof.
  refine (proj1 (exid_parts_roundtrip 16 [10; 20; 30]%N 5 (2 ^ 64 - 1) _ _ _ _ _));
    vm_compute; try split; first [reflexivity|discriminate|congruence].
Defined.

(** ** An element both histories hold

    The pairs of insertions include an element paired with itself.  For such a pair
    the two indices are equal, so the rule reads it as out of order: two elements are
    deleted at its place and it is inserted twice. *)
Lemma shared_insert_paired `{!Automerge} local incoming op :
  op ∈ list_inserts local -> op ∈ list_inserts incoming ->
  mkRga op.1.2 op.1.2 op.2 op.2 ∈ rga (capture_conflicts local incoming).
Proof.
  destruct op as [[pred elem] val]. intros Hl Hi. cbn. unfold capture_rga. apply list_elem_of_bind.
  exists (pred, elem, val). split; [|done]. apply list_elem_of_bind. exists (pred, elem, val).
  split; [|done]. rewrite decide_True by done. by left.
Qed.

(** Merging a document into itself changes nothing; verifying that merge with a clock
    ahead of the local one replaces the list [7; 8] by [7]. *)
Example shared_element_lost :
  let d := OneList.mkDoc [(1%N, 7); (2%N, 8)] in
  let '(final, report) := @verify_and_override OneList.one_list d
    (@capture_conflicts OneList.one_list d d) 5 4 in
  map snd (OneList.elems (@am_merge OneList.one_list d d).1) = [7; 8] /\
  map snd (OneList.elems final) = [7] /\
  divergences report = 2%nat /\ overrides_applied report = 1%nat /\ overrides_failed report = 1%nat.
Proof. by vm_compute. Qed.

(** ** A write is lost to an older one

    Actor 1 overwrote [k = 10] with [k = 11] after it had seen it; actor 2 knows the
    old value only and wrote another key under a greater clock.  The merge keeps 11,
    verification puts 10 back. *)
Definition stale_local : Registers.doc :=
  Registers.mkDoc 1 [Registers.mkReg 1 2 "k" (SInt 10); Registers.mkReg 2 1 "k" (SInt 11)].
Definition stale_incoming : Registers.doc :=
  Registers.mkDoc 2 [Registers.mkReg 1 2 "k" (SInt 10); Registers.mkReg 2 2 "j" (SInt 5)].
Definition stale_merged : Registers.doc := Registers.merge stale_local stale_incoming.

Lemma verify_outcome_witness :
  let final := (@verify_and_override Registers.registers stale_merged
    (@capture_conflicts Registers.registers stale_local stale_incoming) 7 5).1 in
  Registers.read stale_merged "k" = Some (VScalar (SInt 11), (2, 1)%N) /\
  exists id, Registers.read final "k" = Some (VScalar (SInt 10), id).
Proof.
  cbn zeta. split; [vm_compute; reflexivity|].
  pose proof (@verify_outcome Registers.registers Registers.registers_laws
    stale_local stale_incoming stale_merged 7 5) as H. cbn zeta in H.
  assert (overrides_failed (@verify_and_override Registers.registers stale_merged
    (@capture_conflicts Registers.registers stale_local stale_incoming) 7 5).2 = 0%nat) as Hf by (vm_compute; reflexivity).
  destruct (verify_and_override _ _ _ _) as [final report]. destruct H as [_ H].
  destruct (H ltac:(lia)) as (_ & _ & _ & Hkeys). destruct (Hkeys "k") as [_ Hk].
  specialize (Hk (SInt 11) (2, 1)%N (SInt 10) (1, 2)%N ltac:(vm_compute; reflexivity)
    ltac:(vm_compute; reflexivity) ltac:(discriminate)).
  rewrite decide_True in Hk by (vm_compute; reflexivity). exact (Hk Hf).
Defined.

End Verify.
