(* ===== verification/Crdt.v ===== *)
(** * The CRDT engine: [crdt/mod.rs], [crdt/merge.rs], [crdt/failure.rs] and the
    compaction of [store/compaction.rs]

    The engine owns an Automerge document, a Lamport clock, the schemas it accepts,
    the authors it refuses and the changeset DAG.  [produce_delta] signs a local
    write, [apply] takes a peer's Delta through the revocation, schema and signature
    gates into the document, the clock and the DAG.

    The native build is modelled.  Automerge, SHA-256, serde_json and zstd are
    parameters; an operation that reads the clock takes the time it read.  The
    listener and the log line of a rejection are the list of records an operation
    emits. *)

From Stdlib Require Import SpecFloat.
From S2P Require Import Prelude Types Kahn Dag Identity Schema Automerge Verify.

(** [serde_json]: the numbers and their accessors, [Number::from]. *)
Class SerdeJson := {
  Number : Type;
  as_i64 : Number -> option Z;
  as_u64 : Number -> option Z;
  as_f64 : Number -> option spec_float;
  number_from_int : Z -> Number;
  number_from_f64 : spec_float -> option Number
}.

#[warnings="-register-all"]
Inductive Json `{!SerdeJson} :=
| JNull
| JBool (b : bool)
| JNumber (n : Number)
| JString (s : string)
| JArray (l : list Json)
| JObject (l : list (string * Json)).

Module Crdt.
Import Verify Schema.

(** [crdt/merge.rs] *)
Inductive QuarantineReason := BreakingSchemaChange | UnknownSchemaHashReason | MissingOrMalformedHash.

Inductive MergeOutcome :=
| Merged (new_lamport : Z)
| Quarantined (reason : QuarantineReason)
| Rejected (reason : string).

(** [crdt/failure.rs] *)
Inductive DeltaRejectionCode :=
| RevokedAuthor
| MissingSignature
| DidResolutionFailedCode
| SignatureVerificationFailedCode.

Definition as_str (c : DeltaRejectionCode) : string :=
  match c with
  | RevokedAuthor => "REVOKED_AUTHOR"
  | MissingSignature => "MISSING_SIGNATURE"
  | DidResolutionFailedCode => "DID_RESOLUTION_FAILED"
  | SignatureVerificationFailedCode => "SIGNATURE_VERIFICATION_FAILED"
  end.

Record DeltaRejectionRecord := mkRejection {
  code : DeltaRejectionCode;
  rec_author_did : Did;
  rec_delta_id : DeltaId;
  rec_reason : string;
  occurred_at_utc : Z
}.

Definition MAX_REJECTION_RECORDS : nat := 1024.

(** The gate's classification of a schema hash; the diffs of the code's variants only
    feed a log line. *)
Inductive IncomingSchemaClass := Known | Additive | Breaking | Unknown.

Section Crdt.
Context `{!Automerge} `{!Bs58} `{!Ed25519} `{!SelectOrder} `{!HashIter N Z} `{!SerdeJson}.
Context (zstd_encode : bytes -> Res bytes).
Context (to_json : CanonicalDeltaPayload -> bytes) (sha256 : bytes -> N).
(** [serde_json::to_vec] of a whole Delta, [serde_json::to_string] of a value,
    [Display] of an error, [hex::encode]. *)
Context (delta_to_json : Delta -> option bytes) (json_to_string : Json -> option string).
Context (error_to_string : TirBaseError -> string) (hex_encode : bytes -> string).

Record CrdtEngine := mkEngine {
  doc : Doc;
  lamport : Z;                                          (* u64 *)
  known_schema_hash : SchemaIdentifierHash;
  known_schemas : gset SchemaIdentifierHash;
  schema_definitions : gmap SchemaIdentifierHash Schema;
  author_did : Did;
  secret_key : bytes;
  revoked_dids : gset Did;
  rejection_records : list DeltaRejectionRecord;        (* oldest first *)
  dag : Dag.Tables;
  automerge_docs : gmap string bytes                    (* the table of that name *)
}.

(** Field updates. *)
Definition set_doc (e : CrdtEngine) d := mkEngine d (lamport e) (known_schema_hash e)
  (known_schemas e) (schema_definitions e) (author_did e) (secret_key e) (revoked_dids e)
  (rejection_records e) (dag e) (automerge_docs e).
Definition set_lamport (e : CrdtEngine) l := mkEngine (doc e) l (known_schema_hash e)
  (known_schemas e) (schema_definitions e) (author_did e) (secret_key e) (revoked_dids e)
  (rejection_records e) (dag e) (automerge_docs e).
Definition set_known (e : CrdtEngine) h ks := mkEngine (doc e) (lamport e) h
  ks (schema_definitions e) (author_did e) (secret_key e) (revoked_dids e)
  (rejection_records e) (dag e) (automerge_docs e).
Definition set_definitions (e : CrdtEngine) ds := mkEngine (doc e) (lamport e) (known_schema_hash e)
  (known_schemas e) ds (author_did e) (secret_key e) (revoked_dids e)
  (rejection_records e) (dag e) (automerge_docs e).
Definition set_revoked (e : CrdtEngine) r := mkEngine (doc e) (lamport e) (known_schema_hash e)
  (known_schemas e) (schema_definitions e) (author_did e) (secret_key e) r
  (rejection_records e) (dag e) (automerge_docs e).
Definition set_records (e : CrdtEngine) rs := mkEngine (doc e) (lamport e) (known_schema_hash e)
  (known_schemas e) (schema_definitions e) (author_did e) (secret_key e) (revoked_dids e)
  rs (dag e) (automerge_docs e).
Definition set_store (e : CrdtEngine) g t := mkEngine (doc e) (lamport e) (known_schema_hash e)
  (known_schemas e) (schema_definitions e) (author_did e) (secret_key e) (revoked_dids e)
  (rejection_records e) g t.

(** [new], over the tables of the connection. *)
Definition new (secret_key public_key : bytes) (author_did : Did) (schema_hash : SchemaIdentifierHash)
    (g : Dag.Tables) (docs : gmap string bytes) : CrdtEngine :=
  mkEngine (am_new public_key) 0 schema_hash {[schema_hash]} ∅ author_did secret_key ∅ [] g docs.

Definition add_known_schema (e : CrdtEngine) (hash : SchemaIdentifierHash) : CrdtEngine :=
  set_known e (known_schema_hash e) ({[hash]} ∪ known_schemas e).

Definition register_schema_definition (e : CrdtEngine) (expected_hash : SchemaIdentifierHash)
    (schema : Schema) : CrdtEngine * Res unit :=
  let computed := identifier_hash sha256 schema in
  if decide (computed = expected_hash) then
    (set_definitions e (<[computed := schema]> (schema_definitions e)), Ok tt)
  else (e, Err (SchemaRegistrationFailed "schema definition does not hash to the registered version hash")).

Definition set_current_schema (e : CrdtEngine) (hash : SchemaIdentifierHash) : CrdtEngine :=
  set_known e hash ({[hash]} ∪ known_schemas e).

Definition compaction_policy_for (e : CrdtEngine) (table : string) : CompactionPolicy :=
  match schema_definitions e !! known_schema_hash e with
  | Some schema => policy_in schema table
  | None => NoCompaction
  end.

Definition classify_incoming_schema (e : CrdtEngine) (hash : SchemaIdentifierHash)
  : IncomingSchemaClass :=
  if bool_decide (hash ∈ known_schemas e) then Known
  else
    match schema_definitions e !! known_schema_hash e, schema_definitions e !! hash with
    | Some local, Some incoming =>
        let diff := diff_schemas local incoming in
        if is_additive diff then Additive
        else if is_breaking diff then Breaking
        else Unknown
    | _, _ => Unknown
    end.

Definition mark_did_revoked (e : CrdtEngine) (did : Did) : CrdtEngine :=
  set_revoked e ({[did]} ∪ revoked_dids e).

(** The records kept, and the one handed to the listener. *)
Definition record_rejection (e : CrdtEngine) (code : DeltaRejectionCode) (delta : Delta)
    (reason : string) (now : Z) : CrdtEngine * DeltaRejectionRecord :=
  let record := mkRejection code (d_author_did delta) (d_id delta) reason now in
  let records := rejection_records e ++ [record] in
  let records := if (MAX_REJECTION_RECORDS <? length records)%nat then drop 1 records else records in
  (set_records e records, record).

Definition refetch_delta_bytes (e : CrdtEngine) (delta_id : DeltaId) : option bytes :=
  Dag.refetch_bytes (dag e) delta_id.

(** ** Causal parents *)

Definition dag_tips (e : CrdtEngine) : list DeltaId :=
  let all_nodes := Dag.topological_sort (dag e) in
  filter (fun id => Dag.children (dag e) id = []) all_nodes.

Definition resolve_causal_parents (e : CrdtEngine) (explicit : list DeltaId) : list DeltaId :=
  match explicit with
  | [] => dag_tips e
  | _ => explicit
  end.

Definition insert_dag_node (e : CrdtEngine) (delta : Delta) : CrdtEngine * Res unit :=
  let node := Dag.mkNode (d_id delta) (d_automerge_bytes delta) (delta_to_json delta)
    (d_causal_parents delta) (am_actor (doc e)) (d_lamport delta) (d_schema_hash delta) false
    (d_author_did delta) in
  let '(g, r) := Dag.insert zstd_encode (dag e) node in
  (set_store e g (automerge_docs e), r).

(** ** Local writes *)

Definition canonical_bytes (d : Delta) : bytes := Identity.canonical_bytes to_json d.

Definition produce_delta_with_tags (e : CrdtEngine) (automerge_bytes : bytes)
    (priority : PriorityClass) (causal_parents : list DeltaId) (tags : list DeltaTag) (now : Z)
  : CrdtEngine * Res Delta :=
  let e := set_lamport e (wrap_u64 (lamport e + 1)) in
  let parents := resolve_causal_parents e causal_parents in
  let delta := mkDelta 0 (author_did e) [] (known_schema_hash e) automerge_bytes priority
    parents tags (lamport e) now in
  let canonical := canonical_bytes delta in
  match Keypair.sign (secret_key e) canonical with
  | Err err => (e, Err err)
  | Ok sig =>
      let delta := Identity.set_signed delta (Identity.compute_id sha256 canonical) sig in
      match insert_dag_node e delta with
      | (e, Ok _) => (e, Ok delta)
      | (e, Err err) => (e, Err err)
      end
  end.

Definition produce_delta (e : CrdtEngine) (automerge_bytes : bytes) (priority : PriorityClass)
    (causal_parents : list DeltaId) (now : Z) : CrdtEngine * Res Delta :=
  produce_delta_with_tags e automerge_bytes priority causal_parents [] now.
(** ** Incoming Deltas *)

(** What the gates in front of the merge decide. *)
Inductive GateVerdict :=
| Refuse (code : DeltaRejectionCode) (reason : string)
| Quarantine (reason : QuarantineReason)
| Pass (public_key : bytes) (adopt_additive_hash : bool).

Definition gate_signature (delta : Delta) (adopt_additive_hash : bool) : GateVerdict :=
  match d_signature delta with
  | [] => Refuse MissingSignature "malformed delta: missing signature"
  | _ =>
      match Did.resolve_did (d_author_did delta) with
      | Err e => Refuse DidResolutionFailedCode (error_to_string e)
      | Ok public_key =>
          match Keypair.verify public_key (canonical_bytes delta) (d_signature delta) with
          | Err e => Refuse SignatureVerificationFailedCode (error_to_string e)
          | Ok _ => Pass public_key adopt_additive_hash
          end
      end
  end.

Definition gate (e : CrdtEngine) (delta : Delta) : GateVerdict :=
  if bool_decide (d_author_did delta ∈ revoked_dids e) then
    Refuse RevokedAuthor "author DID is REVOKED"
  else
    match classify_incoming_schema e (d_schema_hash delta) with
    | Known => gate_signature delta false
    | Additive => gate_signature delta true
    | Breaking => Quarantine BreakingSchemaChange
    | Unknown => Quarantine UnknownSchemaHashReason
    end.

Definition load_incoming_doc (b : bytes) : option Doc :=
  match b with
  | [] => None
  | _ => am_load b
  end.

(** Step 4: the merge and its verification. *)
Definition merge_document (e : CrdtEngine) (delta : Delta) : CrdtEngine * Res unit :=
  match load_incoming_doc (d_automerge_bytes delta) with
  | None => (e, Ok tt)
  | Some their_doc =>
      let snapshot := capture_conflicts (doc e) their_doc in
      match am_merge (doc e) their_doc with
      | (d, Some _) => (set_doc e d, Err (DeltaMalformed "automerge merge failed"))
      | (d, None) =>
          match lww snapshot, rga snapshot with
          | [], [] => (set_doc e d, Ok tt)
          | _, _ =>
              let '(d, _) := verify_and_override d snapshot (d_lamport delta) (lamport e) in
              (set_doc e d, Ok tt)
          end
      end
  end.

Definition apply (e : CrdtEngine) (delta : Delta) (now : Z)
  : CrdtEngine * list DeltaRejectionRecord * Res MergeOutcome :=
  match gate e delta with
  | Refuse code reason =>
      let '(e, record) := record_rejection e code delta reason now in
      (e, [record], Ok (Rejected reason))
  | Quarantine reason => (e, [], Ok (Quarantined reason))
  | Pass _ adopt_additive_hash =>
      let e := if adopt_additive_hash then add_known_schema e (d_schema_hash delta) else e in
      match merge_document e delta with
      | (e, Err err) => (e, [], Err err)
      | (e, Ok _) =>
          let e := set_lamport e (wrap_u64 (Z.max (lamport e) (d_lamport delta) + 1)) in
          match insert_dag_node e delta with
          | (e, Err err) => (e, [], Err err)
          | (e, Ok _) => (e, [], Ok (Merged (lamport e)))
          end
      end
  end.

(** [crdt/merge.rs]: the route only names the path in a log line. *)
Definition is_rga_operation (b : bytes) : option bool :=
  match b with
  | [] => None
  | _ =>
      d ← am_load b;
      match (am_get_changes d).2 with
      | [] => None
      | changes => Some (existsb (fun c => existsb op_insert (operations c)) changes)
      end
  end.

Definition apply_incoming_delta (e : CrdtEngine) (delta : Delta) (now : Z)
  : CrdtEngine * list DeltaRejectionRecord * Res MergeOutcome := apply e delta now.

(** ** The document as JSON *)

Definition json_of_scalar (v : ScalarValue) : Json :=
  match v with
  | SStr s => JString s
  | SInt z | SUint z | SCounter z | STimestamp z => JNumber (number_from_int z)
  | SF64 f => match number_from_f64 f with Some n => JNumber n | None => JNull end
  | SBoolean b => JBool b
  | SNull => JNull
  | SBytes b => JString (hex_encode b)
  | SUnknown type_code b =>
      JObject [("type_code", JNumber (number_from_int type_code)); ("bytes", JString (hex_encode b))]
  end.

Definition doc_map_range_root (e : CrdtEngine) : list (string * Json) :=
  omap (fun item =>
    match item with
    | (k, _, VScalar v) => Some (k, json_of_scalar v)
    | (_, _, VObject _) => None
    end) (am_root (doc e)).

(** The rows [project_table_to_store] writes, in its order; an object is written as
    [Null]. *)
Definition project_table_items (e : CrdtEngine) : list (string * Json) :=
  map (fun item =>
    match item with
    | (k, _, VScalar v) => (k, json_of_scalar v)
    | (k, _, VObject _) => (k, JNull)
    end) (am_root (doc e)).

Definition read_scalar (e : CrdtEngine) (key : string) : option Json :=
  '(v, _) ← am_get (doc e) key;
  match v with
  | VScalar (SStr _ as sv) | VScalar (SInt _ as sv) | VScalar (SUint _ as sv)
  | VScalar (SF64 _ as sv) | VScalar (SBoolean _ as sv) | VScalar (SNull as sv) =>
      Some (json_of_scalar sv)
  | _ => None
  end.

(** The scalar a value is stored as; [None]: the number has no branch. *)
Definition scalar_of_json (value : Json) : Res (option ScalarValue) :=
  match value with
  | JString s => Ok (Some (SStr s))
  | JNumber n =>
      match as_i64 n, as_f64 n, as_u64 n with
      | Some i, _, _ => Ok (Some (SInt i))
      | None, Some f, _ => Ok (Some (SF64 f))
      | None, None, Some u => Ok (Some (SUint u))
      | None, None, None => Ok None
      end
  | JBool b => Ok (Some (SBoolean b))
  | JNull => Ok (Some SNull)
  | JObject _ | JArray _ =>
      match json_to_string value with
      | Some s => Ok (Some (SStr s))
      | None => Err (DeltaMalformed "serialise composite value failed")
      end
  end.

Definition put_root (d : Doc) (key : string) (v : ScalarValue) : Doc * Res unit :=
  match am_put d key v with
  | (d, None) => (d, Ok tt)
  | (d, Some _) => (d, Err (DeltaMalformed "automerge put failed"))
  end.

Definition write_scalar (e : CrdtEngine) (table key : string) (value : Json) : CrdtEngine * Res bytes :=
  match put_root (doc e) "_tirbase_table" (SStr table) with
  | (d, Err err) => (set_doc e d, Err err)
  | (d, Ok _) =>
  match put_root d "_tirbase_key" (SStr key) with
  | (d, Err err) => (set_doc e d, Err err)
  | (d, Ok _) =>
  match scalar_of_json value with
  | Err err => (set_doc e d, Err err)
  | Ok v =>
  match (match v with Some v => put_root d key v | None => (d, Ok tt) end) with
  | (d, Err err) => (set_doc e d, Err err)
  | (d, Ok _) => let '(d, b) := am_save d in (set_doc e d, Ok b)
  end end end end.

(** ** Compaction *)

(** [compact_table] ([store/compaction.rs]): both statements succeed. *)
Definition compact_table (e : CrdtEngine) (table_name : string) : CrdtEngine :=
  let '(d, _) := am_save (doc e) in
  let '(d, compacted_bytes) := am_save d in
  let docs := alter (fun _ => compacted_bytes) table_name (automerge_docs e) in
  let rows := (fun row => if Dag.r_compacted row =? 0 then Dag.set_compacted row else row) <$> Dag.dag_nodes (dag e) in
  set_doc (set_store e (Dag.mkTables rows (Dag.dag_edges (dag e))) docs) d.

Definition maybe_compact (e : CrdtEngine) (table : string) (policy : CompactionPolicy)
  : CrdtEngine * bool :=
  let '(d, changes) := am_get_changes (doc e) in
  let e := set_doc e d in
  let change_count := wrap_u64 (Z.of_nat (length changes)) in
  if should_compact policy change_count then (compact_table e table, true) else (e, false).

(** ** The gate *)

(** What the gate asks of a Delta, in terms of the identity component. *)
Definition accepted (e : CrdtEngine) (delta : Delta) : Prop :=
  d_author_did delta ∉ revoked_dids e /\
  (classify_incoming_schema e (d_schema_hash delta) = Known \/
   classify_incoming_schema e (d_schema_hash delta) = Additive) /\
  Identity.verify_delta to_json delta = Ok tt.

Lemma gate_signature_spec delta adopt :
  (Identity.verify_delta to_json delta = Ok tt /\
    exists pk, gate_signature delta adopt = Pass pk adopt) \/
  (Identity.verify_delta to_json delta <> Ok tt /\
    exists code reason, gate_signature delta adopt = Refuse code reason).
Proof.
  clear zstd_encode sha256 delta_to_json json_to_string hex_encode.
  unfold gate_signature, Identity.verify_delta, Identity.verify_delta_signature.
  destruct (d_signature delta) as [|b sig] eqn:Hsig.
  { right. split; [|eauto]. unfold Keypair.as_bytes. by rewrite decide_False. }
  rewrite <- Hsig. destruct (Did.resolve_did (d_author_did delta)) as [pk|err]; cbn [mbind result_bind].
  2:{ right. split; [|eauto]. by destruct (ok_or _ _). }
  destruct (Keypair.verify pk (canonical_bytes delta) (d_signature delta)) as [[]|err] eqn:Hv.
  - left. split; [|eauto]. pose proof Hv as Hv'. apply Keypair.verify_ok in Hv' as (_ & Hlen & _).
    unfold Keypair.as_bytes. rewrite decide_True by done. cbn [ok_or mbind result_bind]. exact Hv.
  - right. split; [|eauto]. unfold Keypair.as_bytes. case_decide; cbn [ok_or mbind result_bind]; [|done].
    unfold canonical_bytes in Hv. by rewrite Hv.
Qed.

Lemma gate_spec e delta :
  (accepted e delta /\ exists pk,
    gate e delta = Pass pk (match classify_incoming_schema e (d_schema_hash delta) with Additive => true | _ => false end)) \/
  (~ accepted e delta /\
    ((exists code reason, gate e delta = Refuse code reason) \/
     (exists reason, gate e delta = Quarantine reason))).
Proof.
  clear zstd_encode sha256 delta_to_json json_to_string hex_encode.
  unfold gate, accepted. case_bool_decide as Hr; [right; split; [tauto|eauto]|].
  destruct (classify_incoming_schema e (d_schema_hash delta)) eqn:Hc.
  - destruct (gate_signature_spec delta false) as [[? [pk ?]]|[? (c & r & ?)]]; [left|right]; split; eauto; tauto.
  - destruct (gate_signature_spec delta true) as [[? [pk ?]]|[? (c & r & ?)]]; [left|right]; split; eauto; tauto.
  - right. split; [|eauto]. intros (_ & [?|?] & _); done.
  - right. split; [|eauto]. intros (_ & [?|?] & _); done.
Qed.

(** ** Storing the node *)

Lemma insert_dag_node_frame e delta e' r :
  insert_dag_node e delta = (e', r) ->
  e' = set_store e (dag e') (automerge_docs e) /\
  (r = Ok tt <-> is_ok (zstd_encode (d_automerge_bytes delta)) = true) /\
  (r <> Ok tt -> dag e' = dag e).
Proof.
  unfold insert_dag_node. intros Heq. destruct (Dag.insert _ _ _) as [g r'] eqn:Hi.
  injection Heq as <- <-. split; [done|]. unfold Dag.insert, Dag.compress_payload in Hi. cbn in Hi.
  destruct (zstd_encode (d_automerge_bytes delta)); injection Hi as <- <-; done.
Qed.

Lemma merge_document_frame e delta e' r :
  merge_document e delta = (e', r) -> e' = set_doc e (doc e').
Proof.
  clear zstd_encode to_json sha256 delta_to_json json_to_string error_to_string hex_encode.
  unfold merge_document. intros Heq. repeat case_match; injection Heq as <- <-; by destruct e.
Qed.

Lemma merge_document_result e delta e' r :
  merge_document e delta = (e', r) ->
  (r = Ok tt <-> forall d, load_incoming_doc (d_automerge_bytes delta) = Some d -> (am_merge (doc e) d).2 = None).
Proof.
  clear zstd_encode to_json sha256 delta_to_json json_to_string error_to_string hex_encode.
  unfold merge_document. intros Heq. destruct (load_incoming_doc _) as [d|] eqn:Hl; [|injection Heq as <- <-; by split].
  assert (forall P : Prop, (r = Ok tt <-> P) -> (P <-> forall d0, Some d = Some d0 -> (am_merge (doc e) d0).2 = None) ->
    (r = Ok tt <-> forall d0, Some d = Some d0 -> (am_merge (doc e) d0).2 = None)) as Htr by tauto.
  apply (Htr ((am_merge (doc e) d).2 = None)).
  - destruct (am_merge (doc e) d) as [d' [err|]]; cbn [snd]; [by injection Heq as <- <-|].
    repeat case_match; by injection Heq as <- <-.
  - split; [by intros Hn d0 [= <-]|eauto].
Qed.

Lemma apply_outcome_spec (e : CrdtEngine) (delta : Delta) (now : Z) :
  let '(e', emitted, r) := apply e delta now in
  (accepted e delta ->
     emitted = [] /\ rejection_records e' = rejection_records e /\
     let stored := (forall d, load_incoming_doc (d_automerge_bytes delta) = Some d -> (am_merge (doc e) d).2 = None) /\
       is_ok (zstd_encode (d_automerge_bytes delta)) = true in
     (stored ->
        let n := wrap_u64 (Z.max (lamport e) (d_lamport delta) + 1) in
        r = Ok (Merged n) /\ lamport e' = n /\
        is_Some (Dag.dag_nodes (dag e') !! d_id delta) /\
        forall p, (p, d_id delta) ∈ Dag.dag_edges (dag e') <->
          (p, d_id delta) ∈ Dag.dag_edges (dag e) \/ p ∈ d_causal_parents delta) /\
     (~ stored -> exists err, r = Err err /\ dag e' = dag e)) /\
  (~ accepted e delta ->
     e' = set_records e (rejection_records e') /\
     ((exists reason, r = Ok (Quarantined reason) /\ emitted = [] /\ rejection_records e' = rejection_records e) \/
      (exists record, r = Ok (Rejected (rec_reason record)) /\ emitted = [record] /\
         last (rejection_records e') = Some record /\ rec_author_did record = d_author_did delta /\
         rec_delta_id record = d_id delta /\ occurred_at_utc record = now))).
Proof.
  clear sha256 json_to_string hex_encode.
  destruct (apply e delta now) as [[e' emitted] r] eqn:Ha. unfold apply in Ha.
  destruct (gate_spec e delta) as [[Hacc [pk Hg]]|[Hacc Hg]]; split; try (intros; exfalso; tauto); intros _.
  - rewrite Hg in Ha. set (adopt := match classify_incoming_schema _ _ with Additive => true | _ => false end) in Ha.
    set (e0 := if adopt then _ else e) in Ha.
    assert (doc e0 = doc e /\ lamport e0 = lamport e /\ dag e0 = dag e /\ rejection_records e0 = rejection_records e)
      as (Hd0 & Hl0 & Hg0 & Hr0) by (unfold e0; by destruct adopt). clearbody e0. clear Hg adopt.
    destruct (merge_document e0 delta) as [e1 r1] eqn:Hm.
    pose proof (merge_document_frame _ _ _ _ Hm) as He1.
    pose proof (merge_document_result _ _ _ _ Hm) as Hr1. rewrite Hd0 in Hr1. destruct r1 as [[]|err].
    2:{ injection Ha as <- <- <-. rewrite He1. cbn. split_and!; [done|done| |].
        - intros [Hs _]. by apply Hr1 in Hs.
        - intros _. by exists err. }
    rewrite He1 in Ha. cbn [lamport set_doc] in Ha. rewrite Hl0 in Ha.
    match type of Ha with context [insert_dag_node ?x delta] => set (e2 := x) in Ha end.
    destruct (insert_dag_node e2 delta) as [e3 r3] eqn:Hi.
    destruct (insert_dag_node_frame _ _ _ _ Hi) as (He3 & Hok & Hdag).
    destruct r3 as [[]|err]; injection Ha as <- <- <-; rewrite He3; cbn -[wrap_u64]; split_and!; try done.
    + intros _. split_and!; [done|done| |].
      * unfold insert_dag_node in Hi. destruct (Dag.insert _ _ _) as [g r4] eqn:Hins. injection Hi as <- ->.
        rewrite (Dag.insert_nodes _ _ _ _ _ Hins). by right.
      * intros p. unfold insert_dag_node in Hi. destruct (Dag.insert _ _ _) as [g r4] eqn:Hins. injection Hi as <- ->.
        cbn [dag set_store]. rewrite (Dag.insert_edges _ _ _ _ Hins), Dag.elem_of_foldl_edges. cbn.
        rewrite Hg0. naive_solver.
    + intros Hns. exfalso. apply Hns. split; [by apply Hr1|by apply Hok].
    + intros [_ Hz]. by apply Hok in Hz.
    + intros _. exists err. split; [done|]. rewrite Hdag by done. cbn. by rewrite Hg0.
  - destruct Hg as [(c & reason & Hg)|(reason & Hg)]; rewrite Hg in Ha.
    + unfold record_rejection in Ha. injection Ha as <- <- <-. cbn [rejection_records set_records].
      split; [by destruct e|]. right.
      exists (mkRejection c (d_author_did delta) (d_id delta) reason now). split_and!; [done|done| |done..].
      destruct (_ <? _)%nat eqn:Hlt; [|by rewrite last_snoc].
      apply Nat.ltb_lt in Hlt. unfold MAX_REJECTION_RECORDS in Hlt. rewrite length_app in Hlt. cbn in Hlt.
      destruct (rejection_records e) as [|x l]; [cbn in Hlt; lia|].
      rewrite <- app_comm_cons. cbn [drop]. by rewrite drop_0, last_snoc.
    + injection Ha as <- <- <-. split; [by destruct e|]. left. by eexists.
Qed.

(** C27: [apply] decides by the three gates and by nothing else.  A Delta is taken when its
    author is not revoked, its schema is known or additive and its signature is one
    [verify_delta] accepts: then no record is emitted and, unless the document cannot
    be merged or the payload not be stored, the clock is one past the greater of the
    two and the node and its edges are in the DAG.  Any other Delta changes nothing
    but the record buffer: it is quarantined in silence, or rejected with one record
    that names its author, its id and the time. *)
Theorem apply_outcome (e : CrdtEngine) (delta : Delta) (now : Z) :
  let '(e', emitted, r) := apply e delta now in
  (accepted e delta ->
     emitted = [] /\ rejection_records e' = rejection_records e /\
     let stored := (forall d, load_incoming_doc (d_automerge_bytes delta) = Some d -> (am_merge (doc e) d).2 = None) /\
       is_ok (zstd_encode (d_automerge_bytes delta)) = true in
     (stored ->
        let n := wrap_u64 (Z.max (lamport e) (d_lamport delta) + 1) in
        r = Ok (Merged n) /\ lamport e' = n /\
        is_Some (Dag.dag_nodes (dag e') !! d_id delta) /\
        forall p, (p, d_id delta) ∈ Dag.dag_edges (dag e') <->
          (p, d_id delta) ∈ Dag.dag_edges (dag e) \/ p ∈ d_causal_parents delta) /\
     (~ stored -> exists err, r = Err err /\ dag e' = dag e)) /\
  (~ accepted e delta ->
     e' = set_records e (rejection_records e') /\
     ((exists reason, r = Ok (Quarantined reason) /\ emitted = [] /\ rejection_records e' = rejection_records e) \/
      (exists record, r = Ok (Rejected (rec_reason record)) /\ emitted = [record] /\
         last (rejection_records e') = Some record /\ rec_author_did record = d_author_did delta /\
         rec_delta_id record = d_id delta /\ occurred_at_utc record = now))).
Proof. exact (apply_outcome_spec e delta now). Qed.

(** ** Local writes *)

Lemma produce_spec e b prio parents tags now e' delta :
  produce_delta_with_tags e b prio parents tags now = (e', Ok delta) ->
  lamport e' = wrap_u64 (lamport e + 1) /\ d_lamport delta = lamport e' /\
  d_author_did delta = author_did e /\ d_schema_hash delta = known_schema_hash e /\
  d_automerge_bytes delta = b /\ d_tags delta = tags /\
  d_causal_parents delta = resolve_causal_parents e parents /\
  d_id delta = sha256 (canonical_bytes delta) /\
  d_signature delta = ed_sign (secret_key e) (canonical_bytes delta) /\
  exists g, Dag.insert zstd_encode (dag e) (Dag.mkNode (d_id delta) b (delta_to_json delta)
    (d_causal_parents delta) (am_actor (doc e)) (d_lamport delta) (d_schema_hash delta) false (author_did e)) = (g, Ok tt) /\
  e' = set_store (set_lamport e (wrap_u64 (lamport e + 1))) g (automerge_docs e).
Proof.
  unfold produce_delta_with_tags. cbn zeta. unfold Keypair.sign.
  destruct (insert_dag_node _ _) as [e1 [[]|err]] eqn:Hi; [|done]. intros [= <- <-].
  unfold insert_dag_node in Hi. destruct (Dag.insert _ _ _) as [g r] eqn:Hins. injection Hi as <- ->.
  cbn -[wrap_u64] in *. split_and!; try done. by exists g.
Qed.

(** A Delta signed with a key is accepted by whoever knows its schema and has not revoked the DID
    the key spells. *)
Lemma signed_accepted (peer : CrdtEngine) (delta : Delta) (seed : bytes) :
  d_author_did delta = Did.derive_did (ed_public seed) ->
  d_signature delta = ed_sign seed (canonical_bytes delta) ->
  d_author_did delta ∉ revoked_dids peer -> d_schema_hash delta ∈ known_schemas peer -> accepted peer delta.
Proof.
  clear zstd_encode sha256 delta_to_json json_to_string error_to_string hex_encode.
  intros Ha Hsig Hrev Hsch. split; [done|]. split.
  - left. unfold classify_incoming_schema. by rewrite bool_decide_eq_true_2.
  - unfold Identity.verify_delta, Keypair.as_bytes, Identity.verify_delta_signature.
    rewrite Hsig, Ha. rewrite decide_True by apply ed_sign_length. cbn [ok_or mbind result_bind].
    rewrite Did.resolve_derive by (apply ed_public_length || apply ed_public_bytes). cbn [mbind result_bind].
    apply Keypair.verify_sign.
Qed.

Lemma produced_delta_merges_spec (e peer : CrdtEngine) (seed b : bytes) (prio : PriorityClass)
    (parents : list DeltaId) (tags : list DeltaTag) (now later : Z) (e' : CrdtEngine) (delta : Delta) :
  secret_key e = seed -> author_did e = Did.derive_did (ed_public seed) ->
  produce_delta_with_tags e b prio parents tags now = (e', Ok delta) ->
  0 <= lamport e < 2 ^ 64 - 2 -> 0 <= lamport peer < 2 ^ 64 - 1 ->
  author_did e ∉ revoked_dids peer -> known_schema_hash e ∈ known_schemas peer ->
  (forall d, load_incoming_doc b = Some d -> (am_merge (doc peer) d).2 = None) ->
  exists peer', apply peer delta later = (peer', [], Ok (Merged (lamport peer'))) /\
    lamport e < d_lamport delta < lamport peer' /\ lamport peer < lamport peer' /\
    is_Some (Dag.dag_nodes (dag peer') !! d_id delta).
Proof.
  clear json_to_string hex_encode.
  intros Hk Ha Hp Hl Hlp Hrev Hsch Hmerge.
  destruct (produce_spec _ _ _ _ _ _ _ _ Hp)
    as (He' & Hdl & Hda & Hds & Hdb & _ & _ & _ & Hsig & g & Hins & _).
  rewrite (wrap_u64_small (lamport e + 1)) in He' by (unfold u64_ok; lia).
  assert (is_ok (zstd_encode b) = true) as Hz.
  { unfold Dag.insert, Dag.compress_payload in Hins. cbn in Hins. by destruct (zstd_encode b). }
  assert (accepted peer delta) as Hacc by (apply (signed_accepted peer delta seed); congruence).
  pose proof (apply_outcome_spec peer delta later) as Ho.
  destruct (apply peer delta later) as [[peer' emitted] r]. destruct Ho as [Ho _].
  destruct (Ho Hacc) as (-> & _ & Hst & _). rewrite Hdb in Hst.
  destruct (Hst (conj Hmerge Hz)) as (-> & Hn & Hnode & _). clear Hst Ho.
  rewrite wrap_u64_small in Hn |- * by (unfold u64_ok; lia).
  exists peer'. rewrite Hn. split_and!; [done|lia..|done].
Qed.

(** C13: A Delta produced by a device with a fresh key is taken by every peer that has not
    revoked the device and knows the schema it wrote under, provided the peer can
    merge the document and store the payload; afterwards both clocks are ordered:
    the peer's is past the Delta's, the Delta's is past the writer's old one. *)
Theorem produced_delta_merges (e peer : CrdtEngine) (seed b : bytes) (prio : PriorityClass)
    (parents : list DeltaId) (tags : list DeltaTag) (now later : Z) (e' : CrdtEngine) (delta : Delta) :
  secret_key e = seed -> author_did e = Did.derive_did (ed_public seed) ->
  produce_delta_with_tags e b prio parents tags now = (e', Ok delta) ->
  0 <= lamport e < 2 ^ 64 - 2 -> 0 <= lamport peer < 2 ^ 64 - 1 ->
  author_did e ∉ revoked_dids peer -> known_schema_hash e ∈ known_schemas peer ->
  (forall d, load_incoming_doc b = Some d -> (am_merge (doc peer) d).2 = None) ->
  exists peer', apply peer delta later = (peer', [], Ok (Merged (lamport peer'))) /\
    lamport e < d_lamport delta < lamport peer' /\ lamport peer < lamport peer' /\
    is_Some (Dag.dag_nodes (dag peer') !! d_id delta).
Proof. by apply produced_delta_merges_spec. Qed.

(** ** Causal descent of local writes *)

Definition tips (db : Dag.Tables) : list N :=
  filter (fun id => Dag.children db id = []) (Dag.topological_sort db).

Lemma children_nil db x : Dag.children db x = [] <-> forall c, (x, c) ∉ Dag.dag_edges db.
Proof.
  assert (forall c, c ∈ Dag.children db x <-> (x, c) ∈ Dag.dag_edges db) as Hc.
  { intros c. unfold Dag.children. rewrite select_perm. apply elem_of_children_in. }
  split.
  - intros Hn c. rewrite <- Hc, Hn. apply not_elem_of_nil.
  - intros Hn. destruct (Dag.children db x) as [|c l]; [done|]. exfalso. eapply Hn, Hc. by left.
Qed.

Lemma tips_cover db rank x :
  Dag.wf db -> Z.of_nat (length (Dag.dag_edges db)) < 2 ^ 64 -> Dag.ranked_by db rank ->
  x ∈ Dag.node_ids db -> exists t, t ∈ tips db /\ Dag.reachable (Dag.dag_edges db) x t.
Proof.
  intros Hwf HE Hr. destruct (Dag.topological_sort_spec db Hwf HE) as (Hnd & Hpf & _).
  pose proof (Dag.topological_sort_ranked db rank Hwf HE Hr) as Hperm.
  intros Hx. rewrite <- Hperm in Hx. apply list_elem_of_lookup in Hx as [i Hi].
  remember (length (Dag.topological_sort db) - i)%nat as n eqn:Hn. revert i x Hi Hn.
  induction (lt_wf n) as [n _ IH]. intros i x Hi Hn.
  destruct (Dag.children db x) as [|c l] eqn:Hc.
  - exists x. split; [|apply rtc_refl]. apply list_elem_of_filter. split; [done|]. by eapply list_elem_of_lookup_2.
  - assert ((x, c) ∈ Dag.dag_edges db) as He.
    { assert (c ∈ Dag.children db x) as Hin by (rewrite Hc; by left).
      unfold Dag.children in Hin. rewrite select_perm in Hin. by apply elem_of_children_in in Hin. }
    assert (c ∈ Dag.topological_sort db) as Hcs.
    { rewrite Hperm. apply Dag.elem_of_node_ids. by eapply Dag.wf_child. }
    apply list_elem_of_lookup in Hcs as [j Hj].
    pose proof (Hpf j c Hj x He) as Hxj. apply list_elem_of_lookup in Hxj as [i' Hi'].
    apply lookup_take_Some in Hi' as [Hi' Hlt].
    assert (i = i') as <- by (by eapply NoDup_lookup).
    pose proof (lookup_lt_Some _ _ _ Hj). pose proof (lookup_lt_Some _ _ _ Hi).
    destruct (IH (length (Dag.topological_sort db) - j)%nat ltac:(lia) j c Hj eq_refl) as (t & Ht & Hrt).
    exists t. split; [done|]. eapply rtc_l; [exact He|exact Hrt].
Qed.

(** Storing a fresh node under stored parents keeps the ranks. *)
Lemma ranked_insert db node db' rank :
  Dag.insert zstd_encode db node = (db', Ok tt) -> Dag.wf db -> Dag.ranked_by db rank ->
  Dag.dag_nodes db !! Dag.delta_id node = None ->
  (forall p, p ∈ Dag.parent_ids node -> p ∈ Dag.node_ids db) ->
  exists rank', Dag.ranked_by db' rank'.
Proof.
  intros Hi Hwf Hr Hfresh Hps.
  set (top := foldr (fun x m => rank x `max` m)%nat 0%nat (Dag.node_ids db)).
  assert (forall x, x ∈ Dag.node_ids db -> (rank x <= top)%nat) as Htop.
  { unfold top. clear. induction (Dag.node_ids db) as [|y l IH]; intros x Hx; [by apply not_elem_of_nil in Hx|].
    cbn [foldr]. apply elem_of_cons in Hx as [->|Hx]; [lia|]. specialize (IH x Hx). lia. }
  assert (forall x, x ∈ Dag.node_ids db -> x <> Dag.delta_id node) as Hne.
  { intros x Hx ->. apply Dag.elem_of_node_ids in Hx. rewrite Hfresh in Hx. by destruct Hx. }
  exists (fun x => if decide (x = Dag.delta_id node) then S top else rank x).
  intros p c He. rewrite (Dag.insert_edges _ _ _ _ Hi) in He.
  assert (p ∈ Dag.node_ids db /\ ((rank p < rank c)%nat /\ c <> Dag.delta_id node \/ c = Dag.delta_id node)) as [Hp Hc].
  { apply Dag.elem_of_foldl_edges in He as [He|[-> He]].
    - destruct (Hr _ _ He). split; [done|]. left. split; [done|]. apply Hne, Dag.elem_of_node_ids.
      by eapply Dag.wf_child.
    - split; [by apply Hps|by right]. }
  split.
  - apply Dag.elem_of_node_ids, (Dag.insert_nodes _ _ _ _ _ Hi). left. by apply Dag.elem_of_node_ids.
  - rewrite (decide_False (P := p = _)) by by apply Hne.
    destruct Hc as [[Hlt Hc]| ->]; [by rewrite decide_False|]. rewrite decide_True by done.
    specialize (Htop _ Hp). lia.
Qed.

(** C8: A local write without explicit parents descends from everything the device has
    stored, when every stored node has its parents stored and lies on no cycle: the
    contamination walk from any stored Delta reaches the new one, and the new Delta
    is the only tip, so that the next write hangs below it. *)
Theorem write_descends (e : CrdtEngine) (b : bytes) (prio : PriorityClass) (tags : list DeltaTag)
    (now : Z) (e' : CrdtEngine) (delta : Delta) (rank : N -> nat) :
  Dag.wf (dag e) -> Dag.ranked_by (dag e) rank ->
  Z.of_nat (length (Dag.dag_edges (dag e'))) < 2 ^ 64 ->
  produce_delta_with_tags e b prio [] tags now = (e', Ok delta) ->
  Dag.dag_nodes (dag e) !! d_id delta = None ->
  (forall x, x ∈ Dag.node_ids (dag e) -> d_id delta ∈ Dag.bfs_descendants (dag e') x) /\
  dag_tips e' = [d_id delta].
Proof.
  intros Hwf Hr HE Hp Hfresh.
  destruct (produce_spec _ _ _ _ _ _ _ _ Hp) as (_ & _ & _ & _ & _ & _ & Hps & _ & _ & g & Hins & He').
  assert (dag e' = g) as Hg by (by rewrite He'). rewrite Hg in *. clear He' Hp.
  pose proof (Dag.insert_edges _ _ _ _ Hins) as Hedges. cbn [Dag.delta_id Dag.parent_ids] in Hedges.
  assert (d_causal_parents delta = tips (dag e)) as Htips by (rewrite Hps; done). rewrite Htips in *. clear Hps.
  assert (Z.of_nat (length (Dag.dag_edges (dag e))) < 2 ^ 64) as HE'.
  { eapply Z.le_lt_trans; [|exact HE]. apply inj_le, submseteq_length, NoDup_submseteq; [apply Hwf|].
    rewrite Hedges. intros [p c] Hpc. apply Dag.elem_of_foldl_edges. by left. }
  assert (forall t, t ∈ tips (dag e) -> t ∈ Dag.node_ids (dag e)) as Hstored.
  { intros t Ht. apply list_elem_of_filter in Ht as [_ Ht].
    by rewrite (Dag.topological_sort_ranked _ rank Hwf HE' Hr) in Ht. }
  destruct (ranked_insert _ _ _ rank Hins Hwf Hr Hfresh) as [rank' Hr']; [by cbn [Dag.parent_ids]; rewrite ?Htips|].
  assert (Dag.wf g) as Hwf' by (epose proof (Dag.insert_wf zstd_encode (dag e) _ Hwf) as Hw; by rewrite Hins in Hw).
  assert (forall x, x ∈ Dag.node_ids (dag e) -> Dag.reachable (Dag.dag_edges g) x (d_id delta)) as Hreach.
  { intros x Hx. destruct (tips_cover _ rank x Hwf HE' Hr Hx) as (t & Ht & Hxt). rewrite Hedges.
    eapply rtc_r; [eapply rtc_subrel; [|exact Hxt]|].
    - intros p c Hpc. apply Dag.elem_of_foldl_edges. by left.
    - apply Dag.elem_of_foldl_edges. by right. }
  split.
  - intros x Hx. destruct (@Dag.descend_spec Dag.Tables Dag.native_dag g x) as (_ & _ & _ & Hd).
    apply Hd. by apply Hreach.
  - unfold dag_tips. fold (tips (dag e')). rewrite Hg.
    assert (forall t, t ∈ tips g <-> t = d_id delta) as Hone.
    { intros t. unfold tips. rewrite list_elem_of_filter, children_nil.
      rewrite (Dag.topological_sort_ranked _ rank' Hwf' HE Hr'), Dag.elem_of_node_ids.
      rewrite (Dag.insert_nodes _ _ _ _ _ Hins). cbn [Dag.delta_id]. split; [|intros ->].
      - intros [Hc [Hn| ->]]; [|done]. apply Dag.elem_of_node_ids in Hn.
        destruct (rtc_inv _ _ (Hreach t Hn)) as [->|(c & Htc & _)]; [done|]. by apply Hc in Htc.
      - split; [|by right]. intros c Hc. rewrite Hedges in Hc. apply Dag.elem_of_foldl_edges in Hc as [Hc|[-> Hc]].
        + destruct (Hr _ _ Hc) as [Hn _]. apply Dag.elem_of_node_ids in Hn. rewrite Hfresh in Hn. by destruct Hn.
        + apply Hstored, Dag.elem_of_node_ids in Hc. rewrite Hfresh in Hc. by destruct Hc. }
    assert (NoDup (tips g)) as Hnd by (apply NoDup_filter, (Dag.topological_sort_spec g Hwf' HE)).
    apply Permutation_singleton_r, NoDup_Permutation; [done|apply NoDup_singleton|].
    intros t. by rewrite Hone, list_elem_of_singleton.
Qed.

(** ** Histories *)

Inductive EngineOp :=
| OpWrite (table key : string) (value : Json)
| OpProduce (b : bytes) (priority : PriorityClass) (parents : list DeltaId) (tags : list DeltaTag) (now : Z)
| OpApply (delta : Delta) (now : Z)
| OpRegister (hash : SchemaIdentifierHash) (schema : Schema)
| OpSetCurrent (hash : SchemaIdentifierHash)
| OpAddKnown (hash : SchemaIdentifierHash)
| OpRevoke (did : Did)
| OpCompact (table : string).

Definition exec (e : CrdtEngine) (op : EngineOp) : CrdtEngine :=
  match op with
  | OpWrite table key value => (write_scalar e table key value).1
  | OpProduce b priority parents tags now => (produce_delta_with_tags e b priority parents tags now).1
  | OpApply delta now => (apply e delta now).1.1
  | OpRegister hash schema => (register_schema_definition e hash schema).1
  | OpSetCurrent hash => set_current_schema e hash
  | OpAddKnown hash => add_known_schema e hash
  | OpRevoke did => mark_did_revoked e did
  | OpCompact table => (maybe_compact e table (compaction_policy_for e table)).1
  end.

Definition run (e : CrdtEngine) (ops : list EngineOp) : CrdtEngine := foldl exec e ops.

Definition consistent (e : CrdtEngine) : Prop :=
  (forall h s, schema_definitions e !! h = Some s -> identifier_hash sha256 s = h) /\
  known_schema_hash e ∈ known_schemas e.

Definition schemas_of (e : CrdtEngine) :=
  (known_schema_hash e, known_schemas e, schema_definitions e).

(** An additive hash has a registered definition that extends the current one. *)
Lemma additive_extends e h :
  classify_incoming_schema e h = Additive ->
  h ∉ known_schemas e /\ exists local incoming,
    schema_definitions e !! known_schema_hash e = Some local /\
    schema_definitions e !! h = Some incoming /\ extends local incoming /\ ~ extends incoming local.
Proof.
  unfold classify_incoming_schema. case_bool_decide as Hk; [done|]. split; [done|].
  destruct (schema_definitions e !! known_schema_hash e) as [local|]; [|done].
  destruct (schema_definitions e !! h) as [incoming|]; [|done].
  destruct (is_additive (diff_schemas local incoming)) eqn:Ha; [|by destruct (is_breaking _)].
  rewrite additive_split in Ha. apply andb_true_iff in Ha as [Hid%negb_true_iff Hbr%negb_true_iff].
  apply breaking_extends in Hbr. exists local, incoming. split_and!; [done..|].
  intros Hext. by rewrite (proj2 (identical_extends local incoming) (conj Hbr Hext)) in Hid.
Qed.

Lemma insert_dag_node_rows e delta id row :
  Dag.dag_nodes (dag (insert_dag_node e delta).1) !! id = Some row ->
  Dag.dag_nodes (dag e) !! id = Some row \/ (id = d_id delta /\ Dag.r_author_did row = d_author_did delta).
Proof.
  unfold insert_dag_node, Dag.insert, Dag.compress_payload. cbn.
  destruct (zstd_encode _); cbn; [|by left]. destruct (Dag.dag_nodes (dag e) !! d_id delta); [by left|].
  destruct (decide (d_id delta = id)) as [<-|Hne].
  - rewrite lookup_insert_eq. intros [= <-]. by right.
  - rewrite lookup_insert_ne by done. by left.
Qed.

(** What a Delta changes besides the document, the clock and the records. *)
Lemma apply_frame e delta now :
  let e' := (apply e delta now).1.1 in
  author_did e' = author_did e /\ known_schema_hash e' = known_schema_hash e /\
  schema_definitions e' = schema_definitions e /\
  (known_schemas e' = known_schemas e \/
   accepted e delta /\ classify_incoming_schema e (d_schema_hash delta) = Additive /\
   known_schemas e' = {[d_schema_hash delta]} ∪ known_schemas e) /\
  (forall id row, Dag.dag_nodes (dag e') !! id = Some row ->
     Dag.dag_nodes (dag e) !! id = Some row \/
     accepted e delta /\ id = d_id delta /\ Dag.r_author_did row = d_author_did delta).
Proof.
  clear sha256 json_to_string hex_encode.
  cbn zeta. unfold apply. destruct (gate_spec e delta) as [[Hacc [pk ->]]|[Hacc [(c & r & ->)|[r ->]]]]; cbn;
    [|split_and!; by auto..].
  set (e0 := if match classify_incoming_schema _ _ with Additive => true | _ => false end then _ else e).
  assert (author_did e0 = author_did e /\ known_schema_hash e0 = known_schema_hash e /\
    schema_definitions e0 = schema_definitions e /\ dag e0 = dag e /\
    (known_schemas e0 = known_schemas e \/ classify_incoming_schema e (d_schema_hash delta) = Additive /\
       known_schemas e0 = {[d_schema_hash delta]} ∪ known_schemas e)) as (Fa & Fk & Fd & Fg & Fs).
  { unfold e0. destruct (classify_incoming_schema e (d_schema_hash delta)); cbn; auto 10. }
  clearbody e0. destruct (merge_document e0 delta) as [e1 [[]|err]] eqn:Hm;
    rewrite (merge_document_frame _ _ _ _ Hm); cbn; [|rewrite Fg; split_and!; by naive_solver].
  match goal with |- context [insert_dag_node ?x delta] => set (e2 := x) end.
  pose proof (insert_dag_node_rows e2 delta) as Hrows.
  destruct (insert_dag_node e2 delta) as [e3 [[]|err]] eqn:Hi; cbn [fst] in *;
    destruct (insert_dag_node_frame _ _ _ _ Hi) as (He3 & _);
    (split_and!; [rewrite He3; cbn; done..|rewrite He3; cbn; by naive_solver|];
     intros id row Hrow; destruct (Hrows _ _ Hrow) as [Hin|[? ?]]; [left; rewrite <- Fg; exact Hin|by right]).
Qed.

Lemma write_scalar_frame e table key value :
  (write_scalar e table key value).1 = set_doc e (doc (write_scalar e table key value).1).
Proof. unfold write_scalar. repeat case_match; by destruct e. Qed.

Lemma compact_rows e table id row :
  Dag.dag_nodes (dag (compact_table e table)) !! id = Some row ->
  exists row0, Dag.dag_nodes (dag e) !! id = Some row0 /\ Dag.r_author_did row0 = Dag.r_author_did row /\
    Dag.r_payload row0 = Dag.r_payload row /\ Dag.r_delta_bytes row0 = Dag.r_delta_bytes row.
Proof.
  unfold compact_table. destruct (am_save (doc e)) as [d1 b1], (am_save d1) as [d2 b2]. cbn.
  rewrite lookup_fmap. destruct (Dag.dag_nodes (dag e) !! id) as [row0|]; [|done]. cbn. intros [= <-].
  exists row0. by destruct (Dag.r_compacted row0 =? 0).
Qed.

Lemma maybe_compact_frame e table policy :
  let e' := (maybe_compact e table policy).1 in
  author_did e' = author_did e /\ schemas_of e' = schemas_of e /\
  (forall id row, Dag.dag_nodes (dag e') !! id = Some row ->
     exists row0, Dag.dag_nodes (dag e) !! id = Some row0 /\ Dag.r_author_did row0 = Dag.r_author_did row).
Proof.
  clear zstd_encode to_json sha256 delta_to_json json_to_string error_to_string hex_encode.
  cbn zeta. unfold maybe_compact. destruct (am_get_changes (doc e)) as [d cs].
  destruct (should_compact policy _); cbn [fst]; [|split_and!; [done|done|eauto]].
  split_and!; [unfold compact_table; by destruct (am_save _) as [d1 b1], (am_save d1)..|].
  intros id row Hrow. destruct (compact_rows _ _ _ _ Hrow) as (row0 & ? & ? & _). by exists row0.
Qed.

Lemma produce_frame e b prio parents tags now :
  let e' := (produce_delta_with_tags e b prio parents tags now).1 in
  author_did e' = author_did e /\ schemas_of e' = schemas_of e /\
  (forall id row, Dag.dag_nodes (dag e') !! id = Some row ->
     Dag.dag_nodes (dag e) !! id = Some row \/ Dag.r_author_did row = author_did e).
Proof.
  cbn zeta. unfold produce_delta_with_tags, Keypair.sign. cbn zeta.
  match goal with |- context [insert_dag_node ?x ?y] =>
    pose proof (insert_dag_node_rows x y) as Hrows; destruct (insert_dag_node x y) as [e1 [[]|err]] eqn:Hi end;
  destruct (insert_dag_node_frame _ _ _ _ Hi) as (He1 & _); cbn [fst] in *;
  (split_and!; [by rewrite He1..|]; intros id row Hrow; destruct (Hrows _ _ Hrow) as [?|[_ ?]]; auto).
Qed.

(** One operation: where a new schema or a new row comes from. *)
Lemma exec_frame e op :
  author_did (exec e op) = author_did e /\
  (consistent e -> consistent (exec e op)) /\
  (forall h, h ∈ known_schemas (exec e op) ->
     h ∈ known_schemas e \/ op = OpSetCurrent h \/ op = OpAddKnown h \/
     exists delta now, op = OpApply delta now /\ accepted e delta /\ d_schema_hash delta = h /\
       classify_incoming_schema e h = Additive) /\
  (forall id row, Dag.dag_nodes (dag (exec e op)) !! id = Some row ->
     (exists row0, Dag.dag_nodes (dag e) !! id = Some row0 /\ Dag.r_author_did row0 = Dag.r_author_did row) \/
     Dag.r_author_did row = author_did e \/
     exists delta now, op = OpApply delta now /\ accepted e delta /\ d_id delta = id /\
       d_author_did delta = Dag.r_author_did row).
Proof.
  clear hex_encode.
  destruct op as [table key value|b prio parents tags now|delta now|hash schema|hash|hash|did|table]; cbn [exec].
  - rewrite write_scalar_frame. cbn. split_and!; [done|tauto|auto|eauto].
  - destruct (produce_frame e b prio parents tags now) as (Ha & [= Hk Hs Hd] & Hrows).
    split_and!; [done|unfold consistent; by rewrite Hk, Hs, Hd|intros h; rewrite Hs; auto|].
    intros id row Hrow. destruct (Hrows _ _ Hrow); eauto.
  - destruct (apply_frame e delta now) as (Ha & Hk & Hd & Hs & Hrows). split_and!; [done| | |].
    + unfold consistent. rewrite Hk, Hd. intros [? ?]. split; [done|].
      destruct Hs as [->|(_ & _ & ->)]; set_solver.
    + intros h. destruct Hs as [->|(Hacc & Hc & ->)]; [auto|]. intros [->%elem_of_singleton|?]%elem_of_union; [|auto].
      right; right; right. by exists delta, now.
    + intros id row Hrow. destruct (Hrows _ _ Hrow) as [?|(? & -> & ?)]; [eauto|]. right; right. by exists delta, now.
  - unfold register_schema_definition. destruct (decide _) as [<-|]; cbn; [|split_and!; eauto].
    split_and!; [done| |auto|eauto]. unfold consistent. cbn. intros [Hd Hk]. split; [|done].
    intros h s. destruct (decide (identifier_hash sha256 schema = h)) as [<-|Hne].
    + rewrite lookup_insert_eq. by intros [= <-].
    + rewrite lookup_insert_ne by done. by apply Hd.
  - cbn. split_and!; [done| | |eauto].
    + unfold consistent. cbn. intros [? ?]. split; [done|]. set_solver.
    + intros h [->%elem_of_singleton|?]%elem_of_union; auto.
  - cbn. split_and!; [done| | |eauto].
    + unfold consistent. cbn. intros [? ?]. split; [done|]. set_solver.
    + intros h [->%elem_of_singleton|?]%elem_of_union; auto.
  - cbn. split_and!; [done|tauto|auto|eauto].
  - destruct (maybe_compact_frame e table (compaction_policy_for e table)) as (Ha & [= Hk Hs Hd] & Hrows).
    split_and!; [done|unfold consistent; by rewrite Hk, Hs, Hd|intros h; rewrite Hs; auto|eauto].
Qed.

(** No operation takes a DID out of the revoked ones. *)
Lemma exec_revoked e op : revoked_dids e ⊆ revoked_dids (exec e op).
Proof.
  clear hex_encode.
  destruct op as [table key value|b prio parents tags now|delta now|hash schema|hash|hash|did|table]; cbn [exec].
  - by rewrite write_scalar_frame.
  - unfold produce_delta_with_tags, Keypair.sign. cbn zeta.
    match goal with |- context [insert_dag_node ?x ?y] => destruct (insert_dag_node x y) as [e1 [[]|err]] eqn:Hi end;
    destruct (insert_dag_node_frame _ _ _ _ Hi) as (He1 & _); by rewrite He1.
  - unfold apply. destruct (gate e delta) as [c r|r|pk adopt]; [done..|].
    set (e0 := if adopt then _ else e). assert (revoked_dids e0 = revoked_dids e) as <- by (by destruct adopt).
    destruct (merge_document e0 delta) as [e1 [[]|err]] eqn:Hm; rewrite (merge_document_frame _ _ _ _ Hm); [|done].
    match goal with |- context [insert_dag_node ?x ?y] => destruct (insert_dag_node x y) as [e2 [[]|err]] eqn:Hi end;
    destruct (insert_dag_node_frame _ _ _ _ Hi) as (He1 & _); by rewrite He1.
  - unfold register_schema_definition. by destruct (decide _).
  - done.
  - done.
  - apply union_subseteq_r.
  - unfold maybe_compact. destruct (am_get_changes (doc e)) as [d cs]. destruct (should_compact _ _); [|done].
    unfold compact_table. by destruct (am_save _) as [d1 b1], (am_save d1).
Qed.

Lemma run_snoc e ops op : run e (ops ++ [op]) = exec (run e ops) op.
Proof. unfold run. by rewrite foldl_app. Qed.

Lemma run_consistent sk pk did h0 docs ops :
  let e := run (new sk pk did h0 Dag.empty_tables docs) ops in
  author_did e = did /\ consistent e.
Proof.
  cbn zeta. induction ops as [|op ops IH] using rev_ind.
  - split; [done|]. split; [|cbn; set_solver]. intros h s. cbn. by rewrite lookup_empty.
  - rewrite run_snoc. destruct IH as [IHa IHc].
    destruct (exec_frame (run (new sk pk did h0 Dag.empty_tables docs) ops) op) as (-> & Hc & _). auto.
Qed.

(** C6: after any history of a fresh engine: every registered definition hashes to its
    key and the current schema is accepted; every accepted schema is the initial one,
    one the host declared, or that of a Delta that passed the gates, whose registered
    definition extends the one that was current at that moment; and every node of the
    DAG was written by this device or belongs to a Delta whose author was not revoked
    and whose signature verified when it arrived. *)
Theorem engine_history_sound (sk pk : bytes) (did : Did) (h0 : SchemaIdentifierHash)
    (docs : gmap string bytes) (ops : list EngineOp) :
  let e0 := new sk pk did h0 Dag.empty_tables docs in
  let e := run e0 ops in
  consistent e /\
  (forall h, h ∈ known_schemas e -> h = h0 \/ OpSetCurrent h ∈ ops \/ OpAddKnown h ∈ ops \/
     exists pre delta now post local incoming, ops = pre ++ OpApply delta now :: post /\
       accepted (run e0 pre) delta /\ d_schema_hash delta = h /\
       schema_definitions (run e0 pre) !! known_schema_hash (run e0 pre) = Some local /\
       identifier_hash sha256 incoming = h /\ extends local incoming /\ ~ extends incoming local) /\
  (forall id row, Dag.dag_nodes (dag e) !! id = Some row -> Dag.r_author_did row = did \/
     exists pre delta now post, ops = pre ++ OpApply delta now :: post /\
       accepted (run e0 pre) delta /\ d_id delta = id /\ d_author_did delta = Dag.r_author_did row).
Proof.
  clear hex_encode.
  cbn zeta. set (e0 := new sk pk did h0 Dag.empty_tables docs).
  split; [apply run_consistent|].
  induction ops as [|op ops IH] using rev_ind.
  { split; [intros h Hh; left; cbn in Hh; set_solver|]. intros id row Hrow. cbn in Hrow. by rewrite lookup_empty in Hrow. }
  destruct (run_consistent sk pk did h0 docs ops) as [Hdid [Hdef _]]. fold e0 in Hdid, Hdef. rewrite run_snoc.
  destruct (exec_frame (run e0 ops) op) as (_ & _ & Hk & Hrows). destruct IH as [IHk IHr]. split.
  - intros h Hh. destruct (Hk h Hh) as [Hin|[->|[->|(delta & now & -> & Hacc & Hdh & Hcl)]]].
    + destruct (IHk h Hin) as [?|[?|[?|(pre & delta & now & post & local & incoming & -> & Hrest)]]]; [by left|set_solver..|].
      right; right; right. exists pre, delta, now, (post ++ [op]), local, incoming.
      split; [|done]. by rewrite <- app_assoc.
    + set_solver.
    + set_solver.
    + right; right; right. destruct (additive_extends _ _ Hcl) as (_ & local & incoming & Hl & Hi & Hext & Hnext).
      exists ops, delta, now, [], local, incoming. split_and!; try done. by apply Hdef.
  - intros id row Hrow. destruct (Hrows id row Hrow) as [(row0 & Hrow0 & Heq)|[Hown|(delta & now & -> & Hacc & Hid & Hau)]].
    + destruct (IHr id row0 Hrow0) as [Hown|(pre & delta & now & post & -> & Hacc & Hid & Hau)]; [left; congruence|].
      right. exists pre, delta, now, (post ++ [op]). split_and!; [by rewrite <- app_assoc|done|done|congruence].
    + left. congruence.
    + right. by exists ops, delta, now, [].
Qed.

(** ** Writing and reading back *)

Lemma put_root_ok d k v d' : put_root d k v = (d', Ok tt) -> am_put d k v = (d', None).
Proof. unfold put_root. destruct (am_put d k v) as [d0 [err|]]; [done|]. by intros [= ->]. Qed.

(** What a successful write saves: the row under its key, the routing keys, the rest as it was. *)
Lemma write_scalar_doc (Hlaws : AutomergeLaws) (e : CrdtEngine) (table key : string) (value : Json)
    (e' : CrdtEngine) (b : bytes) :
  write_scalar e table key value = (e', Ok b) ->
  exists v d, scalar_of_json value = Ok v /\ e' = set_doc e (am_save d).1 /\ b = (am_save d).2 /\
    (forall sv, v = Some sv -> exists id, am_get d key = Some (VScalar sv, id)) /\
    (key <> "_tirbase_table" -> exists id, am_get d "_tirbase_table" = Some (VScalar (SStr table), id)) /\
    (key <> "_tirbase_key" -> exists id, am_get d "_tirbase_key" = Some (VScalar (SStr key), id)) /\
    (forall k, k <> key -> k <> "_tirbase_table" -> k <> "_tirbase_key" -> am_get d k = am_get (doc e) k).
Proof.
  unfold write_scalar. intros Heq.
  destruct (put_root (doc e) _ _) as [d1 [[]|err]] eqn:Hp1; [|done].
  destruct (put_root d1 _ _) as [d2 [[]|err]] eqn:Hp2; [|done].
  apply put_root_ok in Hp1, Hp2.
  assert (forall k, k <> "_tirbase_table" -> am_get d1 k = am_get (doc e) k) as Ho1
    by (intros k Hk; pose proof (am_put_other (doc e) "_tirbase_table" (SStr table) k Hk) as Hp; by rewrite Hp1 in Hp).
  assert (forall k, k <> "_tirbase_key" -> am_get d2 k = am_get d1 k) as Ho2
    by (intros k Hk; pose proof (am_put_other d1 "_tirbase_key" (SStr key) k Hk) as Hp; by rewrite Hp2 in Hp).
  destruct (am_put_get _ _ _ _ Hp1) as [id1 Hg1]. destruct (am_put_get _ _ _ _ Hp2) as [id2 Hg2].
  destruct (scalar_of_json value) as [v|err] eqn:Hv; [|done].
  assert (exists d3, (forall k, k <> key -> am_get d3 k = am_get d2 k) /\
    (forall sv, v = Some sv -> exists id, am_get d3 key = Some (VScalar sv, id)) /\
    e' = set_doc e (am_save d3).1 /\ b = (am_save d3).2) as (d3 & Ho3 & Hg3 & -> & ->).
  { destruct v as [sv|].
    - destruct (put_root d2 key sv) as [d3 [[]|err]] eqn:Hp3; [|done]. apply put_root_ok in Hp3. exists d3. split_and!.
      + intros k Hk. pose proof (am_put_other d2 key sv k Hk) as Hp. by rewrite Hp3 in Hp.
      + intros sv' [= <-]. by apply am_put_get in Hp3.
      + destruct (am_save d3). by injection Heq as <- <-.
      + destruct (am_save d3). by injection Heq as <- <-.
    - exists d2. split_and!; [done|done|..]; destruct (am_save d2); by injection Heq as <- <-. }
  exists v, d3. split_and!; [done..| | |].
  - intros Hk. exists id1. by rewrite Ho3, Ho2 by done.
  - intros Hk. exists id2. by rewrite Ho3.
  - intros k Hk Hkt Hkk. by rewrite Ho3, Ho2, Ho1 by done.
Qed.

Lemma read_scalar_get e k sv id :
  am_get (doc e) k = Some (VScalar sv, id) ->
  match sv with SBytes _ | SCounter _ | STimestamp _ | SUnknown _ _ => True
  | _ => read_scalar e k = Some (json_of_scalar sv) end.
Proof. intros Hget. unfold read_scalar. rewrite Hget. by destruct sv. Qed.

(** A successful write is read back under its key as the value that was written
    (a number as the scalar it is stored as, a list or an object as its text); the
    table and key of the last write stand in the routing keys unless the row key is
    one of them; every other key of the document keeps its value.  Nothing separates
    the tables: the row is stored under the bare key. *)
Theorem write_read (Hlaws : AutomergeLaws) (e : CrdtEngine) (table key : string) (value : Json)
    (e' : CrdtEngine) (b : bytes) :
  write_scalar e table key value = (e', Ok b) ->
  (match scalar_of_json value with
   | Ok (Some sv) => read_scalar e' key = Some (json_of_scalar sv)
   | Ok None => True
   | Err _ => False
   end) /\
  (key <> "_tirbase_table" -> read_scalar e' "_tirbase_table" = Some (JString table)) /\
  (key <> "_tirbase_key" -> read_scalar e' "_tirbase_key" = Some (JString key)) /\
  (forall k, k <> key -> k <> "_tirbase_table" -> k <> "_tirbase_key" ->
     read_scalar e' k = read_scalar e k).
Proof.
  intros (v & d & Hv & -> & _ & Hg & Ht & Hkey & Ho)%write_scalar_doc; [|done].
  assert (forall k sv id, am_get d k = Some (VScalar sv, id) ->
    match sv with SBytes _ | SCounter _ | STimestamp _ | SUnknown _ _ => True
    | _ => read_scalar (set_doc e (am_save d).1) k = Some (json_of_scalar sv) end) as Hread.
  { intros k sv id Hget. apply (read_scalar_get (set_doc e (am_save d).1) k sv id). cbn. by rewrite am_save_get. }
  rewrite Hv. split_and!.
  - destruct v as [sv|]; [|done]. destruct (Hg sv eq_refl) as [id Hget]. specialize (Hread key sv id Hget).
    destruct sv; try done; exfalso; clear -Hv; destruct value; cbn in Hv; repeat case_match; congruence.
  - intros Hk. destruct (Ht Hk) as [id Hget]. apply (Hread _ _ _ Hget).
  - intros Hk. destruct (Hkey Hk) as [id Hget]. apply (Hread _ _ _ Hget).
  - intros k Hk Hkt Hkk. unfold read_scalar. cbn. by rewrite am_save_get, Ho.
Qed.

End Crdt.

(** ** Concrete engines

    Registers for documents, the toy codec and signatures of [Identity], integers for
    numbers. *)

Definition toy_json : SerdeJson := {|
  Number := Z;
  as_i64 z := if (- 2 ^ 63 <=? z) && (z <? 2 ^ 63) then Some z else None;
  as_u64 z := if (0 <=? z) && (z <? 2 ^ 64) then Some z else None;
  as_f64 z := Some (binary_normalize 53 1024 z 0 false);
  number_from_int z := z;
  number_from_f64 _ := None
|}.

Section Witnesses.
#[local] Existing Instance Registers.registers.
#[local] Existing Instance toy_bs58.
#[local] Existing Instance toy_ed25519.
#[local] Existing Instance select_canonical.
#[local] Existing Instance hash_iter_canonical.
#[local] Existing Instance toy_json.

Let to_json (c : CanonicalDeltaPayload) : bytes :=
  (Z.to_N (c_lamport c) :: c_automerge_bytes c ++ c_causal_parents c)%N.
Let sha (b : bytes) : N := foldl (fun a x => 256 * a + x + 1)%N 0%N b.
Let msg (_ : TirBaseError) : string := "error".
Let engine (n : N) : CrdtEngine :=
  new (replicate 32 n) [n] (Did.derive_did (ed_public (replicate 32 n))) 7 Dag.empty_tables ∅.
Let put_int (e : CrdtEngine) (k : string) (z : Z) : CrdtEngine := set_doc e (am_put (doc e) k (SInt z)).1.
Let produce (e : CrdtEngine) := produce_delta_with_tags Ok to_json sha (fun _ => None) e (am_save (doc e)).2 Low [] [] 0.
Let produced (r : CrdtEngine * Res Delta) : Delta :=
  match r.2 with Ok d => d | Err _ => mkDelta 0 "" [] 0 [] Low [] [] 0 0 end.
Let receive (e : CrdtEngine) (d : Delta) := apply Ok to_json (fun _ => None) msg e d 0.

(** Device 2 writes [k = 10]; device 1 takes it. *)
Let b1 := produce (put_int (engine 2) "k" 10).
Let a1 := (receive (engine 1) (produced b1)).1.1.

Lemma produced_delta_merges_witness :
  exists peer', receive (engine 1) (produced b1) = (peer', [], Ok (Merged 2)) /\
    is_Some (Dag.dag_nodes (dag peer') !! d_id (produced b1)).
Proof.
  destruct (produced_delta_merges Ok to_json sha (fun _ => None) msg (put_int (engine 2) "k" 10) (engine 1)
    (replicate 32 2%N) (am_save (doc (put_int (engine 2) "k" 10))).2 Low [] [] 0 0 b1.1 (produced b1))
    as (peer' & Hp & Hl & _ & Hn).
  - reflexivity.
  - reflexivity.
  - vm_compute; reflexivity.
  - vm_compute; split; congruence.
  - vm_compute; split; congruence.
  - apply (bool_decide_unpack _); vm_compute; reflexivity.
  - apply (bool_decide_unpack _); vm_compute; reflexivity.
  - intros d Hd. reflexivity.
  - exists peer'. split; [|exact Hn]. unfold receive. rewrite Hp.
    assert (lamport (receive (engine 1) (produced b1)).1.1 = 2) as Hl2 by (vm_compute; reflexivity).
    unfold receive in Hl2. rewrite Hp in Hl2. cbn [fst] in Hl2. rewrite Hl2. reflexivity.
Defined.
(** Device 1 has stored the Delta of device 2 and writes: the write descends from it. *)
Let a2 := produce (put_int a1 "k" 11).

Lemma a1_rows : dag a1 = Dag.mkTables (Dag.dag_nodes (dag a1)) [].
Proof. vm_compute. reflexivity. Qed.

Lemma put_int_dag e k z : dag (put_int e k z) = dag e.
Proof. reflexivity. Qed.

Lemma write_descends_witness :
  d_id (produced b1) ∈ Dag.node_ids (dag a1) /\
  d_id (produced a2) ∈ Dag.bfs_descendants (dag a2.1) (d_id (produced b1)) /\
  dag_tips a2.1 = [d_id (produced a2)].
Proof.
  assert (d_id (produced b1) ∈ Dag.node_ids (dag a1)) as Hin
    by (apply (bool_decide_unpack _); vm_compute; reflexivity).
  split; [exact Hin|].
  destruct (write_descends Ok to_json sha (fun _ => None) (put_int a1 "k" 11) (am_save (doc (put_int a1 "k" 11))).2
    Low [] 0 a2.1 (produced a2) N.to_nat) as [Hd Ht].
  - split.
    + rewrite put_int_dag, a1_rows. constructor.
    + rewrite put_int_dag, a1_rows. intros p c Hpc. exfalso. exact (not_elem_of_nil _ Hpc).
  - rewrite put_int_dag, a1_rows. intros p c Hpc. exfalso. exact (not_elem_of_nil _ Hpc).
  - vm_compute. reflexivity.
  - vm_compute. reflexivity.
  - vm_compute. reflexivity.
  - rewrite put_int_dag in Hd. split; [exact (Hd _ Hin)|exact Ht].
Defined.

Lemma write_read_witness :
  exists e' b, write_scalar (fun _ => None) (engine 1) "users" "1" (JString "ada") = (e', Ok b) /\
    read_scalar (fun _ => "") e' "1" = Some (JString "ada") /\
    read_scalar (fun _ => "") e' "_tirbase_table" = Some (JString "users").
Proof.
  destruct (write_scalar (fun _ => None) (engine 1) "users" "1" (JString "ada")) as [e' [b|err]] eqn:Hw;
    [|exfalso; vm_compute in Hw; discriminate Hw].
  exists e', b. split; [reflexivity|].
  destruct (write_read (fun _ => None) (fun _ => "") Registers.registers_laws _ _ _ _ _ _ Hw) as (Hv & Ht & _).
  split; [exact Hv|apply Ht; discriminate].
Defined.

(** ** Behaviours worth knowing *)

Let read_str (e : CrdtEngine) (k : string) : option string :=
  match read_scalar (fun _ => "") e k with Some (JString s) => Some s | _ => None end.
Let read_int (e : CrdtEngine) (k : string) : option Z :=
  match read_scalar (fun _ => "") e k with Some (JNumber n) => Some n | _ => None end.

(** The key of a row is the key of the document: a row of another table with the
    same key replaces it. *)
Example tables_share_keys :
  let e1 := (write_scalar (fun _ => None) (engine 1) "users" "1" (JString "ada")).1 in
  let e2 := (write_scalar (fun _ => None) e1 "orders" "1" (JString "tea")).1 in
  read_str e1 "1" = Some "ada" /\
  read_str e2 "1" = Some "tea".
Proof. by vm_compute. Qed.

(** An unsigned number past [i64::MAX] is stored as the nearest binary64, although
    [as_u64] would give it exactly. *)
Example large_unsigned_rounded :
  as_u64 (2 ^ 64 - 1) = Some (2 ^ 64 - 1) /\
  scalar_of_json (fun _ => None) (JNumber (2 ^ 64 - 1 : @Number toy_json)) =
    Ok (Some (SF64 (S754_finite false (2 ^ 52) 12))).
Proof. by vm_compute. Qed.

(** Device 1 overwrites the value it received; device 2, which has not seen that,
    writes another key under a greater clock.  Its Delta carries the old value of [k]
    with the rest of its document, and device 1 puts it back over its own write. *)
Example stale_value_returns :
  let b2 := produce (set_lamport (put_int b1.1 "j" 5) 9) in
  let '(e, _, r) := receive a2.1 (produced b2) in
  read_int a2.1 "k" = Some 11 /\
  r = Ok (Merged 11) /\ read_int e "k" = Some 10.
Proof. by vm_compute. Qed.

(** A Delta with the greatest clock sets the clock of its receiver back to zero. *)
Example lamport_wraps :
  let d := produce (set_lamport (put_int (engine 2) "k" 10) (2 ^ 64 - 2)) in
  let '(e, _, r) := receive a1 (produced d) in
  d_lamport (produced d) = 2 ^ 64 - 1 /\ lamport a1 = 2 /\ r = Ok (Merged 0) /\ lamport e = 0.
Proof. by vm_compute. Qed.

(** A Delta whose parent has not arrived is stored but not sorted; its stored parent
    has a child and is no tip either, so the next local write gets no parent and the
    contamination walk from what it was based on does not reach it. *)
Example missing_parent_orphans_writes :
  let orphan := produce_delta_with_tags Ok to_json sha (fun _ => None) b1.1 (am_save (doc b1.1)).2 Low
    [d_id (produced b1); 12345%N] [] 0 in
  let e := (receive a1 (produced orphan)).1.1 in
  let w := produce e in
  d_id (produced b1) ∈ Dag.node_ids (dag e) /\ dag_tips e = [] /\
  d_causal_parents (produced w) = [] /\
  d_id (produced w) ∉ Dag.bfs_descendants (dag w.1) (d_id (produced b1)).
Proof.
  cbn zeta. split_and!; [by apply (bool_decide_unpack _); vm_compute|by vm_compute..|].
  apply (bool_decide_unpack _). by vm_compute.
Qed.
End Witnesses.

End Crdt.
