(* ===== verification/BrowserCrdt.v ===== *)
(** * The CRDT engine of the browser build: the WASM half of [crdt/mod.rs] and [store/compaction.rs]

    Compiled for the browser the engine has no changeset DAG: a local write names no causal
    parents, nothing is stored when a Delta is merged, and a compacted document goes to an
    object store of IndexedDB.  The [CrdtEngine] of this build has no fields for the DAG and the
    tables of compacted documents; the record here is the one of [Crdt], so that the two builds can
    be compared, and its [dag] and [automerge_docs] are placeholders no operation of this file
    reads or writes and no theorem speaks of.  The theorems compare the two builds: the state they
    share evolves alike, the Deltas they sign do not. *)

From S2P Require Import Prelude Types Kahn Dag Identity Schema Automerge Verify Crdt.

(** Saving a document that was just saved changes nothing. *)
Class AutomergeSaveStable `{!Automerge} : Prop :=
  am_save_again : forall d, (am_save (am_save d).1).1 = (am_save d).1.

Module BrowserCrdt.
Import Crdt Verify.

(** [store/indexed_db.rs]: a value of the object store [compaction_snapshots]. *)
Record CompactionSnapshot := mkSnapshot { snapshot_bytes : bytes; compacted_at : Z }.
Abbreviation Snapshots := (gmap string CompactionSnapshot).

Definition put_compaction_snapshot (db : Snapshots) (table : string) (snapshot : CompactionSnapshot) : Snapshots :=
  <[table := snapshot]> db.
Definition get_compaction_snapshot (db : Snapshots) (table : string) : option CompactionSnapshot := db !! table.
Definition delete_compaction_snapshot (db : Snapshots) (table : string) : Snapshots := delete table db.

Section BrowserCrdt.
Context `{!Automerge} `{!Bs58} `{!Ed25519} `{!SelectOrder} `{!HashIter N Z} `{!SerdeJson}.
Context (zstd_encode : bytes -> Res bytes).
Context (to_json : CanonicalDeltaPayload -> bytes) (sha256 : bytes -> N).
Context (delta_to_json : Delta -> option bytes) (json_to_string : Json -> option string).
Context (error_to_string : TirBaseError -> string).

Abbreviation Engine := CrdtEngine.

Definition new (secret_key public_key : bytes) (author_did : Did) (schema_hash : SchemaIdentifierHash) : Engine :=
  Crdt.new secret_key public_key author_did schema_hash Dag.empty_tables ∅.

Definition resolve_causal_parents (explicit : list DeltaId) : list DeltaId :=
  match explicit with [] => [] | _ => explicit end.

Definition insert_dag_node (e : Engine) (delta : Delta) : Engine * Res unit := (e, Ok tt).

Definition produce_delta_with_tags (e : Engine) (automerge_bytes : bytes) (priority : PriorityClass)
    (causal_parents : list DeltaId) (tags : list DeltaTag) (now : Z) : Engine * Res Delta :=
  let e := set_lamport e (wrap_u64 (lamport e + 1)) in
  let parents := resolve_causal_parents causal_parents in
  let delta := mkDelta 0 (author_did e) [] (known_schema_hash e) automerge_bytes priority
    parents tags (lamport e) now in
  let canonical := canonical_bytes to_json delta in
  match Keypair.sign (secret_key e) canonical with
  | Err err => (e, Err err)
  | Ok sig =>
      let delta := Identity.set_signed delta (Identity.compute_id sha256 canonical) sig in
      match insert_dag_node e delta with
      | (e, Ok _) => (e, Ok delta)
      | (e, Err err) => (e, Err err)
      end
  end.

Definition apply (e : Engine) (delta : Delta) (now : Z) : Engine * list DeltaRejectionRecord * Res MergeOutcome :=
  match gate to_json error_to_string e delta with
  | Refuse code reason =>
      let '(e, record) := record_rejection e code delta reason now in
      (e, [record], Ok (Rejected reason))
  | Quarantine reason => (e, [], Ok (Quarantined reason))
  | Pass _ adopt_additive_hash =>
      let e := if adopt_additive_hash then add_known_schema e (d_schema_hash delta) else e in
      match merge_document e delta with
      | (e, Err err) => (e, [], Err err)
      | (e, Ok _) =>
          let e := set_lamport e (wrap_u64 (Z.max (lamport e) (d_lamport delta) + 1)) in
          match insert_dag_node e delta with
          | (e, Err err) => (e, [], Err err)
          | (e, Ok _) => (e, [], Ok (Merged (lamport e)))
          end
      end
  end.

(** [crdt/merge.rs] *)
Definition apply_incoming_delta (e : Engine) (delta : Delta) (now : Z)
  : Engine * list DeltaRejectionRecord * Res MergeOutcome := apply e delta now.

(** ** Compaction: the snapshot is stored, the document stays *)

Definition should_compact_idb (policy : Schema.CompactionPolicy) (change_count : Z) : bool :=
  Schema.should_compact policy change_count.

Definition compact_table_idb (db : Snapshots) (table_name : string) (d : Doc) (now : Z) : Snapshots * Doc :=
  let '(d, snapshot_bytes) := am_save d in
  (put_compaction_snapshot db table_name (mkSnapshot snapshot_bytes now), d).

Definition maybe_compact (e : Engine) (table : string) (policy : Schema.CompactionPolicy) (db : Snapshots) (now : Z)
  : Engine * Snapshots * bool :=
  let '(d, changes) := am_get_changes (doc e) in
  let change_count := wrap_u64 (Z.of_nat (length changes)) in
  if should_compact_idb policy change_count then
    let '(db, d) := compact_table_idb db table d now in (set_doc e d, db, true)
  else (set_doc e d, db, false).

(** ** Histories: the operations of the native engine, carried out by this one *)

Definition exec (e : Engine) (op : EngineOp) : Engine :=
  match op with
  | OpWrite table key value => (write_scalar json_to_string e table key value).1
  | OpProduce b priority parents tags now => (produce_delta_with_tags e b priority parents tags now).1
  | OpApply delta now => (apply e delta now).1.1
  | OpRegister hash schema => (register_schema_definition sha256 e hash schema).1
  | OpSetCurrent hash => set_current_schema e hash
  | OpAddKnown hash => add_known_schema e hash
  | OpRevoke did => mark_did_revoked e did
  | OpCompact table => (maybe_compact e table (compaction_policy_for e table) ∅ 0).1.1
  end.
Definition run (e : Engine) (ops : list EngineOp) : Engine := foldl exec e ops.

(** [convergent_state]: what the builds are said to share. *)
Record ConvergentState := mkConvergent {
  cs_automerge_bytes : bytes;
  cs_lamport : Z;
  cs_known_schema_hash : SchemaIdentifierHash;
  cs_known_schemas : gset SchemaIdentifierHash;
  cs_author_did : Did;
  cs_revoked_dids : gset Did;
  cs_rejection_records : list DeltaRejectionRecord
}.
Definition convergent_state (e : Engine) : ConvergentState :=
  mkConvergent (am_save (doc e)).2 (lamport e) (known_schema_hash e) (known_schemas e) (author_did e)
    (revoked_dids e) (rejection_records e).

(** ** The builds agree on everything but the tables *)

Definition forget (e : Engine) : Engine := set_store e Dag.empty_tables ∅.
Definition same_engine (n b : Engine) : Prop := forget n = forget b.

#[export] Instance same_engine_equivalence : Equivalence same_engine.
Proof. unfold same_engine. split; red; congruence. Qed.

Lemma same_forget e : same_engine e (forget e).
Proof. done. Qed.

(** Everything but [forget] itself and the tables reads through it. *)
Lemma forget_fields n b : same_engine n b ->
  doc n = doc b /\ lamport n = lamport b /\ known_schema_hash n = known_schema_hash b /\
  known_schemas n = known_schemas b /\ schema_definitions n = schema_definitions b /\
  author_did n = author_did b /\ secret_key n = secret_key b /\ revoked_dids n = revoked_dids b /\
  rejection_records n = rejection_records b.
Proof. unfold same_engine, forget, set_store. by intros [=]. Qed.

Ltac same_fields Hsame :=
  let Hf := fresh "Hf" in
  pose proof (forget_fields _ _ Hsame) as Hf; destruct_and? Hf;
  unfold same_engine, forget, set_store, set_doc, set_lamport, set_known, set_definitions, set_revoked, set_records in *;
  cbn in *.

#[export] Instance convergent_state_proper : Proper (same_engine ==> eq) convergent_state.
Proof. intros n b Hs. unfold convergent_state. same_fields Hs. congruence. Qed.

#[export] Instance set_doc_proper : Proper (same_engine ==> eq ==> same_engine) set_doc.
Proof. intros n b Hs d _ <-. same_fields Hs. congruence. Qed.
#[export] Instance set_lamport_proper : Proper (same_engine ==> eq ==> same_engine) set_lamport.
Proof. intros n b Hs d _ <-. same_fields Hs. congruence. Qed.
#[export] Instance set_records_proper : Proper (same_engine ==> eq ==> same_engine) set_records.
Proof. intros n b Hs d _ <-. same_fields Hs. congruence. Qed.
#[export] Instance set_definitions_proper : Proper (same_engine ==> eq ==> same_engine) set_definitions.
Proof. intros n b Hs d _ <-. same_fields Hs. congruence. Qed.
#[export] Instance set_revoked_proper : Proper (same_engine ==> eq ==> same_engine) set_revoked.
Proof. intros n b Hs d _ <-. same_fields Hs. congruence. Qed.
#[export] Instance set_known_proper : Proper (same_engine ==> eq ==> eq ==> same_engine) set_known.
Proof. intros n b Hs d _ <- ks _ <-. same_fields Hs. congruence. Qed.
#[export] Instance rejection_records_same : Proper (same_engine ==> eq) rejection_records.
Proof. intros n b Hs. same_fields Hs. congruence. Qed.
#[export] Instance doc_same : Proper (same_engine ==> eq) doc.
Proof. intros n b Hs. same_fields Hs. congruence. Qed.
#[export] Instance set_store_proper e : Proper (eq ==> eq ==> same_engine) (set_store e).
Proof. by intros g _ <- t _ <-. Qed.

Lemma set_store_same e g t : same_engine (set_store e g t) e.
Proof. done. Qed.

Lemma gate_same n b delta : same_engine n b ->
  gate to_json error_to_string n delta = gate to_json error_to_string b delta.
Proof.
  intros Hs. pose proof (forget_fields _ _ Hs) as (_ & _ & Hk & Hks & Hd & _ & _ & Hr & _).
  unfold gate, classify_incoming_schema. by rewrite Hk, Hks, Hd, Hr.
Qed.

Lemma add_known_same n b h : same_engine n b -> same_engine (add_known_schema n h) (add_known_schema b h).
Proof. intros Hs. unfold add_known_schema. same_fields Hs. congruence. Qed.

Lemma record_rejection_same n b c delta reason now : same_engine n b ->
  same_engine (record_rejection n c delta reason now).1 (record_rejection b c delta reason now).1 /\
  (record_rejection n c delta reason now).2 = (record_rejection b c delta reason now).2.
Proof.
  intros Hs. split; [|done]. unfold record_rejection. cbn [fst]. rewrite (rejection_records_same n b Hs).
  by apply set_records_proper.
Qed.

Lemma merge_document_same n b delta : same_engine n b ->
  same_engine (merge_document n delta).1 (merge_document b delta).1 /\
  (merge_document n delta).2 = (merge_document b delta).2.
Proof.
  intros Hs. pose proof (forget_fields _ _ Hs) as (Hd & Hl & _). unfold merge_document.
  rewrite <- Hd, <- Hl. destruct (load_incoming_doc _) as [their|]; [|done].
  destruct (am_merge (doc n) their) as [d [err|]]; [by rewrite Hs|].
  set (snap := capture_conflicts _ _). destruct (lww snap), (rga snap); try (by rewrite Hs);
    destruct (verify_and_override _ _ _ _) as [d' rs]; by rewrite Hs.
Qed.

Lemma insert_dag_node_same n delta : same_engine (Crdt.insert_dag_node zstd_encode delta_to_json n delta).1 n.
Proof. unfold Crdt.insert_dag_node. by destruct (Dag.insert _ _ _). Qed.

(** ** One operation *)

Lemma write_scalar_same n b table key value : same_engine n b ->
  same_engine (Crdt.write_scalar json_to_string n table key value).1 (Crdt.write_scalar json_to_string b table key value).1 /\
  (Crdt.write_scalar json_to_string n table key value).2 = (Crdt.write_scalar json_to_string b table key value).2.
Proof.
  intros Hs. unfold Crdt.write_scalar. rewrite (doc_same n b Hs).
  repeat (case_match; cbn [fst snd]; try (by rewrite Hs)).
Qed.

Lemma register_same n b h schema : same_engine n b ->
  same_engine (Crdt.register_schema_definition sha256 n h schema).1 (Crdt.register_schema_definition sha256 b h schema).1.
Proof.
  intros Hs. unfold Crdt.register_schema_definition. pose proof (forget_fields _ _ Hs) as (_ & _ & _ & _ & Hd & _).
  case_decide; cbn [fst]; [|done]. rewrite Hd. by apply set_definitions_proper.
Qed.

(** The Deltas the two builds sign differ in their parents only, so in their ids and signatures. *)
Definition same_but_parents (d d' : Delta) : Prop :=
  d_author_did d = d_author_did d' /\ d_schema_hash d = d_schema_hash d' /\
  d_automerge_bytes d = d_automerge_bytes d' /\ d_priority d = d_priority d' /\
  d_tags d = d_tags d' /\ d_lamport d = d_lamport d' /\ d_created_at d = d_created_at d'.

Abbreviation native_produce := (Crdt.produce_delta_with_tags zstd_encode to_json sha256 delta_to_json).
Abbreviation native_apply := (Crdt.apply zstd_encode to_json delta_to_json error_to_string).

Lemma produce_same n b payload priority parents tags now : same_engine n b ->
  same_engine (native_produce n payload priority parents tags now).1
              (produce_delta_with_tags b payload priority parents tags now).1 /\
  exists d', (produce_delta_with_tags b payload priority parents tags now).2 = Ok d' /\
    d_causal_parents d' = parents /\
    forall d, (native_produce n payload priority parents tags now).2 = Ok d ->
      same_but_parents d d' /\ (parents <> [] -> d = d').
Proof.
  intros Hs. pose proof (forget_fields _ _ Hs) as (_ & Hl & Hk & _ & _ & Ha & Hsk & _).
  unfold Crdt.produce_delta_with_tags, produce_delta_with_tags, insert_dag_node, Keypair.sign.
  cbn -[set_lamport Crdt.insert_dag_node]. split.
  - match goal with |- context [Crdt.insert_dag_node ?z ?j ?x ?y] =>
      pose proof (insert_dag_node_same x y) as Hi; destruct (Crdt.insert_dag_node z j x y) as [e1 [[]|err]] end;
    cbn [fst] in *; rewrite Hi, Hl; by apply set_lamport_proper.
  - eexists. split; [reflexivity|]. split; [by destruct parents|]. intros d.
    destruct (Crdt.insert_dag_node _ _ _ _) as [e1 [[]|err]]; [|done]. cbn [snd]. intros [= <-].
    cbn. rewrite Hl, Hk, Ha, Hsk. split; [done|]. by destruct parents.
Qed.

Lemma apply_same n b delta now : same_engine n b ->
  same_engine (native_apply n delta now).1.1 (apply b delta now).1.1 /\
  (native_apply n delta now).1.2 = (apply b delta now).1.2 /\
  (is_ok (zstd_encode (d_automerge_bytes delta)) = true -> (native_apply n delta now).2 = (apply b delta now).2).
Proof.
  intros Hs. unfold Crdt.apply, apply. rewrite (gate_same n b delta Hs).
  destruct (gate _ _ b delta) as [code reason|reason|pk adopt].
  - destruct (record_rejection_same n b code delta reason now Hs) as [Hp Hq].
    destruct (record_rejection n _ _ _ _), (record_rejection b _ _ _ _). cbn in *. by subst.
  - done.
  - assert (same_engine (if adopt then add_known_schema n (d_schema_hash delta) else n)
      (if adopt then add_known_schema b (d_schema_hash delta) else b)) as Ha
      by (destruct adopt; [by apply add_known_same|done]).
    revert Ha. generalize (if adopt then add_known_schema n (d_schema_hash delta) else n) as n1.
    generalize (if adopt then add_known_schema b (d_schema_hash delta) else b) as b1. intros b1 n1 Hs1.
    destruct (merge_document_same n1 b1 delta Hs1) as [Hp Hq].
    destruct (merge_document n1 delta) as [n2 rn], (merge_document b1 delta) as [b2 rb]. cbn [fst snd] in *. subst rb.
    destruct rn as [[]|err]; [|done]. unfold insert_dag_node.
    pose proof (forget_fields _ _ Hp) as (_ & Hl & _). rewrite <- Hl.
    match goal with |- context [Crdt.insert_dag_node ?z ?j ?x ?y] =>
      pose proof (insert_dag_node_same x y) as Hi; destruct (Crdt.insert_dag_node z j x y) as [n3 r] eqn:Hins end.
    destruct (insert_dag_node_frame _ _ _ _ _ _ Hins) as (_ & Hz & _). cbn [fst] in Hi.
    assert (same_engine n3 (set_lamport b2 (wrap_u64 (Z.max (lamport n2) (d_lamport delta) + 1)))) as Hr3
      by (rewrite Hi; by apply set_lamport_proper).
    pose proof (forget_fields _ _ Hr3) as (_ & Hl3 & _).
    destruct r as [[]|err]; cbn [fst snd]; split_and!; try done; [by rewrite Hl3|].
    intros Hok. by apply Hz in Hok.
Qed.

Lemma compact_same `{!AutomergeSaveStable} n b table db now : same_engine n b ->
  same_engine (Crdt.maybe_compact n table (compaction_policy_for n table)).1
    (maybe_compact b table (compaction_policy_for b table) db now).1.1 /\
  (Crdt.maybe_compact n table (compaction_policy_for n table)).2 =
    (maybe_compact b table (compaction_policy_for b table) db now).2.
Proof.
  intros Hs. pose proof (forget_fields _ _ Hs) as (Hd & _ & Hk & _ & Hdef & _).
  unfold Crdt.maybe_compact, maybe_compact, should_compact_idb, compaction_policy_for, Crdt.compact_table, compact_table_idb.
  rewrite Hk, Hdef, Hd. destruct (am_get_changes (doc b)) as [d cs]. destruct (Schema.should_compact _ _); cbn [fst snd].
  - cbn [doc set_doc]. pose proof (am_save_again d) as Hss. destruct (am_save d) as [d1 b1]. cbn [fst] in Hss.
    destruct (am_save d1) as [d2 b2]. cbn in *. subst d2. split; [|done].
    exact (set_doc_proper n b Hs d1 d1 eq_refl).
  - split; [by apply set_doc_proper|done].
Qed.

Lemma exec_same `{!AutomergeSaveStable} n b op : same_engine n b ->
  same_engine (Crdt.exec zstd_encode to_json sha256 delta_to_json json_to_string error_to_string n op) (exec b op).
Proof.
  intros Hs. destruct op; cbn [Crdt.exec exec].
  - by apply write_scalar_same.
  - by apply produce_same.
  - by apply apply_same.
  - by apply register_same.
  - unfold set_current_schema. pose proof (forget_fields _ _ Hs) as (_ & _ & _ & Hks & _). rewrite Hks.
    by apply set_known_proper.
  - by apply add_known_same.
  - unfold mark_did_revoked. pose proof (forget_fields _ _ Hs) as (_ & _ & _ & _ & _ & _ & _ & Hr & _). rewrite Hr.
    by apply set_revoked_proper.
  - by apply compact_same.
Qed.

Lemma run_same `{!AutomergeSaveStable} ops : forall n b, same_engine n b ->
  same_engine (Crdt.run zstd_encode to_json sha256 delta_to_json json_to_string error_to_string n ops) (run b ops).
Proof.
  induction ops as [|op ops IH]; intros n b Hs; [done|]. unfold Crdt.run, run. cbn [foldl]. by apply IH, exec_same.
Qed.

(** ** The builds converge *)

(** C7: the two builds converge: started alike and given the same operations in the same order, whatever
    the tables the native engine starts from, they end with the same saved document, clock,
    schemas, author, revoked authors and rejection records; and one more Delta then has the same
    records in both, and the same outcome whenever the native build can compress its payload. *)
Theorem builds_converge `{!AutomergeSaveStable} (sk pk : bytes) (did : Did) (h0 : SchemaIdentifierHash)
    (g : Dag.Tables) (docs : gmap string bytes) (ops : list EngineOp) :
  let n := Crdt.run zstd_encode to_json sha256 delta_to_json json_to_string error_to_string
    (Crdt.new sk pk did h0 g docs) ops in
  let b := run (new sk pk did h0) ops in
  convergent_state n = convergent_state b /\
  forall delta now,
    (native_apply n delta now).1.2 = (apply b delta now).1.2 /\
    (is_ok (zstd_encode (d_automerge_bytes delta)) = true -> (native_apply n delta now).2 = (apply b delta now).2).
Proof.
  cbn zeta. assert (same_engine (Crdt.new sk pk did h0 g docs) (new sk pk did h0)) as Hst by done.
  apply (run_same ops) in Hst. split; [by apply convergent_state_proper|].
  intros delta now. by apply apply_same.
Qed.

(** ** A browser write hangs below nothing *)

Lemma stored_dec peer delta :
  let stored := (forall d, load_incoming_doc (d_automerge_bytes delta) = Some d -> (am_merge (doc peer) d).2 = None) /\
    is_ok (zstd_encode (d_automerge_bytes delta)) = true in stored \/ ~ stored.
Proof.
  cbn zeta. destruct (is_ok _); [|right; by intros []].
  destruct (load_incoming_doc _) as [d|]; [|left; by split].
  destruct ((am_merge (doc peer) d).2) eqn:Hm; [right; intros [Hall _]; specialize (Hall d eq_refl); congruence|].
  left. split; [by intros ? [= <-]|done].
Qed.

(** A Delta the browser signs without explicit parents names none.  A native peer that merges it,
    with an id it has not stored, hangs it below nothing: the walk from any other Delta does not
    reach it, so that no contamination the peer learns of spreads to a browser's write. *)
Theorem browser_write_unreachable (b : Engine) (payload : bytes) (priority : PriorityClass) (tags : list DeltaTag)
    (now : Z) (b' : Engine) (delta : Delta) (peer peer' : Engine) (later : Z) (records : list DeltaRejectionRecord) (l : Z) :
  produce_delta_with_tags b payload priority [] tags now = (b', Ok delta) ->
  Dag.wf (dag peer) -> Dag.dag_nodes (dag peer) !! d_id delta = None ->
  native_apply peer delta later = (peer', records, Ok (Merged l)) ->
  d_causal_parents delta = [] /\ is_Some (Dag.dag_nodes (dag peer') !! d_id delta) /\
  forall x, x <> d_id delta -> d_id delta ∉ Dag.bfs_descendants (dag peer') x.
Proof.
  intros Hp Hwf Hfresh Happly.
  destruct (produce_same b b payload priority [] tags now ltac:(done)) as (_ & d' & Hd' & Hpar & _).
  rewrite Hp in Hd'. injection Hd' as <-.
  pose proof (Crdt.apply_outcome_spec zstd_encode to_json delta_to_json error_to_string peer delta later) as Ho.
  rewrite Happly in Ho. destruct Ho as [Hacc Hrej].
  destruct (Crdt.gate_spec to_json error_to_string peer delta) as [[Ha _]|[Hna _]].
  2:{ destruct (Hrej Hna) as (_ & [(r & Hr & _)|(r & Hr & _)]); done. }
  destruct (Hacc Ha) as (_ & _ & Hst & Hns).
  destruct (stored_dec peer delta) as [Hs|Hs]; [|by destruct (Hns Hs) as (err & ? & _)].
  destruct (Hst Hs) as (_ & _ & Hnode & Hedges). split_and!; [done..|].
  intros x Hx. destruct (@Dag.descend_spec Dag.Tables Dag.native_dag (dag peer') x) as (_ & _ & _ & Hd).
  intros Hin. apply Hd, rtc_inv_r in Hin as [->|(p & _ & He)]; [done|].
  apply Hedges in He as [He|He]; [|rewrite Hpar in He; by apply not_elem_of_nil in He].
  apply (Dag.wf_child _ Hwf) in He. rewrite Hfresh in He. by destruct He.
Qed.
End BrowserCrdt.
End BrowserCrdt.

(** ** The two builds on the registers of [Automerge] *)

Lemma registers_save_stable : @AutomergeSaveStable Registers.registers.
Proof. done. Qed.

Section Witnesses.
#[local] Existing Instance Registers.registers.
#[local] Existing Instance toy_bs58.
#[local] Existing Instance toy_ed25519.
#[local] Existing Instance select_canonical.
#[local] Existing Instance hash_iter_canonical.
#[local] Existing Instance Crdt.toy_json.
Import Crdt BrowserCrdt.

Let to_json (c : CanonicalDeltaPayload) : bytes :=
  (Z.to_N (c_lamport c) :: c_automerge_bytes c ++ c_causal_parents c)%N.
Let sha (b : bytes) : N := foldl (fun a x => 256 * a + x + 1)%N 0%N b.
Let msg (_ : TirBaseError) : string := "error".
Let did (n : N) : Did := Did.derive_did (ed_public (replicate 32 n)).
Let browser (n : N) : CrdtEngine := BrowserCrdt.new (replicate 32 n) [n] (did n) 7.
Let native (n : N) : CrdtEngine := Crdt.new (replicate 32 n) [n] (did n) 7 Dag.empty_tables ∅.
Let write (z : Z) : EngineOp := OpWrite "t" "k" (JNumber z).
Let produce (e : CrdtEngine) := BrowserCrdt.produce_delta_with_tags to_json sha e (am_save (doc e)).2 Low [] [] 0.
Let produced (r : CrdtEngine * Res Delta) : Delta :=
  match r.2 with Ok d => d | Err _ => mkDelta 0 "" [] 0 [] Low [] [] 0 0 end.
Let receive (e : CrdtEngine) (d : Delta) := Crdt.apply Ok to_json (fun _ => None) msg e d 0.
Let b1 := produce (BrowserCrdt.run to_json sha (fun _ => None) msg (browser 2) [write 10]).

Lemma builds_converge_witness :
  convergent_state (BrowserCrdt.run to_json sha (fun _ => None) msg (browser 1) [write 10; OpCompact "t"; OpApply (produced b1) 0]) =
  convergent_state (Crdt.run Ok to_json sha (fun _ => None) (fun _ => None) msg (native 1)
    [write 10; OpCompact "t"; OpApply (produced b1) 0]) /\
  cs_lamport (convergent_state (BrowserCrdt.run to_json sha (fun _ => None) msg (browser 1)
    [write 10; OpCompact "t"; OpApply (produced b1) 0])) = 2.
Proof.
  split; [|vm_compute; reflexivity]. symmetry.
  apply (@builds_converge _ _ _ _ _ _ Ok to_json sha (fun _ => None) (fun _ => None) msg registers_save_stable).
Defined.

(** Device 1 takes the browser's Delta: it is stored, and below nothing. *)
Lemma browser_write_unreachable_witness :
  d_id (produced b1) ∉ Dag.bfs_descendants (dag (receive (native 1) (produced b1)).1.1) 1 /\
  is_Some (Dag.dag_nodes (dag (receive (native 1) (produced b1)).1.1) !! d_id (produced b1)).
Proof.
  destruct (receive (native 1) (produced b1)) as [[peer' rs] r] eqn:Hr.
  assert (r = Ok (Merged 2)) as ->.
  { change r with (peer', rs, r).2. rewrite <- Hr. vm_compute. reflexivity. }
  destruct (browser_write_unreachable Ok to_json sha (fun _ => None) msg
    (BrowserCrdt.run to_json sha (fun _ => None) msg (browser 2) [write 10])
    (am_save (doc (BrowserCrdt.run to_json sha (fun _ => None) msg (browser 2) [write 10]))).2 Low [] 0 b1.1 (produced b1)
    (native 1) peer' 0 rs 2) as (_ & Hin & Hd).
  - vm_compute. reflexivity.
  - change (dag (native 1)) with Dag.empty_tables. split; [constructor|]. intros p c Hpc. exfalso. exact (not_elem_of_nil _ Hpc).
  - reflexivity.
  - exact Hr.
  - cbn [fst]. split; [apply Hd; vm_compute; discriminate|exact Hin].
Defined.
End Witnesses.
