(* ===== verification/Ledgers.v ===== *)
(** * The two ledgers of the migration engine: [migration/quarantine.rs], [migration/sidecar.rs]

    The quarantine ledger keeps the raw bytes of Deltas the schema gate turned away; the
    side-car ledger keeps writes made under a schema a revoked migration produced, and
    replays them.  A table is a finite map from its primary key; its statements succeed.
    The replay is written against the class [ReplayTarget], what the ledger asks of the
    CRDT engine; [Migration.v] gives the engine's instance.  The WASM builds work on
    IndexedDB object stores, whose cursors are the class [IdbCursor]. *)

From S2P Require Import Prelude Types Dag Crdt.

(** IndexedDB: a cursor opened over an object store gives its records in key order, and no
    cursor over a store without records. *)
Class IdbCursor := {
  open_cursor : forall {A : Type}, list A -> option (list A);
  open_cursor_nil : forall A, open_cursor (@nil A) = None;
  open_cursor_cons : forall A (x : A) l, open_cursor (x :: l) = Some (x :: l)
}.

Definition idb_cursor : IdbCursor.
Proof.
  refine {| open_cursor A l := match l with [] => None | _ => Some l end |}; done.
Defined.

(** The records of an object store whose keys are the hexadecimal ids, in key order. *)
Definition idb_records {A} (store : gmap N A) : list A :=
  map snd (sort_by_key (fun e => Z.of_N e.1) (map_to_list store)).

(** [i64::to_le_bytes] *)
Definition i64_le_bytes (z : Z) : bytes := rev (be_bytes 8 (Z.to_N (wrap_u64 z))).

(** ** [quarantine.rs] *)

Module Quarantine.

Inductive QuarantineReason := BreakingSchemaChange | UnknownSchemaHash | MissingOrMalformedHash.

Definition as_str (r : QuarantineReason) : string :=
  match r with
  | BreakingSchemaChange => "BREAKING_CHANGE"
  | UnknownSchemaHash => "UNKNOWN_HASH"
  | MissingOrMalformedHash => "MISSING_HASH"
  end.

Definition from_str (s : string) : option QuarantineReason :=
  if decide (s = "BREAKING_CHANGE") then Some BreakingSchemaChange
  else if decide (s = "UNKNOWN_HASH") then Some UnknownSchemaHash
  else if decide (s = "MISSING_HASH") then Some MissingOrMalformedHash
  else None.

(** [impl From<merge::QuarantineReason>] *)
Definition from_merge (r : Crdt.QuarantineReason) : QuarantineReason :=
  match r with
  | Crdt.BreakingSchemaChange => BreakingSchemaChange
  | Crdt.UnknownSchemaHashReason => UnknownSchemaHash
  | Crdt.MissingOrMalformedHash => MissingOrMalformedHash
  end.

Record QuarantineEntry := mkEntry {
  q_id : DeltaId;
  q_sender_did : Did;
  q_raw_bytes : bytes;
  q_schema_hash : option SchemaIdentifierHash;
  q_reason : QuarantineReason;
  q_received_at : Z;
  q_migration_id : option MigrationId
}.

(** The columns of a row of [quarantine_ledger] other than [id]. *)
Record Row := mkRow {
  r_sender_did : string;
  r_raw_bytes : bytes;
  r_schema_hash : option N;
  r_reason : string;
  r_received_at : Z;
  r_migration_id : option N
}.

Abbreviation QuarantineLedger := (gmap N Row).

Section Native.
Context `{!SelectOrder} (sha256 : bytes -> N).

Definition quarantine (ledger : QuarantineLedger) (sender_did : Did) (raw_bytes : bytes)
    (schema_hash : option SchemaIdentifierHash) (reason : QuarantineReason) (received_at : Z)
  : QuarantineLedger * Res DeltaId :=
  let id := sha256 raw_bytes in
  let row := mkRow sender_did raw_bytes schema_hash (as_str reason) received_at None in
  (match ledger !! id with Some _ => ledger | None => <[id := row]> ledger end, Ok id).

Definition decode (e : N * Row) : option QuarantineEntry :=
  reason ← from_str (r_reason e.2);
  Some (mkEntry e.1 (r_sender_did e.2) (r_raw_bytes e.2) (r_schema_hash e.2) reason
    (r_received_at e.2) (r_migration_id e.2)).

Definition get_by_schema_hash (ledger : QuarantineLedger) (hash : SchemaIdentifierHash)
  : list QuarantineEntry :=
  omap decode (select (filter (fun e => r_schema_hash e.2 = Some hash) (map_to_list ledger))).

Definition get_all (ledger : QuarantineLedger) : list QuarantineEntry :=
  omap decode (select (map_to_list ledger)).

Definition set_migration (migration_id : MigrationId) (r : Row) : Row :=
  mkRow (r_sender_did r) (r_raw_bytes r) (r_schema_hash r) (r_reason r) (r_received_at r)
    (Some migration_id).

Definition release_for_migration (ledger : QuarantineLedger) (schema_hash : SchemaIdentifierHash)
    (migration_id : MigrationId) : QuarantineLedger * list QuarantineEntry :=
  let ledger := (fun r => if decide (r_schema_hash r = Some schema_hash)
                          then set_migration migration_id r else r) <$> ledger in
  (ledger, get_by_schema_hash ledger schema_hash).

Definition count (ledger : QuarantineLedger) : nat := size ledger.

(** *** What is stored *)

Lemma from_as_str r : from_str (as_str r) = Some r.
Proof. by destruct r. Qed.

(** Every row has been written by [quarantine]. *)
Definition rows_ok (ledger : QuarantineLedger) : Prop :=
  forall id row, ledger !! id = Some row -> id = sha256 (r_raw_bytes row) /\ exists r, r_reason row = as_str r.

Lemma quarantine_rows_ok ledger sender raw h reason at_ :
  rows_ok ledger -> rows_ok (quarantine ledger sender raw h reason at_).1.
Proof.
  intros Hok. cbn. destruct (ledger !! sha256 raw) as [row|] eqn:Hr; [done|].
  intros id row. rewrite lookup_insert_Some. intros [[<- <-]|[_ Hid]]; [|by apply Hok].
  split; [done|by exists reason].
Qed.

Lemma decode_row id row : (exists r, r_reason row = as_str r) ->
  exists e, decode (id, row) = Some e /\ q_id e = id /\ q_raw_bytes e = r_raw_bytes row /\
    q_sender_did e = r_sender_did row /\ q_schema_hash e = r_schema_hash row /\
    as_str (q_reason e) = r_reason row /\ q_received_at e = r_received_at row /\
    q_migration_id e = r_migration_id row.
Proof. intros [r Hr]. unfold decode. cbn. rewrite Hr, from_as_str. by eexists. Qed.

Lemma elem_of_get_all ledger e : rows_ok ledger ->
  e ∈ get_all ledger <-> exists row, ledger !! q_id e = Some row /\ decode (q_id e, row) = Some e.
Proof.
  intros Hok. unfold get_all. rewrite list_elem_of_omap. split.
  - intros ([id row] & Hin & Hd). rewrite select_perm, elem_of_map_to_list in Hin.
    destruct (decode_row id row) as (e' & He' & Hid & _); [by apply (Hok id)|].
    rewrite Hd in He'. injection He' as <-. rewrite Hid. eauto.
  - intros (row & Hrow & Hd). exists (q_id e, row). split; [|done].
    by rewrite select_perm, elem_of_map_to_list.
Qed.

(** *** Histories of the ledger *)

Inductive Op :=
| Store (sender_did : Did) (raw_bytes : bytes) (schema_hash : option SchemaIdentifierHash)
    (reason : QuarantineReason) (received_at : Z)
| Release (schema_hash : SchemaIdentifierHash) (migration_id : MigrationId).

Definition exec (ledger : QuarantineLedger) (op : Op) : QuarantineLedger :=
  match op with
  | Store sender raw h reason at_ => (quarantine ledger sender raw h reason at_).1
  | Release h m => (release_for_migration ledger h m).1
  end.

(** What one id's entry goes through, the other ids left out: the first reception makes it,
    later receptions do nothing, a release of its schema marks it. *)
Definition entry_step (id : DeltaId) (e : option QuarantineEntry) (op : Op) : option QuarantineEntry :=
  match e, op with
  | None, Store sender raw h reason at_ =>
      if decide (sha256 raw = id) then Some (mkEntry id sender raw h reason at_ None) else None
  | Some e, Release h m =>
      Some (if decide (q_schema_hash e = Some h) then
              mkEntry id (q_sender_did e) (q_raw_bytes e) (q_schema_hash e) (q_reason e) (q_received_at e) (Some m)
            else e)
  | e, _ => e
  end.

Definition entry_of (id : DeltaId) (ops : list Op) : option QuarantineEntry :=
  foldl (entry_step id) None ops.

Definition held (ledger : QuarantineLedger) (id : DeltaId) : option QuarantineEntry :=
  row ← ledger !! id; decode (id, row).

Lemma exec_rows_ok ledger op : rows_ok ledger -> rows_ok (exec ledger op).
Proof.
  destruct op as [sender raw h reason at_|h m]; intros Hok; [by apply quarantine_rows_ok|].
  intros id row. cbn. rewrite lookup_fmap. intros (row' & Hr & ->)%fmap_Some.
  apply Hok in Hr. by case_decide.
Qed.

Lemma held_exec ledger id op : rows_ok ledger -> held (exec ledger op) id = entry_step id (held ledger id) op.
Proof.
  intros Hok. unfold held. destruct op as [sender raw h reason at_|h m]; cbn.
  - destruct (decide (sha256 raw = id)) as [<-|Hne].
    + destruct (ledger !! sha256 raw) as [row|] eqn:Hr; [rewrite Hr|rewrite lookup_insert_eq]; cbn.
      * apply Hok in Hr as [_ Hr]. by destruct (decode_row (sha256 raw) row Hr) as (e & -> & _).
      * unfold decode. cbn. rewrite from_as_str. cbn. by rewrite decide_True.
    + assert ((match ledger !! sha256 raw with Some _ => ledger | None =>
        <[sha256 raw := mkRow sender raw h (as_str reason) at_ None]> ledger end) !! id = ledger !! id) as ->.
      { destruct (ledger !! sha256 raw); [done|]. by rewrite lookup_insert_ne. }
      destruct (ledger !! id) as [row|] eqn:Hr; cbn; [|by rewrite decide_False].
      apply Hok in Hr as [_ Hr]. by destruct (decode_row id row Hr) as (e & -> & _).
  - rewrite lookup_fmap. destruct (ledger !! id) as [row|] eqn:Hr; cbn; [|done].
    apply Hok in Hr as [_ [reason Hr]]. unfold decode at 2. cbn. rewrite Hr, from_as_str. cbn.
    case_decide; unfold decode; cbn; by rewrite Hr, from_as_str.
Qed.

Lemma run_held ops ledger :
  rows_ok ledger -> rows_ok (foldl exec ledger ops) /\
  forall id, held (foldl exec ledger ops) id = foldl (entry_step id) (held ledger id) ops.
Proof.
  revert ledger. induction ops as [|op ops IH]; intros ledger Hok; [done|]. cbn.
  destruct (IH (exec ledger op)) as [Hok' Hh]; [by apply exec_rows_ok|].
  split; [done|]. intros id. by rewrite Hh, held_exec.
Qed.

Lemma entry_step_keeps id ops e :
  exists m, foldl (entry_step id) (Some e) ops =
    Some (match m with None => e | Some m => mkEntry id (q_sender_did e) (q_raw_bytes e)
            (q_schema_hash e) (q_reason e) (q_received_at e) (Some m) end).
Proof.
  revert e. induction ops as [|[| h m] ops IH]; intros e; cbn [foldl entry_step]; [by exists None|apply IH|].
  case_decide; [|apply IH]. destruct (IH (mkEntry id (q_sender_did e) (q_raw_bytes e) (q_schema_hash e)
    (q_reason e) (q_received_at e) (Some m))) as ([m'|] & ->); [by exists (Some m')|by exists (Some m)].
Qed.

Lemma entry_of_first id pre sender raw h reason at_ post :
  sha256 raw = id -> (forall sender' raw' h' reason' at_', Store sender' raw' h' reason' at_' ∈ pre -> sha256 raw' <> id) ->
  exists m, entry_of id (pre ++ Store sender raw h reason at_ :: post) = Some (mkEntry id sender raw h reason at_ m).
Proof.
  intros Hid Hpre. unfold entry_of. rewrite foldl_app.
  assert (foldl (entry_step id) None pre = None) as ->.
  { induction pre as [|op pre IH]; [done|]. cbn [foldl].
    assert (entry_step id None op = None) as ->; [|apply IH; intros; eapply Hpre; by right].
    destruct op as [s' r' h' re' a'|]; [|done]. cbn. rewrite decide_False; [done|]. eapply Hpre. by left. }
  cbn [foldl entry_step]. rewrite decide_True by done.
  destruct (entry_step_keeps id post (mkEntry id sender raw h reason at_ None)) as ([m|] & ->); by eexists.
Qed.

(** The quarantine ledger keeps every Delta it was given, byte for byte, however receptions
    and releases are ordered: it holds one entry per distinct SHA-256, with the bytes, the
    sender, the schema hash, the reason and the time of the first reception, and nothing
    else; only the migration id of an entry ever changes. *)
Theorem quarantine_keeps_first (ops : list Op) :
  let ledger := foldl exec ∅ ops in
  (forall e, e ∈ get_all ledger <-> entry_of (q_id e) ops = Some e) /\
  (forall pre sender raw h reason at_ post, ops = pre ++ Store sender raw h reason at_ :: post ->
     (forall sender' raw' h' reason' at_', Store sender' raw' h' reason' at_' ∈ pre -> sha256 raw' <> sha256 raw) ->
     exists m, mkEntry (sha256 raw) sender raw h reason at_ m ∈ get_all ledger).
Proof.
  intros ledger. destruct (run_held ops ∅) as [Hok Hh]; [by intros id row; rewrite lookup_empty|].
  fold ledger in Hok, Hh.
  assert (forall e, e ∈ get_all ledger <-> entry_of (q_id e) ops = Some e) as Hall.
  { intros e. rewrite (elem_of_get_all ledger e Hok). unfold entry_of.
    pose proof (Hh (q_id e)) as He. unfold held in He at 2. rewrite lookup_empty in He. cbn in He.
    rewrite <- He. unfold held. destruct (ledger !! q_id e) as [row|]; cbn; naive_solver. }
  split; [exact Hall|]. intros pre sender raw h reason at_ post Hops Hpre.
  destruct (entry_of_first (sha256 raw) pre sender raw h reason at_ post eq_refl Hpre) as (m & Hm).
  exists m. apply Hall. cbn. by rewrite Hops.
Qed.
End Native.

(** *** WASM: one JSON record per entry, keyed by the id, that [put] overwrites *)

Section Wasm.
Context `{!IdbCursor} (sha256 : bytes -> N).

Definition wasm_quarantine (store : gmap N QuarantineEntry) (sender_did : Did) (raw_bytes : bytes)
    (schema_hash : option SchemaIdentifierHash) (reason : QuarantineReason) (received_at : Z)
  : gmap N QuarantineEntry * Res DeltaId :=
  let id := sha256 raw_bytes in
  (<[id := mkEntry id sender_did raw_bytes schema_hash reason received_at None]> store, Ok id).

Definition scan_quarantine_entries (store : gmap N QuarantineEntry) : Res (list QuarantineEntry) :=
  ok_or (open_cursor (idb_records store)) (LocalStoreWriteFailed "quarantine cursor is null").

Definition wasm_get_by_schema_hash (store : gmap N QuarantineEntry) (hash : SchemaIdentifierHash)
  : Res (list QuarantineEntry) :=
  filter (fun e => q_schema_hash e = Some hash) <$> scan_quarantine_entries store.

Definition wasm_set_migration (migration_id : MigrationId) (e : QuarantineEntry) : QuarantineEntry :=
  mkEntry (q_id e) (q_sender_did e) (q_raw_bytes e) (q_schema_hash e) (q_reason e)
    (q_received_at e) (Some migration_id).

Definition wasm_release_for_migration (store : gmap N QuarantineEntry)
    (schema_hash : SchemaIdentifierHash) (migration_id : MigrationId)
  : gmap N QuarantineEntry * Res (list QuarantineEntry) :=
  match wasm_get_by_schema_hash store schema_hash with
  | Err e => (store, Err e)
  | Ok matching =>
      (foldl (fun st e => alter (wasm_set_migration migration_id) (q_id e) st) store matching, Ok matching)
  end.

Definition wasm_count (store : gmap N QuarantineEntry) : Res nat :=
  length <$> scan_quarantine_entries store.
End Wasm.
End Quarantine.

(** ** [sidecar.rs] *)

(** What a replay asks of the CRDT engine: [apply] at a time, and a tag appended to the
    row of a Delta in [dag_nodes]. *)
Class ReplayTarget (E : Type) := {
  rt_apply : E -> Delta -> Z -> E * Res Crdt.MergeOutcome;
  rt_tag : E -> DeltaId -> DeltaTag -> E
}.

Module Sidecar.

Inductive ReplayStatus :=
| Pending
| Replayed
| Conflict (conflict_info : string)
| Complete.

Definition as_sql_str (s : ReplayStatus) : string :=
  match s with
  | Pending => "PENDING" | Replayed => "REPLAYED" | Conflict _ => "CONFLICT" | Complete => "COMPLETE"
  end.

Record SideCarEntry := mkEntry {
  e_id : DeltaId;
  e_migration_id : MigrationId;
  e_table_name : string;
  e_delta_bytes : bytes;
  e_recorded_ts : Z;
  e_replay_status : ReplayStatus
}.

Record ReplaySummary := mkSummary {
  total_entries : nat;
  replayed : nat;
  conflicts : nat;
  complete : bool
}.

(** The columns of a row of [sidecar_ledger] other than [id]. *)
Record Row := mkRow {
  s_migration_id : MigrationId;
  s_table_name : string;
  s_delta_bytes : bytes;
  s_recorded_ts : Z;
  s_replay_status : option string;
  s_conflict_info : option string
}.

Abbreviation SideCarLedger := (gmap N Row).

Definition set_status (status : string) (info : option string) (r : Row) : Row :=
  mkRow (s_migration_id r) (s_table_name r) (s_delta_bytes r) (s_recorded_ts r) (Some status) info.

Definition update_entry_status (ledger : SideCarLedger) (id : DeltaId) (status : string)
    (info : option string) : SideCarLedger :=
  alter (set_status status info) id ledger.

(** The [UPDATE] of [mark_migration_complete] leaves [conflict_info] alone. *)
Definition mark_migration_complete (ledger : SideCarLedger) (migration_id : MigrationId) : SideCarLedger :=
  (fun r => if decide (s_migration_id r = migration_id)
            then set_status "COMPLETE" (s_conflict_info r) r else r) <$> ledger.

Definition decode_status (status info : option string) : ReplayStatus :=
  match status with
  | None => Pending
  | Some s =>
      if decide (s = "PENDING") then Pending
      else if decide (s = "REPLAYED") then Replayed
      else if decide (s = "CONFLICT") then Conflict (default "" info)
      else if decide (s = "COMPLETE") then Complete
      else Pending
  end.

Definition decode (migration_id : MigrationId) (e : N * Row) : SideCarEntry :=
  mkEntry e.1 migration_id (s_table_name e.2) (s_delta_bytes e.2) (s_recorded_ts e.2)
    (decode_status (s_replay_status e.2) (s_conflict_info e.2)).

(** *** The pass over the entries, the same in both builds

    [update] is the statement that writes a status, [engine_error] the text the build
    records when [apply] fails. *)

Section Replay.
Context {L E : Type} `{!ReplayTarget E}.
Context (delta_of_json : bytes -> option Delta) (update : L -> DeltaId -> ReplayStatus -> L).
Context (engine_error : string) (now : Z).

(** The state of the loop. *)
Record Pass := mkPass {
  p_ledger : L;
  p_engine : E;
  p_replayed : nat;
  p_conflicts : nat;
  p_ids : list DeltaId
}.

Definition conflict (p : Pass) (engine : E) (entry : SideCarEntry) (info : string) : Pass :=
  mkPass (update (p_ledger p) (e_id entry) (Conflict info)) engine
    (p_replayed p) (S (p_conflicts p)) (p_ids p).

Definition replay_entry (p : Pass) (entry : SideCarEntry) : Pass :=
  match delta_of_json (e_delta_bytes entry) with
  | None => conflict p (p_engine p) entry "deserialise error"
  | Some delta =>
      match rt_apply (p_engine p) delta now with
      | (engine, Ok (Crdt.Merged _)) =>
          mkPass (update (p_ledger p) (e_id entry) Replayed) engine
            (S (p_replayed p)) (p_conflicts p) (p_ids p ++ [d_id delta])
      | (engine, Ok (Crdt.Quarantined _)) => conflict p engine entry "quarantined during replay"
      | (engine, Ok (Crdt.Rejected _)) => conflict p engine entry "rejected during replay"
      | (engine, Err _) => conflict p engine entry engine_error
      end
  end.

Definition replay_entries (ledger : L) (engine : E) (entries : list SideCarEntry) : Pass :=
  foldl replay_entry (mkPass ledger engine 0 0 []) entries.

Definition summary (p : Pass) (entries : list SideCarEntry) : ReplaySummary :=
  let total_entries := length entries in
  mkSummary total_entries (p_replayed p) (p_conflicts p)
    ((p_conflicts p =? 0)%nat && (0 <? total_entries)%nat).

Definition tag_replayed (engine : E) (ids : list DeltaId) (migration_id : MigrationId) : E :=
  foldl (fun engine delta_id => rt_tag engine delta_id (ReplayComplete migration_id)) engine ids.

(** *** The pass, described by the turns of the engine *)

(** What becomes of one entry, and of the engine. *)
Definition verdict (engine : E) (entry : SideCarEntry) : E * ReplayStatus :=
  match delta_of_json (e_delta_bytes entry) with
  | None => (engine, Conflict "deserialise error")
  | Some delta =>
      let '(engine, r) := rt_apply engine delta now in
      (engine, match r with
               | Ok (Crdt.Merged _) => Replayed
               | Ok (Crdt.Quarantined _) => Conflict "quarantined during replay"
               | Ok (Crdt.Rejected _) => Conflict "rejected during replay"
               | Err _ => Conflict engine_error
               end)
  end.

Fixpoint verdicts (engine : E) (entries : list SideCarEntry) : list ReplayStatus :=
  match entries with
  | [] => []
  | entry :: entries => let '(engine, v) := verdict engine entry in v :: verdicts engine entries
  end.

Definition deltas_of (entries : list SideCarEntry) : list Delta :=
  omap (fun entry => delta_of_json (e_delta_bytes entry)) entries.

(** The engine after it has been given these Deltas in this order. *)
Definition apply_all (engine : E) (ds : list Delta) : E :=
  foldl (fun engine d => (rt_apply engine d now).1) engine ds.

(** The ids of the Deltas whose entries were replayed. *)
Definition merged_ids (entries : list SideCarEntry) (vs : list ReplayStatus) : list DeltaId :=
  omap (fun ev => match ev.2 with Replayed => d_id <$> delta_of_json (e_delta_bytes ev.1) | _ => None end)
    (zip entries vs).

Definition is_replayed (v : ReplayStatus) : bool := match v with Replayed => true | _ => false end.
Definition count_if {A} (f : A -> bool) (l : list A) : nat := length (List.filter f l).

Definition write_all (ledger : L) (evs : list (SideCarEntry * ReplayStatus)) : L :=
  foldl (fun l ev => update l (e_id ev.1) ev.2) ledger evs.

Lemma replay_entry_verdict p entry :
  replay_entry p entry =
    let '(engine, v) := verdict (p_engine p) entry in
    mkPass (update (p_ledger p) (e_id entry) v) engine
      (if is_replayed v then S (p_replayed p) else p_replayed p)
      (if is_replayed v then p_conflicts p else S (p_conflicts p))
      (p_ids p ++ merged_ids [entry] [v]).
Proof.
  unfold replay_entry, verdict, merged_ids, conflict. cbn.
  destruct (delta_of_json _) as [d|]; cbn; [|by rewrite app_nil_r].
  destruct (rt_apply _ d now) as [engine [[]|]]; cbn; by rewrite ?app_nil_r.
Qed.

Lemma verdict_engine engine entry :
  (verdict engine entry).1 = apply_all engine (deltas_of [entry]).
Proof.
  unfold verdict, apply_all, deltas_of. cbn. destruct (delta_of_json _) as [d|]; [|done]. cbn.
  by destruct (rt_apply engine d now).
Qed.

Lemma replay_entries_spec p entries :
  let vs := verdicts (p_engine p) entries in
  foldl replay_entry p entries =
    mkPass (write_all (p_ledger p) (zip entries vs)) (apply_all (p_engine p) (deltas_of entries))
      (p_replayed p + count_if is_replayed vs) (p_conflicts p + count_if (fun v => negb (is_replayed v)) vs)
      (p_ids p ++ merged_ids entries vs).
Proof.
  revert p. induction entries as [|entry entries IH]; intros p; cbn [foldl verdicts].
  { cbn. destruct p as [l e r c ids]. cbn. by rewrite !Nat.add_0_r, app_nil_r. }
  rewrite IH, replay_entry_verdict. pose proof (verdict_engine (p_engine p) entry) as He.
  assert (deltas_of (entry :: entries) = deltas_of [entry] ++ deltas_of entries) as ->.
  { unfold deltas_of. by rewrite <- omap_app. }
  unfold apply_all at 2. rewrite foldl_app. fold (apply_all (p_engine p) (deltas_of [entry])). rewrite <- He.
  destruct (verdict (p_engine p) entry) as [engine v]. cbn [fst p_engine p_ledger p_replayed p_conflicts p_ids].
  unfold count_if, write_all. f_equal.
  - destruct v; cbn; lia.
  - destruct v; cbn; lia.
  - rewrite <- app_assoc. f_equal. unfold merged_ids. cbn [zip zip_with]. by rewrite <- omap_app.
Qed.

Lemma length_verdicts engine entries : length (verdicts engine entries) = length entries.
Proof.
  revert engine. induction entries as [|entry entries IH]; intros engine; [done|]. cbn.
  destruct (verdict engine entry). cbn. by rewrite IH.
Qed.

Lemma count_if_split {A} (f : A -> bool) l : (count_if f l + count_if (fun x => negb (f x)) l = length l)%nat.
Proof.
  unfold count_if. induction l as [|x l IH]; [done|]. cbn. destruct (f x); cbn in *; lia.
Qed.

Lemma count_if_none {A} (f : A -> bool) l : count_if f l = 0%nat <-> Forall (fun x => f x = false) l.
Proof.
  unfold count_if. induction l as [|x l IH]; [split; constructor|]. rewrite Forall_cons. cbn.
  destruct (f x); cbn; [naive_solver lia|]. rewrite IH. naive_solver.
Qed.
End Replay.

Section Native.
Context `{!SelectOrder} (sha256 : bytes -> N) (delta_of_json : bytes -> option Delta).

Definition entry_id (delta_bytes : bytes) (recorded_ts : Z) : DeltaId :=
  sha256 (delta_bytes ++ i64_le_bytes recorded_ts).

Definition record (ledger : SideCarLedger) (migration_id : MigrationId) (table_name : string)
    (delta_bytes : bytes) (recorded_ts : Z) : SideCarLedger * Res DeltaId :=
  let id := entry_id delta_bytes recorded_ts in
  let row := mkRow migration_id table_name delta_bytes recorded_ts None None in
  (match ledger !! id with Some _ => ledger | None => <[id := row]> ledger end, Ok id).

(** [ORDER BY recorded_ts ASC]: rows with equal timestamps come in any order. *)
Definition load_entries_ordered (ledger : SideCarLedger) (migration_id : MigrationId)
  : list SideCarEntry :=
  map (decode migration_id)
    (sort_by_key (fun e => s_recorded_ts e.2)
       (select (filter (fun e => s_migration_id e.2 = migration_id) (map_to_list ledger)))).

Definition count_for_migration (ledger : SideCarLedger) (migration_id : MigrationId) : nat :=
  length (filter (fun e => s_migration_id e.2 = migration_id) (map_to_list ledger)).

Definition update_status (ledger : SideCarLedger) (id : DeltaId) (status : ReplayStatus) : SideCarLedger :=
  update_entry_status ledger id (as_sql_str status)
    (match status with Conflict info => Some info | _ => None end).

(** The corrected schema's hash is an argument the code never reads. *)
Definition replay_sidecar {E} `{!ReplayTarget E} (ledger : SideCarLedger) (migration_id : MigrationId)
    (corrected_schema_hash : SchemaIdentifierHash) (engine : E) (now : Z)
  : SideCarLedger * E * Res ReplaySummary :=
  let entries := load_entries_ordered ledger migration_id in
  let p := replay_entries delta_of_json update_status "engine error during replay" now ledger engine entries in
  let summary := summary p entries in
  if complete summary then
    (mark_migration_complete (p_ledger p) migration_id, tag_replayed (p_engine p) (p_ids p) migration_id,
     Ok summary)
  else (p_ledger p, p_engine p, Ok summary).

(** *** Recording *)

Lemma elem_of_entries ledger mid e :
  e ∈ load_entries_ordered ledger mid <->
  exists row, ledger !! e_id e = Some row /\ s_migration_id row = mid /\ e = decode mid (e_id e, row).
Proof.
  unfold load_entries_ordered. rewrite list_elem_of_fmap. split.
  - intros ([id row] & -> & Hin). rewrite sort_by_key_perm, select_perm, list_elem_of_filter, elem_of_map_to_list in Hin.
    cbn in *. exists row. tauto.
  - intros (row & Hr & Hm & He). exists (e_id e, row). split; [done|].
    by rewrite sort_by_key_perm, select_perm, list_elem_of_filter, elem_of_map_to_list.
Qed.

Lemma entries_sorted ledger mid : Sorted (key_le e_recorded_ts) (load_entries_ordered ledger mid).
Proof.
  unfold load_entries_ordered.
  pose proof (sort_by_key_sorted (fun e : N * Row => s_recorded_ts e.2)
    (select (filter (fun e => s_migration_id e.2 = mid) (map_to_list ledger)))) as Hs.
  induction Hs as [|x l Hl IH Hx]; cbn; constructor; [done|].
  destruct Hx; cbn; constructor; done.
Qed.

Lemma NoDup_entries ledger mid : NoDup (map e_id (load_entries_ordered ledger mid)).
Proof.
  unfold load_entries_ordered. rewrite map_map. cbn.
  assert (map (fun x : N * Row => x.1) (sort_by_key (fun e => s_recorded_ts e.2)
    (select (filter (fun e => s_migration_id e.2 = mid) (map_to_list ledger)))) ≡ₚ
    map fst (filter (fun e => s_migration_id e.2 = mid) (map_to_list ledger))) as ->.
  { by rewrite sort_by_key_perm, select_perm. }
  assert (map fst (filter (fun e => s_migration_id e.2 = mid) (map_to_list ledger)) `sublist_of`
    map fst (map_to_list ledger)) as Hsub by apply (fmap_sublist fst), sublist_filter.
  eapply sublist_NoDup; [|exact Hsub]. exact (NoDup_fst_map_to_list ledger).
Qed.

(** *** Writing the statuses *)

Lemma NoDup_map_eq {A B} (f : A -> B) l x y : NoDup (map f l) -> x ∈ l -> y ∈ l -> f x = f y -> x = y.
Proof.
  induction l as [|z l IH]; intros Hnd Hx Hy Hf; [by apply elem_of_nil in Hx|].
  cbn in Hnd. apply NoDup_cons in Hnd as [Hz Hnd].
  apply elem_of_cons in Hx as [->|Hx]; apply elem_of_cons in Hy as [->|Hy]; [done| | |by apply IH].
  - destruct Hz. rewrite Hf. by apply list_elem_of_fmap_2.
  - destruct Hz. rewrite <- Hf. by apply list_elem_of_fmap_2.
Qed.

Definition same_content (r r' : Row) : Prop :=
  s_migration_id r' = s_migration_id r /\ s_table_name r' = s_table_name r /\
  s_delta_bytes r' = s_delta_bytes r /\ s_recorded_ts r' = s_recorded_ts r.

Definition status_of (r : Row) : ReplayStatus := decode_status (s_replay_status r) (s_conflict_info r).

Lemma status_written v r :
  status_of (set_status (as_sql_str v) (match v with Conflict info => Some info | _ => None end) r) = v.
Proof. by destruct v. Qed.

Lemma write_all_other ledger evs id :
  id ∉ map (fun ev => e_id ev.1) evs -> write_all update_status ledger evs !! id = ledger !! id.
Proof.
  revert ledger. induction evs as [|[e v] evs IH]; intros ledger Hid; [done|]. cbn [map fst] in Hid.
  change (write_all update_status ledger ((e, v) :: evs)) with
    (write_all update_status (update_status ledger (e_id e) v) evs).
  rewrite not_elem_of_cons in Hid. destruct Hid as [Hne Hid]. rewrite IH by done.
  unfold update_status, update_entry_status. by rewrite lookup_alter_ne.
Qed.

Lemma write_all_entry ledger evs e v :
  NoDup (map (fun ev => e_id ev.1) evs) -> (e, v) ∈ evs ->
  write_all update_status ledger evs !! e_id e =
    set_status (as_sql_str v) (match v with Conflict info => Some info | _ => None end) <$> ledger !! e_id e.
Proof.
  revert ledger. induction evs as [|[e' v'] evs IH]; intros ledger Hnd Hin; [by apply elem_of_nil in Hin|].
  cbn [map fst] in Hnd. apply NoDup_cons in Hnd as [Hne Hnd].
  change (write_all update_status ledger ((e', v') :: evs)) with
    (write_all update_status (update_status ledger (e_id e') v') evs).
  apply elem_of_cons in Hin as [[= <- <-]|Hin].
  - rewrite write_all_other by done. unfold update_status, update_entry_status. by rewrite lookup_alter_eq.
  - rewrite IH by done. unfold update_status, update_entry_status. rewrite lookup_alter_ne; [done|].
    intros Heq. apply Hne. rewrite Heq. apply list_elem_of_fmap. by exists (e, v).
Qed.

Lemma zip_fst {A B C} (f : A -> C) (l : list A) (k : list B) :
  length l = length k -> map (fun p => f p.1) (zip l k) = map f l.
Proof.
  revert k. induction l as [|x l IH]; intros [|y k] Hl; cbn in *; try done. by rewrite IH by lia.
Qed.

Lemma complete_iff (vs : list ReplayStatus) n :
  length vs = n ->
  (count_if (fun v => negb (is_replayed v)) vs =? 0)%nat && (0 <? n)%nat = true <->
  (0 < n)%nat /\ Forall (fun v => v = Replayed) vs.
Proof.
  intros <-. rewrite andb_true_iff, Nat.eqb_eq, Nat.ltb_lt, count_if_none.
  assert (Forall (fun v => negb (is_replayed v) = false) vs <-> Forall (fun v => v = Replayed) vs) as ->; [|tauto].
  rewrite !Forall_forall. split; intros Hv v Hin; specialize (Hv v Hin); by destruct v.
Qed.

Lemma replay_in_order_spec {E} `{!ReplayTarget E} (ledger : SideCarLedger) (mid : MigrationId)
    (h : SchemaIdentifierHash) (engine : E) (now : Z) :
  let entries := load_entries_ordered ledger mid in
  let vs := verdicts delta_of_json "engine error during replay" now engine entries in
  let engine1 := apply_all now engine (deltas_of delta_of_json entries) in
  Sorted (key_le e_recorded_ts) entries /\
  (forall e, e ∈ entries <-> exists row, ledger !! e_id e = Some row /\ s_migration_id row = mid /\ e = decode mid (e_id e, row)) /\
  let '(ledger', engine', r) := replay_sidecar ledger mid h engine now in
  exists s, r = Ok s /\
    total_entries s = length entries /\ replayed s = count_if is_replayed vs /\
    (replayed s + conflicts s)%nat = total_entries s /\
    (complete s = true <-> (0 < total_entries s)%nat /\ Forall (fun v => v = Replayed) vs) /\
    engine' = (if complete s then tag_replayed engine1 (merged_ids delta_of_json entries vs) mid else engine1) /\
    (forall id, ledger !! id = None -> ledger' !! id = None) /\
    (forall id row, ledger !! id = Some row -> exists row', ledger' !! id = Some row' /\ same_content row row' /\
       (s_migration_id row <> mid -> row' = row) /\
       (forall e v, (e, v) ∈ zip entries vs -> e_id e = id ->
          status_of row' = if complete s then Complete else v)).
Proof.
  intros entries vs engine1. split; [apply entries_sorted|]. split; [intros e; apply elem_of_entries|].
  unfold replay_sidecar. fold entries. unfold replay_entries. rewrite replay_entries_spec. cbn zeta.
  cbn [p_engine p_ledger p_replayed p_conflicts p_ids]. fold vs engine1. rewrite !Nat.add_0_l, app_nil_l.
  set (s := summary _ _).
  assert (length vs = length entries) as Hlen by apply length_verdicts.
  set (ledger1 := write_all update_status ledger (zip entries vs)).
  assert (map (fun ev : SideCarEntry * ReplayStatus => e_id ev.1) (zip entries vs) = map e_id entries) as Hids
    by by apply zip_fst.
  assert (forall id, ledger !! id = None -> ledger1 !! id = None) as Hnone.
  { intros id Hid. unfold ledger1. rewrite write_all_other; [done|]. rewrite Hids, list_elem_of_fmap.
    intros (e & -> & He). apply elem_of_entries in He as (row & Hr & _). congruence. }
  assert (forall id row, ledger !! id = Some row -> exists row', ledger1 !! id = Some row' /\ same_content row row' /\
    (s_migration_id row <> mid -> row' = row) /\ (forall e v, (e, v) ∈ zip entries vs -> e_id e = id -> status_of row' = v))
    as Hrows.
  { intros id row Hr. destruct (decide (id ∈ map e_id entries)) as [Hin|Hout].
    - rewrite <- Hids in Hin. apply list_elem_of_fmap in Hin as ([e v] & -> & Hev). cbn [fst] in *.
      eexists. unfold ledger1. rewrite (write_all_entry _ _ e v), Hr by (done || rewrite Hids; apply NoDup_entries).
      split; [done|]. split; [done|]. split.
      + intros Hm. assert (e ∈ entries) as He by by eapply elem_of_zip_l.
        apply elem_of_entries in He as (row2 & Hr2 & Hm2 & _). congruence.
      + intros e' v' Hev' Heq. rewrite status_written.
        assert ((e', v') = (e, v)) as [= -> ->]; [|done].
        eapply (NoDup_map_eq (fun ev : SideCarEntry * ReplayStatus => e_id ev.1)); [|done..].
        rewrite Hids. apply NoDup_entries.
    - exists row. unfold ledger1. rewrite write_all_other by by rewrite Hids. split; [done|]. split; [done|].
      split; [done|]. intros e v Hev <-. exfalso. apply Hout. rewrite <- Hids. apply list_elem_of_fmap. by exists (e, v). }
  pose proof (complete_iff vs (length entries) Hlen) as Hc. fold (complete s) in Hc.
  assert (replayed s + conflicts s = total_entries s)%nat as Htotal.
  { cbn. rewrite count_if_split. done. }
  destruct (complete s) eqn:Hcomp; exists s; (split; [done|]); (split; [done|]); (split; [done|]);
    (split; [done|]); (split; [exact Hc|]); rewrite Hcomp; (split; [done|]); [split|split; [done|exact Hrows]].
  - intros id Hid. unfold mark_migration_complete. by rewrite lookup_fmap, Hnone.
  - intros id row Hr. destruct (Hrows id row Hr) as (row' & Hr' & Hsame & Hother & Hv).
    unfold mark_migration_complete. rewrite lookup_fmap, Hr'. cbn. eexists. split; [done|].
    destruct Hsame as (Hm & Htn & Hb & Hts). case_decide as Hmid.
    + split; [done|]. split; [congruence|]. done.
    + split; [done|]. split; [done|]. intros e v Hev Heq. exfalso. apply Hmid. rewrite Hm.
      assert (e ∈ entries) as He by by eapply elem_of_zip_l.
      apply elem_of_entries in He as (row2 & Hr2 & Hm2 & _). congruence.
Qed.

(** A replay moves the engine by nothing but the Deltas and the tags it hands it. *)
Lemma replay_sidecar_moves {E} `{!ReplayTarget E} (R : relation E) `{!PreOrder R} (ledger : SideCarLedger)
    (mid : MigrationId) (h : SchemaIdentifierHash) (engine : E) (now : Z) :
  (forall e d, R e (rt_apply e d now).1) -> (forall e id t, R e (rt_tag e id t)) ->
  R engine (replay_sidecar ledger mid h engine now).1.2.
Proof.
  intros Ha Ht. destruct (replay_in_order_spec ledger mid h engine now) as (_ & _ & Hr).
  destruct (replay_sidecar ledger mid h engine now) as [[ledger' engine'] r]. cbn.
  destruct Hr as (s & _ & _ & _ & _ & _ & -> & _).
  assert (forall ds e, R e (apply_all now e ds)) as Happ.
  { unfold apply_all. induction ds as [|d ds IH]; intros e; cbn; [done|]. etrans; [apply Ha|apply IH]. }
  assert (forall ids e, R e (tag_replayed e ids mid)) as Htag.
  { unfold tag_replayed. induction ids as [|id ids IH]; intros e; cbn; [done|]. etrans; [apply Ht|apply IH]. }
  destruct (complete s); [etrans; [apply Happ|apply Htag]|apply Happ].
Qed.

(** The replay of a migration's entries.  They are taken in the order of their recorded
    times; the engine is given every entry that reads as a Delta, once and in that order,
    and whatever one of them does the pass goes on.  Each row ends with the verdict of its
    own turn, its content untouched, and no row of another migration is written; the pass
    is complete, with every row [COMPLETE] and every replayed Delta tagged
    [ReplayComplete], exactly when there was an entry and all of them were replayed. *)
Theorem replay_in_order {E} `{!ReplayTarget E} (ledger : SideCarLedger) (mid : MigrationId)
    (h : SchemaIdentifierHash) (engine : E) (now : Z) :
  let entries := load_entries_ordered ledger mid in
  let vs := verdicts delta_of_json "engine error during replay" now engine entries in
  let engine1 := apply_all now engine (deltas_of delta_of_json entries) in
  Sorted (key_le e_recorded_ts) entries /\
  (forall e, e ∈ entries <-> exists row, ledger !! e_id e = Some row /\ s_migration_id row = mid /\ e = decode mid (e_id e, row)) /\
  let '(ledger', engine', r) := replay_sidecar ledger mid h engine now in
  exists s, r = Ok s /\
    total_entries s = length entries /\ replayed s = count_if is_replayed vs /\
    (replayed s + conflicts s)%nat = total_entries s /\
    (complete s = true <-> (0 < total_entries s)%nat /\ Forall (fun v => v = Replayed) vs) /\
    engine' = (if complete s then tag_replayed engine1 (merged_ids delta_of_json entries vs) mid else engine1) /\
    (forall id, ledger !! id = None -> ledger' !! id = None) /\
    (forall id row, ledger !! id = Some row -> exists row', ledger' !! id = Some row' /\ same_content row row' /\
       (s_migration_id row <> mid -> row' = row) /\
       (forall e v, (e, v) ∈ zip entries vs -> e_id e = id ->
          status_of row' = if complete s then Complete else v)).
Proof. exact (replay_in_order_spec ledger mid h engine now). Qed.
(** What the replay of one migration leaves of the rows. *)
Lemma replay_rows {E} `{!ReplayTarget E} (ledger : SideCarLedger) (mid : MigrationId)
    (h : SchemaIdentifierHash) (engine : E) (now : Z) :
  let '(ledger', _, _) := replay_sidecar ledger mid h engine now in
  (forall id, ledger !! id = None -> ledger' !! id = None) /\
  (forall id row, ledger !! id = Some row -> exists row', ledger' !! id = Some row' /\ same_content row row' /\
     (s_migration_id row <> mid -> row' = row)).
Proof.
  pose proof (replay_in_order_spec ledger mid h engine now) as (_ & _ & Hspec).
  destruct (replay_sidecar ledger mid h engine now) as [[ledger' engine'] r].
  destruct Hspec as (s & _ & _ & _ & _ & _ & _ & Hn & Hs). split; [done|].
  intros id row Hr. destruct (Hs id row Hr) as (row' & ? & ? & ? & _). by exists row'.
Qed.

Lemma verdicts_not_pending {E} `{!ReplayTarget E} text now (engine : E) entries :
  Forall (fun v => v <> Pending) (verdicts delta_of_json text now engine entries).
Proof.
  revert engine. induction entries as [|entry entries IH]; intros engine; [constructor|]. cbn [verdicts].
  assert ((verdict delta_of_json text now engine entry).2 <> Pending) as Hv.
  { unfold verdict. destruct (delta_of_json _) as [d|]; [|done]. by destruct (rt_apply engine d now) as [? [[]|]]. }
  destruct (verdict _ _ _ engine entry) as [engine1 v]. constructor; [done|apply IH].
Qed.

(** A replay leaves no row of its migration pending. *)
Lemma replay_not_pending {E} `{!ReplayTarget E} (ledger : SideCarLedger) (mid : MigrationId)
    (h : SchemaIdentifierHash) (engine : E) (now : Z) id row :
  ledger !! id = Some row -> s_migration_id row = mid ->
  exists row', (replay_sidecar ledger mid h engine now).1.1 !! id = Some row' /\ status_of row' <> Pending.
Proof.
  intros Hr Hm. pose proof (replay_in_order_spec ledger mid h engine now) as (_ & Hin & Hspec).
  destruct (replay_sidecar ledger mid h engine now) as [[ledger' engine'] r].
  destruct Hspec as (s & _ & _ & _ & _ & _ & _ & _ & Hs).
  destruct (Hs id row Hr) as (row' & Hr' & _ & _ & Hv). exists row'. split; [done|].
  set (vs := verdicts _ _ _ _ _) in *.
  assert (decode mid (id, row) ∈ load_entries_ordered ledger mid) as He by (apply Hin; by exists row).
  apply list_elem_of_lookup in He as [i Hi].
  assert (exists v, vs !! i = Some v) as [v Hvi].
  { apply lookup_lt_is_Some. unfold vs. rewrite length_verdicts. by eapply lookup_lt_Some. }
  rewrite (Hv (decode mid (id, row)) v); [|apply (list_elem_of_lookup_2 _ i); by rewrite lookup_zip_with, Hi, Hvi|done].
  destruct (complete s); [done|]. pose proof (verdicts_not_pending "engine error during replay" now engine
    (load_entries_ordered ledger mid)) as Hnp.
  eapply Forall_lookup_1 in Hnp; [exact Hnp|exact Hvi].
Qed.

(** The engine after the replay of one migration, tags left aside. *)
Lemma replay_engine {E} `{!ReplayTarget E} (ledger : SideCarLedger) (mid : MigrationId)
    (h : SchemaIdentifierHash) (engine : E) (now : Z) :
  exists ids, (replay_sidecar ledger mid h engine now).1.2 =
    tag_replayed (apply_all now engine (deltas_of delta_of_json (load_entries_ordered ledger mid))) ids mid.
Proof.
  pose proof (replay_in_order_spec ledger mid h engine now) as (_ & _ & Hspec).
  destruct (replay_sidecar ledger mid h engine now) as [[ledger' engine'] r].
  destruct Hspec as (s & _ & _ & _ & _ & _ & -> & _). destruct (complete s); [by eexists|by exists []].
Qed.
End Native.

(** *** WASM: an entry is looked for by a scan, which fails on an empty store *)

Section Wasm.
Context `{!IdbCursor} (sha256 : bytes -> N) (delta_of_json : bytes -> option Delta).

Definition scan_sidecar_entries_for_migration (store : gmap N SideCarEntry)
    (migration_id : MigrationId) : Res (list SideCarEntry) :=
  all ← ok_or (open_cursor (idb_records store)) (LocalStoreWriteFailed "sidecar cursor is null");
  Ok (sort_by_key e_recorded_ts (filter (fun e => e_migration_id e = migration_id) all)).

Definition wasm_record (store : gmap N SideCarEntry) (migration_id : MigrationId)
    (table_name : string) (delta_bytes : bytes) (recorded_ts : Z)
  : gmap N SideCarEntry * Res DeltaId :=
  let id := entry_id sha256 delta_bytes recorded_ts in
  match scan_sidecar_entries_for_migration store migration_id with
  | Err e => (store, Err e)
  | Ok all =>
      if existsb (fun e => bool_decide (e_id e = id)) all then (store, Ok id)
      else (<[id := mkEntry id migration_id table_name delta_bytes recorded_ts Pending]> store, Ok id)
  end.

Definition update_sidecar_status (store : gmap N SideCarEntry) (id : DeltaId) (status : ReplayStatus)
  : gmap N SideCarEntry :=
  alter (fun e => mkEntry (e_id e) (e_migration_id e) (e_table_name e) (e_delta_bytes e)
    (e_recorded_ts e) status) id store.

Definition wasm_replay_sidecar {E} `{!ReplayTarget E} (store : gmap N SideCarEntry)
    (migration_id : MigrationId) (engine : E) (now : Z)
  : gmap N SideCarEntry * E * Res ReplaySummary :=
  match scan_sidecar_entries_for_migration store migration_id with
  | Err e => (store, engine, Err e)
  | Ok entries =>
      let p := replay_entries delta_of_json update_sidecar_status "engine error" now store engine entries in
      let summary := summary p entries in
      if complete summary then
        (foldl (fun st entry => update_sidecar_status st (e_id entry) Complete) (p_ledger p) entries,
         tag_replayed (p_engine p) (p_ids p) migration_id, Ok summary)
      else (p_ledger p, p_engine p, Ok summary)
  end.

(** What applying a Delta and tagging one keep, a replay keeps. *)
Lemma wasm_replay_keeps {E} `{!ReplayTarget E} (P : E -> Prop) (store : gmap N SideCarEntry)
    (migration_id : MigrationId) (engine : E) (now : Z) :
  (forall e d, P e -> P (rt_apply e d now).1) -> (forall e id, P e -> P (rt_tag e id (ReplayComplete migration_id))) ->
  P engine -> P (wasm_replay_sidecar store migration_id engine now).1.2.
Proof.
  intros Happly Htag HP. unfold wasm_replay_sidecar.
  destruct (scan_sidecar_entries_for_migration store migration_id) as [entries|e]; [|done].
  unfold replay_entries. rewrite replay_entries_spec. cbn [p_engine p_ids].
  assert (forall ds e, P e -> P (apply_all now e ds)) as Hall.
  { induction ds as [|d ds IH]; intros e He; [done|]. by apply IH, Happly. }
  destruct (complete _); cbn [fst snd]; [|by apply Hall]. unfold tag_replayed.
  assert (forall ids e, P e -> P (foldl (fun e id => rt_tag e id (ReplayComplete migration_id)) e ids)) as Htags.
  { induction ids as [|id ids IH]; intros e He; [done|]. by apply IH, Htag. }
  by apply Htags, Hall.
Qed.

Lemma idb_records_empty {A} : @idb_records A ∅ = [].
Proof. unfold idb_records. by rewrite map_to_list_empty. Qed.

(** The WASM side-car ledger stays empty: its first [record] scans an empty store, the scan
    fails for want of a cursor, and nothing is ever put. *)
Theorem wasm_never_captures (writes : list (MigrationId * string * bytes * Z)) :
  foldl (fun st '(mid, table, delta_bytes, ts) => (wasm_record st mid table delta_bytes ts).1) ∅ writes = ∅ /\
  forall mid table delta_bytes ts,
    wasm_record ∅ mid table delta_bytes ts = (∅, Err (LocalStoreWriteFailed "sidecar cursor is null")).
Proof.
  assert (forall mid table delta_bytes ts,
    wasm_record ∅ mid table delta_bytes ts = (∅, Err (LocalStoreWriteFailed "sidecar cursor is null"))) as Hr.
  { intros. unfold wasm_record, scan_sidecar_entries_for_migration. by rewrite idb_records_empty, open_cursor_nil. }
  split; [|exact Hr]. induction writes as [|[[[mid table] delta_bytes] ts] writes IH]; [done|].
  cbn [foldl]. by rewrite Hr.
Qed.
End Wasm.
End Sidecar.

(** ** WASM against native: receiving a released entry again *)

Section Examples.
#[local] Existing Instance select_canonical.
Import Quarantine.

Definition byte_sum (b : bytes) : N := foldr N.add 0%N b.

Definition native_after : option MigrationId :=
  let l := (quarantine byte_sum ∅ "p" [1]%N (Some 9%N) UnknownSchemaHash 10).1 in
  let l := (release_for_migration l 9%N 77%N).1 in
  let l := (quarantine byte_sum l "q" [1]%N (Some 9%N) UnknownSchemaHash 20).1 in
  l !! 1%N ≫= r_migration_id.

Definition wasm_after `{!IdbCursor} : option MigrationId :=
  let l := (wasm_quarantine byte_sum ∅ "p" [1]%N (Some 9%N) UnknownSchemaHash 10).1 in
  let l := (wasm_release_for_migration l 9%N 77%N).1 in
  let l := (wasm_quarantine byte_sum l "q" [1]%N (Some 9%N) UnknownSchemaHash 20).1 in
  l !! 1%N ≫= q_migration_id.

Example requarantine_differs : native_after = Some 77%N /\ @wasm_after idb_cursor = None.
Proof. by vm_compute. Qed.
End Examples.
