(* ===== verification/Migration.v ===== *)
(** * Schema migrations: [migration/mod.rs], [version_path.rs], [migration_delta.rs],
    [migration/revocation.rs], and the migration jobs of [api/mod.rs]

    A migration is prepared under the engine's lock, executed by the sandbox with the lock
    released, and finished under the lock again; revocations arrive in between.  The sandbox
    is a parameter: what it returns is data of the step that finishes a job.  The module
    [Jobs] puts the engine beside the CRDT engine and lets the background jobs of the
    inbound pipeline interleave lock by lock. *)

From S2P Require Import Prelude Types Dag Identity Contamination Schema SchemaText Automerge Crdt Ledgers.

Module Migration.
Import Schema.

(** [migration_delta.rs] *)
Record ManagerSignature := mkManagerSig {
  ms_manager_did : Did;
  ms_signature : Ed25519Signature
}.

Record MigrationDelta := mkMigration {
  m_id : MigrationId;
  m_author_did : Did;
  m_signature : Ed25519Signature;
  m_source_schema_hash : SchemaIdentifierHash;
  m_target_schema_hash : SchemaIdentifierHash;
  m_transform_bytes : bytes;
  m_ca_signature : bytes;
  m_transform_sha256 : N;
  m_priority : PriorityClass;
  m_created_at : Z
}.

Record MigrationRevocationDelta := mkRevocation {
  target_migration_id : MigrationId;
  rv_signatures : list ManagerSignature;
  rv_created_at : Z
}.

(** [wasm_sandbox.rs] *)
Inductive MigrationResult :=
| Success
| TimedOut (timeout_secs : Z)
| Aborted (reason : string)
| RevokedResult (reason : string).

(** ** [version_path.rs] *)

(** [iter().position(..).and_then(|idx| versions.get(idx + 1))] *)
Definition next_version (versions : list SchemaIdentifierHash) (current : SchemaIdentifierHash)
  : option SchemaIdentifierHash :=
  '(idx, _) ← list_find (fun v => v = current) versions; versions !! S idx.

Definition current_version (versions : list SchemaIdentifierHash) : option SchemaIdentifierHash :=
  last versions.

Definition is_valid_step (versions : list SchemaIdentifierHash) (source target : SchemaIdentifierHash)
  : bool :=
  match next_version versions source with
  | Some expected_next => bool_decide (expected_next = target)
  | None => false
  end.

(** ** [revocation.rs] *)

Record RevocationRecord := mkRecord {
  rr_migration_id : MigrationId;
  rr_authorised_by : list Did;
  rr_revoked_at : Z
}.

Record RevokedMigrationRegistry := mkRegistry {
  revoked : gset MigrationId;
  known : gset MigrationId;
  revocation_log : list RevocationRecord;
  in_progress : gset MigrationId
}.

Definition empty_registry : RevokedMigrationRegistry := mkRegistry ∅ ∅ [] ∅.

Definition record_known_migration (r : RevokedMigrationRegistry) (id : MigrationId) :=
  mkRegistry (revoked r) ({[id]} ∪ known r) (revocation_log r) (in_progress r).
Definition mark_in_progress (r : RevokedMigrationRegistry) (id : MigrationId) :=
  mkRegistry (revoked r) (known r) (revocation_log r) ({[id]} ∪ in_progress r).
Definition clear_in_progress (r : RevokedMigrationRegistry) (id : MigrationId) :=
  mkRegistry (revoked r) (known r) (revocation_log r) (in_progress r ∖ {[id]}).
Definition is_revoked (r : RevokedMigrationRegistry) (id : MigrationId) : bool :=
  bool_decide (id ∈ revoked r).
Definition is_in_progress (r : RevokedMigrationRegistry) (id : MigrationId) : bool :=
  bool_decide (id ∈ in_progress r).
Definition has_in_progress (r : RevokedMigrationRegistry) : bool :=
  negb (bool_decide (in_progress r = ∅)).

Section Registry.
Context `{!Bs58} `{!Ed25519}.

(** [&revocation.target_migration_id[..]] *)
Definition signed_payload (id : MigrationId) : bytes := be_bytes 32 id.

(** The four checks of the loop, each of which skips the signature when it fails. *)
Definition signature_counts (target : MigrationId) (ms : ManagerSignature) : bool :=
  match Did.resolve_did (ms_manager_did ms) with
  | Err _ => false
  | Ok public_key =>
      match Keypair.as_bytes (ms_signature ms) with
      | None => false
      | Some sig => ed_key_ok public_key && ed_verify public_key (signed_payload target) sig
      end
  end.

Definition add_manager (target : MigrationId) (valid : list Did) (ms : ManagerSignature) : list Did :=
  if signature_counts target ms then
    if decide (ms_manager_did ms ∈ valid) then valid else valid ++ [ms_manager_did ms]
  else valid.

Definition valid_managers (target : MigrationId) (sigs : list ManagerSignature) : list Did :=
  foldl (add_manager target) [] sigs.

Definition apply_revocation (r : RevokedMigrationRegistry) (revocation : MigrationRevocationDelta)
    (threshold_m : nat) (now : Z) : RevokedMigrationRegistry * Res bool :=
  let target := target_migration_id revocation in
  if bool_decide (target ∈ known r) then
    let valid := valid_managers target (rv_signatures revocation) in
    if (length valid <? threshold_m)%nat then (r, Err (ThresholdNotMet (length valid) threshold_m))
    else
      (mkRegistry ({[target]} ∪ revoked r) (known r)
         (revocation_log r ++ [mkRecord target valid now]) (in_progress r),
       Ok (is_in_progress r target))
  else (r, Err (UnknownMigrationHash target)).

Lemma signature_counts_spec target ms :
  signature_counts target ms = true <->
  exists key, Did.resolve_did (ms_manager_did ms) = Ok key /\ length (ms_signature ms) = 64%nat /\
    ed_key_ok key = true /\ ed_verify key (signed_payload target) (ms_signature ms) = true.
Proof.
  unfold signature_counts, Keypair.as_bytes. destruct (Did.resolve_did _) as [key|err]; [|naive_solver].
  case_decide; [rewrite andb_true_iff|]; naive_solver.
Qed.

Lemma valid_managers_spec target sigs :
  NoDup (valid_managers target sigs) /\
  forall did, did ∈ valid_managers target sigs <->
    exists ms, ms ∈ sigs /\ ms_manager_did ms = did /\ signature_counts target ms = true.
Proof.
  induction sigs as [|x sigs [Hnd Hin]] using rev_ind.
  { split; [constructor|]. intros did. unfold valid_managers. cbn. rewrite elem_of_nil.
    split; [done|]. intros (? & ?%elem_of_nil & _). done. }
  unfold valid_managers in *. rewrite foldl_app. cbn [foldl].
  set (v := foldl (add_manager target) [] sigs) in *. clearbody v. unfold add_manager.
  assert (forall did, (exists ms, ms ∈ sigs ++ [x] /\ ms_manager_did ms = did /\ signature_counts target ms = true) <->
    did ∈ v \/ ms_manager_did x = did /\ signature_counts target x = true) as Hsnoc.
  { intros did. rewrite Hin. setoid_rewrite elem_of_app. setoid_rewrite list_elem_of_singleton. naive_solver. }
  destruct (signature_counts target x) eqn:Hs; [destruct (decide (ms_manager_did x ∈ v)) as [Hd|Hd]|].
  - split; [done|]. intros did. rewrite Hsnoc. split; [by left|]. by intros [?|[<- _]].
  - split; [apply NoDup_app; split; [done|split; [|apply NoDup_singleton]]|].
    { intros y Hy Hy'. apply list_elem_of_singleton in Hy' as ->. done. }
    intros did. rewrite Hsnoc, elem_of_app, list_elem_of_singleton. naive_solver.
  - split; [done|]. intros did. rewrite Hsnoc. naive_solver.
Qed.

End Registry.

(** ** The engine *)

Record PreparedMigration := mkPrepared {
  p_migration_id : MigrationId;
  p_target_schema_hash : SchemaIdentifierHash;
  p_transform_bytes : bytes;
  p_timeout_secs : Z
}.

Record SchemaMigrationEngine := mkEngine {
  ca_public_key : bytes;
  local_schema_hash : SchemaIdentifierHash;
  version_path : list SchemaIdentifierHash;
  registry : RevokedMigrationRegistry;
  blacklisted_senders : gset Did;
  threshold_m : nat;
  quarantine_ledger : gmap N Quarantine.Row;
  sidecar_ledger : gmap N Sidecar.Row;
  migration_targets : gmap MigrationId SchemaIdentifierHash;
  corrupted_schema_windows : gmap SchemaIdentifierHash (list MigrationId);
  definitions : gmap SchemaIdentifierHash Schema
}.

(** Field updates. *)
Definition set_local (e : SchemaMigrationEngine) h := mkEngine (ca_public_key e) h (version_path e)
  (registry e) (blacklisted_senders e) (threshold_m e) (quarantine_ledger e) (sidecar_ledger e)
  (migration_targets e) (corrupted_schema_windows e) (definitions e).
Definition set_registry (e : SchemaMigrationEngine) r := mkEngine (ca_public_key e) (local_schema_hash e)
  (version_path e) r (blacklisted_senders e) (threshold_m e) (quarantine_ledger e) (sidecar_ledger e)
  (migration_targets e) (corrupted_schema_windows e) (definitions e).
Definition set_blacklist (e : SchemaMigrationEngine) b := mkEngine (ca_public_key e) (local_schema_hash e)
  (version_path e) (registry e) b (threshold_m e) (quarantine_ledger e) (sidecar_ledger e)
  (migration_targets e) (corrupted_schema_windows e) (definitions e).
Definition set_targets (e : SchemaMigrationEngine) t := mkEngine (ca_public_key e) (local_schema_hash e)
  (version_path e) (registry e) (blacklisted_senders e) (threshold_m e) (quarantine_ledger e)
  (sidecar_ledger e) t (corrupted_schema_windows e) (definitions e).
Definition set_windows (e : SchemaMigrationEngine) w := mkEngine (ca_public_key e) (local_schema_hash e)
  (version_path e) (registry e) (blacklisted_senders e) (threshold_m e) (quarantine_ledger e)
  (sidecar_ledger e) (migration_targets e) w (definitions e).
Definition set_ledgers (e : SchemaMigrationEngine) q s := mkEngine (ca_public_key e) (local_schema_hash e)
  (version_path e) (registry e) (blacklisted_senders e) (threshold_m e) q s
  (migration_targets e) (corrupted_schema_windows e) (definitions e).

Definition new (ca_public_key : bytes) (local_schema_hash : SchemaIdentifierHash)
    (version_path : list SchemaIdentifierHash) (revocation_threshold_m : nat)
    (q : gmap N Quarantine.Row) (s : gmap N Sidecar.Row)
    (schema_definitions : gmap SchemaIdentifierHash Schema) : SchemaMigrationEngine :=
  mkEngine ca_public_key local_schema_hash version_path empty_registry ∅ revocation_threshold_m
    q s ∅ ∅ schema_definitions.

Definition register_ca_public_key (e : SchemaMigrationEngine) (key : bytes) : SchemaMigrationEngine :=
  mkEngine key (local_schema_hash e) (version_path e) (registry e) (blacklisted_senders e)
    (threshold_m e) (quarantine_ledger e) (sidecar_ledger e) (migration_targets e)
    (corrupted_schema_windows e) (definitions e).

Definition is_blacklisted (e : SchemaMigrationEngine) (did : Did) : bool :=
  bool_decide (did ∈ blacklisted_senders e).
Definition target_schema_for_migration (e : SchemaMigrationEngine) (id : MigrationId)
  : option SchemaIdentifierHash := migration_targets e !! id.
Definition any_migration_in_progress (e : SchemaMigrationEngine) : bool := has_in_progress (registry e).

Section Engine.
Context `{!SelectOrder} `{!Bs58} `{!Ed25519}.
Context (sha256 : bytes -> N).
Context (f64_parse : string -> SpecFloat.spec_float) (f64_display : SpecFloat.spec_float -> string).
Context (pest_error : string -> Z * Z * string).

Definition verify_ca_signature (e : SchemaMigrationEngine) (delta : MigrationDelta) : Res unit :=
  match m_ca_signature delta with
  | [] => Err (MigrationCaSignatureInvalid (m_id delta))
  | sig =>
      if decide (length sig = 64%nat) then
        if ed_key_ok (ca_public_key e) then
          if ed_verify (ca_public_key e) (m_transform_bytes delta) sig then Ok tt
          else Err (MigrationCaSignatureInvalid (m_id delta))
        else Err (SignatureVerificationFailed "invalid CA public key")
      else Err (MigrationCaSignatureInvalid (m_id delta))
  end.

Definition verify_transform_hash (delta : MigrationDelta) : Res unit :=
  if decide (sha256 (m_transform_bytes delta) = m_transform_sha256 delta) then Ok tt
  else Err (MigrationHashMismatch (m_id delta)).

(** The registered document of the target, printed, parsed and hashed again. *)
Definition verify_definition (e : SchemaMigrationEngine) (delta : MigrationDelta) : Res unit :=
  match definitions e !! m_target_schema_hash delta with
  | None => Ok tt
  | Some schema =>
      match SchemaText.parse f64_parse pest_error (SchemaText.print f64_display schema) with
      | Ok reparsed =>
          if decide (identifier_hash sha256 reparsed = m_target_schema_hash delta) then Ok tt
          else Err (VersionPathMismatch (local_schema_hash e) (m_source_schema_hash delta)
            (Some (default 0%N (next_version (version_path e) (m_source_schema_hash delta)))))
      | Err errors => Err (AuthorisationFailed "target schema definition failed parser validation")
      end
  end.

Definition verify_version_path (e : SchemaMigrationEngine) (delta : MigrationDelta) : Res unit :=
  if decide (m_source_schema_hash delta = local_schema_hash e) then
    if is_valid_step (version_path e) (m_source_schema_hash delta) (m_target_schema_hash delta) then
      verify_definition e delta
    else Err (VersionPathMismatch (local_schema_hash e) (m_source_schema_hash delta)
           (Some (default 0%N (next_version (version_path e) (m_source_schema_hash delta)))))
  else Err (VersionPathMismatch (local_schema_hash e) (m_source_schema_hash delta)
         (Some (default 0%N (next_version (version_path e) (local_schema_hash e))))).

Definition blacklist (e : SchemaMigrationEngine) (sender_did : Did) : SchemaMigrationEngine :=
  set_blacklist e ({[sender_did]} ∪ blacklisted_senders e).

Definition prepare_migration (e : SchemaMigrationEngine) (delta : MigrationDelta) (sender_did : Did)
  : SchemaMigrationEngine * Res PreparedMigration :=
  if is_blacklisted e sender_did then (e, Err (AuthorisationFailed "sender is blacklisted"))
  else if is_revoked (registry e) (m_id delta) then
    (e, Err (AuthorisationFailed "migration has been revoked"))
  else
    match verify_ca_signature e delta with
    | Err _ => (blacklist e sender_did, Err (MigrationCaSignatureInvalid (m_id delta)))
    | Ok _ =>
        match verify_transform_hash delta with
        | Err _ => (blacklist e sender_did, Err (MigrationHashMismatch (m_id delta)))
        | Ok _ =>
            let e := set_registry e (record_known_migration (registry e) (m_id delta)) in
            let e := set_targets e (<[m_id delta := m_target_schema_hash delta]> (migration_targets e)) in
            match verify_version_path e delta with
            | Err err => (e, Err err)
            | Ok _ =>
                if has_in_progress (registry e) then (e, Err (MigrationInProgress (m_id delta)))
                else
                  (set_registry e (mark_in_progress (registry e) (m_id delta)),
                   Ok (mkPrepared (m_id delta) (m_target_schema_hash delta) (m_transform_bytes delta) 30))
            end
        end
    end.

Definition finish_migration (e : SchemaMigrationEngine) (migration_id : MigrationId)
    (target_schema_hash : SchemaIdentifierHash) (result : Res MigrationResult)
  : SchemaMigrationEngine * Res MigrationResult :=
  let e := set_registry e (clear_in_progress (registry e) migration_id) in
  if is_revoked (registry e) migration_id then
    (e, Ok (RevokedResult "migration revoked while in progress"))
  else
    match result with
    | Ok Success => (set_local e target_schema_hash, Ok Success)
    | Ok other => (e, Ok other)
    | Err err => (e, Err err)
    end.

(** The synchronous path: [execute_migration] runs under the lock. *)
Definition receive_migration_delta
    (execute_migration : bytes -> MigrationId -> Z -> Res MigrationResult)
    (e : SchemaMigrationEngine) (delta : MigrationDelta) (sender_did : Did)
  : SchemaMigrationEngine * Res MigrationResult :=
  match prepare_migration e delta sender_did with
  | (e, Err err) => (e, Err err)
  | (e, Ok p) =>
      let result := execute_migration (p_transform_bytes p) (p_migration_id p) (p_timeout_secs p) in
      let '(e, outcome) := finish_migration e (p_migration_id p) (p_target_schema_hash p) result in
      (e, match outcome with
          | Ok (TimedOut _) => Err (MigrationTransformTimeout (p_migration_id p))
          | other => other
          end)
  end.

Definition open_window (e : SchemaMigrationEngine) (target : SchemaIdentifierHash) (revoked_id : MigrationId)
  : SchemaMigrationEngine :=
  set_windows e (<[target := default [] (corrupted_schema_windows e !! target) ++ [revoked_id]]>
    (corrupted_schema_windows e)).

Definition receive_revocation_delta (e : SchemaMigrationEngine) (delta : MigrationRevocationDelta) (now : Z)
  : SchemaMigrationEngine * Res bool :=
  let revoked_id := target_migration_id delta in
  match apply_revocation (registry e) delta (threshold_m e) now with
  | (r, Err err) => (set_registry e r, Err err)
  | (r, Ok halted) =>
      let e := set_registry e r in
      (match migration_targets e !! revoked_id with
       | Some target => if decide (target = local_schema_hash e) then open_window e target revoked_id else e
       | None => e
       end, Ok halted)
  end.

(** *** Quarantine *)

Definition is_schema_quarantined (e : SchemaMigrationEngine) (table : string) : bool :=
  existsb (fun q => bool_decide (Quarantine.q_schema_hash q = Some (local_schema_hash e)) &&
                    bool_decide (Quarantine.q_migration_id q = None))
    (Quarantine.get_all (quarantine_ledger e)).

Definition quarantine_incoming (e : SchemaMigrationEngine) (sender_did : Did) (raw_bytes : bytes)
    (schema_hash : option SchemaIdentifierHash) (reason : Quarantine.QuarantineReason) (received_at : Z)
  : SchemaMigrationEngine * Res N :=
  let '(q, r) := Quarantine.quarantine sha256 (quarantine_ledger e) sender_did raw_bytes schema_hash
                   reason received_at in
  (set_ledgers e q (sidecar_ledger e), r).

(** *** Corruption windows *)

Definition active_corruption_migration (e : SchemaMigrationEngine) : option MigrationId :=
  corrupted_schema_windows e !! local_schema_hash e ≫= head.

Definition record_corrupted_window_write (e : SchemaMigrationEngine) (table : string)
    (delta_bytes : bytes) (recorded_ts : Z) : SchemaMigrationEngine * Res (option DeltaId) :=
  match active_corruption_migration e with
  | None => (e, Ok None)
  | Some migration_id =>
      match Sidecar.record sha256 (sidecar_ledger e) migration_id table delta_bytes recorded_ts with
      | (s, Ok entry_id) => (set_ledgers e (quarantine_ledger e) s, Ok (Some entry_id))
      | (s, Err err) => (set_ledgers e (quarantine_ledger e) s, Err err)
      end
  end.

(** A failed replay is logged and the loop goes on. *)
Definition replay_corrupted_windows {E} `{!ReplayTarget E} (delta_of_json : bytes -> option Delta)
    (e : SchemaMigrationEngine) (pre_migration_schema corrected_schema_hash : SchemaIdentifierHash) (engine : E) (now : Z)
  : SchemaMigrationEngine * E :=
  match corrupted_schema_windows e !! pre_migration_schema with
  | None => (e, engine)
  | Some migration_ids =>
      let e := set_windows e (delete pre_migration_schema (corrupted_schema_windows e)) in
      let '(s, engine) := foldl (fun '(s, engine) migration_id =>
          let '(s, engine, _) :=
            Sidecar.replay_sidecar delta_of_json s migration_id corrected_schema_hash engine now in
          (s, engine)) (sidecar_ledger e, engine) migration_ids in
      (set_ledgers e (quarantine_ledger e) s, engine)
  end.

(** ** What the gate checks *)

(** The CA's signature covers the transform alone. *)
Definition ca_signed (key transform sig : bytes) : Prop :=
  length sig = 64%nat /\ ed_key_ok key = true /\ ed_verify key transform sig = true.

Definition authentic (key : bytes) (delta : MigrationDelta) : Prop :=
  ca_signed key (m_transform_bytes delta) (m_ca_signature delta) /\
  sha256 (m_transform_bytes delta) = m_transform_sha256 delta.

Lemma verify_ca_signature_ok e delta :
  is_ok (verify_ca_signature e delta) = true <->
  ca_signed (ca_public_key e) (m_transform_bytes delta) (m_ca_signature delta).
Proof.
  unfold verify_ca_signature, ca_signed. destruct (m_ca_signature delta) as [|b sig] eqn:Hs.
  { split; [done|]. by intros (? & _). }
  case_decide as Hl; [|split; [done|by intros (? & _)]].
  destruct (ed_key_ok _); [|split; [done|by intros (_ & ? & _)]].
  destruct (ed_verify _ _ _); [done|split; [done|by intros (_ & _ & ?)]].
Qed.

Lemma verify_transform_hash_ok delta :
  is_ok (verify_transform_hash delta) = true <-> sha256 (m_transform_bytes delta) = m_transform_sha256 delta.
Proof. unfold verify_transform_hash. by case_decide. Qed.

Lemma is_valid_step_true versions a b : is_valid_step versions a b = true <-> next_version versions a = Some b.
Proof.
  unfold is_valid_step. destruct (next_version versions a) as [x|]; [|done].
  rewrite bool_decide_eq_true. naive_solver.
Qed.

Lemma verify_version_path_ok e delta :
  is_ok (verify_version_path e delta) = true <->
  m_source_schema_hash delta = local_schema_hash e /\
  next_version (version_path e) (local_schema_hash e) = Some (m_target_schema_hash delta) /\
  is_ok (verify_definition e delta) = true.
Proof.
  unfold verify_version_path. case_decide as Hs; [|split; [done|naive_solver]]. rewrite <- Hs.
  destruct (is_valid_step _ _ _) eqn:Hv.
  - apply is_valid_step_true in Hv. tauto.
  - split; [done|]. intros (_ & Hn & _). apply is_valid_step_true in Hn. congruence.
Qed.

(** A registered definition that the printer can write and that hashes to the key it is
    registered under. *)
Definition definition_ok (h : SchemaIdentifierHash) (s : Schema) : Prop :=
  SchemaText.printable f64_parse f64_display s /\ identifier_hash sha256 s = h.

Lemma definition_passes e delta :
  (forall h s, definitions e !! h = Some s -> definition_ok h s) -> verify_definition e delta = Ok tt.
Proof.
  intros Hd. unfold verify_definition. destruct (definitions e !! _) as [s|] eqn:Hs; [|done].
  destruct (Hd _ _ Hs) as [Hp Hh]. rewrite SchemaText.parse_print_spec by done. by rewrite decide_True.
Qed.

(** ** Preparing *)

(** The states that differ in the known ids and the recorded targets only. *)
Definition seen (e : SchemaMigrationEngine) (delta : MigrationDelta) : SchemaMigrationEngine :=
  set_targets (set_registry e (record_known_migration (registry e) (m_id delta)))
    (<[m_id delta := m_target_schema_hash delta]> (migration_targets e)).

Lemma verify_path_seen e delta d : verify_version_path (seen e delta) d = verify_version_path e d.
Proof. done. Qed.

Lemma not_ok {A} (r : Res A) : is_ok r <> true -> exists err, r = Err err.
Proof. destruct r; [done|]. by eexists. Qed.

Lemma has_in_progress_false r : has_in_progress r = false <-> in_progress r = ∅.
Proof. unfold has_in_progress. rewrite negb_false_iff. apply bool_decide_eq_true. Qed.

(** The five ways [prepare_migration] can end. *)
Lemma prepare_cases e delta sender :
  (sender ∈ blacklisted_senders e \/ m_id delta ∈ revoked (registry e)) /\
    (exists err, prepare_migration e delta sender = (e, Err err))
  \/ (sender ∉ blacklisted_senders e /\ m_id delta ∉ revoked (registry e)) /\
     ((~ authentic (ca_public_key e) delta /\
         exists err, prepare_migration e delta sender = (blacklist e sender, Err err)) \/
      (authentic (ca_public_key e) delta /\ is_ok (verify_version_path e delta) <> true /\
         exists err, prepare_migration e delta sender = (seen e delta, Err err)) \/
      (authentic (ca_public_key e) delta /\ is_ok (verify_version_path e delta) = true /\
         in_progress (registry e) <> ∅ /\
         prepare_migration e delta sender = (seen e delta, Err (MigrationInProgress (m_id delta)))) \/
      (authentic (ca_public_key e) delta /\ is_ok (verify_version_path e delta) = true /\
         in_progress (registry e) = ∅ /\
         prepare_migration e delta sender =
           (set_registry (seen e delta) (mark_in_progress (registry (seen e delta)) (m_id delta)),
            Ok (mkPrepared (m_id delta) (m_target_schema_hash delta) (m_transform_bytes delta) 30)))).
Proof.
  unfold prepare_migration, is_blacklisted, is_revoked.
  case_bool_decide as Hb; [left; split; [by left|by eexists]|].
  case_bool_decide as Hr; [left; split; [by right|by eexists]|].
  right. split; [done|]. pose proof (verify_ca_signature_ok e delta) as Hca.
  pose proof (verify_transform_hash_ok delta) as Hsha.
  destruct (verify_ca_signature e delta) as [[]|err1].
  2:{ left. split; [|by eexists]. intros [Hc _]. by apply Hca in Hc. }
  destruct (verify_transform_hash delta) as [[]|err2].
  2:{ left. split; [|by eexists]. intros [_ Hs]. by apply Hsha in Hs. }
  right. assert (authentic (ca_public_key e) delta) as Ha by (split; [by apply Hca|by apply Hsha]).
  change (set_targets _ _) with (seen e delta). rewrite verify_path_seen.
  destruct (verify_version_path e delta) as [[]|err3]; [right|by left; split; [done|split; [done|by eexists]]].
  destruct (has_in_progress (registry (seen e delta))) eqn:Hp.
  - left. split; [done|]. split; [done|]. split; [|done]. intros He. apply (has_in_progress_false (registry (seen e delta))) in He. congruence.
  - right. split; [done|]. split; [done|]. split; [by apply has_in_progress_false in Hp|done].
Qed.

(** C28: preparing a migration.  It is handed to the sandbox exactly when its sender is not
    blacklisted, its id not revoked, the CA has signed the transform, the transform's
    SHA-256 is the embedded one, it leads from the device's schema to the next version of
    the path, the target's registered document survives printing and parsing, and nothing
    else is executing; it is then the one migration in progress.  A sender is blacklisted
    exactly for an invalid signature or hash, and the id becomes known exactly when both
    were valid; a refusal never touches the schema or the revocations. *)
Theorem prepare_outcome (e : SchemaMigrationEngine) (delta : MigrationDelta) (sender : Did) :
  let '(e', r) := prepare_migration e delta sender in
  let admitted := sender ∉ blacklisted_senders e /\ m_id delta ∉ revoked (registry e) in
  (forall p, r = Ok p <->
     p = mkPrepared (m_id delta) (m_target_schema_hash delta) (m_transform_bytes delta) 30 /\
     admitted /\ authentic (ca_public_key e) delta /\ m_source_schema_hash delta = local_schema_hash e /\
     next_version (version_path e) (local_schema_hash e) = Some (m_target_schema_hash delta) /\
     is_ok (verify_definition e delta) = true /\ in_progress (registry e) = ∅) /\
  (forall p, r = Ok p -> in_progress (registry e') = {[m_id delta]}) /\
  (forall err, r = Err err -> in_progress (registry e') = in_progress (registry e)) /\
  (forall did, did ∈ blacklisted_senders e' <->
     did ∈ blacklisted_senders e \/ did = sender /\ admitted /\ ~ authentic (ca_public_key e) delta) /\
  (forall id, id ∈ known (registry e') <->
     id ∈ known (registry e) \/ id = m_id delta /\ admitted /\ authentic (ca_public_key e) delta) /\
  local_schema_hash e' = local_schema_hash e /\ revoked (registry e') = revoked (registry e) /\
  corrupted_schema_windows e' = corrupted_schema_windows e /\ sidecar_ledger e' = sidecar_ledger e.
Proof.
  pose proof (verify_version_path_ok e delta) as Hpath.
  destruct (prepare_cases e delta sender) as [[Hno (err & ->)]|[Hadm
    [[Ha (err & ->)]|[(Ha & Hv & err & ->)|[(Ha & Hv & Hp & ->)|(Ha & Hv & Hp & ->)]]]]];
    cbn; (split_and!; try done); intros x;
    rewrite ?elem_of_union, ?elem_of_singleton; try tauto.
  1-4: split; [done|]; tauto.
  - split; [intros [= <-]; tauto|]. by intros (-> & _).
  - intros _. rewrite Hp. set_solver.
Qed.

(** ** Revoking *)

(** Revoking a migration takes effect exactly when its id has been seen in an authentic
    migration and at least [m] distinct DIDs have a valid signature of the id in the Delta;
    then the id is revoked for good and logged with those DIDs, the answer says whether it
    was executing, and a corruption window is opened when its recorded target is the schema
    the device is on.  Otherwise nothing changes. *)
Theorem revocation_outcome (e : SchemaMigrationEngine) (d : MigrationRevocationDelta) (now : Z) :
  let target := target_migration_id d in
  let '(e', r) := receive_revocation_delta e d now in
  let accepted := target ∈ known (registry e) /\
    exists dids, NoDup dids /\ (threshold_m e <= length dids)%nat /\
      forall did, did ∈ dids -> exists ms, ms ∈ rv_signatures d /\ ms_manager_did ms = did /\ signature_counts target ms = true in
  (accepted ->
     r = Ok (is_in_progress (registry e) target) /\
     revoked (registry e') = {[target]} ∪ revoked (registry e) /\
     in_progress (registry e') = in_progress (registry e) /\
     (exists record, revocation_log (registry e') = revocation_log (registry e) ++ [record] /\
        rr_migration_id record = target /\ NoDup (rr_authorised_by record)) /\
     corrupted_schema_windows e' =
       (if decide (migration_targets e !! target = Some (local_schema_hash e)) then
          <[local_schema_hash e := default [] (corrupted_schema_windows e !! local_schema_hash e) ++ [target]]>
            (corrupted_schema_windows e)
        else corrupted_schema_windows e)) /\
  (~ accepted -> e' = e /\ exists err, r = Err err).
Proof.
  clear f64_parse f64_display pest_error sha256.
  cbn zeta. unfold receive_revocation_delta, apply_revocation.
  destruct (valid_managers_spec (target_migration_id d) (rv_signatures d)) as [Hnd Hin].
  case_bool_decide as Hk.
  2:{ split; [naive_solver|]. intros _. split; [by destruct e|by eexists]. }
  set (valid := valid_managers _ _) in *.
  destruct (Nat.ltb_spec (length valid) (threshold_m e)) as [Hlt|Hge].
  - split; [|intros _; split; [by destruct e|by eexists]].
    intros (_ & dids & Hd & Hlen & Hall). exfalso.
    assert (dids ⊆ valid) as Hsub by (intros did Hdid; apply Hin; auto).
    pose proof (NoDup_submseteq dids valid Hd Hsub) as Hs. apply submseteq_length in Hs. lia.
  - split.
    2:{ intros Hn. exfalso. apply Hn. split; [done|]. exists valid. split; [done|]. split; [done|].
        intros did Hdid. by apply Hin. }
    intros _. set (e1 := set_registry e _).
    split; [done|]. change (migration_targets e1) with (migration_targets e).
    change (local_schema_hash e1) with (local_schema_hash e).
    assert (exists record, revocation_log (registry e1) = revocation_log (registry e) ++ [record] /\
      rr_migration_id record = target_migration_id d /\ NoDup (rr_authorised_by record)) as Hlog by by eexists.
    destruct (migration_targets e !! target_migration_id d) as [t|] eqn:Ht.
    + destruct (decide (t = local_schema_hash e)) as [->|Hne].
      * by rewrite decide_True.
      * rewrite decide_False by congruence. done.
    + by rewrite decide_False.
Qed.

(** A registered definition that the printer can write, under the hash of its own schema,
    never stands in the way: the printing and parsing of the pre-flight check changes no
    verdict, and the step is decided by the path alone. *)
Theorem definitions_never_block (e : SchemaMigrationEngine) (delta : MigrationDelta) :
  (forall h s, definitions e !! h = Some s -> definition_ok h s) ->
  is_ok (verify_version_path e delta) =
    bool_decide (m_source_schema_hash delta = local_schema_hash e) &&
    is_valid_step (version_path e) (local_schema_hash e) (m_target_schema_hash delta).
Proof.
  intros Hd. apply eq_true_iff_eq. rewrite verify_version_path_ok, definition_passes, andb_true_iff by done.
  rewrite bool_decide_eq_true, is_valid_step_true. cbn. tauto.
Qed.

(** ** Capture and replay *)

Context (delta_of_json : bytes -> option Delta).

Lemma replay_loop_engine {E} `{!ReplayTarget E} (s : gmap N Sidecar.Row) (engine : E) mids h now :
  let step := fun '(s, engine) mid =>
    let '(s, engine, _) := Sidecar.replay_sidecar delta_of_json s mid h engine now in (s, engine) in
  (forall id, s !! id = None -> (foldl step (s, engine) mids).1 !! id = None) /\
  (forall id row, s !! id = Some row -> exists row', (foldl step (s, engine) mids).1 !! id = Some row' /\
     Sidecar.same_content row row' /\ (Sidecar.s_migration_id row ∉ mids -> row' = row)).
Proof.
  revert s engine. induction mids as [|mid mids IH]; intros s engine step; cbn [foldl].
  { split; [done|]. intros id row Hr. by exists row. }
  unfold step at 2 4. destruct (Sidecar.replay_sidecar _ _ _ _ _ _) as [[s1 engine1] r] eqn:Hrep.
  pose proof (Sidecar.replay_rows delta_of_json s mid h engine now) as Hrows. rewrite Hrep in Hrows.
  destruct Hrows as [Hnone Hsome]. destruct (IH s1 engine1) as [IHn IHs]. split.
  - intros id Hid. by apply IHn, Hnone.
  - intros id row Hr. destruct (Hsome id row Hr) as (row1 & Hr1 & (Ha & Hb & Hc & Hd) & Hother).
    destruct (IHs id row1 Hr1) as (row2 & Hr2 & (Ha2 & Hb2 & Hc2 & Hd2) & Hother2).
    exists row2. split; [exact Hr2|]. split; [split_and!; congruence|].
    intros [Hne Hni]%not_elem_of_cons. rewrite Hother2; [by apply Hother|]. by rewrite Ha.
Qed.

Lemma replay_windows_moves {E} `{!ReplayTarget E} (R : relation E) `{!PreOrder R} (e : SchemaMigrationEngine)
    source h (engine : E) now :
  (forall e d, R e (rt_apply e d now).1) -> (forall e id t, R e (rt_tag e id t)) ->
  R engine (replay_corrupted_windows delta_of_json e source h engine now).2.
Proof.
  intros Ha Ht. unfold replay_corrupted_windows. destruct (corrupted_schema_windows e !! source) as [mids|]; [|done].
  cbn zeta. generalize (sidecar_ledger (set_windows e (delete source (corrupted_schema_windows e)))). revert engine.
  induction mids as [|mid mids IH]; intros engine s; cbn [foldl]; [done|].
  pose proof (Sidecar.replay_sidecar_moves delta_of_json R s mid h engine now Ha Ht) as Hm.
  destruct (Sidecar.replay_sidecar _ _ _ _ _ _) as [[s1 engine1] r]. etrans; [exact Hm|apply IH].
Qed.

Lemma replay_loop_not_pending {E} `{!ReplayTarget E} (s : gmap N Sidecar.Row) (engine : E) mids h now id row :
  let step := fun '(s, engine) mid =>
    let '(s, engine, _) := Sidecar.replay_sidecar delta_of_json s mid h engine now in (s, engine) in
  s !! id = Some row ->
  Sidecar.s_migration_id row ∈ mids \/ Sidecar.status_of row <> Sidecar.Pending ->
  exists row', (foldl step (s, engine) mids).1 !! id = Some row' /\
    Sidecar.s_delta_bytes row' = Sidecar.s_delta_bytes row /\ Sidecar.status_of row' <> Sidecar.Pending.
Proof.
  revert s engine row. induction mids as [|mid mids IH]; intros s engine row step Hr Hp; cbn [foldl].
  { exists row. split; [done|]. split; [done|]. by destruct Hp as [?%elem_of_nil|]. }
  pose proof (Sidecar.replay_rows delta_of_json s mid h engine now) as Hrows.
  pose proof (Sidecar.replay_not_pending delta_of_json s mid h engine now id row Hr) as Hnp.
  unfold step at 2. destruct (Sidecar.replay_sidecar _ _ _ _ _ _) as [[s1 engine1] r]. cbn [fst] in Hnp.
  destruct Hrows as [_ Hsome]. destruct (Hsome id row Hr) as (row1 & Hr1 & (Hm & _ & Hb & _) & Hother).
  rewrite <- Hb. apply IH; [done|].
  destruct (decide (Sidecar.s_migration_id row = mid)) as [Heq|Hne].
  - right. destruct (Hnp Heq) as (row2 & Hr2 & Hn2). congruence.
  - rewrite (Hother Hne) in *. destruct Hp as [[?|?]%elem_of_cons|]; [congruence|by left|by right].
Qed.

(** C18: A write made while the device's schema is under a corruption window is not lost.  It is
    kept under its own id; when the window is replayed, the first pass gives the CRDT engine
    the Deltas captured for the window's first migration in the order of their times, this
    one among them; afterwards the write's row still holds its bytes and is no longer
    pending, and the window is closed. *)
Theorem captured_write_replayed {E} `{!ReplayTarget E} (e : SchemaMigrationEngine) (table : string)
    (b : bytes) (ts : Z) (d : Delta) (mid : MigrationId) (rest : list MigrationId)
    (h : SchemaIdentifierHash) (engine : E) (now : Z) :
  corrupted_schema_windows e !! local_schema_hash e = Some (mid :: rest) ->
  sidecar_ledger e !! Sidecar.entry_id sha256 b ts = None -> delta_of_json b = Some d ->
  let '(e1, r) := record_corrupted_window_write e table b ts in
  r = Ok (Some (Sidecar.entry_id sha256 b ts)) /\
  let '(e2, engine2) := replay_corrupted_windows delta_of_json e1 (local_schema_hash e) h engine now in
  let ds := Sidecar.deltas_of delta_of_json (Sidecar.load_entries_ordered (sidecar_ledger e1) mid) in
  d ∈ ds /\
  (exists ids sc, engine2 = (foldl (fun '(s, engine) mid =>
      let '(s, engine, _) := Sidecar.replay_sidecar delta_of_json s mid h engine now in (s, engine))
      (sc, Sidecar.tag_replayed (Sidecar.apply_all now engine ds) ids mid) rest).2) /\
  (exists row, sidecar_ledger e2 !! Sidecar.entry_id sha256 b ts = Some row /\
     Sidecar.s_delta_bytes row = b /\ Sidecar.status_of row <> Sidecar.Pending) /\
  corrupted_schema_windows e2 !! local_schema_hash e = None.
Proof.
  intros Hw Hfresh Hd. unfold record_corrupted_window_write, active_corruption_migration.
  rewrite Hw. cbn [mbind option_bind head]. unfold Sidecar.record. rewrite Hfresh.
  set (id := Sidecar.entry_id sha256 b ts) in *. set (row := Sidecar.mkRow mid table b ts None None).
  split; [done|]. unfold replay_corrupted_windows. cbn [corrupted_schema_windows sidecar_ledger set_ledgers set_windows].
  rewrite Hw. set (sc := <[id := row]> (sidecar_ledger e)).
  assert (sc !! id = Some row) as Hrow by apply lookup_insert_eq.
  destruct (replay_loop_not_pending sc engine (mid :: rest) h now id row Hrow) as (row' & Hr' & Hb & Hp);
    [left; by left|].
  destruct (Sidecar.replay_engine delta_of_json sc mid h engine now) as (ids & Hids).
  cbn [foldl] in *. destruct (Sidecar.replay_sidecar _ sc mid h engine now) as [[s1 engine1] r].
  cbn [fst snd] in Hids. subst engine1.
  destruct (foldl _ _ rest) as [s2 engine2] eqn:Hloop. cbn. split; [|split; [|split]].
  - unfold Sidecar.deltas_of. apply list_elem_of_omap.
    exists (Sidecar.decode mid (id, row)). split; [|done]. apply Sidecar.elem_of_entries. by exists row.
  - exists ids, s1. by rewrite Hloop.
  - exists row'. by rewrite Hb.
  - apply lookup_delete_eq.
Qed.

(** ** The jobs of the inbound pipeline: [dispatch_inbound_migration] of [api/mod.rs]

    What a job does to the CRDT engine: the schema it advances, and the replay. *)
Class CrdtHost (E : Type) := {
  host_replay :: ReplayTarget E;
  host_schema : E -> SchemaIdentifierHash;
  host_set_schema : E -> SchemaIdentifierHash -> E
}.

Section Jobs.
Context {E : Type} `{!CrdtHost E}.

(** Between two of its locks a job holds only its locals. *)
Inductive Job :=
| Executing (p : PreparedMigration)
| Committed (source_schema_hash : SchemaIdentifierHash)
| Advancing (source_schema_hash new_current : SchemaIdentifierHash)
| Replaying (source_schema_hash new_current : SchemaIdentifierHash).

(** [installed] is history: the CA keys the engine has had. *)
Record World := mkWorld {
  mig : SchemaMigrationEngine;
  host : E;
  jobs : list Job;
  installed : list bytes
}.

Inductive Step : World -> World -> Prop :=
| step_prepare w delta sender e p :
    prepare_migration (mig w) delta sender = (e, Ok p) ->
    Step w (mkWorld e (host w) (Executing p :: jobs w) (installed w))
| step_refuse w delta sender e err :
    prepare_migration (mig w) delta sender = (e, Err err) ->
    Step w (mkWorld e (host w) (jobs w) (installed w))
| step_finish_success w p rest e result :
    jobs w ≡ₚ Executing p :: rest ->
    finish_migration (mig w) (p_migration_id p) (p_target_schema_hash p) result = (e, Ok Success) ->
    Step w (mkWorld e (host w) (Committed (local_schema_hash (mig w)) :: rest) (installed w))
| step_finish_failure w p rest e result r :
    jobs w ≡ₚ Executing p :: rest ->
    finish_migration (mig w) (p_migration_id p) (p_target_schema_hash p) result = (e, r) -> r <> Ok Success ->
    Step w (mkWorld e (host w) rest (installed w))
| step_read_current w source rest :
    jobs w ≡ₚ Committed source :: rest ->
    Step w (mkWorld (mig w) (host w) (Advancing source (local_schema_hash (mig w)) :: rest) (installed w))
| step_advance w source new_current rest :
    jobs w ≡ₚ Advancing source new_current :: rest ->
    Step w (mkWorld (mig w) (host_set_schema (host w) new_current) (Replaying source new_current :: rest) (installed w))
| step_replay w source new_current rest now e h :
    jobs w ≡ₚ Replaying source new_current :: rest ->
    replay_corrupted_windows delta_of_json (mig w) source new_current (host w) now = (e, h) ->
    Step w (mkWorld e h rest (installed w))
| step_revoke w d now :
    Step w (mkWorld (receive_revocation_delta (mig w) d now).1 (host w) (jobs w) (installed w))
| step_key w key :
    Step w (mkWorld (register_ca_public_key (mig w) key) (host w) (jobs w) (key :: installed w))
| step_capture w table b ts :
    Step w (mkWorld (record_corrupted_window_write (mig w) table b ts).1 (host w) (jobs w) (installed w))
| step_quarantine w sender raw h reason at_ :
    Step w (mkWorld (quarantine_incoming (mig w) sender raw h reason at_).1 (host w) (jobs w) (installed w))
| step_host w h :      (* any other operation of the device on its CRDT engine *)
    Step w (mkWorld (mig w) h (jobs w) (installed w)).

Definition start (key : bytes) (h0 : SchemaIdentifierHash) (versions : list SchemaIdentifierHash) (m : nat)
    (q : gmap N Quarantine.Row) (sc : gmap N Sidecar.Row) (defs : gmap SchemaIdentifierHash Schema) (crdt : E) : World :=
  mkWorld (new key h0 versions m q sc defs) crdt [] [key].

Definition executing (js : list Job) : list PreparedMigration :=
  omap (fun j => match j with Executing p => Some p | _ => None end) js.

(** One version-path step. *)
Definition path_step (versions : list SchemaIdentifierHash) (a b : SchemaIdentifierHash) : Prop :=
  next_version versions a = Some b.

(** A transform that may run: the CA has signed it under a key that was installed. *)
Definition signed_transform (keys : list bytes) (p : PreparedMigration) : Prop :=
  exists key sig, key ∈ keys /\ ca_signed key (p_transform_bytes p) sig.

Record world_ok (versions : list SchemaIdentifierHash) (h0 : SchemaIdentifierHash) (w : World) : Prop := {
  wo_path : version_path (mig w) = versions;
  wo_key : ca_public_key (mig w) ∈ installed w;
  wo_local : rtc (path_step versions) h0 (local_schema_hash (mig w));
  wo_jobs : executing (jobs w) = [] /\ in_progress (registry (mig w)) = ∅ \/
    exists p, executing (jobs w) = [p] /\ in_progress (registry (mig w)) = {[p_migration_id p]} /\
      path_step versions (local_schema_hash (mig w)) (p_target_schema_hash p) /\
      p_migration_id p ∈ known (registry (mig w)) /\ signed_transform (installed w) p
}.

Lemma executing_perm js js' : js ≡ₚ js' -> executing js ≡ₚ executing js'.
Proof. intros Hp. unfold executing. by rewrite Hp. Qed.

(** The parts of the engine that captures, quarantines and replays leave alone. *)
Definition same_gate (e e' : SchemaMigrationEngine) : Prop :=
  version_path e' = version_path e /\ ca_public_key e' = ca_public_key e /\
  local_schema_hash e' = local_schema_hash e /\
  in_progress (registry e') = in_progress (registry e) /\ known (registry e) ⊆ known (registry e') /\
  revoked (registry e) ⊆ revoked (registry e').

Lemma world_ok_same versions h0 w e h js :
  world_ok versions h0 w -> same_gate (mig w) e -> executing js ≡ₚ executing (jobs w) ->
  world_ok versions h0 (mkWorld e h js (installed w)).
Proof.
  intros [Hpath Hkey Hlocal Hjobs] (He1 & He2 & He3 & He4 & He5 & _) Hex.
  constructor; cbn [mig installed jobs]; rewrite ?He1, ?He2, ?He3, ?He4; try done.
  destruct Hjobs as [[Hx Hi]|(p & Hx & Hi & Hs & Hk & Hsig)]; rewrite Hx in Hex.
  - left. split; [by apply Permutation_nil_r in Hex|done].
  - right. exists p. apply Permutation_singleton_r in Hex. split_and!; try done. by apply He5.
Qed.

Lemma replay_windows_gate e source h (engine : E) now e' engine' :
  replay_corrupted_windows delta_of_json e source h engine now = (e', engine') -> same_gate e e'.
Proof.
  unfold replay_corrupted_windows. destruct (corrupted_schema_windows e !! source); [|by intros [= <- _]].
  destruct (foldl _ _ _) as [s engine2]. by intros [= <- _].
Qed.

Lemma capture_gate e table b ts : same_gate e (record_corrupted_window_write e table b ts).1.
Proof.
  unfold record_corrupted_window_write. destruct (active_corruption_migration e); [|done].
  by destruct (Sidecar.record _ _ _ _ _ _) as [s [|]].
Qed.

Lemma revoke_gate e d now : same_gate e (receive_revocation_delta e d now).1.
Proof.
  unfold receive_revocation_delta, apply_revocation. case_bool_decide; [|by destruct e].
  destruct (_ <? _)%nat; [by destruct e|]. cbn.
  unfold same_gate. destruct (migration_targets e !! _); [case_decide|]; cbn; (split_and!; [done..|set_solver]).
Qed.

Lemma refuse_gate e delta sender e' err :
  prepare_migration e delta sender = (e', Err err) -> same_gate e e'.
Proof.
  intros Hprep. destruct (prepare_cases e delta sender) as [[_ (err' & Hc)]|[_
    [[_ (err' & Hc)]|[(_ & _ & err' & Hc)|[(_ & _ & _ & Hc)|(_ & _ & _ & Hc)]]]]]; rewrite Hc in Hprep;
    try done; injection Hprep as <- _; (split_and!; [done..| |done]); cbn; set_solver.
Qed.

Lemma finish_spec e id t result e' r :
  finish_migration e id t result = (e', r) ->
  version_path e' = version_path e /\ ca_public_key e' = ca_public_key e /\
  known (registry e') = known (registry e) /\ revoked (registry e') = revoked (registry e) /\
  in_progress (registry e') = in_progress (registry e) ∖ {[id]} /\
  (r = Ok Success /\ result = Ok Success /\ id ∉ revoked (registry e) /\ local_schema_hash e' = t \/
   r <> Ok Success /\ local_schema_hash e' = local_schema_hash e).
Proof.
  unfold finish_migration, is_revoked. cbn. case_bool_decide as Hr.
  { intros [= <- <-]. split_and!; try done. by right. }
  destruct result as [[]|]; intros [= <- <-]; (split_and!; [done..|]); [left; by split_and!|right; by split..].
Qed.

Lemma executing_one js p p' rest :
  executing js = [p'] -> js ≡ₚ Executing p :: rest -> p' = p /\ executing rest = [].
Proof.
  intros Hx Hp. apply executing_perm in Hp. rewrite Hx in Hp. cbn in Hp.
  apply Permutation_singleton_l in Hp. injection Hp as -> ->. done.
Qed.

Lemma step_ok versions h0 w w' : world_ok versions h0 w -> Step w w' -> world_ok versions h0 w'.
Proof.
  intros Hok Hstep. pose proof Hok as [Hpath Hkey Hlocal Hjobs].
  destruct Hstep as [w delta sender e p Hprep|w delta sender e err Hprep|w p rest e result Hj Hf
    |w p rest e result r Hj Hf Hr|w source rest Hj|w source nc rest Hj|w source nc rest now e h Hj Hrep
    |w d now|w key|w table b ts|w sender raw h reason at_|w h].
  - destruct (prepare_cases (mig w) delta sender) as [[_ (err & Hc)]|[_
      [[_ (err & Hc)]|[(_ & _ & err & Hc)|[(_ & _ & _ & Hc)|(Ha & Hv & Hp & Hc)]]]]]; rewrite Hc in Hprep; try done.
    injection Hprep as <- <-. apply verify_version_path_ok in Hv as (_ & Hnext & _).
    constructor; [done..|]. right. eexists. cbn [jobs mig installed].
    change (executing (Executing ?p :: ?js)) with (p :: executing js).
    assert (executing (jobs w) = []) as ->.
    { destruct Hjobs as [[-> _]|(p & _ & Hi & _)]; [done|]. rewrite Hi in Hp. set_solver. }
    split; [done|]. cbn. rewrite Hp, <- Hpath. split; [set_solver|]. split; [done|]. split; [set_solver|].
    exists (ca_public_key (mig w)), (m_ca_signature delta). split; [done|apply Ha].
  - apply (world_ok_same _ _ w); [done| |done]. by eapply refuse_gate.
  - apply finish_spec in Hf as (Hf1 & Hf2 & Hf3 & Hf4 & Hf5 & Hf6).
    destruct Hjobs as [[Hx _]|(p' & Hx & Hi & Hs & Hk & Hsig)].
    { apply executing_perm in Hj. rewrite Hx in Hj. by apply Permutation_nil_cons in Hj. }
    destruct (executing_one _ _ _ _ Hx Hj) as [-> Hrest]. destruct Hf6 as [(_ & _ & _ & Hl)|[? _]]; [|done].
    constructor; cbn [mig jobs installed].
    + by rewrite Hf1.
    + by rewrite Hf2.
    + rewrite Hl. eapply rtc_r; [exact Hlocal|exact Hs].
    + left. split; [exact Hrest|]. rewrite Hf5, Hi. set_solver.
  - apply finish_spec in Hf as (Hf1 & Hf2 & Hf3 & Hf4 & Hf5 & Hf6).
    destruct Hjobs as [[Hx _]|(p' & Hx & Hi & Hs & Hk & Hsig)].
    { apply executing_perm in Hj. rewrite Hx in Hj. by apply Permutation_nil_cons in Hj. }
    destruct (executing_one _ _ _ _ Hx Hj) as [-> Hrest]. destruct Hf6 as [(? & _)|[_ Hl]]; [done|].
    constructor; cbn [mig jobs installed].
    + by rewrite Hf1.
    + by rewrite Hf2.
    + by rewrite Hl.
    + left. split; [exact Hrest|]. rewrite Hf5, Hi. set_solver.
  - apply (world_ok_same _ _ w); [done|done|]. apply executing_perm in Hj. by rewrite Hj.
  - apply (world_ok_same _ _ w); [done|done|]. apply executing_perm in Hj. by rewrite Hj.
  - apply (world_ok_same _ _ w); [done|by eapply replay_windows_gate|]. apply executing_perm in Hj. by rewrite Hj.
  - apply (world_ok_same _ _ w); [done|apply revoke_gate|done].
  - constructor; cbn; [done|by left|done|].
    destruct Hjobs as [?|(p & Hx & Hi & Hs & Hk & (k & sig & Hin & Hsig))]; [by left|right].
    exists p. split_and!; try done. exists k, sig. split; [by right|done].
  - apply (world_ok_same _ _ w); [done|apply capture_gate|done].
  - apply (world_ok_same _ _ w); [done|done|done].
  - apply (world_ok_same _ _ w); [done|done|done].
Qed.

Lemma reachable_ok key h0 versions m q sc defs crdt w :
  rtc Step (start key h0 versions m q sc defs crdt) w -> world_ok versions h0 w.
Proof.
  intros Hr. remember (start key h0 versions m q sc defs crdt) as w0 eqn:Hw0.
  assert (world_ok versions h0 w0) as Hok.
  { subst. constructor; cbn; [done|by left|done|by left]. }
  clear Hw0. induction Hr as [w|w0 w1 w2 Hs Hr IH]; [done|]. apply IH. by eapply step_ok.
Qed.

Lemma step_revoked w w' : Step w w' -> revoked (registry (mig w)) ⊆ revoked (registry (mig w')).
Proof.
  destruct 1 as [w delta sender e p Hprep|w delta sender e err Hprep|w p rest e result Hj Hf
    |w p rest e result r Hj Hf Hr|w source rest Hj|w source nc rest Hj|w source nc rest now e h Hj Hrep
    |w d now|w key|w table b ts|w sender raw h reason at_|w h]; cbn [mig]; try done.
  - destruct (prepare_cases (mig w) delta sender) as [[_ (err' & Hc)]|[_
      [[_ (err' & Hc)]|[(_ & _ & err' & Hc)|[(_ & _ & _ & Hc)|(_ & _ & _ & Hc)]]]]]; rewrite Hc in Hprep; try done.
    by injection Hprep as <- _.
  - apply refuse_gate in Hprep. apply Hprep.
  - apply finish_spec in Hf as (_ & _ & _ & -> & _). done.
  - apply finish_spec in Hf as (_ & _ & _ & -> & _). done.
  - apply replay_windows_gate in Hrep. apply Hrep.
  - apply revoke_gate.
  - apply capture_gate.
Qed.

Lemma step_commit w w' :
  Step w w' -> local_schema_hash (mig w') <> local_schema_hash (mig w) ->
  exists p rest, jobs w ≡ₚ Executing p :: rest /\ local_schema_hash (mig w') = p_target_schema_hash p /\
    p_migration_id p ∉ revoked (registry (mig w)).
Proof.
  destruct 1 as [w delta sender e p Hprep|w delta sender e err Hprep|w p rest e result Hj Hf
    |w p rest e result r Hj Hf Hr|w source rest Hj|w source nc rest Hj|w source nc rest now e h Hj Hrep
    |w d now|w key|w table b ts|w sender raw h reason at_|w h]; cbn [mig]; intros Hne; try done.
  - destruct (prepare_cases (mig w) delta sender) as [[_ (err' & Hc)]|[_
      [[_ (err' & Hc)]|[(_ & _ & err' & Hc)|[(_ & _ & _ & Hc)|(_ & _ & _ & Hc)]]]]]; rewrite Hc in Hprep; try done.
    by injection Hprep as <- _.
  - apply refuse_gate in Hprep. destruct Hne. apply Hprep.
  - apply finish_spec in Hf as (_ & _ & _ & _ & _ & [(_ & _ & Hr & Hl)|[? _]]); [|done]. by exists p, rest.
  - apply finish_spec in Hf as (_ & _ & _ & _ & _ & [(? & _)|[_ Hl]]); done.
  - apply replay_windows_gate in Hrep. destruct Hne. apply Hrep.
  - destruct Hne. apply revoke_gate.
  - destruct Hne. apply capture_gate.
Qed.

(** C5: whatever order the jobs of the pipeline, the revocations, the key changes and the writes
    take the locks in, the device's schema is always one reached from its first by steps of
    the version path, at most one transform is executing, and it is one the CA has signed
    that leads to the next version of the schema the device is on. *)
Theorem schema_follows_path (key : bytes) (h0 : SchemaIdentifierHash) (versions : list SchemaIdentifierHash)
    (m : nat) (q : gmap N Quarantine.Row) (sc : gmap N Sidecar.Row)
    (defs : gmap SchemaIdentifierHash Schema) (crdt : E) (w : World) :
  rtc Step (start key h0 versions m q sc defs crdt) w ->
  rtc (path_step versions) h0 (local_schema_hash (mig w)) /\
  (length (executing (jobs w)) <= 1)%nat /\
  (forall p, p ∈ executing (jobs w) ->
     in_progress (registry (mig w)) = {[p_migration_id p]} /\
     path_step versions (local_schema_hash (mig w)) (p_target_schema_hash p) /\
     p_migration_id p ∈ known (registry (mig w)) /\ signed_transform (installed w) p).
Proof.
  intros Hr. destruct (reachable_ok _ _ _ _ _ _ _ _ _ Hr) as [_ _ Hl Hj]. split; [done|].
  destruct Hj as [[-> Hi]|(p & -> & Hrest)].
  - split; [cbn; lia|]. by intros p ?%elem_of_nil.
  - split; [cbn; lia|]. intros p' ->%list_elem_of_singleton. done.
Qed.

(** C26: A revocation is final: from any state in which an id is revoked, whatever happens
    afterwards, every later change of the schema is made by a migration with another id. *)
Theorem revoked_never_commits (w w1 w2 : World) (id : MigrationId) :
  id ∈ revoked (registry (mig w)) -> rtc Step w w1 -> Step w1 w2 ->
  local_schema_hash (mig w2) <> local_schema_hash (mig w1) ->
  exists p rest, jobs w1 ≡ₚ Executing p :: rest /\ p_migration_id p <> id /\
    local_schema_hash (mig w2) = p_target_schema_hash p.
Proof.
  intros Hid Hr Hs Hne.
  assert (id ∈ revoked (registry (mig w1))) as Hid1.
  { clear Hs Hne. induction Hr as [w|w w' w'' Hst Hr IH]; [done|]. apply IH.
    apply step_revoked in Hst. by apply Hst. }
  destruct (step_commit _ _ Hs Hne) as (p & rest & Hj & Hl & Hn). exists p, rest.
  split; [done|]. split; [|done]. intros <-. done.
Qed.
End Jobs.

(** ** What the gate does not check *)

Definition with_id (d : MigrationDelta) (id : MigrationId) : MigrationDelta :=
  mkMigration id (m_author_did d) (m_signature d) (m_source_schema_hash d) (m_target_schema_hash d)
    (m_transform_bytes d) (m_ca_signature d) (m_transform_sha256 d) (m_priority d) (m_created_at d).

(** The id is not compared with the SHA-256 of the transform: a migration refused for its
    revoked id is accepted, transform and signature unchanged, under any other id. *)
Lemma fresh_id_accepted e delta id sender :
  authentic (ca_public_key e) delta -> is_ok (verify_version_path e delta) = true ->
  in_progress (registry e) = ∅ -> sender ∉ blacklisted_senders e -> id ∉ revoked (registry e) ->
  exists e', prepare_migration e (with_id delta id) sender =
    (e', Ok (mkPrepared id (m_target_schema_hash delta) (m_transform_bytes delta) 30)).
Proof.
  clear delta_of_json.
  intros Ha Hv Hp Hs Hid.
  assert (is_ok (verify_version_path e (with_id delta id)) = true) as Hv'.
  { rewrite verify_version_path_ok in *. done. }
  destruct (prepare_cases e (with_id delta id) sender) as [[[?|?] _]|[_
    [[Hn _]|[(_ & Hn & _)|[(_ & _ & Hn & _)|(_ & _ & _ & ->)]]]]]; try done; by eexists.
Qed.

(** The inbound pipeline passes the author the migration names as its sender, and nothing
    checks the author's signature: a migration without a CA signature that names a manager
    as its author blacklists the manager, whose own migrations are refused from then on. *)
Lemma forged_author_blacklists e forged genuine :
  m_ca_signature forged = [] -> m_author_did forged = m_author_did genuine ->
  m_id forged ∉ revoked (registry e) ->
  let e' := (prepare_migration e forged (m_author_did forged)).1 in
  exists err, (prepare_migration e' genuine (m_author_did genuine)).2 = Err err.
Proof.
  intros Hs Ha Hr e'.
  assert (m_author_did genuine ∈ blacklisted_senders e') as Hb.
  { unfold e'. rewrite <- Ha.
    destruct (prepare_cases e forged (m_author_did forged)) as [[[Hb|?] (err & ->)]|[_
      [[_ (err & ->)]|[(((Hl & _) & _) & _)|[(((Hl & _) & _) & _)|(((Hl & _) & _) & _)]]]]]; try done;
      [cbn; set_solver|by rewrite Hs in Hl..]. }
  unfold prepare_migration at 1, is_blacklisted. rewrite bool_decide_eq_true_2 by done. by eexists.
Qed.

(** The signers of a revocation need not be managers: any [m] key pairs with distinct DIDs
    revoke any migration the device has seen. *)
Lemma strangers_revoke e id seeds now :
  id ∈ known (registry e) -> NoDup (map (fun s => Did.derive_did (ed_public s)) seeds) ->
  (threshold_m e <= length seeds)%nat ->
  let d := mkRevocation id (map (fun s => mkManagerSig (Did.derive_did (ed_public s))
    (ed_sign s (signed_payload id))) seeds) 0 in
  exists halted, (receive_revocation_delta e d now).2 = Ok halted /\
    id ∈ revoked (registry (receive_revocation_delta e d now).1).
Proof.
  intros Hk Hnd Hm d.
  destruct (valid_managers_spec id (rv_signatures d)) as [Hv Hin].
  assert (map (fun s => Did.derive_did (ed_public s)) seeds ⊆ valid_managers id (rv_signatures d)) as Hsub.
  { intros did Hdid. apply list_elem_of_fmap in Hdid as (s & -> & Hs). apply Hin.
    exists (mkManagerSig (Did.derive_did (ed_public s)) (ed_sign s (signed_payload id))).
    split; [cbn; apply list_elem_of_fmap; by exists s|]. split; [done|].
    apply signature_counts_spec. exists (ed_public s). cbn [ms_manager_did ms_signature].
    split; [apply Did.resolve_derive; [apply ed_public_length|apply ed_public_bytes]|]. split; [apply ed_sign_length|].
    split; [apply ed_public_ok|apply ed_sign_verify]. }
  pose proof (submseteq_length _ _ (NoDup_submseteq _ _ Hnd Hsub)) as Hlen. rewrite length_map in Hlen.
  unfold receive_revocation_delta, apply_revocation. cbn [target_migration_id d].
  rewrite bool_decide_eq_true_2 by done. rewrite (proj2 (Nat.ltb_ge _ _)) by lia.
  eexists. split; [done|]. destruct (migration_targets _ !! id); [case_decide|]; cbn; set_solver.
Qed.
End Engine.

(** ** The CRDT engine as the host of the jobs *)

Section Host.
Context `{!Automerge} `{!Bs58} `{!Ed25519}.
Context (zstd_encode : bytes -> Res bytes) (to_json : CanonicalDeltaPayload -> bytes).
Context (delta_to_json : Delta -> option bytes) (error_to_string : TirBaseError -> string).

(** The rejection listener is not part of the replay; the tags go to [dag_nodes]. *)
Definition crdt_replay : ReplayTarget Crdt.CrdtEngine := {|
  rt_apply e d now := let '(e, _, r) := Crdt.apply zstd_encode to_json delta_to_json error_to_string e d now in (e, r);
  rt_tag e delta_id tag :=
    Crdt.set_store e (Contamination.append_tag (Crdt.dag e) delta_id tag) (Crdt.automerge_docs e)
|}.

Definition crdt_host : CrdtHost Crdt.CrdtEngine := {|
  host_replay := crdt_replay;
  host_schema := Crdt.known_schema_hash;
  host_set_schema := Crdt.set_current_schema
|}.
End Host.

(** ** Witnesses and boundary cases *)

Section Examples.
#[local] Existing Instance select_canonical.
#[local] Existing Instance toy_bs58.
#[local] Existing Instance toy_ed25519.

(** A host that only remembers its schema, and takes every Delta. *)
Definition plain_host : CrdtHost N := {|
  host_replay := {| rt_apply e d now := (e, Ok (Crdt.Merged 1)); rt_tag e _ _ := e |};
  host_schema e := e;
  host_set_schema _ h := h
|}.
#[local] Existing Instance plain_host.

Definition ca : bytes := replicate 32 9%N.
Definition toy_hash (b : bytes) : N := N.of_nat (length b).
Definition toy_delta (b : bytes) : option Delta :=
  match b with [x] => Some (mkDelta x "" [] 0 [] Low [] [] 0 0) | _ => None end.
Definition toy_migration (id source target : N) : MigrationDelta :=
  mkMigration id "did:key:zM" [] source target [id] (ed_sign ca [id]) 1 Medium 0.
Definition toy_defs : gmap N Schema :=
  {[ identifier_hash toy_hash SchemaText.sample := SchemaText.sample ]}.

Abbreviation toy_step := (Step toy_hash SchemaText.no_real SchemaText.no_real_text SchemaText.no_position toy_delta).
Abbreviation toy_prepare := (prepare_migration toy_hash SchemaText.no_real SchemaText.no_real_text SchemaText.no_position).
Abbreviation toy_start := (start (ed_public ca) 1%N [1; 2; 3]%N 1 ∅ ∅ ∅ 1%N).

Lemma definitions_never_block_witness :
  let e := new (ed_public ca) 1%N [1; identifier_hash toy_hash SchemaText.sample]%N 1 ∅ ∅ toy_defs in
  is_ok (verify_version_path toy_hash SchemaText.no_real SchemaText.no_real_text SchemaText.no_position e
    (toy_migration 5 1 (identifier_hash toy_hash SchemaText.sample))) = true.
Proof.
  cbn zeta. rewrite definitions_never_block; [vm_compute; reflexivity|].
  intros h s. unfold new, toy_defs. cbn [definitions]. rewrite lookup_singleton_Some. intros [<- <-].
  split; [|reflexivity]. split; [reflexivity|]. repeat constructor; try done; try (intros ?; split; done).
  exists "", "0", "0". by repeat split; try left.
Defined.

(** The trace of the examples: one migration from 1 to 2 is committed. *)
Definition e0 : SchemaMigrationEngine := new (ed_public ca) 1%N [1; 2; 3]%N 1 ∅ ∅ ∅.
Definition e1 : SchemaMigrationEngine := (toy_prepare e0 (toy_migration 5 1 2) "did:key:zM").1.
Definition e2 : SchemaMigrationEngine := (finish_migration e1 5 2 (Ok Success)).1.
Definition e3 : SchemaMigrationEngine := (toy_prepare e2 (toy_migration 6 2 3) "did:key:zM").1.
Definition e4 : SchemaMigrationEngine := (finish_migration e3 6 3 (Ok Success)).1.
Definition p1 : PreparedMigration := mkPrepared 5 2 [5]%N 30.
Definition p2 : PreparedMigration := mkPrepared 6 3 [6]%N 30.
Definition keys : list bytes := [ed_public ca].

Lemma toy_prepare_1 : toy_prepare e0 (toy_migration 5 1 2) "did:key:zM" = (e1, Ok p1).
Proof. vm_compute. reflexivity. Qed.
Lemma toy_prepare_2 : toy_prepare e2 (toy_migration 6 2 3) "did:key:zM" = (e3, Ok p2).
Proof. vm_compute. reflexivity. Qed.
Lemma toy_finish_1 : finish_migration e1 5 2 (Ok Success) = (e2, Ok Success).
Proof. vm_compute. reflexivity. Qed.
Lemma toy_finish_2 : finish_migration e3 6 3 (Ok Success) = (e4, Ok Success).
Proof. vm_compute. reflexivity. Qed.

Lemma toy_run_1 : toy_step (mkWorld e0 1%N [] keys) (mkWorld e1 1%N [Executing p1] keys).
Proof. exact (step_prepare _ _ _ _ _ (mkWorld e0 1%N [] keys) _ _ _ _ toy_prepare_1). Qed.
Lemma toy_run_2 : toy_step (mkWorld e1 1%N [Executing p1] keys) (mkWorld e2 1%N [Committed 1%N] keys).
Proof. exact (step_finish_success _ _ _ _ _ (mkWorld e1 1%N [Executing p1] keys) p1 [] e2 _ (reflexivity _) toy_finish_1). Qed.

Lemma schema_follows_path_witness :
  rtc (path_step [1; 2; 3]%N) 1%N 2%N /\ path_step [1; 2; 3]%N 1%N (p_target_schema_hash p1).
Proof.
  split.
  - destruct (schema_follows_path toy_hash SchemaText.no_real SchemaText.no_real_text SchemaText.no_position toy_delta
      (ed_public ca) 1%N [1; 2; 3]%N 1 ∅ ∅ ∅ 1%N (mkWorld e2 1%N [Committed 1%N] keys)) as (Hl & _); [|exact Hl].
    eapply rtc_l; [exact toy_run_1|]. eapply rtc_l; [exact toy_run_2|]. apply rtc_refl.
  - destruct (schema_follows_path toy_hash SchemaText.no_real SchemaText.no_real_text SchemaText.no_position toy_delta
      (ed_public ca) 1%N [1; 2; 3]%N 1 ∅ ∅ ∅ 1%N (mkWorld e1 1%N [Executing p1] keys)) as (_ & _ & Hp).
    { eapply rtc_l; [exact toy_run_1|]. apply rtc_refl. }
    apply (Hp p1). by left.
Defined.

(** Id 7 is revoked; the migration that commits afterwards has another id. *)
Definition with_revoked (e : SchemaMigrationEngine) : SchemaMigrationEngine :=
  set_registry e (mkRegistry {[7%N]} (known (registry e)) [] (in_progress (registry e))).

Lemma revoked_never_commits_witness :
  exists p rest, [Executing p1] ≡ₚ Executing p :: rest /\ p_migration_id p <> 7%N.
Proof.
  set (w := mkWorld (with_revoked e1) 1%N [Executing p1] keys).
  set (w2 := mkWorld (with_revoked e2) 1%N [Committed 1%N] keys).
  assert (toy_step w w2) as Hs.
  { refine (step_finish_success _ _ _ _ _ w p1 [] (with_revoked e2) (Ok Success) (reflexivity _) _).
    vm_compute. reflexivity. }
  destruct (revoked_never_commits toy_hash SchemaText.no_real SchemaText.no_real_text SchemaText.no_position toy_delta
    w w w2 7%N) as (p & rest & Hj & Hne & _).
  - vm_compute. reflexivity.
  - apply rtc_refl.
  - exact Hs.
  - vm_compute. discriminate.
  - exists p, rest. by split.
Defined.

Definition e_window : SchemaMigrationEngine := open_window e2 2%N 5%N.

Lemma captured_write_replayed_witness :
  let '(e', r) := record_corrupted_window_write toy_hash e_window "t" [3]%N 40 in
  r = Ok (Some 9%N) /\
  exists row, sidecar_ledger (replay_corrupted_windows toy_delta e' 2%N 3%N 3%N 0).1 !! 9%N = Some row /\
    Sidecar.s_delta_bytes row = [3]%N /\ Sidecar.status_of row <> Sidecar.Pending.
Proof.
  pose proof (captured_write_replayed toy_hash toy_delta e_window "t" [3]%N 40
    (mkDelta 3 "" [] 0 [] Low [] [] 0 0) 5%N [] 3%N 3%N 0 eq_refl eq_refl eq_refl) as Hw.
  destruct (record_corrupted_window_write toy_hash e_window "t" [3]%N 40) as [e' r].
  destruct Hw as [Hr Hw]. split; [exact Hr|].
  change (local_schema_hash e_window) with 2%N in Hw.
  destruct (replay_corrupted_windows toy_delta e' 2%N 3%N 3%N 0) as [e'' h].
  destruct Hw as (_ & _ & Hrow & _). exact Hrow.
Defined.

(** Two jobs, each of which reads the schema under one lock and hands it to the CRDT engine
    under another: the first advances the CRDT engine last, and leaves it on the old schema. *)
Example stale_mirror :
  exists w, rtc toy_step toy_start w /\ jobs w = [] /\
    host_schema (host w) = 2%N /\ local_schema_hash (mig w) = 3%N.
Proof.
  exists (mkWorld e4 2%N [] keys). split; [|done].
  eapply rtc_l; [exact toy_run_1|]. eapply rtc_l; [exact toy_run_2|].
  eapply rtc_l; [exact (step_read_current _ _ _ _ _ _ 1%N [] (reflexivity _))|]. cbn [mig host jobs installed].
  eapply rtc_l; [exact (step_prepare _ _ _ _ _ (mkWorld e2 1%N [Advancing 1%N 2%N] keys) _ _ _ _ toy_prepare_2)|].
  eapply rtc_l; [exact (step_finish_success _ _ _ _ _ (mkWorld e3 1%N [Executing p2; Advancing 1%N 2%N] keys)
    p2 [Advancing 1%N 2%N] e4 _ (reflexivity _) toy_finish_2)|].
  eapply rtc_l; [exact (step_read_current _ _ _ _ _ _ 2%N [Advancing 1%N 2%N] (reflexivity _))|].
  eapply rtc_l; [exact (step_advance _ _ _ _ _ _ 2%N 3%N [Advancing 1%N 2%N] (reflexivity _))|].
  eapply rtc_l; [by apply (step_replay _ _ _ _ _ _ 2%N 3%N [Advancing 1%N 2%N] 0 e4 3%N)|].
  eapply rtc_l; [exact (step_advance _ _ _ _ _ _ 1%N 2%N [] (reflexivity _))|].
  eapply rtc_l; [by apply (step_replay _ _ _ _ _ _ 1%N 2%N [] 0 e4 2%N)|].
  apply rtc_refl.
Qed.
End Examples.
End Migration.
