(* ===== verification/CloudQueue.v ===== *)
(** * The cloud outbound queue

    [durability/cloud_queue.rs]: Deltas wait for the acknowledgement of the
    Cloud Ledger in a queue of at most [MAX_QUEUE_DEPTH] entries; one cycle of
    [cloud_sync_loop] sends them parents first and drops what is acknowledged.

    The trait [CloudConnection] is a class: any state and any answers.  The
    [refetch] callback is a function of the Delta and its receipt holders.  A
    connection that also keeps a log of what it was sent ([logged]) serves to
    state what a cycle does. *)

From S2P Require Import Prelude Types Kahn.

Module CloudQueue.

(** [MAX_QUEUE_DEPTH: usize] *)
Definition MAX_QUEUE_DEPTH : Z := 100000.

Record QueueEntry := mkEntry {
  q_delta_id : DeltaId;
  q_delta_bytes : option bytes;
  q_causal_parents : list DeltaId;
  q_compacted : bool;
  q_receipt_holders : list Did;
  q_tier2_durable : bool
}.

Definition new_entry (delta_id : DeltaId) (delta_bytes : bytes)
    (causal_parents : list DeltaId) : QueueEntry :=
  mkEntry delta_id (Some delta_bytes) causal_parents false [] false.

Definition new_compacted (delta_id : DeltaId) (causal_parents : list DeltaId)
    (receipt_holders : list Did) : QueueEntry :=
  mkEntry delta_id None causal_parents true receipt_holders false.

(** The [VecDeque], front first. *)
Abbreviation CloudOutboundQueue := (list QueueEntry) (only parsing).

Definition empty_queue : CloudOutboundQueue := [].

Definition depth (queue : CloudOutboundQueue) : nat := length queue.

Definition enqueue (queue : CloudOutboundQueue) (entry : QueueEntry)
  : CloudOutboundQueue * Res unit :=
  if Z.of_nat (depth queue) >=? MAX_QUEUE_DEPTH
  then (queue, Err (CloudQueueFull (depth queue)))
  else (queue ++ [entry], Ok tt).

(** [retain(|e| e.delta_id != delta_id)] *)
Definition acknowledge (queue : CloudOutboundQueue) (delta_id : DeltaId) : CloudOutboundQueue :=
  filter (fun e => q_delta_id e <> delta_id) queue.

(** [for entry in queue.iter_mut() { if entry.delta_id == delta_id { ...; break } }] *)
Fixpoint update_first (f : QueueEntry -> QueueEntry) (delta_id : DeltaId)
    (queue : CloudOutboundQueue) : CloudOutboundQueue :=
  match queue with
  | [] => []
  | e :: rest =>
      if decide (q_delta_id e = delta_id) then f e :: rest
      else e :: update_first f delta_id rest
  end.

Definition mark_tier2 (queue : CloudOutboundQueue) (delta_id : DeltaId) : CloudOutboundQueue :=
  update_first (fun e => mkEntry (q_delta_id e) (q_delta_bytes e) (q_causal_parents e)
    (q_compacted e) (q_receipt_holders e) true) delta_id queue.

Definition mark_compacted (queue : CloudOutboundQueue) (delta_id : DeltaId)
  : CloudOutboundQueue :=
  update_first (fun e => mkEntry (q_delta_id e) None (q_causal_parents e)
    true (q_receipt_holders e) (q_tier2_durable e)) delta_id queue.

Definition compacted_entry_ids (queue : CloudOutboundQueue) : list DeltaId :=
  map q_delta_id (filter (fun e => q_tier2_durable e = false /\ q_compacted e = true) queue).

Definition add_receipt_holder (queue : CloudOutboundQueue) (delta_id : DeltaId)
    (holder_did : Did) : CloudOutboundQueue :=
  update_first (fun e =>
    if decide (holder_did ∈ q_receipt_holders e) then e
    else mkEntry (q_delta_id e) (q_delta_bytes e) (q_causal_parents e) (q_compacted e)
      (q_receipt_holders e ++ [holder_did]) (q_tier2_durable e)) delta_id queue.

Definition pending_entries (queue : CloudOutboundQueue) : list QueueEntry :=
  filter (fun e => q_tier2_durable e = false) queue.

Fixpoint find (queue : CloudOutboundQueue) (delta_id : DeltaId) : option QueueEntry :=
  match queue with
  | [] => None
  | e :: rest => if decide (q_delta_id e = delta_id) then Some e else find rest delta_id
  end.

(** [for peer_did in &receipt_holders { if let Some(bytes) = ... }] *)
Fixpoint refetch_loop (try_fetch_from_peer : Did -> DeltaId -> option bytes)
    (delta_id : DeltaId) (holders : list Did) : option bytes :=
  match holders with
  | [] => None
  | peer_did :: rest =>
      match try_fetch_from_peer peer_did delta_id with
      | Some bs => Some bs
      | None => refetch_loop try_fetch_from_peer delta_id rest
      end
  end.

Definition refetch_for_cloud_sync (delta_id : DeltaId) (receipt_holders : list Did)
    (try_fetch_from_peer : Did -> DeltaId -> option bytes) : Res bytes :=
  match refetch_loop try_fetch_from_peer delta_id receipt_holders with
  | Some bs => Ok bs
  | None => Err (RefetchUnavailable delta_id)
  end.

(** ** [topological_sort_queue] *)

Definition ids (queue : CloudOutboundQueue) : list DeltaId := map q_delta_id queue.

(** One turn of the loop over [entry.causal_parents]. *)
Definition index_parent (id_set : list DeltaId) (id : DeltaId)
    (maps : gmap N Z * gmap N (list N)) (parent_id : DeltaId) : gmap N Z * gmap N (list N) :=
  if decide (parent_id ∈ id_set)
  then (incr maps.1 id, push_child maps.2 (parent_id, id))
  else maps.

Definition index_entry (id_set : list DeltaId) (maps : gmap N Z * gmap N (list N))
    (entry : QueueEntry) : gmap N Z * gmap N (list N) :=
  foldl (index_parent id_set (q_delta_id entry))
    (or_default 0 maps.1 (q_delta_id entry), or_default [] maps.2 (q_delta_id entry))
    (q_causal_parents entry).

(** [order_index]: a later entry with the same id overwrites an earlier one;
    [usize::MAX] for an unknown id. *)
Definition order_index (queue : CloudOutboundQueue) : gmap N Z :=
  foldl (fun m e => <[e.2 := Z.of_nat e.1]> m) ∅ (imap pair (ids queue)).
Definition order_key (queue : CloudOutboundQueue) (id : DeltaId) : Z :=
  default (2 ^ 64 - 1) (order_index queue !! id).

Definition topological_sort_queue `{!HashIter N Z} (queue : CloudOutboundQueue)
  : list DeltaId :=
  let '(in_degree, children_map) := foldl (index_entry (ids queue)) (∅, ∅) queue in
  let ready := sort_by_key (order_key queue)
    (map fst (filter (fun e => e.2 = 0) (hm_iter in_degree))) in
  let sorted := (kahn_loop (fun m c => m !! c) (sort_by_key (order_key queue))
    (S (size in_degree)) ready in_degree children_map []).1 in
  sorted ++ filter (fun id => id ∉ sorted) (ids queue).

(** ** [cloud_sync_loop] *)

Class CloudConnection (C : Type) := {
  send_delta : C -> DeltaId -> bytes -> C * result string unit
}.

Record CloudSyncResult := mkSync {
  acknowledged : nat;
  rejected : nat;
  deferred : nat;
  acknowledged_ids : list DeltaId
}.

(** [bytes = if let Some(b) = &entry.delta_bytes {..} else if entry.compacted
    {refetch(..)} else {..}]; [None] defers the entry. *)
Definition resolve_bytes (refetch : DeltaId -> list Did -> option bytes) (entry : QueueEntry)
  : option bytes :=
  match q_delta_bytes entry with
  | Some b => Some b
  | None =>
      if q_compacted entry then refetch (q_delta_id entry) (q_receipt_holders entry) else None
  end.

Definition sync_delta {C} `{!CloudConnection C} (refetch : DeltaId -> list Did -> option bytes)
    (st : CloudOutboundQueue * C * CloudSyncResult) (delta_id : DeltaId)
  : CloudOutboundQueue * C * CloudSyncResult :=
  let '(queue, conn, r) := st in
  match find queue delta_id with
  | None => st
  | Some entry =>
      if q_tier2_durable entry then
        (acknowledge queue delta_id, conn,
          mkSync (S (acknowledged r)) (rejected r) (deferred r) (acknowledged_ids r))
      else
        match resolve_bytes refetch entry with
        | None =>
            (queue, conn,
              mkSync (acknowledged r) (rejected r) (S (deferred r)) (acknowledged_ids r))
        | Some bs =>
            match send_delta conn delta_id bs with
            | (conn', Ok _) =>
                (acknowledge queue delta_id, conn',
                  mkSync (S (acknowledged r)) (rejected r) (deferred r)
                    (acknowledged_ids r ++ [delta_id]))
            | (conn', Err _) =>
                (queue, conn',
                  mkSync (acknowledged r) (S (rejected r)) (deferred r) (acknowledged_ids r))
            end
        end
  end.

Definition cloud_sync_loop `{!HashIter N Z} {C} `{!CloudConnection C}
    (refetch : DeltaId -> list Did -> option bytes) (queue : CloudOutboundQueue) (conn : C)
  : CloudOutboundQueue * C * CloudSyncResult :=
  foldl (sync_delta refetch) (queue, conn, mkSync 0 0 0 []) (topological_sort_queue queue).

(** The loop uses the connection for nothing but sending. *)
Lemma sync_loop_moves `{!HashIter N Z} {C} `{!CloudConnection C} (R : relation C) `{!PreOrder R} refetch queue (conn : C) :
  (forall c id b, R c (send_delta c id b).1) -> R conn (cloud_sync_loop refetch queue conn).1.2.
Proof.
  intros Hsend. unfold cloud_sync_loop. generalize (mkSync 0 0 0 []). generalize (topological_sort_queue queue) as ids.
  intros ids. revert queue conn. induction ids as [|id ids IH]; intros queue conn r; cbn [foldl]; [done|].
  destruct (sync_delta refetch (queue, conn, r) id) as [[queue' conn'] r'] eqn:Hs. etrans; [|apply IH].
  unfold sync_delta in Hs. destruct (find queue id) as [entry|]; [|by injection Hs as _ <- _].
  destruct (q_tier2_durable entry); [by injection Hs as _ <- _|].
  destruct (resolve_bytes refetch entry) as [bs|]; [|by injection Hs as _ <- _].
  specialize (Hsend conn id bs). destruct (send_delta conn id bs) as [c [u|e]]; by injection Hs as _ <- _.
Qed.

(** A connection with a log of what it was sent and whether it accepted. *)
Definition logged {C} (conn : CloudConnection C)
  : CloudConnection (C * list (DeltaId * bytes * bool)) :=
  {| send_delta c id bs :=
       let '(c', answer) := send_delta c.1 id bs in
       ((c', c.2 ++ [(id, bs, is_ok answer)]), answer) |}.

(** ** The sort *)

(** The edges between entries of the queue. *)
Definition entry_edges (id_set : list DeltaId) (e : QueueEntry) : list (N * N) :=
  (fun p => (p, q_delta_id e)) <$> filter (fun p => p ∈ id_set) (q_causal_parents e).
Definition queue_edges (queue : CloudOutboundQueue) : list (N * N) :=
  queue ≫= entry_edges (ids queue).

Lemma foldl_index_parent id_set id ps maps :
  foldl (index_parent id_set id) maps ps =
  (foldl incr maps.1 (map snd ((fun p => (p, id)) <$> filter (fun p => p ∈ id_set) ps)),
   foldl push_child maps.2 ((fun p => (p, id)) <$> filter (fun p => p ∈ id_set) ps)).
Proof.
  revert maps. induction ps as [|p ps IH]; intros [m cm]; [done|].
  cbn [foldl]. rewrite IH. unfold index_parent. destruct (decide (p ∈ id_set)).
  - rewrite filter_cons_True by done. done.
  - rewrite filter_cons_False by done. done.
Qed.

Lemma edges_elem id_set q p c :
  (p, c) ∈ q ≫= entry_edges id_set <->
  p ∈ id_set /\ exists e, e ∈ q /\ c = q_delta_id e /\ p ∈ q_causal_parents e.
Proof.
  rewrite list_elem_of_bind. unfold entry_edges. split.
  - intros (e & Hin & He). apply list_elem_of_fmap in Hin as (p' & [= -> ->] & Hp).
    apply list_elem_of_filter in Hp as [? ?]. eauto.
  - intros (Hp & e & He & -> & Hpe). exists e. split; [|done].
    apply (list_elem_of_fmap_2 (fun p => (p, q_delta_id e))), list_elem_of_filter. done.
Qed.

Lemma edges_target id_set q c : c ∉ ids q -> occ c (map snd (q ≫= entry_edges id_set)) = 0.
Proof.
  intros Hc. apply occ_zero. intros Hin. apply Hc.
  apply list_elem_of_fmap in Hin as ([p c'] & -> & (_ & e & He & -> & _)%edges_elem).
  by apply (list_elem_of_fmap_2 q_delta_id).
Qed.

Lemma index_degrees id_set q m cm c :
  (foldl (index_entry id_set) (m, cm) q).1 !! c =
  if decide (c ∈ ids q)
  then Some (default 0 (m !! c) + occ c (map snd (q ≫= entry_edges id_set)))
  else m !! c.
Proof.
  revert m cm. induction q as [|e q IH]; intros m cm; [done|].
  cbn [foldl]. unfold index_entry at 2. rewrite foldl_index_parent, IH. cbn [fst snd].
  fold (entry_edges id_set e). rewrite foldl_incr. unfold or_default.
  change (ids (e :: q)) with (q_delta_id e :: ids q).
  change ((e :: q) ≫= entry_edges id_set) with (entry_edges id_set e ++ (q ≫= entry_edges id_set)).
  rewrite map_app.
  assert (forall a b, occ c (a ++ b) = occ c a + occ c b) as Hocc.
  { intros. apply sum_of_app. }
  rewrite Hocc. destruct (decide (c = q_delta_id e)) as [->|Hne].
  - rewrite (decide_True (P := q_delta_id e ∈ q_delta_id e :: _)) by left.
    rewrite !lookup_insert_eq. simpl.
    destruct (decide (q_delta_id e ∈ ids q)) as [Hq|Hq];
      destruct (decide (q_delta_id e ∈ map snd (entry_edges id_set e))) as [He|He]; simpl;
      rewrite ?(edges_target id_set q) by done; rewrite ?Z.add_0_r; f_equal; try lia.
    all: apply occ_zero in He; rewrite He; f_equal; lia.
  - assert (c ∉ map snd (entry_edges id_set e)) as He.
    { unfold entry_edges. rewrite list_elem_of_fmap. intros ([p c'] & -> & Hin).
      apply list_elem_of_fmap in Hin as (p' & [= -> ->] & _). by apply Hne. }
    rewrite !lookup_insert_ne by done. rewrite (decide_False (P := c ∈ map snd _)) by done.
    apply occ_zero in He. rewrite He, Z.add_0_l.
    by rewrite (decide_ext (c ∈ ids q) (c ∈ q_delta_id e :: ids q)) by set_solver.
Qed.

Lemma index_children id_set q m cm p :
  default [] ((foldl (index_entry id_set) (m, cm) q).2 !! p) =
  default [] (cm !! p) ++ children_in (q ≫= entry_edges id_set) p.
Proof.
  revert m cm. induction q as [|e q IH]; intros m cm; cbn [foldl].
  { unfold children_in. simpl. by rewrite app_nil_r. }
  unfold index_entry at 2. rewrite foldl_index_parent, IH. cbn [fst snd].
  fold (entry_edges id_set e). rewrite foldl_push_child. change ((e :: q) ≫= entry_edges id_set) with (entry_edges id_set e ++ (q ≫= entry_edges id_set)).
  unfold children_in. rewrite omap_app, app_assoc. do 2 f_equal. unfold or_default.
  destruct (decide (p = q_delta_id e)) as [->|Hne]; simplify_map_eq; [|done].
  by destruct (cm !! q_delta_id e).
Qed.

(** The degrees as [topological_sort_queue] computes them. *)
Definition degrees (queue : CloudOutboundQueue) : gmap N Z * gmap N (list N) :=
  foldl (index_entry (ids queue)) (∅, ∅) queue.

Lemma degrees_lookup q c :
  (degrees q).1 !! c = if decide (c ∈ ids q) then Some (remaining (queue_edges q) [] c) else None.
Proof. unfold degrees. by rewrite index_degrees, lookup_empty, remaining_nil. Qed.

Lemma order_index_lookup (l : list (nat * N)) (m : gmap N Z) (x : N) :
  (x ∈ map snd l -> is_Some (foldl (fun m e => <[e.2 := Z.of_nat e.1]> m) m l !! x)) /\
  (forall z, foldl (fun m e => <[e.2 := Z.of_nat e.1]> m) m l !! x = Some z ->
    m !! x = Some z \/ exists i, (i, x) ∈ l /\ z = Z.of_nat i).
Proof.
  revert m. induction l as [|[i y] l IH]; intros m; cbn [foldl].
  - split; [set_solver|]. auto.
  - destruct (IH (<[y := Z.of_nat i]> m)) as [H1 H2]. cbn [fst snd]. split.
    + intros [->|Hx]%elem_of_cons; [|by apply H1]. cbn [snd].
      clear. assert (is_Some (<[y := Z.of_nat i]> m !! y)) as Hm by (rewrite lookup_insert_eq; eauto).
      revert Hm. generalize (<[y := Z.of_nat i]> m). clear.
      induction l as [|[j z] l IH]; intros m Hm; cbn [foldl]; [done|]. apply IH. cbn [fst snd].
      destruct (decide (z = y)) as [->|]; [rewrite lookup_insert_eq; eauto|].
      by rewrite lookup_insert_ne.
    + intros z [Hz|(j & Hj & ->)]%H2.
      * destruct (decide (x = y)) as [->|Hne].
        -- rewrite lookup_insert_eq in Hz. simplify_eq. right. exists i. split; [left|done].
        -- rewrite lookup_insert_ne in Hz by done. by left.
      * right. exists j. split; [by right|done].
Qed.

Lemma map_snd_imap_pair {A} (l : list A) f : map snd (imap (fun i x => (f i : nat, x)) l) = l.
Proof. revert f. induction l as [|x l IH]; intros f; simpl; [done|]. f_equal. apply (IH (f ∘ S)). Qed.

Lemma order_key_inj q x y :
  x ∈ ids q -> y ∈ ids q -> order_key q x = order_key q y -> x = y.
Proof.
  intros Hx Hy. unfold order_key.
  assert (forall z, z ∈ ids q -> exists i, ids q !! i = Some z /\
    order_index q !! z = Some (Z.of_nat i)) as Hk.
  { intros z Hz. unfold order_index. destruct (order_index_lookup (imap pair (ids q)) ∅ z) as [[v Hv] H2].
    - pose proof (map_snd_imap_pair (ids q) (fun i => i)) as Hp. change (fun i x => _) with (@pair nat N) in Hp. by rewrite Hp.
    - rewrite Hv. destruct (H2 _ Hv) as [?|(i & Hi & ->)]; [done|]. exists i. split; [|done].
      apply elem_of_lookup_imap in Hi as (j & z' & [= <- <-] & Hj). done. }
  destruct (Hk x Hx) as (i & Hi & ->), (Hk y Hy) as (j & Hj & ->). simpl. intros Hij.
  assert (i = j) as <- by lia. congruence.
Qed.

Definition ready_queue `{!HashIter N Z} (queue : CloudOutboundQueue) : list DeltaId :=
  sort_by_key (order_key queue) (map fst (filter (fun e => e.2 = 0) (hm_iter (degrees queue).1))).

Definition kahn_queue `{!HashIter N Z} (queue : CloudOutboundQueue) : list DeltaId :=
  (kahn_loop (fun m c => m !! c) (sort_by_key (order_key queue)) (S (size (degrees queue).1))
    (ready_queue queue) (degrees queue).1 (degrees queue).2 []).1.

Lemma topological_sort_queue_eq `{!HashIter N Z} q :
  topological_sort_queue q = kahn_queue q ++ filter (fun id => id ∉ kahn_queue q) (ids q).
Proof.
  unfold topological_sort_queue, kahn_queue, ready_queue, degrees. by destruct (foldl _ _ q).
Qed.

Lemma kahn_queue_spec `{!HashIter N Z} q :
  Z.of_nat (length (queue_edges q)) < 2 ^ 64 ->
  NoDup (kahn_queue q) /\ parents_first (queue_edges q) (kahn_queue q) /\
  forall x, x ∈ kahn_queue q <-> grounded (ids q) (queue_edges q) x.
Proof.
  intros HE. unfold kahn_queue. set (K := map fst (map_to_list (degrees q).1)).
  assert (forall c, c ∈ K <-> c ∈ ids q) as HK.
  { intros c. unfold K. rewrite list_elem_of_fmap. split.
    - intros ([y z] & -> & Hin%elem_of_map_to_list). rewrite degrees_lookup in Hin.
      by case_decide.
    - intros Hc. exists (c, remaining (queue_edges q) [] c). split; [done|].
      apply elem_of_map_to_list. by rewrite degrees_lookup, decide_True. }
  destruct (zero_queue_spec (degrees q).1) as [Hnd Hq].
  pose proof (kahn_correct (fun m c => m !! c) (sort_by_key (order_key q))
    (fun m c d H => H) (sort_by_key_perm (order_key q)) K (queue_edges q) (degrees q).2
    (NoDup_fst_map_to_list _)) as Hkahn.
  assert (forall p c, (p, c) ∈ queue_edges q -> c ∈ K) as Htargets.
  { intros p c (_ & e & He & -> & _)%edges_elem. apply HK.
    by apply (list_elem_of_fmap_2 q_delta_id). }
  assert (forall p, default [] ((degrees q).2 !! p) = children_in (queue_edges q) p) as Hcm.
  { intros p. unfold degrees. by rewrite index_children, lookup_empty. }
  specialize (Hkahn Htargets HE Hcm (S (size (degrees q).1)) (ready_queue q) (degrees q).1).
  destruct (kahn_loop _ _ _ _ _ _ _) as [sorted rest]. simpl.
  destruct Hkahn as (_ & H1 & H2 & H3).
  - unfold ready_queue. by rewrite sort_by_key_perm.
  - intros x. unfold ready_queue. rewrite sort_by_key_perm, Hq. split; [|by intros [_ ?]].
    intros Hx. split; [|done]. apply HK. rewrite degrees_lookup in Hx. by case_decide.
  - intros c Hc. rewrite degrees_lookup, decide_True; [done|]. by apply HK.
  - unfold K. rewrite length_map, length_map_to_list. lia.
  - split_and!; [done|done|]. intros x. rewrite H3.
    split; apply grounded_ext; try done; intros y; by rewrite HK.
Qed.

Lemma sort_queue_singleton `{!HashIter N Z} e :
  Z.of_nat (length (q_causal_parents e)) < 2 ^ 64 -> topological_sort_queue [e] = [q_delta_id e].
Proof.
  intros Hp. rewrite topological_sort_queue_eq. destruct (kahn_queue_spec [e]) as (Hnd & _ & Hgr).
  { unfold queue_edges. cbn. unfold entry_edges. rewrite app_nil_r, length_fmap.
    pose proof (length_filter (fun p => p ∈ [q_delta_id e]) (q_causal_parents e)). lia. }
  assert (forall x, x ∈ kahn_queue [e] -> x = q_delta_id e) as Hids
    by (intros x Hx%Hgr; apply list_elem_of_singleton; by destruct Hx).
  change (ids [e]) with [q_delta_id e]. destruct (kahn_queue [e]) as [|x [|y l]] eqn:E.
  - done.
  - rewrite (Hids x) by left. rewrite filter_cons_False; [done|]. intros Hn. apply Hn. left.
  - exfalso. apply NoDup_cons in Hnd as [Hnd _]. apply Hnd. rewrite (Hids x) by left. rewrite (Hids y); [left|right; left].
Qed.

(** A cycle over a single entry that the other side takes. *)
Lemma sync_single `{!HashIter N Z} {C} `{!CloudConnection C} refetch e (conn conn' : C) bs u :
  Z.of_nat (length (q_causal_parents e)) < 2 ^ 64 -> q_tier2_durable e = false ->
  resolve_bytes refetch e = Some bs -> send_delta conn (q_delta_id e) bs = (conn', Ok u) ->
  cloud_sync_loop refetch [e] conn = ([], conn', mkSync 1 0 0 [q_delta_id e]).
Proof.
  intros Hp Hd Hb Hs. unfold cloud_sync_loop. rewrite sort_queue_singleton by done. cbn [foldl sync_delta find].
  rewrite decide_True, Hd, Hb, Hs by done. unfold acknowledge. rewrite filter_cons_False; [done|]. intros Hn. by apply Hn.
Qed.

Lemma sort_queue_spec `{!HashIter N Z} q :
  Z.of_nat (length (queue_edges q)) < 2 ^ 64 ->
  (forall x, x ∈ topological_sort_queue q <-> x ∈ ids q) /\
  (forall i c p, topological_sort_queue q !! i = Some c ->
    grounded (ids q) (queue_edges q) c -> (p, c) ∈ queue_edges q ->
    p ∈ take i (topological_sort_queue q)) /\
  ((forall x, x ∈ ids q -> grounded (ids q) (queue_edges q) x) ->
    NoDup (topological_sort_queue q) /\
    parents_first (queue_edges q) (topological_sort_queue q)).
Proof.
  intros HE. destruct (kahn_queue_spec q HE) as (Hnd & Hpf & Hgr).
  rewrite topological_sort_queue_eq. set (sorted := kahn_queue q) in *.
  assert (forall x, x ∈ sorted -> x ∈ ids q) as Hids by (intros x Hx%Hgr; by destruct Hx).
  assert (forall i c p, (sorted ++ filter (fun id => id ∉ sorted) (ids q)) !! i = Some c ->
    grounded (ids q) (queue_edges q) c -> (p, c) ∈ queue_edges q ->
    p ∈ take i (sorted ++ filter (fun id => id ∉ sorted) (ids q))) as Hpos.
  { intros i c p [Hi|[_ Hi]]%lookup_app_Some Hc Hp.
    - rewrite take_app_le by (apply Nat.lt_le_incl; by eapply lookup_lt_Some).
      by eapply Hpf.
    - apply list_elem_of_lookup_2, list_elem_of_filter in Hi as [Hi _]. by apply Hgr in Hc. }
  split_and!; [|done|].
  - intros x. rewrite elem_of_app, list_elem_of_filter.
    destruct (decide (x ∈ sorted)); naive_solver.
  - intros Hall. assert (filter (fun id => id ∉ sorted) (ids q) = []) as Hnil.
    { destruct (filter _ (ids q)) as [|x l] eqn:Hf; [done|].
      assert (x ∈ filter (fun id => id ∉ sorted) (ids q)) as [Hx Hin]%list_elem_of_filter
        by (rewrite Hf; left). by destruct Hx; apply Hgr, Hall. }
    rewrite Hnil, app_nil_r. done.
Qed.

(** The order does not depend on the iteration order of the hash map: the
    ready set is sorted by position in the queue, which is unique. *)
Theorem topological_sort_queue_deterministic (iter1 iter2 : HashIter N Z) q :
  @topological_sort_queue iter1 q = @topological_sort_queue iter2 q.
Proof.
  assert (@ready_queue iter1 q = @ready_queue iter2 q) as Hready.
  { unfold ready_queue. apply (sorted_by_key_unique (order_key q)).
    - apply NoDup_fmap_2_strong.
      + intros x y. rewrite !sort_by_key_perm.
        destruct (@zero_queue_spec iter1 (degrees q).1) as [_ Hz]. rewrite !Hz, !degrees_lookup.
        intros Hx Hy. do 2 case_decide; try done. by apply order_key_inj.
      + rewrite sort_by_key_perm. apply zero_queue_spec.
    - apply sort_by_key_sorted.
    - apply sort_by_key_sorted.
    - rewrite !sort_by_key_perm. by rewrite !hm_iter_perm. }
  rewrite !topological_sort_queue_eq. unfold kahn_queue. by rewrite Hready.
Qed.

(** ** One cycle *)

Lemma find_elem q x e : find q x = Some e -> e ∈ q /\ q_delta_id e = x.
Proof.
  induction q as [|e' q IH]; cbn [find]; [done|]. case_decide as Hx.
  - intros [= ->]. split; [left|done].
  - intros [? ?]%IH. split; [by right|done].
Qed.

Lemma find_is_Some q x : is_Some (find q x) <-> x ∈ ids q.
Proof.
  split.
  - intros [e [He <-]%find_elem]. by apply (list_elem_of_fmap_2 q_delta_id).
  - induction q as [|e q IH]; cbn [find ids map]; [set_solver|].
    case_decide as Hx; [eauto|]. intros [->|?]%elem_of_cons; [done|]. by apply IH.
Qed.

Lemma find_filter q (gone : list N) x :
  find (filter (fun e => q_delta_id e ∉ gone) q) x =
  if decide (x ∈ gone) then None else find q x.
Proof.
  induction q as [|e q IH]; [by case_decide|].
  destruct (decide (q_delta_id e ∈ gone)) as [Hg|Hg].
  - rewrite filter_cons_False by (intros H; by apply H). cbn [find]. rewrite IH.
    destruct (decide (x ∈ gone)), (decide (q_delta_id e = x)); congruence.
  - rewrite filter_cons_True by done. cbn [find]. rewrite IH.
    destruct (decide (x ∈ gone)), (decide (q_delta_id e = x)); congruence.
Qed.

Lemma acknowledge_filter q (gone : list N) x :
  acknowledge (filter (fun e => q_delta_id e ∉ gone) q) x =
  filter (fun e => q_delta_id e ∉ x :: gone) q.
Proof.
  unfold acknowledge. rewrite list_filter_filter. apply list_filter_iff. set_solver.
Qed.

Section Cycle.
Context {C : Type} `{!CloudConnection C} (refetch : DeltaId -> list Did -> option bytes).
Context (q : CloudOutboundQueue).

(** The first entry of the Delta is flagged as already durable, and what the
    cycle sends for it. *)
Definition flagged (x : DeltaId) : bool :=
  match find q x with Some e => q_tier2_durable e | None => false end.
Definition payload_of (x : DeltaId) : option bytes :=
  match find q x with
  | Some e => if q_tier2_durable e then None else resolve_bytes refetch e
  | None => None
  end.

(** What has been dropped after part of a cycle. *)
Definition gone (visited : list DeltaId) (r : CloudSyncResult) : list DeltaId :=
  filter (fun x => flagged x = true) visited ++ acknowledged_ids r.

Record cycle_inv (visited : list DeltaId) (queue : CloudOutboundQueue)
    (log : list (DeltaId * bytes * bool)) (r : CloudSyncResult) : Prop := {
  ci_queue : queue = filter (fun e => q_delta_id e ∉ gone visited r) q;
  ci_acked : acknowledged_ids r = map (fun s => s.1.1) (filter (fun s => s.2 = true) log);
  ci_bytes : forall x bs b, (x, bs, b) ∈ log -> payload_of x = Some bs;
  ci_rejected : rejected r = length (filter (fun s => s.2 = false) log);
  ci_order : NoDup visited ->
    map (fun s => s.1.1) log = filter (fun x => is_Some (payload_of x)) visited
}.

Lemma gone_elem visited r y :
  y ∈ gone visited r <-> (flagged y = true /\ y ∈ visited) \/ y ∈ acknowledged_ids r.
Proof. unfold gone. by rewrite elem_of_app, list_elem_of_filter. Qed.

Lemma filter_gone (g g' : list N) :
  (forall y, y ∈ g <-> y ∈ g') ->
  filter (fun e => q_delta_id e ∉ g) q = filter (fun e => q_delta_id e ∉ g') q.
Proof. intros Hg. apply list_filter_iff. intros e. by rewrite Hg. Qed.

Lemma acked_visited visited queue log r x :
  cycle_inv visited queue log r -> NoDup visited -> x ∈ acknowledged_ids r -> x ∈ visited.
Proof.
  intros [_ Hack _ _ Hord] Hnd. rewrite Hack.
  intros ([[y bs] b] & -> & [_ Hin]%list_elem_of_filter)%list_elem_of_fmap.
  assert (y ∈ map (fun s => s.1.1) log) as Hy
    by exact (list_elem_of_fmap_2 (fun s : N * bytes * bool => s.1.1) _ _ Hin).
  rewrite Hord in Hy by done. by apply list_elem_of_filter in Hy as [_ ?].
Qed.

Lemma sendable_snoc visited x :
  filter (fun x => is_Some (payload_of x)) (visited ++ [x]) =
  filter (fun x => is_Some (payload_of x)) visited ++
    match payload_of x with Some _ => [x] | None => [] end.
Proof.
  rewrite filter_app. f_equal. destruct (payload_of x) eqn:Hp.
  - by rewrite filter_cons_True by (rewrite Hp; eauto).
  - rewrite filter_cons_False; [done|]. rewrite Hp. by intros [].
Qed.

(** The send of [x] with the payload [bs] and the answer [b]. *)
Lemma cycle_inv_send visited log r x bs (b : bool) queue' :
  cycle_inv visited (filter (fun e => q_delta_id e ∉ gone visited r) q) log r ->
  payload_of x = Some bs -> flagged x = false ->
  queue' = (if b then acknowledge (filter (fun e => q_delta_id e ∉ gone visited r) q) x
            else filter (fun e => q_delta_id e ∉ gone visited r) q) ->
  cycle_inv (visited ++ [x]) queue' (log ++ [(x, bs, b)])
    (if b then mkSync (S (acknowledged r)) (rejected r) (deferred r) (acknowledged_ids r ++ [x])
     else mkSync (acknowledged r) (S (rejected r)) (deferred r) (acknowledged_ids r)).
Proof.
  intros [_ Hack Hbytes Hrej Hord] Hpay Hfl ->. split.
  - destruct b; [rewrite acknowledge_filter|]; apply filter_gone; intros y;
      rewrite ?elem_of_cons, !gone_elem; simpl; rewrite ?elem_of_app, ?list_elem_of_singleton.
    + destruct (decide (y = x)) as [->|]; [|naive_solver]. rewrite Hfl. naive_solver.
    + destruct (decide (y = x)) as [->|]; [|naive_solver]. rewrite Hfl. naive_solver.
  - rewrite filter_app. destruct b; simpl; rewrite map_app, <- Hack; simpl; [done|].
    by rewrite app_nil_r.
  - intros y bs' b' [?|[= -> -> ->]%list_elem_of_singleton]%elem_of_app; [by eapply Hbytes|done].
  - rewrite filter_app, length_app. destruct b; simpl; lia.
  - intros Hnd. rewrite sendable_snoc, Hpay, map_app, Hord; [done|].
    by apply NoDup_app in Hnd as (? & _ & _).
Qed.

(** Nothing is sent for [x]. *)
Lemma cycle_inv_skip visited queue log r r' x queue' :
  cycle_inv visited queue log r ->
  (NoDup (visited ++ [x]) -> payload_of x = None) ->
  acknowledged_ids r' = acknowledged_ids r -> rejected r' = rejected r ->
  queue' = filter (fun e => q_delta_id e ∉ gone (visited ++ [x]) r) q ->
  cycle_inv (visited ++ [x]) queue' log r'.
Proof.
  intros [_ Hack Hbytes Hrej Hord] Hpay Ha Hr ->.
  split; [|by rewrite Ha|done|by rewrite Hr|].
  - unfold gone. by rewrite Ha.
  - intros Hnd. rewrite sendable_snoc, Hpay, app_nil_r by done. apply Hord.
    by apply NoDup_app in Hnd as (? & _ & _).
Qed.

Lemma cycle_step visited queue c log r x :
  cycle_inv visited queue log r -> x ∈ ids q ->
  let '(queue', (c', log'), r') :=
    @sync_delta _ (logged _) refetch (queue, (c, log), r) x in
  cycle_inv (visited ++ [x]) queue' log' r'.
Proof.
  intros Hinv Hx. pose proof (ci_queue _ _ _ _ Hinv) as ->. unfold sync_delta.
  apply find_is_Some in Hx as [e He].
  assert (flagged x = q_tier2_durable e) as Hfl by (unfold flagged; by rewrite He).
  assert (payload_of x = if q_tier2_durable e then None else resolve_bytes refetch e) as Hpay
    by (unfold payload_of; by rewrite He).
  rewrite find_filter. destruct (decide (x ∈ gone visited r)) as [Hg|Hg].
  - eapply cycle_inv_skip; [done| |done|done|].
    + intros Hnd. exfalso. apply NoDup_app in Hnd as (Hnd & Hdis & _).
      apply (Hdis x); [|left]. apply gone_elem in Hg as [[_ ?]|?]; [done|].
      by eapply acked_visited.
    + apply filter_gone. intros y. rewrite gone_elem in Hg. rewrite !gone_elem, elem_of_app,
        list_elem_of_singleton. destruct (decide (y = x)) as [->|]; naive_solver.
  - rewrite He. destruct (q_tier2_durable e).
    + eapply cycle_inv_skip; [done|done|done|done|]. rewrite acknowledge_filter.
      apply filter_gone. intros y. rewrite elem_of_cons, !gone_elem, elem_of_app,
        list_elem_of_singleton. destruct (decide (y = x)) as [->|]; naive_solver.
    + destruct (resolve_bytes refetch e) as [bs|].
      * unfold logged. cbn [send_delta fst snd]. destruct (send_delta c x bs) as [c' [?|?]]; cbn [is_ok].
        -- by apply (cycle_inv_send visited log r x bs true).
        -- by apply (cycle_inv_send visited log r x bs false).
      * eapply cycle_inv_skip; [done|done|done|done|].
        apply filter_gone. intros y. rewrite !gone_elem, elem_of_app,
          list_elem_of_singleton. destruct (decide (y = x)) as [->|]; [|naive_solver].
        rewrite Hfl. naive_solver.
Qed.

Lemma cycle_loop xs visited queue c log r :
  cycle_inv visited queue log r -> (forall x, x ∈ xs -> x ∈ ids q) ->
  let '(queue', (c', log'), r') :=
    foldl (@sync_delta _ (logged _) refetch) (queue, (c, log), r) xs in
  cycle_inv (visited ++ xs) queue' log' r'.
Proof.
  revert visited queue c log r. induction xs as [|x xs IH]; intros visited queue c log r Hinv Hxs;
    cbn [foldl].
  - by rewrite app_nil_r.
  - pose proof (cycle_step visited queue c log r x Hinv) as Hstep.
    destruct (sync_delta _ _ x) as [[queue' [c' log']] r'].
    rewrite cons_middle, app_assoc. apply IH; [apply Hstep, Hxs; left|].
    intros y Hy. apply Hxs. by right.
Qed.

Lemma cycle_init : cycle_inv [] q [] (mkSync 0 0 0 []).
Proof.
  split; [|done|by intros ? ? ? ?%elem_of_nil|done|done].
  change (gone [] (mkSync 0 0 0 [])) with ([] : list N).
  assert (forall l : list QueueEntry, l = filter (fun e => q_delta_id e ∉ ([] : list N)) l) as Hall.
  { induction l as [|e l IH]; [done|]. rewrite filter_cons_True by set_solver. by f_equal. }
  apply Hall.
Qed.
End Cycle.

(** The log is an observer: the cycle on the logged connection is the cycle on
    the connection. *)
Lemma logged_erase {C} `{!CloudConnection C} refetch xs queue (c : C) log r :
  let '(queue1, (c1, _), r1) :=
    foldl (@sync_delta _ (logged _) refetch) (queue, (c, log), r) xs in
  foldl (sync_delta refetch) (queue, c, r) xs = (queue1, c1, r1).
Proof.
  revert queue c log r. induction xs as [|x xs IH]; intros queue c log r; cbn [foldl]; [done|].
  unfold sync_delta at 2 4. destruct (find queue x) as [e|]; [|apply IH].
  destruct (q_tier2_durable e); [apply IH|].
  destruct (resolve_bytes refetch e); [|apply IH].
  cbn [send_delta logged fst snd].
  destruct (send_delta c x _) as [c' [?|?]]; apply IH.
Qed.
(** The upload order lists exactly the queued Deltas; a Delta whose queued
    ancestors are off every cycle comes after all its queued parents, and when
    that holds of every Delta none is listed twice. *)
Theorem topological_sort_queue_causal `{!HashIter N Z} q :
  Z.of_nat (length (queue_edges q)) < 2 ^ 64 ->
  (forall x, x ∈ topological_sort_queue q <-> x ∈ ids q) /\
  (forall i c p, topological_sort_queue q !! i = Some c ->
    grounded (ids q) (queue_edges q) c -> (p, c) ∈ queue_edges q ->
    p ∈ take i (topological_sort_queue q)) /\
  ((forall x, x ∈ ids q -> grounded (ids q) (queue_edges q) x) ->
    NoDup (topological_sort_queue q) /\
    parents_first (queue_edges q) (topological_sort_queue q)).
Proof.
  apply sort_queue_spec.
Qed.

Lemma cloud_sync_spec `{!HashIter N Z} {C} `{!CloudConnection C} refetch q (c : C) :
  Z.of_nat (length (queue_edges q)) < 2 ^ 64 ->
  let '(q', (c', log), r) := @cloud_sync_loop _ _ (logged _) refetch q (c, []) in
  cloud_sync_loop refetch q c = (q', c', r) /\
  q' = filter (fun e => ~ (flagged q (q_delta_id e) = true \/
                          q_delta_id e ∈ acknowledged_ids r)) q /\
  acknowledged_ids r = map (fun s => s.1.1) (filter (fun s => s.2 = true) log) /\
  rejected r = length (filter (fun s => s.2 = false) log) /\
  forall x bs b, (x, bs, b) ∈ log -> payload_of refetch q x = Some bs.
Proof.
  intros HE. destruct (sort_queue_spec q HE) as (Hids & _ & _).
  pose proof (cycle_loop refetch q (topological_sort_queue q) [] q c [] _ (cycle_init refetch q)
    (fun x => proj1 (Hids x))) as Hinv.
  pose proof (logged_erase refetch (topological_sort_queue q) q c [] (mkSync 0 0 0 [])) as Herase.
  unfold cloud_sync_loop in *. destruct (foldl _ _ _) as [[q' [c' log]] r].
  destruct Hinv as [-> Hack Hbytes Hrej _]. split_and!; [done| |done|done|done].
  apply filter_ext_in. intros e He. rewrite gone_elem. simpl.
  assert (q_delta_id e ∈ topological_sort_queue q)
    by (by apply Hids, (list_elem_of_fmap_2 q_delta_id)).
  naive_solver.
Qed.

(** One cycle loses no Delta: exactly the entries whose Delta was
    acknowledged by the ledger in this cycle, or flagged durable before, leave
    the queue, the others stay as they are and in order; what is reported as
    acknowledged is what the connection accepted; and for each Delta the bytes
    of its entry were sent, or the re-fetched ones. *)
Theorem cloud_sync_accounts `{!HashIter N Z} {C} `{!CloudConnection C} refetch q (c : C) :
  Z.of_nat (length (queue_edges q)) < 2 ^ 64 ->
  let '(q', (c', log), r) := @cloud_sync_loop _ _ (logged _) refetch q (c, []) in
  cloud_sync_loop refetch q c = (q', c', r) /\
  q' = filter (fun e => ~ (flagged q (q_delta_id e) = true \/
                          q_delta_id e ∈ acknowledged_ids r)) q /\
  acknowledged_ids r = map (fun s => s.1.1) (filter (fun s => s.2 = true) log) /\
  rejected r = length (filter (fun s => s.2 = false) log) /\
  forall x bs b, (x, bs, b) ∈ log -> payload_of refetch q x = Some bs.
Proof. apply cloud_sync_spec. Qed.

(** C40: in a queue without causal cycles the Deltas that have bytes to send are
    each sent once in a cycle, a Delta after all the queued parents that can be sent, whatever
    the ledger answers to each. *)
Theorem cloud_sync_causal `{!HashIter N Z} {C} `{!CloudConnection C} refetch q (c : C) :
  Z.of_nat (length (queue_edges q)) < 2 ^ 64 ->
  (forall x, x ∈ ids q -> grounded (ids q) (queue_edges q) x) ->
  let '(_, (_, log), _) := @cloud_sync_loop _ _ (logged _) refetch q (c, []) in
  map (fun s => s.1.1) log =
    filter (fun x => is_Some (payload_of refetch q x)) (topological_sort_queue q) /\
  forall l1 x l2, map (fun s => s.1.1) log = l1 ++ x :: l2 ->
  forall p, (p, x) ∈ queue_edges q -> is_Some (payload_of refetch q p) -> p ∈ l1.
Proof.
  intros HE Hgr. destruct (sort_queue_spec q HE) as (Hids & _ & Hacyclic).
  destruct (Hacyclic Hgr) as [Hnd Hpf].
  pose proof (cycle_loop refetch q (topological_sort_queue q) [] q c [] _ (cycle_init refetch q)
    (fun x => proj1 (Hids x))) as Hinv.
  unfold cloud_sync_loop. destruct (foldl _ _ _) as [[q' [c' log]] r].
  destruct Hinv as [_ _ _ _ Hord]. rewrite (Hord Hnd). split; [done|].
  intros l1 x l2 Hsplit p Hp Hsend. by eapply parents_first_filter.
Qed.
(** Without any assumption on the queue: what a cycle keeps is a part of it,
    and an entry leaves only with its Delta acknowledged or flagged. *)
Lemma sync_retains {C} `{!CloudConnection C} refetch xs queue (c : C) r :
  let '(queue', _, r') := foldl (sync_delta refetch) (queue, c, r) xs in
  queue' `sublist_of` queue /\ (forall x, x ∈ acknowledged_ids r -> x ∈ acknowledged_ids r') /\
  forall e, e ∈ queue -> e ∈ queue' \/ q_delta_id e ∈ acknowledged_ids r' \/
    exists e', e' ∈ queue /\ q_tier2_durable e' = true.
Proof.
  revert queue c r. induction xs as [|x xs IH]; intros queue c r; cbn [foldl].
  { split_and!; [done|done|]. by left. }
  assert (forall queue2 c2 r2, queue2 `sublist_of` queue ->
    (forall y, y ∈ acknowledged_ids r -> y ∈ acknowledged_ids r2) ->
    (forall e, e ∈ queue -> e ∈ queue2 \/ q_delta_id e ∈ acknowledged_ids r2 \/
      exists e', e' ∈ queue /\ q_tier2_durable e' = true) ->
    let '(queue', _, r') := foldl (sync_delta refetch) (queue2, c2, r2) xs in
    queue' `sublist_of` queue /\ (forall x, x ∈ acknowledged_ids r -> x ∈ acknowledged_ids r') /\
    forall e, e ∈ queue -> e ∈ queue' \/ q_delta_id e ∈ acknowledged_ids r' \/
      exists e', e' ∈ queue /\ q_tier2_durable e' = true) as Hnext.
  { intros queue2 c2 r2 Hsub Hack Hkeep. specialize (IH queue2 c2 r2).
    destruct (foldl _ _ xs) as [[queue' c'] r']. destruct IH as (H1 & H2 & H3).
    split_and!; [by trans queue2|auto|]. intros e [He|[He|He]]%Hkeep; [|by auto|by auto].
    apply H3 in He as [?|[?|(e' & ? & ?)]]; [by auto|by auto|]. right. right. exists e'.
    split; [|done]. by eapply elem_of_submseteq, sublist_submseteq. }
  assert (acknowledge queue x `sublist_of` queue) as Hack by apply sublist_filter.
  assert (forall e, e ∈ queue -> e ∈ acknowledge queue x \/ q_delta_id e = x) as Hkeep.
  { intros e He. destruct (decide (q_delta_id e = x)); [by right|]. left.
    by apply list_elem_of_filter. }
  unfold sync_delta at 2. destruct (find queue x) as [e|] eqn:Hf; [|by apply Hnext; auto].
  destruct (q_tier2_durable e) eqn:Ht.
  { apply Hnext; [done|auto|]. intros e' He'. right. right. exists e. split; [|done].
    by apply find_elem in Hf as [? _]. }
  destruct (resolve_bytes refetch e); [|by apply Hnext; auto].
  destruct (send_delta c x _) as [c' [?|?]]; [|by apply Hnext; auto].
  apply Hnext; [done| |]; cbn [acknowledged_ids]; [set_solver|].
  intros e' [?| ->]%Hkeep; [by auto|]. right. left. set_solver.
Qed.

(** ** A cycle of three Deltas, queued child first *)

Section Examples.
#[local] Existing Instance hash_iter_canonical.

(** A ledger that refuses the Deltas of a list. *)
#[local] Instance refusing : CloudConnection (list N) :=
  {| send_delta c id _ := (c, if decide (id ∈ c) then Err "refused"%string else Ok tt) |}.

Definition three : CloudOutboundQueue :=
  [new_entry 2 [20%N] [1%N]; new_entry 1 [10%N] [7%N]; new_compacted 3 [2%N; 1%N] ["did:key:h"%string]].

Definition no_holder : DeltaId -> list Did -> option bytes := fun _ _ => None.
Definition one_holder : DeltaId -> list Did -> option bytes := fun _ _ => Some [99%N].

Lemma three_grounded x : x ∈ ids three -> grounded (ids three) (queue_edges three) x.
Proof.
  apply (grounded_ranked _ _ N.to_nat). intros p c Hp.
  assert (Forall (fun e => e.1 ∈ ids three /\ (N.to_nat e.1 < N.to_nat e.2)%nat)
    (queue_edges three)) as Hall by by_decide.
  rewrite Forall_forall in Hall. exact (Hall _ Hp).
Qed.

Example three_sorted : topological_sort_queue three = [1; 2; 3]%N.
Proof. vm_compute. reflexivity. Qed.

Lemma topological_sort_queue_causal_witness :
  Z.of_nat (length (queue_edges three)) < 2 ^ 64 /\
  NoDup (topological_sort_queue three) /\
  parents_first (queue_edges three) (topological_sort_queue three).
Proof.
  assert (Z.of_nat (length (queue_edges three)) < 2 ^ 64) as H by by_compute.
  split; [exact H|]. destruct (topological_sort_queue_causal three H) as (_ & _ & Hacyclic).
  exact (Hacyclic three_grounded).
Defined.

(** All three Deltas are sent, the compacted one with the bytes of a holder;
    the refused one stays. *)
Lemma cloud_sync_accounts_witness :
  Z.of_nat (length (queue_edges three)) < 2 ^ 64 /\
  (@cloud_sync_loop _ _ (logged _) one_holder three ([2%N], [])).1 =
    ([new_entry 2 [20%N] [1%N]], ([2%N], [(1%N, [10%N], true); (2%N, [20%N], false);
      (3%N, [99%N], true)])) /\
  (cloud_sync_loop one_holder three [2%N]).2 = mkSync 2 1 0 [1%N; 3%N].
Proof.
  assert (Z.of_nat (length (queue_edges three)) < 2 ^ 64) as H by by_compute.
  split; [exact H|]. pose proof (cloud_sync_accounts one_holder three [2%N] H) as Hacc.
  revert Hacc. generalize (cloud_sync_loop one_holder three [2%N]). vm_compute.
  intros v (-> & _). split; reflexivity.
Defined.

Lemma cloud_sync_causal_witness :
  Z.of_nat (length (queue_edges three)) < 2 ^ 64 /\
  (forall x, x ∈ ids three -> grounded (ids three) (queue_edges three) x) /\
  let '(_, (_, log), _) := @cloud_sync_loop _ _ (logged _) no_holder three ([], []) in
  map (fun s => s.1.1) log =
    filter (fun x => is_Some (payload_of no_holder three x)) (topological_sort_queue three).
Proof.
  assert (Z.of_nat (length (queue_edges three)) < 2 ^ 64) as H by by_compute.
  split; [exact H|]. split; [exact three_grounded|].
  pose proof (cloud_sync_causal no_holder three [] H three_grounded) as Hc.
  destruct (cloud_sync_loop _ _ _) as [[q' [c' log]] r]. exact (proj1 Hc).
Defined.

(** A child is sent, acknowledged and dropped in the cycle in which its parent
    is refused: the ledger can hold a Delta without its causal parent. *)
Example child_acknowledged_before_parent :
  let '(q', _, r) := cloud_sync_loop one_holder three [1%N] in
  (ids q', acknowledged_ids r) = ([1%N], [2%N; 3%N]).
Proof. vm_compute. reflexivity. Qed.
(** The same when the parent is deferred because no holder has its bytes. *)
Example child_acknowledged_parent_deferred :
  let '(q', _, r) := cloud_sync_loop no_holder (mark_compacted three 1) [] in
  (ids q', acknowledged_ids r, deferred r) = ([1%N; 3%N], [2%N], 2%nat).
Proof. vm_compute. reflexivity. Qed.
End Examples.

(** ** The cap and the other operations *)

(** The queue never holds more than [MAX_QUEUE_DEPTH] Deltas: at the cap a
    Delta is refused with its depth and nothing changes, below it the Delta is
    queued last. *)
Theorem enqueue_cap q entry :
  Z.of_nat (depth q) <= MAX_QUEUE_DEPTH ->
  let '(q', res) := enqueue q entry in
  Z.of_nat (depth q') <= MAX_QUEUE_DEPTH /\
  match res with
  | Ok _ => q' = q ++ [entry]
  | Err e => e = CloudQueueFull (depth q) /\ Z.of_nat (depth q) = MAX_QUEUE_DEPTH /\ q' = q
  end.
Proof.
  intros Hd. unfold enqueue. destruct (Z.geb_spec (Z.of_nat (depth q)) MAX_QUEUE_DEPTH).
  - split; [done|]. split_and!; [done|lia|done].
  - split; [|done]. unfold depth in *. rewrite length_app. simpl. lia.
Qed.

Lemma enqueue_cap_witness :
  Z.of_nat (depth three) <= MAX_QUEUE_DEPTH /\
  (enqueue three (new_entry 9 [] [])).2 = Ok tt.
Proof.
  assert (Z.of_nat (depth three) <= MAX_QUEUE_DEPTH) as H by by_compute.
  split; [exact H|]. pose proof (enqueue_cap three (new_entry 9 [] []) H) as Hq.
  destruct (enqueue _ _) as [q' [[]|e]] eqn:He; [reflexivity|]. exfalso.
  destruct Hq as (_ & _ & Hq & _). revert Hq. vm_compute. discriminate.
Defined.

Lemma update_first_ids f q x :
  (forall e, q_delta_id (f e) = q_delta_id e) -> ids (update_first f x q) = ids q.
Proof.
  intros Hf. induction q as [|e q IH]; [done|]. cbn [update_first ids map].
  case_decide; cbn [map]; [by rewrite Hf|]. f_equal. apply IH.
Qed.

(** A re-fetch asks the holders in order and returns the bytes of the first
    that has them; without one it fails and names the Delta. *)
Theorem refetch_first_holder delta_id holders fetch :
  match refetch_for_cloud_sync delta_id holders fetch with
  | Ok bs => exists l1 h l2, holders = l1 ++ h :: l2 /\ fetch h delta_id = Some bs /\
      Forall (fun h' => fetch h' delta_id = None) l1
  | Err e => e = RefetchUnavailable delta_id /\
      Forall (fun h => fetch h delta_id = None) holders
  end.
Proof.
  unfold refetch_for_cloud_sync. induction holders as [|h holders IH]; cbn [refetch_loop].
  - split; [done|constructor].
  - destruct (fetch h delta_id) as [bs|] eqn:Hf.
    + exists [], h, holders. done.
    + destruct (refetch_loop _ _ _) as [bs|].
      * destruct IH as (l1 & h' & l2 & -> & Hh & Hall). exists (h :: l1), h', l2.
        split_and!; [done|done|by constructor].
      * destruct IH as [? Hall]. split; [done|by constructor].
Qed.
End CloudQueue.
