(* ===== verification/Durability.v ===== *)
(** * The durability subsystem

    Receipts ([durability/receipt.rs]), spatial diversity
    ([durability/spatial.rs]), the Tier-1 quorum ([durability/quorum.rs]),
    beacon-attested location ([durability/anchor.rs]), the subsystem that ties
    them to the cloud queue ([durability/mod.rs]) and the three places of
    [api/mod.rs] that drive it: the inbound receipt, the cloud sync cycle and
    the beacon monitor.

    [f64] is IEEE 754 binary64 as specified by the [SpecFloat] library.  The
    listener of tier changes is the list of transitions an operation emits.  The
    clock is an argument. *)

From Stdlib Require Import SpecFloat.
From S2P Require Import Prelude Types Kahn Identity CloudQueue.

Module Receipt.
Section Receipt.
Context `{!Ed25519}.

Record BeaconToken := mkToken {
  beacon_did : Did;
  beacon_signature : Ed25519Signature;
  epoch : Z;
  location_claim : string;
  token_issued_at : Z
}.

Record DurabilityReceipt := mkReceipt {
  receipt_id : ReceiptId;
  state_hash : N;
  issuer_did : Did;
  issuer_signature : Ed25519Signature;
  spatial_tag : option string;
  beacon_token : option BeaconToken;
  issued_at : Z
}.

Definition receipt_signing_payload (state_hash : N) (receipt_id : ReceiptId) : bytes :=
  be_bytes 32 state_hash ++ be_bytes 16 receipt_id.

Definition verify_receipt (receipt : DurabilityReceipt) (issuer_public_key : bytes)
    (expected_state_hash : N) : Res unit :=
  if negb (state_hash receipt =? expected_state_hash)%N
  then Err (SignatureVerificationFailed "state-hash mismatch")
  else
    map_err (fun _ => SignatureVerificationFailed "receipt signature invalid")
      (Keypair.verify issuer_public_key
        (receipt_signing_payload (state_hash receipt) (receipt_id receipt))
        (issuer_signature receipt)).

Lemma verify_receipt_ok r pk h :
  verify_receipt r pk h = Ok tt <->
  state_hash r = h /\
  Keypair.verify pk (receipt_signing_payload h (receipt_id r)) (issuer_signature r) = Ok tt.
Proof.
  unfold verify_receipt. destruct (N.eqb_spec (state_hash r) h) as [<-|Hne]; simpl; [|naive_solver].
  destruct (Keypair.verify _ _ _) as [[]|e]; naive_solver.
Qed.
End Receipt.
End Receipt.

Module Spatial.

(** [f64] *)
Abbreviation f64 := spec_float.
Definition f64_of_usize (n : nat) : f64 := binary_normalize 53 1024 (Z.of_nat n) 0 false.
Definition f64_div (x y : f64) : f64 := SFdiv 53 1024 x y.
Definition f64_gt (x y : f64) : bool := SFltb y x.

Record SpatialDiversityTracker := mkSpatial {
  tag_counts : gmap string nat;
  untagged : nat
}.

Definition new : SpatialDiversityTracker := mkSpatial ∅ 0.

Definition add (t : SpatialDiversityTracker) (spatial_tag : option string)
  : SpatialDiversityTracker :=
  match spatial_tag with
  | Some tag => mkSpatial (<[tag := S (default O (tag_counts t !! tag))]> (tag_counts t)) (untagged t)
  | None => mkSpatial (tag_counts t) (S (untagged t))
  end.

Definition distinct_tag_count (t : SpatialDiversityTracker) : nat := size (tag_counts t).

Definition tagged_receipt_count (t : SpatialDiversityTracker) : nat :=
  map_fold (fun _ count acc => (count + acc)%nat) O (tag_counts t).

(** [count as f64 / total_receipts as f64 > max_single_sector_fraction] *)
Definition over_represented (max_single_sector_fraction : f64) (total_receipts count : nat) : bool :=
  f64_gt (f64_div (f64_of_usize count) (f64_of_usize total_receipts)) max_single_sector_fraction.

Definition satisfies_diversity `{!HashIter string nat} (t : SpatialDiversityTracker)
    (min_tags : nat) (max_single_sector_fraction : f64) (total_receipts : nat) : Res bool :=
  let distinct := distinct_tag_count t in
  if (distinct <? min_tags)%nat then Ok true
  else if (total_receipts =? 0)%nat then Ok false
  else Ok (forallb (fun e => negb (over_represented max_single_sector_fraction total_receipts e.2))
             (hm_iter (tag_counts t))).
End Spatial.

Module Quorum.
Import Receipt Spatial.

Record QuorumConfig := mkConfig {
  k : nat;
  n : nat;
  spatial_diversity_min : nat;
  max_single_sector_fraction : f64
}.

(** The [f64] literals 0.6 and 0.7. *)
Definition f64_0_6 : f64 := S754_finite false 5404319552844595 (-53).
Definition f64_0_7 : f64 := S754_finite false 6305039478318694 (-53).

(** [impl Default for QuorumConfig] *)
Definition default_config : QuorumConfig := mkConfig 3 5 2 f64_0_6.

(** What [CoreHandle::init] ([api/mod.rs]) makes of the deployment's values. *)
Definition deployment_config (quorum_k quorum_n min_tags : nat) (fraction : f64) : QuorumConfig :=
  let finite := match fraction with S754_infinity _ | S754_nan => false | _ => true end in
  mkConfig (quorum_k `max` 1) (quorum_n `max` 1) min_tags
    (if finite && f64_gt fraction (f64_of_usize 0) && negb (f64_gt fraction (f64_of_usize 1))
     then fraction else f64_0_7).

Record Tier1QuorumTracker := mkTracker {
  config : QuorumConfig;
  receipts : list DurabilityReceipt;
  seen_issuers : gset string;
  spatial : SpatialDiversityTracker;
  tier1_achieved : bool
}.

Definition new (config : QuorumConfig) : Tier1QuorumTracker :=
  mkTracker config [] ∅ Spatial.new false.

Definition effective_min_distinct (t : Tier1QuorumTracker) : nat :=
  let configured := spatial_diversity_min (config t) in
  if (configured =? 0)%nat then (k (config t)) `min` (distinct_tag_count (spatial t))
  else configured.

Section Quorum.
Context `{!HashIter string nat}.

Definition add_receipt_with_tag (t : Tier1QuorumTracker) (receipt : DurabilityReceipt)
    (diversity_tag : option string) : Tier1QuorumTracker * Res bool :=
  if decide (issuer_did receipt ∈ seen_issuers t) then (t, Ok (tier1_achieved t))
  else
    let tag := match diversity_tag with Some _ => diversity_tag | None => spatial_tag receipt end in
    let t := mkTracker (config t) (receipts t ++ [receipt]) ({[issuer_did receipt]} ∪ seen_issuers t)
      (add (spatial t) tag) (tier1_achieved t) in
    if negb (tier1_achieved t) && (k (config t) <=? length (receipts t))%nat then
      match satisfies_diversity (spatial t) (effective_min_distinct t)
              (max_single_sector_fraction (config t)) (length (receipts t)) with
      | Ok true =>
          (mkTracker (config t) (receipts t) (seen_issuers t) (spatial t) true, Ok true)
      | Ok false => (t, Ok false)
      | Err e => (t, Err e)
      end
    else (t, Ok false).

Definition add_receipt (t : Tier1QuorumTracker) (receipt : DurabilityReceipt)
  : Tier1QuorumTracker * Res bool :=
  add_receipt_with_tag t receipt None.

Definition is_tier1 (t : Tier1QuorumTracker) : bool := tier1_achieved t.
Definition receipt_count (t : Tier1QuorumTracker) : nat := length (receipts t).
End Quorum.
End Quorum.

Module Anchor.
Import Receipt.
Section Anchor.
Context `{!Bs58} `{!Ed25519}.

Record BeaconRegistryEntry := mkBeacon {
  entry_did : Did;
  public_key : bytes
}.

(** [u64::to_le_bytes] *)
Fixpoint le_bytes (n : nat) (x : Z) : bytes :=
  match n with
  | O => []
  | S n' => Z.to_N (Z.land x 255) :: le_bytes n' (Z.shiftr x 8)
  end.

Definition beacon_token_signing_payload (epoch : Z) (location_claim : string) : bytes :=
  le_bytes 8 epoch ++ string_bytes location_claim.

Inductive AnchorMode := BeaconAttested | SquadTagFallback.

Record TransportDegradationEvent := mkEvent {
  timestamp : Z;
  affected_peer_dids : list Did
}.

Record AnchorAttestedLocation := mkAnchor {
  beacon_registry : list BeaconRegistryEntry;
  current_epoch : Z;
  mode : AnchorMode;
  degradation_log : list TransportDegradationEvent;
  beacon_last_seen : gmap (list N) Z
}.

Definition new (beacon_registry : list BeaconRegistryEntry) (initial_epoch : Z)
  : AnchorAttestedLocation :=
  mkAnchor beacon_registry initial_epoch BeaconAttested [] ∅.

Definition from_beacon_public_keys (beacon_public_keys : list bytes) (initial_epoch : Z)
  : AnchorAttestedLocation :=
  new (map (fun pk => mkBeacon (Did.derive_did pk) pk) beacon_public_keys) initial_epoch.

Definition advance_epoch (a : AnchorAttestedLocation) (new_epoch : Z) : AnchorAttestedLocation :=
  if new_epoch >? current_epoch a
  then mkAnchor (beacon_registry a) new_epoch (mode a) (degradation_log a) (beacon_last_seen a)
  else a.

(** [iter().find(|e| e.beacon_did == beacon_did).map(|e| e.public_key)] *)
Definition find_beacon_key (a : AnchorAttestedLocation) (did : Did) : option bytes :=
  public_key <$> head (filter (fun e => entry_did e = did) (beacon_registry a)).

Definition beacon_did_for_key (a : AnchorAttestedLocation) (pk : bytes) : option Did :=
  entry_did <$> head (filter (fun e => public_key e = pk) (beacon_registry a)).

Definition verify_beacon_token (a : AnchorAttestedLocation) (token : BeaconToken) (now_secs : Z)
  : AnchorAttestedLocation * Res unit :=
  match find_beacon_key a (beacon_did token) with
  | None => (a, Err (SignatureVerificationFailed "unrecognised beacon DID"))
  | Some pk =>
      if epoch token <? current_epoch a
      then (a, Err (SignatureVerificationFailed "beacon token epoch is stale"))
      else
        match Keypair.verify pk (beacon_token_signing_payload (epoch token) (location_claim token))
                (beacon_signature token) with
        | Err _ => (a, Err (SignatureVerificationFailed "beacon token signature invalid"))
        | Ok _ =>
            (mkAnchor (beacon_registry a) (current_epoch a) (mode a) (degradation_log a)
               (<[pk := now_secs]> (beacon_last_seen a)), Ok tt)
        end
  end.

Definition on_beacon_signal_lost (a : AnchorAttestedLocation) (ts : Z) (affected : list Did)
  : AnchorAttestedLocation * Res unit :=
  (mkAnchor (beacon_registry a) (current_epoch a) SquadTagFallback
     (degradation_log a ++ [mkEvent ts affected]) (beacon_last_seen a), Ok tt).

Definition check_signal_loss (a : AnchorAttestedLocation) (now_secs threshold_secs : Z)
  : list bytes :=
  match mode a with
  | SquadTagFallback => []
  | BeaconAttested =>
      let threshold := wrap_i64 threshold_secs in
      omap (fun e =>
        let last_seen := default (- 2 ^ 63) (beacon_last_seen a !! public_key e) in
        if saturating_sub_i64 now_secs last_seen >? threshold then Some (public_key e) else None)
        (beacon_registry a)
  end.

Definition peer_has_valid_token (a : AnchorAttestedLocation) (token : BeaconToken) (now_secs : Z)
  : AnchorAttestedLocation * bool :=
  match mode a with
  | SquadTagFallback => (a, false)
  | BeaconAttested =>
      let '(a', res) := verify_beacon_token a token now_secs in (a', is_ok res)
  end.

(** One turn of [spawn_beacon_monitor_loop] ([api/mod.rs]). *)
Definition monitor_tick (a : AnchorAttestedLocation) (now threshold_secs : Z)
  : AnchorAttestedLocation :=
  match check_signal_loss a now threshold_secs with
  | [] => a
  | lost => (on_beacon_signal_lost a now (omap (beacon_did_for_key a) lost)).1
  end.
End Anchor.
End Anchor.

Module Durability.
Import Receipt CloudQueue.
Section Durability.
Context `{!Bs58} `{!Ed25519} `{!HashIter string nat} `{!HashIter N Z}.

(** [api/types.rs] *)
Inductive DurabilityTier := Uncommitted | Tier1 | Tier2.

#[export] Instance DurabilityTier_eq_dec : EqDecision DurabilityTier.
Proof. solve_decision. Defined.

Record DeltaDurabilityState := mkState {
  ds_state_hash : N;
  tier : DurabilityTier;
  peer_public_keys : gmap string bytes;
  quorum : Quorum.Tier1QuorumTracker;
  compaction_permitted : bool
}.

Definition new_state (state_hash : N) (quorum_config : Quorum.QuorumConfig)
    (peer_public_keys : gmap string bytes) : DeltaDurabilityState :=
  mkState state_hash Uncommitted peer_public_keys (Quorum.new quorum_config) false.

Record DurabilitySubsystem := mkSub {
  quorum_config : Quorum.QuorumConfig;
  states : gmap N DeltaDurabilityState;
  anchor : option Anchor.AnchorAttestedLocation;
  cloud_queue : CloudOutboundQueue
}.

(** [(delta_id, previous_tier, new_tier)], as handed to the listener. *)
Definition TierChanged : Type := (DeltaId * DurabilityTier * DurabilityTier).

Definition with_anchor (quorum_config : Quorum.QuorumConfig)
    (anchor : option Anchor.AnchorAttestedLocation) : DurabilitySubsystem :=
  mkSub quorum_config ∅ anchor empty_queue.
Definition new (quorum_config : Quorum.QuorumConfig) : DurabilitySubsystem :=
  with_anchor quorum_config None.

Definition set_states (s : DurabilitySubsystem) (states : gmap N DeltaDurabilityState) :=
  mkSub (quorum_config s) states (anchor s) (cloud_queue s).
Definition set_anchor (s : DurabilitySubsystem) (a : option Anchor.AnchorAttestedLocation) :=
  mkSub (quorum_config s) (states s) a (cloud_queue s).
Definition set_queue (s : DurabilitySubsystem) (q : CloudOutboundQueue) :=
  mkSub (quorum_config s) (states s) (anchor s) q.

Definition register_delta (s : DurabilitySubsystem) (delta_id : DeltaId) (state_hash : N)
    (serialised_bytes : bytes) (causal_parents : list DeltaId) (keys : gmap string bytes)
  : DurabilitySubsystem * Res unit :=
  let s := set_states s (<[delta_id := new_state state_hash (quorum_config s) keys]> (states s)) in
  let '(q, res) := enqueue (cloud_queue s) (new_entry delta_id serialised_bytes causal_parents) in
  (set_queue s q, res).

Definition register_peer_key (s : DurabilitySubsystem) (delta_id : DeltaId) (peer_did : Did)
    (public_key : bytes) : DurabilitySubsystem :=
  set_states s (alter (fun st => mkState (ds_state_hash st) (tier st)
    (<[peer_did := public_key]> (peer_public_keys st)) (quorum st) (compaction_permitted st))
    delta_id (states s)).

(** The tag the receipt counts under while the anchor attests locations. *)
Definition diversity_tag (a : option Anchor.AnchorAttestedLocation) (receipt : DurabilityReceipt)
    (now_secs : Z) : option Anchor.AnchorAttestedLocation * Res (option string) :=
  match a with
  | None => (a, Ok None)
  | Some anchor =>
      match Anchor.mode anchor with
      | Anchor.SquadTagFallback => (a, Ok None)
      | Anchor.BeaconAttested =>
          match beacon_token receipt with
          | None => (a, Err (SignatureVerificationFailed "receipt with no beacon token"))
          | Some token =>
              let '(anchor', res) := Anchor.verify_beacon_token anchor token now_secs in
              (Some anchor',
                match res with
                | Ok _ => Ok (Some (location_claim token))
                | Err _ => Err (SignatureVerificationFailed "beacon token rejected")
                end)
          end
      end
  end.

Definition receive_receipt (s : DurabilitySubsystem) (receipt : DurabilityReceipt)
    (delta_id : DeltaId) (now_secs : Z)
  : DurabilitySubsystem * list TierChanged * Res bool :=
  match states s !! delta_id with
  | None => (s, [], Ok false)
  | Some state =>
      match peer_public_keys state !! issuer_did receipt with
      | None => (s, [], Err (SignatureVerificationFailed "no known public key for issuer"))
      | Some public_key =>
          match verify_receipt receipt public_key (ds_state_hash state) with
          | Err e => (s, [], Err e)
          | Ok _ =>
              let '(anchor', tag) := diversity_tag (anchor s) receipt now_secs in
              let s := set_anchor s anchor' in
              match tag with
              | Err e => (s, [], Err e)
              | Ok tag =>
                  let '(q, res) := Quorum.add_receipt_with_tag (quorum state) receipt tag in
                  let state := mkState (ds_state_hash state) (tier state) (peer_public_keys state)
                    q (compaction_permitted state) in
                  let s := set_states s (<[delta_id := state]> (states s)) in
                  match res with
                  | Err e => (s, [], Err e)
                  | Ok tier1_achieved =>
                      if tier1_achieved && bool_decide (tier state = Uncommitted) then
                        let state := mkState (ds_state_hash state) Tier1 (peer_public_keys state)
                          (quorum state) true in
                        let s := set_states s (<[delta_id := state]> (states s)) in
                        (set_queue s (add_receipt_holder (cloud_queue s) delta_id (issuer_did receipt)),
                         [(delta_id, Uncommitted, Tier1)], Ok true)
                      else
                        (set_queue s (add_receipt_holder (cloud_queue s) delta_id (issuer_did receipt)),
                         [], Ok false)
                  end
              end
          end
      end
  end.

Definition durability_tier (s : DurabilitySubsystem) (delta_id : DeltaId) : DurabilityTier :=
  default Uncommitted (tier <$> states s !! delta_id).

Definition is_compaction_permitted (s : DurabilitySubsystem) (delta_id : DeltaId) : bool :=
  default false (compaction_permitted <$> states s !! delta_id).

Definition on_cloud_ack (s : DurabilitySubsystem) (delta_id : DeltaId)
  : DurabilitySubsystem * list TierChanged * Res unit :=
  let previous_tier := durability_tier s delta_id in
  let s := set_states s (alter (fun st => mkState (ds_state_hash st) Tier2 (peer_public_keys st)
    (quorum st) (compaction_permitted st)) delta_id (states s)) in
  (set_queue s (acknowledge (cloud_queue s) delta_id), [(delta_id, previous_tier, Tier2)], Ok tt).

Definition cloud_queue_depth (s : DurabilitySubsystem) : nat := depth (cloud_queue s).

(** ** The callers in [api/mod.rs] *)

(** [receive_inbound], the arm [InboundDurabilityReceipt]: the Delta is named
    by the state hash of the receipt; errors are logged. *)
Definition inbound_receipt (s : DurabilitySubsystem) (receipt : DurabilityReceipt) (now_secs : Z)
  : DurabilitySubsystem * list TierChanged :=
  let delta_id := state_hash receipt in
  match Did.resolve_did (issuer_did receipt) with
  | Err _ => (s, [])
  | Ok issuer_public_key =>
      let s := register_peer_key s delta_id (issuer_did receipt) issuer_public_key in
      (receive_receipt s receipt delta_id now_secs).1
  end.

(** [run_cloud_sync_cycle] *)
Definition ack_all (s : DurabilitySubsystem) (ids : list DeltaId)
  : DurabilitySubsystem * list TierChanged :=
  foldl (fun st delta_id =>
    let '(s', ev, _) := on_cloud_ack st.1 delta_id in (s', st.2 ++ ev)) (s, []) ids.

Definition run_cloud_sync_cycle {C} `{!CloudConnection C}
    (refetch : DeltaId -> list Did -> option bytes) (s : DurabilitySubsystem) (conn : C)
  : DurabilitySubsystem * C * list TierChanged * CloudSyncResult :=
  if (cloud_queue_depth s =? 0)%nat then (s, conn, [], mkSync 0 0 0 [])
  else
    let '(q, conn', result) := cloud_sync_loop refetch (cloud_queue s) conn in
    let '(s', ev) := ack_all (set_queue s q) (acknowledged_ids result) in
    (s', conn', ev, result).

(** One turn of the beacon monitor on the subsystem. *)
Definition monitor_beacons (s : DurabilitySubsystem) (now threshold_secs : Z)
  : DurabilitySubsystem :=
  set_anchor s ((fun a => Anchor.monitor_tick a now threshold_secs) <$> anchor s).
End Durability.
End Durability.

(** * Properties *)

Module QuorumProofs.
Import Receipt Spatial Quorum.

(** ** Diversity *)

Section Diversity.
Context `{!HashIter string nat}.

Lemma satisfies_diversity_ok t m frac total :
  satisfies_diversity t m frac total = Ok true <->
  (distinct_tag_count t < m)%nat \/
  (0 < total)%nat /\
  forall tag c, tag_counts t !! tag = Some c -> over_represented frac total c = false.
Proof.
  unfold satisfies_diversity. destruct (Nat.ltb_spec (distinct_tag_count t) m); [naive_solver|].
  destruct (Nat.eqb_spec total 0) as [->|Hne].
  - split; [done|]. intros [?|[? _]]; lia.
  - split.
    + intros [= Hall]. right. split; [lia|]. intros tag c Hc.
      rewrite forallb_forall in Hall. specialize (Hall (tag, c)).
      apply negb_true_iff, Hall, list_elem_of_In, elem_of_hm_iter. done.
    + intros [?|[_ Hall]]; [lia|]. f_equal. apply forallb_forall. intros [tag c] Hin.
      apply list_elem_of_In, elem_of_hm_iter in Hin. apply negb_true_iff. by eapply Hall.
Qed.

Lemma satisfies_diversity_is_ok t m frac total :
  exists b, satisfies_diversity t m frac total = Ok b.
Proof. unfold satisfies_diversity. repeat case_match; eauto. Qed.

Lemma tag_counts_add t tag x :
  default O (tag_counts (add t x) !! tag) =
  (default O (tag_counts t !! tag) + if decide (x = Some tag) then 1 else 0)%nat.
Proof.
  destruct x as [y|]; simpl.
  - destruct (decide (y = tag)) as [->|Hne].
    + rewrite lookup_insert_eq, decide_True by done. simpl. lia.
    + rewrite lookup_insert_ne, decide_False by congruence. lia.
  - lia.
Qed.

(** ** The quorum counts each issuer once *)

(** The receipts that count: the first of each issuer, with the tag it counts
    under. *)
Fixpoint counted (seen : list string) (l : list (DurabilityReceipt * option string))
  : list (DurabilityReceipt * option string) :=
  match l with
  | [] => []
  | (r, tag) :: l =>
      if decide (issuer_did r ∈ seen) then counted seen l
      else (r, match tag with Some _ => tag | None => spatial_tag r end)
           :: counted (issuer_did r :: seen) l
  end.

Definition issuers (rs : list DurabilityReceipt) : list string := map issuer_did rs.

Lemma counted_snoc seen l r tag :
  counted seen (l ++ [(r, tag)]) =
  counted seen l ++
    if decide (issuer_did r ∈ seen ++ issuers (map fst l)) then []
    else [(r, match tag with Some _ => tag | None => spatial_tag r end)].
Proof.
  revert seen. induction l as [|[r' tag'] l IH]; intros seen; cbn [counted app map issuers fst].
  - rewrite app_nil_r. by case_decide.
  - destruct (decide (issuer_did r' ∈ seen)) as [Hs|Hs]; rewrite IH; cbn [app];
      rewrite (decide_ext _ (issuer_did r ∈ seen ++ issuer_did r' :: issuers (map fst l))).
    + done.
    + rewrite !elem_of_app, elem_of_cons.
      assert (issuer_did r = issuer_did r' -> issuer_did r ∈ seen) by (by intros ->). tauto.
    + done.
    + rewrite !elem_of_app, !elem_of_cons, elem_of_app. tauto.
Qed.

Lemma counted_issuers seen l x :
  x ∈ seen \/ x ∈ issuers (map fst (counted seen l)) <-> x ∈ seen \/ x ∈ issuers (map fst l).
Proof.
  revert seen. induction l as [|[r tag] l IH]; intros seen; [done|].
  cbn [counted map fst issuers]. unfold issuers in *. case_decide as Hs.
  - rewrite IH, elem_of_cons. assert (x = issuer_did r -> x ∈ seen) by (by intros ->). tauto.
  - cbn [map fst]. rewrite !elem_of_cons. specialize (IH (issuer_did r :: seen)).
    rewrite elem_of_cons in IH. tauto.
Qed.

Definition run (cfg : QuorumConfig) (l : list (DurabilityReceipt * option string))
  : Tier1QuorumTracker :=
  foldl (fun t x => (add_receipt_with_tag t x.1 x.2).1) (Quorum.new cfg) l.

(** Enough receipts, diverse enough: what the tracker tests at each receipt. *)
Definition meets (t : Tier1QuorumTracker) : Prop :=
  (k (config t) <= length (receipts t))%nat /\
  satisfies_diversity (spatial t) (effective_min_distinct t)
    (max_single_sector_fraction (config t)) (length (receipts t)) = Ok true.

Record tracks (t : Tier1QuorumTracker) (cfg : QuorumConfig)
    (c : list (DurabilityReceipt * option string)) : Prop := {
  tr_config : config t = cfg;
  tr_receipts : receipts t = map fst c;
  tr_seen : forall x, x ∈ seen_issuers t <-> x ∈ issuers (map fst c);
  tr_tags : forall tag, default O (tag_counts (spatial t) !! tag) =
    length (filter (fun x => x.2 = Some tag) c);
  tr_nodup : NoDup (issuers (map fst c))
}.

(** One receipt: nothing for a known issuer, else it is counted, and the flag
    is raised when the count meets the configuration. *)
Lemma add_receipt_spec t cfg c r tag :
  tracks t cfg c ->
  let t' := (add_receipt_with_tag t r tag).1 in
  if decide (issuer_did r ∈ issuers (map fst c)) then t' = t else
    tracks t' cfg (c ++ [(r, match tag with Some _ => tag | None => spatial_tag r end)]) /\
    (tier1_achieved t' = true <-> tier1_achieved t = true \/ meets t').
Proof.
  intros [Hcfg Hrec Hseen Htags Hnd]. cbv zeta. unfold add_receipt_with_tag.
  destruct (decide (issuer_did r ∈ issuers (map fst c))) as [Hin|Hin].
  { by rewrite decide_True by (by apply Hseen). }
  rewrite decide_False by (by rewrite Hseen).
  set (tag' := match tag with Some _ => tag | None => spatial_tag r end).
  set (t1 := mkTracker (config t) (receipts t ++ [r]) _ _ _).
  assert (tracks t1 cfg (c ++ [(r, tag')])) as Ht1.
  { split; cbn [t1 config receipts seen_issuers spatial].
    - done.
    - by rewrite Hrec, map_app.
    - intros x. unfold issuers in *. rewrite elem_of_union, Hseen, !map_app. set_solver.
    - intros x. rewrite tag_counts_add, Htags, filter_app, length_app. f_equal.
      rewrite filter_cons, filter_nil. cbn [snd]. by case_decide.
    - unfold issuers in *. rewrite !map_app. apply NoDup_app. split; [done|]. split.
      + intros x Hx ->%list_elem_of_singleton. done.
      + apply NoDup_singleton. }
  assert (forall b t2, t2 = mkTracker (config t1) (receipts t1) (seen_issuers t1) (spatial t1) b ->
    tracks t2 cfg (c ++ [(r, tag')]) /\ (meets t2 <-> meets t1)) as Hflag.
  { intros b t2 ->. split; [|done]. by destruct Ht1. }
  destruct (satisfies_diversity_is_ok (spatial t1) (effective_min_distinct t1)
    (max_single_sector_fraction (config t1)) (length (receipts t1))) as [b Hb].
  unfold meets in *. change (tier1_achieved t1) with (tier1_achieved t) in *.
  destruct (tier1_achieved t) eqn:Ha; simpl negb; cbn [andb].
  { cbn [fst]. split; [done|]. split; [by left|done]. }
  destruct (Nat.leb_spec (k (config t1)) (length (receipts t1))) as [Hk|Hk]; rewrite ?Hb.
  - destruct b; cbn [fst].
    + destruct (Hflag true _ eq_refl) as [? Hm]. split; [done|]. cbn [tier1_achieved].
      split; [|done]. intros _. right. by apply Hm.
    + split; [done|]. change (tier1_achieved t1) with false. rewrite Hb.
      split; [done|]. by intros [?|[_ ?]].
  - cbn [fst]. split; [done|]. change (tier1_achieved t1) with false.
    split; [done|]. intros [?|[? _]]; [done|lia].
Qed.
Lemma prefix_snoc_inv {A} (l' l : list A) x :
  l' `prefix_of` l ++ [x] <-> l' = l ++ [x] \/ l' `prefix_of` l.
Proof.
  split.
  - intros [m Hm]. destruct m as [|y m _] using rev_ind.
    + left. by rewrite app_nil_r in Hm.
    + right. rewrite app_assoc in Hm. apply app_inj_tail in Hm as [-> _]. by exists m.
  - intros [->|Hl]; [done|]. by apply prefix_app_r.
Qed.

Lemma run_tracks cfg l :
  tracks (run cfg l) cfg (counted [] l) /\
  (tier1_achieved (run cfg l) = true <->
    exists l', l' <> [] /\ l' `prefix_of` l /\ meets (run cfg l')).
Proof.
  induction l as [|[r tag] l [IH1 IH2]] using rev_ind.
  - split; [split; [done|done|by intros x; cbn; set_solver|done|apply NoDup_nil_2]|]. split; [done|].
    intros (l' & Hne & Hl' & _). by apply prefix_nil_inv in Hl'.
  - assert (run cfg (l ++ [(r, tag)]) = (add_receipt_with_tag (run cfg l) r tag).1) as Hrun
      by (unfold run; by rewrite foldl_app).
    pose proof (add_receipt_spec (run cfg l) cfg _ r tag IH1) as Hadd.
    rewrite counted_snoc. cbn [app]. cbv zeta in Hadd. rewrite <- Hrun in Hadd.
    assert (issuer_did r ∈ issuers (map fst (counted [] l)) <->
      issuer_did r ∈ issuers (map fst l)) as Hiss.
    { pose proof (counted_issuers [] l (issuer_did r)) as H. rewrite elem_of_nil in H. tauto. }
    rewrite (decide_ext _ _ _ _ Hiss) in Hadd.
    destruct (decide (issuer_did r ∈ issuers (map fst l))) as [Hin|Hin].
    + rewrite app_nil_r, Hadd. split; [done|]. rewrite IH2.
      setoid_rewrite prefix_snoc_inv. split; [naive_solver|].
      intros (l' & Hne & [->|Hl'] & Hm); [|by eauto]. exists l. split_and!; [|done|].
      * intros ->. by apply elem_of_nil in Hin.
      * by rewrite Hrun, <- Hrun, Hadd in Hm.
    + destruct Hadd as [Ht Ha]. split; [done|]. rewrite Ha, IH2.
      setoid_rewrite prefix_snoc_inv. split.
      * intros [(l' & ? & ? & ?)|Hm]; [by eauto|].
        exists (l ++ [(r, tag)]). split_and!; [by destruct l|by left|done].
      * intros (l' & Hne & [->|Hl'] & Hm); [by right|]. left. by eauto.
Qed.

(** The tracker against its specification.  Of the receipts offered it
    keeps the first of each issuer, it counts per tag exactly those, and Tier-1
    is reached as soon as, and only if, at some moment the receipts kept are at
    least [k] and diverse enough; it is never given up. *)
Theorem tier1_quorum_refines cfg l :
  let t := run cfg l in
  receipts t = map fst (counted [] l) /\ NoDup (map issuer_did (receipts t)) /\
  (forall r tag, (r, tag) ∈ l -> issuer_did r ∈ map issuer_did (receipts t)) /\
  (forall tag, default O (tag_counts (spatial t) !! tag) =
    length (filter (fun x => x.2 = Some tag) (counted [] l))) /\
  (tier1_achieved t = true <-> exists l', l' <> [] /\ l' `prefix_of` l /\
    let t' := run cfg l' in
    (k cfg <= length (receipts t'))%nat /\
    ((distinct_tag_count (spatial t') < effective_min_distinct t')%nat \/
     forall tag c, tag_counts (spatial t') !! tag = Some c ->
       over_represented (max_single_sector_fraction cfg) (length (receipts t')) c = false)).
Proof.
  destruct (run_tracks cfg l) as [[_ Hrec _ Htags Hnd] Ha]. cbv zeta.
  split_and!; [done|by rewrite Hrec| |done|].
  - intros r tag Hin. rewrite Hrec.
    destruct (counted_issuers [] l (issuer_did r)) as [_ H].
    destruct H as [H|H]; [right|by apply elem_of_nil in H|done].
    by apply (list_elem_of_fmap_2 issuer_did), (list_elem_of_fmap_2 fst _ _ Hin).
  - rewrite Ha. split; intros (l' & Hne & Hl' & Hm); exists l'; (split; [done|]); (split; [done|]).
    + destruct Hm as [Hk Hd]. destruct (run_tracks cfg l') as [[Hcfg _ _ _ _] _].
      rewrite Hcfg in *. apply satisfies_diversity_ok in Hd. naive_solver.
    + destruct (run_tracks cfg l') as [[Hcfg Hrec' _ _ _] _]. destruct Hm as [Hk Hd].
      unfold meets. rewrite Hcfg, satisfies_diversity_ok. split; [done|].
      destruct Hd as [?|Hd]; [by left|]. right. split; [|done].
      destruct l' as [|[r tag] l']; [done|]. rewrite Hrec'. simpl. lia.
Qed.
End Diversity.

(** With the default caps and up to 32 receipts the floating-point test of
    the share of a tag is exact: a tag is over-represented precisely when it has
    more than 7 in 10 (6 in 10) of the receipts. *)
Theorem over_represented_exact total count :
  (0 < total <= 32)%nat -> (count <= total)%nat ->
  over_represented f64_0_7 total count = (7 * total <? 10 * count)%nat /\
  over_represented f64_0_6 total count = (6 * total <? 10 * count)%nat.
Proof.
  intros Ht Hc.
  assert (Forall (fun t => Forall (fun c =>
    over_represented f64_0_7 t c = (7 * t <? 10 * c)%nat /\
    over_represented f64_0_6 t c = (6 * t <? 10 * c)%nat) (seq 0 (S t))) (seq 1 32)) as Hall
    by by_decide.
  rewrite Forall_forall in Hall. specialize (Hall total). rewrite elem_of_seq in Hall.
  specialize (Hall ltac:(lia)). rewrite Forall_forall in Hall. apply Hall, elem_of_seq. lia.
Qed.

Lemma over_represented_exact_witness :
  (0 < 3 <= 32)%nat /\ (2 <= 3)%nat /\
  over_represented f64_0_7 3 2 = false /\ over_represented f64_0_6 3 2 = true.
Proof.
  assert (0 < 3 <= 32)%nat as Ht by lia. assert (2 <= 3)%nat as Hc by lia.
  destruct (over_represented_exact 3 2 Ht Hc) as [H7 H6].
  split; [exact Ht|]. split; [exact Hc|]. rewrite H7, H6. split; reflexivity.
Defined.

End QuorumProofs.

Module AnchorProofs.
Import Receipt Anchor.
Section AnchorProofs.
Context `{!Bs58} `{!Ed25519}.

(** A token is accepted exactly when a registered beacon signed its claim
    for an epoch that is not past; then, and only then, the beacon is recorded
    as seen. *)
Theorem verify_beacon_token_spec a token now :
  let '(a', res) := verify_beacon_token a token now in
  match res with
  | Ok _ => exists pk, find_beacon_key a (beacon_did token) = Some pk /\
      (exists e, e ∈ beacon_registry a /\ entry_did e = beacon_did token /\ public_key e = pk) /\
      current_epoch a <= epoch token /\
      Keypair.verify pk (beacon_token_signing_payload (epoch token) (location_claim token))
        (beacon_signature token) = Ok tt /\
      beacon_last_seen a' = <[pk := now]> (beacon_last_seen a) /\
      mode a' = mode a /\ current_epoch a' = current_epoch a
  | Err _ => a' = a /\ forall pk, find_beacon_key a (beacon_did token) = Some pk ->
      epoch token < current_epoch a \/
      Keypair.verify pk (beacon_token_signing_payload (epoch token) (location_claim token))
        (beacon_signature token) <> Ok tt
  end.
Proof.
  unfold verify_beacon_token. destruct (find_beacon_key a _) as [pk|] eqn:Hf; [|done].
  destruct (Z.ltb_spec (epoch token) (current_epoch a)).
  { split; [done|]. intros pk' [= <-]. by left. }
  destruct (Keypair.verify _ _ _) as [[]|e] eqn:Hv.
  - exists pk. split_and!; try done. unfold find_beacon_key in Hf.
    destruct (filter _ _) as [|e l] eqn:Hfl; [done|]. simpl in Hf. simplify_eq.
    exists e. assert (e ∈ e :: l) as Hin by left. rewrite <- Hfl in Hin.
    apply list_elem_of_filter in Hin as [? ?]. done.
  - split; [done|]. intros pk' [= <-]. right. by rewrite Hv.
Qed.

(** While the anchor attests, a beacon is reported lost exactly when it was
    never seen or not for longer than the threshold. *)
Theorem check_signal_loss_spec a now threshold pk :
  mode a = BeaconAttested -> 0 <= now < 2 ^ 63 -> 0 <= threshold < 2 ^ 63 - 1 ->
  (forall pk' t, beacon_last_seen a !! pk' = Some t -> 0 <= t < 2 ^ 63) ->
  pk ∈ check_signal_loss a now threshold <->
  (exists e, e ∈ beacon_registry a /\ public_key e = pk) /\
  match beacon_last_seen a !! pk with Some t => now - t > threshold | None => True end.
Proof.
  intros Hm Hnow Hthr Hseen. unfold check_signal_loss. rewrite Hm.
  rewrite wrap_i64_small by (unfold i64_ok; lia).
  assert (forall t, beacon_last_seen a !! pk = t ->
    (saturating_sub_i64 now (default (- 2 ^ 63) t) >? threshold) = true <->
    match t with Some t => now - t > threshold | None => True end) as Hlost.
  { intros [t|] Ht; simpl; unfold saturating_sub_i64; [|lia].
    apply Hseen in Ht. lia. }
  specialize (Hlost _ eq_refl). rewrite <- Hlost, list_elem_of_omap. split.
  - intros (e & He & Hpk). destruct (saturating_sub_i64 now (default _ (_ !! public_key e)) >? _)
      eqn:Hc; simplify_eq. split; [by exists e|done].
  - intros [(e & He & <-) Hc]. exists e. split; [done|]. by rewrite Hc.
Qed.

(** The first turn of the monitor that finds a registered beacon not yet
    seen ends attestation for good: the anchor falls back to squad tags with one
    degradation event, and no token and no later turn changes that.  A fresh
    anchor has seen no beacon. *)
Theorem unseen_beacon_disables a e now threshold :
  mode a = BeaconAttested -> e ∈ beacon_registry a -> beacon_last_seen a !! public_key e = None ->
  0 <= now < 2 ^ 63 -> 0 <= threshold < 2 ^ 63 - 1 ->
  let a' := monitor_tick a now threshold in
  mode a' = SquadTagFallback /\ length (degradation_log a') = S (length (degradation_log a)) /\
  forall token now' threshold',
    monitor_tick a' now' threshold' = a' /\ peer_has_valid_token a' token now' = (a', false) /\
    mode (verify_beacon_token a' token now').1 = SquadTagFallback.
Proof.
  intros Hm He Hs Hnow Hthr. cbv zeta.
  assert (public_key e ∈ check_signal_loss a now threshold) as Hin.
  { unfold check_signal_loss. rewrite Hm, wrap_i64_small by (unfold i64_ok; lia).
    apply list_elem_of_omap. exists e. split; [done|]. rewrite Hs. simpl.
    unfold saturating_sub_i64. destruct (_ >? _) eqn:Hc; [done|]. lia. }
  assert (exists dids, monitor_tick a now threshold = (on_beacon_signal_lost a now dids).1) as [dids ->].
  { unfold monitor_tick. destruct (check_signal_loss a now threshold) as [|x l];
      [by apply elem_of_nil in Hin|]. by eexists. }
  cbn [on_beacon_signal_lost fst mode degradation_log].
  split; [done|]. rewrite length_app. simpl. split; [lia|]. intros token now' threshold'.
  split_and!; [done|done|]. unfold verify_beacon_token. by repeat case_match.
Qed.

End AnchorProofs.
End AnchorProofs.

Module DurabilityProofs.
Import Receipt CloudQueue Durability QuorumProofs.
Import Spatial.
Section DurabilityProofs.
Context `{!Bs58} `{!Ed25519} `{!HashIter string nat} `{!HashIter N Z}.

(** The steps of a running device: a local write, a receipt from the network, a
    cloud sync cycle over any ledger, a turn of the beacon monitor, the
    compaction of a Delta. *)
Inductive step (s : DurabilitySubsystem) : DurabilitySubsystem -> Prop :=
| step_write id bs parents : step s (register_delta s id id bs parents ∅).1
| step_receipt r now : step s (inbound_receipt s r now).1
| step_sync (C : Type) (conn : CloudConnection C) refetch (c : C) :
    step s (run_cloud_sync_cycle refetch s c).1.1.1
| step_monitor now threshold : step s (monitor_beacons s now threshold)
| step_compact id : step s (set_queue s (mark_compacted (cloud_queue s) id)).

Definition reachable (cfg : Quorum.QuorumConfig) (a : option Anchor.AnchorAttestedLocation)
  : DurabilitySubsystem -> Prop := rtc step (with_anchor cfg a).

(** A receipt that attests the state hash [h] under the key its issuer spells. *)
Definition verified (h : N) (r : DurabilityReceipt) : Prop :=
  state_hash r = h /\ exists pk, Did.resolve_did (issuer_did r) = Ok pk /\
    Keypair.verify pk (receipt_signing_payload h (receipt_id r)) (issuer_signature r) = Ok tt.

Record delta_inv (cfg : Quorum.QuorumConfig) (id : DeltaId) (st : DeltaDurabilityState) : Prop := {
  di_hash : ds_state_hash st = id;
  di_keys : forall did pk, peer_public_keys st !! did = Some pk -> Did.resolve_did did = Ok pk;
  di_quorum : exists c, tracks (quorum st) cfg c;
  di_verified : Forall (verified id) (Quorum.receipts (quorum st));
  di_count : Quorum.tier1_achieved (quorum st) = true ->
    (Quorum.k cfg <= length (Quorum.receipts (quorum st)))%nat;
  di_tier : tier st = Tier1 -> Quorum.tier1_achieved (quorum st) = true;
  di_compaction : compaction_permitted st = true -> Quorum.tier1_achieved (quorum st) = true
}.

Record sub_inv (s : DurabilitySubsystem) : Prop := {
  si_delta : forall id st, states s !! id = Some st -> delta_inv (quorum_config s) id st;
  si_queue : Forall (fun e => q_tier2_durable e = false) (cloud_queue s);
  si_known : forall id, id ∈ ids (cloud_queue s) -> is_Some (states s !! id)
}.

Lemma add_receipt_achieved t r tag :
  (Quorum.add_receipt_with_tag t r tag).2 = Ok true ->
  Quorum.tier1_achieved (Quorum.add_receipt_with_tag t r tag).1 = true.
Proof.
  unfold Quorum.add_receipt_with_tag. case_decide; cbn [fst snd]; [by intros [= ->]|].
  cbv zeta. destruct (_ && _); [|done]. by destruct (satisfies_diversity _ _ _ _) as [[]|].
Qed.

Lemma add_receipt_is_ok t r tag : exists b, (Quorum.add_receipt_with_tag t r tag).2 = Ok b.
Proof.
  unfold Quorum.add_receipt_with_tag. case_decide; [by eexists|].
  cbv zeta. destruct (_ && _); [|by eexists].
  edestruct satisfies_diversity_is_ok as [b ->]. destruct b; by eexists.
Qed.

(** Everything [receive_receipt] can do. *)
Lemma receive_receipt_cases s r id now :
  let s' := (receive_receipt s r id now).1.1 in
  quorum_config s' = quorum_config s /\
  ((states s' = states s /\ cloud_queue s' = cloud_queue s) \/
   exists st pk tag, states s !! id = Some st /\ peer_public_keys st !! issuer_did r = Some pk /\
     verify_receipt r pk (ds_state_hash st) = Ok tt /\
     (diversity_tag (anchor s) r now).2 = Ok tag /\
     cloud_queue s' = add_receipt_holder (cloud_queue s) id (issuer_did r) /\
     exists tier' comp', states s' = <[id :=
         mkState (ds_state_hash st) tier' (peer_public_keys st)
           (Quorum.add_receipt_with_tag (quorum st) r tag).1 comp']> (states s) /\
       ((tier' = tier st /\ comp' = compaction_permitted st) \/
        (tier st = Uncommitted /\ tier' = Tier1 /\ comp' = true /\
         Quorum.tier1_achieved (Quorum.add_receipt_with_tag (quorum st) r tag).1 = true))).
Proof.
  unfold receive_receipt. destruct (states s !! id) as [st|] eqn:Hst; [|naive_solver].
  destruct (peer_public_keys st !! issuer_did r) as [pk|] eqn:Hpk; [|naive_solver].
  destruct (verify_receipt r pk _) as [[]|e] eqn:Hv; [|naive_solver].
  destruct (diversity_tag (anchor s) r now) as [a' [tag|e]] eqn:Hd; [|cbn; naive_solver].
  pose proof (add_receipt_achieved (quorum st) r tag) as Hach.
  destruct (Quorum.add_receipt_with_tag (quorum st) r tag) as [q res] eqn:Hq.
  destruct (add_receipt_is_ok (quorum st) r tag) as [b Hb']. rewrite Hq in Hb'.
  cbn [fst snd] in Hb', Hach. subst res.
  destruct (b && _) eqn:Hb; cbn [fst snd]; (split; [done|]); right; exists st, pk, tag;
    (do 4 (split; [done|])); rewrite Hq; (split; [done|]).
  - apply andb_true_iff in Hb as [-> Ht%bool_decide_eq_true]. exists Tier1, true.
    split; [cbn; by rewrite insert_insert_eq|]. right. split_and!; [done|done|done|by apply Hach].
  - exists (tier st), (compaction_permitted st). split; [done|]. by left.
Qed.
(** ** The invariant *)

Lemma delta_inv_quorum cfg id st r tag tier' comp' :
  delta_inv cfg id st -> verified id r ->
  let q := (Quorum.add_receipt_with_tag (quorum st) r tag).1 in
  (tier' = tier st /\ comp' = compaction_permitted st) \/
    (tier' = Tier1 /\ comp' = true /\ Quorum.tier1_achieved q = true) ->
  delta_inv cfg id (mkState (ds_state_hash st) tier' (peer_public_keys st) q comp').
Proof.
  intros [Hh Hkeys [c Hc] Hver Hcount Htier Hcomp] Hr q Hcase.
  assert ((exists c', tracks q cfg c') /\ Forall (verified id) (Quorum.receipts q) /\
    (Quorum.tier1_achieved q = true ->
      (Quorum.k cfg <= length (Quorum.receipts q))%nat) /\
    (Quorum.tier1_achieved (quorum st) = true -> Quorum.tier1_achieved q = true))
    as (Hq1 & Hq2 & Hq3 & Hq4).
  { pose proof (add_receipt_spec (quorum st) cfg c r tag Hc) as Hadd. cbv zeta in Hadd. fold q in Hadd.
    case_decide; [by rewrite Hadd; eauto|]. destruct Hadd as [Ht Ha].
    assert (Quorum.receipts q = Quorum.receipts (quorum st) ++ [r]) as Hrec.
    { rewrite (tr_receipts _ _ _ Ht), (tr_receipts _ _ _ Hc), map_app. done. }
    split_and!; [by eexists| | |rewrite Ha; by left].
    - rewrite Hrec. apply Forall_app. split; [done|]. by apply Forall_singleton.
    - rewrite Ha, Hrec, length_app. intros [Ht1|[Hk _]].
      + apply Hcount in Ht1. lia.
      + rewrite (tr_config _ _ _ Ht), Hrec, length_app in Hk. done. }
  split; cbn; [done|done|done|done|done| |].
  - destruct Hcase as [[-> ->]|(-> & -> & ?)]; auto.
  - destruct Hcase as [[-> ->]|(-> & -> & ?)]; auto.
Qed.

Lemma new_state_inv cfg id : delta_inv cfg id (new_state id cfg ∅).
Proof.
  split; cbn; [done|by intros ? ?; rewrite lookup_empty| |constructor|done|done|done].
  exists []. split; [done|done|by intros x; cbn; set_solver|done|apply NoDup_nil_2].
Qed.

Lemma init_inv cfg a : sub_inv (with_anchor cfg a).
Proof.
  split; cbn; [by intros ? ?; rewrite lookup_empty|constructor|by intros ? ?%elem_of_nil].
Qed.

Lemma ids_update_first f q x :
  (forall e, q_delta_id (f e) = q_delta_id e) -> ids (update_first f x q) = ids q.
Proof. apply update_first_ids. Qed.

Lemma update_first_flag f q x :
  (forall e, q_tier2_durable (f e) = q_tier2_durable e) ->
  Forall (fun e => q_tier2_durable e = false) q ->
  Forall (fun e => q_tier2_durable e = false) (update_first f x q).
Proof.
  intros Hf. induction 1 as [|e q He Hq IH]; cbn [update_first]; [constructor|].
  case_decide; constructor; [by rewrite Hf|done|done|done].
Qed.

Lemma holder_id h e :
  q_delta_id (if decide (h ∈ q_receipt_holders e) then e
    else mkEntry (q_delta_id e) (q_delta_bytes e) (q_causal_parents e) (q_compacted e)
      (q_receipt_holders e ++ [h]) (q_tier2_durable e)) = q_delta_id e.
Proof. by case_decide. Qed.
Lemma holder_flag h e :
  q_tier2_durable (if decide (h ∈ q_receipt_holders e) then e
    else mkEntry (q_delta_id e) (q_delta_bytes e) (q_causal_parents e) (q_compacted e)
      (q_receipt_holders e ++ [h]) (q_tier2_durable e)) = q_tier2_durable e.
Proof. by case_decide. Qed.

Lemma write_inv_queue s id q :
  sub_inv s -> Forall (fun e => q_tier2_durable e = false) q ->
  (forall x, x ∈ ids q -> x = id \/ x ∈ ids (cloud_queue s)) ->
  sub_inv (set_queue (set_states s (<[id := new_state id (quorum_config s) ∅]> (states s))) q).
Proof.
  intros [Hd Hq Hk] Hflag Hids. split; [|done|].
  - intros id' st. cbn [states set_queue set_states quorum_config]. rewrite lookup_insert_Some.
    intros [[<- <-]|[? ?]]; [apply new_state_inv|by apply Hd].
  - intros id' Hid. cbn [states set_queue set_states]. rewrite lookup_insert_is_Some.
    destruct (decide (id = id')) as [|Hne]; [by left|]. right. split; [done|].
    apply Hk. destruct (Hids _ Hid) as [->|?]; done.
Qed.

Lemma write_inv s id bs parents : sub_inv s -> sub_inv (register_delta s id id bs parents ∅).1.
Proof.
  intros Hinv. unfold register_delta, enqueue. pose proof (si_queue _ Hinv) as Hq.
  destruct (_ >=? _); cbn [fst]; apply write_inv_queue; try done.
  - by right.
  - apply Forall_app. split; [done|]. by apply Forall_singleton.
  - intros x. unfold ids. rewrite map_app, elem_of_app. cbn [map].
    rewrite list_elem_of_singleton. cbn. tauto.
Qed.

Lemma register_key_inv s id did pk :
  sub_inv s -> Did.resolve_did did = Ok pk -> sub_inv (register_peer_key s id did pk).
Proof.
  intros [Hd Hq Hk] Hpk. split; cbn; [|done|].
  - intros id' st. rewrite lookup_alter_Some. intros [(<- & st' & Hst & ->)|[? ?]]; [|by apply Hd].
    destruct (Hd _ _ Hst) as [? Hkeys ? ? ? ? ?]. split; cbn; try done.
    intros did' pk'. rewrite lookup_insert_Some. intros [[<- <-]|[? ?]]; [done|by apply Hkeys].
  - intros id' Hid. rewrite lookup_alter_is_Some. by apply Hk.
Qed.

Lemma receive_inv s r id now : sub_inv s -> sub_inv (receive_receipt s r id now).1.1.
Proof.
  intros [Hd Hq Hk]. destruct (receive_receipt_cases s r id now) as [Hcfg Hcase].
  destruct Hcase as [[Hst Hqu]|(st & pk & tag & Hst & Hpk & Hv & _ & Hqu & tier' & comp' & Hs & Ht)].
  { split; [rewrite Hst, Hcfg; done|by rewrite Hqu|by rewrite Hst, Hqu]. }
  pose proof (Hd _ _ Hst) as Hinv. split.
  - rewrite Hs, Hcfg. intros id' st'. rewrite lookup_insert_Some.
    intros [[<- <-]|[? ?]]; [|by apply Hd]. apply delta_inv_quorum; [done| |naive_solver].
    apply verify_receipt_ok in Hv as [Hh Hv]. rewrite (di_hash _ _ _ Hinv) in *.
    split; [done|]. exists pk. split; [|done]. by apply (di_keys _ _ _ Hinv).
  - rewrite Hqu. apply update_first_flag; [apply holder_flag|done].
  - rewrite Hqu, Hs. unfold add_receipt_holder. rewrite ids_update_first by apply holder_id.
    intros id' Hid. rewrite lookup_insert_is_Some. destruct (decide (id = id')); auto.
Qed.
Lemma ids_acknowledge q x y : y ∈ ids (acknowledge q x) <-> y ∈ ids q /\ y <> x.
Proof.
  unfold ids, acknowledge. rewrite !list_elem_of_fmap. split.
  - intros (e & -> & [? ?]%list_elem_of_filter). eauto.
  - intros [(e & -> & ?) ?]. exists e. split; [done|]. by apply list_elem_of_filter.
Qed.

Lemma cloud_ack_inv s id : sub_inv s -> sub_inv (on_cloud_ack s id).1.1.
Proof.
  intros [Hd Hq Hk]. split; cbn.
  - intros id' st. rewrite lookup_alter_Some. intros [(<- & st' & Hst & ->)|[? ?]]; [|by apply Hd].
    destruct (Hd _ _ Hst). by split.
  - eapply Forall_of_sublist; [apply sublist_filter|done].
  - intros id' [Hid _]%ids_acknowledge. rewrite lookup_alter_is_Some. by apply Hk.
Qed.

Lemma ack_all_cons s id l :
  (ack_all s (id :: l)).1 = (ack_all (on_cloud_ack s id).1.1 l).1.
Proof.
  unfold ack_all. cbn [foldl fst snd].
  assert (forall (f : DurabilitySubsystem -> DeltaId -> DurabilitySubsystem * list TierChanged * Res unit)
    st ev1 ev2, (foldl (fun st delta_id => let '(s', ev, _) := f st.1 delta_id in (s', st.2 ++ ev))
      (st, ev1) l).1 =
    (foldl (fun st delta_id => let '(s', ev, _) := f st.1 delta_id in (s', st.2 ++ ev))
      (st, ev2) l).1) as Hev.
  { intros f. clear. induction l as [|x l IH]; intros st ev1 ev2; cbn [foldl fst snd]; [done|].
    destruct (f st x) as [[s' ev] r]. apply IH. }
  apply Hev.
Qed.

Lemma ack_all_inv l s : sub_inv s -> sub_inv (ack_all s l).1.
Proof.
  revert s. induction l as [|id l IH]; intros s Hs; [done|].
  rewrite ack_all_cons. by apply IH, cloud_ack_inv.
Qed.

Lemma set_queue_inv s q :
  sub_inv s -> q `sublist_of` cloud_queue s -> sub_inv (set_queue s q).
Proof.
  intros [Hd Hq Hk] Hsub. split; cbn; [done| |].
  - by eapply Forall_of_sublist.
  - intros id Hid. apply Hk. eapply elem_of_sublist; [exact Hid|]. by apply (fmap_sublist q_delta_id).
Qed.

Lemma step_inv s s' : sub_inv s -> step s s' -> sub_inv s'.
Proof.
  intros Hs [id bs parents|r now|C conn refetch c|now threshold|id].
  - by apply write_inv.
  - unfold inbound_receipt. destruct (Did.resolve_did _) eqn:Hr; [|done].
    by apply receive_inv, register_key_inv.
  - unfold run_cloud_sync_cycle. case_match; [done|].
    pose proof (sync_retains refetch (topological_sort_queue (cloud_queue s)) (cloud_queue s) c
      (mkSync 0 0 0 [])) as Hret.
    unfold cloud_sync_loop. destruct (foldl _ _ _) as [[q c'] res]. destruct Hret as [Hsub _].
    pose proof (ack_all_inv (acknowledged_ids res) (set_queue s q)) as Hack.
    destruct (ack_all _ _) as [s2 ev]. apply Hack. by apply set_queue_inv.
  - destruct Hs as [Hd Hq Hk]. by split.
  - destruct Hs as [Hd Hq Hk]. split; cbn; [done| |].
    + by apply update_first_flag.
    + unfold mark_compacted. by rewrite ids_update_first.
Qed.

Lemma reachable_inv cfg a s : reachable cfg a s -> sub_inv s.
Proof.
  intros Hr. assert (forall s0 s', rtc step s0 s' -> sub_inv s0 -> sub_inv s') as H'.
  { induction 1; eauto using step_inv. }
  eapply H'; [done|apply init_inv].
Qed.

Lemma step_config s s' : step s s' -> quorum_config s' = quorum_config s.
Proof.
  intros [id bs parents|r now|C conn refetch c|now threshold|id]; try done.
  - unfold register_delta, enqueue. by case_match.
  - unfold inbound_receipt. destruct (Did.resolve_did _); [|done].
    by destruct (receive_receipt_cases (register_peer_key s (state_hash r) (issuer_did r) a) r
      (state_hash r) now) as [-> _].
  - unfold run_cloud_sync_cycle. case_match; [done|].
    destruct (cloud_sync_loop _ _ _) as [[q c'] res].
    assert (forall l s, quorum_config (ack_all s l).1 = quorum_config s) as Hack.
    { clear. induction l as [|x l IH]; intros s; [done|]. by rewrite ack_all_cons, IH. }
    pose proof (Hack (acknowledged_ids res) (set_queue s q)) as Hc.
    by destruct (ack_all _ _) as [s2 ev].
Qed.

(** C32: tier-1 is backed.  In every state a device can reach, a Delta in Tier-1,
    or one whose compaction is permitted, has at least [k] receipts from
    different issuers, each for this very Delta and signed under the key its
    issuer's DID spells. *)
Theorem tier1_backed cfg a s id st :
  reachable cfg a s -> states s !! id = Some st ->
  tier st = Tier1 \/ compaction_permitted st = true ->
  let rs := Quorum.receipts (quorum st) in
  (Quorum.k cfg <= length rs)%nat /\ NoDup (map issuer_did rs) /\
  Forall (fun r => state_hash r = id /\ exists pk, Did.resolve_did (issuer_did r) = Ok pk /\
    Keypair.verify pk (receipt_signing_payload id (receipt_id r)) (issuer_signature r) = Ok tt) rs.
Proof.
  intros Hr Hst Htier rs.
  assert (quorum_config s = cfg) as Hcfg.
  { assert (forall s0 s', rtc step s0 s' -> quorum_config s' = quorum_config s0) as H'.
    { induction 1 as [|x y z Hxy _ IH]; [done|]. by rewrite IH, (step_config _ _ Hxy). }
    by rewrite (H' _ _ Hr). }
  destruct (si_delta _ (reachable_inv _ _ _ Hr) _ _ Hst) as [_ _ [c Hc] Hver Hcount Ht Hcomp].
  rewrite Hcfg in *. unfold rs.
  split_and!; [|rewrite (tr_receipts _ _ _ Hc); apply (tr_nodup _ _ _ Hc)|done].
  destruct Htier; auto.
Qed.
(** ** Tiers and the queue across a step *)

Lemma ack_all_tier l s id :
  durability_tier (ack_all s l).1 id =
  if bool_decide (id ∈ l) && bool_decide (is_Some (states s !! id)) then Tier2
  else durability_tier s id.
Proof.
  revert s. induction l as [|x l IH]; intros s; [done|].
  rewrite ack_all_cons, IH. unfold durability_tier, on_cloud_ack.
  cbn [fst states set_queue set_states].
  destruct (decide (x = id)) as [->|Hne].
  - rewrite lookup_alter_eq, (bool_decide_eq_true_2 (id ∈ id :: l)) by left.
    destruct (states s !! id) as [st|]; cbn; [by destruct (bool_decide _)|].
    by rewrite andb_false_r.
  - rewrite lookup_alter_ne by done.
    by rewrite (bool_decide_ext (id ∈ x :: l) (id ∈ l)) by (rewrite elem_of_cons; naive_solver).
Qed.

Lemma ack_all_queue l s id :
  id ∈ ids (cloud_queue (ack_all s l).1) <-> id ∈ ids (cloud_queue s) /\ id ∉ l.
Proof.
  revert s. induction l as [|x l IH]; intros s.
  { unfold ack_all. cbn. set_solver. }
  rewrite ack_all_cons, IH. cbn [on_cloud_ack fst cloud_queue set_queue].
  rewrite ids_acknowledge, not_elem_of_cons. tauto.
Qed.

Lemma receive_receipt_tier s r id now x :
  let s' := (receive_receipt s r id now).1.1 in
  durability_tier s' x = durability_tier s x \/
  durability_tier s x = Uncommitted /\ durability_tier s' x = Tier1.
Proof.
  cbv zeta. destruct (receive_receipt_cases s r id now) as [_ Hcase]. unfold durability_tier.
  destruct Hcase as [[-> _]|(st & pk & tag & Hst & _ & _ & _ & _ & tier' & comp' & -> & Ht)];
    [by left|].
  destruct (decide (id = x)) as [->|Hne].
  - rewrite lookup_insert_eq, Hst. cbn. destruct Ht as [[-> _]|(-> & -> & _)]; auto.
  - rewrite lookup_insert_ne by done. by left.
Qed.

Lemma receive_receipt_queue s r id now x :
  x ∈ ids (cloud_queue s) -> x ∈ ids (cloud_queue (receive_receipt s r id now).1.1).
Proof.
  intros Hx. destruct (receive_receipt_cases s r id now) as [_ Hcase].
  destruct Hcase as [[_ ->]|(st & pk & tag & _ & _ & _ & _ & -> & _)]; [done|].
  unfold add_receipt_holder. by rewrite ids_update_first by apply holder_id.
Qed.

(** A queued Delta leaves the cloud queue only for Tier-2: whatever a device
    does, the Delta is still queued afterwards or the ledger has acknowledged
    it. *)
Theorem queue_retention cfg a s s' id :
  reachable cfg a s -> step s s' -> id ∈ ids (cloud_queue s) ->
  id ∈ ids (cloud_queue s') \/ durability_tier s' id = Tier2.
Proof.
  intros Hr Hstep Hid. pose proof (reachable_inv _ _ _ Hr) as [_ Hflag Hknown].
  destruct Hstep as [x bs parents|r now|C conn refetch c|now threshold|x].
  - left. unfold register_delta, enqueue. destruct (_ >=? _); cbn; [done|].
    unfold ids. rewrite map_app. set_solver.
  - left. unfold inbound_receipt. destruct (Did.resolve_did _); [|done].
    by apply receive_receipt_queue.
  - unfold run_cloud_sync_cycle. case_match; [by left|].
    pose proof (sync_retains refetch (topological_sort_queue (cloud_queue s)) (cloud_queue s) c
      (mkSync 0 0 0 [])) as Hret.
    unfold cloud_sync_loop. destruct (foldl _ _ _) as [[q c'] res].
    destruct Hret as (_ & _ & Hkeep).
    pose proof (ack_all_tier (acknowledged_ids res) (set_queue s q) id) as Htier.
    pose proof (ack_all_queue (acknowledged_ids res) (set_queue s q) id) as Hqueue.
    destruct (ack_all _ _) as [s2 ev]. cbn [fst] in *.
    destruct (decide (id ∈ acknowledged_ids res)) as [Hack|Hack].
    + right. rewrite Htier, !bool_decide_eq_true_2; [done|by apply Hknown|done].
    + left. apply Hqueue. split; [|done].
      apply list_elem_of_fmap in Hid as (e & -> & He). apply Hkeep in He as [He|[?|(e' & He' & Ht)]].
      * by apply (list_elem_of_fmap_2 q_delta_id).
      * done.
      * rewrite Forall_forall in Hflag. rewrite (Hflag _ He') in Ht. done.
  - by left.
  - left. cbn. unfold mark_compacted. by rewrite ids_update_first.
Qed.

Definition rank (t : DurabilityTier) : nat :=
  match t with Uncommitted => 0 | Tier1 => 1 | Tier2 => 2 end.

(** Durability is not lost: no step lowers the tier of a Delta, except that
    registering the same Delta again starts it anew. *)
Theorem tier_monotone s s' id :
  step s s' -> (forall bs parents, s' <> (register_delta s id id bs parents ∅).1) ->
  (rank (durability_tier s id) <= rank (durability_tier s' id))%nat.
Proof.
  intros Hstep Hne. destruct Hstep as [x bs parents|r now|C conn refetch c|now threshold|x].
  - destruct (decide (x = id)) as [->|Hx]; [by destruct (Hne bs parents)|].
    unfold register_delta, enqueue, durability_tier.
    destruct (_ >=? _); cbn; by rewrite lookup_insert_ne.
  - unfold inbound_receipt. destruct (Did.resolve_did _) as [pk|]; [|done].
    assert (durability_tier s id =
      durability_tier (register_peer_key s (state_hash r) (issuer_did r) pk) id) as ->.
    { unfold durability_tier, register_peer_key. cbn. destruct (decide (state_hash r = id)) as [->|].
      - rewrite lookup_alter_eq. by destruct (states s !! id).
      - by rewrite lookup_alter_ne. }
    destruct (receive_receipt_tier (register_peer_key s (state_hash r) (issuer_did r) pk) r
      (state_hash r) now id) as [->|[-> ->]]; cbn; lia.
  - unfold run_cloud_sync_cycle. case_match; [done|].
    destruct (cloud_sync_loop _ _ _) as [[q c'] res].
    pose proof (ack_all_tier (acknowledged_ids res) (set_queue s q) id) as Ht.
    destruct (ack_all _ _) as [s2 ev]. cbn [fst] in *. rewrite Ht.
    destruct (_ && _); [|done]. destruct (durability_tier s id); cbn; lia.
  - done.
  - done.
Qed.
(** Only the ledger makes a Delta Tier-2.  After a sync cycle the Deltas
    whose tier changed are in Tier-2 and were accepted by the ledger with the
    bytes of their entry (or the re-fetched ones), every tracked Delta that was
    accepted is in Tier-2, and each acknowledgement emits one transition. *)
Theorem cloud_cycle_tiers {C} `{!CloudConnection C} refetch s (c : C) :
  Z.of_nat (length (queue_edges (cloud_queue s))) < 2 ^ 64 ->
  let '(s', (_, log), ev, r) := @run_cloud_sync_cycle _ _ (logged _) refetch s (c, []) in
  (forall id bs, (id, bs, true) ∈ log -> is_Some (states s !! id) ->
    durability_tier s' id = Tier2) /\
  (forall id, durability_tier s' id <> durability_tier s id -> durability_tier s' id = Tier2 /\
    exists bs, (id, bs, true) ∈ log /\ payload_of refetch (cloud_queue s) id = Some bs) /\
  map (fun e => (e.1.1, e.2)) ev = map (fun id => (id, Tier2)) (acknowledged_ids r).
Proof.
  intros HE. unfold run_cloud_sync_cycle. destruct (_ =? 0)%nat.
  { split; [by intros ? ? ?%elem_of_nil|]. split; [|done]. intros ? H1. by destruct H1. }
  pose proof (cloud_sync_spec refetch (cloud_queue s) c HE) as Hacc.
  destruct (cloud_sync_loop _ _ _) as [[q [c' log]] r].
  destruct Hacc as (_ & _ & Hack & _ & Hbytes).
  pose proof (fun id => ack_all_tier (acknowledged_ids r) (set_queue s q) id) as Ht.
  assert (forall l s0 ev0, map (fun e => (e.1.1, e.2))
    (foldl (fun st delta_id => let '(s', ev, _) := on_cloud_ack st.1 delta_id in (s', st.2 ++ ev))
      (s0, ev0) l).2 = map (fun e => (e.1.1, e.2)) ev0 ++ map (fun id => (id, Tier2)) l) as Hev.
  { clear. induction l as [|x l IH]; intros s0 ev0; cbn [foldl fst snd]; [by rewrite app_nil_r|].
    cbn [on_cloud_ack]. rewrite IH, map_app, <- app_assoc. done. }
  specialize (Hev (acknowledged_ids r) (set_queue s q) []). fold (ack_all (set_queue s q)) in Hev.
  unfold ack_all in *. destruct (foldl _ _ _) as [s2 ev]. cbn [fst snd] in *.
  assert (forall id, id ∈ acknowledged_ids r <-> exists bs, (id, bs, true) ∈ log) as Hin.
  { intros id. rewrite Hack, list_elem_of_fmap. split.
    - intros ([[x bs] b] & -> & [Hb ?]%list_elem_of_filter). cbn in Hb. subst b. by exists bs.
    - intros [bs Hbs]. exists (id, bs, true). split; [done|]. by apply list_elem_of_filter. }
  split_and!; [| |done].
  - intros id bs Hlog Hst. rewrite Ht, !bool_decide_eq_true_2; [done|done|]. apply Hin. eauto.
  - intros id. rewrite Ht. destruct (bool_decide (id ∈ _)) eqn:Hid; [|done].
    destruct (bool_decide (is_Some _)); [|done]. intros _. split; [done|].
    apply bool_decide_eq_true, Hin in Hid as [bs Hbs]. eauto.
Qed.

(** While the anchor attests locations, a receipt changes a Delta's state
    only with a token a registered beacon signed for an epoch that is not past,
    and it then counts under the location of the token, not under the tag it
    declares itself. *)
Theorem attested_receipts_only s a r id now st st' :
  anchor s = Some a -> Anchor.mode a = Anchor.BeaconAttested ->
  let s' := (receive_receipt s r id now).1.1 in
  states s !! id = Some st -> states s' !! id = Some st' -> st' <> st ->
  exists token pk, beacon_token r = Some token /\
    Anchor.find_beacon_key a (beacon_did token) = Some pk /\
    Anchor.current_epoch a <= epoch token /\
    Keypair.verify pk (Anchor.beacon_token_signing_payload (epoch token) (location_claim token))
      (beacon_signature token) = Ok tt /\
    (Quorum.spatial (quorum st') = Quorum.spatial (quorum st) \/
     Quorum.spatial (quorum st') = add (Quorum.spatial (quorum st)) (Some (location_claim token))).
Proof.
  intros Ha Hm s' Hst Hst' Hne. destruct (receive_receipt_cases s r id now) as [_ Hcase].
  destruct Hcase as [[Hs _]|(st0 & pk0 & tag & Hst0 & _ & _ & Htag & _ & tier' & comp' & Hs & _)].
  { unfold s' in Hst'. rewrite Hs in Hst'. congruence. }
  unfold s' in Hst'. rewrite Hs, lookup_insert_eq in Hst'. simplify_eq.
  unfold diversity_tag in Htag. rewrite Ha, Hm in Htag.
  destruct (beacon_token r) as [token|]; [|done]. unfold Anchor.verify_beacon_token in Htag.
  destruct (Anchor.find_beacon_key a _) as [pk|] eqn:Hf; [|done].
  destruct (Z.ltb_spec (epoch token) (Anchor.current_epoch a)); [done|].
  destruct (Keypair.verify _ _ _) as [[]|] eqn:Hv; [|done]. cbn in Htag. simplify_eq.
  exists token, pk. split_and!; try done. cbn [quorum].
  unfold Quorum.add_receipt_with_tag. case_decide; [by left|]. cbv zeta. right.
  destruct (_ && _); [|done]. by destruct (satisfies_diversity _ _ _ _) as [[]|].
Qed.

(** A full queue refuses the Delta after its state was created: it can reach
    Tier-1, and have its compaction permitted, without being queued for the
    ledger. *)
Lemma overflow_unqueued s id bs parents :
  MAX_QUEUE_DEPTH <= Z.of_nat (depth (cloud_queue s)) -> id ∉ ids (cloud_queue s) ->
  let '(s', res) := register_delta s id id bs parents ∅ in
  is_ok res = false /\ states s' !! id = Some (new_state id (quorum_config s) ∅) /\
  id ∉ ids (cloud_queue s').
Proof.
  intros Hd Hid. unfold register_delta, enqueue. cbn [cloud_queue set_states].
  destruct (Z.geb_spec (Z.of_nat (depth (cloud_queue s))) MAX_QUEUE_DEPTH); [|lia].
  cbn. by rewrite lookup_insert_eq.
Qed.

(** The token does not name its holder: with the token of one issuer every
    other issuer counts under the same location. *)
Lemma beacon_token_transferable a r1 r2 now :
  beacon_token r1 = beacon_token r2 -> diversity_tag a r1 now = diversity_tag a r2 now.
Proof. intros Ht. unfold diversity_tag. by rewrite Ht. Qed.
End DurabilityProofs.
End DurabilityProofs.

(** * Concrete runs *)

Section Witnesses.
Import Receipt CloudQueue Durability QuorumProofs DurabilityProofs.
#[local] Existing Instance toy_bs58.
#[local] Existing Instance toy_ed25519.
#[local] Existing Instance hash_iter_canonical.

(** A ledger that accepts everything. *)
#[local] Instance accepting : CloudConnection unit := {| send_delta c _ _ := (c, Ok tt) |}.

Definition peer (seed : N) : Did := Did.derive_did (ed_public [seed]).
Definition receipt_of (seed : N) (h : N) (tag : option string) (token : option BeaconToken)
  : DurabilityReceipt :=
  mkReceipt seed h (peer seed) (ed_sign [seed] (receipt_signing_payload h seed)) tag token 0.

Definition two_of_five : Quorum.QuorumConfig := Quorum.mkConfig 2 5 0 Quorum.f64_0_7.

Definition written : DurabilitySubsystem :=
  (register_delta (with_anchor two_of_five None) 77 77 [1%N] [] ∅).1.
Definition once : DurabilitySubsystem :=
  (inbound_receipt written (receipt_of 1 77 (Some "alpha"%string) None) 0).1.
Definition twice : DurabilitySubsystem :=
  (inbound_receipt once (receipt_of 2 77 (Some "beta"%string) None) 0).1.

Example tiers : map (fun s => durability_tier s 77) [written; once; twice] =
  [Uncommitted; Uncommitted; Tier1].
Proof. vm_compute. reflexivity. Qed.

Lemma once_reachable : reachable two_of_five None once.
Proof.
  eapply rtc_l; [apply (step_write _ 77 [1%N] [])|].
  eapply rtc_once, (step_receipt _ (receipt_of 1 77 (Some "alpha"%string) None) 0).
Qed.
Lemma twice_reachable : reachable two_of_five None twice.
Proof.
  eapply rtc_r; [apply once_reachable|].
  apply (step_receipt _ (receipt_of 2 77 (Some "beta"%string) None) 0).
Qed.

Lemma tier1_backed_witness :
  reachable two_of_five None twice /\ durability_tier twice 77 = Tier1 /\
  match states twice !! 77%N with
  | Some st => (2 <= length (Quorum.receipts (quorum st)))%nat
  | None => False
  end.
Proof.
  split; [exact twice_reachable|]. split; [vm_compute; reflexivity|].
  destruct (states twice !! 77%N) as [st|] eqn:Hst.
  - apply (tier1_backed two_of_five None twice 77%N st twice_reachable Hst).
    left. assert (tier <$> states twice !! 77%N = Some Tier1) as Ht by (vm_compute; reflexivity).
    rewrite Hst in Ht. by injection Ht.
  - assert (is_Some (states twice !! 77%N)) as [? Hx] by (vm_compute; eexists; reflexivity).
    rewrite Hst in Hx. discriminate.
Defined.

Lemma queue_retention_witness :
  reachable two_of_five None once /\ step once twice /\ 77%N ∈ ids (cloud_queue once) /\
  (77%N ∈ ids (cloud_queue twice) \/ durability_tier twice 77 = Tier2).
Proof.
  assert (step once twice) as Hs
    by apply (step_receipt _ (receipt_of 2 77 (Some "beta"%string) None) 0).
  assert (77%N ∈ ids (cloud_queue once)) as Hq by by_decide.
  split; [exact once_reachable|]. split; [exact Hs|]. split; [exact Hq|].
  exact (queue_retention two_of_five None once twice 77%N once_reachable Hs Hq).
Defined.

Lemma tier_monotone_witness :
  step once twice /\ (forall bs parents, twice <> (register_delta once 77 77 bs parents ∅).1) /\
  (rank (durability_tier once 77) <= rank (durability_tier twice 77))%nat.
Proof.
  assert (step once twice) as Hs
    by apply (step_receipt _ (receipt_of 2 77 (Some "beta"%string) None) 0).
  assert (forall bs parents, twice <> (register_delta once 77 77 bs parents ∅).1) as Hne.
  { intros bs parents Heq. apply (f_equal (fun s => durability_tier s 77)) in Heq.
    assert (durability_tier twice 77 = Tier1) as Ht by (vm_compute; reflexivity).
    rewrite Ht in Heq. revert Heq. unfold register_delta, enqueue, durability_tier.
    destruct (_ >=? _); cbn; rewrite lookup_insert_eq; discriminate. }
  split; [exact Hs|]. split; [exact Hne|]. exact (tier_monotone once twice 77 Hs Hne).
Defined.

Definition logged_cycle :=
  @run_cloud_sync_cycle _ _ (logged accepting) (fun _ _ => None) twice (tt, []).

Lemma cloud_cycle_tiers_witness :
  Z.of_nat (length (queue_edges (cloud_queue twice))) < 2 ^ 64 /\
  is_Some (states twice !! 77%N) /\ durability_tier logged_cycle.1.1.1 77 = Tier2.
Proof.
  assert (Z.of_nat (length (queue_edges (cloud_queue twice))) < 2 ^ 64) as H by by_compute.
  assert (is_Some (states twice !! 77%N)) as Hst by (vm_compute; eexists; reflexivity).
  split; [exact H|]. split; [exact Hst|].
  pose proof (cloud_cycle_tiers (fun _ _ => None) twice tt H) as Hc. fold logged_cycle in Hc.
  assert (logged_cycle.1.1.2.2 = [(77%N, [1%N], true)]) as Hlog by (vm_compute; reflexivity).
  destruct logged_cycle as [[[s' [c' log]] ev] r]. cbn [fst snd] in *.
  apply (proj1 Hc 77%N [1%N]); [rewrite Hlog; left|exact Hst].
Defined.

(** A beacon, its anchor, and receipts that carry its token. *)
Definition beacon_key : bytes := ed_public [9%N].
Definition the_anchor : Anchor.AnchorAttestedLocation :=
  Anchor.from_beacon_public_keys [beacon_key] 5.
Definition token_at (place : string) (e : Z) : BeaconToken :=
  mkToken (peer 9) (ed_sign [9%N] (Anchor.beacon_token_signing_payload e place)) e place 0.
Definition attested : DurabilitySubsystem :=
  register_peer_key (register_delta (with_anchor two_of_five (Some the_anchor)) 77 77 [1%N] [] ∅).1
    77 (peer 1) (ed_public [1%N]).
Definition with_token : DurabilityReceipt :=
  receipt_of 1 77 (Some "lie"%string) (Some (token_at "north"%string 5)).

Lemma attested_receipts_only_witness :
  anchor attested = Some the_anchor /\ Anchor.mode the_anchor = Anchor.BeaconAttested /\
  match states attested !! 77%N, states (receive_receipt attested with_token 77 0).1.1 !! 77%N with
  | Some st, Some st' => st' <> st /\ exists token, beacon_token with_token = Some token /\
      Anchor.current_epoch the_anchor <= epoch token
  | _, _ => False
  end.
Proof.
  split; [reflexivity|]. split; [reflexivity|].
  destruct (states attested !! 77%N) as [st|] eqn:Hst;
    [destruct (states (receive_receipt attested with_token 77 0).1.1 !! 77%N) as [st'|] eqn:Hst'|].
  - assert (st' <> st) as Hne.
    { intros ->. assert (forall o1 o2 : option DeltaDurabilityState, o1 = o2 ->
        (length ∘ Quorum.receipts ∘ quorum) <$> o1 = (length ∘ Quorum.receipts ∘ quorum) <$> o2) as Hf
        by (by intros ? ? ->).
      pose proof (Hf _ _ (eq_trans Hst (eq_sym Hst'))) as Hl. vm_compute in Hl. discriminate. }
    split; [exact Hne|].
    destruct (attested_receipts_only attested the_anchor with_token 77%N 0 st st'
      eq_refl eq_refl Hst Hst' Hne) as (token & pk & Ht & _ & He & _).
    exists token. split; [exact Ht|exact He].
  - vm_compute in Hst'. discriminate.
  - vm_compute in Hst. discriminate.
Defined.

(** Three receipts of one sector under a minimum of two tags: the fallback
    accepts them, while four receipts of two sectors are held back by the cap. *)
Example degraded_accepts :
  let cfg := Quorum.mkConfig 3 5 2 Quorum.f64_0_7 in
  let add_all := run cfg ∘ map (fun x => (receipt_of x.1 77 (Some x.2) None, None)) in
  (Quorum.is_tier1 (add_all [(1%N, "a"); (2%N, "a"); (3%N, "a")]%string),
   Quorum.is_tier1 (run (Quorum.mkConfig 4 5 2 Quorum.f64_0_7) (map (fun x => (receipt_of x.1 77 (Some x.2) None, None))
     [(1%N, "a"); (2%N, "a"); (3%N, "a"); (4%N, "b")]%string))) = (true, false).
Proof. vm_compute. reflexivity. Qed.

(** A second receipt of a known issuer after Tier-1 answers [Ok(true)] again. *)
Example duplicate_answers_true :
  let t := run (Quorum.mkConfig 1 5 0 Quorum.f64_0_7) [(receipt_of 1 77 None None, None)] in
  (Quorum.add_receipt t (receipt_of 1 77 None None)).2 = Ok true.
Proof. vm_compute. reflexivity. Qed.
(** One holder of several keys is a quorum: nothing ties an issuer to the
    deployment's pool of candidates. *)
Example any_keys_form_a_quorum : durability_tier twice 77 = Tier1.
Proof. vm_compute. reflexivity. Qed.
(** ** The beacon monitor *)

Import Anchor AnchorProofs.

Lemma check_signal_loss_spec_witness :
  let a := mkAnchor [mkBeacon "did:key:b"%string [1%N]] 0 BeaconAttested [] {[ [1%N] := 100 ]} in
  mode a = BeaconAttested /\ 0 <= 500 < 2 ^ 63 /\ 0 <= 300 < 2 ^ 63 - 1 /\
  (forall pk' t, beacon_last_seen a !! pk' = Some t -> 0 <= t < 2 ^ 63) /\
  [1%N] ∈ check_signal_loss a 500 300.
Proof.
  intros a. assert (forall pk' t, beacon_last_seen a !! pk' = Some t -> 0 <= t < 2 ^ 63) as Hs.
  { intros pk' t Ht. cbn [a beacon_last_seen] in Ht. apply lookup_singleton_Some in Ht as [_ <-]. lia. }
  split; [reflexivity|]. split; [lia|]. split; [lia|]. split; [exact Hs|].
  apply (check_signal_loss_spec a 500 300 [1%N]); [reflexivity|lia|lia|exact Hs|].
  split; [|vm_compute; reflexivity]. exists (mkBeacon "did:key:b"%string [1%N]).
  split; [left|reflexivity].
Defined.

Lemma unseen_beacon_disables_witness :
  let a := Anchor.new [mkBeacon "did:key:b"%string [1%N]] 0 in
  mode a = BeaconAttested /\ mode (monitor_tick a 1700000000 300) = SquadTagFallback.
Proof.
  intros a. split; [reflexivity|].
  apply (unseen_beacon_disables a (mkBeacon "did:key:b"%string [1%N]) 1700000000 300);
    [reflexivity|left|reflexivity|lia|lia].
Defined.
End Witnesses.
