(* ===== verification/CloudLedger.v ===== *)
(** * The cloud ledger: [durability/cloud_ledger.rs]

    The append-only merge ledger a process hosts: an engine of its own over an in-memory
    database, the set of ids it has committed, and the adapter that makes it the
    [CloudConnection] of the sync loop ([CloudQueue.v]).  A cycle reads the clock once; the
    reading only dates the rejection records of the engine. *)

From S2P Require Import Prelude Types Dag Identity Schema Automerge Verify Crdt CloudQueue Durability.

Module CloudLedger.

Section CloudLedger.
Context `{!Automerge} `{!Bs58} `{!Ed25519} `{!SelectOrder} `{!HashIter N Z}.
Context (zstd_encode : bytes -> Res bytes) (to_json : CanonicalDeltaPayload -> bytes).
Context (delta_to_json : Delta -> option bytes) (delta_of_json : bytes -> option Delta).
Context (error_to_string : TirBaseError -> string) (hex_encode : bytes -> string).

Record RejectionRecord := mkRejection {
  r_delta_id : string;
  r_reason : string
}.

Record CloudLedger := mkLedger {
  engine : Crdt.CrdtEngine;
  committed : gset N;
  rejection_log : list RejectionRecord
}.

Inductive ReceiveOutcome :=
| Committed
| AlreadyCommitted
| Rejected (reason : string).

Definition new_in_memory (secret_key : bytes) (author_did : Did) (schema_hash : SchemaIdentifierHash) : CloudLedger :=
  mkLedger (Crdt.new secret_key (ed_public secret_key) author_did schema_hash Dag.empty_tables ∅) ∅ [].

Definition set_engine (l : CloudLedger) (e : Crdt.CrdtEngine) : CloudLedger :=
  mkLedger e (committed l) (rejection_log l).

Definition receive_delta (l : CloudLedger) (delta : Delta) (now : Z) : CloudLedger * Res ReceiveOutcome :=
  if bool_decide (d_id delta ∈ committed l) then (l, Ok AlreadyCommitted)
  else
    let '(e, _, outcome) := Crdt.apply zstd_encode to_json delta_to_json error_to_string (engine l) delta now in
    match outcome with
    | Err err => (set_engine l e, Err err)
    | Ok (Crdt.Merged _) | Ok (Crdt.Quarantined _) =>
        (mkLedger e ({[d_id delta]} ∪ committed l) (rejection_log l), Ok Committed)
    | Ok (Crdt.Rejected reason) =>
        (mkLedger e (committed l) (rejection_log l ++ [mkRejection (hex_encode (be_bytes 32 (d_id delta))) reason]),
         Ok (Rejected reason))
    end.

Definition is_committed (l : CloudLedger) (delta_id : DeltaId) : bool := bool_decide (delta_id ∈ committed l).
Definition committed_count (l : CloudLedger) : nat := size (committed l).
Definition add_known_schema (l : CloudLedger) (hash : SchemaIdentifierHash) : CloudLedger :=
  set_engine l (Crdt.add_known_schema (engine l) hash).

(** [CloudLedgerConnection::send_delta] *)
Definition send (l : CloudLedger) (now : Z) (b : bytes) : CloudLedger * result string unit :=
  match delta_of_json b with
  | None => (l, Err "failed to deserialise Delta")
  | Some delta =>
      match receive_delta l delta now with
      | (l, Ok Committed) | (l, Ok AlreadyCommitted) => (l, Ok tt)
      | (l, Ok (Rejected reason)) => (l, Err reason)
      | (l, Err e) => (l, Err (error_to_string e))
      end
  end.

Definition CloudLedgerConnection (now : Z) : CloudQueue.CloudConnection CloudLedger :=
  {| CloudQueue.send_delta l _ b := send l now b |}.

(** ** What an acknowledgement is worth *)

Abbreviation apply := (Crdt.apply zstd_encode to_json delta_to_json error_to_string).
Abbreviation accepted := (Crdt.accepted to_json).

(** The engine can merge and store the Delta. *)
Definition storable (e : Crdt.CrdtEngine) (delta : Delta) : Prop :=
  (forall d, Crdt.load_incoming_doc (d_automerge_bytes delta) = Some d -> (am_merge (Crdt.doc e) d).2 = None) /\
  is_ok (zstd_encode (d_automerge_bytes delta)) = true.

Lemma storable_dec e delta : storable e delta \/ ~ storable e delta.
Proof.
  unfold storable. destruct (is_ok (zstd_encode (d_automerge_bytes delta))); [|by right; intros [_ ?]].
  destruct (Crdt.load_incoming_doc (d_automerge_bytes delta)) as [d|]; [|by left].
  destruct ((am_merge (Crdt.doc e) d).2) eqn:Hm; [right|left].
  - intros [Hx _]. specialize (Hx d eq_refl). congruence.
  - split; [|done]. by intros d0 [= <-].
Qed.

(** No row of the DAG is ever lost. *)
Lemma apply_keeps_rows e delta now id :
  is_Some (Dag.dag_nodes (Crdt.dag e) !! id) -> is_Some (Dag.dag_nodes (Crdt.dag (apply e delta now).1.1) !! id).
Proof.
  intros Hin. unfold Crdt.apply. destruct (Crdt.gate to_json error_to_string e delta) as [c r|r|pk adopt]; [done|done|].
  set (e0 := if adopt then _ else e). assert (Crdt.dag e0 = Crdt.dag e) as Hg by (unfold e0; by destruct adopt).
  clearbody e0. destruct (Crdt.merge_document e0 delta) as [e1 [[]|err]] eqn:Hm;
    rewrite (Crdt.merge_document_frame _ _ _ _ Hm); cbn [fst Crdt.dag Crdt.set_doc Crdt.set_lamport]; [|by rewrite Hg].
  match goal with |- context [Crdt.insert_dag_node _ _ ?x delta] => set (e2 := x) end.
  assert (is_Some (Dag.dag_nodes (Crdt.dag e2) !! id)) as Hin2 by (cbn; by rewrite Hg). clearbody e2.
  destruct (Crdt.insert_dag_node zstd_encode delta_to_json e2 delta) as [e3 r] eqn:Hi.
  assert (is_Some (Dag.dag_nodes (Crdt.dag e3) !! id)) as Hin3.
  { unfold Crdt.insert_dag_node in Hi. destruct (Dag.insert _ _ _) as [g r'] eqn:Hins. injection Hi as <- <-. cbn.
    unfold Dag.insert in Hins. destruct (Dag.compress_payload _ _); injection Hins as <- _; [|done]. cbn.
    destruct (Dag.dag_nodes (Crdt.dag e2) !! d_id delta) eqn:E; [done|].
    destruct (decide (d_id delta = id)) as [<-|Hne]; [by rewrite lookup_insert_eq|by rewrite lookup_insert_ne]. }
  by destruct r as [[]|err].
Qed.

Lemma receive_cases l delta now :
  (d_id delta ∈ committed l /\ receive_delta l delta now = (l, Ok AlreadyCommitted)) \/
  (d_id delta ∉ committed l /\
   let l' := (receive_delta l delta now).1 in
   ((accepted (engine l) delta /\ storable (engine l) delta /\ (receive_delta l delta now).2 = Ok Committed /\
       committed l' = {[d_id delta]} ∪ committed l /\ rejection_log l' = rejection_log l /\
       is_Some (Dag.dag_nodes (Crdt.dag (engine l')) !! d_id delta)) \/
    (accepted (engine l) delta /\ ~ storable (engine l) delta /\ is_ok (receive_delta l delta now).2 = false /\
       committed l' = committed l /\ rejection_log l' = rejection_log l /\
       Crdt.dag (engine l') = Crdt.dag (engine l)) \/
    (~ accepted (engine l) delta /\ (receive_delta l delta now).2 = Ok Committed /\
       committed l' = {[d_id delta]} ∪ committed l /\ rejection_log l' = rejection_log l /\
       engine l' = Crdt.set_records (engine l) (Crdt.rejection_records (engine l'))) \/
    (~ accepted (engine l) delta /\ (exists reason, (receive_delta l delta now).2 = Ok (Rejected reason) /\
       rejection_log l' = rejection_log l ++ [mkRejection (hex_encode (be_bytes 32 (d_id delta))) reason]) /\
       committed l' = committed l /\
       engine l' = Crdt.set_records (engine l) (Crdt.rejection_records (engine l'))))).
Proof.
  unfold receive_delta. case_bool_decide as Hin; [by left|]. right. split; [done|]. cbn zeta.
  pose proof (Crdt.apply_outcome_spec zstd_encode to_json delta_to_json error_to_string (engine l) delta now) as Hs.
  destruct (apply (engine l) delta now) as [[e emitted] r] eqn:Ha. destruct Hs as [Hacc Hrej].
  destruct (Crdt.gate_spec to_json error_to_string (engine l) delta) as [[Hy _]|[Hn _]].
  - destruct (Hacc Hy) as (_ & _ & Hst & Hns). destruct (storable_dec (engine l) delta) as [Hs|Hs].
    + destruct (Hst Hs) as (-> & _ & Hrow & _). left. cbn. done.
    + right; left. destruct (Hns Hs) as (err & -> & Hg). cbn. done.
  - right; right. destruct (Hrej Hn) as (He & [(reason & -> & _)|(rec & -> & _)]); [left|right]; cbn; [done|].
    split; [done|]. split; [by eexists|]. done.
Qed.

(** *** Histories *)

(** The payloads a ledger has been sent, with the time of their cycle. *)
Definition serve (l : CloudLedger) (sends : list (bytes * Z)) : CloudLedger :=
  foldl (fun l s => (send l s.2 s.1).1) l sends.

Lemma serve_app l s1 s2 : serve l (s1 ++ s2) = serve (serve l s1) s2.
Proof. apply foldl_app. Qed.

Lemma receive_keeps l delta now :
  let l' := (receive_delta l delta now).1 in
  committed l ⊆ committed l' /\
  forall id, is_Some (Dag.dag_nodes (Crdt.dag (engine l)) !! id) -> is_Some (Dag.dag_nodes (Crdt.dag (engine l')) !! id).
Proof.
  cbn zeta. unfold receive_delta. case_bool_decide; [done|].
  pose proof (apply_keeps_rows (engine l) delta now) as Hk.
  destruct (apply (engine l) delta now) as [[e emitted] [[n|q|reason]|err]]; cbn in *; (split; [set_solver|done]).
Qed.

Lemma send_state l now b :
  (send l now b).1 = match delta_of_json b with Some d => (receive_delta l d now).1 | None => l end.
Proof.
  unfold send. destruct (delta_of_json b) as [d|]; [|done]. by destruct (receive_delta l d now) as [l' [[]|]].
Qed.

Lemma serve_keeps l sends :
  committed l ⊆ committed (serve l sends) /\
  forall id, is_Some (Dag.dag_nodes (Crdt.dag (engine l)) !! id) ->
    is_Some (Dag.dag_nodes (Crdt.dag (engine (serve l sends))) !! id).
Proof.
  revert l. induction sends as [|[b now] sends IH]; intros l; [done|]. cbn [serve foldl fst snd].
  destruct (IH (send l now b).1) as [Hc Hr]. rewrite send_state in *.
  destruct (delta_of_json b) as [d|]; [|done]. destruct (receive_keeps l d now) as [Hc' Hr'].
  split; [by etrans|auto].
Qed.

(** Where a committed id came from: its Delta is in the DAG, or it was one the gates turned
    away, of which the ledger keeps nothing. *)
Definition turned_away (l0 : CloudLedger) (sends : list (bytes * Z)) (id : DeltaId) : Prop :=
  exists pre b now post d, sends = pre ++ (b, now) :: post /\ delta_of_json b = Some d /\ d_id d = id /\
    ~ accepted (engine (serve l0 pre)) d.

Lemma serve_committed l sends id :
  id ∈ committed (serve l sends) ->
  id ∈ committed l \/ is_Some (Dag.dag_nodes (Crdt.dag (engine (serve l sends))) !! id) \/ turned_away l sends id.
Proof.
  induction sends as [|[b now] sends IH] using rev_ind; [by left|].
  rewrite serve_app. cbn [serve foldl fst snd]. intros Hin.
  assert (id ∈ committed (serve l sends) \/
    exists d, delta_of_json b = Some d /\ d_id d = id /\
      (is_Some (Dag.dag_nodes (Crdt.dag (engine (send (serve l sends) now b).1)) !! id) \/
       ~ accepted (engine (serve l sends)) d)) as Hcase.
  { rewrite send_state in *. destruct (delta_of_json b) as [d|]; [|by left].
    destruct (receive_cases (serve l sends) d now) as [[_ Heq]|[_ [(_ & _ & _ & Hc & _ & Hr)|[(_ & _ & _ & Hc & _)|
      [(Hn & _ & Hc & _)|(_ & _ & Hc & _)]]]]]; [rewrite Heq in Hin; by left|..]; rewrite Hc in Hin; try by left.
    - apply elem_of_union in Hin as [->%elem_of_singleton|?]; [right|by left]. exists d. auto.
    - apply elem_of_union in Hin as [->%elem_of_singleton|?]; [right|by left]. exists d. auto. }
  destruct (serve_keeps (serve l sends) [(b, now)]) as [_ Hk]. cbn [serve foldl fst snd] in Hk.
  destruct Hcase as [[?|[?|(pre & b' & now' & post & d & -> & Hd)]]%IH|(d & Hd & Hid & [Hr|Hn])].
  - by left.
  - right; left. by apply Hk.
  - right; right. exists pre, b', now', (post ++ [(b, now)]), d. rewrite <- app_assoc. done.
  - right; by left.
  - right; right. exists sends, b, now, [], d. done.
Qed.

Lemma send_acked l now b :
  (send l now b).2 = Ok tt ->
  exists d, delta_of_json b = Some d /\ d_id d ∈ committed (send l now b).1.
Proof.
  unfold send at 1. rewrite send_state. destruct (delta_of_json b) as [d|]; [|done]. intros Hok. exists d.
  split; [done|]. destruct (receive_cases l d now) as [[Hin Heq]|[_ [(_ & _ & _ & -> & _)|[(_ & _ & Hr & _)|
      [(Hn & _ & -> & _)|(_ & (reason & Hr & _) & _)]]]]].
  - by rewrite Heq.
  - set_solver.
  - destruct (receive_delta l d now) as [l' [[]|]]; done.
  - set_solver.
  - destruct (receive_delta l d now) as [l1 [[]|]]; cbn in Hr, Hok; congruence.
Qed.

Lemma send_again l now b d :
  delta_of_json b = Some d -> d_id d ∈ committed l -> send l now b = (l, Ok tt).
Proof. intros Hd Hin. unfold send, receive_delta. rewrite Hd. by rewrite bool_decide_true. Qed.

(** A Delta that is accepted and can be stored is committed and in the DAG. *)
Lemma send_stored l now b d :
  delta_of_json b = Some d -> d_id d ∉ committed l -> accepted (engine l) d -> storable (engine l) d ->
  let '(l', answer) := send l now b in
  answer = Ok tt /\ d_id d ∈ committed l' /\ is_Some (Dag.dag_nodes (Crdt.dag (engine l')) !! d_id d).
Proof.
  intros Hd Hin Hacc Hst. unfold send. rewrite Hd.
  destruct (receive_cases l d now) as [[? _]|[_ [(_ & _ & Hr & Hc & _ & Hrow)|[(_ & ? & _)|[(? & _)|(? & _)]]]]]; try done.
  destruct (receive_delta l d now) as [l' r]. cbn in Hr, Hc, Hrow. subst r. rewrite Hc. by split_and!; [|set_solver|].
Qed.

(** The ledger only grows.  Whatever it is sent after a payload it acknowledged, the Delta stays
    committed, every Delta in its DAG stays there, and the payload sent again is acknowledged
    and changes nothing; and a committed Delta is in the DAG unless it was one the merge gates
    turned away: such a Delta is acknowledged and kept nowhere. *)
Theorem ledger_append_only secret_key did schema_hash before b now after :
  let l0 := new_in_memory secret_key did schema_hash in
  let l := serve l0 before in
  let l' := serve l0 (before ++ (b, now) :: after) in
  (forall id, is_Some (Dag.dag_nodes (Crdt.dag (engine l)) !! id) ->
     is_Some (Dag.dag_nodes (Crdt.dag (engine l')) !! id)) /\
  ((send l now b).2 = Ok tt -> exists d, delta_of_json b = Some d /\ d_id d ∈ committed l' /\
     (forall later, send l' later b = (l', Ok tt)) /\
     (is_Some (Dag.dag_nodes (Crdt.dag (engine l')) !! d_id d) \/
      turned_away l0 (before ++ (b, now) :: after) (d_id d))).
Proof.
  cbn zeta. set (l0 := new_in_memory secret_key did schema_hash). split.
  - intros id Hr. rewrite serve_app. by apply serve_keeps.
  - intros Hok. destruct (send_acked _ _ _ Hok) as (d & Hd & Hin). exists d. split; [done|].
    assert (d_id d ∈ committed (serve l0 (before ++ (b, now) :: after))) as Hin'.
    { rewrite serve_app. cbn [serve foldl fst snd]. by apply (serve_keeps (send (serve l0 before) now b).1 after). }
    split; [done|]. split; [intros later; by eapply send_again|].
    destruct (serve_committed _ _ _ Hin') as [Hn|?]; [|done]. cbn in Hn. set_solver.
Qed.

(** A Delta under a schema the ledger has not been told about, as every Delta written after a
    migration, is acknowledged although the ledger stores nothing of it. *)
Lemma unknown_schema_acked l now b d :
  delta_of_json b = Some d -> d_id d ∉ committed l -> d_author_did d ∉ Crdt.revoked_dids (engine l) ->
  d_schema_hash d ∉ Crdt.known_schemas (engine l) -> Crdt.schema_definitions (engine l) = ∅ ->
  (send l now b).2 = Ok tt /\ engine (send l now b).1 = engine l.
Proof.
  intros Hd Hin Hr Hs Hdef. unfold send, receive_delta. rewrite Hd. rewrite bool_decide_false by done.
  unfold Crdt.apply, Crdt.gate. rewrite bool_decide_false by done.
  unfold Crdt.classify_incoming_schema. rewrite bool_decide_false by done. by rewrite Hdef, lookup_empty.
Qed.
End CloudLedger.
End CloudLedger.
