(* ===== verification/Transport.v ===== *)
(** * The mesh transport: [transport/discovery.rs], [transport/session.rs],
    [transport/message.rs], [transport/ble.rs] and [transport/mod.rs]

    Peers and retries (module [Discovery]), Noise sessions with their resumption cache and
    back-off ([Session]), Bluetooth framing ([Ble]) and the transport that puts them beside
    the scheduler, the reassembly buffer and saturate mode ([Mesh]).

    The [lru] and [snow] crates, the byte stream of a handshake and the bounded channels of
    tokio are classes with the behaviour their documentation promises; each has an
    instance.  The libp2p Swarm is left out: what it delivers are the arguments of the
    operations below. *)

From Stdlib Require Import Ascii.
From S2P Require Import Prelude Types Identity Auth Scheduler Fragment Saturate Revocation Durability Migration.

(** ** [discovery.rs] *)

Module Discovery.

Inductive PeerTransport :=
| Mdns (multiaddr : string)
| BleBridge (bridge_did : Did)
| MultiHopRelay (next_hop_did : Did)
| Explicit (multiaddr : string).

Record DiscoveredPeer := mkPeer {
  did : Did;
  transport : PeerTransport;
  hop_count : Z
}.

Record RetryEntry := mkRetry {
  peer_did : Did;
  delta_bytes : bytes;
  next_retry_at : Z;
  attempts : Z
}.

Record PeerState := mkState {
  peer : DiscoveredPeer;
  last_seen_us : Z;
  active : bool
}.

Record PeerDiscovery := mkDiscovery {
  max_hop_count : Z;
  peer_timeout_secs : Z;
  retry_interval_secs : Z;
  retry_queue : list RetryEntry;
  max_retry_queue : nat;
  peers : gmap string PeerState
}.

Definition new (max_hop timeout interval : Z) (max_queue : nat) : PeerDiscovery :=
  mkDiscovery max_hop timeout interval [] max_queue ∅.

Definition set_peers (s : PeerDiscovery) (p : gmap string PeerState) : PeerDiscovery :=
  mkDiscovery (max_hop_count s) (peer_timeout_secs s) (retry_interval_secs s) (retry_queue s)
    (max_retry_queue s) p.
Definition set_retry (s : PeerDiscovery) (q : list RetryEntry) : PeerDiscovery :=
  mkDiscovery (max_hop_count s) (peer_timeout_secs s) (retry_interval_secs s) q
    (max_retry_queue s) (peers s).

Definition on_peer_discovered (s : PeerDiscovery) (p : DiscoveredPeer) (now_us : Z) : PeerDiscovery :=
  if max_hop_count s <? hop_count p then s
  else set_peers s (<[did p := mkState p now_us true]> (peers s)).

Definition touch_peer (s : PeerDiscovery) (d : Did) (now_us : Z) : PeerDiscovery :=
  match peers s !! d with
  | Some st => set_peers s (<[d := mkState (peer st) now_us true]> (peers s))
  | None => s
  end.

Definition remove_peer (s : PeerDiscovery) (d : Did) : PeerDiscovery := set_peers s (delete d (peers s)).

Definition timeout_us (s : PeerDiscovery) : Z := wrap_i64 (wrap_i64 (peer_timeout_secs s) * 1000000).
Definition alive (s : PeerDiscovery) (now_us : Z) (st : PeerState) : bool :=
  wrap_i64 (now_us - last_seen_us st) <? timeout_us s.
Definition tick_timeouts (s : PeerDiscovery) (now_us : Z) : PeerDiscovery :=
  set_peers s (filter (fun e => alive s now_us e.2 = true) (peers s)).

Definition is_active (s : PeerDiscovery) (d : Did) : bool := bool_decide (is_Some (peers s !! d)).
Definition is_direct_neighbor (s : PeerDiscovery) (d : Did) : bool := bool_decide (is_Some (peers s !! d)).
Definition peer_transport (s : PeerDiscovery) (d : Did) : option PeerTransport :=
  st ← peers s !! d; Some (transport (peer st)).

Definition enqueue_retry (s : PeerDiscovery) (e : RetryEntry) : PeerDiscovery :=
  if (max_retry_queue s <=? length (retry_queue s))%nat then s else set_retry s (retry_queue s ++ [e]).

Definition drain_due_retries (s : PeerDiscovery) (now_us : Z) : PeerDiscovery * list RetryEntry :=
  let due e := (next_retry_at e <=? now_us) in
  (set_retry s (List.filter (fun e => negb (due e)) (retry_queue s)), List.filter due (retry_queue s)).

Definition retry_queue_len (s : PeerDiscovery) : nat := length (retry_queue s).

Section Iteration.
Context `{!HashIter string PeerState}.

Definition active_peers (s : PeerDiscovery) : list Did := map fst (hm_iter (peers s)).

Definition is_relay (st : PeerState) : bool :=
  active st && match transport (peer st) with MultiHopRelay _ => true | _ => false end.
Definition find_relay_peer (s : PeerDiscovery) (destination_did : Did) : option Did :=
  (fun e => did (peer e.2)) <$> List.find (fun e => is_relay e.2) (hm_iter (peers s)).
End Iteration.

(** [mdns_adapter]: a libp2p [PeerId] is the text of its base58 form. *)
Definition peer_id_to_did (peer_id : string) : Did := "did:key:" +:+ peer_id.

Inductive MdnsEvent := Discovered (peers : list (string * string)) | Expired (peers : list (string * string)).

Definition handle_mdns_event (s : PeerDiscovery) (event : MdnsEvent) (now_us : Z) : PeerDiscovery :=
  match event with
  | Discovered ps =>
      foldl (fun s '(peer_id, addr) =>
        on_peer_discovered s (mkPeer (peer_id_to_did peer_id) (Mdns addr) 0) now_us) s ps
  | Expired ps => foldl (fun s '(peer_id, _) => remove_peer s (peer_id_to_did peer_id)) s ps
  end.
End Discovery.

(** ** [session.rs] *)

(** [lru::LruCache]: [peek] does not change the order of use, [put] may evict another entry. *)
Class LruCache (K V : Type) := {
  lru : Type;
  lru_new : nat -> lru;
  lru_cap : lru -> nat;
  lru_put : lru -> K -> V -> lru;
  lru_peek : lru -> K -> option V;
  lru_pop : lru -> K -> lru;
  lru_len : lru -> nat;
  lru_cap_new n : lru_cap (lru_new n) = n;
  lru_cap_put c k v : lru_cap (lru_put c k v) = lru_cap c;
  lru_cap_pop c k : lru_cap (lru_pop c k) = lru_cap c;
  lru_len_le c : (lru_len c <= lru_cap c)%nat;
  lru_peek_new n k : lru_peek (lru_new n) k = None;
  lru_peek_put c k v : (0 < lru_cap c)%nat -> lru_peek (lru_put c k v) k = Some v;
  lru_peek_put_ne c k v k' : k <> k' ->
    lru_peek (lru_put c k v) k' = lru_peek c k' \/ lru_peek (lru_put c k v) k' = None;
  lru_peek_pop c k : lru_peek (lru_pop c k) k = None;
  lru_peek_pop_ne c k k' : k <> k' -> lru_peek (lru_pop c k) k' = lru_peek c k'
}.
Arguments lru K V {_}.

(** [snow] and the key conversions of [ed25519-dalek]. *)
Class Noise := {
  nz_builder : Type;
  nz_handshake : Type;
  nz_transport : Type;
  nz_pattern : nz_builder;
  nz_local_private_key : nz_builder -> bytes -> option nz_builder;
  nz_remote_public_key : nz_builder -> bytes -> option nz_builder;
  nz_build_initiator : nz_builder -> option nz_handshake;
  nz_write_message : nz_handshake -> option (nz_handshake * bytes);
  nz_read_message : nz_handshake -> bytes -> option nz_handshake;
  nz_into_transport_mode : nz_handshake -> option nz_transport;
  nz_get_remote_static : nz_transport -> option bytes;
  nz_rekey_outgoing : nz_transport -> nz_transport;
  nz_rekey_incoming : nz_transport -> nz_transport;
  ed_to_montgomery : bytes -> bytes;
  ed_to_scalar_bytes : bytes -> bytes
}.

(** [AsyncNoiseStream]: a read fills the buffer or fails. *)
Class NoiseStream (S : Type) := {
  write_noise_message : S -> bytes -> S * bool;
  read_noise_message : S -> nat -> S * option bytes;
  read_noise_length s n s' b : read_noise_message s n = (s', Some b) -> length b = n
}.

Module Session.
Import Did Trust.

Definition MAX_RESUMPTION_CACHE : nat := 1024.
Definition MIN_ROTATION_INTERVAL_SECS : Z := 60.
Definition MAX_ROTATION_INTERVAL_SECS : Z := 86400.
Definition MIN_RETRY_BACKOFF_SECS : Z := 30.
Definition CREDENTIAL_VALIDITY_SECS : Z := 24 * 3600.

Record ResumptionCredential := mkCredential {
  c_peer_did : Did;
  issued_at : Z;
  credential_bytes : bytes
}.
Definition is_valid (c : ResumptionCredential) (now_secs : Z) : bool :=
  wrap_i64 (now_secs - issued_at c) <? CREDENTIAL_VALIDITY_SECS.

(** [PeerPair]: (local, remote) *)
Abbreviation PeerPair := (string * string)%type.

Record HandshakeFailureRecord := mkFailure {
  f_peer_did : Did;
  failed_at : Z;
  f_reason : string
}.
Definition backoff_elapsed (r : HandshakeFailureRecord) (now_secs : Z) : bool :=
  MIN_RETRY_BACKOFF_SECS <=? wrap_i64 (now_secs - failed_at r).

Section Sessions.
Context `{!Bs58} `{!Ed25519} `{!LruCache PeerPair ResumptionCredential} `{!Noise}.

Definition ed25519_pubkey_to_x25519 (k : bytes) : Res bytes :=
  if negb (length k =? 32)%nat then
    Err (DidResolutionFailed "" "expected 32-byte Ed25519 public key for X25519 conversion")
  else if ed_key_ok k then Ok (ed_to_montgomery k)
  else Err (DidResolutionFailed "" "Ed25519 public key parse error during X25519 conversion").

Definition ed25519_privkey_to_x25519 (k : bytes) : Res bytes :=
  if negb (length k =? 32)%nat then
    Err (NoiseHandshakeFailed "" "expected 32-byte Ed25519 private key seed for X25519 conversion")
  else Ok (ed_to_scalar_bytes k).

Record NoiseSession := mkSession {
  remote_did : Did;
  last_rotated_secs : Z;
  s_rotation_interval_secs : Z;
  s_transport : option nz_transport
}.
Definition rotation_due (s : NoiseSession) (now_secs : Z) : bool :=
  wrap_i64 (s_rotation_interval_secs s) <=? wrap_i64 (now_secs - last_rotated_secs s).

Record SessionManager := mkManager {
  resumption_cache : lru PeerPair ResumptionCredential;
  failure_records : list HandshakeFailureRecord;
  rotation_interval_secs : Z;
  local_did : Did
}.

Definition new (local : Did) (interval : Z) : SessionManager :=
  mkManager (lru_new MAX_RESUMPTION_CACHE) []
    (Z.min (Z.max interval MIN_ROTATION_INTERVAL_SECS) MAX_ROTATION_INTERVAL_SECS) local.

Definition set_cache (s : SessionManager) c : SessionManager :=
  mkManager c (failure_records s) (rotation_interval_secs s) (local_did s).

Definition has_valid_credential (s : SessionManager) (peer_did : Did) (now_secs : Z) : bool :=
  match lru_peek (resumption_cache s) (local_did s, peer_did) with
  | Some c => is_valid c now_secs
  | None => false
  end.

Definition store_credential (s : SessionManager) (peer_did : Did) (c : ResumptionCredential) : SessionManager :=
  set_cache s (lru_put (resumption_cache s) (local_did s, peer_did) c).

Definition record_failure (s : SessionManager) (peer_did : Did) (reason : string) (now_secs : Z)
  : SessionManager :=
  mkManager (resumption_cache s)
    (List.filter (fun r => negb (backoff_elapsed r now_secs)) (failure_records s)
      ++ [mkFailure peer_did now_secs reason])
    (rotation_interval_secs s) (local_did s).

Definition in_backoff (s : SessionManager) (peer_did : Did) (now_secs : Z) : bool :=
  existsb (fun r => bool_decide (f_peer_did r = peer_did) && negb (backoff_elapsed r now_secs))
    (failure_records s).

Definition cache_size (s : SessionManager) : nat := lru_len (resumption_cache s).

Definition register_session (s : SessionManager) (peer_did : Did) (now_secs : Z)
  : SessionManager * NoiseSession :=
  (store_credential s peer_did (mkCredential peer_did now_secs []),
   mkSession peer_did now_secs (rotation_interval_secs s) None).

(** [full_ik_handshake] as production calls it: no in-process responder. *)
Definition full_ik_handshake {St} `{!NoiseStream St} (s : SessionManager) (peer_did : Did)
    (local_static_privkey remote_static_pubkey : bytes) (stream : option St) (now_secs : Z)
  : SessionManager * option St * Res NoiseSession :=
  let make_err reason := NoiseHandshakeFailed peer_did reason in
  let fail st reason := (record_failure s peer_did reason now_secs, st, Err (make_err reason)) in
  match nz_local_private_key nz_pattern local_static_privkey with
  | None => (s, stream, Err (make_err "local_private_key"))
  | Some b =>
  match nz_remote_public_key b remote_static_pubkey with
  | None => (s, stream, Err (make_err "remote_public_key"))
  | Some b =>
  match nz_build_initiator b with
  | None => fail stream "build_initiator"
  | Some initiator =>
  match nz_write_message initiator with
  | None => (s, stream, Err (make_err "initiator write_message 1"))
  | Some (initiator, msg1) =>
  match stream with
  | None => fail stream "full_ik_handshake requires a stream for the production Noise IK wire exchange"
  | Some st =>
  match write_noise_message st msg1 with
  | (st, false) => fail (Some st) "stream write_message 1"
  | (st, true) =>
  match read_noise_message st (Z.to_nat 65535) with
  | (st, None) => fail (Some st) "stream read_message 2"
  | (st, Some msg2) =>
  match nz_read_message initiator msg2 with
  | None => fail (Some st) "initiator read_message 2"
  | Some initiator =>
  match nz_into_transport_mode initiator with
  | None => fail (Some st) "into_transport_mode"
  | Some transport =>
      (store_credential s peer_did
         (mkCredential peer_did now_secs (default [] (nz_get_remote_static transport))),
       Some st, Ok (mkSession peer_did now_secs (rotation_interval_secs s) (Some transport)))
  end end end end end end end end end.

Definition initiate {St} `{!NoiseStream St} (s : SessionManager) (peer_did : Did)
    (peer_trust_level : TrustLevel) (local_static_privkey remote_static_pubkey : bytes)
    (stream : option St) (now_secs : Z) : SessionManager * option St * Res NoiseSession :=
  if bool_decide (peer_trust_level = Revoked) then (s, stream, Err (PeerRevoked peer_did))
  else if in_backoff s peer_did now_secs then
    (s, stream, Err (NoiseHandshakeFailed peer_did "retry backoff active"))
  else
    let cred_key := (local_did s, peer_did) in
    let s := match lru_peek (resumption_cache s) cred_key with
             | Some cred => if is_valid cred now_secs then s
                            else set_cache s (lru_pop (resumption_cache s) cred_key)
             | None => s
             end in
    full_ik_handshake s peer_did local_static_privkey remote_static_pubkey stream now_secs.

Definition rotate_keys (session : NoiseSession) (now_secs : Z) : NoiseSession * Res unit :=
  match s_transport session with
  | None => (session, Err (NoiseHandshakeFailed (remote_did session)
               "rotate_keys called on session without transport state"))
  | Some t =>
      (mkSession (remote_did session) now_secs (s_rotation_interval_secs session)
         (Some (nz_rekey_incoming (nz_rekey_outgoing t))), Ok tt)
  end.

(** *** Histories *)

Inductive Event (St : Type) :=
| Initiate (peer_did : Did) (trust : TrustLevel) (privkey pubkey : bytes) (stream : option St) (now : Z)
| Register (peer_did : Did) (now : Z).
Arguments Initiate {St}.
Arguments Register {St}.

Section History.
Context {St : Type} `{!NoiseStream St}.

Definition time_of (ev : Event St) : Z :=
  match ev with Initiate _ _ _ _ _ now => now | Register _ now => now end.

Definition apply_event (s : SessionManager) (ev : Event St) : SessionManager :=
  match ev with
  | Initiate p trust priv pub stream now => (initiate s p trust priv pub stream now).1.1
  | Register p now => (register_session s p now).1
  end.

Definition run (s : SessionManager) (evs : list (Event St)) : SessionManager := foldl apply_event s evs.

(** The failures [full_ik_handshake] records: all but those of the local keys and of the
    first message. *)
Definition recorded_reasons : list string :=
  ["build_initiator"; "full_ik_handshake requires a stream for the production Noise IK wire exchange";
   "stream write_message 1"; "stream read_message 2"; "initiator read_message 2"; "into_transport_mode"].

(** A clock no subtraction of which overflows. *)
Definition clock_ok (z : Z) : Prop := 0 <= z < 2 ^ 62.

Lemma clock_sub a b : clock_ok a -> clock_ok b -> wrap_i64 (a - b) = a - b.
Proof. unfold clock_ok. intros. apply wrap_i64_small. unfold i64_ok. lia. Qed.

(** What one call of the handshake may do to the manager. *)
Lemma handshake_cases s p priv pub (stream : option St) now s' st' r :
  full_ik_handshake s p priv pub stream now = (s', st', r) ->
  (exists t bs, r = Ok (mkSession p now (rotation_interval_secs s) (Some t)) /\
    s' = store_credential s p (mkCredential p now bs)) \/
  (exists reason, r = Err (NoiseHandshakeFailed p reason) /\ reason ∈ recorded_reasons /\
    s' = record_failure s p reason now) \/
  (exists reason, r = Err (NoiseHandshakeFailed p reason) /\ reason ∉ recorded_reasons /\
    s' = s /\ st' = stream).
Proof.
  unfold full_ik_handshake.
  assert (forall reason : string, bool_decide (reason ∈ recorded_reasons) = true -> reason ∈ recorded_reasons) as Hin
    by (intros ? Hb; by apply bool_decide_eq_true_1 in Hb).
  assert (forall reason : string, bool_decide (reason ∈ recorded_reasons) = false -> reason ∉ recorded_reasons) as Hout
    by (intros ? Hb; by apply bool_decide_eq_false_1 in Hb).
  repeat (match goal with |- context [match ?x with _ => _ end = _] => destruct x end);
    intros [= <- <- <-]; eauto 8.
  all: right; first
    [ left; eexists; split; [reflexivity|]; split; [|reflexivity]; apply Hin; reflexivity
    | right; eexists; split; [reflexivity|]; split; [apply Hout; reflexivity|done] ].
Qed.

Lemma evict_failures s (cond : bool) c :
  failure_records (if cond then s else set_cache s c) = failure_records s.
Proof. by destruct cond. Qed.

Lemma initiate_failures s p trust priv pub (stream : option St) now :
  exists l, failure_records (initiate s p trust priv pub stream now).1.1 = l /\
    (l = failure_records s \/ exists reason, l = failure_records (record_failure s p reason now)).
Proof.
  eexists; split; [done|]. unfold initiate.
  case_bool_decide; [by left|]. destruct (in_backoff s p now); [by left|].
  set (s0 := match lru_peek _ _ with Some _ => _ | None => _ end).
  assert (failure_records s0 = failure_records s) as E0 by (unfold s0; repeat case_match; done).
  destruct (full_ik_handshake s0 p priv pub stream now) as [[s' st'] r] eqn:Hh.
  apply handshake_cases in Hh as [(t & bs & _ & ->)|[(reason & _ & _ & ->)|(reason & _ & _ & -> & _)]]; simpl.
  - by left.
  - right. exists reason. by rewrite E0.
  - by left.
Qed.

Lemma failure_kept s ev rec now :
  rec ∈ failure_records s -> clock_ok (failed_at rec) -> clock_ok now ->
  failed_at rec <= time_of ev <= now -> now < failed_at rec + MIN_RETRY_BACKOFF_SECS ->
  rec ∈ failure_records (apply_event s ev).
Proof.
  intros Hrec Hf Hnow [Ht1 Ht2] Ht3. destruct ev as [p trust priv pub stream t|p t]; simpl in *; [|done].
  destruct (initiate_failures s p trust priv pub stream t) as (l & -> & [->|(reason & ->)]); [done|].
  simpl. apply elem_of_app. left. apply list_elem_of_In, filter_In.
  split; [by apply list_elem_of_In|]. unfold backoff_elapsed. unfold clock_ok in *.
  rewrite clock_sub by (unfold clock_ok; lia). apply negb_true_iff, Z.leb_gt. lia.
Qed.

Lemma failure_kept_run s evs rec now :
  rec ∈ failure_records s -> clock_ok (failed_at rec) -> clock_ok now ->
  Forall (fun ev => failed_at rec <= time_of ev <= now) evs ->
  now < failed_at rec + MIN_RETRY_BACKOFF_SECS -> rec ∈ failure_records (run s evs).
Proof.
  intros Hrec Hf Hn Hall Hlt. revert s Hrec. induction Hall as [|ev evs Hev _ IH]; intros s Hrec; [done|].
  simpl. apply IH. by eapply failure_kept.
Qed.

Lemma in_backoff_iff s p now :
  in_backoff s p now = true <->
  exists rec, rec ∈ failure_records s /\ f_peer_did rec = p /\ backoff_elapsed rec now = false.
Proof.
  unfold in_backoff. rewrite existsb_exists. split.
  - intros (rec & Hin & [?%bool_decide_eq_true ?%negb_true_iff]%andb_true_iff). exists rec.
    by rewrite list_elem_of_In.
  - intros (rec & Hin & ? & ?). exists rec. rewrite <- list_elem_of_In. split; [done|].
    apply andb_true_iff. split; [by apply bool_decide_eq_true|by apply negb_true_iff].
Qed.

(** Back-off.  Once a handshake with a peer has failed on the wire at [t], every attempt in the
    following 30 seconds is refused before the stream or the manager is touched, whatever
    sessions were tried or registered in between. *)
Theorem backoff_enforced s p trust priv pub (stream : option St) t s1 st1 reason evs trust' priv' pub'
    (stream' : option St) now :
  initiate s p trust priv pub stream t = (s1, st1, Err (NoiseHandshakeFailed p reason)) ->
  reason ∈ recorded_reasons -> trust' <> Revoked ->
  clock_ok t -> clock_ok now -> Forall (fun ev => t <= time_of ev <= now) evs ->
  t <= now < t + MIN_RETRY_BACKOFF_SECS ->
  initiate (run s1 evs) p trust' priv' pub' stream' now =
    (run s1 evs, stream', Err (NoiseHandshakeFailed p "retry backoff active")).
Proof.
  intros Hi Hr Ht Hc Hn Hall [Hle Hlt]. unfold initiate in Hi at 1.
  case_bool_decide; [done|].
  destruct (in_backoff s p t).
  { injection Hi as <- <- <-. exfalso. revert Hr. by apply (bool_decide_eq_false_1 _). }
  set (s0 := match lru_peek _ _ with Some _ => _ | None => _ end) in Hi.
  apply handshake_cases in Hi as [(tr & bs & [=] & _)|[(r' & [= <-] & _ & ->)|(r' & [= <-] & Hno & _)]]; [|done].
  assert (in_backoff (run (record_failure s0 p reason t) evs) p now = true) as Hb.
  { apply in_backoff_iff. exists (mkFailure p t reason).
    split; [|split; [done|]].
    - eapply failure_kept_run; [|done|done|done|done]. simpl. apply elem_of_app. right. by left.
    - unfold backoff_elapsed. simpl. unfold clock_ok in *. rewrite clock_sub by done. apply Z.leb_gt. lia. }
  unfold initiate. rewrite Hb. by rewrite bool_decide_false.
Qed.

Lemma cache_bounded_step s ev :
  lru_cap (resumption_cache s) = MAX_RESUMPTION_CACHE ->
  lru_cap (resumption_cache (apply_event s ev)) = MAX_RESUMPTION_CACHE.
Proof.
  intros Hs. destruct ev as [p trust priv pub stream t|p t]; simpl; [|by rewrite lru_cap_put].
  unfold initiate. case_bool_decide; [done|]. destruct (in_backoff s p t); [done|].
  set (s0 := match lru_peek _ _ with Some _ => _ | None => _ end).
  assert (lru_cap (resumption_cache s0) = MAX_RESUMPTION_CACHE).
  { unfold s0. repeat case_match; simpl; rewrite ?lru_cap_pop; done. }
  destruct (full_ik_handshake s0 p priv pub stream t) as [[s' st'] r] eqn:Hh.
  apply handshake_cases in Hh as [(tr & bs & _ & ->)|[(reason & _ & _ & ->)|(reason & _ & _ & -> & _)]];
    simpl; rewrite ?lru_cap_put; done.
Qed.

(** The cache stays within its 1024 entries over any history. *)
Lemma cache_bounded local interval evs :
  (cache_size (run (new local interval) evs) <= MAX_RESUMPTION_CACHE)%nat.
Proof.
  assert (lru_cap (resumption_cache (run (new local interval) evs)) = MAX_RESUMPTION_CACHE) as <-.
  { unfold run. assert (lru_cap (resumption_cache (new local interval)) = MAX_RESUMPTION_CACHE) as Hs
      by (cbn; apply lru_cap_new).
    revert Hs. generalize (new local interval). induction evs as [|ev evs IH]; intros s Hs; [done|].
    simpl. apply IH. by apply cache_bounded_step. }
  apply lru_len_le.
Qed.

(** A session registered without a handshake has no keys to rotate: it is due for ever. *)
Lemma registered_never_rotates s p now now' :
  let session := (register_session s p now).2 in
  rotate_keys session now' = (session, Err (NoiseHandshakeFailed p
    "rotate_keys called on session without transport state")).
Proof. done. Qed.

(** A libp2p peer id is not a [did:key:z...]: no handshake is ever tried with it. *)
Lemma peer_id_unresolved c rest :
  c <> "z"%char -> is_ok (resolve_did (Discovery.peer_id_to_did (String c rest))) = false.
Proof.
  intros Hc. unfold resolve_did, Discovery.peer_id_to_did.
  change "did:key:z" with ("did:key:" +:+ "z"). rewrite Saturate.strip_prefix_split.
  assert (strip_prefix "did:key:" ("did:key:" +:+ String c rest) = Some (String c rest)) as ->
    by (cbn; rewrite ?decide_True by done; done).
  cbn. rewrite decide_False by congruence. done.
Qed.
End History.
End Sessions.
End Session.

(** Most recently used first; what lies past the capacity is gone. *)
Definition list_lru {K V} `{EqDecision K} : LruCache K V.
Proof.
  refine {| lru := (nat * list (K * V))%type;
    lru_new n := (n, []);
    lru_cap c := c.1;
    lru_put c k v := (c.1, (k, v) :: filter (fun e => e.1 <> k) (take c.1 c.2));
    lru_peek c k := snd <$> List.find (fun e => bool_decide (e.1 = k)) (take c.1 c.2);
    lru_pop c k := (c.1, filter (fun e => e.1 <> k) (take c.1 c.2));
    lru_len c := length (take c.1 c.2) |}; try done.
  - intros [n l]. simpl. rewrite length_take. lia.
  - intros n k. simpl. by rewrite take_nil.
  - intros [n l] k v Hn. simpl in *. destruct n; [lia|]. simpl. by rewrite bool_decide_true.
  - intros [n l] k v k' Hne. simpl. destruct n as [|n]; [by right|].
    rewrite firstn_cons. cbn [List.find fst]. rewrite bool_decide_false by done.
    generalize (take (S n) l) as t. intros t. clear l.
    assert (forall m, List.find (fun e : K * V => bool_decide (e.1 = k')) (take m (filter (fun e => e.1 <> k) t)) =
      List.find (fun e => bool_decide (e.1 = k')) t \/
      List.find (fun e : K * V => bool_decide (e.1 = k')) (take m (filter (fun e => e.1 <> k) t)) = None) as Hm.
    { induction t as [|[a b] t IH]; intros m; [right; by rewrite filter_nil, take_nil|].
      rewrite filter_cons. cbn [List.find fst]. destruct (decide (a <> k)) as [Ha|Ha].
      - destruct m as [|m]; [by right|]. rewrite firstn_cons. cbn [List.find fst].
        destruct (bool_decide (a = k')); [by left|apply IH].
      - apply dec_stable in Ha as ->. rewrite (bool_decide_false (k = k')) by done. apply IH. }
    destruct (Hm n) as [->| ->]; [by left|by right].
  - intros [n l] k. simpl. generalize (take n l) as t. clear l.
    intros t. revert n. induction t as [|[a b] t IH]; intros n; [by rewrite filter_nil, take_nil|].
    rewrite filter_cons. simpl. case_decide as Ha; [|apply IH].
    destruct n as [|n]; [done|]. rewrite firstn_cons. cbn [List.find fst].
    rewrite bool_decide_false by done. apply IH.
  - intros [n l] k k' Hne. simpl.
    assert (take n (filter (fun e : K * V => e.1 <> k) (take n l)) = filter (fun e => e.1 <> k) (take n l)) as ->.
    { apply take_ge. etrans; [apply length_filter|]. rewrite length_take. lia. }
    generalize (take n l) as t. induction t as [|[a b] t IH]; [done|].
    rewrite filter_cons. cbn [List.find fst]. case_decide as Ha.
    + cbn [List.find fst]. destruct (bool_decide (a = k')); [done|apply IH].
    + subst a. rewrite bool_decide_false by done. apply IH.
Defined.

(** Every step of a handshake succeeds. *)
Definition toy_noise : Noise := {|
  nz_builder := unit; nz_handshake := unit; nz_transport := N; nz_pattern := tt;
  nz_local_private_key _ _ := Some tt; nz_remote_public_key _ _ := Some tt;
  nz_build_initiator _ := Some tt; nz_write_message _ := Some (tt, [1%N]);
  nz_read_message _ _ := Some tt; nz_into_transport_mode _ := Some 0%N;
  nz_get_remote_static _ := None; nz_rekey_outgoing t := (t + 1)%N; nz_rekey_incoming t := (t + 1)%N;
  ed_to_montgomery b := b; ed_to_scalar_bytes b := b
|}.

(** A stream that holds the bytes the peer has written, and fails when there are too few. *)
Definition buffer_stream : NoiseStream bytes.
Proof.
  refine {| write_noise_message s _ := (s, true);
    read_noise_message s n := if (n <=? length s)%nat then (drop n s, Some (take n s)) else (s, None) |}.
  intros s n s' b. destruct (Nat.leb_spec n (length s)); [|done].
  intros [= <- <-]. rewrite length_take. lia.
Defined.

(** A peer that answers with fewer bytes than the read buffer holds, as every second message of
    the handshake does, ends the handshake. *)
Lemma short_answer_fails `{!Bs58} `{!Ed25519} `{!LruCache (string * string) Session.ResumptionCredential} `{!Noise}
    (s : Session.SessionManager) p trust priv pub msg2 now :
  Z.of_nat (length msg2) < 65535 ->
  is_ok (@Session.initiate _ _ _ buffer_stream s p trust priv pub (Some msg2) now).2 = false.
Proof.
  intros Hlen. unfold Session.initiate. case_bool_decide; [done|].
  destruct (Session.in_backoff s p now); [done|].
  unfold Session.full_ik_handshake. cbn [write_noise_message read_noise_message buffer_stream].
  replace (Z.to_nat 65535 <=? length msg2)%nat with false by (symmetry; apply Nat.leb_gt; lia).
  repeat (match goal with |- context [match ?x with _ => _ end] => destruct x end); done.
Qed.

(** ** [ble.rs]: the framing of Bluetooth chunks *)

Module Ble.
Import Fragment.

Definition BLE_MAX_CHUNK_SIZE : nat := 512.
Definition BLE_CHUNK_HEADER_SIZE : nat := 40.
Definition BLE_MAX_PAYLOAD : nat := BLE_MAX_CHUNK_SIZE - BLE_CHUNK_HEADER_SIZE.

(** [u32::from_le_bytes] and the number a big-endian byte array spells. *)
Fixpoint of_le_bytes (b : bytes) : Z :=
  match b with [] => 0 | x :: b' => Z.of_N x + 256 * of_le_bytes b' end.
Definition of_be_bytes (b : bytes) : N := foldl (fun acc x => acc * 256 + x)%N 0%N b.

Definition fragment_for_ble (delta_id : DeltaId) (data : bytes) : list bytes :=
  if bool_decide (data = []) then []
  else
    let cs := chunks BLE_MAX_PAYLOAD data in
    let total := wrap_u32 (Z.of_nat (length cs)) in
    imap (fun i payload => be_bytes 32 delta_id ++ Anchor.le_bytes 4 (wrap_u32 (Z.of_nat i)) ++
      Anchor.le_bytes 4 total ++ payload) cs.

Definition parse_ble_chunk (chunk : bytes) : Res DeltaFragment :=
  if (length chunk <? BLE_CHUNK_HEADER_SIZE)%nat then Err (FragmentReassemblyFailed "ble" 0)
  else Ok (mkFragment (of_be_bytes (take 32 chunk)) (of_le_bytes (take 4 (drop 32 chunk)))
             (of_le_bytes (take 4 (drop 36 chunk))) (drop 40 chunk)).

Fixpoint parse_all (cs : list bytes) : Res (list DeltaFragment) :=
  match cs with
  | [] => Ok []
  | c :: cs' => f ← parse_ble_chunk c; fs ← parse_all cs'; Ok (f :: fs)
  end.

Definition reassemble_ble_chunks (cs : list bytes) (sender_did : Did) : Res bytes :=
  match cs with
  | [] => Err (FragmentReassemblyFailed sender_did 0)
  | c0 :: _ =>
      first ← parse_ble_chunk c0;
      if negb (Z.of_nat (length cs) =? total_fragments first) then
        Err (FragmentReassemblyFailed sender_did (total_fragments first))
      else fragments ← parse_all cs; reassemble fragments sender_did
  end.

(** One notification in the task that [MeshTransport::start] spawns: the chunks of the id are
    taken out of the map as soon as one is in. *)
Definition on_notification (pending_chunks : gmap N (list bytes)) (chunk : bytes)
  : gmap N (list bytes) * option (Res bytes) :=
  if (length chunk <? BLE_CHUNK_HEADER_SIZE)%nat then (pending_chunks, None)
  else
    let delta_id := of_be_bytes (take 32 chunk) in
    let pending_chunks := <[delta_id := default [] (pending_chunks !! delta_id) ++ [chunk]]> pending_chunks in
    match pending_chunks !! delta_id with
    | Some cs => (delete delta_id pending_chunks, Some (reassemble_ble_chunks cs "ble-"))
    | None => (pending_chunks, None)
    end.

(** The id the sending side of the task puts in the chunks: the first bytes of the message. *)
Definition outbound_id (data : bytes) : DeltaId :=
  if (32 <=? length data)%nat then of_be_bytes (take 32 data) else 0%N.

Lemma of_be_bytes_snoc b x : of_be_bytes (b ++ [x]) = (of_be_bytes b * 256 + x)%N.
Proof. unfold of_be_bytes. by rewrite foldl_app. Qed.

Lemma of_be_bytes_be n x : of_be_bytes (be_bytes n x) = (x mod 2 ^ (8 * N.of_nat n))%N.
Proof.
  revert x. induction n as [|n IH]; intros x; [by rewrite N.mod_1_r|].
  cbn [be_bytes]. rewrite of_be_bytes_snoc, IH.
  change 255%N with (N.ones 8). rewrite N.land_ones, N.shiftr_div_pow2.
  replace (8 * N.of_nat (S n))%N with (8 + 8 * N.of_nat n)%N by lia.
  rewrite N.pow_add_r. change 256%N with (2 ^ 8)%N.
  rewrite N.Div0.mod_mul_r. lia.
Qed.

Lemma of_le_bytes_le n x : 0 <= x < 2 ^ (8 * Z.of_nat n) -> of_le_bytes (Anchor.le_bytes n x) = x.
Proof.
  revert x. induction n as [|n IH]; intros x Hx.
  - simpl in *. assert (x = 0) as -> by lia. done.
  - cbn [Anchor.le_bytes of_le_bytes].
    change 255 with (Z.ones 8). rewrite Z.land_ones by lia. rewrite Z.shiftr_div_pow2 by lia.
    assert (2 ^ (8 * Z.of_nat (S n)) = 256 * 2 ^ (8 * Z.of_nat n)) as Hp.
    { replace (8 * Z.of_nat (S n)) with (8 + 8 * Z.of_nat n) by lia. by rewrite Z.pow_add_r by lia. }
    change (2 ^ 8) with 256. rewrite IH.
    + rewrite Z2N.id by (apply Z.mod_pos_bound; lia). pose proof (Z.div_mod x 256). lia.
    + split; [apply Z.div_pos; lia|]. apply Z.div_lt_upper_bound; lia.
Qed.

Lemma length_le_bytes n x : length (Anchor.le_bytes n x) = n.
Proof. revert x. induction n as [|n IH]; intros x; simpl; [done|]. by rewrite IH. Qed.

Lemma parse_chunk id i total payload :
  (id < 2 ^ 256)%N -> u32_ok i -> u32_ok total ->
  parse_ble_chunk (be_bytes 32 id ++ Anchor.le_bytes 4 i ++ Anchor.le_bytes 4 total ++ payload) =
    Ok (mkFragment id i total payload).
Proof.
  intros Hid Hi Ht. unfold parse_ble_chunk.
  pose proof (length_be_bytes 32 id) as L1. pose proof (length_le_bytes 4 i) as L2.
  pose proof (length_le_bytes 4 total) as L3.
  assert ((length (be_bytes 32 id ++ Anchor.le_bytes 4 i ++ Anchor.le_bytes 4 total ++ payload)
    <? BLE_CHUNK_HEADER_SIZE)%nat = false) as ->.
  { apply Nat.ltb_ge. rewrite !length_app, L1, L2, L3. unfold BLE_CHUNK_HEADER_SIZE. lia. }
  rewrite take_app_length' by done. rewrite (drop_app_length' (be_bytes 32 id)) by done.
  rewrite (take_app_length' (Anchor.le_bytes 4 i)) by done.
  replace (drop 36 (be_bytes 32 id ++ Anchor.le_bytes 4 i ++ Anchor.le_bytes 4 total ++ payload))
    with (Anchor.le_bytes 4 total ++ payload)
    by (rewrite app_assoc, drop_app_length'; [done|rewrite length_app; lia]).
  replace (drop 40 (be_bytes 32 id ++ Anchor.le_bytes 4 i ++ Anchor.le_bytes 4 total ++ payload)) with payload
    by (rewrite !app_assoc, drop_app_length'; [done|rewrite !length_app; lia]).
  rewrite (take_app_length' (Anchor.le_bytes 4 total)) by done.
  rewrite of_be_bytes_be, N.mod_small by done.
  by rewrite !of_le_bytes_le.
Qed.

Lemma parse_fragments id data :
  (id < 2 ^ 256)%N -> Z.of_nat (length (chunks BLE_MAX_PAYLOAD data)) < 2 ^ 32 ->
  parse_all (fragment_for_ble id data) = Ok (fragment id data BLE_MAX_PAYLOAD).
Proof.
  intros Hid Hlt. unfold fragment_for_ble, fragment. case_bool_decide; [done|].
  cbn [orb]. rewrite bool_decide_false by done.
  set (total := wrap_u32 _). assert (u32_ok total) as Ht by (unfold total, wrap_u32; apply Z.mod_pos_bound; lia).
  clearbody total. generalize (chunks BLE_MAX_PAYLOAD data) as cs. clear Hlt.
  enough (forall cs k, parse_all (imap (fun i payload => be_bytes 32 id ++
    Anchor.le_bytes 4 (wrap_u32 (Z.of_nat (k + i))) ++ Anchor.le_bytes 4 total ++ payload) cs) =
    Ok (imap (fun i chunk => mkFragment id (wrap_u32 (Z.of_nat (k + i))) total chunk) cs)) as Hk
    by (intros cs; apply (Hk cs 0%nat)).
  induction cs as [|c cs IH]; intros k; [done|].
  rewrite !imap_cons. cbn [parse_all]. rewrite parse_chunk; [|done|unfold wrap_u32; apply Z.mod_pos_bound; lia|done].
  cbn [mbind result_bind].
  rewrite (imap_ext _ (fun i payload => be_bytes 32 id ++
    Anchor.le_bytes 4 (wrap_u32 (Z.of_nat (S k + i))) ++ Anchor.le_bytes 4 total ++ payload)).
  - rewrite IH. cbn [mbind result_bind]. do 2 f_equal.
    apply imap_ext. intros i x _. unfold compose. replace (k + S i)%nat with (S k + i)%nat by lia. reflexivity.
  - intros i x _. unfold compose. replace (k + S i)%nat with (S k + i)%nat by lia. reflexivity.
Qed.

(** Chunks that arrive together, in the order they were cut, give the message back. *)
Lemma ble_round_trip id data sender :
  (id < 2 ^ 256)%N -> data <> [] -> Z.of_nat (length (chunks BLE_MAX_PAYLOAD data)) < 2 ^ 32 ->
  reassemble_ble_chunks (fragment_for_ble id data) sender = Ok data.
Proof.
  intros Hid Hd Hlt. pose proof (parse_fragments id data Hid Hlt) as Hp.
  assert (complete id (fragment id data BLE_MAX_PAYLOAD)) as Hc
    by (apply fragment_complete; [done|unfold BLE_MAX_PAYLOAD, BLE_MAX_CHUNK_SIZE, BLE_CHUNK_HEADER_SIZE; lia|done]).
  unfold reassemble_ble_chunks. destruct (fragment_for_ble id data) as [|c0 cs] eqn:E.
  { simpl in Hp. injection Hp as Hp. destruct Hc as [Hn _]. rewrite <- Hp in Hn. simpl in Hn. lia. }
  assert (length (c0 :: cs) = length (fragment id data BLE_MAX_PAYLOAD)) as Hl.
  { rewrite <- E. unfold fragment_for_ble, fragment. rewrite bool_decide_false by done. cbn [orb].
    rewrite bool_decide_false by done. by rewrite !length_imap. }
  cbn [parse_all] in Hp |- *. destruct (parse_ble_chunk c0) as [f0|]; [|done]. cbn [mbind result_bind] in Hp |- *.
  destruct (parse_all cs) as [fs|]; [|done]. cbn [mbind result_bind] in Hp |- *. injection Hp as Hp.
  assert (total_fragments f0 = Z.of_nat (length (c0 :: cs))) as ->.
  { destruct Hc as [_ Hc]. destruct (Hc 0%nat f0) as (_ & _ & ->); [by rewrite <- Hp|]. by rewrite Hl. }
  rewrite Z.eqb_refl. cbn [negb]. rewrite (reassemble_complete id (fragment id data BLE_MAX_PAYLOAD)); [|done|by rewrite Hp].
  rewrite concat_payload_fragment; [reflexivity|done|].
  unfold BLE_MAX_PAYLOAD, BLE_MAX_CHUNK_SIZE, BLE_CHUNK_HEADER_SIZE. lia.
Qed.

(** The chunks of a message that needs several are reassembled one at a time: the receiving
    task never delivers it. *)
Lemma chunks_never_meet p chunk f :
  parse_ble_chunk chunk = Ok f -> total_fragments f <> 1 -> p !! delta_id f = None ->
  exists p' r, on_notification p chunk = (p', Some r) /\ is_ok r = false /\ p' !! delta_id f = None.
Proof.
  unfold on_notification, parse_ble_chunk. intros Hp Ht Hnone.
  destruct (length chunk <? BLE_CHUNK_HEADER_SIZE)%nat eqn:El; [done|].
  injection Hp as <-. simpl in *. rewrite Hnone, lookup_insert_eq. simpl.
  eexists _, _. split; [reflexivity|]. split; [|by rewrite lookup_delete_eq].
  unfold parse_ble_chunk. rewrite El. cbn [mbind result_bind total_fragments].
  destruct (of_le_bytes (take 4 (drop 36 chunk))) as [|q|q]; [reflexivity| |reflexivity].
  destruct (Pos.eqb_spec 1 q) as [<-|_]; [done|reflexivity].
Qed.
End Ble.

(** ** [message.rs] and [mod.rs] *)

(** The sender of a bounded channel of tokio: [try_send] queues the payload or gives it back. *)
Class Outbound (C : Type) := {
  try_send : C -> bytes -> C * bool;
  sent : C -> list bytes;
  try_send_ok c b c' : try_send c b = (c', true) -> sent c' = sent c ++ [b];
  try_send_full c b c' : try_send c b = (c', false) -> c' = c
}.

(** A channel nothing is received from: what it holds, and its capacity. *)
Definition bounded_channel : Outbound (nat * list bytes).
Proof.
  refine {| try_send c b := if (length c.2 <? c.1)%nat then ((c.1, c.2 ++ [b]), true) else (c, false);
    sent c := c.2 |}.
  - intros [n l] b c'. simpl. destruct (length l <? n)%nat; [|done]. by intros [= <-].
  - intros [n l] b c'. simpl. destruct (length l <? n)%nat; [done|]. by intros [= <-].
Defined.

Module Mesh.
Import Fragment Did Trust.

Inductive GossipMessage :=
| InboundDelta (delta : Delta)
| InboundDeltaFragment (frag : DeltaFragment)
| InboundDurabilityReceipt (receipt : Receipt.DurabilityReceipt)
| InboundRevocationDelta (rev_delta : Revocation.RevocationDelta)
| InboundMigrationDelta (mig_delta : Migration.MigrationDelta)
| InboundMigrationRevocationDelta (mig_rev : Migration.MigrationRevocationDelta)
| RelayDelta (target_did : Did) (delta : Delta).

(** The fields of [TransportConfig] that are read after the construction. *)
Record TransportConfig := mkConfig {
  retry_interval_secs : Z;
  mtu : nat
}.

Definition DEFAULT_LINK_CAPACITY_BYTES : Z := 1000000.

#[local] Existing Instance Saturate.SaturateState_eq_dec.

Section Transport.
Context `{!Bs58} `{!Ed25519} `{!BiscuitLib} `{!LruCache (string * string) Session.ResumptionCredential} `{!Noise}.
Context `{!HashIter N (list (option DeltaFragment))} `{!HashIter string Discovery.PeerState}.
Context {C : Type} `{!Outbound C}.
Context (delta_to_json : Delta -> option bytes) (delta_of_json : bytes -> option Delta).
Context (to_bytes : GossipMessage -> bytes) (from_bytes : bytes -> option GossipMessage).

Record MeshTransport := mkMesh {
  config : TransportConfig;
  discovery : Discovery.PeerDiscovery;
  session_manager : Session.SessionManager;
  reassembly_buffer : ReassemblyBuffer;
  local_did : Did;
  local_static_privkey : bytes;
  scheduler : Scheduler.DrrScheduler;
  outbound_tx : option C;
  ble_outbound_tx : option C;
  ble_inbound_rx : option (list GossipMessage);
  active_sessions : gmap string Session.NoiseSession;
  saturate : Saturate.SaturateModeStateMachine
}.

Definition set_discovery (t : MeshTransport) d : MeshTransport :=
  mkMesh (config t) d (session_manager t) (reassembly_buffer t) (local_did t) (local_static_privkey t) (scheduler t)
    (outbound_tx t) (ble_outbound_tx t) (ble_inbound_rx t) (active_sessions t) (saturate t).
Definition set_sessions (t : MeshTransport) m a : MeshTransport :=
  mkMesh (config t) (discovery t) m (reassembly_buffer t) (local_did t) (local_static_privkey t) (scheduler t)
    (outbound_tx t) (ble_outbound_tx t) (ble_inbound_rx t) a (saturate t).
Definition set_buffer (t : MeshTransport) b : MeshTransport :=
  mkMesh (config t) (discovery t) (session_manager t) b (local_did t) (local_static_privkey t) (scheduler t)
    (outbound_tx t) (ble_outbound_tx t) (ble_inbound_rx t) (active_sessions t) (saturate t).
Definition set_scheduler (t : MeshTransport) s : MeshTransport :=
  mkMesh (config t) (discovery t) (session_manager t) (reassembly_buffer t) (local_did t) (local_static_privkey t) s
    (outbound_tx t) (ble_outbound_tx t) (ble_inbound_rx t) (active_sessions t) (saturate t).
Definition set_tx (t : MeshTransport) c : MeshTransport :=
  mkMesh (config t) (discovery t) (session_manager t) (reassembly_buffer t) (local_did t) (local_static_privkey t)
    (scheduler t) c (ble_outbound_tx t) (ble_inbound_rx t) (active_sessions t) (saturate t).
Definition set_ble_tx (t : MeshTransport) c : MeshTransport :=
  mkMesh (config t) (discovery t) (session_manager t) (reassembly_buffer t) (local_did t) (local_static_privkey t)
    (scheduler t) (outbound_tx t) c (ble_inbound_rx t) (active_sessions t) (saturate t).
Definition set_ble_rx (t : MeshTransport) r : MeshTransport :=
  mkMesh (config t) (discovery t) (session_manager t) (reassembly_buffer t) (local_did t) (local_static_privkey t)
    (scheduler t) (outbound_tx t) (ble_outbound_tx t) r (active_sessions t) (saturate t).
Definition set_saturate (t : MeshTransport) m : MeshTransport :=
  mkMesh (config t) (discovery t) (session_manager t) (reassembly_buffer t) (local_did t) (local_static_privkey t)
    (scheduler t) (outbound_tx t) (ble_outbound_tx t) (ble_inbound_rx t) (active_sessions t) m.

Definition new (local : Did) (privkey : bytes) (max_hop timeout interval : Z) (max_queue mtu : nat)
    (rotation : Z) (threshold_m : nat) (root_ca : bytes) (lease_secs : Z) : MeshTransport :=
  mkMesh (mkConfig interval mtu) (Discovery.new max_hop timeout interval max_queue)
    (Session.new local rotation) (mkBuffer ∅) local privkey (Scheduler.new DEFAULT_LINK_CAPACITY_BYTES)
    None None None ∅ (Saturate.new (Nat.max threshold_m 1) root_ca (Z.max lease_secs 1)).

(** *** Peers, sessions, retries *)

Definition on_peer_discovered (t : MeshTransport) (p : Discovery.DiscoveredPeer) (now_us : Z) : MeshTransport :=
  set_discovery t (Discovery.on_peer_discovered (discovery t) p now_us).
Definition remove_peer (t : MeshTransport) (d : Did) : MeshTransport :=
  set_discovery t (Discovery.remove_peer (discovery t) d).
Definition dial_ble_bridge (t : MeshTransport) (target_did bridge_did : Did) (now_us : Z) : MeshTransport :=
  on_peer_discovered t (Discovery.mkPeer target_did (Discovery.BleBridge bridge_did) 1) now_us.
Definition tick_timeouts (t : MeshTransport) (now_us : Z) : MeshTransport :=
  set_discovery t (Discovery.tick_timeouts (discovery t) now_us).

Definition initiate_session {St} `{!NoiseStream St} (t : MeshTransport) (peer_did : Did)
    (peer_trust_level : TrustLevel) (privkey remote_static_pubkey : bytes) (stream : option St) (now_secs : Z)
  : MeshTransport * Res unit :=
  match Session.ed25519_privkey_to_x25519 privkey with
  | Err e => (t, Err e)
  | Ok x25519_local =>
      let register :=
        let '(m, s) := Session.register_session (session_manager t) peer_did now_secs in (m, Ok s) in
      let handshake pk :=
        let '(m, _, r) := Session.initiate (session_manager t) peer_did peer_trust_level x25519_local pk stream
                            now_secs in (m, r) in
      let '(m, r) :=
        if bool_decide (remote_static_pubkey = []) then
          match resolve_did peer_did with
          | Ok ed25519_pk =>
              match Session.ed25519_pubkey_to_x25519 ed25519_pk with
              | Ok x25519_pk => handshake x25519_pk
              | Err _ => register
              end
          | Err _ => register
          end
        else handshake remote_static_pubkey in
      match r with
      | Err e => (set_sessions t m (active_sessions t), Err e)
      | Ok session => (set_sessions t m (<[peer_did := session]> (active_sessions t)), Ok tt)
      end
  end.

(** [initiate_noise_session] of [api/mod.rs]: every connected peer counts as verified. *)
Definition initiate_noise_session {St} `{!NoiseStream St} (t : MeshTransport) (peer_did : Did)
    (stream : option St) (now_secs : Z) : MeshTransport :=
  (initiate_session t peer_did Verified (local_static_privkey t) [] stream now_secs).1.

Definition enqueue_retry (t : MeshTransport) (peer_did : Did) (delta_bytes : bytes) (now_us : Z) : MeshTransport :=
  set_discovery t (Discovery.enqueue_retry (discovery t)
    (Discovery.mkRetry peer_did delta_bytes
       (wrap_i64 (now_us + wrap_i64 (wrap_i64 (retry_interval_secs (config t)) * 1000000))) 1)).

Definition tick_key_rotation (t : MeshTransport) (now_secs : Z) : MeshTransport :=
  set_sessions t (session_manager t)
    ((fun s => if Session.rotation_due s now_secs then (Session.rotate_keys s now_secs).1 else s)
       <$> active_sessions t).

(** *** Saturate mode *)

Definition reconcile_scheduler_saturate_mode (t : MeshTransport) : MeshTransport :=
  set_scheduler t (Scheduler.set_saturate_mode (scheduler t)
    (bool_decide (Saturate.state (saturate t) = Saturate.Saturate))).

Definition on_success (t : MeshTransport) (r : Saturate.SaturateModeStateMachine * Res unit)
  : MeshTransport * Res unit :=
  match r with
  | (m, Err e) => (set_saturate t m, Err e)
  | (m, Ok _) => (reconcile_scheduler_saturate_mode (set_saturate t m), Ok tt)
  end.

Definition activate_saturate_mode (t : MeshTransport) (manager_did : Did) (biscuit_token : bytes) (now_secs : Z) :=
  on_success t (Saturate.activate (saturate t) manager_did biscuit_token now_secs).
Definition renew_saturate_mode (t : MeshTransport) (manager_did : Did) (biscuit_token : bytes) (now_secs : Z) :=
  on_success t (Saturate.renew (saturate t) manager_did biscuit_token now_secs).
Definition terminate_saturate_mode (t : MeshTransport) (signatures : list (Did * bytes)) (message : bytes)
    (now_secs : Z) :=
  on_success t (Saturate.terminate (saturate t) signatures message now_secs).
Definition tick_saturate (t : MeshTransport) (now_secs : Z) : MeshTransport :=
  reconcile_scheduler_saturate_mode (set_saturate t (Saturate.tick (saturate t) now_secs)).

(** *** Sending *)

Definition enqueue_outbound (t : MeshTransport) (delta : Delta) (now_us : Z) : MeshTransport :=
  let serialized_len := match delta_to_json delta with Some b => Z.of_nat (length b) | None => 0 end in
  set_scheduler t (Scheduler.enqueue (scheduler t) (Scheduler.mkQueued delta serialized_len now_us)).

Definition prepare_outbound (t : MeshTransport) (delta : Delta) : Res (list GossipMessage) :=
  match delta_to_json delta with
  | None => Err (DeltaMalformed "serialisation error")
  | Some bs =>
      if (0 <? mtu (config t))%nat && (mtu (config t) <? 256)%nat then
        Ok (map InboundDeltaFragment (fragment (d_id delta) bs (mtu (config t))))
      else Ok [InboundDelta delta]
  end.

(** The loops that forward messages: where the first refused payload stops them. *)
Fixpoint send_all (tx : C) (msgs : list GossipMessage) : C * nat * bool :=
  match msgs with
  | [] => (tx, 0%nat, true)
  | msg :: msgs =>
      match try_send tx (to_bytes msg) with
      | (tx, false) => (tx, 0%nat, false)
      | (tx, true) => let '(tx, n, ok) := send_all tx msgs in (tx, S n, ok)
      end
  end.

Definition unavailable {A} (reason : string) : Res A := Err (MeshUnavailable reason).
Definition no_channel : string := "transport not started (no outbound channel installed)".
Definition channel_unavailable : string := "outbound publish channel unavailable".

Definition send_on_channel (t : MeshTransport) (msgs : list GossipMessage) : MeshTransport * Res unit :=
  match outbound_tx t with
  | None => (t, unavailable no_channel)
  | Some tx =>
      let '(tx, _, ok) := send_all tx msgs in
      (set_tx t (Some tx), if ok then Ok tt else unavailable channel_unavailable)
  end.

Definition send_delta (t : MeshTransport) (peer_did : Did) (delta : Delta) : MeshTransport * Res unit :=
  if match Discovery.peer_transport (discovery t) peer_did with Some (Discovery.BleBridge _) => true | _ => false end
  then
    match prepare_outbound t delta with
    | Err e => (t, Err e)
    | Ok messages =>
        match ble_outbound_tx t with
        | None => (t, unavailable "BLE transport not initialised (outbound channel missing)")
        | Some tx =>
            let '(tx, _, ok) := send_all tx messages in
            (set_ble_tx t (Some tx), if ok then Ok tt else unavailable "BLE outbound channel unavailable")
        end
    end
  else
    match (if Discovery.is_direct_neighbor (discovery t) peer_did then None
           else Discovery.find_relay_peer (discovery t) peer_did) with
    | Some _ => send_on_channel t [RelayDelta peer_did delta]
    | None =>
        match prepare_outbound t delta with
        | Err e => (t, Err e)
        | Ok messages => send_on_channel t messages
        end
    end.

Definition send_receipt (t : MeshTransport) (receipt : Receipt.DurabilityReceipt) : MeshTransport * Res unit :=
  send_on_channel t [InboundDurabilityReceipt receipt].

(** The forwarding loop of [tick_scheduler], over the drained Deltas. *)
Fixpoint forward (t : MeshTransport) (tx : C) (drained : list Scheduler.QueuedDelta) (forwarded : nat)
  : MeshTransport * C * Res nat :=
  match drained with
  | [] => (t, tx, Ok forwarded)
  | queued :: drained =>
      match prepare_outbound t (Scheduler.delta queued) with
      | Err e => (t, tx, Err e)
      | Ok messages =>
          let '(tx, n, ok) := send_all tx messages in
          if ok then forward t tx drained (forwarded + n)
          else (set_scheduler t (Scheduler.enqueue (scheduler t) queued), tx, unavailable channel_unavailable)
      end
  end.

Definition tick_scheduler (t : MeshTransport) (link_capacity_bytes : Z) : MeshTransport * Res nat :=
  let '(s, drained) := Scheduler.tick (scheduler t) link_capacity_bytes in
  let t := set_scheduler t s in
  match drained with
  | [] => (t, Ok 0%nat)
  | _ =>
      match outbound_tx t with
      | None => (t, unavailable no_channel)
      | Some tx => let '(t, tx, r) := forward t tx drained 0 in (set_tx t (Some tx), r)
      end
  end.

(** One turn of [spawn_scheduler_tick_loop] of [api/mod.rs]. *)
Definition forward_retries (tx : C) (due : list Discovery.RetryEntry) : C :=
  foldl (fun tx e =>
    match delta_of_json (Discovery.delta_bytes e) with
    | None => tx
    | Some d => (try_send tx (to_bytes (InboundDelta d))).1
    end) tx due.

Definition scheduler_epoch (t : MeshTransport) (now_us now_secs : Z) : MeshTransport :=
  let t := tick_timeouts t now_us in
  let '(d, due) := Discovery.drain_due_retries (discovery t) now_us in
  let t := set_discovery t d in
  match due, outbound_tx t with
  | _ :: _, None => t
  | _, tx =>
      let t := match due, tx with
               | _ :: _, Some c => set_tx t (Some (forward_retries c due))
               | _, _ => t
               end in
      let t := tick_saturate t now_secs in
      let t := tick_key_rotation t now_secs in
      (tick_scheduler t DEFAULT_LINK_CAPACITY_BYTES).1
  end.

(** *** Receiving *)

Definition process_wire_message (t : MeshTransport) (msg : GossipMessage) : MeshTransport * option GossipMessage :=
  match msg with
  | InboundDeltaFragment frag =>
      let '(b, r) := add_fragment (reassembly_buffer t) frag "fragment-delta-" in
      (set_buffer t b,
       match r with
       | Ok (Some reassembled_bytes) => InboundDelta <$> delta_of_json reassembled_bytes
       | Ok None | Err _ => None
       end)
  | other => (t, Some other)
  end.

(** The arm of the Swarm task for a gossip message: what goes to the inbound channel. *)
Definition on_gossip (t : MeshTransport) (data : bytes) : MeshTransport * option GossipMessage :=
  match from_bytes data with
  | None => (t, None)
  | Some (RelayDelta target_did delta) =>
      if bool_decide (target_did = local_did t) then (t, Some (InboundDelta delta))
      else process_wire_message t (RelayDelta target_did delta)
  | Some msg => process_wire_message t msg
  end.

Fixpoint on_gossips (t : MeshTransport) (l : list bytes) : MeshTransport * list (option GossipMessage) :=
  match l with
  | [] => (t, [])
  | b :: l =>
      let '(t, r) := on_gossip t b in
      let '(t, rs) := on_gossips t l in (t, r :: rs)
  end.

(** What a release build does with Bluetooth messages: the processed message is dropped. *)
Definition poll_ble_inbound (t : MeshTransport) : MeshTransport :=
  match ble_inbound_rx t with
  | None => t
  | Some rx => set_ble_rx (foldl (fun t msg => (process_wire_message t msg).1) t rx) (Some [])
  end.

Definition receive_delta (t : MeshTransport) (bs : bytes) : MeshTransport * Res unit :=
  match from_bytes bs with
  | None => (t, unavailable "receive_delta: bytes could not be deserialised as GossipMessage")
  | Some msg => ((process_wire_message t msg).1, Ok tt)
  end.

(** *** The scheduler flag *)

Definition mirrors (t : MeshTransport) : Prop :=
  Scheduler.saturate_mode (scheduler t) = bool_decide (Saturate.state (saturate t) = Saturate.Saturate).

(** [t'] differs from [t] in neither the saturate machine nor the scheduler flag. *)
Definition same_mode (t t' : MeshTransport) : Prop :=
  saturate t' = saturate t /\ Scheduler.saturate_mode (scheduler t') = Scheduler.saturate_mode (scheduler t).

Lemma same_mode_mirrors t t' : same_mode t t' -> mirrors t -> mirrors t'.
Proof. unfold mirrors. intros [-> ->]. done. Qed.
Lemma same_mode_trans t1 t2 t3 : same_mode t1 t2 -> same_mode t2 t3 -> same_mode t1 t3.
Proof. unfold same_mode. intros [-> ->] [-> ->]. done. Qed.

Lemma reconcile_mirrors t : mirrors (reconcile_scheduler_saturate_mode t).
Proof. done. Qed.

Lemma tick_flag s cap : Scheduler.saturate_mode (Scheduler.tick s cap).1 = Scheduler.saturate_mode s.
Proof.
  unfold Scheduler.tick. destruct (Scheduler.saturate_mode s) eqn:E.
  - by destruct (Scheduler.drain_queue _ _ _) as [[a b] c].
  - destruct (Scheduler.drain_queue (Scheduler.high_queue s) _ _) as [[a1 b1] c1].
    destruct (Scheduler.drain_queue (Scheduler.medium_queue s) _ _) as [[a2 b2] c2].
    destruct (Scheduler.drain_queue (Scheduler.low_queue s) _ _) as [[a3 b3] c3].
    repeat (match goal with |- context [Scheduler.drain_spare ?x ?y ?z] =>
      destruct (Scheduler.drain_spare x y z) as [[[? ?] ?] ?] end). done.
Qed.

Lemma forward_mode drained t tx n : same_mode t (forward t tx drained n).1.1.
Proof.
  revert tx n. induction drained as [|q drained IH]; intros tx n; simpl; [done|].
  destruct (prepare_outbound t _) as [msgs|]; [|done].
  destruct (send_all tx msgs) as [[tx' k] [|]]; [apply IH|]. split; [done|]. simpl. apply Scheduler.enqueue_saturate.
Qed.

Lemma tick_scheduler_mode t cap : same_mode t (tick_scheduler t cap).1.
Proof.
  unfold tick_scheduler. pose proof (tick_flag (scheduler t) cap) as Hf.
  destruct (Scheduler.tick (scheduler t) cap) as [s drained]. simpl in Hf.
  assert (same_mode t (set_scheduler t s)) as Hs by (split; [done|exact Hf]).
  destruct drained as [|q drained]; [done|]. destruct (outbound_tx _) as [tx|]; [|done].
  pose proof (forward_mode (q :: drained) (set_scheduler t s) tx 0) as Hfw.
  destruct (forward _ tx (q :: drained) 0) as [[t' tx'] r]. simpl in *.
  by eapply same_mode_trans.
Qed.

Lemma process_mode t msg : same_mode t (process_wire_message t msg).1.
Proof. destruct msg; try done. simpl. by destruct (add_fragment _ _ _) as [b r]. Qed.

Lemma poll_mode t : same_mode t (poll_ble_inbound t).
Proof.
  unfold poll_ble_inbound. destruct (ble_inbound_rx t) as [rx|]; [|done].
  assert (forall t', same_mode t t' -> same_mode t (foldl (fun t msg => (process_wire_message t msg).1) t' rx)) as Hf.
  { induction rx as [|m rx IH]; intros t' Ht'; [done|]. simpl. apply IH.
    eapply same_mode_trans; [done|apply process_mode]. }
  specialize (Hf t (conj eq_refl eq_refl)). destruct Hf as [? ?]. split; done.
Qed.

Lemma send_on_channel_mode t msgs : same_mode t (send_on_channel t msgs).1.
Proof. unfold send_on_channel. destruct (outbound_tx t); [|done]. by destruct (send_all _ _) as [[? ?] ?]. Qed.

Lemma send_delta_mode t p d : same_mode t (send_delta t p d).1.
Proof.
  unfold send_delta. destruct (match Discovery.peer_transport _ _ with Some _ => _ | None => _ end).
  - destruct (prepare_outbound t d); [|done]. destruct (ble_outbound_tx t); [|done].
    by destruct (send_all _ _) as [[? ?] ?].
  - destruct (if Discovery.is_direct_neighbor _ _ then None else _); [apply send_on_channel_mode|].
    destruct (prepare_outbound t d); [apply send_on_channel_mode|done].
Qed.

Lemma on_success_mirrors t r :
  mirrors t -> (forall e, r.2 = Err e -> r.1 = saturate t) -> mirrors (on_success t r).1.
Proof.
  destruct r as [m [u|e]]; simpl; intros Hm Hr; [apply reconcile_mirrors|].
  rewrite (Hr e eq_refl). by destruct t.
Qed.

Lemma initiate_session_mode {St} `{!NoiseStream St} t p trust priv pub (stream : option St) now :
  same_mode t (initiate_session t p trust priv pub stream now).1.
Proof.
  unfold initiate_session. destruct (Session.ed25519_privkey_to_x25519 priv); [|done].
  match goal with |- context [let '(m, r) := ?x in _] => destruct x as [m [s|e]] end; done.
Qed.

Inductive Op :=
| PeerDiscovered (p : Discovery.DiscoveredPeer) (now_us : Z)
| RemovePeer (d : Did)
| DialBle (target bridge : Did) (now_us : Z)
| InitiateSession (peer_did : Did) (trust : TrustLevel) (privkey pubkey : bytes) (stream : option bytes) (now_secs : Z)
| EnqueueRetry (peer_did : Did) (delta_bytes : bytes) (now_us : Z)
| ActivateSaturate (manager : Did) (token : bytes) (now_secs : Z)
| RenewSaturate (manager : Did) (token : bytes) (now_secs : Z)
| TerminateSaturate (signatures : list (Did * bytes)) (message : bytes) (now_secs : Z)
| EnqueueOutbound (delta : Delta) (now_us : Z)
| SendDelta (peer_did : Did) (delta : Delta)
| SendReceipt (receipt : Receipt.DurabilityReceipt)
| Epoch (now_us now_secs : Z)
| Gossip (data : bytes)
| PollBle
| ReceiveBle (data : bytes).

Definition exec `{!NoiseStream bytes} (t : MeshTransport) (op : Op) : MeshTransport :=
  match op with
  | PeerDiscovered p now => on_peer_discovered t p now
  | RemovePeer d => remove_peer t d
  | DialBle target bridge now => dial_ble_bridge t target bridge now
  | InitiateSession p trust priv pub stream now => (initiate_session t p trust priv pub stream now).1
  | EnqueueRetry p b now => enqueue_retry t p b now
  | ActivateSaturate m token now => (activate_saturate_mode t m token now).1
  | RenewSaturate m token now => (renew_saturate_mode t m token now).1
  | TerminateSaturate sigs msg now => (terminate_saturate_mode t sigs msg now).1
  | EnqueueOutbound d now => enqueue_outbound t d now
  | SendDelta p d => (send_delta t p d).1
  | SendReceipt r => (send_receipt t r).1
  | Epoch now_us now_secs => scheduler_epoch t now_us now_secs
  | Gossip data => (on_gossip t data).1
  | PollBle => poll_ble_inbound t
  | ReceiveBle data => (receive_delta t data).1
  end.

Lemma saturate_err_same s r : forall e,
  (exists m token now, r = Saturate.activate s m token now) \/ (exists m token now, r = Saturate.renew s m token now) \/
  (exists sigs msg now, r = Saturate.terminate s sigs msg now) -> r.2 = Err e -> r.1 = s.
Proof.
  intros e [(m & token & now & ->)|[(m & token & now & ->)|(sigs & msg & now & ->)]].
  - unfold Saturate.activate. by destruct (Saturate.verify_disaster_alert_token s token now).
  - unfold Saturate.renew. case_decide; [done|].
    destruct (Saturate.verify_disaster_alert_token s token now); [|done]. by destruct (Saturate.lease s).
  - unfold Saturate.terminate. case_decide; [done|]. by destruct (_ <? _)%nat.
Qed.

Lemma epoch_mirrors t now_us now_secs : mirrors t -> mirrors (scheduler_epoch t now_us now_secs).
Proof.
  intros Hm. unfold scheduler_epoch.
  destruct (Discovery.drain_due_retries _ _) as [d due].
  set (t1 := set_discovery _ d). assert (mirrors t1) as H1' by exact Hm.
  assert (forall t2, mirrors (tick_scheduler (tick_key_rotation (tick_saturate t2 now_secs) now_secs)
    DEFAULT_LINK_CAPACITY_BYTES).1) as Ht.
  { intros t2. eapply same_mode_mirrors; [apply tick_scheduler_mode|].
    exact (reconcile_mirrors (set_saturate t2 _)). }
  destruct due as [|e due]; [apply Ht|]. destruct (outbound_tx t1); [apply Ht|done].
Qed.

Lemma exec_mirrors `{!NoiseStream bytes} t op : mirrors t -> mirrors (exec t op).
Proof.
  intros Hm. destruct op; try exact Hm; cbn [exec].
  - eapply same_mode_mirrors; [apply initiate_session_mode|done].
  - apply on_success_mirrors; [done|]. intros e. apply saturate_err_same. eauto 10.
  - apply on_success_mirrors; [done|]. intros e. apply saturate_err_same. eauto 10.
  - apply on_success_mirrors; [done|]. intros e. apply saturate_err_same. eauto 10.
  - eapply same_mode_mirrors; [|done]. split; [done|]. apply Scheduler.enqueue_saturate.
  - eapply same_mode_mirrors; [apply send_delta_mode|done].
  - eapply same_mode_mirrors; [apply send_on_channel_mode|done].
  - by apply epoch_mirrors.
  - eapply same_mode_mirrors; [|done]. unfold on_gossip. destruct (from_bytes data) as [[]|];
      try done; try apply process_mode. case_bool_decide; [done|apply process_mode].
  - eapply same_mode_mirrors; [apply poll_mode|done].
  - unfold receive_delta. destruct (from_bytes data); [|done].
    eapply same_mode_mirrors; [apply process_mode|done].
Qed.

(** The scheduler is a mirror.  After any history of operations the scheduler gives everything
    to the HIGH class exactly when the saturate machine holds a lease. *)
Theorem scheduler_mirrors_saturate `{!NoiseStream bytes} local priv max_hop timeout interval max_queue mtu
    rotation m root_ca lease_secs ops :
  let t := foldl exec (new local priv max_hop timeout interval max_queue mtu rotation m root_ca lease_secs) ops in
  Scheduler.saturate_mode (scheduler t) = true <-> Saturate.state (saturate t) = Saturate.Saturate.
Proof.
  intros t. assert (mirrors t) as Ht.
  { unfold t. generalize (reconcile_mirrors (new local priv max_hop timeout interval max_queue mtu rotation m root_ca lease_secs)).
    change (mirrors (reconcile_scheduler_saturate_mode ?x)) with (mirrors x).
    generalize (new local priv max_hop timeout interval max_queue mtu rotation m root_ca lease_secs).
    induction ops as [|op ops IH]; intros t0 H0'; [done|]. simpl. apply IH. by apply exec_mirrors. }
  rewrite Ht. apply bool_decide_eq_true.
Qed.

(** *** From the sender's channel to the receiver's pipeline *)

Lemma send_all_spec tx msgs tx' n ok :
  send_all tx msgs = (tx', n, ok) ->
  exists pre post, msgs = pre ++ post /\ n = length pre /\ sent tx' = sent tx ++ map to_bytes pre /\
    (ok = true <-> post = []).
Proof.
  revert tx tx' n ok. induction msgs as [|m msgs IH]; intros tx tx' n ok; simpl.
  { intros [= <- <- <-]. exists [], []. repeat split; try done. symmetry. apply app_nil_r. }
  destruct (try_send tx (to_bytes m)) as [tx1 [|]] eqn:Hs.
  - destruct (send_all tx1 msgs) as [[tx2 n2] ok2] eqn:Hr. intros [= <- <- <-].
    apply IH in Hr as (pre & post & -> & -> & Hsent & Hok). exists (m :: pre), post.
    split; [done|]. split; [done|]. split; [|done].
    rewrite Hsent, (try_send_ok _ _ _ Hs). simpl. by rewrite <- app_assoc.
  - intros [= <- <- <-]. exists [], (m :: msgs). apply try_send_full in Hs as ->. repeat split; try done.
    symmetry. apply app_nil_r.
Qed.

Lemma send_on_channel_ok t msgs t' tx :
  outbound_tx t = Some tx -> send_on_channel t msgs = (t', Ok tt) ->
  exists tx', t' = set_tx t (Some tx') /\ sent tx' = sent tx ++ map to_bytes msgs.
Proof.
  unfold send_on_channel. intros ->. destruct (send_all tx msgs) as [[tx' n] ok] eqn:Hs.
  destruct ok; [|done]. intros [= <-]. exists tx'. split; [done|].
  apply send_all_spec in Hs as (pre & post & -> & _ & -> & Hok).
  rewrite (proj1 Hok eq_refl), app_nil_r. done.
Qed.

(** What the receiver makes of the answer of its reassembly buffer. *)
Definition delivered (r : Res (option bytes)) : option GossipMessage :=
  match r with Ok (Some b) => InboundDelta <$> delta_of_json b | _ => None end.

Definition readable (m : GossipMessage) : Prop := from_bytes (to_bytes m) = Some m.

Lemma on_gossips_fragments r fs :
  Forall (fun f => readable (InboundDeltaFragment f)) fs ->
  on_gossips r (map (fun f => to_bytes (InboundDeltaFragment f)) fs) =
    let '(b, rs) := add_fragments (reassembly_buffer r) fs "fragment-delta-" in
    (set_buffer r b, map delivered rs).
Proof.
  intros Hw. revert r. induction Hw as [|f fs Hf _ IH]; intros r; [by destruct r|].
  simpl. unfold on_gossip. rewrite Hf. simpl.
  destruct (add_fragment (reassembly_buffer r) f _) as [b x]. rewrite IH.
  change (reassembly_buffer (set_buffer r b)) with b.
  by destruct (add_fragments b fs _) as [b' rs].
Qed.

Lemma sub_map {A B} (f : A -> B) (l : list B) (k : list A) :
  l ⊆ map f k -> exists lk, l = map f lk /\ lk ⊆ k.
Proof.
  induction l as [|x l IH]; intros Hl; [exists []; by split; [|apply list_subseteq_nil]|].
  destruct IH as (lk & -> & Hlk); [intros y Hy; apply Hl; by right|].
  assert (x ∈ f <$> k) as (a & -> & Ha)%list_elem_of_fmap by (apply (Hl x); left).
  exists (a :: lk). split; [done|]. intros y [->|Hy]%elem_of_cons; [done|by apply Hlk].
Qed.

Lemma map_sub {A B} (f : A -> B) (l k : list A) : l ⊆ k -> map f l ⊆ map f k.
Proof. intros Hl y (a & -> & Ha)%list_elem_of_fmap. apply list_elem_of_fmap_2. by apply Hl. Qed.

Lemma map_sub_inv {A B} (f : A -> B) (l k : list A) :
  (forall x y, x ∈ l -> y ∈ k -> f x = f y -> x = y) -> map f l ⊆ map f k -> l ⊆ k.
Proof.
  intros Hf Hl x Hx. assert (f x ∈ map f k) as (y & Hy & Hk)%list_elem_of_fmap
    by (apply Hl; by apply list_elem_of_fmap_2).
  by rewrite (Hf x y Hx Hk Hy).
Qed.

Lemma fragments_arrive d bs r l w (n : nat) :
  delta_of_json bs = Some d -> bs <> [] -> (0 < n)%nat ->
  Z.of_nat (length (chunks n bs)) <= MAX_FRAGMENTS_PER_DELTA ->
  Forall (fun f => readable (InboundDeltaFragment f)) (fragment (d_id d) bs n) ->
  pending (reassembly_buffer r) !! d_id d = None ->
  let ws := map (fun f => to_bytes (InboundDeltaFragment f)) (fragment (d_id d) bs n) in
  l ⊆ ws -> w ∈ ws -> ~ ws ⊆ l -> ws ⊆ l ++ [w] ->
  exists r', on_gossips r (l ++ [w]) = (r', replicate (length l) None ++ [Some (InboundDelta d)]) /\
    pending (reassembly_buffer r') !! d_id d = None.
Proof.
  intros Hj Hb Hn Hmax Hread Hnone ws Hl Hw Hnot Hall. unfold ws in *. clear ws.
  apply sub_map in Hl as (lf & -> & Hlf). apply list_elem_of_fmap in Hw as (f & -> & Hf).
  rewrite Forall_forall in Hread.
  change [to_bytes (InboundDeltaFragment f)] with (map (fun f => to_bytes (InboundDeltaFragment f)) [f]) in *.
  rewrite <- map_app in *.
  assert (lf ++ [f] ⊆ fragment (d_id d) bs n) as Hsub.
  { intros x [Hx|Hx]%elem_of_app; [by apply Hlf|]. by apply list_elem_of_singleton in Hx as ->. }
  assert (fragment (d_id d) bs n ⊆ lf ++ [f]) as Hall'.
  { eapply map_sub_inv; [|exact Hall]. intros x y Hx Hy Heq.
    pose proof (Hread x Hx) as Rx. pose proof (Hread y (Hsub _ Hy)) as Ry. unfold readable in *.
    rewrite Heq in Rx. congruence. }
  destruct (buffer_delivers_spec (d_id d) bs n (reassembly_buffer r) lf f "fragment-delta-")
    as (b & Hb' & Hn'); try done.
  { intros Hs. apply Hnot. by apply map_sub. }
  rewrite on_gossips_fragments, Hb'.
  - exists (set_buffer r b). split; [|exact Hn']. f_equal. rewrite map_app, length_map. f_equal.
    + clear. induction (length lf); simpl; congruence.
    + simpl. by rewrite Hj.
  - apply Forall_forall. intros x Hx. apply Hread. by apply Hsub.
Qed.

(** Whole payloads: one message is the set. *)
Lemma whole_arrives d r l w :
  readable (InboundDelta d) ->
  let ws := [to_bytes (InboundDelta d)] in
  l ⊆ ws -> w ∈ ws -> ~ ws ⊆ l ->
  on_gossips r (l ++ [w]) = (r, replicate (length l) None ++ [Some (InboundDelta d)]).
Proof.
  intros Hread ws Hl Hw Hnot. unfold ws in *. apply list_elem_of_singleton in Hw as ->.
  destruct l as [|x l].
  - simpl. unfold on_gossip. rewrite Hread. done.
  - exfalso. apply Hnot. intros y ->%list_elem_of_singleton.
    assert (x ∈ [to_bytes (InboundDelta d)]) as ->%list_elem_of_singleton by (apply Hl; left). left.
Qed.

Definition direct_route (t : MeshTransport) (peer_did : Did) : Prop :=
  (forall b, Discovery.peer_transport (discovery t) peer_did <> Some (Discovery.BleBridge b)) /\
  (if Discovery.is_direct_neighbor (discovery t) peer_did then None
   else Discovery.find_relay_peer (discovery t) peer_did) = None.

Lemma send_delta_direct t p d : direct_route t p ->
  send_delta t p d = match prepare_outbound t d with Err e => (t, Err e) | Ok messages => send_on_channel t messages end.
Proof.
  intros [Hb Hr]. unfold send_delta. rewrite Hr.
  destruct (Discovery.peer_transport _ _) as [[]|] eqn:E; try done. by destruct (Hb bridge_did).
Qed.

(** C17: delivery.  The payloads a successful [send_delta] puts on the channel reach a receiver in
    any order and with repetitions: its pipeline is handed the Delta exactly when the last of
    them comes in, whole or fragmented, and the reassembly slots are free again. *)
Theorem sent_delta_arrives t p d bs t' tx r :
  outbound_tx t = Some tx -> direct_route t p ->
  delta_to_json d = Some bs -> delta_of_json bs = Some d -> bs <> [] ->
  (forall msgs, prepare_outbound t d = Ok msgs -> Forall readable msgs) ->
  ((0 < mtu (config t) < 256)%nat -> Z.of_nat (length (chunks (mtu (config t)) bs)) <= MAX_FRAGMENTS_PER_DELTA) ->
  send_delta t p d = (t', Ok tt) -> pending (reassembly_buffer r) !! d_id d = None ->
  exists tx' ws, t' = set_tx t (Some tx') /\ sent tx' = sent tx ++ ws /\
    forall l w, l ⊆ ws -> w ∈ ws -> ~ ws ⊆ l -> ws ⊆ l ++ [w] ->
    exists r', on_gossips r (l ++ [w]) = (r', replicate (length l) None ++ [Some (InboundDelta d)]) /\
      pending (reassembly_buffer r') !! d_id d = None.
Proof.
  intros Htx Hroute Hto Hof Hb Hread Hmax Hsend Hnone. rewrite send_delta_direct in Hsend by done.
  destruct (prepare_outbound t d) as [msgs|e] eqn:Hp; [|done]. specialize (Hread msgs eq_refl).
  destruct (send_on_channel_ok t msgs t' tx Htx Hsend) as (tx' & -> & Hs).
  exists tx', (map to_bytes msgs). split; [done|]. split; [done|].
  unfold prepare_outbound in Hp. rewrite Hto in Hp.
  destruct (Nat.ltb_spec 0 (mtu (config t))) as [Hm|Hm]; simpl in Hp; [destruct (Nat.ltb_spec (mtu (config t)) 256)|];
    injection Hp as <-.
  - intros l w. rewrite map_map. intros. apply fragments_arrive with (bs := bs) (n := mtu (config t)); try done.
    + apply Hmax. lia.
    + by rewrite Forall_map in Hread.
  - intros l w Hl Hw Hnot _. exists r. split; [|done]. apply whole_arrives; try done. by apply Forall_singleton.
  - intros l w Hl Hw Hnot _. exists r. split; [|done]. apply whole_arrives; try done. by apply Forall_singleton.
Qed.

(** *** What one turn of the scheduler does with the Deltas it drains *)

Definition messages_of (t : MeshTransport) (q : Scheduler.QueuedDelta) : list GossipMessage :=
  match prepare_outbound t (Scheduler.delta q) with Ok ms => ms | Err _ => [] end.
Definition preparable (t : MeshTransport) (q : Scheduler.QueuedDelta) : Prop :=
  is_ok (prepare_outbound t (Scheduler.delta q)) = true.

(** The turn stopped at [q]: what came before it was sent, [q] itself was refused part-way. *)
Definition stopped_at (t : MeshTransport) (s : Scheduler.DrrScheduler) (tx : C) (pre : list Scheduler.QueuedDelta)
    (q : Scheduler.QueuedDelta) (t' : MeshTransport) (tx' : C) (e : TirBaseError) : Prop :=
  Forall (preparable t) pre /\
  ((prepare_outbound t (Scheduler.delta q) = Err e /\ scheduler t' = s /\
      sent tx' = sent tx ++ map to_bytes (concat (map (messages_of t) pre))) \/
   exists b c, messages_of t q = b ++ c /\ c <> [] /\ scheduler t' = Scheduler.enqueue s q /\
      sent tx' = sent tx ++ map to_bytes (concat (map (messages_of t) pre) ++ b)).

Lemma forward_spec drained t tx n t' tx' r :
  forward t tx drained n = (t', tx', r) ->
  match r with
  | Ok k => t' = t /\ Forall (preparable t) drained /\
      sent tx' = sent tx ++ map to_bytes (concat (map (messages_of t) drained)) /\
      k = (n + length (concat (map (messages_of t) drained)))%nat
  | Err e => exists pre q post, drained = pre ++ q :: post /\ stopped_at t (scheduler t) tx pre q t' tx' e
  end.
Proof.
  revert tx n. induction drained as [|q drained IH]; intros tx n; simpl.
  { intros [= <- <- <-]. simpl. rewrite app_nil_r. repeat split; [done|lia]. }
  destruct (prepare_outbound t (Scheduler.delta q)) as [ms|e] eqn:Hp.
  2: { intros [= <- <- <-]. exists [], q, drained. split; [done|]. split; [done|]. left.
       split; [done|]. split; [done|]. symmetry. apply app_nil_r. }
  assert (messages_of t q = ms) as Hm by (unfold messages_of; by rewrite Hp).
  assert (preparable t q) as Hq by (unfold preparable; by rewrite Hp).
  destruct (send_all tx ms) as [[tx1 k1] ok] eqn:Hs.
  apply send_all_spec in Hs as (b & c & -> & -> & Hsent & Hok). destruct ok.
  - rewrite (proj1 Hok eq_refl), app_nil_r in *. intros Hf%IH. rewrite Hm. destruct r as [k|e].
    + destruct Hf as (-> & Hall & Hs' & ->). split; [done|]. split; [by constructor|].
      split; [|rewrite length_app; lia]. by rewrite Hs', Hsent, map_app, app_assoc.
    + destruct Hf as (pre & q' & post & -> & Hall & Hcase). exists (q :: pre), q', post. split; [done|].
      split; [by constructor|]. cbn [map concat]. rewrite Hm.
      destruct Hcase as [(? & ? & Hs')|(b' & c' & ? & ? & ? & Hs')]; [left|right].
      * rewrite Hs', Hsent, map_app, app_assoc. done.
      * exists b', c'. by rewrite Hs', Hsent, !map_app, !app_assoc.
  - intros [= <- <- <-]. exists [], q, drained. split; [done|]. split; [done|]. right.
    exists b, c. repeat split; [done| |done]. intros ->. destruct Hok as [_ Hok]. by specialize (Hok eq_refl).
Qed.

(** One turn of the scheduler, accounted for.  A turn that answers [Ok n] put the [n] payloads
    of every drained Delta on the channel, in the order they were drained.  A turn that fails
    either had no channel, and then every drained Delta is gone from the queues unsent, or it
    stopped at one Delta: those before it were sent in full, that one is back in its queue if
    the channel refused it and gone if it could not be serialised, and those after it are
    neither on the channel nor in a queue. *)
Theorem tick_scheduler_outcome t cap s drained t' r :
  Scheduler.tick (scheduler t) cap = (s, drained) -> tick_scheduler t cap = (t', r) ->
  match r with
  | Ok n => scheduler t' = s /\
      (drained = [] /\ n = 0%nat /\ outbound_tx t' = outbound_tx t \/
       exists tx tx', outbound_tx t = Some tx /\ outbound_tx t' = Some tx' /\ Forall (preparable t) drained /\
         sent tx' = sent tx ++ map to_bytes (concat (map (messages_of t) drained)) /\
         n = length (concat (map (messages_of t) drained)))
  | Err e => drained <> [] /\
      (outbound_tx t = None /\ t' = set_scheduler t s \/
       exists tx tx' pre q post, outbound_tx t = Some tx /\ outbound_tx t' = Some tx' /\
         drained = pre ++ q :: post /\ stopped_at t s tx pre q t' tx' e)
  end.
Proof.
  intros Htick. unfold tick_scheduler. rewrite Htick. destruct drained as [|q0 drained].
  { intros [= <- <-]. split; [done|]. by left. }
  change (outbound_tx (set_scheduler t s)) with (outbound_tx t).
  destruct (outbound_tx t) as [tx|]; [|intros [= <- <-]; split; [done|by left]].
  destruct (forward (set_scheduler t s) tx (q0 :: drained) 0) as [[t1 tx1] r1] eqn:Hf.
  intros [= <- <-]. apply forward_spec in Hf. destruct r1 as [k|e].
  - destruct Hf as (-> & Hall & Hs & ->). split; [done|]. right. exists tx, tx1. done.
  - destruct Hf as (pre & q & post & Hd & Hst). split; [done|]. right. exists tx, tx1, pre, q, post. done.
Qed.

(** A node that is a direct neighbour of nobody and knows a relay wraps the Deltas it addresses
    to its own DID for itself: to every other node the wrapped message stays a [RelayDelta]. *)
Lemma relayed_to_author t relay d :
  Discovery.peer_transport (discovery t) (local_did t) = None ->
  Discovery.is_direct_neighbor (discovery t) (local_did t) = false ->
  Discovery.find_relay_peer (discovery t) (local_did t) = Some relay ->
  readable (RelayDelta (local_did t) d) ->
  send_delta t (local_did t) d = send_on_channel t [RelayDelta (local_did t) d] /\
  forall r, local_did r <> local_did t ->
    on_gossip r (to_bytes (RelayDelta (local_did t) d)) = (r, Some (RelayDelta (local_did t) d)).
Proof.
  intros Hp Hd Hr Hread. split.
  - unfold send_delta. by rewrite Hp, Hd, Hr.
  - intros r Hne. unfold on_gossip. rewrite Hread. by rewrite bool_decide_false by congruence.
Qed.

(** A Delta of more fragments than a slot may have is never assembled, whatever arrives. *)
Lemma oversized_never_arrives r id bs n fs :
  bs <> [] -> (0 < n)%nat -> MAX_FRAGMENTS_PER_DELTA < Z.of_nat (length (chunks n bs)) < 2 ^ 32 ->
  Forall (fun f => f ∈ fragment id bs n /\ readable (InboundDeltaFragment f)) fs ->
  on_gossips r (map (fun f => to_bytes (InboundDeltaFragment f)) fs) = (r, replicate (length fs) None).
Proof.
  intros Hb Hn Hmax. induction 1 as [|f fs [Hf Hread] _ IH]; [done|].
  simpl. unfold on_gossip. rewrite Hread. simpl.
  assert (total_fragments f = Z.of_nat (length (chunks n bs))) as Ht.
  { apply list_elem_of_lookup in Hf as [i Hf]. unfold fragment in Hf.
    rewrite (bool_decide_false (bs = [])), (bool_decide_false (n = 0%nat)) in Hf by (done || lia).
    simpl in Hf. rewrite list_lookup_imap in Hf.
    destruct (chunks n bs !! i) as [c|]; [|done]. injection Hf as <-. simpl.
    unfold wrap_u32. apply Z.mod_small. lia. }
  unfold add_fragment. rewrite Ht. destruct (Z.ltb_spec MAX_FRAGMENTS_PER_DELTA (Z.of_nat (length (chunks n bs)))); [|lia].
  destruct r as [? ? ? [buf] ? ? ? ? ? ? ? ?]. unfold set_buffer in *. cbn in *. by rewrite IH.
Qed.
End Transport.
End Mesh.

(** ** Concrete inputs *)

Section Witnesses.
#[local] Existing Instance toy_bs58.
#[local] Existing Instance toy_ed25519.
#[local] Existing Instance toy_biscuit.
#[local] Existing Instance toy_noise.
#[local] Existing Instance buffer_stream.
#[local] Existing Instance bounded_channel.
#[local] Existing Instance hash_iter_canonical.
#[local] Instance toy_cache : LruCache (string * string) Session.ResumptionCredential := list_lru.

Definition toy_delta (id : N) : Delta := mkDelta id "did:key:z1" [] 0 [] High [] [] 0 0.

(** Delta 7 is the five bytes [1..5]; other Deltas are the bytes of their id. *)
Definition toy_to_json (d : Delta) : option (list N) :=
  Some (if bool_decide (d_id d = 7%N) then [1; 2; 3; 4; 5]%N else [d_id d]).
Definition toy_of_json (b : list N) : option Delta :=
  match b with
  | [1; 2; 3; 4; 5]%N => Some (toy_delta 7)
  | [x] => Some (toy_delta x)
  | _ => None
  end.

(** The two messages the examples send, as a tag and the fields. *)
Definition toy_to_bytes (m : Mesh.GossipMessage) : list N :=
  match m with
  | Mesh.InboundDelta d => [0; d_id d]%N
  | Mesh.InboundDeltaFragment f =>
      1%N :: Fragment.delta_id f :: Z.to_N (Fragment.fragment_index f) :: Z.to_N (Fragment.total_fragments f) ::
        Fragment.payload f
  | _ => [2%N]
  end.
Definition toy_from_bytes (b : list N) : option Mesh.GossipMessage :=
  match b with
  | [0; x]%N => Some (Mesh.InboundDelta (toy_delta x))
  | 1%N :: id :: i :: n :: p => Some (Mesh.InboundDeltaFragment (Fragment.mkFragment id (Z.of_N i) (Z.of_N n) p))
  | _ => None
  end.

Definition toy_mesh (mtu : nat) : @Mesh.MeshTransport toy_cache toy_noise (nat * list (list N)) :=
  Mesh.set_tx (Mesh.new "did:key:z1" [] 3 60 5 10 mtu 3600 1 [] 60) (Some (10%nat, [])).

(** A five-byte Delta at an MTU of two: three fragments, in any order. *)
Lemma sent_delta_arrives_witness :
  exists tx' ws, (Mesh.send_delta toy_to_json toy_to_bytes (toy_mesh 2) "did:key:z2" (toy_delta 7)).1 =
      Mesh.set_tx (toy_mesh 2) (Some tx') /\ sent tx' = sent (10%nat, []) ++ ws /\
    forall l w, l ⊆ ws -> w ∈ ws -> ~ ws ⊆ l -> ws ⊆ l ++ [w] ->
    exists r', Mesh.on_gossips toy_of_json toy_from_bytes (toy_mesh 0) (l ++ [w]) =
        (r', replicate (length l) None ++ [Some (Mesh.InboundDelta (toy_delta 7))]) /\
      Fragment.pending (Mesh.reassembly_buffer r') !! d_id (toy_delta 7) = None.
Proof.
  apply (Mesh.sent_delta_arrives toy_to_json toy_of_json toy_to_bytes toy_from_bytes (toy_mesh 2) "did:key:z2"
    (toy_delta 7) [1; 2; 3; 4; 5]%N
    (Mesh.send_delta toy_to_json toy_to_bytes (toy_mesh 2) "did:key:z2" (toy_delta 7)).1 (10%nat, []) (toy_mesh 0)).
  - reflexivity.
  - split; [intros b; vm_compute; discriminate|vm_compute; reflexivity].
  - reflexivity.
  - reflexivity.
  - discriminate.
  - intros msgs Hm. vm_compute in Hm. injection Hm as <-. repeat constructor.
  - intros _. vm_compute. discriminate.
  - vm_compute. reflexivity.
  - reflexivity.
Defined.

(** Three Deltas and a channel of one payload: the first is sent, the second is back in its
    queue, and the third is in neither. *)
Definition full_mesh : @Mesh.MeshTransport toy_cache toy_noise (nat * list (list N)) :=
  Mesh.set_tx (foldl (fun t id => Mesh.enqueue_outbound toy_to_json t (toy_delta id) 0) (toy_mesh 0) [1; 2; 3]%N)
    (Some (1%nat, [])).

Lemma tick_scheduler_outcome_witness :
  exists tx tx' pre q post,
    let t' := (Mesh.tick_scheduler toy_to_json toy_to_bytes full_mesh 1000).1 in
    Mesh.outbound_tx full_mesh = Some tx /\ Mesh.outbound_tx t' = Some tx' /\
    (Scheduler.tick (Mesh.scheduler full_mesh) 1000).2 = pre ++ q :: post /\
    Mesh.stopped_at toy_to_json toy_to_bytes full_mesh (Scheduler.tick (Mesh.scheduler full_mesh) 1000).1 tx pre q t' tx'
      (MeshUnavailable "outbound publish channel unavailable").
Proof.
  assert (Mesh.tick_scheduler toy_to_json toy_to_bytes full_mesh 1000 =
    ((Mesh.tick_scheduler toy_to_json toy_to_bytes full_mesh 1000).1,
     Err (MeshUnavailable "outbound publish channel unavailable"))) as He by (vm_compute; reflexivity).
  destruct (Mesh.tick_scheduler_outcome toy_to_json toy_to_bytes full_mesh 1000
    (Scheduler.tick (Mesh.scheduler full_mesh) 1000).1 (Scheduler.tick (Mesh.scheduler full_mesh) 1000).2 _ _
    (surjective_pairing _) He) as [_ [[Hn _]|(tx & tx' & pre & q & post & H')]].
  - vm_compute in Hn. discriminate Hn.
  - exists tx, tx', pre, q, post. exact H'.
Defined.

Example third_delta_lost :
  let t' := (Mesh.tick_scheduler toy_to_json toy_to_bytes full_mesh 1000).1 in
  Mesh.outbound_tx t' = Some (1%nat, [[0; 1]%N]) /\
  map (fun q => d_id (Scheduler.delta q)) (Scheduler.high_queue (Mesh.scheduler t')) = [2%N] /\
  Scheduler.medium_queue (Mesh.scheduler t') = [] /\ Scheduler.low_queue (Mesh.scheduler t') = [].
Proof. vm_compute. repeat split. Qed.

(** A handshake against a peer that is silent fails, and so does every attempt of the next half
    minute. *)
Lemma backoff_enforced_witness :
  let s := Session.new "did:key:z1" 3600 in
  let s1 := (Session.initiate s "did:key:z2" Trust.Verified [] [] (Some ([] : list N)) 100).1.1 in
  Session.initiate s1 "did:key:z2" Trust.Verified [] [] (Some ([] : list N)) 129 =
    (s1, Some [], Err (NoiseHandshakeFailed "did:key:z2" "retry backoff active")).
Proof.
  intros s s1.
  apply (Session.backoff_enforced s "did:key:z2" Trust.Verified [] [] (Some ([] : list N)) 100 s1 (Some [])
    "stream read_message 2" [] Trust.Verified [] [] (Some []) 129); unfold s1, s; clear.
  - vm_compute. reflexivity.
  - unfold Session.recorded_reasons. set_solver.
  - discriminate.
  - unfold Session.clock_ok. lia.
  - unfold Session.clock_ok. lia.
  - constructor.
  - unfold Session.MIN_RETRY_BACKOFF_SECS. lia.
Defined.
End Witnesses.
