(* ===== verification/Store.v ===== *)
(** * The local store: [store/mod.rs], the key-value part of [store/indexed_db.rs]

    The rows the application reads and writes.  The native build keeps them in the SQLite
    tables [proj_<table>] of [Projection.v], whose names agree up to the case of ASCII
    letters; the WASM build in one IndexedDB object store under composite keys, with a view
    in memory that is loaded when the store is opened, both of which compare names as they
    are spelled.  Transactions succeed, and a statement fails only for a table name that
    breaks its text ([Projection.sql_name]); the other failures are the ones the code itself
    finds: text that is not JSON, a composite key without separator, a cursor over an empty
    store. *)

From Stdlib Require Import Ascii.
From S2P Require Import Prelude Types Projection Dag Crdt Ledgers.

Module Store.
Import Projection.

Section Store.
Context `{!SerdeJson} `{!SelectOrder}.
(** [serde_json::to_string], [serde_json::from_str], the equality of numbers. *)
Context (json_to_string : Json -> option string) (json_of_string : string -> option Json).
Context (number_eqb : Number -> Number -> bool).

Definition write_failed {A} (reason : string) : Res A := Err (LocalStoreWriteFailed reason).

(** [Value]'s [PartialEq] and [Map::get]. *)
Fixpoint json_eqb (a b : Json) {struct a} : bool :=
  match a, b with
  | JNull, JNull => true
  | JBool x, JBool y => Bool.eqb x y
  | JNumber x, JNumber y => number_eqb x y
  | JString x, JString y => bool_decide (x = y)
  | JArray l, JArray m =>
      (fix go l m := match l, m with
       | [], [] => true
       | x :: l, y :: m => json_eqb x y && go l m
       | _, _ => false
       end) l m
  | JObject l, JObject m =>
      (fix go l m := match l, m with
       | [], [] => true
       | (k, x) :: l, (k', y) :: m => bool_decide (k = k') && json_eqb x y && go l m
       | _, _ => false
       end) l m
  | _, _ => false
  end.
Definition object_get (m : list (string * Json)) (k : string) : option Json :=
  snd <$> List.find (fun e => bool_decide (e.1 = k)) m.

Definition matches (filter : option Json) (v : Json) : bool :=
  match filter, v with
  | Some (JObject filter_map), JObject val_map =>
      forallb (fun f => match object_get val_map f.1 with Some x => json_eqb x f.2 | None => false end) filter_map
  | _, _ => true
  end.

(** ** Native *)

Definition write (pr : Projection) (table key : string) (data : Json) : Projection * Res unit :=
  match json_to_string data with
  | None => (pr, write_failed "JSON serialisation failed")
  | Some data_json =>
      if sql_name table then
        let rows := default ∅ (table_rows pr table) in
        let flag := match rows !! key with Some r => p_contaminated r | None => 0 end in
        (set_rows pr table (<[key := mkProjRow data_json flag]> rows), Ok tt)
      else (pr, write_failed "CREATE TABLE failed")
  end.

(** A missing table is an empty one; any other error of the statement is reported. *)
Definition read (pr : Projection) (table key : string) : Res (option Json) :=
  if sql_name table then
    match table_rows pr table with
    | None => Ok None
    | Some rows =>
        match rows !! key with
        | None => Ok None
        | Some r =>
            match json_of_string (p_data_json r) with
            | Some v => Ok (Some v)
            | None => write_failed "JSON deserialisation failed"
            end
        end
    end
  else write_failed "Read failed".

Fixpoint query_rows (filter : option Json) (rows : list (string * ProjRow)) : Res (list (string * Json)) :=
  match rows with
  | [] => Ok []
  | (key, r) :: rows =>
      match json_of_string (p_data_json r) with
      | None => write_failed "JSON deserialisation failed"
      | Some v =>
          results ← query_rows filter rows;
          Ok (if matches filter v then (key, v) :: results else results)
      end
  end.
Definition query (pr : Projection) (table : string) (filter : option Json) : Res (list (string * Json)) :=
  if sql_name table then
    match table_rows pr table with
    | None => Ok []
    | Some rows => query_rows filter (select (map_to_list rows))
    end
  else write_failed "Prepare query failed".

Lemma write_spec pr table key data pr' r :
  write pr table key data = (pr', r) ->
  (exists text flag, json_to_string data = Some text /\ sql_name table = true /\ r = Ok tt /\
    forall t k, row_at pr' t k =
      if decide (same_row (t, k) (table, key)) then Some (mkProjRow text flag) else row_at pr t k) \/
  (pr' = pr /\ (json_to_string data = None \/ sql_name table = false) /\
    exists reason, r = Err (LocalStoreWriteFailed reason)).
Proof.
  unfold write. destruct (json_to_string data) as [text|]; [|intros [= <- <-]; right; eauto].
  destruct (sql_name table) eqn:Hn; intros [= <- <-]; [left|right; eauto].
  eexists text, _. split_and!; [done..|]. intros t k. by apply row_at_upsert.
Qed.

Lemma read_row_at pr table key :
  sql_name table = true ->
  read pr table key =
    match row_at pr table key with
    | None => Ok None
    | Some r =>
        match json_of_string (p_data_json r) with
        | Some v => Ok (Some v)
        | None => write_failed "JSON deserialisation failed"
        end
    end.
Proof. intros Hn. unfold read, row_at. rewrite Hn. by destruct (table_rows pr table). Qed.

(** ** WASM *)

Definition KEY_SEP : ascii := ascii_of_N 31.

Definition composite_key (table key : string) : string := table +:+ String KEY_SEP key.

(** [split_once(KEY_SEP)] *)
Fixpoint split_composite_key (composite : string) : Res (string * string) :=
  match composite with
  | "" => write_failed "corrupt IndexedDB key (no separator)"
  | String c rest =>
      if Ascii.eqb c KEY_SEP then Ok ("", rest)
      else '(table, key) ← split_composite_key rest; Ok (String c table, key)
  end.

Abbreviation Tables := (gmap string (gmap string Json)).

(** The handle: the object store [kv], absent for the path [":memory:"], and the view. *)
Record LocalStore := mkStore {
  kv : option (gmap string string);
  tables : Tables
}.

Definition insert_row (t : Tables) (table key : string) (v : Json) : Tables :=
  <[table := <[key := v]> (default ∅ (t !! table))]> t.

Fixpoint load_rows (records : list (string * string)) (t : Tables) : Res Tables :=
  match records with
  | [] => Ok t
  | (composite, text) :: records =>
      match json_of_string text with
      | None => write_failed "row: stored JSON is invalid"
      | Some v => '(table, key) ← split_composite_key composite; load_rows records (insert_row t table key v)
      end
  end.

Section Idb.
Context `{!IdbCursor}.

Definition load_all (kv : gmap string string) : Res Tables :=
  match open_cursor (select (map_to_list kv)) with
  | None => write_failed "cursor is null (store empty or error)"
  | Some records => load_rows records ∅
  end.

(** [open]: [None] is the path [":memory:"]. *)
Definition wasm_open (db : option (gmap string string)) : Res LocalStore :=
  match db with
  | None => Ok (mkStore None ∅)
  | Some kv => t ← load_all kv; Ok (mkStore (Some kv) t)
  end.
End Idb.

Definition wasm_write (s : LocalStore) (table key : string) (data : Json) : LocalStore * Res unit :=
  match json_to_string data with
  | None => (s, write_failed "JSON serialisation failed")
  | Some data_json =>
      (mkStore (<[composite_key table key := data_json]> <$> kv s) (insert_row (tables s) table key data), Ok tt)
  end.

Definition wasm_read (s : LocalStore) (table key : string) : option Json :=
  t ← tables s !! table; t !! key.

Definition wasm_query (s : LocalStore) (table : string) (filter : option Json) : list (string * Json) :=
  match tables s !! table with
  | None => []
  | Some rows => List.filter (fun e => matches filter e.2) (select (map_to_list rows))
  end.

(** [IdbStore::read] *)
Definition idb_read (kv : gmap string string) (table key : string) : Res (option string) :=
  match kv !! composite_key table key with
  | None => Ok None
  | Some text =>
      match json_of_string text with
      | None => write_failed "row: stored JSON is invalid"
      | Some v =>
          match json_to_string v with
          | None => write_failed "row: re-serialisation failed"
          | Some b => Ok (Some b)
          end
      end
  end.

(** ** The view is the object store *)

Fixpoint sep_free (s : string) : bool :=
  match s with "" => true | String c s => negb (Ascii.eqb c KEY_SEP) && sep_free s end.

Lemma split_composite table key :
  sep_free table = true -> split_composite_key (composite_key table key) = Ok (table, key).
Proof.
  unfold composite_key. induction table as [|c table IH]; intros Hs.
  - cbn. reflexivity.
  - simpl in Hs. apply andb_true_iff in Hs as [Hc Hs]. apply negb_true_iff in Hc.
    change (String c table +:+ String KEY_SEP key) with (String c (table +:+ String KEY_SEP key)).
    cbn [split_composite_key]. rewrite Hc, IH by done. done.
Qed.

Lemma split_composite_inv c table key :
  split_composite_key c = Ok (table, key) -> c = composite_key table key /\ sep_free table = true.
Proof.
  unfold composite_key. revert table key. induction c as [|a c IH]; intros table key; [done|].
  cbn [split_composite_key]. destruct (Ascii.eqb a KEY_SEP) eqn:Ha.
  { apply Ascii.eqb_eq in Ha as ->. by intros [= <- <-]. }
  destruct (split_composite_key c) as [[t k]|] eqn:Hc; [|done]. cbn [mbind result_bind].
  intros [= <- <-]. destruct (IH _ _ eq_refl) as [-> Hs]. simpl. by rewrite Ha, Hs.
Qed.

Lemma composite_key_inj t k t' k' :
  sep_free t = true -> sep_free t' = true -> composite_key t k = composite_key t' k' -> t = t' /\ k = k'.
Proof.
  intros Ht Ht' He. pose proof (split_composite t k Ht) as H1'. rewrite He in H1'.
  rewrite (split_composite t' k' Ht') in H1'. by injection H1' as -> ->.
Qed.

Definition row (t : Tables) (table key : string) : option Json := m ← t !! table; m !! key.

Lemma row_insert t table key v table' key' :
  row (insert_row t table key v) table' key' =
    if decide (table' = table /\ key' = key) then Some v else row t table' key'.
Proof.
  unfold row, insert_row. destruct (decide (table' = table)) as [->|Hne].
  - rewrite lookup_insert_eq. cbn. destruct (decide (key' = key)) as [->|Hk].
    + by rewrite lookup_insert_eq, decide_True.
    + rewrite lookup_insert_ne by congruence. rewrite decide_False by naive_solver.
      destruct (t !! table); [done|]. apply lookup_empty.
  - rewrite lookup_insert_ne by congruence. rewrite decide_False by naive_solver. done.
Qed.

Definition no_empty (t : Tables) : Prop := forall table m, t !! table = Some m -> m <> ∅.

Lemma no_empty_insert t table key v : no_empty t -> no_empty (insert_row t table key v).
Proof.
  intros Ht x m. unfold insert_row. destruct (decide (x = table)) as [->|Hne].
  - rewrite lookup_insert_eq. intros [= <-]. apply insert_non_empty.
  - rewrite lookup_insert_ne by congruence. apply Ht.
Qed.

Lemma rows_unique t1 t2 :
  no_empty t1 -> no_empty t2 -> (forall table key, row t1 table key = row t2 table key) -> t1 = t2.
Proof.
  intros H1' H2' Hrow. apply map_eq. intros table.
  assert (forall ta tb, no_empty ta -> (forall key, row ta table key = row tb table key) ->
    forall m, ta !! table = Some m -> exists m', tb !! table = Some m') as Hex.
  { intros ta tb Ha Hr m Hm. destruct (map_choose m (Ha _ _ Hm)) as (k & v & Hk).
    specialize (Hr k). unfold row in Hr. rewrite Hm in Hr. cbn in Hr. rewrite Hk in Hr.
    destruct (tb !! table); [by eexists|done]. }
  destruct (t1 !! table) as [m1|] eqn:E1, (t2 !! table) as [m2|] eqn:E2; try done.
  - f_equal. apply map_eq. intros k. specialize (Hrow table k). unfold row in Hrow.
    by rewrite E1, E2 in Hrow.
  - destruct (Hex t1 t2 H1' (Hrow table) m1 E1) as [m' Hm']. congruence.
  - destruct (Hex t2 t1 H2' (fun k => eq_sym (Hrow table k)) m2 E2) as [m' Hm']. congruence.
Qed.

(** A record an open can read. *)
Definition readable (e : string * string) : Prop :=
  exists table key v, e.1 = composite_key table key /\ sep_free table = true /\ json_of_string e.2 = Some v.

Lemma load_rows_ok records t :
  is_ok (load_rows records t) = true <-> Forall readable records.
Proof.
  revert t. induction records as [|[c text] records IH]; intros t; simpl; [by split|].
  rewrite Forall_cons. unfold readable at 1. cbn [fst snd]. destruct (json_of_string text) as [v|] eqn:Hv.
  2: { split; [done|]. intros [(? & ? & v & _ & _ & Hv') _]. done. }
  destruct (split_composite_key c) as [[table key]|e] eqn:Hc; cbn [mbind result_bind].
  - rewrite IH. apply split_composite_inv in Hc as [-> Hs]. split; [|by intros [_ ?]].
    intros ?. split; [|done]. by exists table, key, v.
  - split; [done|]. intros [(table & key & v' & -> & Hs & _) _]. by rewrite split_composite in Hc.
Qed.

Lemma load_rows_spec records t t' :
  load_rows records t = Ok t' -> NoDup (map fst records) -> no_empty t ->
  no_empty t' /\ forall table key v, row t' table key = Some v <->
    (sep_free table = true /\ exists text, (composite_key table key, text) ∈ records /\ json_of_string text = Some v) \/
    (~ (sep_free table = true /\ composite_key table key ∈ map fst records) /\ row t table key = Some v).
Proof.
  revert t. induction records as [|[c text] records IH]; intros t; simpl.
  { intros [= <-] _ Hne. split; [done|]. intros table key v. set_solver. }
  destruct (json_of_string text) as [v0|] eqn:Hv0; [|done].
  destruct (split_composite_key c) as [[table0 key0]|] eqn:Hc; [|done]. cbn [mbind result_bind].
  apply split_composite_inv in Hc as [-> Hs0].
  intros Hload [Hfresh Hnd]%NoDup_cons Hne.
  destruct (IH _ Hload Hnd (no_empty_insert _ _ _ _ Hne)) as [Hne' Hrow]. split; [done|].
  intros table key v. rewrite Hrow, row_insert. clear Hrow IH Hload.
  destruct (decide (table = table0 /\ key = key0)) as [[-> ->]|Hd].
  - split.
    + intros [(_ & text' & Hin & _)|[_ [= <-]]].
      * exfalso. apply Hfresh. by apply (list_elem_of_fmap_2 fst) in Hin.
      * left. split; [done|]. exists text. split; [left|done].
    + intros [(_ & text' & [[= ->]|Hin]%elem_of_cons & Hv')|[Hn _]].
      * right. split; [naive_solver|congruence].
      * exfalso. apply Hfresh. by apply (list_elem_of_fmap_2 fst) in Hin.
      * exfalso. apply Hn. split; [done|left].
  - assert (sep_free table = true -> composite_key table key <> composite_key table0 key0) as Hck
      by (intros Hs He; apply Hd; by apply composite_key_inj).
    split.
    + intros [(Hs & text' & Hin & Hv')|[Hn Hr]].
      * left. split; [done|]. exists text'. split; [by right|done].
      * right. split; [|done]. intros [Hs [He|Hin]%elem_of_cons]; [by apply Hck|by apply Hn].
    + intros [(Hs & text' & [[= He <-]|Hin]%elem_of_cons & Hv')|[Hn Hr]].
      * by destruct (Hck Hs).
      * left. eauto.
      * right. split; [|done]. intros [Hs Hin]. apply Hn. split; [done|by right].
Qed.

(** ** Reopening *)

Section Reopen.
Context `{!IdbCursor}.

Definition faithful (kv : gmap string string) (t : Tables) : Prop :=
  Forall readable (map_to_list kv) /\ no_empty t /\
  forall table key v, row t table key = Some v <->
    sep_free table = true /\ exists text, kv !! composite_key table key = Some text /\ json_of_string text = Some v.

Lemma records_nodup (kv : gmap string string) : NoDup (map fst (select (map_to_list kv))).
Proof. rewrite select_perm. apply NoDup_fst_map_to_list. Qed.

Lemma elem_of_records (kv : gmap string string) c text :
  (c, text) ∈ select (map_to_list kv) <-> kv !! c = Some text.
Proof. rewrite select_perm. apply elem_of_map_to_list. Qed.

Lemma load_all_some kv : kv <> ∅ -> load_all kv = load_rows (select (map_to_list kv)) ∅.
Proof.
  intros Hne. unfold load_all. destruct (select (map_to_list kv)) as [|r l] eqn:E.
  - exfalso. apply Hne. apply map_to_list_empty_iff. apply Permutation_nil_r. by rewrite <- select_perm, E.
  - by rewrite open_cursor_cons.
Qed.

Lemma load_all_faithful kv t : load_all kv = Ok t -> kv <> ∅ /\ faithful kv t.
Proof.
  intros Hl. assert (kv <> ∅) as Hne.
  { intros ->. unfold load_all in Hl. rewrite map_to_list_empty in Hl.
    assert (select [] = @nil (string * string)) as Hnil by (apply Permutation_nil_r; by rewrite select_perm).
    rewrite Hnil, open_cursor_nil in Hl. done. }
  split; [done|]. rewrite load_all_some in Hl by done.
  assert (Forall readable (select (map_to_list kv))) as Hr by (apply (load_rows_ok _ ∅); by rewrite Hl).
  apply load_rows_spec in Hl as [Hne' Hrow]; [|apply records_nodup|by intros ? ? ?%lookup_empty_Some].
  split; [by rewrite select_perm in Hr|]. split; [done|]. intros table key v. rewrite Hrow.
  unfold row at 1. rewrite lookup_empty. cbn. setoid_rewrite elem_of_records. naive_solver.
Qed.

Lemma faithful_load kv t : kv <> ∅ -> faithful kv t -> load_all kv = Ok t.
Proof.
  intros Hne (Hr & Hnt & Hrow). rewrite load_all_some by done.
  destruct (load_rows (select (map_to_list kv)) ∅) as [t'|e] eqn:Hl.
  - apply load_rows_spec in Hl as [Hne' Hrow']; [|apply records_nodup|by intros ? ? ?%lookup_empty_Some].
    f_equal. apply rows_unique; [done|done|]. intros table key. apply option_eq. intros v.
    rewrite Hrow, Hrow'. unfold row. rewrite lookup_empty. cbn. setoid_rewrite elem_of_records. naive_solver.
  - assert (is_ok (load_rows (select (map_to_list kv)) ∅) = true) as Hok
      by (apply load_rows_ok; by rewrite select_perm). by rewrite Hl in Hok.
Qed.

(** A write whose value survives the text: [table], [key], [data]. *)
Definition faithful_write (w : string * string * Json) : Prop :=
  sep_free w.1.1 = true /\ exists text, json_to_string w.2 = Some text /\ json_of_string text = Some w.2.

Definition wasm_writes (s : LocalStore) (ws : list (string * string * Json)) : LocalStore :=
  foldl (fun s w => (wasm_write s w.1.1 w.1.2 w.2).1) s ws.

Lemma insert_faithful kv t table key text v :
  faithful kv t -> sep_free table = true -> json_of_string text = Some v ->
  faithful (<[composite_key table key := text]> kv) (insert_row t table key v).
Proof.
  intros (Hr & Hnt & Hrow) Hs Hv. split; [|split; [by apply no_empty_insert|]].
  - apply Forall_forall. intros [c x] Hin%elem_of_map_to_list.
    apply lookup_insert_Some in Hin as [[<- <-]|[_ Hin]]; [by exists table, key, v|].
    rewrite Forall_forall in Hr. apply Hr. by apply elem_of_map_to_list.
  - intros table' key' v'. rewrite row_insert. destruct (decide (table' = table /\ key' = key)) as [[-> ->]|Hd].
    + rewrite lookup_insert_eq. split.
      * intros [= <-]. split; [done|]. by exists text.
      * intros (_ & text' & [= <-] & Hv'). congruence.
    + rewrite Hrow. split; intros (Hs' & text' & Hk & Hv'); (split; [done|]; exists text'; split; [|done]).
      * rewrite lookup_insert_ne; [done|]. intros He. apply Hd. symmetry in He. by apply composite_key_inj.
      * rewrite lookup_insert_ne in Hk; [done|]. intros He. apply Hd. symmetry in He. by apply composite_key_inj.
Qed.

(** What is acknowledged survives the reload.  A store that was opened on an object store and
    then written any number of times, under table names without the separator and with values
    the JSON text gives back, reopens to the very view it had. *)
Theorem reopen_restores kv0 s ws :
  wasm_open (Some kv0) = Ok s -> Forall faithful_write ws ->
  wasm_open (kv (wasm_writes s ws)) = Ok (wasm_writes s ws).
Proof.
  unfold wasm_open at 1. intros Ho Hws. destruct (load_all kv0) as [t|] eqn:Hl; [|done].
  cbn [mbind result_bind] in Ho. injection Ho as <-. apply load_all_faithful in Hl as [Hne Hf].
  revert kv0 t Hne Hf. induction Hws as [|[[table key] data] ws (Hs & text & Ht & Hv) _ IH]; intros kv0 t Hne Hf.
  - simpl. by rewrite (faithful_load _ _ Hne Hf).
  - cbn [fst snd] in *. cbn [wasm_writes foldl fst snd].
    assert ((wasm_write (mkStore (Some kv0) t) table key data).1 =
      mkStore (Some (<[composite_key table key := text]> kv0)) (insert_row t table key data)) as ->
      by (unfold wasm_write; by rewrite Ht).
    apply IH.
    + apply insert_non_empty.
    + by apply insert_faithful.
Qed.

(** A database that holds no row cannot be opened: neither can that of a new device. *)
Theorem fresh_store_never_opens : is_ok (wasm_open (Some ∅)) = false.
Proof.
  unfold wasm_open, load_all. rewrite map_to_list_empty.
  assert (select [] = @nil (string * string)) as -> by (apply Permutation_nil_r; by rewrite select_perm).
  by rewrite open_cursor_nil.
Qed.
End Reopen.

(** ** The two builds *)

Definition native_writes (pr : Projection) (ws : list (string * string * Json)) : Projection :=
  foldl (fun pr w => (write pr w.1.1 w.1.2 w.2).1) pr ws.

(** The rows of one table, as text and as values. *)
Definition same_rows (rows : gmap string ProjRow) (m : gmap string Json) : Prop :=
  forall k, (json_of_string ∘ p_data_json <$> rows !! k) = (Some <$> m !! k).

Lemma same_rows_insert rows m k r v :
  same_rows rows m -> json_of_string (p_data_json r) = Some v -> same_rows (<[k := r]> rows) (<[k := v]> m).
Proof.
  intros Hm Hv k'. destruct (decide (k' = k)) as [->|Hne].
  - rewrite !lookup_insert_eq. cbn. by rewrite Hv.
  - rewrite !lookup_insert_ne by congruence. apply Hm.
Qed.

(** A write both builds keep under one name: SQLite takes the name, no other spelling of
    [table] is written, and the text gives the value back. *)
Definition plain_write (table : string) (w : string * string * Json) : Prop :=
  sql_name w.1.1 = true /\ (same_table w.1.1 table -> w.1.1 = table) /\
  exists text, json_to_string w.2 = Some text /\ json_of_string text = Some w.2.

Lemma same_table_write pr s w table :
  plain_write table w -> option_Forall2 same_rows (table_rows pr table) (tables s !! table) ->
  option_Forall2 same_rows (table_rows (write pr w.1.1 w.1.2 w.2).1 table)
    (tables (wasm_write s w.1.1 w.1.2 w.2).1 !! table).
Proof.
  destruct w as [[t key] data]. intros (Hn & Hcase & text & Ht & Hv) Hs. cbn [fst snd] in *.
  unfold write, wasm_write, insert_row. rewrite Ht, Hn. cbn [fst tables]. rewrite table_rows_set.
  destruct (decide (same_table table t)) as [Hst|Hst].
  - rewrite (Hcase (symmetry Hst)), lookup_insert_eq. constructor. apply same_rows_insert; [|done].
    destruct Hs as [rows m Hrm|]; [done|]. intros k. cbn. by rewrite !lookup_empty.
  - rewrite lookup_insert_ne; [done|]. intros ->. by apply Hst.
Qed.

Lemma same_table_writes pr s ws table :
  Forall (plain_write table) ws -> option_Forall2 same_rows (table_rows pr table) (tables s !! table) ->
  option_Forall2 same_rows (table_rows (native_writes pr ws) table) (tables (wasm_writes s ws) !! table).
Proof.
  intros Hws. revert pr s. induction Hws as [|w ws Hw _ IH]; intros pr s Hs; [done|].
  cbn [native_writes wasm_writes foldl]. apply IH. by apply same_table_write.
Qed.

Lemma query_rows_spec filter rows :
  Forall (fun e => is_Some (json_of_string (p_data_json e.2))) rows ->
  exists l, query_rows filter rows = Ok l /\
    l = List.filter (fun e => matches filter e.2)
          (omap (fun e => (e.1,.) <$> json_of_string (p_data_json e.2)) rows).
Proof.
  induction 1 as [|[k r] rows [v Hv] _ (l & Hl & Heq)]; [by exists []|].
  cbn [query_rows fst snd] in *. rewrite Hv, Hl. cbn [mbind result_bind]. eexists. split; [reflexivity|].
  cbn. rewrite Hv. cbn. by rewrite <- Heq.
Qed.

Lemma list_filter_perm {A} (f : A -> bool) (l k : list A) : l ≡ₚ k -> List.filter f l ≡ₚ List.filter f k.
Proof. induction 1; simpl; repeat case_match; try done; try (by constructor); by etrans. Qed.

Lemma same_rows_list rows m :
  same_rows rows m ->
  Forall (fun e => is_Some (json_of_string (p_data_json e.2))) (map_to_list rows) /\
  omap (fun e => (e.1,.) <$> json_of_string (p_data_json e.2)) (map_to_list rows) ≡ₚ map_to_list m.
Proof.
  intros Hm. split.
  - apply Forall_forall. intros [k r] Hin%elem_of_map_to_list. specialize (Hm k). rewrite Hin in Hm.
    cbn in Hm |- *. destruct (m !! k) as [v|]; [|done]. injection Hm as Hm. by exists v.
  - assert (m = omap (json_of_string ∘ p_data_json) rows) as ->.
    { apply map_eq. intros k. rewrite lookup_omap. specialize (Hm k). destruct (rows !! k), (m !! k); cbn in *; congruence. }
    symmetry. apply NoDup_Permutation.
    + apply NoDup_map_to_list.
    + pose proof (NoDup_fst_map_to_list rows) as Hnd. revert Hnd. generalize (map_to_list rows) as l. clear.
      induction l as [|[k r] l IH]; intros Hnd; [constructor|]. apply NoDup_cons in Hnd as [Hk Hnd]. cbn.
      destruct (json_of_string (p_data_json r)); cbn; [|by apply IH]. constructor; [|by apply IH].
      intros ([k' r'] & Hin & He)%list_elem_of_omap. cbn in He. destruct (json_of_string _); [|done].
      injection He as -> _. apply Hk. by apply (list_elem_of_fmap_2 fst) in Hin.
    + intros [k v]. rewrite elem_of_map_to_list, lookup_omap, list_elem_of_omap. split.
      * intros (r & Hr & Hv)%bind_Some. exists (k, r). split; [by apply elem_of_map_to_list|]. cbn in *. by rewrite Hv.
      * intros ([k' r] & Hin%elem_of_map_to_list & He). cbn in He.
        destruct (json_of_string (p_data_json r)) eqn:Hv; [|done]. injection He as -> ->. rewrite Hin. done.
Qed.

(** C34: the builds agree on a table with one spelling.  After the same writes on empty stores, under
    names SQLite takes (no double quote, no NUL) and with values the JSON text gives back, a
    table of which no other letter case was written answers every read and every query alike
    in the SQLite store and in the IndexedDB store, up to the order of the rows.  Under two
    spellings SQLite has one table and the browser two ([letter_case_differs]), and a name
    with a double quote is an SQL error in the one and a table in the other
    ([quoted_name_differs]). *)
Theorem builds_agree db ws table key filter :
  sql_name table = true -> Forall (plain_write table) ws ->
  let pr := native_writes [] ws in let s := wasm_writes (mkStore db ∅) ws in
  read pr table key = Ok (wasm_read s table key) /\
  exists l, query pr table filter = Ok l /\ l ≡ₚ wasm_query s table filter.
Proof.
  intros Hn Hws pr s.
  assert (option_Forall2 same_rows (table_rows pr table) (tables s !! table)) as Hs.
  { apply same_table_writes; [done|]. cbn. rewrite lookup_empty. constructor. } unfold read, query, wasm_read, wasm_query. rewrite Hn.
  destruct Hs as [rows m Hm|]; [|by split; [|exists []]]. split.
  - cbn. specialize (Hm key). destruct (rows !! key) as [r|], (m !! key) as [v|]; cbn in Hm; try done.
    by injection Hm as ->.
  - destruct (same_rows_list _ _ Hm) as [Hall Hp].
    destruct (query_rows_spec filter (select (map_to_list rows))) as (l & -> & ->).
    { by rewrite select_perm. }
    eexists. split; [done|]. apply list_filter_perm. rewrite (select_perm _ (map_to_list m)), <- Hp.
    by rewrite select_perm.
Qed.
End Store.
End Store.

(** ** Concrete inputs *)

Section Witnesses.
Import Projection Store.
#[local] Existing Instance Crdt.toy_json.
#[local] Existing Instance select_canonical.
#[local] Existing Instance idb_cursor.

(** Strings are their own text. *)
Definition text_of (v : Json) : option string := match v with JString s => Some s | _ => None end.
Definition of_text (s : string) : option Json := Some (JString s).
Definition old_row : gmap string string := {[ composite_key "notes" "k" := "old" ]}.
Definition new_rows : list (string * string * Json) := [("notes", "k", JString "new"); ("tasks", "1", JString "x")].

Lemma reopen_restores_witness :
  exists s, wasm_open of_text (Some old_row) = Ok s /\
    wasm_open of_text (kv (wasm_writes text_of s new_rows)) = Ok (wasm_writes text_of s new_rows).
Proof.
  assert (is_ok (wasm_open of_text (Some old_row)) = true) as Hok by (vm_compute; reflexivity).
  destruct (wasm_open of_text (Some old_row)) as [s|e] eqn:Ho; [|discriminate Hok]. exists s.
  split; [reflexivity|]. apply (reopen_restores text_of of_text old_row); [exact Ho|].
  unfold new_rows, faithful_write. repeat constructor; cbn; eauto.
Defined.

Lemma builds_agree_witness :
  let pr := native_writes text_of [] new_rows in let s := wasm_writes text_of (mkStore None ∅) new_rows in
  read of_text pr "notes" "k" = Ok (wasm_read s "notes" "k") /\
  exists l, query of_text Z.eqb pr "notes" None = Ok l /\ l ≡ₚ wasm_query Z.eqb s "notes" None.
Proof.
  apply (builds_agree text_of of_text Z.eqb None new_rows "notes" "k" None); [reflexivity|].
  unfold new_rows, plain_write. repeat constructor; cbn; eauto.
Defined.

(** Two spellings: the second write replaces the row in SQLite and makes a table in the browser. *)
Example letter_case_differs :
  let ws := [("Users", "k", JString "old"); ("users", "k", JString "new")] in
  read of_text (native_writes text_of [] ws) "Users" "k" = Ok (Some (JString "new")) /\
  wasm_read (wasm_writes text_of (mkStore None ∅) ws) "Users" "k" = Some (JString "old").
Proof. split; reflexivity. Qed.

(** A double quote in the name: an SQL error, and a row. *)
Example quoted_name_differs :
  let name := String DOUBLE_QUOTE "t" in
  is_ok (write text_of [] name "k" (JString "v")).2 = false /\
  is_ok (read of_text [] name "k") = false /\
  wasm_read (wasm_write text_of (mkStore None ∅) name "k" (JString "v")).1 name "k" = Some (JString "v").
Proof. split_and!; reflexivity. Qed.

(** A row that is not an object passes every filter. *)
Example scalar_row_passes : matches Z.eqb (Some (JObject [("status", JString "open")])) (JString "closed") = true.
Proof. reflexivity. Qed.

(** A separator inside a name: two rows under one composite key. *)
Example separator_moves :
  composite_key (String "a" (String KEY_SEP "b")) "c" = composite_key "a" (String "b" (String KEY_SEP "c")).
Proof. reflexivity. Qed.
End Witnesses.
