(* ===== verification/Sandbox.v ===== *)
(** * The migration sandbox: [migration/wasm_sandbox.rs]

    A migration transform is a WASM module that sees the device through three host functions.
    The runtimes, wasmtime and wasmi, are the class [WasmRuntime]: a module is parsed, linked
    against the host functions and resumed, and each time it is resumed it runs until it
    returns, traps, calls the host or never stops.  The host functions, the order in which they
    check their arguments, the casts of [i32] to [usize] and the classification of what a run
    ends with are the code's.

    The epoch deadline of wasmtime passes at some moment the code does not choose: the native
    run has the number of turns until then as its budget.  The fuel of wasmi is its budget in
    instructions.  A panic in a host function is [None]. *)

From Stdlib Require Import Ascii.
From S2P Require Import Prelude Types Projection Crdt Migration Store.

(** ** [std::str::from_utf8] *)

Definition in_range (lo hi x : N) : bool := (lo <=? x)%N && (x <=? hi)%N.
Definition continuation (x : N) : bool := in_range 128 191 x.
(** The first two bytes of a character of three or of four bytes. *)
Definition starts_three (x y : N) : bool :=
  (x =? 224)%N && in_range 160 191 y || in_range 225 236 x && continuation y ||
  (x =? 237)%N && in_range 128 159 y || in_range 238 239 x && continuation y.
Definition starts_four (x y : N) : bool :=
  (x =? 240)%N && in_range 144 191 y || in_range 241 243 x && continuation y || (x =? 244)%N && in_range 128 143 y.

Fixpoint valid_utf8 (b : bytes) : bool :=
  match b with
  | [] => true
  | x :: b1 =>
      if (x <? 128)%N then valid_utf8 b1
      else match b1 with
           | [] => false
           | y :: b2 =>
               if in_range 194 223 x then continuation y && valid_utf8 b2
               else match b2 with
                    | [] => false
                    | z :: b3 =>
                        if starts_three x y then continuation z && valid_utf8 b3
                        else match b3 with
                             | [] => false
                             | w :: b4 => starts_four x y && continuation z && continuation w && valid_utf8 b4
                             end
                    end
           end
  end.

Fixpoint string_of_bytes (b : bytes) : string :=
  match b with [] => "" | x :: b => String (ascii_of_N x) (string_of_bytes b) end.
Definition from_utf8 (b : bytes) : option string := if valid_utf8 b then Some (string_of_bytes b) else None.

(** ** The runtime *)

Inductive HostCall :=
| LogMessage (ptr len : Z)
| ReadRow (table_ptr table_len key_ptr key_len out_ptr out_max : Z)
| WriteRow (table_ptr table_len key_ptr key_len val_ptr val_len : Z).

(** What a module does once it is resumed. *)
Inductive Turn (Instance : Type) :=
| Returns (i : Instance)
| Traps (reason : string)
| Calls (i : Instance) (call : HostCall)
| Spins.
Arguments Returns {_} i.
Arguments Traps {_} reason.
Arguments Calls {_} i call.
Arguments Spins {_}.

Class WasmRuntime := {
  Wasm : Type;
  Instance : Type;
  module_new : bytes -> result string Wasm;
  module_imports : Wasm -> list (string * string);
  link : Wasm -> result string Instance;                 (* the imports have the types of the host functions *)
  start_function : Instance -> option Instance;          (* entered *)
  run_export : Instance -> option (result string Instance);  (* entered; [Err]: of another type *)
  memory : Instance -> option bytes;
  set_memory : Instance -> bytes -> Instance;
  resume : Instance -> Z -> Turn Instance * Z            (* with the instructions it took *)
}.

(** The functions the linkers of both builds define. *)
Definition host_functions : list (string * string) := [("host", "log_message"); ("host", "read_row"); ("host", "write_row")].

Module Sandbox.
Import Projection Migration.

(** The rows of the WASM build: table, key, value. *)
Abbreviation InMemoryStoreHandle := (gmap string (gmap string bytes)).

(** ** Host functions *)

Section Host.
Context `{!SerdeJson} (json_to_string : Json -> option string) (json_of_string : string -> option Json).
Context (json_of_bytes : bytes -> option Json).
(** The width of [usize]: 64 on the native targets, 32 on [wasm32]. *)
Context (usize_bits : Z).

(** [i32 as usize], [usize as i32] *)
Definition as_usize (x : Z) : Z := x mod 2 ^ usize_bits.
Definition as_i32 (x : Z) : Z := (x + 2 ^ 31) mod 2 ^ 32 - 2 ^ 31.

(** [vec![0u8; n]] panics past [isize::MAX]. *)
Definition allocates (n : Z) : bool := n <=? 2 ^ (usize_bits - 1) - 1.

(** [Memory::read], [Memory::write] *)
Definition mem_read (m : bytes) (off len : Z) : option bytes :=
  if off + len <=? Z.of_nat (length m) then Some (take (Z.to_nat len) (drop (Z.to_nat off) m)) else None.
Definition mem_write (m : bytes) (off : Z) (b : bytes) : option bytes :=
  if off + Z.of_nat (length b) <=? Z.of_nat (length m)
  then Some (take (Z.to_nat off) m ++ b ++ drop (Z.to_nat off + length b) m) else None.

(** What the guest logs, when it is text. *)
Definition log_message (m : bytes) (ptr len : Z) : option string :=
  let start := as_usize ptr in
  let end_ := Z.min (start + as_usize len) (2 ^ usize_bits - 1) in
  if end_ <=? Z.of_nat (length m) then mem_read m start (end_ - start) ≫= from_utf8 else None.

(** The value goes to the guest as far as there is room for it. *)
Definition reply (m : bytes) (out_ptr out_max : Z) (value : bytes) : bytes * Z :=
  let write_len := Z.min (Z.of_nat (length value)) (as_usize out_max) in
  match mem_write m (as_usize out_ptr) (take (Z.to_nat write_len) value) with
  | None => (m, 0)
  | Some m => (m, as_i32 write_len)
  end.

(** *** Native, on the [LocalStore] *)

(** [None]: the buffer cannot be allocated; [Some None]: the text cannot be read. *)
Definition read_text (m : bytes) (ptr len : Z) : option (option string) :=
  if allocates (as_usize len) then Some (mem_read m (as_usize ptr) (as_usize len) ≫= from_utf8) else None.

Definition native_read_row (store : Projection) (m : bytes) (table_ptr table_len key_ptr key_len out_ptr out_max : Z)
  : option (bytes * Z) :=
  match read_text m table_ptr table_len with
  | None => None
  | Some None => Some (m, 0)
  | Some (Some table) =>
      match read_text m key_ptr key_len with
      | None => None
      | Some None => Some (m, 0)
      | Some (Some key) =>
          match Store.read json_of_string store table key with
          | Ok (Some val) =>
              match json_to_string val with
              | None => Some (m, 0)
              | Some text => Some (reply m out_ptr out_max (string_bytes text))
              end
          | _ => Some (m, 0)
          end
      end
  end.

(** All three buffers are allocated before the first is filled. *)
Definition read_three (m : bytes) (table_ptr table_len key_ptr key_len val_ptr val_len : Z)
  : option (option (string * string * bytes)) :=
  if allocates (as_usize table_len) && allocates (as_usize key_len) && allocates (as_usize val_len) then
    Some (table_buf ← mem_read m (as_usize table_ptr) (as_usize table_len);
          key_buf ← mem_read m (as_usize key_ptr) (as_usize key_len);
          val_buf ← mem_read m (as_usize val_ptr) (as_usize val_len);
          table ← from_utf8 table_buf;
          key ← from_utf8 key_buf;
          Some (table, key, val_buf))
  else None.

Definition native_write_row (store : Projection) (m : bytes) (table_ptr table_len key_ptr key_len val_ptr val_len : Z)
  : option Projection :=
  match read_three m table_ptr table_len key_ptr key_len val_ptr val_len with
  | None => None
  | Some None => Some store
  | Some (Some (table, key, val_buf)) =>
      match json_of_bytes val_buf with
      | None => Some store
      | Some value => Some (Store.write json_to_string store table key value).1
      end
  end.

(** *** WASM, on a map in memory *)

Definition handle_read (h : InMemoryStoreHandle) (table key : string) : option bytes := rows ← h !! table; rows !! key.
Definition handle_write (h : InMemoryStoreHandle) (table key : string) (value : bytes) : InMemoryStoreHandle :=
  <[table := <[key := value]> (default ∅ (h !! table))]> h.

Definition wasm_read_row (h : InMemoryStoreHandle) (m : bytes) (table_ptr table_len key_ptr key_len out_ptr out_max : Z)
  : option (bytes * Z) :=
  match read_three m table_ptr table_len key_ptr key_len 0 0 with
  | None => None
  | Some None => Some (m, 0)
  | Some (Some (table, key, _)) =>
      match handle_read h table key with
      | None => Some (m, 0)
      | Some value => Some (reply m out_ptr out_max value)
      end
  end.

Definition wasm_write_row (h : InMemoryStoreHandle) (m : bytes) (table_ptr table_len key_ptr key_len val_ptr val_len : Z)
  : option InMemoryStoreHandle :=
  match read_three m table_ptr table_len key_ptr key_len val_ptr val_len with
  | None => None
  | Some None => Some h
  | Some (Some (table, key, val_buf)) => Some (handle_write h table key val_buf)
  end.

(** *** One call *)

(** The host's side of a call into the guest's memory: state, memory and answer. *)
Definition native_call (store : Projection) (m : bytes) (call : HostCall) : option (Projection * bytes * Z) :=
  match call with
  | LogMessage _ _ => Some (store, m, 0)
  | ReadRow tp tl kp kl op om => '(m, n) ← native_read_row store m tp tl kp kl op om; Some (store, m, n)
  | WriteRow tp tl kp kl vp vl => store ← native_write_row store m tp tl kp kl vp vl; Some (store, m, 0)
  end.
Definition wasm_call (h : InMemoryStoreHandle) (m : bytes) (call : HostCall)
  : option (InMemoryStoreHandle * bytes * Z) :=
  match call with
  | LogMessage _ _ => Some (h, m, 0)
  | ReadRow tp tl kp kl op om => '(m, n) ← wasm_read_row h m tp tl kp kl op om; Some (h, m, n)
  | WriteRow tp tl kp kl vp vl => h ← wasm_write_row h m tp tl kp kl vp vl; Some (h, m, 0)
  end.
End Host.

(** ** A run *)

Section Run.
Context `{!WasmRuntime} {St : Type} (host : St -> bytes -> HostCall -> option (St * bytes * Z)).
(** What a turn takes of the budget. *)
Context (price : Z -> Z).

Inductive Exit :=
| Finished (i : Instance) (budget : Z)
| Interrupted
| Trapped (reason : string)
| Panicked.

(** Without an exported memory the host functions do nothing and answer 0. *)
Definition serve_call (i : Instance) (st : St) (call : HostCall) : option (Instance * St * Z) :=
  match memory i with
  | None => Some (i, st, 0)
  | Some m => '(st, m, ret) ← host st m call; Some (set_memory i m, st, ret)
  end.

Fixpoint run_guest (fuel : nat) (budget : Z) (i : Instance) (ret : Z) (st : St) : Exit * St :=
  match fuel with
  | O => (Interrupted, st)
  | S fuel =>
      let '(turn, cost) := resume i ret in
      match turn with
      | Spins => (Interrupted, st)
      | Returns i => if budget <? price cost then (Interrupted, st) else (Finished i (budget - price cost), st)
      | Traps reason => if budget <? price cost then (Interrupted, st) else (Trapped reason, st)
      | Calls i call =>
          if budget <? price cost then (Interrupted, st)
          else match serve_call i st call with
               | None => (Panicked, st)
               | Some (i, st, ret) => run_guest fuel (budget - price cost) i ret st
               end
      end
  end.

(** A turn costs at least one, so this much fuel lasts as long as the budget. *)
Definition run_for (budget : Z) (i : Instance) (st : St) : Exit * St := run_guest (S (Z.to_nat budget)) budget i 0 st.

(** [Linker::instantiate], which runs the start function. *)
Inductive Started :=
| Running (i : Instance) (budget : Z)
| NotInstantiated (reason : string)
| StartPanicked.

Definition instantiate (budget : Z) (w : Wasm) (st : St) : Started * St :=
  if forallb (fun imp => bool_decide (imp ∈ host_functions)) (module_imports w) then
    match link w with
    | Err reason => (NotInstantiated reason, st)
    | Ok i =>
        match start_function i with
        | None => (Running i budget, st)
        | Some i =>
            match run_for budget i st with
            | (Finished i budget, st) => (Running i budget, st)
            | (Interrupted, st) => (NotInstantiated "interrupted", st)
            | (Trapped reason, st) => (NotInstantiated reason, st)
            | (Panicked, st) => (StartPanicked, st)
            end
        end
    end
  else (NotInstantiated "unknown import", st).
End Run.

(** ** [execute_native] *)

Section Native.
Context `{!SerdeJson} (json_to_string : Json -> option string) (json_of_string : string -> option Json).
Context (json_of_bytes : bytes -> option Json) `{!WasmRuntime}.

Abbreviation native_host := (native_call json_to_string json_of_string json_of_bytes 64).
Abbreviation turn_price := (fun _ : Z => 1).

(** The run is in the registry ([register], [unregister] below) while it lasts.
    [deadline]: the turns the guest gets before the epoch is incremented, by the timeout or by a
    revocation.  [None]: a host function panicked. *)
Definition execute_native (transform : bytes) (timeout_secs deadline : Z) (store : Projection)
  : Projection * option MigrationResult :=
  match module_new transform with
  | Err _ => (store, Some (Aborted "invalid WASM module"))
  | Ok w =>
      match instantiate native_host turn_price deadline w store with
      | (StartPanicked, store) => (store, None)
      | (NotInstantiated _, store) => (store, Some (Aborted "instantiation failed"))
      | (Running i deadline, store) =>
          match run_export i with
          | None => (store, Some Success)
          | Some (Err _) => (store, Some (Aborted "trap during migration"))
          | Some (Ok i) =>
              match run_for native_host turn_price deadline i store with
              | (Finished _ _, store) => (store, Some Success)
              | (Interrupted, store) => (store, Some (TimedOut timeout_secs))
              | (Trapped _, store) => (store, Some (Aborted "trap during migration"))
              | (Panicked, store) => (store, None)
              end
          end
      end
  end.

(** What [dispatch_inbound_migration] makes of the background task. *)
Definition task_outcome (result : option MigrationResult) : Res MigrationResult :=
  match result with
  | Some r => Ok r
  | None => Err (DeltaMalformed "migration background task failed")
  end.
End Native.

(** ** [execute_migration_wasm] *)

Section Wasm.
Context `{!WasmRuntime}.

Definition DEFAULT_FUEL : Z := 1000000.
Definition instruction_price (cost : Z) : Z := Z.max 1 cost.

(** The error carries the import that is not a function of [host]. *)
Definition execute_migration_wasm (transform : bytes) (store_handle : InMemoryStoreHandle) (timeout_ticks : Z)
  : InMemoryStoreHandle * option (result (string * string) MigrationResult) :=
  let fuel := if timeout_ticks =? 0 then DEFAULT_FUEL else timeout_ticks in
  match module_new transform with
  | Err _ => (store_handle, Some (Ok (Aborted "invalid WASM module")))
  | Ok w =>
      match filter (fun imp => imp.1 <> "host") (module_imports w) with
      | imp :: _ => (store_handle, Some (Err imp))
      | [] =>
          match instantiate (wasm_call 32) instruction_price fuel w store_handle with
          | (StartPanicked, h) => (h, None)
          | (NotInstantiated _, h) => (h, Some (Ok (Aborted "instantiation failed")))
          | (Running i budget, h) =>
              match run_export i with
              | None => (h, Some (Ok Success))
              | Some (Err _) => (h, Some (Ok (Aborted "run export type mismatch")))
              | Some (Ok i) =>
                  match run_for (wasm_call 32) instruction_price budget i h with
                  | (Finished _ _, h) => (h, Some (Ok Success))
                  | (Interrupted, h) => (h, Some (Ok (TimedOut (fuel / 33333))))
                  | (Trapped _, h) => (h, Some (Ok (Aborted "trap during migration")))
                  | (Panicked, h) => (h, None)
                  end
              end
          end
      end
  end.

(** The entry point of the WASM build: the rows live as long as the call. *)
Definition timeout_ticks (timeout_secs : Z) : Z :=
  if timeout_secs =? 0 then 0 else wrap_u32 (wrap_u64 (Z.min timeout_secs ((2 ^ 32 - 1) / 33333) * 33333)).
Definition execute_migration (transform : bytes) (timeout_secs : Z)
  : option (result (string * string) MigrationResult) :=
  (execute_migration_wasm transform ∅ (timeout_ticks timeout_secs)).2.
End Wasm.

(** ** [MigrationExecutionRegistry] *)

(** The engines of the runs in flight, each with its epoch. *)
Abbreviation MigrationExecutionRegistry := (gmap N Z).

Definition register (r : MigrationExecutionRegistry) (migration_id : MigrationId) : MigrationExecutionRegistry * bool :=
  (<[migration_id := 0]> r, bool_decide (r !! migration_id = None)).
Definition unregister (r : MigrationExecutionRegistry) (migration_id : MigrationId) : MigrationExecutionRegistry :=
  delete migration_id r.
Definition is_in_flight (r : MigrationExecutionRegistry) (migration_id : MigrationId) : bool :=
  bool_decide (is_Some (r !! migration_id)).
Definition len (r : MigrationExecutionRegistry) : nat := size r.
Definition interrupt (r : MigrationExecutionRegistry) (migration_id : MigrationId) : MigrationExecutionRegistry * bool :=
  match r !! migration_id with
  | Some epoch => (<[migration_id := epoch + 1]> r, true)
  | None => (r, false)
  end.

(** ** What a run can do *)

Section RunFacts.
Context `{!WasmRuntime} {St : Type} (host : St -> bytes -> HostCall -> option (St * bytes * Z)) (price : Z -> Z).
Context (R : relation St) `{!PreOrder R}.
Hypothesis host_moves : forall st m call st' m' ret, host st m call = Some (st', m', ret) -> R st st'.

Lemma serve_moves i st call i' st' ret : serve_call host i st call = Some (i', st', ret) -> R st st'.
Proof using host_moves PreOrder0.
  unfold serve_call. destruct (memory i) as [m|]; [|by intros [= _ <- _]].
  destruct (host st m call) as [[[st1 m1] n]|] eqn:Hc; [|done]. intros [= _ <- _]. by eapply host_moves.
Qed.

Lemma run_guest_moves fuel budget i ret st : R st (run_guest host price fuel budget i ret st).2.
Proof using host_moves PreOrder0.
  revert budget i ret st. induction fuel as [|fuel IH]; intros budget i ret st; cbn [run_guest]; [done|].
  destruct (resume i ret) as [[i'|reason|i' call|] cost]; try (case_match; done); [|done].
  destruct (_ <? _); [done|]. destruct (serve_call host i' st call) as [[[i1 st1] n]|] eqn:Hs; [|done].
  etrans; [by eapply serve_moves|apply IH].
Qed.

Lemma instantiate_moves budget w st : R st (instantiate host price budget w st).2.
Proof using host_moves PreOrder0.
  unfold instantiate. destruct (forallb _ _); [|done]. destruct (link w) as [i|]; [|done].
  destruct (start_function i) as [i'|]; [|done].
  pose proof (run_guest_moves (S (Z.to_nat budget)) budget i' 0 st) as Hr. unfold run_for.
  by destruct (run_guest _ _ _ _ _ _ _) as [[] st'].
Qed.
End RunFacts.

(** A run panics where a host function does. *)
Definition panics `{!WasmRuntime} {St} (host : St -> bytes -> HostCall -> option (St * bytes * Z)) : Prop :=
  exists i ret j call cost m st, resume i ret = (Calls j call, cost) /\ memory j = Some m /\ host st m call = None.

Lemma run_guest_panics `{!WasmRuntime} {St} host price fuel budget i ret (st st' : St) :
  run_guest host price fuel budget i ret st = (Panicked, st') -> panics host.
Proof.
  revert budget i ret st. induction fuel as [|fuel IH]; intros budget i ret st; cbn [run_guest]; [done|].
  destruct (resume i ret) as [[i'|reason|i' call|] cost] eqn:Hr; try (by case_match); [|done].
  destruct (_ <? _); [done|]. destruct (serve_call host i' st call) as [[[i1 st1] n]|] eqn:Hs; [apply IH|].
  intros _. unfold serve_call in Hs. destruct (memory i') as [m|] eqn:Hm; [|done].
  destruct (host st m call) as [[[st1 m1] n]|] eqn:Hc; [done|]. by exists i, ret, i', call, cost, m, st.
Qed.

Lemma instantiate_panics `{!WasmRuntime} {St} host price budget w (st st' : St) :
  instantiate host price budget w st = (StartPanicked, st') -> panics host.
Proof.
  unfold instantiate. destruct (forallb _ _); [|done]. destruct (link w) as [i|]; [|done].
  destruct (start_function i) as [i'|]; [|done]. unfold run_for.
  destruct (run_guest _ _ _ _ _ _ _) as [[] st1] eqn:Hr; try done. intros _. by eapply run_guest_panics.
Qed.

(** The fuel is the budget: with more of it a run does the same. *)
Lemma run_guest_enough `{!WasmRuntime} {St} host price f1 f2 budget i ret (st : St) :
  (forall cost, 1 <= price cost) -> (Z.to_nat budget < f1)%nat -> (Z.to_nat budget < f2)%nat ->
  run_guest host price f1 budget i ret st = run_guest host price f2 budget i ret st.
Proof.
  intros Hp. revert f2 budget i ret st.
  induction f1 as [|f1 IH]; intros [|f2] budget i ret st H1 H2; [lia..|]. cbn [run_guest].
  destruct (resume i ret) as [[i'|reason|i' call|] cost]; try done.
  destruct (Z.ltb_spec budget (price cost)); [done|].
  destruct (serve_call host i' st call) as [[[i1 st1] n]|]; [|done]. specialize (Hp cost). apply IH; lia.
Qed.

Lemma mem_write_length m off b m' : 0 <= off -> mem_write m off b = Some m' -> length m' = length m.
Proof.
  unfold mem_write. intros Hoff. destruct (Z.leb_spec (off + Z.of_nat (length b)) (Z.of_nat (length m))); [|done].
  intros [= <-]. rewrite !length_app, length_take, length_drop. lia.
Qed.

Section NativeFacts.
Context `{!SerdeJson} (json_to_string : Json -> option string) (json_of_string : string -> option Json).
Context (json_of_bytes : bytes -> option Json) `{!WasmRuntime}.

Abbreviation native_host := (native_call json_to_string json_of_string json_of_bytes 64).
Abbreviation execute := (execute_native json_to_string json_of_string json_of_bytes).

(** The second table of rows is the first after some writes of values. *)
Definition written (pr pr' : Projection) : Prop := exists ws, pr' = Store.native_writes json_to_string pr ws.
#[local] Instance written_preorder : PreOrder written.
Proof.
  split; [by exists []|]. intros p1 p2 p3 [w1 ->] [w2 ->]. exists (w1 ++ w2). unfold Store.native_writes.
  by rewrite foldl_app.
Qed.

Lemma native_call_written st m call st' m' ret : native_host st m call = Some (st', m', ret) -> written st st'.
Proof.
  destruct call as [ptr len|tp tl kp kl op om|tp tl kp kl vp vl]; cbn [native_call].
  - by intros [= <- _ _].
  - destruct (native_read_row _ _ _ _ _ _ _ _ _ _ _) as [[m1 n]|]; [|done]. by intros [= <- _ _].
  - unfold native_write_row. destruct (read_three _ _ _ _ _ _ _ _) as [[[[table key] buf]|]|]; [| |done].
    + destruct (json_of_bytes buf) as [v|]; intros [= <- _ _]; [|done]. by exists [(table, key, v)].
    + by intros [= <- _ _].
Qed.

(** A call whose lengths are not negative does not panic. *)
Definition lengths_ok (call : HostCall) : Prop :=
  match call with
  | LogMessage _ _ => True
  | ReadRow _ tl _ kl _ _ => 0 <= tl < 2 ^ 31 /\ 0 <= kl < 2 ^ 31
  | WriteRow _ tl _ kl _ vl => 0 <= tl < 2 ^ 31 /\ 0 <= kl < 2 ^ 31 /\ 0 <= vl < 2 ^ 31
  end.

Lemma allocates_ok len : 0 <= len < 2 ^ 31 -> allocates 64 (as_usize 64 len) = true.
Proof. intros Hl. unfold allocates, as_usize. rewrite Z.mod_small by lia. apply Z.leb_le. lia. Qed.

Lemma native_call_total st m call : lengths_ok call -> is_Some (native_host st m call).
Proof.
  destruct call as [ptr len|tp tl kp kl op om|tp tl kp kl vp vl]; cbn [native_call lengths_ok].
  - by eexists.
  - intros [Ht Hk]. unfold native_read_row, read_text. rewrite !allocates_ok by done.
    destruct (mem_read _ _ _ ≫= from_utf8); [|by eexists]. destruct (mem_read _ _ _ ≫= from_utf8); [|by eexists].
    destruct (Store.read _ _ _ _) as [[v|]|]; [|by eexists..]. destruct (json_to_string v); [|by eexists].
    destruct (reply _ _ _ _ _). by eexists.
  - intros (Ht & Hk & Hv). unfold native_write_row, read_three. rewrite !allocates_ok by done. cbn [andb].
    destruct (mem_read m (as_usize 64 tp) _ ≫= _) as [[[table key] buf]|]; [|by eexists].
    destruct (json_of_bytes buf); by eexists.
Qed.

Lemma sandbox_confined_spec (transform : bytes) (timeout_secs deadline : Z) (store : Projection) :
  let '(store', result) := execute transform timeout_secs deadline store in
  written store store' /\
  (forall w imp, module_new transform = Ok w -> imp ∈ module_imports w -> imp ∉ host_functions ->
     store' = store /\ result = Some (Aborted "instantiation failed")) /\
  match result with
  | Some (TimedOut secs) => secs = timeout_secs
  | Some (RevokedResult _) => False
  | Some _ => True
  | None => exists i ret j call cost, resume i ret = (Calls j call, cost) /\ ~ lengths_ok call
  end.
Proof.
  assert (panics native_host -> exists i ret j call cost, resume i ret = (Calls j call, cost) /\ ~ lengths_ok call)
    as Hpanic.
  { intros (i & ret & j & call & cost & m & st & Hr & _ & Hc). exists i, ret, j, call, cost. split; [done|].
    intros Hl. destruct (native_call_total st m call Hl) as [x Hx]. congruence. }
  unfold execute_native. destruct (module_new transform) as [w|e] eqn:Hnew; [|by split_and!].
  pose proof (instantiate_moves native_host (fun _ => 1) written native_call_written deadline w store) as Hw1.
  pose proof (instantiate_panics native_host (fun _ => 1) deadline w store) as Hp1.
  assert (forall w' imp, (Ok w : result string Wasm) = Ok w' -> imp ∈ module_imports w' -> imp ∉ host_functions ->
    instantiate native_host (fun _ => 1) deadline w store = (NotInstantiated "unknown import", store)) as Himp.
  { intros w' imp Hw Hin Hnot. assert (w = w') as <- by congruence. unfold instantiate.
    destruct (forallb _ _) eqn:Hall; [|done]. rewrite forallb_forall in Hall.
    apply list_elem_of_In, Hall, bool_decide_eq_true in Hin. done. }
  destruct (instantiate _ _ _ _ _) as [[i budget|reason|] st1]; cbn [snd] in Hw1.
  2:{ split_and!; [done| |done]. intros w' imp Hw' Hin Hnot. by injection (Himp w' imp Hw' Hin Hnot) as _ ->. }
  2:{ split_and!; [done| |by eapply Hpanic, Hp1]. intros w' imp Hw' Hin Hnot. by specialize (Himp w' imp Hw' Hin Hnot). }
  assert (forall w' imp, (Ok w : result string Wasm) = Ok w' -> imp ∈ module_imports w' -> imp ∉ host_functions -> False) as Hno
    by (intros w' imp Hw' Hin Hnot; by specialize (Himp w' imp Hw' Hin Hnot)).
  destruct (run_export i) as [[i'|e]|]; try (split_and!; [done|intros w' imp Hw' Hin Hnot; by destruct (Hno w' imp)|done]).
  unfold run_for. pose proof (run_guest_moves native_host (fun _ => 1) written native_call_written
    (S (Z.to_nat budget)) budget i' 0 st1) as Hw2.
  destruct (run_guest _ _ _ _ _ _ _) as [[] st2] eqn:Hr; cbn [snd] in Hw2;
    (split_and!; [by etrans|intros w' imp Hw' Hin Hnot; by destruct (Hno w' imp)|]); try done.
  by eapply Hpanic, run_guest_panics.
Qed.

(** C19: the sandbox confines a transform.  Whatever a module does and whenever it is interrupted, the rows
    afterwards are the rows before with some values written to them, through [LocalStore::write],
    and nothing else of the device is touched; a module that imports anything but the three host
    functions never runs; a time-out is reported with the limit that was set, and only a host
    function called with a negative length ends the task with an error. *)
Theorem sandbox_confined (transform : bytes) (timeout_secs deadline : Z) (store : Projection) :
  let '(store', result) := execute transform timeout_secs deadline store in
  written store store' /\
  (forall w imp, module_new transform = Ok w -> imp ∈ module_imports w -> imp ∉ host_functions ->
     store' = store /\ result = Some (Aborted "instantiation failed")) /\
  match result with
  | Some (TimedOut secs) => secs = timeout_secs
  | Some (RevokedResult _) => False
  | Some _ => True
  | None => exists i ret j call cost, resume i ret = (Calls j call, cost) /\ ~ lengths_ok call
  end.
Proof. by apply sandbox_confined_spec. Qed.
End NativeFacts.

(** The ticks of the WASM build fit an [u32]; past 128850 seconds the limit grows no more. *)
Lemma timeout_ticks_bound timeout_secs : 0 <= timeout_secs ->
  timeout_ticks timeout_secs = Z.min timeout_secs 128850 * 33333 /\ u32_ok (timeout_ticks timeout_secs).
Proof.
  intros Ht. unfold timeout_ticks. change ((2 ^ 32 - 1) / 33333) with 128850.
  destruct (Z.eqb_spec timeout_secs 0) as [->|Hne]; [by split; [|unfold u32_ok]|].
  rewrite wrap_u64_small by (unfold u64_ok; lia). rewrite wrap_u32_small by (unfold u32_ok; lia).
  split; [done|]. unfold u32_ok. lia.
Qed.
End Sandbox.

(** ** Concrete inputs: modules that are a script of calls *)

Section Witnesses.
Import Sandbox Projection Migration.
#[local] Existing Instance Crdt.toy_json.

Record Script := mkScript { calls : list HostCall; ending : Turn unit; data : bytes }.

#[local] Instance scripts (modules : bytes -> option (list (string * string) * Script)) : WasmRuntime := {|
  Wasm := list (string * string) * Script;
  Instance := Script;
  module_new b := match modules b with Some w => Ok w | None => Err "no module" end;
  module_imports w := w.1;
  link w := Ok w.2;
  start_function _ := None;
  run_export i := Some (Ok i);
  memory i := Some (data i);
  set_memory i m := mkScript (calls i) (ending i) m;
  resume i _ := (match calls i with
                 | call :: rest => Calls (mkScript rest (ending i) (data i)) call
                 | [] => match ending i with
                         | Returns _ => Returns i
                         | Traps reason => Traps reason
                         | _ => Spins
                         end
                 end, 1)
|}.

(** Writes the row [t]/[k] and then traps; writes it under a negative length; never ends. *)
Definition samples (b : bytes) : option (list (string * string) * Script) :=
  match b with
  | [0%N] => Some ([("host", "write_row")], mkScript [WriteRow 0 1 1 1 2 1] (Traps "unreachable") [116; 107; 118]%N)
  | [1%N] => Some ([], mkScript [WriteRow 0 (-1) 1 1 2 1] (Returns tt) [116; 107; 118]%N)
  | [2%N] => Some ([], mkScript [] Spins [])
  | [3%N] => Some ([("wasi_snapshot_preview1", "fd_write")], mkScript [] (Returns tt) [])
  | _ => None
  end.

Definition text_of (v : Json) : option string := match v with JString s => Some s | _ => None end.
Definition value_of (b : bytes) : option Json := Some (JString (string_of_bytes b)).
Definition execute_sample (n : N) : Projection * option MigrationResult :=
  execute_native (H0 := scripts samples) text_of (fun s => Some (JString s)) value_of [n] 30 1000 [].

(** What an aborted transform has written stays: nothing takes it back. *)
Example aborted_writes_stay :
  (execute_sample 0).2 = Some (Aborted "trap during migration") /\ text_at (execute_sample 0).1 "t" "k" = Some "v".
Proof. by vm_compute. Qed.

(** A negative length panics the task that runs the transform. *)
Example negative_length_panics : (execute_sample 1).2 = None.
Proof. by vm_compute. Qed.

Example endless_module_times_out : (execute_sample 2).2 = Some (TimedOut 30).
Proof. by vm_compute. Qed.

Example foreign_import_aborts : (execute_sample 3).2 = Some (Aborted "instantiation failed").
Proof. by vm_compute. Qed.
End Witnesses.
