(* ===== verification/Core.v ===== *)
(** * The handle of a device: the native half of [api/mod.rs]

    [CoreHandle] owns one instance of every other component and is where they meet: a local
    write goes through the trust gate, the local store, the contamination engine, the CRDT
    engine, the durability subsystem, the side-car ledger and the transport; a message from
    the mesh is routed to the component it concerns.  Every connection of the handle is open
    on the same SQLite file, so the DAG and the projection tables are fields of the handle and
    the contamination engine works on them through [with_cce].  The mutexes of the code are
    held for one call at a time; an operation is modelled as the sequence of those calls, and
    the jobs of the migration pipeline, which interleave with everything else, as operations
    of their own.  What an operation reads from outside, the clock and the UUID generator, is
    its [Ambient] argument.  Reading the clock twice within one operation gives one value. *)

From Stdlib Require Import Floats.SpecFloat.
From S2P Require Import Prelude Types Projection Scheduler Fragment Dag Identity Auth Revocation Saturate Contamination Schema SchemaText.
From S2P Require Import Automerge Verify Crdt Ledgers Migration CloudQueue Durability CloudLedger Transport Store Sandbox.

Abbreviation CrdtEngine := Crdt.CrdtEngine.
Abbreviation Capabilities := Capability.CapabilityManager.

(** The serialisers, hashes and generators of other crates the handle puts together. *)
Class Codecs `{!SerdeJson} := {
  zstd_encode : bytes -> Res bytes;
  canonical_json : CanonicalDeltaPayload -> bytes;
  sha256 : bytes -> N;
  delta_to_json : Delta -> option bytes;
  delta_of_json : bytes -> option Delta;
  json_to_string : Json -> option string;
  json_of_string : string -> option Json;
  json_of_bytes : bytes -> option Json;
  error_to_string : TirBaseError -> string;
  hex_encode : bytes -> string;
  hex_decode : string -> option bytes;
  gossip_to_bytes : Mesh.GossipMessage -> bytes;
  gossip_from_bytes : bytes -> option Mesh.GossipMessage;
  incident_ids : nat -> IncidentId;
  f64_parse : string -> spec_float;
  f64_display : spec_float -> string;
  pest_error : string -> Z * Z * string
}.

Record Ambient := mkAmbient {
  now_micros : Z;
  now_secs : Z;
  uuid : N
}.

Module Core.
Import Trust.

Section Core.
Context `{!Automerge} `{!Bs58} `{!Ed25519} `{!BiscuitLib} `{!SerdeJson} `{!Codecs}.
Context `{!LruCache (string * string) Session.ResumptionCredential} `{!Noise} `{!SelectOrder}.
Context `{!HashIter N Z} `{!HashIter string nat} `{!HashIter N (list (option Fragment.DeltaFragment))}.
Context `{!HashIter string Discovery.PeerState} `{!HashIter N Contamination.IncidentContextObject}.
Context `{!HashIter N Contamination.CompositeIncidentInstance}.
Context {C : Type} `{!Outbound C}.

Abbreviation CCE := Contamination.CausalContaminationEngine.

Record CoreHandle := mkCore {
  identity : Identity.IdentityManager;
  store : Projection.Projection;                       (* the tables proj_* *)
  crdt : CrdtEngine;                                      (* its [dag]: the tables dag_* *)
  cce : CCE;
  capability : Capabilities;
  transport : Mesh.MeshTransport (C := C);
  durability : Durability.DurabilitySubsystem;
  cloud_ledger : CloudLedger.CloudLedger;
  migration : Migration.SchemaMigrationEngine;
  dispatched : list Migration.MigrationDelta;             (* jobs that have not prepared yet *)
  migration_jobs : list Migration.Job;
  revocation : Revocation.RevocationSubsystem;
  inbound_rx : list Mesh.GossipMessage;
  rejection_records_channel : list Crdt.DeltaRejectionRecord;
  durability_events_channel : list Durability.TierChanged
}.

Definition set_store (h : CoreHandle) x := mkCore (identity h) x (crdt h) (cce h) (capability h) (transport h)
  (durability h) (cloud_ledger h) (migration h) (dispatched h) (migration_jobs h) (revocation h) (inbound_rx h)
  (rejection_records_channel h) (durability_events_channel h).
Definition set_crdt (h : CoreHandle) x := mkCore (identity h) (store h) x (cce h) (capability h) (transport h)
  (durability h) (cloud_ledger h) (migration h) (dispatched h) (migration_jobs h) (revocation h) (inbound_rx h)
  (rejection_records_channel h) (durability_events_channel h).
Definition set_cce (h : CoreHandle) x := mkCore (identity h) (store h) (crdt h) x (capability h) (transport h)
  (durability h) (cloud_ledger h) (migration h) (dispatched h) (migration_jobs h) (revocation h) (inbound_rx h)
  (rejection_records_channel h) (durability_events_channel h).
Definition set_capability (h : CoreHandle) x := mkCore (identity h) (store h) (crdt h) (cce h) x (transport h)
  (durability h) (cloud_ledger h) (migration h) (dispatched h) (migration_jobs h) (revocation h) (inbound_rx h)
  (rejection_records_channel h) (durability_events_channel h).
Definition set_transport (h : CoreHandle) x := mkCore (identity h) (store h) (crdt h) (cce h) (capability h) x
  (durability h) (cloud_ledger h) (migration h) (dispatched h) (migration_jobs h) (revocation h) (inbound_rx h)
  (rejection_records_channel h) (durability_events_channel h).
Definition set_durability (h : CoreHandle) x := mkCore (identity h) (store h) (crdt h) (cce h) (capability h) (transport h)
  x (cloud_ledger h) (migration h) (dispatched h) (migration_jobs h) (revocation h) (inbound_rx h)
  (rejection_records_channel h) (durability_events_channel h).
Definition set_ledger (h : CoreHandle) x := mkCore (identity h) (store h) (crdt h) (cce h) (capability h) (transport h)
  (durability h) x (migration h) (dispatched h) (migration_jobs h) (revocation h) (inbound_rx h)
  (rejection_records_channel h) (durability_events_channel h).
Definition set_migration (h : CoreHandle) x := mkCore (identity h) (store h) (crdt h) (cce h) (capability h) (transport h)
  (durability h) (cloud_ledger h) x (dispatched h) (migration_jobs h) (revocation h) (inbound_rx h)
  (rejection_records_channel h) (durability_events_channel h).
Definition set_jobs (h : CoreHandle) d j := mkCore (identity h) (store h) (crdt h) (cce h) (capability h) (transport h)
  (durability h) (cloud_ledger h) (migration h) d j (revocation h) (inbound_rx h)
  (rejection_records_channel h) (durability_events_channel h).
Definition set_revocation (h : CoreHandle) x := mkCore (identity h) (store h) (crdt h) (cce h) (capability h) (transport h)
  (durability h) (cloud_ledger h) (migration h) (dispatched h) (migration_jobs h) x (inbound_rx h)
  (rejection_records_channel h) (durability_events_channel h).
Definition set_inbound (h : CoreHandle) x := mkCore (identity h) (store h) (crdt h) (cce h) (capability h) (transport h)
  (durability h) (cloud_ledger h) (migration h) (dispatched h) (migration_jobs h) (revocation h) x
  (rejection_records_channel h) (durability_events_channel h).
Definition emit_records (h : CoreHandle) rs := mkCore (identity h) (store h) (crdt h) (cce h) (capability h) (transport h)
  (durability h) (cloud_ledger h) (migration h) (dispatched h) (migration_jobs h) (revocation h) (inbound_rx h)
  (rejection_records_channel h ++ rs) (durability_events_channel h).
Definition emit_tiers (h : CoreHandle) ts := mkCore (identity h) (store h) (crdt h) (cce h) (capability h) (transport h)
  (durability h) (cloud_ledger h) (migration h) (dispatched h) (migration_jobs h) (revocation h) (inbound_rx h)
  (rejection_records_channel h) (durability_events_channel h ++ ts).

Definition local_did (h : CoreHandle) : Did := Identity.did (identity h).

(** ** The shared file *)

(** The contamination engine as it finds the tables. *)
Definition cce_view (h : CoreHandle) : CCE :=
  let s := Contamination.core (cce h) in
  Contamination.mkEngine
    (Contamination.mkState (Crdt.dag (crdt h)) (store h) (Contamination.incidents s)
       (Contamination.composite_incidents s) (Contamination.next s))
    (Contamination.contaminated_rows (cce h)).

Definition put_cce (h : CoreHandle) (c : CCE) : CoreHandle :=
  let s := Contamination.core c in
  set_cce (set_store (set_crdt h (Crdt.set_store (crdt h) (Contamination.db s) (Crdt.automerge_docs (crdt h))))
    (Contamination.proj s)) c.

Definition with_cce {A} (h : CoreHandle) (f : CCE -> CCE * A) : CoreHandle * A :=
  let '(c, a) := f (cce_view h) in (put_cce h c, a).

Definition tag_contamination_root (h : CoreHandle) (root : DeltaId) (source : Contamination.TaintSource) (now : Z)
  : CoreHandle :=
  (with_cce h (fun c => Contamination.tag_contamination_root incident_ids c root source now)).1.

(** ** Local input and output *)

Definition ensure_local_trust_allows_io (h : CoreHandle) : Res unit :=
  if bool_decide (Capability.trust_level (capability h) = Revoked) then
    Err (AuthorisationFailed "device is REVOKED")
  else Ok tt.

Record WriteResult := mkWriteResult {
  wr_delta_id : DeltaId;
  wr_durability_tier : Durability.DurabilityTier;
  wr_unverified_warning : option Z
}.

(** Step 3a of [write]: the tag that is signed into the Delta. *)
Definition human_reaction_tag (h : CoreHandle) (table key : string) : option DeltaTag :=
  let local_projection_contaminated := Contamination.is_row_contaminated (cce h) table key in
  let quarantine_active := Migration.is_schema_quarantined (migration h) table in
  let active_incident_id := Contamination.active_incident_for_row (cce h) table key in
  if local_projection_contaminated || quarantine_active then
    ContaminatedByHumanReaction <$> active_incident_id
  else None.

(** Steps 4 to 7 of [write], once the Delta is signed and in the DAG. *)
Definition register_written (h : CoreHandle) (table : string) (delta : Delta) (tag : option DeltaTag) (compacted : bool)
    (a : Ambient) : CoreHandle * Res WriteResult :=
  let h := match tag with
           | Some (ContaminatedByHumanReaction hr_incident_id) =>
               tag_contamination_root h (d_id delta) (Contamination.HumanReaction hr_incident_id) (now_micros a)
           | _ => h
           end in
  let delta_bytes := default [] (delta_to_json delta) in
  match Durability.register_delta (durability h) (d_id delta) (d_id delta) delta_bytes (d_causal_parents delta) ∅ with
  | (d, Err e) => (set_durability h d, Err e)
  | (d, Ok _) =>
      let d := if compacted then Durability.set_queue d (CloudQueue.mark_compacted (Durability.cloud_queue d) (d_id delta))
               else d in
      let h := set_durability h d in
      let '(m, _) := Migration.record_corrupted_window_write sha256 (migration h) table delta_bytes (d_created_at delta) in
      let h := set_migration h m in
      let '(t, _) := Mesh.send_delta delta_to_json gossip_to_bytes (transport h) (local_did h) delta in
      let h := set_transport h t in
      (h, Ok (mkWriteResult (d_id delta) Durability.Uncommitted (Capability.unverified_warning (capability h))))
  end.

Definition write (h : CoreHandle) (table key : string) (data : Json) (a : Ambient) : CoreHandle * Res WriteResult :=
  match ensure_local_trust_allows_io h with
  | Err e => (h, Err e)
  | Ok _ =>
  match Store.write json_to_string (store h) table key data with
  | (_, Err e) => (h, Err e)
  | (rows, Ok _) =>
  let h := set_store h rows in
  let tag := human_reaction_tag h table key in
  match Crdt.write_scalar json_to_string (crdt h) table key data with
  | (c, Err e) => (set_crdt h c, Err e)
  | (c, Ok automerge_bytes) =>
  let '(c, compacted) := Crdt.maybe_compact c table (Crdt.compaction_policy_for c table) in
  match Crdt.produce_delta_with_tags zstd_encode canonical_json sha256 delta_to_json c automerge_bytes Low []
          (match tag with Some t => [t] | None => [] end) (now_micros a) with
  | (c, Err e) => (set_crdt h c, Err e)
  | (c, Ok delta) => register_written (set_crdt h c) table delta tag compacted a
  end end end end.

Record QueryResult := mkQueryResult {
  qr_table : string;
  qr_key : string;
  qr_data : Json;
  qr_unverified_warning : option Z;
  qr_contaminated : bool
}.

Definition read (h : CoreHandle) (table key : string) : Res QueryResult :=
  _ ← ensure_local_trust_allows_io h;
  found ← Store.read json_of_string (store h) table key;
  data ← ok_or found (LocalStoreWriteFailed "key not found in table");
  Ok (mkQueryResult table key data (Capability.unverified_warning (capability h)) false).

Context (number_eqb : Number -> Number -> bool).

Definition query (h : CoreHandle) (table : string) (filter : option Json) : Res (list QueryResult) :=
  _ ← ensure_local_trust_allows_io h;
  rows ← Store.query json_of_string number_eqb (store h) table filter;
  let warning := Capability.unverified_warning (capability h) in
  Ok (map (fun r => mkQueryResult table r.1 r.2 warning false) rows).

(** ** Keys and tokens *)

Definition trust_level (h : CoreHandle) : TrustLevel := Capability.trust_level (capability h).

Definition present_biscuit_token (h : CoreHandle) (token_hex : string) (a : Ambient) : CoreHandle * Res TrustLevel :=
  match hex_decode token_hex with
  | None => (h, Err (AuthorisationFailed "invalid hex encoding in biscuit token"))
  | Some [] => (h, Err (AuthorisationFailed "biscuit token is absent or empty"))
  | Some token_bytes =>
      let '(c, r) := Capability.present_token (capability h) token_bytes (now_secs a) (now_micros a) in
      (set_capability h c, r)
  end.

Definition root_ca_public_key (h : CoreHandle) : bytes :=
  default [] (Capability.root_ca_primary_key (capability h)).

Definition register_root_ca_key (h : CoreHandle) (key : bytes) (token : option (bytes * Z)) : CoreHandle * Res TrustLevel :=
  let '(c, r) := Capability.register_root_ca_key (capability h) key token in (set_capability h c, r).

Definition register_migration_ca_key (h : CoreHandle) (key : bytes) : CoreHandle :=
  set_migration h (Migration.register_ca_public_key (migration h) key).

(** ** Revocation *)

(** [enqueue_revocation_gossip]: a Delta that carries the encoded message as its document. *)
Definition revocation_wrapper (rev_delta : Revocation.RevocationDelta) : Delta :=
  mkDelta 0 "tirbase/revocation" [] 0 (gossip_to_bytes (Mesh.InboundRevocationDelta rev_delta)) High [] [] 0 0.
Definition enqueue_revocation_gossip (h : CoreHandle) (rev_delta : Revocation.RevocationDelta) (now : Z) : CoreHandle :=
  set_transport h (Mesh.enqueue_outbound delta_to_json (transport h) (revocation_wrapper rev_delta) now).

(** The hash of the revocation payload as bytes. *)
Definition sha256_bytes (b : bytes) : bytes := be_bytes 32 (sha256 b).

(** The two callbacks handed to [process_incoming_delta]. *)
Definition run_effect (now : Z) (h : CoreHandle) (effect : Revocation.Effect) : CoreHandle :=
  match effect with
  | Revocation.OnRevocationApplied _ complete_delta => enqueue_revocation_gossip h complete_delta now
  | Revocation.OnCceTrigger _ delta_ids =>
      foldl (fun h delta_id => tag_contamination_root h delta_id (Contamination.DeviceRevocation delta_id) now) h delta_ids
  end.

(** The part the inbound arm and [initiate_revocation] share. *)
Definition process_revocation (h : CoreHandle) (rev_delta : Revocation.RevocationDelta) (a : Ambient)
  : CoreHandle * Res Revocation.RevocationStatus :=
  let '(r, effects, result) :=
    Revocation.process_incoming_delta sha256_bytes (Crdt.dag (crdt h)) (revocation h) rev_delta (now_micros a) in
  let h := foldl (run_effect (now_micros a)) (set_revocation h r) effects in
  match result with
  | Ok Revocation.Applied =>
      let target := Revocation.target_did rev_delta in
      let h := set_crdt h (Crdt.mark_did_revoked (crdt h) target) in
      (if bool_decide (target = local_did h) then
         set_capability h (Capability.apply_revocation (capability h) (now_micros a))
       else h, result)
  | _ => (h, result)
  end.

(** [str::trim().is_empty()] *)
Context (is_blank : string -> bool).

Definition initiate_revocation (h : CoreHandle) (target_did manager_token : string) (a : Ambient)
  : CoreHandle * Res unit :=
  if is_blank manager_token then (h, Err (AuthorisationFailed "manager_token must not be blank"))
  else if is_blank target_did then (h, Err (AuthorisationFailed "target_did must not be blank"))
  else
    match Revocation.produce_partial_delta sha256_bytes target_did (local_did h)
            (Identity.signing_key (identity h)) (now_micros a) with
    | Err e => (h, Err e)
    | Ok partial =>
        let h := enqueue_revocation_gossip h partial (now_micros a) in
        let '(h, result) := process_revocation h partial a in
        (h, _ ← result; Ok tt)
    end.

Definition device_revocation_status (h : CoreHandle) (device_did : Did) : option Revocation.DeviceRevocationStatus :=
  Revocation.device_status (revocation h) !! device_did.

(** ** Saturate mode *)

Definition verify_disaster_alert_token (h : CoreHandle) (biscuit_token : bytes) (a : Ambient) : Res Z :=
  match biscuit_token with
  | [] => Err (SignatureVerificationFailed "biscuit token is absent or empty")
  | _ =>
      match root_ca_public_key h with
      | [] => Err (AuthorisationFailed "no root CA public key registered; cannot verify Biscuit token")
      | root_ca_key =>
          match Biscuit.verify_and_check_caveat biscuit_token "disaster-alert" root_ca_key (now_secs a) with
          | Ok true => Ok (now_secs a)
          | Ok false => Err (SignatureVerificationFailed "biscuit token is missing the disaster-alert caveat")
          | Err e => Err e
          end
      end
  end.

Definition activate_saturate_mode (h : CoreHandle) (biscuit_token : bytes) (a : Ambient) : CoreHandle * Res unit :=
  match verify_disaster_alert_token h biscuit_token a with
  | Err e => (h, Err e)
  | Ok now =>
      let '(t, r) := Mesh.activate_saturate_mode (transport h) (local_did h) biscuit_token now in
      (set_transport h t, r)
  end.

Definition renew_saturate_mode (h : CoreHandle) (biscuit_token : bytes) (a : Ambient) : CoreHandle * Res unit :=
  match verify_disaster_alert_token h biscuit_token a with
  | Err e => (h, Err e)
  | Ok now =>
      let '(t, r) := Mesh.renew_saturate_mode (transport h) (local_did h) biscuit_token now in
      (set_transport h t, r)
  end.

Definition terminate_saturate_mode (h : CoreHandle) (message : bytes) (co_manager_signatures : list (Did * bytes))
    (a : Ambient) : CoreHandle * Res unit :=
  match message with
  | [] => (h, Err (AuthorisationFailed "termination message must not be empty"))
  | _ =>
      match Identity.sign (identity h) message with
      | Err e => (h, Err e)
      | Ok local_signature =>
          let '(t, r) := Mesh.terminate_saturate_mode (transport h)
                           ((local_did h, local_signature) :: co_manager_signatures) message (now_secs a) in
          (set_transport h t, r)
      end
  end.

(** ** Resolving contamination *)

(** The checks [verify_contamination] and [admin_close_ico] share: the signature of the device
    over the payload and the expiry of the token, in the microseconds the engine is given. *)
Definition manager_authority (h : CoreHandle) (payload manager_token : bytes) (now_secs : Z) : Res (bytes * Z) :=
  match manager_token with
  | [] => Err (AuthorisationFailed "manager_token must not be blank")
  | _ =>
      manager_sig ← Keypair.sign (Identity.signing_key (identity h)) payload;
      match root_ca_public_key h with
      | [] => Err (AuthorisationFailed "no root CA public key registered; cannot verify manager token")
      | root_ca_key =>
          match Biscuit.verify_token manager_token root_ca_key now_secs with
          | Err _ => Err (AuthorisationFailed "manager token verification failed")
          | Ok claims => Ok (manager_sig, wrap_i64 (Biscuit.c_expires_at claims * 1000000))
          end
      end
  end.

Definition verify_contamination (h : CoreHandle) (root_delta_id : DeltaId) (manager_token : bytes) (a : Ambient)
  : CoreHandle * Res unit :=
  match manager_authority h (be_bytes 32 root_delta_id) manager_token (now_secs a) with
  | Err e => (h, Err e)
  | Ok (manager_sig, token_expiry) =>
      with_cce h (fun c => Contamination.engine_verify_data incident_ids c root_delta_id (local_did h) manager_sig
                             token_expiry (now_secs a) (now_micros a))
  end.

Definition admin_close_ico (h : CoreHandle) (ico_id : IncidentId) (manager_token : bytes) (a : Ambient)
  : CoreHandle * Res unit :=
  match manager_authority h (be_bytes 16 ico_id) manager_token (now_secs a) with
  | Err e => (h, Err e)
  | Ok (manager_sig, token_expiry) =>
      with_cce h (fun c => Contamination.engine_admin_close c ico_id (local_did h) manager_sig token_expiry
                             (now_secs a) (now_micros a))
  end.

(** ** The inbound pipeline *)

Definition issue_durability_receipt (h : CoreHandle) (state_hash : DeltaId) (a : Ambient) : CoreHandle :=
  match Keypair.sign (Identity.signing_key (identity h)) (Receipt.receipt_signing_payload state_hash (uuid a)) with
  | Err _ => h
  | Ok issuer_signature =>
      let receipt := Receipt.mkReceipt (uuid a) state_hash (local_did h) issuer_signature None None (now_micros a) in
      set_transport h (Mesh.send_receipt gossip_to_bytes (transport h) receipt).1
  end.

Definition as_str (v : option Json) : option string := match v with Some (JString s) => Some s | _ => None end.

Definition store_write (h : CoreHandle) (table key : string) (v : Json) : CoreHandle :=
  set_store h (Store.write json_to_string (store h) table key v).1.

(** The loop over a JSON envelope, and what follows it. *)
Fixpoint envelope_loop (h : CoreHandle) (tbl rkey : string) (obj app_data : list (string * Json))
  : CoreHandle * list (string * Json) :=
  match obj with
  | [] => (h, app_data)
  | (k, v) :: obj =>
      if bool_decide (k <> "_tirbase_table") && bool_decide (k <> "_tirbase_key") then
        if bool_decide (k = "_data") then (store_write h tbl rkey v, [])
        else envelope_loop h tbl rkey obj (app_data ++ [(k, v)])
      else envelope_loop h tbl rkey obj app_data
  end.
Definition project_envelope (h : CoreHandle) (obj : list (string * Json)) : CoreHandle :=
  match as_str (Store.object_get obj "_tirbase_table"), as_str (Store.object_get obj "_tirbase_key") with
  | Some tbl, Some rkey =>
      let '(h, app_data) := envelope_loop h tbl rkey obj [] in
      match app_data with [] => h | _ => store_write h tbl rkey (JObject app_data) end
  | _, _ => h
  end.

(** The row the merged document names last. *)
Definition project_document (h : CoreHandle) : CoreHandle :=
  match as_str (Crdt.read_scalar hex_encode (crdt h) "_tirbase_table"),
        as_str (Crdt.read_scalar hex_encode (crdt h) "_tirbase_key") with
  | Some tbl, Some rkey =>
      match Crdt.read_scalar hex_encode (crdt h) rkey with
      | None => h
      | Some val =>
          let stored_val := match val with
                            | JString s => default (JString s) (json_of_string s)
                            | other => other
                            end in
          store_write h tbl rkey stored_val
      end
  | _, _ => h
  end.

Definition project_merged (h : CoreHandle) (delta : Delta) : CoreHandle :=
  match d_automerge_bytes delta with
  | [] => h
  | b =>
      match json_of_bytes b with
      | Some (JObject obj) => project_envelope h obj
      | Some _ => h
      | None => project_document h
      end
  end.

Definition inbound_delta (h : CoreHandle) (delta : Delta) (a : Ambient) : CoreHandle * Res unit :=
  let '(c, records, outcome) := Crdt.apply_incoming_delta zstd_encode canonical_json delta_to_json error_to_string
                                  (crdt h) delta (now_micros a) in
  let h := emit_records (set_crdt h c) records in
  match outcome with
  | Err e => (h, Err e)
  | Ok (Crdt.Merged _) => (issue_durability_receipt (project_merged h delta) (d_id delta) a, Ok tt)
  | Ok (Crdt.Quarantined reason) =>
      let raw_bytes := default (d_automerge_bytes delta) (delta_to_json delta) in
      let '(m, _) := Migration.quarantine_incoming sha256 (migration h) (d_author_did delta) raw_bytes
                       (Some (d_schema_hash delta)) (Quarantine.from_merge reason) (now_micros a) in
      (set_migration h m, Ok tt)
  | Ok (Crdt.Rejected _) => (h, Ok tt)
  end.

Definition inbound_migration_revocation (h : CoreHandle) (mig_rev : Migration.MigrationRevocationDelta) (a : Ambient)
  : CoreHandle :=
  let target_migration_id := Migration.target_migration_id mig_rev in
  match Migration.receive_revocation_delta (migration h) mig_rev (now_micros a) with
  | (m, Err _) => set_migration h m
  | (m, Ok _) =>
      let h := set_migration h m in
      let h := match Migration.target_schema_for_migration m target_migration_id with
               | None => h
               | Some schema_hash =>
                   let delta_ids := Dag.nodes_by_schema_hash (Crdt.dag (crdt h)) schema_hash in
                   let dag := foldl (fun d id => Contamination.append_tag d id
                                (ContaminatedByCorruptedMigration target_migration_id)) (Crdt.dag (crdt h)) delta_ids in
                   set_crdt h (Crdt.set_store (crdt h) dag (Crdt.automerge_docs (crdt h)))
               end in
      tag_contamination_root h target_migration_id (Contamination.BadMigration target_migration_id) (now_micros a)
  end.

Definition receive_inbound (h : CoreHandle) (msg : Mesh.GossipMessage) (a : Ambient) : CoreHandle * Res unit :=
  match msg with
  | Mesh.InboundDeltaFragment _ => (h, Ok tt)
  | Mesh.InboundDelta delta => inbound_delta h delta a
  | Mesh.InboundDurabilityReceipt receipt =>
      let '(d, tiers) := Durability.inbound_receipt (durability h) receipt (now_secs a) in
      (emit_tiers (set_durability h d) tiers, Ok tt)
  | Mesh.InboundRevocationDelta rev_delta => ((process_revocation h rev_delta a).1, Ok tt)
  | Mesh.InboundMigrationDelta mig_delta => (set_jobs h (dispatched h ++ [mig_delta]) (migration_jobs h), Ok tt)
  | Mesh.InboundMigrationRevocationDelta mig_rev => (inbound_migration_revocation h mig_rev a, Ok tt)
  | Mesh.RelayDelta _ _ => (h, Ok tt)
  end.

(** [process_inbound_messages]: the first failure leaves the rest in the channel. *)
Fixpoint drain (h : CoreHandle) (msgs : list Mesh.GossipMessage) (a : Ambient) (count : nat) : CoreHandle * Res nat :=
  match msgs with
  | [] => (h, Ok count)
  | msg :: msgs =>
      match receive_inbound (set_inbound h msgs) msg a with
      | (h, Err e) => (h, Err e)
      | (h, Ok _) => drain h msgs a (S count)
      end
  end.
Definition process_inbound_messages (h : CoreHandle) (a : Ambient) : CoreHandle * Res nat := drain h (inbound_rx h) a 0.

(** The Swarm task: a payload of the mesh becomes a message of the channel. *)
Definition on_gossip (h : CoreHandle) (data : bytes) : CoreHandle :=
  let '(t, msg) := Mesh.on_gossip delta_of_json gossip_from_bytes (transport h) data in
  set_inbound (set_transport h t) (inbound_rx h ++ match msg with Some m => [m] | None => [] end).

(** ** The jobs of the migration pipeline *)

#[local] Instance replay_engine : ReplayTarget CrdtEngine :=
  Migration.crdt_replay zstd_encode canonical_json delta_to_json error_to_string.

(** The first critical section of a dispatched job: [MigrationInProgress] makes it try again. *)
Definition job_prepare (h : CoreHandle) (i : nat) : CoreHandle :=
  match dispatched h !! i with
  | None => h
  | Some mig_delta =>
      match Migration.prepare_migration sha256 f64_parse f64_display pest_error (migration h) mig_delta
              (Migration.m_author_did mig_delta) with
      | (m, Ok prepared) =>
          set_jobs (set_migration h m) (delete i (dispatched h)) (Migration.Executing prepared :: migration_jobs h)
      | (m, Err (MigrationInProgress _)) => set_migration h m
      | (m, Err _) => set_jobs (set_migration h m) (delete i (dispatched h)) (migration_jobs h)
      end
  end.

(** While its transform runs a job writes rows, one at a time, with no other lock held. *)
Definition job_row (h : CoreHandle) (i : nat) (table key : string) (v : Json) : CoreHandle :=
  match migration_jobs h !! i with
  | Some (Migration.Executing _) => store_write h table key v
  | _ => h
  end.

(** The next critical section of a running job; [outcome] is what the sandbox answered. *)
Definition job_advance (h : CoreHandle) (i : nat) (outcome : Res Migration.MigrationResult) (a : Ambient) : CoreHandle :=
  match migration_jobs h !! i with
  | None => h
  | Some job =>
      let rest := delete i (migration_jobs h) in
      match job with
      | Migration.Executing p =>
          let source := Migration.local_schema_hash (migration h) in
          match Migration.finish_migration (migration h) (Migration.p_migration_id p)
                  (Migration.p_target_schema_hash p) outcome with
          | (m, Ok Migration.Success) =>
              set_jobs (set_migration h m) (dispatched h) (Migration.Committed source :: rest)
          | (m, _) => set_jobs (set_migration h m) (dispatched h) rest
          end
      | Migration.Committed source =>
          set_jobs h (dispatched h) (Migration.Advancing source (Migration.local_schema_hash (migration h)) :: rest)
      | Migration.Advancing source new_current =>
          set_jobs (set_crdt h (Crdt.set_current_schema (crdt h) new_current)) (dispatched h)
            (Migration.Replaying source new_current :: rest)
      | Migration.Replaying source new_current =>
          let '(m, c) := Migration.replay_corrupted_windows delta_of_json (migration h) source new_current (crdt h)
                           (now_micros a) in
          set_jobs (set_crdt (set_migration h m) c) (dispatched h) rest
      end
  end.

(** ** The background loops *)

Definition run_cloud_sync_cycle (h : CoreHandle) (a : Ambient) : CoreHandle * CloudQueue.CloudSyncResult :=
  let conn := CloudLedger.CloudLedgerConnection zstd_encode canonical_json delta_to_json delta_of_json error_to_string
                hex_encode (now_micros a) in
  let '(d, l, tiers, result) :=
    Durability.run_cloud_sync_cycle (CloudConnection0 := conn) (fun delta_id _ => Crdt.refetch_delta_bytes (crdt h) delta_id)
      (durability h) (cloud_ledger h) in
  (emit_tiers (set_ledger (set_durability h d) l) tiers, result).

Definition beacon_monitor (h : CoreHandle) (threshold_secs : Z) (a : Ambient) : CoreHandle :=
  set_durability h (Durability.monitor_beacons (durability h) (now_secs a) threshold_secs).

Definition token_expiry_monitor (h : CoreHandle) (a : Ambient) : CoreHandle :=
  set_capability h (Capability.expiry_monitor (capability h) (now_secs a)).

Definition scheduler_tick (h : CoreHandle) (a : Ambient) : CoreHandle :=
  set_transport h (Mesh.scheduler_epoch delta_to_json delta_of_json gossip_to_bytes (transport h) (now_micros a)
    (now_secs a)).

(** The revocations of the last day are sent again when mDNS finds peers. *)
Definition on_mdns_discovered (h : CoreHandle) (a : Ambient) : CoreHandle :=
  foldl (fun h rd => enqueue_revocation_gossip h rd (now_micros a)) h
    (Revocation.build_recent_revocation_deltas (revocation h) (24 * 3600 * 1000000) (now_micros a)).

(** ** [init] *)

Definition DEFAULT_SCHEMA_HASH : SchemaIdentifierHash := 0%N.

Record DeploymentConfig := mkDeployment {
  revocation_m : nat;
  revocation_n : nat;
  biscuit_ttl_secs : Z;
  root_ca_keys : list bytes;
  migration_ca_public_key : option bytes;
  schema_version_path : list SchemaIdentifierHash;
  schema_definitions : list Schema.Schema;
  anchor_attested_location : bool;
  beacon_public_keys : list bytes;
  spatial_diversity_min : nat;
  max_single_sector_fraction : spec_float;
  quorum_k : nat;
  quorum_n : nat;
  saturate_lease_duration_secs : Z;
  mesh_mtu : nat
}.

(** What the storage path holds when the process starts. *)
Record Persistent := mkPersistent {
  p_rows : Projection.Projection;
  p_dag : Dag.Tables;
  p_automerge_docs : gmap string bytes;
  p_quarantine_ledger : gmap N Quarantine.Row;
  p_sidecar_ledger : gmap N Sidecar.Row
}.

Definition build_schema_def_map (defs : list Schema.Schema) : gmap SchemaIdentifierHash Schema.Schema :=
  foldl (fun map def =>
    match SchemaText.parse f64_parse pest_error (SchemaText.print f64_display def) with
    | Ok reparsed => <[Schema.identifier_hash sha256 reparsed := reparsed]> map
    | Err _ => map
    end) ∅ defs.

Fixpoint register_definitions (c : CrdtEngine) (versions : list SchemaIdentifierHash) (defs : list Schema.Schema)
  : Res CrdtEngine :=
  match defs, versions with
  | schema :: defs, version :: versions =>
      match Crdt.register_schema_definition sha256 c version schema with
      | (c, Ok _) => register_definitions c versions defs
      | (_, Err e) => Err e
      end
  | _, _ => Ok c
  end.

(** The schema part of [init], from the fresh engine. *)
Definition register_schemas (c : CrdtEngine) (path : list SchemaIdentifierHash) (defs : list Schema.Schema)
  : Res CrdtEngine :=
  match path with
  | [] => match defs with
          | [] => Ok c
          | _ => Err (SchemaRegistrationFailed "schema_definitions provided but schema_version_path is empty")
          end
  | current_hash :: _ =>
      if negb (bool_decide (defs = [])) && negb (length defs =? length path)%nat then
        Err (SchemaRegistrationFailed "schema_definitions length does not match schema_version_path length")
      else register_definitions (Crdt.set_current_schema c current_hash) path defs
  end.

(** [mesh]: the outbound channel, when the transport could be started. *)
Definition init (config : DeploymentConfig) (identity : Identity.IdentityManager) (db : Persistent) (mesh : option C)
  : Res CoreHandle :=
  let seed := Identity.signing_key identity in
  let did := Identity.did identity in
  let m := Nat.max (revocation_m config) 1 in
  let initial_schema_hash := match schema_definitions config with
                             | s :: _ => Schema.identifier_hash sha256 s
                             | [] => DEFAULT_SCHEMA_HASH
                             end in
  let crdt := Crdt.new seed (Identity.public_key_bytes identity) did initial_schema_hash (p_dag db)
                (p_automerge_docs db) in
  let local_schema := match schema_definitions config with
                      | _ :: _ => initial_schema_hash
                      | [] => default DEFAULT_SCHEMA_HASH (head (schema_version_path config))
                      end in
  crdt ← register_schemas crdt (schema_version_path config) (schema_definitions config);
  let quorum := Quorum.deployment_config (quorum_k config) (quorum_n config) (spatial_diversity_min config)
                  (max_single_sector_fraction config) in
  let anchor := if anchor_attested_location config then Some (Anchor.from_beacon_public_keys (beacon_public_keys config) 0)
                else None in
  let transport := Mesh.set_tx (Mesh.new did seed 4 60 30 1000 (mesh_mtu config) 3600 m
                     (default [] (head (root_ca_keys config))) (Z.max (saturate_lease_duration_secs config) 1)) mesh in
  Ok (mkCore identity (p_rows db) crdt (Contamination.new (p_dag db) (p_rows db))
    (Capability.new (root_ca_keys config) (86400 <? biscuit_ttl_secs config)) transport
    (Durability.with_anchor quorum anchor) (CloudLedger.new_in_memory seed did initial_schema_hash)
    (Migration.new (default (replicate 32 0%N) (migration_ca_public_key config)) local_schema
       (schema_version_path config) m (p_quarantine_ledger db) (p_sidecar_ledger db)
       (build_schema_def_map (schema_definitions config)))
    [] [] (Revocation.new m (Nat.max (revocation_n config) 1)) [] [] []).

(** What a process leaves behind when it stops. *)
Definition persistent (h : CoreHandle) : Persistent :=
  mkPersistent (store h) (Crdt.dag (crdt h)) (Crdt.automerge_docs (crdt h)) (Migration.quarantine_ledger (migration h))
    (Migration.sidecar_ledger (migration h)).

(** ** A device over time

    What can happen to a handle: a call of the host, a message, a step of a background task or
    of a job.  The sandbox's answer is part of the job's step; [OpTransport] is an operation of the
    tasks that belong to the transport alone (discovery, sessions, Bluetooth). *)
Context `{!NoiseStream bytes}.

Definition transport_exec (t : Mesh.MeshTransport) (op : Mesh.Op) : Mesh.MeshTransport (C := C) :=
  Mesh.exec delta_to_json delta_of_json gossip_to_bytes gossip_from_bytes t op.

Inductive Op :=
| OpWrite (table key : string) (data : Json)
| OpPresentToken (token_hex : string)
| OpRegisterRootCa (key : bytes) (token : option (bytes * Z))
| OpRegisterMigrationCa (key : bytes)
| OpInitiateRevocation (target_did manager_token : string)
| OpActivateSaturate (biscuit_token : bytes)
| OpRenewSaturate (biscuit_token : bytes)
| OpTerminateSaturate (message : bytes) (co_manager_signatures : list (Did * bytes))
| OpVerifyContamination (root_delta_id : DeltaId) (manager_token : bytes)
| OpCloseIco (ico_id : IncidentId) (manager_token : bytes)
| OpGossip (data : bytes)
| OpProcessInbound
| OpJobPrepare (i : nat)
| OpJobRow (i : nat) (table key : string) (v : Json)
| OpJobAdvance (i : nat) (outcome : Res Migration.MigrationResult)
| OpCloudSync
| OpBeaconMonitor (threshold_secs : Z)
| OpTokenExpiryMonitor
| OpSchedulerTick
| OpMdnsDiscovered
| OpTransport (op : Mesh.Op).

Definition exec (h : CoreHandle) (op : Op) (a : Ambient) : CoreHandle :=
  match op with
  | OpWrite table key data => (write h table key data a).1
  | OpPresentToken token_hex => (present_biscuit_token h token_hex a).1
  | OpRegisterRootCa key token => (register_root_ca_key h key token).1
  | OpRegisterMigrationCa key => register_migration_ca_key h key
  | OpInitiateRevocation target_did manager_token => (initiate_revocation h target_did manager_token a).1
  | OpActivateSaturate biscuit_token => (activate_saturate_mode h biscuit_token a).1
  | OpRenewSaturate biscuit_token => (renew_saturate_mode h biscuit_token a).1
  | OpTerminateSaturate message sigs => (terminate_saturate_mode h message sigs a).1
  | OpVerifyContamination root_delta_id manager_token => (verify_contamination h root_delta_id manager_token a).1
  | OpCloseIco ico_id manager_token => (admin_close_ico h ico_id manager_token a).1
  | OpGossip data => on_gossip h data
  | OpProcessInbound => (process_inbound_messages h a).1
  | OpJobPrepare i => job_prepare h i
  | OpJobRow i table key v => job_row h i table key v
  | OpJobAdvance i outcome => job_advance h i outcome a
  | OpCloudSync => (run_cloud_sync_cycle h a).1
  | OpBeaconMonitor threshold_secs => beacon_monitor h threshold_secs a
  | OpTokenExpiryMonitor => token_expiry_monitor h a
  | OpSchedulerTick => scheduler_tick h a
  | OpMdnsDiscovered => on_mdns_discovered h a
  | OpTransport op => set_transport h (transport_exec (transport h) op)
  end.

Definition run (h : CoreHandle) (ops : list (Op * Ambient)) : CoreHandle :=
  foldl (fun h op => exec h op.1 op.2) h ops.

End Core.
End Core.
