(* ===== verification/Sample.v ===== *)
(** * A small deployment

    Concrete instances of every interface of the other crates, and two devices started by [init],
    on which the theorems about whole devices are tried.  Documents are the registers of
    [Automerge], everything that is serialised is the string of bits of [Types.pack], signatures,
    tokens and sessions are the toy ones of the component files. *)

From S2P Require Import Prelude Types Scheduler Fragment Dag Identity Auth Revocation Saturate Contamination Schema SchemaText.
From S2P Require Import Automerge Verify Crdt Ledgers Migration CloudQueue Durability CloudLedger Transport Store Sandbox Core.

#[export] Instance PriorityClass_countable : Countable PriorityClass.
Proof.
  apply (inj_countable' (fun p => match p with High => 0 | Medium => 1 | Low => 2 end)
    (fun n => match n with 0 => High | 1 => Medium | _ => Low end)). by intros [].
Defined.

#[export] Instance DeltaTag_countable : Countable DeltaTag.
Proof.
  apply (inj_countable' (fun t => match t with
      | Contaminated r i => inl (inl (r, i)) | Decontaminated i z => inl (inr (i, z))
      | Resolved m z => inr (inl (inl (m, z))) | ContaminatedByHumanReaction i => inr (inl (inr i))
      | ContaminatedByCorruptedMigration m => inr (inr (inl m)) | ReplayComplete m => inr (inr (inr m)) end)
    (fun x => match x with
      | inl (inl (r, i)) => Contaminated r i | inl (inr (i, z)) => Decontaminated i z
      | inr (inl (inl (m, z))) => Resolved m z | inr (inl (inr i)) => ContaminatedByHumanReaction i
      | inr (inr (inl m)) => ContaminatedByCorruptedMigration m | inr (inr (inr m)) => ReplayComplete m end)).
  by intros [].
Defined.

#[export] Instance Delta_countable : Countable Delta.
Proof.
  apply (inj_countable' (fun d => (d_id d, d_author_did d, d_signature d, d_schema_hash d, d_automerge_bytes d,
      (d_priority d, d_causal_parents d, d_tags d, d_lamport d, d_created_at d)))
    (fun '(i, a, s, h, b, (p, c, t, l, w)) => mkDelta i a s h b p c t l w)). by intros [].
Defined.

Module Sample.

#[export] Existing Instance Registers.registers.
#[export] Existing Instance toy_bs58.
#[export] Existing Instance toy_ed25519.
#[export] Existing Instance toy_biscuit.
#[export] Existing Instance Crdt.toy_json.
#[export] Existing Instance toy_noise.
#[export] Existing Instance buffer_stream.
#[export] Existing Instance bounded_channel.
#[export] Existing Instance select_canonical.
#[export] Existing Instance hash_iter_canonical.
#[export] Instance cache : LruCache (string * string) Session.ResumptionCredential := list_lru.

(** Text with a letter for its kind in front; lists and objects have none. *)
Definition json_text (v : Json) : option string :=
  match v with
  | JNull => Some "0"
  | JBool b => Some (if b then "t" else "f")
  | JNumber z => Some ("n" +:+ toy_encode (pack (z : Z)))
  | JString s => Some ("s" +:+ s)
  | JArray _ | JObject _ => None
  end.
Definition json_value (s : string) : option Json :=
  if bool_decide (s = "0") then Some JNull
  else if bool_decide (s = "t") then Some (JBool true)
  else if bool_decide (s = "f") then Some (JBool false)
  else match strip_prefix "n" s, strip_prefix "s" s with
       | Some s, _ => (fun z : Z => JNumber (z : Number)) <$> unpack (toy_decode s)
       | None, Some s => Some (JString s)
       | None, None => None
       end.

Definition gossip_bytes (m : Mesh.GossipMessage) : bytes :=
  match m with
  | Mesh.InboundDelta d => 0%N :: pack d
  | Mesh.InboundDurabilityReceipt r => 1%N :: pack (Receipt.receipt_id r, Receipt.state_hash r, Receipt.issuer_did r,
      Receipt.issuer_signature r, Receipt.issued_at r)
  | Mesh.InboundRevocationDelta r => 2%N :: pack (Revocation.target_did r,
      map (fun s => (Revocation.manager_did s, Revocation.signature s)) (Revocation.signatures r), Revocation.created_at r)
  | _ => [3%N]
  end.
Definition gossip_message (b : bytes) : option Mesh.GossipMessage :=
  match b with
  | 0%N :: b => Mesh.InboundDelta <$> unpack b
  | 1%N :: b => (fun '(i, h, d, s, t) => Mesh.InboundDurabilityReceipt (Receipt.mkReceipt i h d s None None t)) <$> unpack b
  | 2%N :: b => (fun '(t, sigs, at_) => Mesh.InboundRevocationDelta
      (Revocation.mkRevDelta t (map (fun s => Revocation.mkSig s.1 s.2) sigs) at_)) <$> unpack b
  | _ => None
  end.

#[export] Instance codecs : Codecs := {|
  zstd_encode := Ok;
  canonical_json c := (Z.to_N (c_lamport c) :: c_automerge_bytes c ++ c_causal_parents c)%N;
  sha256 b := foldl (fun a x => (3 * a + x + 1) mod (2 ^ 61 - 1))%N 0%N b;
  delta_to_json d := Some (pack d);
  delta_of_json := unpack;
  json_to_string := json_text;
  json_of_string := json_value;
  json_of_bytes _ := None;
  error_to_string _ := "error";
  hex_encode := toy_encode;
  hex_decode s := Some (toy_decode s);
  gossip_to_bytes := gossip_bytes;
  gossip_from_bytes := gossip_message;
  incident_ids := N.of_nat;
  f64_parse _ := SpecFloat.S754_nan;
  f64_display _ := "";
  pest_error _ := (1, 1, "")
|}.

(** Two devices of one deployment with the default schema, one receipt for tier 1 and one manager
    for a revocation, each with a channel of ten payloads. *)
Definition config : Core.DeploymentConfig :=
  Core.mkDeployment 1 1 3600 [[1]%N] None [] [] false [] 1 (SpecFloat.S754_nan) 1 1 60 0.
Definition empty_file : Core.Persistent := Core.mkPersistent [] Dag.empty_tables ∅ ∅ ∅.
Definition identity (n : N) : Identity.IdentityManager := Identity.init_in_memory (replicate 32 n).
Definition started (n : N) : Res (Core.CoreHandle (C := nat * list bytes)) :=
  Core.init config (identity n) empty_file (Some (10%nat, [])).

Definition from_ok {A} (r : Res A) : is_ok r = true -> A :=
  match r with Ok x => fun _ => x | Err _ => fun Hp => match Bool.diff_false_true Hp with end end.

Lemma from_ok_eq {A} (r : Res A) (Hr : is_ok r = true) : r = Ok (from_ok r Hr).
Proof. by destruct r. Qed.

Definition writer : Core.CoreHandle (C := nat * list bytes) := from_ok (started 1) eq_refl.
Definition peer : Core.CoreHandle (C := nat * list bytes) := from_ok (started 2) eq_refl.

Definition clock (z : Z) : Ambient := mkAmbient (z * 1000000) z (Z.to_N z).
Definition never (_ : string) : bool := false.

End Sample.
