(* ===== verification/Browser.v ===== *)
(** * The handle of a browser tab: the WASM half of [api/mod.rs]

    The WASM build has no mesh and no background task: the page calls, and hands over what its own
    peers sent.  The handle owns the engines of [BrowserCrdt] and [BrowserTaint] and a database of
    IndexedDB, whose object stores are the rows of [LocalStore], the two ledgers of the migration
    engine and the compaction snapshots; [page] holds the thread-locals.  The native tables of the
    shared records stay empty.  A put of IndexedDB succeeds; a call runs to its end before the
    next one starts.  [None] stands for a panic, which ends the instance. *)

From Stdlib Require Import Floats.SpecFloat.
From S2P Require Import Prelude Types Scheduler Fragment Dag Identity Auth Revocation Saturate Contamination Schema SchemaText.
From S2P Require Import Automerge Verify Crdt BrowserCrdt BrowserTaint Ledgers Migration CloudQueue Durability.
From S2P Require Import CloudLedger Transport Store Sandbox Core.

Module Browser.
Import Trust.

(** The object stores next to the rows. *)
Record ObjectStores := mkStores {
  quarantine_entries : gmap N Quarantine.QuarantineEntry;
  sidecar_entries : gmap N Sidecar.SideCarEntry;
  compaction_snapshots : BrowserCrdt.Snapshots
}.
Definition no_objects : ObjectStores := mkStores ∅ ∅ ∅.

Section Browser.
Context `{!Automerge} `{!Bs58} `{!Ed25519} `{!BiscuitLib} `{!SerdeJson} `{!Codecs} `{!WasmRuntime} `{!IdbCursor}.
Context `{!LruCache (string * string) Session.ResumptionCredential} `{!Noise} `{!SelectOrder}.
Context `{!HashIter N Z} `{!HashIter string nat} `{!HashIter N (list (option Fragment.DeltaFragment))}.
Context `{!HashIter string Discovery.PeerState} `{!HashIter N Contamination.IncidentContextObject}.
Context `{!HashIter (string * string) N}.
Context {C : Type} `{!Outbound C}.

Record CoreHandle := mkCore {
  identity : Identity.IdentityManager;
  store : Store.LocalStore;
  crdt : CrdtEngine;
  cce : BrowserTaint.CausalContaminationEngine;
  capability : Capabilities;
  transport : Mesh.MeshTransport (C := C);
  durability : Durability.DurabilitySubsystem;
  migration : Migration.SchemaMigrationEngine;            (* its ledgers: [objects] *)
  revocation : Revocation.WasmRevocation;
  objects : ObjectStores;
  page : BrowserTaint.Page;
  rejection_records_channel : list Crdt.DeltaRejectionRecord
}.

Definition set_store (h : CoreHandle) x := mkCore (identity h) x (crdt h) (cce h) (capability h) (transport h)
  (durability h) (migration h) (revocation h) (objects h) (page h) (rejection_records_channel h).
Definition set_crdt (h : CoreHandle) x := mkCore (identity h) (store h) x (cce h) (capability h) (transport h)
  (durability h) (migration h) (revocation h) (objects h) (page h) (rejection_records_channel h).
Definition set_capability (h : CoreHandle) x := mkCore (identity h) (store h) (crdt h) (cce h) x (transport h)
  (durability h) (migration h) (revocation h) (objects h) (page h) (rejection_records_channel h).
Definition set_transport (h : CoreHandle) x := mkCore (identity h) (store h) (crdt h) (cce h) (capability h) x
  (durability h) (migration h) (revocation h) (objects h) (page h) (rejection_records_channel h).
Definition set_durability (h : CoreHandle) x := mkCore (identity h) (store h) (crdt h) (cce h) (capability h) (transport h)
  x (migration h) (revocation h) (objects h) (page h) (rejection_records_channel h).
Definition set_migration (h : CoreHandle) x := mkCore (identity h) (store h) (crdt h) (cce h) (capability h) (transport h)
  (durability h) x (revocation h) (objects h) (page h) (rejection_records_channel h).
Definition set_revocation (h : CoreHandle) x := mkCore (identity h) (store h) (crdt h) (cce h) (capability h) (transport h)
  (durability h) (migration h) x (objects h) (page h) (rejection_records_channel h).
Definition set_objects (h : CoreHandle) x := mkCore (identity h) (store h) (crdt h) (cce h) (capability h) (transport h)
  (durability h) (migration h) (revocation h) x (page h) (rejection_records_channel h).
Definition set_taint (h : CoreHandle) e p := mkCore (identity h) (store h) (crdt h) e (capability h) (transport h)
  (durability h) (migration h) (revocation h) (objects h) p (rejection_records_channel h).
Definition emit_records (h : CoreHandle) rs := mkCore (identity h) (store h) (crdt h) (cce h) (capability h) (transport h)
  (durability h) (migration h) (revocation h) (objects h) (page h) (rejection_records_channel h ++ rs).
Definition set_page (h : CoreHandle) p := set_taint h (cce h) p.

Definition local_did (h : CoreHandle) : Did := Identity.did (identity h).

Definition push_wasm_event (h : CoreHandle) (event : BrowserTaint.WasmEvent) : CoreHandle :=
  set_page h (BrowserTaint.push_wasm_event (page h) event).

Definition record_authored_delta (h : CoreHandle) (author : Did) (delta_id : DeltaId) : CoreHandle :=
  set_revocation h (Revocation.record_authored_delta (revocation h) author delta_id).

Definition record_delta_row (h : CoreHandle) (delta_id : DeltaId) (table key : string) : CoreHandle :=
  set_page h (BrowserTaint.record_delta_row (page h) delta_id table key).

(** Every caller drops the result. *)
Definition tag_contamination_root (h : CoreHandle) (root : DeltaId) (source : Contamination.TaintSource) (now : Z)
  : CoreHandle :=
  let '(e, p, _) := BrowserTaint.tag_contamination_root incident_ids (cce h) (page h) root source now in
  set_taint h e p.

(** ** The ledgers of the migration engine on the object stores *)

Definition is_schema_quarantined_async (h : CoreHandle) : bool :=
  match Quarantine.scan_quarantine_entries (quarantine_entries (objects h)) with
  | Ok entries =>
      existsb (fun e => bool_decide (Quarantine.q_schema_hash e = Some (Migration.local_schema_hash (migration h))) &&
                        bool_decide (Quarantine.q_migration_id e = None)) entries
  | Err _ => false
  end.

Definition quarantine_incoming (h : CoreHandle) (sender_did : Did) (raw_bytes : bytes)
    (schema_hash : option SchemaIdentifierHash) (reason : Quarantine.QuarantineReason) (received_at : Z)
  : CoreHandle * Res DeltaId :=
  let o := objects h in
  let '(q, r) := Quarantine.wasm_quarantine sha256 (quarantine_entries o) sender_did raw_bytes schema_hash reason
                   received_at in
  (set_objects h (mkStores q (sidecar_entries o) (compaction_snapshots o)), r).

Definition record_corrupted_window_write (h : CoreHandle) (table : string) (delta_bytes : bytes) (recorded_ts : Z)
  : CoreHandle * Res (option DeltaId) :=
  match Migration.active_corruption_migration (migration h) with
  | None => (h, Ok None)
  | Some migration_id =>
      let o := objects h in
      match Sidecar.wasm_record sha256 (sidecar_entries o) migration_id table delta_bytes recorded_ts with
      | (s, Ok entry_id) => (set_objects h (mkStores (quarantine_entries o) s (compaction_snapshots o)), Ok (Some entry_id))
      | (s, Err e) => (set_objects h (mkStores (quarantine_entries o) s (compaction_snapshots o)), Err e)
      end
  end.

(** A replay applies Deltas with the engine of this build and tags them in the page. *)
#[local] Instance replay_target : ReplayTarget (CrdtEngine * BrowserTaint.Page) := {|
  rt_apply s delta now :=
    let '(c, _, r) := BrowserCrdt.apply canonical_json error_to_string s.1 delta now in ((c, s.2), r);
  rt_tag s delta_id tag := (s.1, BrowserTaint.append_tag s.2 delta_id tag)
|}.

(** One turn of the loop; a failure is logged. *)
Definition replay_one (now : Z) (s : gmap N Sidecar.SideCarEntry * (CrdtEngine * BrowserTaint.Page))
    (migration_id : MigrationId) : gmap N Sidecar.SideCarEntry * (CrdtEngine * BrowserTaint.Page) :=
  let '(st, e, _) := Sidecar.wasm_replay_sidecar delta_of_json s.1 migration_id s.2 now in (st, e).

Definition replay_corrupted_windows (h : CoreHandle) (pre_migration_schema : SchemaIdentifierHash) (now : Z) : CoreHandle :=
  match Migration.corrupted_schema_windows (migration h) !! pre_migration_schema with
  | None => h
  | Some migration_ids =>
      let m := Migration.set_windows (migration h)
                 (delete pre_migration_schema (Migration.corrupted_schema_windows (migration h))) in
      let o := objects h in
      let '(s, (c, p)) := foldl (replay_one now) (sidecar_entries o, (crdt h, page h)) migration_ids in
      set_page (set_crdt (set_objects (set_migration h m) (mkStores (quarantine_entries o) s (compaction_snapshots o))) c) p
  end.

(** ** Local input and output *)

Definition ensure_local_trust_allows_io (h : CoreHandle) : Res unit :=
  if bool_decide (Capability.trust_level (capability h) = Revoked) then
    Err (AuthorisationFailed "device is REVOKED")
  else Ok tt.

(** Step 3a of [write]. *)
Definition human_reaction_tag (h : CoreHandle) (table key : string) : option DeltaTag :=
  let local_projection_contaminated := BrowserTaint.is_row_contaminated (cce h) table key in
  let quarantine_active := is_schema_quarantined_async h in
  let active_incident_id := BrowserTaint.active_incident_for_row (cce h) table key in
  if local_projection_contaminated || quarantine_active then
    ContaminatedByHumanReaction <$> active_incident_id
  else None.

(** Step 3b: a store without a database is not compacted. *)
Definition compact_after_write (h : CoreHandle) (table : string) (now : Z) : CoreHandle * bool :=
  match Store.kv (store h) with
  | Some _ =>
      let o := objects h in
      let '(c, snapshots, compacted) := BrowserCrdt.maybe_compact (crdt h) table
        (Crdt.compaction_policy_for (crdt h) table) (compaction_snapshots o) now in
      (set_objects (set_crdt h c) (mkStores (quarantine_entries o) (sidecar_entries o) snapshots), compacted)
  | None => (h, false)
  end.

(** Steps 3b (the indices) to 7 of [write], once the Delta is signed. *)
Definition register_written (h : CoreHandle) (table key : string) (delta : Delta) (tag : option DeltaTag)
    (compacted : bool) (a : Ambient) : CoreHandle * Res Core.WriteResult :=
  let h := record_delta_row (record_authored_delta h (local_did h) (d_id delta)) (d_id delta) table key in
  let h := match tag with
           | Some (ContaminatedByHumanReaction hr_incident_id) =>
               tag_contamination_root h (d_id delta) (Contamination.HumanReaction hr_incident_id) (now_micros a)
           | _ => h
           end in
  let delta_bytes := default [] (delta_to_json delta) in
  match Durability.register_delta (durability h) (d_id delta) (d_id delta) delta_bytes (d_causal_parents delta) ∅ with
  | (d, Err e) => (set_durability h d, Err e)
  | (d, Ok _) =>
      let d := if compacted then Durability.set_queue d (CloudQueue.mark_compacted (Durability.cloud_queue d) (d_id delta))
               else d in
      let '(h, _) := record_corrupted_window_write (set_durability h d) table delta_bytes (d_created_at delta) in
      (h, Ok (Core.mkWriteResult (d_id delta) Durability.Uncommitted (Capability.unverified_warning (capability h))))
  end.

Definition write (h : CoreHandle) (table key : string) (data : Json) (a : Ambient) : CoreHandle * Res Core.WriteResult :=
  match ensure_local_trust_allows_io h with
  | Err e => (h, Err e)
  | Ok _ =>
  match Store.wasm_write json_to_string (store h) table key data with
  | (s, Err e) => (set_store h s, Err e)
  | (s, Ok _) =>
  let h := set_store h s in
  let tag := human_reaction_tag h table key in
  match Crdt.write_scalar json_to_string (crdt h) table key data with
  | (c, Err e) => (set_crdt h c, Err e)
  | (c, Ok automerge_bytes) =>
  let '(h, compacted) := compact_after_write (set_crdt h c) table (now_micros a) in
  match BrowserCrdt.produce_delta_with_tags canonical_json sha256 (crdt h) automerge_bytes Low []
          (match tag with Some t => [t] | None => [] end) (now_micros a) with
  | (c, Err e) => (set_crdt h c, Err e)
  | (c, Ok delta) => register_written (set_crdt h c) table key delta tag compacted a
  end end end end.

Definition read (h : CoreHandle) (table key : string) : Res Core.QueryResult :=
  _ ← ensure_local_trust_allows_io h;
  data ← ok_or (Store.wasm_read (store h) table key) (LocalStoreWriteFailed "key not found in table");
  Ok (Core.mkQueryResult table key data (Capability.unverified_warning (capability h)) false).

Context (number_eqb : Number -> Number -> bool).

Definition query (h : CoreHandle) (table : string) (filter : option Json) : Res (list Core.QueryResult) :=
  _ ← ensure_local_trust_allows_io h;
  let warning := Capability.unverified_warning (capability h) in
  Ok (map (fun r => Core.mkQueryResult table r.1 r.2 warning false)
    (Store.wasm_query number_eqb (store h) table filter)).

(** ** Keys and tokens *)

Definition trust_level (h : CoreHandle) : TrustLevel := Capability.trust_level (capability h).

Definition present_biscuit_token (h : CoreHandle) (token_hex : string) (a : Ambient) : CoreHandle * Res TrustLevel :=
  match hex_decode token_hex with
  | None => (h, Err (AuthorisationFailed "invalid hex encoding in biscuit token"))
  | Some [] => (h, Err (AuthorisationFailed "biscuit token is absent or empty"))
  | Some token_bytes =>
      let '(c, r) := Capability.present_token (capability h) token_bytes (now_secs a) (now_micros a) in
      (set_capability h c, r)
  end.

Definition root_ca_public_key (h : CoreHandle) : bytes :=
  default [] (Capability.root_ca_primary_key (capability h)).

Definition register_root_ca_key (h : CoreHandle) (key : bytes) (token : option (bytes * Z)) : CoreHandle * Res TrustLevel :=
  let '(c, r) := Capability.register_root_ca_key (capability h) key token in (set_capability h c, r).

Definition register_migration_ca_key (h : CoreHandle) (key : bytes) : CoreHandle :=
  set_migration h (Migration.register_ca_public_key (migration h) key).

(** [mesh_status]: the peers the transport has seen, connected when there is one. *)
Definition mesh_status (h : CoreHandle) : bool * nat :=
  let peers := Discovery.active_peers (Mesh.discovery (transport h)) in
  (negb (bool_decide (peers = [])), length peers).

(** ** Revocation *)

(** What [process_incoming_delta] runs when the threshold is met: the event for the page, then the
    callbacks; nothing is sent. *)
Definition run_effect (now : Z) (h : CoreHandle) (effect : Revocation.Effect) : CoreHandle :=
  match effect with
  | Revocation.OnRevocationApplied _ _ => push_wasm_event h (BrowserTaint.TrustLevelChanged "Verified" "Revoked")
  | Revocation.OnCceTrigger _ delta_ids =>
      foldl (fun h delta_id => tag_contamination_root h delta_id (Contamination.DeviceRevocation delta_id) now) h delta_ids
  end.

(** The part the inbound arm and [initiate_revocation] share. *)
Definition process_revocation (h : CoreHandle) (rev_delta : Revocation.RevocationDelta) (a : Ambient)
  : CoreHandle * Res Revocation.RevocationStatus :=
  let '(r, effects, result) :=
    Revocation.process_incoming_delta_wasm Core.sha256_bytes (revocation h) rev_delta (now_micros a) in
  let h := foldl (run_effect (now_micros a)) (set_revocation h r) effects in
  match result with
  | Ok Revocation.Applied =>
      let target := Revocation.target_did rev_delta in
      let h := set_crdt h (Crdt.mark_did_revoked (crdt h) target) in
      (if bool_decide (target = local_did h) then
         set_capability h (Capability.apply_revocation (capability h) (now_micros a))
       else h, result)
  | _ => (h, result)
  end.

(** [str::trim().is_empty()] *)
Context (is_blank : string -> bool).

Definition initiate_revocation (h : CoreHandle) (target_did manager_token : string) (a : Ambient)
  : CoreHandle * Res unit :=
  if is_blank manager_token then (h, Err (AuthorisationFailed "manager_token must not be blank"))
  else if is_blank target_did then (h, Err (AuthorisationFailed "target_did must not be blank"))
  else
    match Revocation.produce_partial_delta Core.sha256_bytes target_did (local_did h)
            (Identity.signing_key (identity h)) (now_micros a) with
    | Err e => (h, Err e)
    | Ok partial =>
        let '(h, result) := process_revocation h partial a in
        (h, _ ← result; Ok tt)
    end.

Definition device_revocation_status (h : CoreHandle) (device_did : Did) : option Revocation.DeviceRevocationStatus :=
  Revocation.device_status (Revocation.sub (revocation h)) !! device_did.

(** ** Saturate mode *)

Definition verify_disaster_alert_token (h : CoreHandle) (biscuit_token : bytes) (a : Ambient) : Res Z :=
  match biscuit_token with
  | [] => Err (SignatureVerificationFailed "biscuit token is absent or empty")
  | _ =>
      match root_ca_public_key h with
      | [] => Err (AuthorisationFailed "no root CA public key registered; cannot verify Biscuit token")
      | root_ca_key =>
          match Biscuit.verify_and_check_caveat biscuit_token "disaster-alert" root_ca_key (now_secs a) with
          | Ok true => Ok (now_secs a)
          | Ok false => Err (SignatureVerificationFailed "biscuit token is missing the disaster-alert caveat")
          | Err e => Err e
          end
      end
  end.

Definition activate_saturate_mode (h : CoreHandle) (biscuit_token : bytes) (a : Ambient) : CoreHandle * Res unit :=
  match verify_disaster_alert_token h biscuit_token a with
  | Err e => (h, Err e)
  | Ok now =>
      let '(t, r) := Mesh.activate_saturate_mode (transport h) (local_did h) biscuit_token now in
      (set_transport h t, r)
  end.

Definition renew_saturate_mode (h : CoreHandle) (biscuit_token : bytes) (a : Ambient) : CoreHandle * Res unit :=
  match verify_disaster_alert_token h biscuit_token a with
  | Err e => (h, Err e)
  | Ok now =>
      let '(t, r) := Mesh.renew_saturate_mode (transport h) (local_did h) biscuit_token now in
      (set_transport h t, r)
  end.

Definition terminate_saturate_mode (h : CoreHandle) (message : bytes) (co_manager_signatures : list (Did * bytes))
    (a : Ambient) : CoreHandle * Res unit :=
  match message with
  | [] => (h, Err (AuthorisationFailed "termination message must not be empty"))
  | _ =>
      match Identity.sign (identity h) message with
      | Err e => (h, Err e)
      | Ok local_signature =>
          let '(t, r) := Mesh.terminate_saturate_mode (transport h)
                           ((local_did h, local_signature) :: co_manager_signatures) message (now_secs a) in
          (set_transport h t, r)
      end
  end.

(** ** Resolving contamination *)

Definition manager_authority (h : CoreHandle) (payload manager_token : bytes) (now_secs : Z) : Res (bytes * Z) :=
  match manager_token with
  | [] => Err (AuthorisationFailed "manager_token must not be blank")
  | _ =>
      manager_sig ← Keypair.sign (Identity.signing_key (identity h)) payload;
      match root_ca_public_key h with
      | [] => Err (AuthorisationFailed "no root CA public key registered; cannot verify manager token")
      | root_ca_key =>
          match Biscuit.verify_token manager_token root_ca_key now_secs with
          | Err _ => Err (AuthorisationFailed "manager token verification failed")
          | Ok claims => Ok (manager_sig, wrap_i64 (Biscuit.c_expires_at claims * 1000000))
          end
      end
  end.

Definition verify_contamination (h : CoreHandle) (root_delta_id : DeltaId) (manager_token : bytes) (now_secs : Z)
    (a : Ambient) : CoreHandle * Res unit :=
  match manager_authority h (be_bytes 32 root_delta_id) manager_token now_secs with
  | Err e => (h, Err e)
  | Ok (manager_sig, token_expiry) =>
      let '(e, p, r) := BrowserTaint.verify_data (cce h) (page h) root_delta_id (local_did h) manager_sig token_expiry
                          now_secs (now_micros a) in
      (set_taint h e p, r)
  end.

Definition admin_close_ico (h : CoreHandle) (ico_id : IncidentId) (manager_token : bytes) (now_secs : Z)
    (a : Ambient) : CoreHandle * Res unit :=
  match manager_authority h (be_bytes 16 ico_id) manager_token now_secs with
  | Err e => (h, Err e)
  | Ok (manager_sig, token_expiry) =>
      let '(e, p, r) := BrowserTaint.admin_close (cce h) (page h) ico_id (local_did h) manager_sig token_expiry
                          now_secs (now_micros a) in
      (set_taint h e p, r)
  end.

(** ** The inbound pipeline *)

(** A write whose failure is dropped, and the index entry. *)
Definition project_row (h : CoreHandle) (delta_id : DeltaId) (table key : string) (v : Json) : CoreHandle :=
  record_delta_row (set_store h (Store.wasm_write json_to_string (store h) table key v).1) delta_id table key.

(** The loop over a JSON envelope, and what follows it. *)
Fixpoint envelope_loop (h : CoreHandle) (delta_id : DeltaId) (tbl rkey : string) (obj app_data : list (string * Json))
  : CoreHandle * list (string * Json) :=
  match obj with
  | [] => (h, app_data)
  | (k, v) :: obj =>
      if bool_decide (k = "_data") then (project_row h delta_id tbl rkey v, [])
      else if bool_decide (k <> "_tirbase_table") && bool_decide (k <> "_tirbase_key") then
        envelope_loop h delta_id tbl rkey obj (app_data ++ [(k, v)])
      else envelope_loop h delta_id tbl rkey obj app_data
  end.
Definition project_envelope (h : CoreHandle) (delta_id : DeltaId) (obj : list (string * Json)) : CoreHandle :=
  match Core.as_str (Store.object_get obj "_tirbase_table"), Core.as_str (Store.object_get obj "_tirbase_key") with
  | Some tbl, Some rkey =>
      let '(h, app_data) := envelope_loop h delta_id tbl rkey obj [] in
      match app_data with [] => h | _ => project_row h delta_id tbl rkey (JObject app_data) end
  | _, _ => h
  end.

(** The row the merged document names last. *)
Definition project_document (h : CoreHandle) (delta_id : DeltaId) : CoreHandle :=
  match Core.as_str (Crdt.read_scalar hex_encode (crdt h) "_tirbase_table"),
        Core.as_str (Crdt.read_scalar hex_encode (crdt h) "_tirbase_key") with
  | Some tbl, Some rkey =>
      match Crdt.read_scalar hex_encode (crdt h) rkey with
      | None => h
      | Some val =>
          let stored_val := match val with
                            | JString s => default (JString s) (json_of_string s)
                            | other => other
                            end in
          project_row h delta_id tbl rkey stored_val
      end
  | _, _ => h
  end.

Definition project_merged (h : CoreHandle) (delta : Delta) : CoreHandle :=
  match d_automerge_bytes delta with
  | [] => h
  | b =>
      match json_of_bytes b with
      | Some (JObject obj) => project_envelope h (d_id delta) obj
      | Some _ => h
      | None => project_document h (d_id delta)
      end
  end.

Definition apply_incoming_delta (h : CoreHandle) (delta : Delta) (a : Ambient) : CoreHandle * Res Crdt.MergeOutcome :=
  let '(c, records, outcome) :=
    BrowserCrdt.apply_incoming_delta canonical_json error_to_string (crdt h) delta (now_micros a) in
  (emit_records (set_crdt h c) records, outcome).

(** The arm of an [InboundDelta]: whatever became of it, the Delta is registered. *)
Definition inbound_outcome (h : CoreHandle) (delta : Delta) (outcome : Crdt.MergeOutcome) (a : Ambient) : CoreHandle :=
  match outcome with
  | Crdt.Merged _ => project_merged (record_authored_delta h (d_author_did delta) (d_id delta)) delta
  | Crdt.Quarantined reason =>
      let raw_bytes := default (d_automerge_bytes delta) (delta_to_json delta) in
      (quarantine_incoming h (d_author_did delta) raw_bytes (Some (d_schema_hash delta)) (Quarantine.from_merge reason)
        (now_micros a)).1
  | Crdt.Rejected _ => h
  end.
Definition inbound_delta (h : CoreHandle) (delta : Delta) (a : Ambient) : CoreHandle * Res unit :=
  match apply_incoming_delta h delta a with
  | (h, Err e) => (h, Err e)
  | (h, Ok outcome) =>
      let h := inbound_outcome h delta outcome a in
      let delta_bytes := default [] (delta_to_json delta) in
      let '(d, _) := Durability.register_delta (durability h) (d_id delta) (d_id delta) delta_bytes
                       (d_causal_parents delta) ∅ in
      (set_durability h d, Ok tt)
  end.

(** A message this device relays to itself. *)
Definition inbound_relayed (h : CoreHandle) (delta : Delta) (a : Ambient) : CoreHandle * Res unit :=
  match apply_incoming_delta h delta a with
  | (h, Err e) => (h, Err e)
  | (h, Ok (Crdt.Merged _)) => (record_authored_delta h (d_author_did delta) (d_id delta), Ok tt)
  | (h, Ok _) => (h, Ok tt)
  end.

(** [notify_tier_changed]: the previous tier is inferred from the new one. *)
Definition tier_event (t : Durability.TierChanged) : BrowserTaint.WasmEvent :=
  let '(delta_id, _, tier) := t in
  let hex := hex_encode (be_bytes 32 delta_id) in
  match tier with
  | Durability.Uncommitted => BrowserTaint.DurabilityTierChanged hex "UNCOMMITTED" "UNCOMMITTED"
  | Durability.Tier1 => BrowserTaint.DurabilityTierChanged hex "UNCOMMITTED" "TIER1"
  | Durability.Tier2 => BrowserTaint.DurabilityTierChanged hex "TIER1" "TIER2"
  end.

(** The transform of a prepared migration, in the interpreter of this build.  The error of an import
    outside [host] names the import where the error has the id. *)
Definition run_transform (p : Migration.PreparedMigration) : option (Res Migration.MigrationResult) :=
  match Sandbox.execute_migration (Migration.p_transform_bytes p) (Migration.p_timeout_secs p) with
  | None => None
  | Some (Ok r) => Some (Ok r)
  | Some (Err _) => Some (Err (MigrationCaSignatureInvalid (Migration.p_migration_id p)))
  end.

Definition receive_migration_delta (m : Migration.SchemaMigrationEngine) (delta : Migration.MigrationDelta) (sender_did : Did)
  : option (Migration.SchemaMigrationEngine * Res Migration.MigrationResult) :=
  match Migration.prepare_migration sha256 f64_parse f64_display pest_error m delta sender_did with
  | (m, Err err) => Some (m, Err err)
  | (m, Ok p) =>
      result ← run_transform p;
      let '(m, outcome) := Migration.finish_migration m (Migration.p_migration_id p) (Migration.p_target_schema_hash p)
                             result in
      Some (m, match outcome with
               | Ok (Migration.TimedOut _) => Err (MigrationTransformTimeout (Migration.p_migration_id p))
               | other => other
               end)
  end.

Definition inbound_migration (h : CoreHandle) (mig_delta : Migration.MigrationDelta) (a : Ambient) : option CoreHandle :=
  let source_schema_hash := Migration.local_schema_hash (migration h) in
  '(m, result) ← receive_migration_delta (migration h) mig_delta (Migration.m_author_did mig_delta);
  let h := set_migration h m in
  match result with
  | Ok Migration.Success =>
      let new_current := Migration.local_schema_hash m in
      Some (replay_corrupted_windows (set_crdt h (Crdt.set_current_schema (crdt h) new_current)) source_schema_hash
              (now_micros a))
  | _ => Some h
  end.

Definition inbound_migration_revocation (h : CoreHandle) (mig_rev : Migration.MigrationRevocationDelta) (a : Ambient)
  : CoreHandle :=
  let target_migration_id := Migration.target_migration_id mig_rev in
  match Migration.receive_revocation_delta (migration h) mig_rev (now_micros a) with
  | (m, Err _) => set_migration h m
  | (m, Ok _) => tag_contamination_root (set_migration h m) target_migration_id
                   (Contamination.BadMigration target_migration_id) (now_micros a)
  end.

(** The native pipeline has no counterpart here. *)
Definition receive_inbound (h : CoreHandle) (_ : Mesh.GossipMessage) : CoreHandle * Res unit := (h, Ok tt).
Definition process_inbound_messages (h : CoreHandle) : CoreHandle * Res nat := (h, Ok 0%nat).

Definition receive_inbound_wasm (h : CoreHandle) (msg : Mesh.GossipMessage) (a : Ambient)
  : option (CoreHandle * Res unit) :=
  match msg with
  | Mesh.InboundDeltaFragment _ => Some (h, Ok tt)
  | Mesh.InboundDelta delta => Some (inbound_delta h delta a)
  | Mesh.InboundDurabilityReceipt receipt =>
      let '(d, tiers) := Durability.inbound_receipt (durability h) receipt (now_secs a) in
      Some (foldl push_wasm_event (set_durability h d) (map tier_event tiers), Ok tt)
  | Mesh.InboundRevocationDelta rev_delta => Some ((process_revocation h rev_delta a).1, Ok tt)
  | Mesh.InboundMigrationDelta mig_delta => h ← inbound_migration h mig_delta a; Some (h, Ok tt)
  | Mesh.InboundMigrationRevocationDelta mig_rev => Some (inbound_migration_revocation h mig_rev a, Ok tt)
  | Mesh.RelayDelta target_did delta =>
      if bool_decide (target_did = local_did h) then Some (inbound_relayed h delta a) else Some (h, Ok tt)
  end.

(** [core_receive_peer_message], from the decoded message: a fragment is buffered. *)
Definition receive_peer_message (h : CoreHandle) (msg : Mesh.GossipMessage) (a : Ambient)
  : option (CoreHandle * Res unit) :=
  let '(t, processed) := Mesh.process_wire_message delta_of_json (transport h) msg in
  let h := set_transport h t in
  match processed with
  | Some dispatch_msg => receive_inbound_wasm h dispatch_msg a
  | None => Some (h, Ok tt)
  end.

(** ** [init] *)

(** [db]: the rows the database of the path holds, [None] for [":memory:"], where [init] panics. *)
Definition init (config : Core.DeploymentConfig) (identity : Identity.IdentityManager) (db : option (gmap string string))
    (objects : ObjectStores) (page : BrowserTaint.Page) : option (Res CoreHandle) :=
  match Store.wasm_open json_of_string db with
  | Err e => Some (Err e)
  | Ok store =>
  match Store.kv store with
  | None => None
  | Some _ =>
  let seed := Identity.signing_key identity in
  let did := Identity.did identity in
  let m := Nat.max (Core.revocation_m config) 1 in
  let initial_schema_hash := match Core.schema_definitions config with
                             | s :: _ => Schema.identifier_hash sha256 s
                             | [] => Core.DEFAULT_SCHEMA_HASH
                             end in
  let crdt := BrowserCrdt.new seed (Identity.public_key_bytes identity) did initial_schema_hash in
  let local_schema := match Core.schema_definitions config with
                      | _ :: _ => initial_schema_hash
                      | [] => default Core.DEFAULT_SCHEMA_HASH (head (Core.schema_version_path config))
                      end in
  match Core.register_schemas crdt (Core.schema_version_path config) (Core.schema_definitions config) with
  | Err e => Some (Err e)
  | Ok crdt =>
  let quorum := Quorum.deployment_config (Core.quorum_k config) (Core.quorum_n config)
                  (Core.spatial_diversity_min config) (Core.max_single_sector_fraction config) in
  let anchor := if Core.anchor_attested_location config then
                  Some (Anchor.from_beacon_public_keys (Core.beacon_public_keys config) 0)
                else None in
  let transport := Mesh.new did seed 4 60 30 1000 (Core.mesh_mtu config) 3600 m
                     (default [] (head (Core.root_ca_keys config)))
                     (Z.max (Core.saturate_lease_duration_secs config) 1) in
  Some (Ok (mkCore identity store crdt BrowserTaint.new
    (Capability.new (Core.root_ca_keys config) (86400 <? Core.biscuit_ttl_secs config)) transport
    (Durability.with_anchor quorum anchor)
    (Migration.new (default (replicate 32 0%N) (Core.migration_ca_public_key config)) local_schema
       (Core.schema_version_path config) m ∅ ∅ (Core.build_schema_def_map (Core.schema_definitions config)))
    (Revocation.mkWasmRev (Revocation.new m (Nat.max (Core.revocation_n config) 1)) ∅) objects page []))
  end end end.

(** ** A tab over time *)

Inductive Op :=
| OpWrite (table key : string) (data : Json)
| OpPresentToken (token_hex : string)
| OpRegisterRootCa (key : bytes) (token : option (bytes * Z))
| OpRegisterMigrationCa (key : bytes)
| OpInitiateRevocation (target_did manager_token : string)
| OpActivateSaturate (biscuit_token : bytes)
| OpRenewSaturate (biscuit_token : bytes)
| OpTerminateSaturate (message : bytes) (co_manager_signatures : list (Did * bytes))
| OpVerifyContamination (root_delta_id : DeltaId) (manager_token : bytes) (now_secs : Z)
| OpCloseIco (ico_id : IncidentId) (manager_token : bytes) (now_secs : Z)
| OpMessage (msg : Mesh.GossipMessage)
| OpPoll.

Definition exec (h : CoreHandle) (op : Op) (a : Ambient) : option CoreHandle :=
  match op with
  | OpWrite table key data => Some (write h table key data a).1
  | OpPresentToken token_hex => Some (present_biscuit_token h token_hex a).1
  | OpRegisterRootCa key token => Some (register_root_ca_key h key token).1
  | OpRegisterMigrationCa key => Some (register_migration_ca_key h key)
  | OpInitiateRevocation target_did manager_token => Some (initiate_revocation h target_did manager_token a).1
  | OpActivateSaturate biscuit_token => Some (activate_saturate_mode h biscuit_token a).1
  | OpRenewSaturate biscuit_token => Some (renew_saturate_mode h biscuit_token a).1
  | OpTerminateSaturate message sigs => Some (terminate_saturate_mode h message sigs a).1
  | OpVerifyContamination root_delta_id manager_token now => Some (verify_contamination h root_delta_id manager_token now a).1
  | OpCloseIco ico_id manager_token now => Some (admin_close_ico h ico_id manager_token now a).1
  | OpMessage msg => fst <$> receive_peer_message h msg a
  | OpPoll => Some (set_page h (BrowserTaint.core_poll_events (page h)).1)
  end.

Fixpoint run (h : CoreHandle) (ops : list (Op * Ambient)) : option CoreHandle :=
  match ops with
  | [] => Some h
  | (op, a) :: ops => h ← exec h op a; run h ops
  end.

End Browser.
End Browser.
