(* ===== verification/Tab.v ===== *)
(** * A tab over time

    A call of the handle of [Browser] is a sequence of steps of its components, [TabStep]; what every
    step keeps holds of every history. *)

From Stdlib Require Import Floats.SpecFloat.
From S2P Require Import Prelude Types Scheduler Fragment Dag Identity Auth Revocation Saturate Contamination Schema SchemaText.
From S2P Require Import Automerge Verify Crdt BrowserCrdt BrowserTaint Ledgers Migration CloudQueue Durability.
From S2P Require Import CloudLedger Transport Store Sandbox Core Sample Browser.

Module Tab.
Import Trust Browser.

Section Tab.
Context `{!Automerge} `{!Bs58} `{!Ed25519} `{!BiscuitLib} `{!SerdeJson} `{!Codecs} `{!WasmRuntime} `{!IdbCursor}.
Context `{!LruCache (string * string) Session.ResumptionCredential} `{!Noise} `{!SelectOrder}.
Context `{!HashIter N Z} `{!HashIter string nat} `{!HashIter N (list (option Fragment.DeltaFragment))}.
Context `{!HashIter string Discovery.PeerState} `{!HashIter N Contamination.IncidentContextObject}.
Context `{!HashIter (string * string) N}.
Context {C : Type} `{!Outbound C}.
Context (number_eqb : Number -> Number -> bool) (is_blank : string -> bool).

Implicit Types h : CoreHandle (C := C).

(** ** The engine of the build *)

(** No operation of the engine changes the DID it signs under. *)
Lemma engine_same (c : CrdtEngine) op :
  Crdt.author_did (BrowserCrdt.exec canonical_json sha256 json_to_string error_to_string c op) = Crdt.author_did c.
Proof.
  destruct op; cbn [BrowserCrdt.exec]; try done.
  - by rewrite Crdt.write_scalar_frame.
  - unfold BrowserCrdt.apply. destruct (Crdt.gate _ _ c delta) as [code reason|reason|pk adopt]; [done..|].
    set (c1 := if adopt then _ else c). assert (Crdt.author_did c1 = Crdt.author_did c) as Hc1 by (unfold c1; by destruct adopt).
    clearbody c1. destruct (Crdt.merge_document c1 delta) as [c2 [[]|err]] eqn:Hm;
      rewrite (Crdt.merge_document_frame _ _ _ _ Hm); exact Hc1.
  - unfold Crdt.register_schema_definition. by case_decide.
  - unfold BrowserCrdt.maybe_compact. destruct (am_get_changes _) as [d cs].
    destruct (BrowserCrdt.should_compact_idb _ _); [|done].
    unfold BrowserCrdt.compact_table_idb. by destruct (am_save d).
Qed.

(** ** One component at a time

    A call is a sequence of these steps; [allowed] restricts the operations of the capability
    manager. *)
Inductive TabStep (allowed : Capability.Op -> Prop) h : CoreHandle (C := C) -> Prop :=
| step_store s : TabStep allowed h (set_store h s)
| step_engine op : TabStep allowed h
    (set_crdt h (BrowserCrdt.exec canonical_json sha256 json_to_string error_to_string (crdt h) op))
| step_tag root source now : TabStep allowed h (tag_contamination_root h root source now)
| step_verify root did sig expiry secs now : TabStep allowed h
    (let r := BrowserTaint.verify_data (cce h) (page h) root did sig expiry secs now in set_taint h r.1.1 r.1.2)
| step_close id did sig expiry secs now : TabStep allowed h
    (let r := BrowserTaint.admin_close (cce h) (page h) id did sig expiry secs now in set_taint h r.1.1 r.1.2)
| step_capability op : allowed op -> TabStep allowed h (set_capability h (Capability.apply_op (capability h) op))
| step_transport t : TabStep allowed h (set_transport h t)
| step_register id b parents : TabStep allowed h
    (set_durability h (Durability.register_delta (durability h) id id b parents ∅).1)
| step_compacted id : TabStep allowed h
    (set_durability h (Durability.set_queue (durability h) (CloudQueue.mark_compacted (Durability.cloud_queue (durability h)) id)))
| step_receipt receipt now : TabStep allowed h (set_durability h (Durability.inbound_receipt (durability h) receipt now).1)
| step_migration m : TabStep allowed h (set_migration h m)
| step_window table b ts : TabStep allowed h (record_corrupted_window_write h table b ts).1
| step_replay pre now : TabStep allowed h (replay_corrupted_windows h pre now)
| step_authored author id : TabStep allowed h (record_authored_delta h author id)
| step_revocation rev_delta now : TabStep allowed h
    (set_revocation h (Revocation.process_incoming_delta_wasm Core.sha256_bytes (revocation h) rev_delta now).1.1)
| step_objects o : TabStep allowed h (set_objects h o)
| step_page p : BrowserTaint.WASM_TAG_STORE p = BrowserTaint.WASM_TAG_STORE (page h) -> TabStep allowed h (set_page h p)
| step_records rs : TabStep allowed h (emit_records h rs).

(** *** Every call is a sequence of such steps *)

Section Moves.
Context (allowed : Capability.Op -> Prop) (h0 : CoreHandle (C := C)).
Abbreviation reach := (rtc (TabStep allowed) h0).

Lemma reach_step h h' : reach h -> TabStep allowed h h' -> reach h'.
Proof. apply rtc_r. Qed.
#[local] Hint Constructors TabStep : core.

Lemma reach_tag h root source now : reach h -> reach (tag_contamination_root h root source now).
Proof. eauto using reach_step. Qed.
Lemma reach_row h d t k : reach h -> reach (record_delta_row h d t k).
Proof. intros Hr. eapply reach_step; [done|]. by constructor. Qed.
Lemma reach_event h ev : reach h -> reach (push_wasm_event h ev).
Proof. intros Hr. eapply reach_step; [done|]. by constructor. Qed.
Lemma reach_authored h au d : reach h -> reach (record_authored_delta h au d).
Proof. intros Hr. eapply reach_step; [done|]. constructor. Qed.
Lemma reach_project h d t k v : reach h -> reach (project_row h d t k v).
Proof. intros Hr. apply reach_row. eapply reach_step; [done|]. constructor. Qed.
Lemma reach_engine h op c : reach h ->
  BrowserCrdt.exec canonical_json sha256 json_to_string error_to_string (crdt h) op = c -> reach (set_crdt h c).
Proof. intros Hr <-. eapply reach_step; [done|]. constructor. Qed.

Lemma reach_capability h op c : reach h -> allowed op -> Capability.apply_op (capability h) op = c -> reach (set_capability h c).
Proof. intros Hr Ha <-. eapply reach_step; [done|]. by constructor. Qed.

Lemma reach_apply h delta a : reach h -> reach (apply_incoming_delta h delta a).1.
Proof.
  intros Hr. unfold apply_incoming_delta, BrowserCrdt.apply_incoming_delta.
  pose proof (reach_engine h (Crdt.OpApply delta (now_micros a)) _ Hr eq_refl) as He. cbn [BrowserCrdt.exec] in He.
  destruct (BrowserCrdt.apply _ _ (crdt h) delta (now_micros a)) as [[c rs] r]. eapply reach_step; [exact He|constructor].
Qed.

Lemma reach_register h table key delta tag compacted a :
  reach h -> reach (register_written h table key delta tag compacted a).1.
Proof.
  intros Hr. unfold register_written. set (h1 := match tag with Some _ => _ | None => _ end).
  assert (reach h1) as Hr1 by (unfold h1; destruct tag as [[]|]; auto using reach_tag, reach_row, reach_authored).
  clearbody h1. clear Hr h.
  pose proof (reach_step _ _ Hr1 (step_register _ h1 (d_id delta) (default [] (delta_to_json delta)) (d_causal_parents delta))) as Hr2.
  destruct (Durability.register_delta _ _ _ _ _ _) as [d [[]|e]]; [|exact Hr2]. cbn [fst] in Hr2.
  assert (reach (set_durability h1 (if compacted
    then Durability.set_queue d (CloudQueue.mark_compacted (Durability.cloud_queue d) (d_id delta)) else d))) as Hr3
    by (destruct compacted; [exact (reach_step _ _ Hr2 (step_compacted _ (set_durability h1 d) (d_id delta)))|exact Hr2]).
  match goal with |- context [record_corrupted_window_write ?x ?y ?z ?w] =>
    pose proof (reach_step _ _ Hr3 (step_window _ x y z w)) as Hw; destruct (record_corrupted_window_write x y z w) as [h2 r] end.
  exact Hw.
Qed.

Lemma compact_objects h table now : exists o, (compact_after_write h table now).1 = set_objects (set_crdt h (BrowserCrdt.exec canonical_json sha256 json_to_string
    error_to_string (crdt h) (Crdt.OpCompact table))) o \/ (compact_after_write h table now).1 = h.
Proof.
  unfold compact_after_write. destruct (Store.kv (store h)); [|exists (objects h); by right]. cbn [BrowserCrdt.exec].
  unfold BrowserCrdt.maybe_compact. destruct (am_get_changes _) as [d cs].
  destruct (BrowserCrdt.should_compact_idb _ _); [|eexists; by left].
  unfold BrowserCrdt.compact_table_idb. destruct (am_save d). eexists. by left.
Qed.

Lemma reach_compact h table now : reach h -> reach (compact_after_write h table now).1.
Proof.
  intros Hr. destruct (compact_objects h table now) as (o & [-> | ->]); [|done].
  eapply reach_step; [eapply (reach_engine h _ _ Hr eq_refl)|]. by constructor.
Qed.

Lemma reach_write h table key data a : reach h -> reach (write h table key data a).1.
Proof.
  intros Hr. unfold write. destruct (ensure_local_trust_allows_io h); [|done].
  destruct (Store.wasm_write _ _ _ _ _) as [s [[]|e]]; [|eapply reach_step; [done|constructor]].
  pose proof (reach_step _ _ Hr (step_store _ h s)) as Hr1. set (h1 := set_store h s) in *. clearbody h1. clear Hr.
  pose proof (reach_engine h1 (Crdt.OpWrite table key data) _ Hr1 eq_refl) as Hr2. cbn [BrowserCrdt.exec] in Hr2.
  destruct (Crdt.write_scalar _ _ _ _ _) as [c [b|e]]; [|exact Hr2]. cbn [fst] in Hr2.
  pose proof (reach_compact _ table (now_micros a) Hr2) as Hr3.
  destruct (compact_after_write _ _ _) as [h3 compacted]. cbn [fst] in Hr3.
  set (tags := match human_reaction_tag h1 table key with Some t => [t] | None => [] end).
  pose proof (reach_engine h3 (Crdt.OpProduce b Low [] tags (now_micros a)) _ Hr3 eq_refl) as Hr4. cbn [BrowserCrdt.exec] in Hr4.
  destruct (BrowserCrdt.produce_delta_with_tags _ _ _ _ _ _ _ _) as [c' [delta|e]]; [|exact Hr4].
  by apply reach_register.
Qed.

Lemma reach_effects now es h : reach h -> reach (foldl (run_effect now) h es).
Proof.
  revert h. induction es as [|ef es IH]; intros h Hr; [done|]. cbn [foldl]. apply IH.
  destruct ef as [t d|t ids]; cbn [run_effect]; [by apply reach_event|].
  revert h Hr. induction ids as [|id ids IHi]; intros h Hr; [done|]. cbn [foldl]. by apply IHi, reach_tag.
Qed.

Lemma reach_process h rev_delta a : (forall now, allowed (Capability.OpRevoke now)) ->
  reach h -> reach (process_revocation h rev_delta a).1.
Proof.
  intros Hall Hr. unfold process_revocation. destruct (Revocation.process_incoming_delta_wasm _ _ _ _) as [[r es] result] eqn:Hp.
  pose proof (reach_step _ _ Hr (step_revocation _ h rev_delta (now_micros a))) as Hr0. rewrite Hp in Hr0.
  pose proof (reach_effects (now_micros a) es _ Hr0) as Hr1. cbn [fst] in Hr1. clear Hr0.
  set (h1 := foldl _ _ _) in *. clearbody h1. destruct result as [[collected required|]|e]; [exact Hr1| |exact Hr1].
  pose proof (reach_engine h1 (Crdt.OpRevoke (Revocation.target_did rev_delta)) _ Hr1 eq_refl) as Hr2.
  cbn [fst BrowserCrdt.exec] in *. case_bool_decide; [|exact Hr2].
  exact (reach_capability _ _ _ Hr2 (Hall (now_micros a)) eq_refl).
Qed.

Lemma reach_envelope delta_id tbl rkey obj : forall app h, reach h -> reach (envelope_loop h delta_id tbl rkey obj app).1.
Proof.
  induction obj as [|[k v] obj IH]; intros app h Hr; [done|]. cbn [envelope_loop].
  case_bool_decide; [by apply reach_project|]. destruct (_ && _); by apply IH.
Qed.

Lemma reach_merged h delta : reach h -> reach (project_merged h delta).
Proof.
  intros Hr. unfold project_merged. destruct (d_automerge_bytes delta) as [|x l]; [done|].
  destruct (json_of_bytes _) as [[]|]; try done.
  - unfold project_envelope. destruct (Core.as_str _) as [tbl|]; [|done]. destruct (Core.as_str _) as [rkey|]; [|done].
    match goal with |- context [envelope_loop h _ tbl rkey ?o []] => pose proof (reach_envelope (d_id delta) tbl rkey o [] h Hr) as He end.
    destruct (envelope_loop _ _ _ _ _ _) as [h3 app]. cbn [fst] in He. destruct app; [done|by apply reach_project].
  - unfold project_document. destruct (Core.as_str _) as [tbl|]; [|done]. destruct (Core.as_str _) as [rkey|]; [|done].
    destruct (Crdt.read_scalar _ _ rkey); [by apply reach_project|done].
Qed.

Lemma reach_inbound h delta a : reach h -> reach (inbound_delta h delta a).1.
Proof.
  intros Hr. unfold inbound_delta. pose proof (reach_apply h delta a Hr) as Hr1.
  destruct (apply_incoming_delta h delta a) as [h1 [outcome|e]]; [|exact Hr1]. cbn [fst] in Hr1.
  assert (reach (inbound_outcome h1 delta outcome a)) as Hr2.
  { destruct outcome as [l|reason|reason]; cbn [inbound_outcome]; [by apply reach_merged, reach_authored| |done].
    eapply reach_step; [done|]. unfold quarantine_incoming. cbn. by constructor. }
  match goal with |- context [Durability.register_delta _ _ _ ?b ?p _] =>
    pose proof (reach_step _ _ Hr2 (step_register _ _ (d_id delta) b p)) as Hr3 end.
  by destruct (Durability.register_delta _ _ _ _ _ _) as [d r].
Qed.

Lemma reach_message h msg a h' r : (forall now, allowed (Capability.OpRevoke now)) ->
  reach h -> receive_peer_message h msg a = Some (h', r) -> reach h'.
Proof.
  intros Hall Hr. unfold receive_peer_message. destruct (Mesh.process_wire_message _ _ _) as [t processed].
  pose proof (reach_step _ _ Hr (step_transport _ h t)) as Hr1. set (h1 := set_transport h t) in *. clearbody h1. clear Hr.
  destruct processed as [m|]; [|by intros [= <- _]]. destruct m; cbn [receive_inbound_wasm].
  - intros [= Hi]. pose proof (reach_inbound h1 delta a Hr1) as Hr2. by rewrite Hi in Hr2.
  - by intros [= <- _].
  - pose proof (reach_step _ _ Hr1 (step_receipt _ h1 receipt (now_secs a))) as Hr2.
    destruct (Durability.inbound_receipt _ _ _) as [d tiers]. intros [= <- _]. revert Hr2. cbn [fst].
    generalize (set_durability h1 d). induction tiers as [|ti tiers IH]; intros h2 Hr2; [done|]. cbn [map foldl].
    by apply IH, reach_event.
  - intros [= <- _]. by apply reach_process.
  - unfold inbound_migration. intros Hm. apply bind_Some in Hm as (h2 & Hm & [= <- _]).
    apply bind_Some in Hm as ([m result] & _ & Hm).
    pose proof (reach_step _ _ Hr1 (step_migration _ h1 m)) as Hr2.
    destruct result as [[]|]; injection Hm as <-; try done.
    eapply reach_step; [|constructor]. exact (reach_engine _ (Crdt.OpSetCurrent _) _ Hr2 eq_refl).
  - intros [= <- _]. unfold inbound_migration_revocation.
    destruct (Migration.receive_revocation_delta _ _ _) as [m [b|e]]; [apply reach_tag|];
      (eapply reach_step; [done|constructor]).
  - case_bool_decide; [|by intros [= <- _]]. unfold inbound_relayed. pose proof (reach_apply h1 delta a Hr1) as Hr2.
    destruct (apply_incoming_delta h1 delta a) as [h2 [[]|e]]; intros [= <- _]; try done. by apply reach_authored.
Qed.
End Moves.

(** What a call may do to the capability manager: two of them hand it a token, and a revocation comes
    from the page or from a peer. *)
Definition may_use (op : Op) (a : Ambient) (c : Capability.Op) : Prop :=
  match c with
  | Capability.OpPresent token now micros =>
      exists token_hex, op = OpPresentToken token_hex /\ hex_decode token_hex = Some token /\ now = now_secs a
  | Capability.OpRegister key token => op = OpRegisterRootCa key token
  | Capability.OpRevoke _ => True
  | _ => False
  end.

Lemma tab_exec_moves h op a h' : exec is_blank h op a = Some h' -> rtc (TabStep (may_use op a)) h h'.
Proof.
  assert (rtc (TabStep (may_use op a)) h h) as Hr by done.
  assert (forall now, may_use op a (Capability.OpRevoke now)) as Hall by done.
  assert (forall t, rtc (TabStep (may_use op a)) h (set_transport h t)) as Htr by (intros t; apply rtc_once; constructor).
  destruct op; cbn [exec].
  - intros [= <-]. by apply reach_write.
  - intros [= <-]. unfold present_biscuit_token. destruct (hex_decode _) as [[|x l]|] eqn:Hhex; [done| |done].
    destruct (Capability.present_token _ _ _ _) as [c r] eqn:Hc. cbn [fst].
    apply (reach_capability _ h h (Capability.OpPresent (x :: l) (now_secs a) (now_micros a))); [done| |cbn; by rewrite Hc].
    by exists token_hex.
  - intros [= <-]. unfold register_root_ca_key. destruct (Capability.register_root_ca_key _ _ _) as [c r] eqn:Hc. cbn [fst].
    apply (reach_capability _ h h (Capability.OpRegister key token)); [done|done|cbn; by rewrite Hc].
  - intros [= <-]. apply rtc_once. constructor.
  - intros [= <-]. unfold initiate_revocation. destruct (is_blank manager_token), (is_blank target_did); try done.
    destruct (Revocation.produce_partial_delta _ _ _ _ _) as [partial|e]; [|done].
    pose proof (reach_process _ h h partial a Hall Hr) as Hr2. by destruct (process_revocation h partial a).
  - intros [= <-]. unfold activate_saturate_mode. destruct (verify_disaster_alert_token _ _ _); [|done].
    destruct (Mesh.activate_saturate_mode _ _ _ _) as [t r]. apply Htr.
  - intros [= <-]. unfold renew_saturate_mode. destruct (verify_disaster_alert_token _ _ _); [|done].
    destruct (Mesh.renew_saturate_mode _ _ _ _) as [t r]. apply Htr.
  - intros [= <-]. unfold terminate_saturate_mode. destruct message; [done|]. destruct (Identity.sign _ _); [|done].
    destruct (Mesh.terminate_saturate_mode _ _ _ _) as [t r]. apply Htr.
  - intros [= <-]. unfold verify_contamination. destruct (manager_authority _ _ _ _) as [[sig expiry]|e]; [|done].
    pose proof (step_verify (may_use (OpVerifyContamination root_delta_id manager_token now_secs) a) h root_delta_id (local_did h)
      sig expiry now_secs (now_micros a)) as Hs.
    destruct (BrowserTaint.verify_data _ _ _ _ _ _ _ _) as [[e p] r]. by apply rtc_once.
  - intros [= <-]. unfold admin_close_ico. destruct (manager_authority _ _ _ _) as [[sig expiry]|e]; [|done].
    pose proof (step_close (may_use (OpCloseIco ico_id manager_token now_secs) a) h ico_id (local_did h)
      sig expiry now_secs (now_micros a)) as Hs.
    destruct (BrowserTaint.admin_close _ _ _ _ _ _ _ _) as [[e p] r]. by apply rtc_once.
  - destruct (receive_peer_message h msg a) as [[h2 r]|] eqn:Hm; [|done]. intros [= <-]. by eapply reach_message.
  - intros [= <-]. apply rtc_once. by constructor.
Qed.

(** The operations of the manager some call of a history may use. *)
Definition some_may_use (ops : list (Op * Ambient)) (c : Capability.Op) : Prop :=
  exists op a, (op, a) ∈ ops /\ may_use op a c.

Lemma step_mono (P Q : Capability.Op -> Prop) h h' : (forall c, P c -> Q c) -> TabStep P h h' -> TabStep Q h h'.
Proof. intros HPQ Hs. destruct Hs; try (constructor; by auto). Qed.

Lemma run_moves ops : forall h h', run is_blank h ops = Some h' -> rtc (TabStep (some_may_use ops)) h h'.
Proof.
  induction ops as [|[op a] ops IH]; intros h h' Hrun; cbn [run] in Hrun; [by injection Hrun as <-|].
  apply bind_Some in Hrun as (h1 & He & Hrun). etrans.
  - eapply rtc_subrel; [|by apply tab_exec_moves in He]. intros x y. apply step_mono. intros c Hc.
    exists op, a. split; [left|done].
  - eapply rtc_subrel; [|by apply IH]. intros x y. apply step_mono. intros c (op' & a' & Hin & Hc).
    exists op', a'. split; [by right|done].
Qed.

(** ** What no call changes *)

(** Contamination stays on its roots, and the device is itself. *)
Record tab_ok (did : Did) h : Prop := {
  ok_taint : BrowserTaint.roots_only (cce h, page h);
  ok_did : local_did h = did;
  ok_author : Crdt.author_did (crdt h) = did
}.

Lemma taint_same (e : BrowserTaint.CausalContaminationEngine) p p' :
  BrowserTaint.WASM_TAG_STORE p' = BrowserTaint.WASM_TAG_STORE p ->
  BrowserTaint.roots_only (e, p) -> BrowserTaint.roots_only (e, p').
Proof.
  intros Hp [Hg Hi Hinc Hc Ht]. split; [done..|]. cbn [fst snd] in *. unfold BrowserTaint.read_tags_from_mem in *.
  by rewrite Hp.
Qed.

Lemma window_frame h table b ts : exists o, (record_corrupted_window_write h table b ts).1 = set_objects h o.
Proof.
  unfold record_corrupted_window_write. destruct (Migration.active_corruption_migration _); [|exists (objects h); by destruct h].
  destruct (Sidecar.wasm_record _ _ _ _ _ _) as [s [x|e]]; by eexists.
Qed.

(** What an operation of the engine and a replay tag keep of the engine and the tags, a replay keeps. *)
Lemma replay_frame (P : CrdtEngine * BrowserTaint.Page -> Prop) h pre now :
  (forall c p op, P (c, p) -> P (BrowserCrdt.exec canonical_json sha256 json_to_string error_to_string c op, p)) ->
  (forall c p d m, P (c, p) -> P (c, BrowserTaint.append_tag p d (ReplayComplete m))) ->
  P (crdt h, page h) ->
  exists m o c p, replay_corrupted_windows h pre now = set_page (set_crdt (set_objects (set_migration h m) o) c) p /\ P (c, p).
Proof.
  intros Hop Htag HP. unfold replay_corrupted_windows.
  destruct (Migration.corrupted_schema_windows _ !! pre) as [ids|];
    [|exists (migration h), (objects h), (crdt h), (page h); by destruct h].
  assert (forall st e, P e -> P (foldl (replay_one now) (st, e) ids).2) as Hf.
  { induction ids as [|id ids IH]; intros st e He; [done|]. cbn [foldl].
    assert (P (replay_one now (st, e) id).2) as He1.
    { unfold replay_one. cbn [fst snd]. pose proof (Sidecar.wasm_replay_keeps delta_of_json (ReplayTarget0 := replay_target) P st id e now) as Hk.
      destruct (Sidecar.wasm_replay_sidecar _ _ _ _ _) as [[st' e'] r]. apply Hk; [| |done].
      - intros [c p] d Hc. cbn. pose proof (Hop c p (Crdt.OpApply d now) Hc) as Ha. cbn [BrowserCrdt.exec] in Ha.
        by destruct (BrowserCrdt.apply _ _ _ _ _) as [[c' rs] r'].
      - intros [c p] d Hc. by apply Htag. }
    destruct (replay_one now (st, e) id) as [st1 e1]. by apply IH. }
  specialize (Hf (sidecar_entries (objects h)) _ HP). destruct (foldl _ _ _) as [s [c p]]. by eexists _, _, _, _.
Qed.

Lemma tab_ok_step allowed did h h' : TabStep allowed h h' -> tab_ok did h -> tab_ok did h'.
Proof.
  intros Hs Hok. pose proof Hok as [Ht Hdid Ha]. destruct Hs; try (by split).
  - split; try done. cbn. by rewrite engine_same.
  - pose proof (BrowserTaint.tag_roots_only incident_ids _ root source now Ht) as Hro. cbn [fst snd] in Hro.
    unfold tag_contamination_root. destruct (BrowserTaint.tag_contamination_root _ _ _ _ _ _) as [[e p] r]. by split.
  - pose proof (BrowserTaint.verify_roots_only incident_ids _ root did0 sig expiry secs now Ht) as Hro. cbn [fst snd] in Hro.
    destruct (BrowserTaint.verify_data _ _ _ _ _ _ _ _) as [[e p] r]. by split.
  - pose proof (BrowserTaint.close_roots_only _ id did0 sig expiry secs now Ht) as Hro. cbn [fst snd] in Hro.
    destruct (BrowserTaint.admin_close _ _ _ _ _ _ _ _) as [[e p] r]. by split.
  - destruct (window_frame h table b ts) as [o ->]. by split.
  - destruct (replay_frame (fun s => BrowserTaint.roots_only (cce h, s.2) /\ Crdt.author_did s.1 = did) h pre now)
      as (m & o & c & p & -> & Hro & Hau); [| |by split|by split].
    + intros c p op [Hro Hau]. split; [done|]. cbn. by rewrite engine_same.
    + intros c p d m [[Hg Hi Hinc Hc Htags] Hau]. split; [split; try done|done]. cbn in *.
      intros d' r id [Hin|[_ ?]]%BrowserTaint.tag_in_append; [by eapply Htags|done].
  - split; try done. cbn. by eapply taint_same.
Qed.

Lemma tab_ok_reach allowed did h h' : rtc (TabStep allowed) h h' -> tab_ok did h -> tab_ok did h'.
Proof. induction 1; eauto using tab_ok_step. Qed.

(** *** The trust level *)

(** What happens to the manager on the way. *)
Lemma capability_reach allowed h h' : rtc (TabStep allowed) h h' ->
  exists cs, Forall allowed cs /\ capability h' = Capability.run (capability h) cs.
Proof.
  induction 1 as [h|h h1 h2 Hs _ (cs & Hall & Hc)]; [by exists []|].
  assert (exists cs1, Forall allowed cs1 /\ capability h1 = Capability.run (capability h) cs1) as (cs1 & Hall1 & Hc1).
  { destruct Hs; try (by exists []).
    - exists []. split; [done|]. unfold tag_contamination_root. by destruct (BrowserTaint.tag_contamination_root _ _ _ _ _ _) as [[]].
    - exists [op]. split; [by apply Forall_singleton|done].
    - exists []. split; [done|]. by destruct (window_frame h table b ts) as [o ->].
    - exists []. split; [done|]. by destruct (replay_frame (fun _ => True) h pre now) as (m & o & c & p & -> & _). }
  exists (cs1 ++ cs). split; [by apply Forall_app|]. rewrite Hc, Hc1. unfold Capability.run. by rewrite foldl_app.
Qed.

(** The token a call hands over, and the time it is verified at. *)
Definition hands_over (op : Op) (a : Ambient) : option (bytes * Z) :=
  match op with
  | OpPresentToken token_hex => token ← hex_decode token_hex; Some (token, now_secs a)
  | OpRegisterRootCa _ token => token
  | _ => None
  end.

Lemma may_use_token op a c token now :
  may_use op a c -> Capability.token_of c = Some (token, now) -> hands_over op a = Some (token, now).
Proof.
  destruct c as [t s|t s micros|micros|micros|key tok|s]; cbn; try done.
  - intros (hex & -> & Hhex & ->) [= <- <-]. cbn. by rewrite Hhex.
  - by intros ->.
Qed.

(** *** The start *)

Lemma register_schemas_same c path defs c' : Core.register_schemas c path defs = Ok c' ->
  Crdt.author_did c' = Crdt.author_did c.
Proof.
  assert (forall defs vs c c', Core.register_definitions c vs defs = Ok c' -> Crdt.author_did c' = Crdt.author_did c) as Hd.
  { clear. induction defs as [|s defs IH]; intros [|v vs] c c'; cbn [Core.register_definitions]; try by intros [= <-].
    unfold Crdt.register_schema_definition. case_decide; [|done].
    intros Hr. apply IH in Hr as ->. done. }
  unfold Core.register_schemas. destruct path as [|v path]; [destruct defs; [by intros [= <-]|done]|].
  destruct (_ && _); [done|]. intros Hr. apply Hd in Hr as ->. done.
Qed.

(** Nothing of the page is contaminated yet: it has just been opened. *)
Lemma init_ok config identity db o p h :
  init config identity db o p = Some (Ok h) -> BrowserTaint.WASM_TAG_STORE p = ∅ ->
  tab_ok (Identity.did identity) h /\ trust_level h <> Verified.
Proof.
  unfold init. intros Hi Hp. destruct (Store.wasm_open _ _) as [st|]; [|done].
  destruct (Store.kv st); [|done]. destruct (Core.register_schemas _ _ _) as [c|e] eqn:Hs; [|done].
  injection Hi as <-. apply register_schemas_same in Hs as Ha. split; [|done]. split; cbn; try done.
  split; cbn; try done. intros d r id. unfold BrowserTaint.read_tags_from_mem. rewrite Hp, lookup_empty.
  by intros ?%not_elem_of_nil.
Qed.

(** A tab opened by [init], whose page has no tag, over whatever its database holds, and what has
    happened to it since. *)
Definition opened (config : Core.DeploymentConfig) (identity : Identity.IdentityManager) (ops : list (Op * Ambient)) h : Prop :=
  exists db o p h0, init config identity db o p = Some (Ok h0) /\ BrowserTaint.WASM_TAG_STORE p = ∅ /\
    run is_blank h0 ops = Some h.

(** C21: what a tab never does, whatever its page calls, its peers send and its database held when it was
    opened.  Contamination does not spread: every incident holds its one root, and a Delta tagged
    contaminated is the root it is tagged with.  The device signs under the DID it started with.  And
    it trusts itself on nobody's word but an authority's: [Verified] it is only after a call, to
    [present_biscuit_token] or to [register_root_ca_key], that handed over a token which verifies, at
    the time of that call, under a root key registered by now; no message of a peer makes it so. *)
Theorem tab_never (config : Core.DeploymentConfig) (identity : Identity.IdentityManager) (ops : list (Op * Ambient))
    (h : CoreHandle (C := C)) :
  opened config identity ops h ->
  (forall id ico, BrowserTaint.incidents (cce h) !! id = Some ico ->
     exists r, Contamination.i_roots ico = [r] /\ Contamination.i_deltas ico = {[r]}) /\
  (forall d r id, Contaminated r id ∈ BrowserTaint.read_tags_from_mem (page h) d -> d = r) /\
  Crdt.author_did (crdt h) = Identity.did identity /\ local_did h = Identity.did identity /\
  (trust_level h = Verified ->
   exists op a token now ca claims, (op, a) ∈ ops /\ hands_over op a = Some (token, now) /\
     ca ∈ RootCa.keys (Capability.root_ca_registry (capability h)) /\ Biscuit.verify_token token ca now = Ok claims).
Proof.
  intros (db & o & p & h0 & Hi & Hp & Hr%run_moves). destruct (init_ok _ _ _ _ _ _ Hi Hp) as [Hok Hnv].
  destruct (tab_ok_reach _ _ _ _ Hr Hok) as [Ht Hdid Ha].
  split_and!; [apply (BrowserTaint.ro_incidents _ Ht)|apply (BrowserTaint.ro_tags _ Ht)|done..|].
  intros Hv. destruct (capability_reach _ _ _ Hr) as (cs & Hall & Hc). unfold trust_level in *. rewrite Hc in Hv |- *.
  destruct (Capability.verified_justified _ _ Hnv Hv) as (c & Hin & token & now & ca & claims & Htok & Hca & Hver).
  rewrite Forall_forall in Hall. destruct (Hall _ Hin) as (op & a & Hop & Huse).
  exists op, a, token, now, ca, claims. split_and!; try done. by eapply may_use_token.
Qed.

End Tab.
End Tab.

(** * On the sample deployment *)

Module SampleTab.
Export Sample.
Import Browser.
#[export] Existing Instance idb_cursor.
#[export] Instance no_modules : WasmRuntime := scripts (fun _ => None).

(** A tab over a database of one row, and a second one of another user. *)
Definition one_row : gmap string string := {[Store.composite_key "people" "name" := "sada"]}.
Definition tab_started (n : N) : option (Res (CoreHandle (C := nat * list bytes))) :=
  init config (Sample.identity n) (Some one_row) no_objects BrowserTaint.empty_page.

Definition from_started (r : option (Res (CoreHandle (C := nat * list bytes)))) :
  (match r with Some (Ok _) => true | _ => false end) = true -> CoreHandle (C := nat * list bytes) :=
  match r with Some (Ok h) => fun _ => h | _ => fun Hp => match Bool.diff_false_true Hp with end end.
Lemma from_started_eq r Hr : r = Some (Ok (from_started r Hr)).
Proof. by destruct r as [[h|e]|]. Qed.

Definition tab : CoreHandle (C := nat * list bytes) := from_started (tab_started 1) eq_refl.
Definition other : CoreHandle (C := nat * list bytes) := from_started (tab_started 2) eq_refl.

(** What the user of [other] wrote, and the same with a signature that is not theirs. *)
Definition delta_of (h : CoreHandle (C := nat * list bytes)) : Delta :=
  match (BrowserCrdt.produce_delta_with_tags canonical_json sha256 (crdt h) (am_save (Crdt.doc
           (Crdt.write_scalar json_to_string (crdt h) "people" "name" (JString "eve")).1)).2 Low [] [] 0).2 with
  | Ok d => d
  | Err _ => mkDelta 0 "" [] 0 [] Low [] [] 0 0
  end.
Definition received : Delta := delta_of other.
Definition forged : Delta := mkDelta (d_id received) (d_author_did received) [7]%N (d_schema_hash received)
  (d_automerge_bytes received) Low [] [] (d_lamport received) 0.

Definition writes : list (Op * Ambient) :=
  [(OpWrite "people" "name" (JString "bob"), clock 1); (OpMessage (Mesh.InboundDelta received), clock 2);
   (OpMessage (Mesh.InboundDelta forged), clock 3); (OpPoll, clock 4)].

Definition from_some {A} (r : option A) : (match r with Some _ => true | None => false end) = true -> A :=
  match r with Some x => fun _ => x | None => fun Hp => match Bool.diff_false_true Hp with end end.
Lemma from_some_eq {A} (r : option A) Hr : r = Some (from_some r Hr).
Proof. by destruct r. Qed.

Definition written_tab : CoreHandle (C := nat * list bytes) := from_some (run never tab writes) eq_refl.
Lemma written_tab_eq : run never tab writes = Some written_tab.
Proof. apply from_some_eq. Qed.

(** The same after a token of the authority with key 1, which is good until second 100. *)
Definition vouched : list (Op * Ambient) := (OpPresentToken (toy_encode [100; 1]%N), clock 1) :: writes.
Definition vouched_tab : CoreHandle (C := nat * list bytes) := from_some (run never tab vouched) eq_refl.
Lemma vouched_tab_eq : run never tab vouched = Some vouched_tab.
Proof. apply from_some_eq. Qed.
End SampleTab.

Section Witness.
Import SampleTab Browser Tab.

Lemma tab_never_witness :
  trust_level written_tab = Trust.Unverified /\
  exists op a token now ca claims, (op, a) ∈ vouched /\ hands_over op a = Some (token, now) /\
    ca ∈ RootCa.keys (Capability.root_ca_registry (capability vouched_tab)) /\ Biscuit.verify_token token ca now = Ok claims.
Proof.
  split; [vm_compute; reflexivity|].
  destruct (tab_never never Sample.config (Sample.identity 1) vouched vouched_tab) as (_ & _ & _ & _ & Hv).
  - exists (Some one_row), no_objects, BrowserTaint.empty_page, tab.
    split; [exact (from_started_eq (tab_started 1) eq_refl)|]. split; [reflexivity|]. exact vouched_tab_eq.
  - apply Hv. vm_compute. reflexivity.
Defined.
End Witness.
