(* ===== verification/TabLife.v ===== *)
(** * What becomes of a tab: writes, the queue for the ledger, foreign Deltas, revocation

    Theorems about the calls and histories of the handle of [Browser], over the steps of [Tab]. *)

From Stdlib Require Import Floats.SpecFloat.
From S2P Require Import Prelude Types Scheduler Fragment Dag Identity Auth Revocation Saturate Contamination Schema SchemaText.
From S2P Require Import Automerge Verify Crdt BrowserCrdt BrowserTaint Ledgers Migration CloudQueue Durability.
From S2P Require Import CloudLedger Transport Store Sandbox Core Sample Browser Tab.

Module TabLife.
Import Trust Browser Tab.

Section TabLife.
Context `{!Automerge} `{!Bs58} `{!Ed25519} `{!BiscuitLib} `{!SerdeJson} `{!Codecs} `{!WasmRuntime} `{!IdbCursor}.
Context `{!LruCache (string * string) Session.ResumptionCredential} `{!Noise} `{!SelectOrder}.
Context `{!HashIter N Z} `{!HashIter string nat} `{!HashIter N (list (option Fragment.DeltaFragment))}.
Context `{!HashIter string Discovery.PeerState} `{!HashIter N Contamination.IncidentContextObject}.
Context `{!HashIter (string * string) N}.
Context {C : Type} `{!Outbound C}.

Implicit Types h : CoreHandle (C := C).

(** ** Local writes *)

Lemma compact_frame h table now : exists c o, (compact_after_write h table now).1 = set_objects (set_crdt h c) o.
Proof.
  destruct (compact_objects h table now) as (o & [-> | ->]); [by eexists _, o|].
  exists (crdt h), (objects h). by destruct h.
Qed.

Lemma tag_frame h root source now : exists e p, tag_contamination_root h root source now = set_taint h e p /\
  BrowserTaint.WASM_DELTA_INDEX p = BrowserTaint.WASM_DELTA_INDEX (page h).
Proof.
  unfold tag_contamination_root, BrowserTaint.tag_contamination_root.
  match goal with |- context [BrowserTaint.append_all ?p ?ids ?t] =>
    destruct (BrowserTaint.append_all_frame p ids t) as (_ & Hi & _); set (q := BrowserTaint.append_all p ids t) in * end.
  clearbody q. destruct (mbind _ _) as [[id ico]|]; [destruct (Contamination.composite_merge _ _ _ _) as [[c ia] ib]|];
    eexists _, _; (split; [reflexivity|exact Hi]).
Qed.

Lemma recorded_row p d row : row ∈ BrowserTaint.rows_by_delta_id (BrowserTaint.record_delta_row p d row.1 row.2) d.
Proof.
  destruct row as [t k]. unfold BrowserTaint.rows_by_delta_id, BrowserTaint.record_delta_row. cbn.
  rewrite lookup_insert_eq. cbn. case_decide; [done|]. apply elem_of_app. right. by left.
Qed.

Lemma recorded_author h author d : d ∈ Revocation.authored_delta_ids (revocation (record_authored_delta h author d)) author.
Proof.
  unfold Revocation.authored_delta_ids, record_authored_delta. cbn. rewrite lookup_insert_eq. cbn.
  apply elem_of_elements. set_solver.
Qed.

(** What holds once a written Delta is signed. *)
Definition registered h (d : DeltaId) (table key : string) : Prop :=
  d ∈ Revocation.authored_delta_ids (revocation h) (local_did h) /\
  (table, key) ∈ BrowserTaint.rows_by_delta_id (page h) d.

Definition queued h : list DeltaId := CloudQueue.ids (Durability.cloud_queue (durability h)).

Lemma register_written_spec h table key delta tag compacted a :
  let '(h', r) := register_written h table key delta tag compacted a in
  store h' = store h /\ capability h' = capability h /\ registered h' (d_id delta) table key /\
  Durability.durability_tier (durability h') (d_id delta) = Durability.Uncommitted /\
  if CloudQueue.MAX_QUEUE_DEPTH <=? Z.of_nat (length (queued h))
  then r = Err (CloudQueueFull (length (queued h))) /\ queued h' = queued h
  else r = Ok (Core.mkWriteResult (d_id delta) Durability.Uncommitted (Capability.unverified_warning (capability h))) /\
       queued h' = queued h ++ [d_id delta].
Proof.
  unfold register_written. set (h1 := match tag with Some _ => _ | None => _ end).
  assert (exists e p, h1 = set_taint (record_authored_delta h (local_did h) (d_id delta)) e p /\
    (table, key) ∈ BrowserTaint.rows_by_delta_id p (d_id delta)) as (e & p & Hh1 & Hrow).
  { pose proof (recorded_row (page h) (d_id delta) (table, key)) as Hrow. cbn [fst snd] in Hrow.
    unfold h1. destruct tag as [[]|]; try (eexists _, _; split; [reflexivity|exact Hrow]).
    match goal with |- context [tag_contamination_root ?x ?r ?s ?n] => destruct (tag_frame x r s n) as (e & p & -> & Hp) end.
    eexists _, _. split; [reflexivity|]. unfold BrowserTaint.rows_by_delta_id. by rewrite Hp. }
  rewrite Hh1. clear Hh1 h1. pose proof (recorded_author h (local_did h) (d_id delta)) as Hau.
  assert (length (queued h) = CloudQueue.depth (Durability.cloud_queue (durability h))) as Hlen
    by (unfold queued, CloudQueue.ids; apply length_map). rewrite Hlen.
  unfold Durability.register_delta, CloudQueue.enqueue. rewrite Z.geb_leb. cbn [durability set_taint record_authored_delta
    set_revocation Durability.cloud_queue Durability.set_states].
  destruct (_ <=? _).
  - cbn. split_and!; try done. unfold Durability.durability_tier. cbn. by rewrite lookup_insert_eq.
  - match goal with |- context [record_corrupted_window_write ?x ?y ?z ?w] =>
      destruct (window_frame x y z w) as [o Ho]; destruct (record_corrupted_window_write x y z w) as [h' r] end.
    cbn [fst] in Ho. subst h'. split_and!; try done.
    + unfold Durability.durability_tier. destruct compacted; cbn; by rewrite lookup_insert_eq.
    + unfold queued. destruct compacted; cbn;
        [unfold CloudQueue.mark_compacted; rewrite DurabilityProofs.ids_update_first by done|]; unfold CloudQueue.ids; by rewrite map_app.
Qed.

(** C12: A write of the page, on every path.  A device that is not revoked gets its value into the object
    store and the view, where [read] finds it and nothing else has changed; the Delta is listed under
    its author and its row, which is how a revocation and an incident find it, and waits for the
    ledger.  Without JSON text, or revoked, nothing changes.  When the document refuses the value,
    or the queue is full, the error comes after the row: it stays, under an answer that says the
    write has failed. *)
Theorem tab_write_outcome h (table key : string) (data : Json) (a : Ambient) :
  let '(h', r) := write h table key data a in
  let stored := exists text, json_to_string data = Some text /\
    store h' = Store.mkStore (<[Store.composite_key table key := text]> <$> Store.kv (store h))
                             (Store.insert_row (Store.tables (store h)) table key data) /\
    capability h' = capability h /\
    read h' table key = Ok (Core.mkQueryResult table key data (Capability.unverified_warning (capability h)) false) in
  match r with
  | Ok w =>
      stored /\ trust_level h <> Revoked /\ registered h' (Core.wr_delta_id w) table key /\
      Core.wr_durability_tier w = Durability.durability_tier (durability h') (Core.wr_delta_id w) /\
      Core.wr_durability_tier w = Durability.Uncommitted /\ queued h' = queued h ++ [Core.wr_delta_id w]
  | Err e =>
      queued h' = queued h /\
      ((trust_level h = Revoked /\ e = AuthorisationFailed "device is REVOKED" /\ h' = h) \/
       (trust_level h <> Revoked /\ json_to_string data = None /\ h' = h) \/
       (trust_level h <> Revoked /\ stored /\
        ((Crdt.write_scalar json_to_string (crdt h) table key data).2 = Err e \/
         e = CloudQueueFull (length (queued h)) /\ CloudQueue.MAX_QUEUE_DEPTH <= Z.of_nat (length (queued h)))))
  end.
Proof.
  unfold write, ensure_local_trust_allows_io. fold (trust_level h). case_bool_decide as Htr; [split; auto|].
  unfold Store.wasm_write. destruct (json_to_string data) as [text|] eqn:Htext.
  2:{ split; [done|]. right. left. split_and!; [done|done|by destruct h]. }
  set (s := Store.mkStore _ _). cbv zeta beta iota. set (stored := fun h' => store h' = s /\ capability h' = capability h).
  assert (forall h', stored h' -> exists text0, Some text = Some text0 /\
    store h' = Store.mkStore (<[Store.composite_key table key := text0]> <$> Store.kv (store h))
      (Store.insert_row (Store.tables (store h)) table key data) /\ capability h' = capability h /\
    read h' table key = Ok (Core.mkQueryResult table key data (Capability.unverified_warning (capability h)) false)) as Hst.
  { intros h' [Hs Hc]. exists text. split_and!; try done. unfold read, ensure_local_trust_allows_io. rewrite Hc, Hs.
    fold (trust_level h). rewrite bool_decide_eq_false_2 by done. cbn [mbind result_bind]. unfold Store.wasm_read, s. cbn.
    unfold Store.insert_row. rewrite lookup_insert_eq. cbn. by rewrite lookup_insert_eq. }
  change (crdt (set_store h s)) with (crdt h).
  destruct (Crdt.write_scalar _ (crdt h) table key data) as [c [b|e]] eqn:Hw.
  2:{ split; [done|]. right. right. split_and!; [done|by apply Hst|by left]. }
  destruct (compact_frame (set_crdt (set_store h s) c) table (now_micros a)) as (c2 & o & Hcf).
  destruct (compact_after_write _ _ _) as [h2 compacted]. cbn [fst] in Hcf. subst h2.
  set (tags := match human_reaction_tag _ _ _ with Some t => [t] | None => [] end).
  match goal with |- context [BrowserCrdt.produce_delta_with_tags ?j ?sh ?x ?y ?z ?u ?v ?w] =>
    destruct (BrowserCrdt.produce_same zstd_encode j sh delta_to_json x x y z u v w ltac:(done)) as (_ & delta & Hd & _);
    destruct (BrowserCrdt.produce_delta_with_tags j sh x y z u v w) as [c3 [d|e]] end; [|done].
  injection Hd as ->.
  match goal with |- context [register_written ?x _ _ _ ?t _ _] =>
    pose proof (register_written_spec x table key delta t compacted a) as Hreg;
    destruct (register_written x table key delta t compacted a) as [h' r] end.
  destruct Hreg as (Hs & Hc & Hr & Ht & Hq). cbn [set_crdt set_objects set_store store capability] in Hs, Hc.
  specialize (Hst h' (conj Hs Hc)). change (queued (set_crdt _ c3)) with (queued h) in Hq.
  destruct (Z.leb_spec CloudQueue.MAX_QUEUE_DEPTH (Z.of_nat (length (queued h)))); destruct Hq as [-> Hq].
  - split; [done|]. right. right. split_and!; [done|done|]. right. by split.
  - by split_and!.
Qed.

(** ** The queue for the ledger *)

Context (is_blank : string -> bool).

(** What the durability subsystem of a tab goes through: no cycle with the ledger. *)
Record tab_durable (n : Z) h : Prop := {
  td_depth : Z.of_nat (length (queued h)) <= n;
  td_tiers : forall d, Durability.durability_tier (durability h) d <> Durability.Tier2
}.

Lemma replay_durability h pre now : durability (replay_corrupted_windows h pre now) = durability h.
Proof.
  unfold replay_corrupted_windows. destruct (_ !! pre); [|done]. by destruct (foldl _ _ _) as [s [c p]].
Qed.

Lemma receipt_durability s receipt now :
  let s' := (Durability.inbound_receipt s receipt now).1 in
  CloudQueue.ids (Durability.cloud_queue s') = CloudQueue.ids (Durability.cloud_queue s) /\
  forall d, Durability.durability_tier s' d = Durability.Tier2 -> Durability.durability_tier s d = Durability.Tier2.
Proof.
  cbn zeta. unfold Durability.inbound_receipt. destruct (Did.resolve_did _) as [pk|e]; [|done].
  set (id := Receipt.state_hash receipt). set (s1 := Durability.register_peer_key s id (Receipt.issuer_did receipt) pk).
  assert (forall d, Durability.durability_tier s1 d = Durability.durability_tier s d) as Ht1.
  { intros d. unfold Durability.durability_tier, s1, Durability.register_peer_key. cbn. destruct (decide (d = id)) as [->|].
    - rewrite lookup_alter_eq. by destruct (Durability.states s !! id).
    - by rewrite lookup_alter_ne. }
  destruct (DurabilityProofs.receive_receipt_cases s1 receipt id now) as (_ & [[Hs Hq]|Hc]).
  - rewrite Hq. split; [done|]. intros d. rewrite <- Ht1. unfold Durability.durability_tier. by rewrite Hs.
  - destruct Hc as (st & pk' & tag & Hst & _ & _ & _ & Hq & tier' & comp' & Hs & Ht). rewrite Hq. split.
    + unfold CloudQueue.add_receipt_holder. rewrite DurabilityProofs.ids_update_first; [done|].
      intros e. by case_decide.
    + intros d. rewrite <- Ht1. unfold Durability.durability_tier. rewrite Hs.
      destruct (decide (d = id)) as [->|]; [|by rewrite lookup_insert_ne].
      rewrite lookup_insert_eq, Hst. cbn. by destruct Ht as [[-> _]|(_ & -> & _)].
Qed.

Lemma register_durability s id b parents :
  let s' := (Durability.register_delta s id id b parents ∅).1 in
  CloudQueue.ids (Durability.cloud_queue s') = CloudQueue.ids (Durability.cloud_queue s) ++
    (if CloudQueue.MAX_QUEUE_DEPTH <=? Z.of_nat (length (CloudQueue.ids (Durability.cloud_queue s))) then [] else [id]) /\
  Durability.durability_tier s' id = Durability.Uncommitted /\
  forall d, d <> id -> Durability.durability_tier s' d = Durability.durability_tier s d.
Proof.
  cbn zeta. unfold Durability.register_delta, CloudQueue.enqueue, CloudQueue.depth. rewrite Z.geb_leb.
  unfold CloudQueue.ids. rewrite length_map. cbn [Durability.set_states Durability.cloud_queue].
  assert (forall q, let s' := Durability.set_queue (Durability.set_states s (<[id:=Durability.new_state id
      (Durability.quorum_config s) ∅]> (Durability.states s))) q in
    Durability.durability_tier s' id = Durability.Uncommitted /\
    forall d, d <> id -> Durability.durability_tier s' d = Durability.durability_tier s d) as Ht.
  { intros q. unfold Durability.durability_tier. cbn. split; [by rewrite lookup_insert_eq|].
    intros d Hd. by rewrite lookup_insert_ne. }
  destruct (_ <=? _); cbn [fst]; (split; [|apply Ht]); cbn; [by rewrite app_nil_r|by rewrite map_app].
Qed.

(** A step leaves the subsystem alone, or is one of the three that do not. *)
Lemma step_durability allowed h h' : TabStep allowed h h' ->
  durability h' = durability h \/
  (exists id b parents, durability h' = (Durability.register_delta (durability h) id id b parents ∅).1) \/
  (exists receipt now, durability h' = (Durability.inbound_receipt (durability h) receipt now).1) \/
  (exists id, durability h' = Durability.set_queue (durability h)
    (CloudQueue.mark_compacted (Durability.cloud_queue (durability h)) id)).
Proof.
  destruct 1; try (by left).
  - left. destruct (tag_frame h root source now) as (e & p & -> & _). done.
  - right. left. by eexists _, _, _.
  - right. right. right. by eexists.
  - right. right. left. by eexists _, _.
  - left. destruct (window_frame h table b ts) as [o ->]. done.
  - left. apply replay_durability.
Qed.

Lemma queued_step allowed h h' : TabStep allowed h h' ->
  queued h `prefix_of` queued h' /\ (tab_durable CloudQueue.MAX_QUEUE_DEPTH h -> tab_durable CloudQueue.MAX_QUEUE_DEPTH h').
Proof.
  unfold queued. intros [Hd|[(id & b & parents & Hd)|[(r & now & Hd)|[id Hd]]]]%step_durability.
  - split; [by rewrite Hd|]. intros [H1' H2']. split; unfold queued; by rewrite Hd.
  - destruct (register_durability (durability h) id b parents) as (Hq & Ht & Hts). rewrite <- Hd in Hq, Ht, Hts.
    split; [rewrite Hq; by apply prefix_app_r|]. intros [H1' H2']. split; unfold queued in *.
    + rewrite Hq. destruct (Z.leb_spec CloudQueue.MAX_QUEUE_DEPTH
        (Z.of_nat (length (CloudQueue.ids (Durability.cloud_queue (durability h)))))); rewrite length_app; cbn; lia.
    + intros d. destruct (decide (d = id)) as [->|Hne]; [by rewrite Ht|by rewrite Hts].
  - destruct (receipt_durability (durability h) r now) as [Hq Ht]. rewrite <- Hd in Hq, Ht.
    split; [by rewrite Hq|]. intros [H1' H2']. split; unfold queued in *; [by rewrite Hq|].
    intros d Hd2. by apply (H2' d), Ht.
  - assert (CloudQueue.ids (Durability.cloud_queue (durability h')) = CloudQueue.ids (Durability.cloud_queue (durability h)))
      as Hq by (rewrite Hd; cbn; unfold CloudQueue.mark_compacted; by rewrite DurabilityProofs.ids_update_first).
    split; [by rewrite Hq|]. intros [H1' H2']. split; unfold queued in *; [by rewrite Hq|].
    intros d. rewrite Hd. apply H2'.
Qed.

Lemma queued_reach allowed h h' : rtc (TabStep allowed) h h' ->
  queued h `prefix_of` queued h' /\ (tab_durable CloudQueue.MAX_QUEUE_DEPTH h -> tab_durable CloudQueue.MAX_QUEUE_DEPTH h').
Proof.
  induction 1 as [h|h h1 h2 Hs _ [Hp Hd]]; [done|]. destruct (queued_step _ _ _ Hs) as [Hp1 Hd1].
  split; [by etrans|auto].
Qed.

(** The writes of a history that answered without an error. *)
Fixpoint acknowledged h (ops : list (Op * Ambient)) : nat :=
  match ops with
  | [] => 0
  | (op, a) :: ops =>
      (match op with OpWrite table key data => if is_ok (write h table key data a).2 then 1 else 0 | _ => 0 end +
       match exec is_blank h op a with Some h' => acknowledged h' ops | None => 0 end)%nat
  end.

Lemma written_queued h table key data a :
  (length (queued h) + (if is_ok (write h table key data a).2 then 1 else 0) <= length (queued (write h table key data a).1))%nat.
Proof.
  assert (queued h `prefix_of` queued (write h table key data a).1) as Hp
    by (apply (queued_reach (fun _ => True)), reach_write; done). apply prefix_length in Hp.
  destruct (write h table key data a) as [h' [w|e]] eqn:Hw; cbn [fst snd is_ok] in *; [|lia].
  revert Hw. unfold write. destruct (ensure_local_trust_allows_io h); [|done].
  destruct (Store.wasm_write _ _ _ _ _) as [s [[]|e]]; [|done].
  destruct (Crdt.write_scalar _ _ _ _ _) as [c [b|e]]; [|done].
  destruct (compact_frame (set_crdt (set_store h s) c) table (now_micros a)) as (c2 & o & Hcf).
  destruct (compact_after_write _ _ _) as [h2 compacted]. cbn [fst] in Hcf. subst h2.
  destruct (BrowserCrdt.produce_delta_with_tags _ _ _ _ _ _ _ _) as [c3 [d|e]]; [|done].
  match goal with |- context [register_written ?x _ _ _ ?t _ _] =>
    pose proof (register_written_spec x table key d t compacted a) as Hreg end.
  intros Hw. rewrite Hw in Hreg. destruct Hreg as (_ & _ & _ & _ & Hq).
  destruct (_ <=? _); destruct Hq as [? Hq]; [done|]. rewrite Hq, length_app. cbn. unfold queued. cbn. lia.
Qed.

Lemma acknowledged_queued ops : forall h h', run is_blank h ops = Some h' ->
  (length (queued h) + acknowledged h ops <= length (queued h'))%nat.
Proof.
  induction ops as [|[op a] ops IH]; intros h h' Hrun; cbn [run acknowledged] in *; [injection Hrun as <-; lia|].
  apply bind_Some in Hrun as (h1 & He & Hrun). rewrite He. specialize (IH h1 h' Hrun).
  destruct (queued_reach _ _ _ (tab_exec_moves _ _ _ _ _ He)) as [Hp%prefix_length _].
  destruct op; try lia. cbn [exec] in He. injection He as <-. pose proof (written_queued h table key data a). lia.
Qed.

(** C35: A tab has a budget of writes.  Nothing it does empties the queue for the ledger, so from a start to
    a reload no Delta ever reaches Tier-2, every id queued stays queued, and no more than
    [MAX_QUEUE_DEPTH] writes, less what peers have filled the queue with, answer without an error;
    once the queue is full no further one does. *)
Theorem tab_write_budget (config : Core.DeploymentConfig) (identity : Identity.IdentityManager)
    (db : option (gmap string string)) (o : ObjectStores) (p : BrowserTaint.Page) (h0 h h' : CoreHandle (C := C))
    (ops more : list (Op * Ambient)) :
  init config identity db o p = Some (Ok h0) -> run is_blank h0 ops = Some h -> run is_blank h more = Some h' ->
  (forall d, Durability.durability_tier (durability h) d <> Durability.Tier2) /\
  queued h `prefix_of` queued h' /\
  (acknowledged h0 ops <= length (queued h))%nat /\ Z.of_nat (length (queued h)) <= CloudQueue.MAX_QUEUE_DEPTH /\
  Z.of_nat (acknowledged h more) <= CloudQueue.MAX_QUEUE_DEPTH - Z.of_nat (length (queued h)).
Proof.
  intros Hi Hr Hm.
  assert (queued h0 = [] /\ forall d, Durability.durability_tier (durability h0) d = Durability.Uncommitted) as [Hq Ht].
  { revert Hi. unfold init. destruct (Store.wasm_open _ _) as [st|]; [|done].
    destruct (Store.kv st); [|done]. destruct (Core.register_schemas _ _ _); [|done]. by intros [= <-]. }
  assert (tab_durable CloudQueue.MAX_QUEUE_DEPTH h0) as Hd0
    by (split; [rewrite Hq; vm_compute; discriminate|intros d; by rewrite Ht]).
  destruct (queued_reach _ _ _ (run_moves _ _ _ _ Hr)) as [_ Hd]. destruct (Hd Hd0) as [Hdep Htier].
  destruct (queued_reach _ _ _ (run_moves _ _ _ _ Hm)) as [Hp Hd']. destruct (Hd' (Hd Hd0)) as [Hdep' _].
  pose proof (acknowledged_queued _ _ _ Hr) as Hack. pose proof (acknowledged_queued _ _ _ Hm) as Hack'.
  split_and!; [done|done|lia|done|lia].
Qed.

(** A tab registers what it refuses.  A Delta the engine does not accept, of a revoked author, of an
    unknown schema or with a forged signature, leaves the rows and the document as they are, but is
    registered for durability like one of the device's own: the tier the Delta of that id had is
    forgotten, and the id takes a place in the queue for the ledger as long as there is one. *)
Theorem forged_delta_registered h (delta : Delta) (a : Ambient) :
  ~ Crdt.accepted canonical_json (crdt h) delta ->
  exists h', receive_peer_message h (Mesh.InboundDelta delta) a = Some (h', Ok tt) /\
    store h' = store h /\ Crdt.doc (crdt h') = Crdt.doc (crdt h) /\ Crdt.lamport (crdt h') = Crdt.lamport (crdt h) /\
    Durability.durability_tier (durability h') (d_id delta) = Durability.Uncommitted /\
    queued h' = queued h ++ (if CloudQueue.MAX_QUEUE_DEPTH <=? Z.of_nat (length (queued h)) then [] else [d_id delta]).
Proof.
  intros Hacc. unfold receive_peer_message. cbn [Mesh.process_wire_message receive_inbound_wasm].
  assert (set_transport h (transport h) = h) as -> by (by destruct h). unfold inbound_delta.
  assert (exists h1 outcome, apply_incoming_delta h delta a = (h1, Ok outcome) /\ durability h1 = durability h /\
    store h1 = store h /\ Crdt.doc (crdt h1) = Crdt.doc (crdt h) /\ Crdt.lamport (crdt h1) = Crdt.lamport (crdt h) /\
    forall l, outcome <> Crdt.Merged l) as (h1 & outcome & -> & Hd & Hs & Hdoc & Hlam & Hout).
  { unfold apply_incoming_delta, BrowserCrdt.apply_incoming_delta, BrowserCrdt.apply.
    destruct (Crdt.gate_spec canonical_json error_to_string (crdt h) delta) as [[? _]|[_ [(c & r & ->)|(r & ->)]]]; [done| |];
      by eexists _, _. }
  set (h2 := inbound_outcome h1 delta outcome a).
  assert (durability h2 = durability h /\ store h2 = store h /\ crdt h2 = crdt h1) as (Hd2 & Hs2 & Hc2).
  { unfold h2. destruct outcome as [l|reason|reason]; [by destruct (Hout l)| |by split_and!].
    cbn [inbound_outcome]. unfold quarantine_incoming. by destruct (Quarantine.wasm_quarantine _ _ _ _ _ _ _). }
  clearbody h2. rewrite Hd2.
  destruct (register_durability (durability h) (d_id delta) (default [] (delta_to_json delta)) (d_causal_parents delta))
    as (Hq & Ht & _).
  destruct (Durability.register_delta _ _ _ _ _ _) as [d r]. cbn [fst] in *.
  eexists. split; [reflexivity|]. cbn [set_durability store crdt durability]. rewrite Hc2. by split_and!.
Qed.

(** A Delta a peer relays to the device goes into the document, never to a row or the queue. *)
Lemma relayed_not_projected h (delta : Delta) (a : Ambient) h' r :
  receive_peer_message h (Mesh.RelayDelta (local_did h) delta) a = Some (h', r) ->
  store h' = store h /\ durability h' = durability h.
Proof.
  unfold receive_peer_message. cbn [Mesh.process_wire_message receive_inbound_wasm local_did identity set_transport].
  rewrite bool_decide_eq_true_2 by done. unfold inbound_relayed, apply_incoming_delta.
  destruct (BrowserCrdt.apply_incoming_delta _ _ _ _ _) as [[c rs] [[]|e]]; by intros [= <- _].
Qed.

(** ** Revocation *)

Lemma effects_frame now es : forall h, exists e p, foldl (run_effect now) h es = set_taint h e p.
Proof.
  induction es as [|ef es IH]; intros h; [exists (cce h), (page h); by destruct h|]. cbn [foldl].
  assert (exists e p, run_effect now h ef = set_taint h e p) as (e & p & ->).
  { destruct ef as [t d|t ids]; cbn [run_effect]; [by eexists _, _|].
    revert h. induction ids as [|id ids IHi]; intros h; [exists (cce h), (page h); by destruct h|]. cbn [foldl].
    destruct (tag_frame h id (Contamination.DeviceRevocation id) now) as (e & p & -> & _).
    destruct (IHi (set_taint h e p)) as (e' & p' & ->). by exists e', p'. }
  destruct (IH (set_taint h e p)) as (e' & p' & ->). by exists e', p'.
Qed.

(** A tag adds to the log, and a root is tagged. *)
Lemma tag_tags h root source now : BrowserTaint.dag (cce h) = Dag.empty_wasm ->
  let h' := tag_contamination_root h root source now in
  BrowserTaint.dag (cce h') = Dag.empty_wasm /\
  (forall d t, t ∈ BrowserTaint.read_tags_from_mem (page h) d -> t ∈ BrowserTaint.read_tags_from_mem (page h') d) /\
  exists id, Contaminated root id ∈ BrowserTaint.read_tags_from_mem (page h') root.
Proof.
  intros Hg. cbn zeta. unfold tag_contamination_root, BrowserTaint.tag_contamination_root.
  rewrite Hg, BrowserTaint.walk_empty. cbn [BrowserTaint.append_all foldl].
  set (t0 := Contaminated root _). set (p1 := BrowserTaint.append_tag (page h) root t0).
  assert (forall p2, BrowserTaint.WASM_TAG_STORE p2 = BrowserTaint.WASM_TAG_STORE p1 ->
    (forall d t, t ∈ BrowserTaint.read_tags_from_mem (page h) d -> t ∈ BrowserTaint.read_tags_from_mem p2 d) /\
    exists id, Contaminated root id ∈ BrowserTaint.read_tags_from_mem p2 root) as Ht.
  { intros p2 Hp2. assert (forall d, BrowserTaint.read_tags_from_mem p2 d = BrowserTaint.read_tags_from_mem p1 d) as He
      by (intros d; unfold BrowserTaint.read_tags_from_mem; by rewrite Hp2).
    split; [|eexists]; intros; rewrite He; apply BrowserTaint.tag_in_append; [by left|by right]. }
  destruct (mbind _ _) as [[id ico]|]; [destruct (Contamination.composite_merge _ _ _ _) as [[c ia] ib]|];
    (split; [done|by apply Ht]).
Qed.

Lemma tags_of_all now ids : forall h, BrowserTaint.dag (cce h) = Dag.empty_wasm ->
  let h' := foldl (fun h d => tag_contamination_root h d (Contamination.DeviceRevocation d) now) h ids in
  (forall d t, t ∈ BrowserTaint.read_tags_from_mem (page h) d -> t ∈ BrowserTaint.read_tags_from_mem (page h') d) /\
  forall d, d ∈ ids -> exists id, Contaminated d id ∈ BrowserTaint.read_tags_from_mem (page h') d.
Proof.
  induction ids as [|d0 ids IH]; intros h Hg; cbn zeta; cbn [foldl]; [split; [done|by intros d ?%not_elem_of_nil]|].
  destruct (tag_tags h d0 (Contamination.DeviceRevocation d0) now Hg) as (Hg1 & Hk & id & Hid).
  destruct (IH _ Hg1) as [Hk1 Ht1]. split; [by auto|].
  intros d [->|Hin]%elem_of_cons; [exists id; by apply Hk1|by apply Ht1].
Qed.

(** What the revocation of [target] does at once. *)
Lemma process_revocation_valid h rev_delta a :
  let target := Revocation.target_did rev_delta in
  Revocation.sub_wf Core.sha256_bytes (Revocation.sub (revocation h)) ->
  (0 < Revocation.threshold_m (Revocation.sub (revocation h)))%nat ->
  Revocation.validate_revocation_delta Core.sha256_bytes (Revocation.sub (revocation h)) rev_delta = Ok tt ->
  let h' := (process_revocation h rev_delta a).1 in
  target ∈ Crdt.revoked_dids (crdt h') /\ (target = local_did h -> trust_level h' = Revoked) /\
  (BrowserTaint.dag (cce h) = Dag.empty_wasm -> target ∉ Revocation.revoked_dids (Revocation.sub (revocation h)) ->
   forall d, d ∈ Revocation.authored_delta_ids (revocation h) target ->
   exists id, Contaminated d id ∈ BrowserTaint.read_tags_from_mem (page h') d).
Proof.
  cbn zeta. set (target := Revocation.target_did rev_delta). intros Hwf Hm Hval.
  unfold process_revocation, Revocation.process_incoming_delta_wasm. fold target.
  set (authored := Revocation.authored_delta_ids (revocation h) target).
  pose proof (Revocation.validated_is_applied_spec Core.sha256_bytes authored _ rev_delta (now_micros a) Hwf Hm Hval) as Happ.
  pose proof (Revocation.process_spec Core.sha256_bytes authored _ rev_delta (now_micros a) Hwf) as Hsp.
  destruct (Revocation.process _ authored _ _ _) as [[r es] result]. destruct Happ as [-> Hin].
  destruct Hsp as (_ & _ & _ & Hrev & _ & _ & Hes). fold target in Hes, Hin.
  destruct (effects_frame (now_micros a) es (set_revocation h (Revocation.mkWasmRev r (Revocation.authored_deltas (revocation h)))))
    as (e & p & Hef).
  split; [|split].
  - rewrite Hef. cbn [fst]. case_bool_decide; cbn; set_solver.
  - intros Ht. rewrite Hef. cbn [fst]. rewrite bool_decide_eq_true_2 by done. done.
  - intros Hg Hnew d Hd. assert (es = Revocation.OnRevocationApplied target (match es with
      | Revocation.OnRevocationApplied _ c :: _ => c | _ => rev_delta end) :: [Revocation.OnCceTrigger target authored]) as Hesq.
    { destruct Hes as [->|(c & _ & _ & _ & ->)].
      - rewrite Hrev, app_nil_r in Hin. done.
      - rewrite decide_False; [done|]. intros Ha. rewrite Ha in Hd. by apply not_elem_of_nil in Hd. }
    clear Hef. rewrite Hesq. cbn [foldl run_effect fst].
    match goal with |- context [foldl _ ?x authored] => destruct (tags_of_all (now_micros a) authored x Hg) as [_ Ht] end.
    destruct (Ht d Hd) as [id Hid]. exists id. by case_bool_decide.
Qed.

(** Along a history the revocation subsystem stays well formed, and the revoked stay revoked. *)
Record tab_revocation (m : nat) h : Prop := {
  tr_wf : Revocation.sub_wf Core.sha256_bytes (Revocation.sub (revocation h));
  tr_m : Revocation.threshold_m (Revocation.sub (revocation h)) = m
}.

Lemma tab_revocation_step allowed m h h' : TabStep allowed h h' -> tab_revocation m h -> tab_revocation m h'.
Proof.
  intros Hs [Hwf Hm]. destruct Hs; try (by split).
  - destruct (tag_frame h root source now) as (e & p & -> & _). by split.
  - destruct (window_frame h table b ts) as [o ->]. by split.
  - unfold replay_corrupted_windows. destruct (_ !! pre); [|by split]. destruct (foldl _ _ _) as [s [c p]]. by split.
  - unfold Revocation.process_incoming_delta_wasm.
    pose proof (Revocation.process_spec Core.sha256_bytes (Revocation.authored_delta_ids (revocation h)
      (Revocation.target_did rev_delta)) _ rev_delta now Hwf) as Hsp.
    destruct (Revocation.process _ _ _ _ _) as [[r es] result]. destruct Hsp as (Hwf' & Hm' & _). split; [done|]. cbn. congruence.
Qed.

Lemma engine_revoked (c : CrdtEngine) op : Crdt.revoked_dids c ⊆
  Crdt.revoked_dids (BrowserCrdt.exec canonical_json sha256 json_to_string error_to_string c op).
Proof.
  destruct op; cbn [BrowserCrdt.exec]; try done.
  - by rewrite Crdt.write_scalar_frame.
  - unfold BrowserCrdt.apply. destruct (Crdt.gate _ _ c delta) as [code reason|reason|pk adopt]; [done..|].
    set (c1 := if adopt then _ else c). assert (Crdt.revoked_dids c1 = Crdt.revoked_dids c) as Hc1 by (unfold c1; by destruct adopt).
    clearbody c1. destruct (Crdt.merge_document c1 delta) as [c2 [[]|err]] eqn:Hm;
      rewrite (Crdt.merge_document_frame _ _ _ _ Hm), <- Hc1; done.
  - unfold Crdt.register_schema_definition. by case_decide.
  - cbn. set_solver.
  - unfold BrowserCrdt.maybe_compact. destruct (am_get_changes _) as [d cs].
    destruct (BrowserCrdt.should_compact_idb _ _); [|done]. unfold BrowserCrdt.compact_table_idb. by destruct (am_save d).
Qed.

Lemma revoked_step allowed h h' : TabStep allowed h h' ->
  Crdt.revoked_dids (crdt h) ⊆ Crdt.revoked_dids (crdt h') /\
  ((forall token now micros, ~ allowed (Capability.OpPresent token now micros)) ->
   trust_level h = Revoked -> trust_level h' = Revoked).
Proof.
  intros Hs. destruct Hs; try done.
  - split; [apply engine_revoked|done].
  - destruct (tag_frame h root source now) as (e & p & -> & _). done.
  - split; [done|]. intros Hno Ht. unfold trust_level in *.
    change (Capability.apply_op (capability h) op) with (Capability.run (capability h) [op]).
    apply Capability.revoked_sticky; [done|]. intros token now micros Hin%list_elem_of_singleton. subst op. by eapply Hno.
  - destruct (window_frame h table b ts) as [o ->]. done.
  - destruct (replay_frame (fun s => Crdt.revoked_dids (crdt h) ⊆ Crdt.revoked_dids s.1) h pre now)
      as (m & o & c & p & -> & Hk); [|done|done|by split].
    intros c p op Hc. etrans; [exact Hc|apply engine_revoked].
Qed.

Lemma revoked_reach allowed h h' : rtc (TabStep allowed) h h' ->
  Crdt.revoked_dids (crdt h) ⊆ Crdt.revoked_dids (crdt h') /\
  ((forall token now micros, ~ allowed (Capability.OpPresent token now micros)) ->
   trust_level h = Revoked -> trust_level h' = Revoked).
Proof.
  induction 1 as [h|h h1 h2 Hs _ [Hr1 Ht1]]; [done|]. destruct (revoked_step _ _ _ Hs) as [Hr Ht].
  split; [by etrans|]. by auto.
Qed.

Lemma opened_facts config identity ops h : opened is_blank config identity ops h ->
  tab_ok (Identity.did identity) h /\ tab_revocation (Nat.max (Core.revocation_m config) 1) h.
Proof.
  intros (db & o & p & h0 & Hi & Hp & Hr). apply run_moves in Hr. split; [eapply tab_ok_reach; [done|by eapply init_ok]|].
  assert (tab_revocation (Nat.max (Core.revocation_m config) 1) h0) as Hr0.
  { revert Hi. unfold init. destruct (Store.wasm_open _ _) as [st|]; [|done].
    destruct (Store.kv st); [|done]. destruct (Core.register_schemas _ _ _); [|done]. intros [= <-].
    split; [apply Revocation.new_sub_wf|done]. }
  clear Hi. induction Hr; eauto using tab_revocation_step.
Qed.

Context (number_eqb : Number -> Number -> bool).

(** C11: what an effective revocation does to a tab.  When a message with the threshold of valid signatures
    comes in, every Delta the tab knows the target wrote is tagged at once as the root of an
    incident, unless the target had been revoked before.  From then on no Delta of the target is
    merged; and when the target is the device itself, as long as the page presents no token, [write],
    [read] and [query] answer with an authorisation failure, and [write] changes nothing. *)
Theorem revocation_reaches_tab (config : Core.DeploymentConfig) (identity : Identity.IdentityManager)
    (before after : list (Op * Ambient)) (h h1 h2 : CoreHandle (C := C)) (rev_delta : Revocation.RevocationDelta) (a : Ambient)
    (r : Res unit) :
  let target := Revocation.target_did rev_delta in
  opened is_blank config identity before h ->
  Revocation.validate_revocation_delta Core.sha256_bytes (Revocation.sub (revocation h)) rev_delta = Ok tt ->
  receive_peer_message h (Mesh.InboundRevocationDelta rev_delta) a = Some (h1, r) ->
  run is_blank h1 after = Some h2 ->
  (target ∉ Revocation.revoked_dids (Revocation.sub (revocation h)) ->
   forall d, d ∈ Revocation.authored_delta_ids (revocation h) target ->
   exists id, Contaminated d id ∈ BrowserTaint.read_tags_from_mem (page h1) d) /\
  (forall delta a' l, d_author_did delta = target -> (apply_incoming_delta h2 delta a').2 <> Ok (Crdt.Merged l)) /\
  (target = Identity.did identity -> (forall token_hex a', (OpPresentToken token_hex, a') ∉ after) ->
   let refused {A} : Res A := Err (AuthorisationFailed "device is REVOKED") in
   forall table key data filter a',
     write h2 table key data a' = (h2, refused) /\ read h2 table key = refused /\ query number_eqb h2 table filter = refused).
Proof.
  cbn zeta. set (target := Revocation.target_did rev_delta). intros Hop Hval Hmsg Hrun.
  destruct (opened_facts _ _ _ _ Hop) as [Hok [Hwf Hm]].
  unfold receive_peer_message in Hmsg. cbn [Mesh.process_wire_message receive_inbound_wasm] in Hmsg.
  assert (set_transport h (transport h) = h) as Hst by (by destruct h). rewrite Hst in Hmsg. injection Hmsg as Hh1 _.
  destruct (process_revocation_valid h rev_delta a Hwf ltac:(lia) Hval) as (Hin & Hself & Hroots). rewrite Hh1 in *.
  destruct (revoked_reach _ _ _ (run_moves _ _ _ _ Hrun)) as [Hmono Htrust]. split_and!.
  - intros Hnew. apply Hroots; [apply (BrowserTaint.ro_dag _ (ok_taint _ _ Hok))|done].
  - intros delta a' l Hau. assert (~ Crdt.accepted canonical_json (crdt h2) delta) as Hacc
      by (intros (Hno & _); apply Hno; rewrite Hau; by apply Hmono).
    unfold apply_incoming_delta, BrowserCrdt.apply_incoming_delta, BrowserCrdt.apply.
    by destruct (Crdt.gate_spec canonical_json error_to_string (crdt h2) delta) as [[? _]|[_ [(c & r' & ->)|(r' & ->)]]].
  - intros Ht Hno table key data filter a'.
    assert (trust_level h2 = Revoked) as Htr.
    { apply Htrust; [|apply Hself; rewrite (ok_did _ _ Hok); done].
      intros token now micros (op & a1 & Hin' & token_hex & -> & _). by apply (Hno token_hex a1). }
    assert (ensure_local_trust_allows_io h2 = Err (AuthorisationFailed "device is REVOKED")) as He.
    { unfold ensure_local_trust_allows_io. unfold trust_level in Htr. by rewrite bool_decide_eq_true_2. }
    unfold write, read, query. rewrite He. done.
Qed.

End TabLife.
End TabLife.

(** * On the sample deployment *)

Section Witness.
Import SampleTab Browser Tab TabLife.

(** One write of the tab, two Deltas of a peer: three places of the queue. *)
Lemma tab_write_budget_witness :
  length (queued written_tab) = 3%nat /\
  (acknowledged never tab writes <= length (queued written_tab))%nat /\
  Z.of_nat (acknowledged never written_tab writes) <= CloudQueue.MAX_QUEUE_DEPTH - 3.
Proof.
  assert (run never written_tab writes = Some (from_some (run never written_tab writes) eq_refl)) as Hm by apply from_some_eq.
  destruct (tab_write_budget never Sample.config (Sample.identity 1) (Some one_row) no_objects BrowserTaint.empty_page tab
    written_tab _ writes writes (from_started_eq (tab_started 1) eq_refl) written_tab_eq Hm) as (_ & _ & Ha & _ & Hb).
  split; [vm_compute; reflexivity|]. split; [exact Ha|]. exact Hb.
Defined.

(** The forged Delta takes the tier from the one it copies. *)
Lemma forged_delta_registered_witness :
  exists h', receive_peer_message tab (Mesh.InboundDelta forged) (clock 3) = Some (h', Ok tt) /\ queued h' = [d_id received].
Proof.
  destruct (forged_delta_registered tab forged (clock 3)) as (h' & Hm & _ & _ & _ & _ & Hq).
  - intros (_ & _ & Hv). vm_compute in Hv. discriminate Hv.
  - exists h'. split; [exact Hm|]. rewrite Hq. vm_compute. reflexivity.
Defined.

(** A revocation of a DID, signed by the manager with key 2. *)
Definition revoked_by_two (target : Did) : Revocation.RevocationDelta :=
  Revocation.mkRevDelta target (flat_map (fun ev => Revocation.signatures (Revocation.i_delta ev))
    (Revocation.partial Core.sha256_bytes target 9 <$> [[2]]%N)) 9.

Definition revoke (did : Did) : option (CoreHandle (C := nat * list bytes) * Res unit) :=
  receive_peer_message written_tab (Mesh.InboundRevocationDelta (revoked_by_two did)) (clock 5).
Definition revoked : CoreHandle (C := nat * list bytes) * Res unit :=
  from_some (revoke (Identity.did (Sample.identity 1))) eq_refl.
Definition revoked_tab : CoreHandle (C := nat * list bytes) := revoked.1.

(** The tab itself is revoked: what it wrote is tagged, and its page is shut out. *)
Lemma revocation_reaches_tab_witness :
  is_ok (read written_tab "people" "name") = true /\
  read revoked_tab "people" "name" = Err (AuthorisationFailed "device is REVOKED") /\
  exists d id, d ∈ queued written_tab /\ Contaminated d id ∈ BrowserTaint.read_tags_from_mem (page revoked_tab) d.
Proof.
  split; [vm_compute; reflexivity|].
  assert (revoke (Identity.did (Sample.identity 1)) = Some (revoked_tab, revoked.2)) as Hr.
  { unfold revoked_tab. rewrite <- surjective_pairing. apply from_some_eq. }
  destruct (revocation_reaches_tab never (fun _ _ => false) Sample.config (Sample.identity 1) writes [] written_tab revoked_tab revoked_tab
    (revoked_by_two (Identity.did (Sample.identity 1))) (clock 5) revoked.2) as (Hroots & _ & Hout).
  - exists (Some one_row), no_objects, BrowserTaint.empty_page, tab.
    split; [exact (from_started_eq (tab_started 1) eq_refl)|]. split; [reflexivity|]. exact written_tab_eq.
  - vm_compute. reflexivity.
  - exact Hr.
  - reflexivity.
  - split.
    + destruct (Hout eq_refl) with "people" "name" JNull (@None Json) (clock 6) as (_ & Hrd & _); [|exact Hrd].
      intros token_hex a' Hin. by apply elem_of_nil in Hin.
    + assert (exists x, x ∈ Revocation.authored_delta_ids (revocation written_tab)
          (Revocation.target_did (revoked_by_two (Identity.did (Sample.identity 1)))) /\ x ∈ queued written_tab) as (x & Hx & Hq).
      { exists (default 0%N (head (queued written_tab))). split; apply (bool_decide_unpack _); vm_compute; exact I. }
      destruct (fun Hnew => Hroots Hnew x Hx) as [id Hid]; [apply (bool_decide_unpack _); vm_compute; exact I|].
      exists x, id. split; [exact Hq|exact Hid].
Defined.
End Witness.
