(* ===== verification/Exports.v ===== *)
(** * The functions a page calls: the [wasm_bindgen] exports of [lib.rs]

    One slot holds the handle; before [core_init] every export that needs it answers an error.  A
    value of the page is what [JSON.stringify] makes of it; a value handed back is the JSON it is
    parsed from.  An error is its text; the texts that quote their input are shortened. *)

From Stdlib Require Import Floats.SpecFloat.
From S2P Require Import Prelude Types Scheduler Fragment Dag Identity Auth Revocation Saturate Contamination Schema SchemaText.
From S2P Require Import Automerge Verify Crdt BrowserCrdt BrowserTaint Ledgers Migration CloudQueue Durability.
From S2P Require Import CloudLedger Transport Store Sandbox Core Sample Browser Tab.

Module Exports.
Import Trust.

(** [JSON.stringify]: it throws, answers no string, or answers a text. *)
Inductive JsValue := Throws | NoString | JsText (s : string).

Abbreviation JsRes A := (result string A).

Definition not_initialised : string := "core_init() must be called first".

Section Exports.
Context `{!Automerge} `{!Bs58} `{!Ed25519} `{!BiscuitLib} `{!SerdeJson} `{!Codecs} `{!WasmRuntime} `{!IdbCursor}.
Context `{!LruCache (string * string) Session.ResumptionCredential} `{!Noise} `{!SelectOrder}.
Context `{!HashIter N Z} `{!HashIter string nat} `{!HashIter N (list (option Fragment.DeltaFragment))}.
Context `{!HashIter string Discovery.PeerState} `{!HashIter N Contamination.IncidentContextObject}.
Context `{!HashIter (string * string) N}.
Context {C : Type} `{!Outbound C}.
Context (number_eqb : Number -> Number -> bool) (is_blank : string -> bool).
(** [Uuid::parse_str]; [serde_json] of a schema; [Vec::join]. *)
Context (uuid_parse : string -> option IncidentId) (schema_to_json : Schema.Schema -> Json).
Context (join : string -> list string -> string).

Abbreviation Handle := (Browser.CoreHandle (C := C)).

(** The slot [CORE], and the thread-locals while it is empty. *)
Record Tab := mkTab { CORE : option Handle; idle : BrowserTaint.Page }.
Definition tab_page (t : Tab) : BrowserTaint.Page :=
  match CORE t with Some h => Browser.page h | None => idle t end.

(** ** Conversions *)

Definition to_js_err {A} (r : Res A) : JsRes A := map_err error_to_string r.

Definition js_to_json (v : JsValue) : JsRes Json :=
  match v with
  | Throws => Err "JSON.stringify failed"
  | NoString => Err "JSON.stringify returned non-string"
  | JsText s => ok_or (json_of_string s) "invalid JSON"
  end.

Definition json_to_js (v : Json) : JsRes Json :=
  match json_to_string v with Some _ => Ok v | None => Err "serialisation failed" end.

Definition decode_32byte_hex (label hex_str : string) : JsRes bytes :=
  match hex_decode hex_str with
  | None => Err (label +:+ ": invalid hex")
  | Some b => if decide (length b = 32%nat) then Ok b else Err (label +:+ ": must be 32 bytes (64 hex chars)")
  end.
Definition decode_root_ca_key_hex (key_hex : string) : JsRes bytes := decode_32byte_hex "root_ca_keys" key_hex.

Definition decode_biscuit_token_hex (biscuit_token_hex : string) : JsRes bytes :=
  match hex_decode biscuit_token_hex with
  | None => Err (error_to_string (SignatureVerificationFailed "biscuit_token_hex: invalid hex encoding"))
  | Some [] => Err (error_to_string (SignatureVerificationFailed "biscuit token is absent or empty"))
  | Some token_bytes => Ok token_bytes
  end.

(** The first failure of a loop of [?]. *)
Fixpoint decode_all {A} (f : string -> JsRes A) (l : list string) : JsRes (list A) :=
  match l with
  | [] => Ok []
  | s :: l => x ← f s; xs ← decode_all f l; Ok (x :: xs)
  end.

Definition with_core {A} (t : Tab) (f : Handle -> Handle * Res A) : Tab * JsRes A :=
  match CORE t with
  | None => (t, Err not_initialised)
  | Some h => let '(h, r) := f h in (mkTab (Some h) (idle t), to_js_err r)
  end.

(** A conversion that fails ends the call. *)
Definition with_arg {A B} (t : Tab) (x : JsRes A) (f : A -> Tab * JsRes B) : Tab * JsRes B :=
  match x with Err e => (t, Err e) | Ok a => f a end.

(** ** Initialisation *)

(** The deployment the exports hard-code, from the decoded arguments. *)
Definition deployment (root_ca_keys : list bytes) (migration_ca : option bytes)
    (path : list SchemaIdentifierHash) : Core.DeploymentConfig :=
  Core.mkDeployment 1 1 3600 root_ca_keys migration_ca path [] false [] 1 (f64_parse "0.7") 1 1 3600 0.

Definition decode_config (root_ca_keys_hex : list string) (migration_ca_key_hex : option string)
    (schema_version_path_hex : list string) : JsRes Core.DeploymentConfig :=
  root_ca_keys ← decode_all decode_root_ca_key_hex root_ca_keys_hex;
  migration_ca ← match migration_ca_key_hex with
                 | Some key_hex => Some <$> decode_32byte_hex "migration_ca_key" key_hex
                 | None => Ok None
                 end;
  path ← decode_all (decode_32byte_hex "schema_version_path") schema_version_path_hex;
  Ok (deployment root_ca_keys migration_ca (map Ble.of_be_bytes path)).

(** [db] and [objects] are what the path holds, [identity] the fresh one of [init_in_memory]. *)
Definition core_init (t : Tab) (db : option (gmap string string)) (objects : Browser.ObjectStores)
    (identity : Identity.IdentityManager) (root_ca_keys_hex : list string) (migration_ca_key_hex : option string)
    (schema_version_path_hex : list string) : option (Tab * JsRes unit) :=
  match decode_config root_ca_keys_hex migration_ca_key_hex schema_version_path_hex with
  | Err e => Some (t, Err e)
  | Ok config =>
      match Browser.init config identity db objects (tab_page t) with
      | None => None
      | Some (Err e) => Some (t, Err (error_to_string e))
      | Some (Ok h) => Some (mkTab (Some h) (idle t), Ok tt)
      end
  end.

Definition core_register_root_ca_key (t : Tab) (root_ca_key_hex : string) : Tab * JsRes unit :=
  with_arg t (decode_root_ca_key_hex root_ca_key_hex) (fun key =>
  with_core t (fun h => let '(h, r) := Browser.register_root_ca_key h key None in (h, _ ← r; Ok tt))).

Definition core_register_root_ca_key_with_token (t : Tab) (root_ca_key_hex biscuit_token_hex : string) (now_secs : Z)
  : Tab * JsRes unit :=
  with_arg t (decode_root_ca_key_hex root_ca_key_hex) (fun key =>
  with_arg t (decode_biscuit_token_hex biscuit_token_hex) (fun token_bytes =>
  with_core t (fun h =>
    let '(h, r) := Browser.register_root_ca_key h key (Some (token_bytes, now_secs)) in (h, _ ← r; Ok tt)))).

Definition core_register_migration_ca_key (t : Tab) (migration_ca_key_hex : string) : Tab * JsRes unit :=
  with_arg t (decode_32byte_hex "migration_ca_key" migration_ca_key_hex) (fun key =>
  with_core t (fun h => (Browser.register_migration_ca_key h key, Ok tt))).

(** ** Rows *)

Definition tier_debug (tier : Durability.DurabilityTier) : string :=
  match tier with Durability.Uncommitted => "Uncommitted" | Durability.Tier1 => "Tier1" | Durability.Tier2 => "Tier2" end.

Definition to_js (r : JsRes Json) : JsRes Json := v ← r; json_to_js v.

(** The object the page is handed. *)
Definition write_receipt (w : Core.WriteResult) : Json :=
  JObject [("deltaId", JString (hex_encode (be_bytes 32 (Core.wr_delta_id w))));
    ("durabilityTier", JString (tier_debug (Core.wr_durability_tier w)))].

Definition core_write (t : Tab) (table key : string) (data : JsValue) (a : Ambient) : Tab * JsRes Json :=
  with_arg t (js_to_json data) (fun data_json =>
  let '(t, r) := with_core t (fun h => Browser.write h table key data_json a) in
  (t, to_js (write_receipt <$> r))).

(** The warning of an unverified device is not handed on. *)
Definition row_json (r : Core.QueryResult) : Json :=
  JObject [("contaminated", JBool (Core.qr_contaminated r)); ("data", Core.qr_data r);
    ("key", JString (Core.qr_key r)); ("table", JString (Core.qr_table r))].

Definition core_read (t : Tab) (table key : string) : JsRes Json :=
  match CORE t with
  | None => Err not_initialised
  | Some h => to_js (row_json <$> to_js_err (Browser.read h table key))
  end.

(** [None]: the filter is null or undefined. *)
Definition core_query (t : Tab) (table : string) (filter : option JsValue) : JsRes Json :=
  filter_json ← match filter with None => Ok None | Some v => Some <$> js_to_json v end;
  match CORE t with
  | None => Err not_initialised
  | Some h => to_js ((fun rows => JArray (map row_json rows)) <$> to_js_err (Browser.query number_eqb h table filter_json))
  end.

(** ** Trust and mesh *)

Definition trust_debug (l : TrustLevel) : string :=
  match l with Verified => "Verified" | Unverified => "Unverified" | Revoked => "Revoked" end.
Definition trust_upper (l : TrustLevel) : string :=
  match l with Verified => "VERIFIED" | Unverified => "UNVERIFIED" | Revoked => "REVOKED" end.

Definition core_trust_level (t : Tab) : string :=
  match CORE t with Some h => trust_debug (Browser.trust_level h) | None => "Unverified" end.

Definition core_present_token (t : Tab) (token_hex : string) (a : Ambient) : Tab * JsRes string :=
  let '(t, r) := with_core t (fun h => Browser.present_biscuit_token h token_hex a) in (t, trust_upper <$> r).

Definition core_mesh_status (t : Tab) : Json :=
  let '(connected, peer_count) := match CORE t with Some h => Browser.mesh_status h | None => (false, 0%nat) end in
  let js := JObject [("peerCount", JNumber (number_from_int (wrap_u32 (Z.of_nat peer_count))));
    ("status", JString (if connected : bool then "connected" else "disconnected"))] in
  match json_to_js js with Ok v => v | Err _ => JNull end.

(** ** Managers *)

Definition core_initiate_revocation (t : Tab) (target_did manager_token : string) (a : Ambient) : Tab * JsRes unit :=
  if is_blank manager_token then (t, Err "manager_token must not be blank")
  else if is_blank target_did then (t, Err "target_did must not be blank")
  else with_core t (fun h => Browser.initiate_revocation is_blank h target_did manager_token a).

Definition core_revocation_status (t : Tab) (target_did : string) : JsRes Json :=
  match CORE t with
  | None => Err not_initialised
  | Some h =>
      let rev := Revocation.sub (Browser.revocation h) in
      let m := Revocation.threshold_m rev in
      let '(collected, status_str) := match Revocation.status (Revocation.store rev) target_did with
                                      | Some Revocation.Applied => (m, "APPLIED")
                                      | Some (Revocation.Pending collected _) => (collected, "PENDING")
                                      | None => (0%nat, "PENDING")
                                      end in
      let device_status := Browser.device_revocation_status h target_did in
      let num (z : Z) := JNumber (number_from_int z) in
      json_to_js (JObject
        [("lastKnownTrustLevel", match device_status with
            | Some ds => JString (trust_upper (Revocation.last_known_trust_level ds)) | None => JNull end);
         ("lastRevocationDeltaReceivedAt", match device_status ≫= Revocation.last_revocation_delta_received_at with
            | Some at_ => num at_ | None => JNull end);
         ("signaturesCollected", num (Z.of_nat collected));
         ("signaturesRequired", num (Z.of_nat m));
         ("status", JString status_str)])
  end.

Definition core_verify_data (t : Tab) (root_delta_id_hex manager_token_hex : string) (now_secs : Z) (a : Ambient)
  : Tab * JsRes unit :=
  with_arg t (decode_32byte_hex "root_delta_id" root_delta_id_hex) (fun root_delta_id =>
  with_arg t (ok_or (hex_decode manager_token_hex) "manager_token: invalid hex") (fun token_bytes =>
  with_core t (fun h => Browser.verify_contamination h (Ble.of_be_bytes root_delta_id) token_bytes now_secs a))).

Definition core_admin_close_ico (t : Tab) (ico_id_hex manager_token_hex : string) (now_secs : Z) (a : Ambient)
  : Tab * JsRes unit :=
  with_arg t (ok_or (uuid_parse ico_id_hex) "ico_id: invalid UUID") (fun ico_id =>
  with_arg t (ok_or (hex_decode manager_token_hex) "manager_token: invalid hex") (fun token_bytes =>
  with_core t (fun h => Browser.admin_close_ico h ico_id token_bytes now_secs a))).

Definition core_activate_saturate_mode (t : Tab) (biscuit_token_hex : string) (a : Ambient) : Tab * JsRes unit :=
  with_arg t (decode_biscuit_token_hex biscuit_token_hex) (fun token_bytes =>
  with_core t (fun h => Browser.activate_saturate_mode h token_bytes a)).

Definition core_renew_saturate_mode (t : Tab) (biscuit_token_hex : string) (a : Ambient) : Tab * JsRes unit :=
  with_arg t (decode_biscuit_token_hex biscuit_token_hex) (fun token_bytes =>
  with_core t (fun h => Browser.renew_saturate_mode h token_bytes a)).

Definition decode_termination_message (termination_message_hex : string) : JsRes bytes :=
  match hex_decode termination_message_hex with
  | None => Err (error_to_string (AuthorisationFailed "termination_message_hex: invalid hex encoding"))
  | Some [] => Err (error_to_string (AuthorisationFailed "termination message must not be empty"))
  | Some message => Ok message
  end.

Definition field_str (entry : Json) (name : string) : option string :=
  match entry with JObject o => Core.as_str (Store.object_get o name) | _ => None end.

Definition co_signature (entry : Json) : JsRes (Did * bytes) :=
  did ← ok_or (field_str entry "did") "each co-signature must carry a string did field";
  signature_hex ← ok_or (field_str entry "signatureHex") "each co-signature must carry a string signatureHex field";
  sig_bytes ← ok_or (hex_decode signature_hex) "co-signature signatureHex: invalid hex encoding";
  if decide (length sig_bytes = 64%nat) then Ok (did, sig_bytes)
  else Err "co-signature signatureHex must decode to 64 bytes (128 hex chars)".

Fixpoint co_signatures (entries : list Json) : JsRes (list (Did * bytes)) :=
  match entries with
  | [] => Ok []
  | entry :: entries => s ← co_signature entry; l ← co_signatures entries; Ok (s :: l)
  end.

Definition parse_co_signatures (v : JsValue) : JsRes (list (Did * bytes)) :=
  match js_to_json v with
  | Err _ => Err "co_manager_signatures: invalid value"
  | Ok (JArray entries) => co_signatures entries
  | Ok _ => Err "co_manager_signatures must be an array of objects"
  end.

Definition core_terminate_saturate_mode (t : Tab) (termination_message_hex : string) (co_manager_signatures : JsValue)
    (a : Ambient) : Tab * JsRes unit :=
  with_arg t (decode_termination_message termination_message_hex) (fun message =>
  with_arg t (parse_co_signatures co_manager_signatures) (fun co_sigs =>
  with_core t (fun h => Browser.terminate_saturate_mode h message co_sigs a))).

(** ** Messages and events *)

Definition core_receive_peer_message (t : Tab) (raw_bytes : bytes) (a : Ambient) : option (Tab * JsRes unit) :=
  match gossip_from_bytes raw_bytes with
  | None => Some (t, Err "core_receive_peer_message: unrecognised payload")
  | Some msg =>
      match CORE t with
      | None => Some (t, Err not_initialised)
      | Some h =>
          '(h, r) ← Browser.receive_peer_message h msg a;
          Some (mkTab (Some h) (idle t), to_js_err r)
      end
  end.

(** The events since the last call. *)
Definition core_poll_events (t : Tab) : Tab * list BrowserTaint.WasmEvent :=
  match CORE t with
  | Some h => let '(p, events) := BrowserTaint.core_poll_events (Browser.page h) in
              (mkTab (Some (Browser.set_page h p)) (idle t), events)
  | None => let '(p, events) := BrowserTaint.core_poll_events (idle t) in (mkTab None p, events)
  end.

(** ** Schemas *)

Definition parse_schema (schema_src : string) : JsRes Schema.Schema :=
  match SchemaText.parse f64_parse pest_error schema_src with
  | Ok schema => Ok schema
  | Err errors => Err (join "; " (map error_to_string errors))
  end.

Definition core_schema_identifier_hash (schema_src : string) : JsRes string :=
  schema ← parse_schema schema_src; Ok (hex_encode (be_bytes 32 (Schema.identifier_hash sha256 schema))).

Definition core_schema_print (schema_src : string) : JsRes string :=
  schema ← parse_schema schema_src; Ok (SchemaText.print f64_display schema).

Definition core_schema_parse (schema_src : string) : JsRes Json :=
  schema ← parse_schema schema_src; json_to_js (schema_to_json schema).

(** The two spellings of a trust level never agree: [core_trust_level] answers with none of the strings
    that [core_present_token] and the events of the SDK use. *)
Lemma trust_spellings_differ l l' : trust_debug l <> trust_upper l'.
Proof. by destruct l, l'. Qed.

(** ** A page over time *)

(** The calls that may change the handle or the thread-locals, with what the page passes.  An
    [CallInit] also has what the path holds and the identity that is drawn. *)
Inductive Call :=
| CallInit (db : option (gmap string string)) (objects : Browser.ObjectStores) (identity : Identity.IdentityManager)
    (root_ca_keys_hex : list string) (migration_ca_key_hex : option string) (schema_version_path_hex : list string)
| CallRegisterRootCa (root_ca_key_hex : string)
| CallRegisterRootCaWithToken (root_ca_key_hex biscuit_token_hex : string) (now_secs : Z)
| CallRegisterMigrationCa (migration_ca_key_hex : string)
| CallWrite (table key : string) (data : JsValue)
| CallPresentToken (token_hex : string)
| CallInitiateRevocation (target_did manager_token : string)
| CallVerifyData (root_delta_id_hex manager_token_hex : string) (now_secs : Z)
| CallAdminCloseIco (ico_id_hex manager_token_hex : string) (now_secs : Z)
| CallActivateSaturate (biscuit_token_hex : string)
| CallRenewSaturate (biscuit_token_hex : string)
| CallTerminateSaturate (termination_message_hex : string) (co_manager_signatures : JsValue)
| CallReceivePeerMessage (raw_bytes : bytes)
| CallPollEvents.

(** What the page is told: of a failure, a value (null where there is none), or the events. *)
Inductive Answer := Failed | Returns (v : Json) | Events (l : list BrowserTaint.WasmEvent).
Definition answer_of {E A} (ans : A -> Answer) (r : result E A) : Answer := match r with Ok x => ans x | Err _ => Failed end.
Definition nothing {A} (_ : A) : Answer := Returns JNull.
Definition told {A} (ans : A -> Answer) (r : Tab * JsRes A) : option (Tab * Answer) := Some (r.1, answer_of ans r.2).

Definition perform (t : Tab) (call : Call) (a : Ambient) : option (Tab * Answer) :=
  match call with
  | CallInit db objects identity keys migration_ca path => core_init t db objects identity keys migration_ca path ≫= told nothing
  | CallRegisterRootCa key => told nothing (core_register_root_ca_key t key)
  | CallRegisterRootCaWithToken key token now => told nothing (core_register_root_ca_key_with_token t key token now)
  | CallRegisterMigrationCa key => told nothing (core_register_migration_ca_key t key)
  | CallWrite table key data => told Returns (core_write t table key data a)
  | CallPresentToken token => told (Returns ∘ JString) (core_present_token t token a)
  | CallInitiateRevocation target manager_token => told nothing (core_initiate_revocation t target manager_token a)
  | CallVerifyData root token now => told nothing (core_verify_data t root token now a)
  | CallAdminCloseIco ico token now => told nothing (core_admin_close_ico t ico token now a)
  | CallActivateSaturate token => told nothing (core_activate_saturate_mode t token a)
  | CallRenewSaturate token => told nothing (core_renew_saturate_mode t token a)
  | CallTerminateSaturate message sigs => told nothing (core_terminate_saturate_mode t message sigs a)
  | CallReceivePeerMessage raw => core_receive_peer_message t raw a ≫= told nothing
  | CallPollEvents => Some ((core_poll_events t).1, Events (core_poll_events t).2)
  end.

Fixpoint page_run (t : Tab) (calls : list (Call * Ambient)) : option (Tab * list Answer) :=
  match calls with
  | [] => Some (t, [])
  | (call, a) :: calls => '(t, ok) ← perform t call a; '(t, oks) ← page_run t calls; Some (t, ok :: oks)
  end.

(** *** What the calls mean *)

(** A call is refused for its arguments, asks for an operation of the handle, or for a new handle. *)
Inductive Meaning :=
| Refused
| Does (op : Browser.Op)
| Opens (config : Core.DeploymentConfig) (identity : Identity.IdentityManager) (db : option (gmap string string))
    (objects : Browser.ObjectStores).

Definition does (op : option Browser.Op) : Meaning := match op with Some op => Does op | None => Refused end.

(** 32 bytes in hexadecimal; a token or a message, which is not empty; a value with a JSON text. *)
Definition hex32 (s : string) : option bytes := b ← hex_decode s; guard (length b = 32%nat);; Some b.
Definition hex_some (s : string) : option bytes := b ← hex_decode s; guard (b <> []);; Some b.
Definition js_value (v : JsValue) : option Json := match v with JsText s => json_of_string s | _ => None end.

(** A manager who signs too: a DID, and 64 bytes in hexadecimal. *)
Definition co_signer (entry : Json) : option (Did * bytes) :=
  did ← field_str entry "did"; b ← field_str entry "signatureHex" ≫= hex_decode; guard (length b = 64%nat);; Some (did, b).
Definition co_signers (v : JsValue) : option (list (Did * bytes)) :=
  match js_value v with Some (JArray entries) => mapM co_signer entries | _ => None end.

Definition meaning (call : Call) : Meaning :=
  match call with
  | CallInit db objects identity keys migration_ca path =>
      match mapM hex32 keys, from_option (fmap Some ∘ hex32) (Some None) migration_ca, mapM hex32 path with
      | Some keys, Some ca, Some path => Opens (deployment keys ca (map Ble.of_be_bytes path)) identity db objects
      | _, _, _ => Refused
      end
  | CallRegisterRootCa key => does (k ← hex32 key; Some (Browser.OpRegisterRootCa k None))
  | CallRegisterRootCaWithToken key token now =>
      does (k ← hex32 key; b ← hex_some token; Some (Browser.OpRegisterRootCa k (Some (b, now))))
  | CallRegisterMigrationCa key => does (k ← hex32 key; Some (Browser.OpRegisterMigrationCa k))
  | CallWrite table key data => does (v ← js_value data; Some (Browser.OpWrite table key v))
  | CallPresentToken token => Does (Browser.OpPresentToken token)
  | CallInitiateRevocation target manager_token =>
      if is_blank target || is_blank manager_token then Refused else Does (Browser.OpInitiateRevocation target manager_token)
  | CallVerifyData root token now =>
      does (r ← hex32 root; b ← hex_decode token; Some (Browser.OpVerifyContamination (Ble.of_be_bytes r) b now))
  | CallAdminCloseIco ico token now => does (id ← uuid_parse ico; b ← hex_decode token; Some (Browser.OpCloseIco id b now))
  | CallActivateSaturate token => does (b ← hex_some token; Some (Browser.OpActivateSaturate b))
  | CallRenewSaturate token => does (b ← hex_some token; Some (Browser.OpRenewSaturate b))
  | CallTerminateSaturate message sigs =>
      does (b ← hex_some message; l ← co_signers sigs; Some (Browser.OpTerminateSaturate b l))
  | CallReceivePeerMessage raw => does (Browser.OpMessage <$> gossip_from_bytes raw)
  | CallPollEvents => Does Browser.OpPoll
  end.

(** What an operation answers; the answer to a write has to print. *)
Definition answer (h : Handle) (op : Browser.Op) (a : Ambient) : Answer :=
  match op with
  | Browser.OpWrite table key data =>
      answer_of (fun w => match json_to_string (write_receipt w) with Some _ => Returns (write_receipt w) | None => Failed end)
        (Browser.write h table key data a).2
  | Browser.OpPresentToken token_hex =>
      answer_of (fun l => Returns (JString (trust_upper l))) (Browser.present_biscuit_token h token_hex a).2
  | Browser.OpRegisterRootCa key token => answer_of nothing (Browser.register_root_ca_key h key token).2
  | Browser.OpInitiateRevocation target manager_token =>
      answer_of nothing (Browser.initiate_revocation is_blank h target manager_token a).2
  | Browser.OpActivateSaturate token => answer_of nothing (Browser.activate_saturate_mode h token a).2
  | Browser.OpRenewSaturate token => answer_of nothing (Browser.renew_saturate_mode h token a).2
  | Browser.OpTerminateSaturate message sigs => answer_of nothing (Browser.terminate_saturate_mode h message sigs a).2
  | Browser.OpVerifyContamination root token now => answer_of nothing (Browser.verify_contamination h root token now a).2
  | Browser.OpCloseIco id token now => answer_of nothing (Browser.admin_close_ico h id token now a).2
  | Browser.OpMessage msg =>
      match Browser.receive_peer_message h msg a with Some (_, r) => answer_of nothing r | None => Failed end
  | Browser.OpRegisterMigrationCa _ => Returns JNull
  | Browser.OpPoll => Events (BrowserTaint.core_poll_events (Browser.page h)).2
  end.

(** A tab with a slot for one handle: what is refused changes nothing; an operation is one of the
    handle there is; without one only the events can be drained; a new handle replaces the old one,
    with the thread-locals as they are, or none does. *)
Definition tab_step (t : Tab) (m : Meaning) (a : Ambient) : option (Tab * Answer) :=
  match m with
  | Refused => Some (t, Failed)
  | Does op =>
      match CORE t with
      | Some h => h' ← Browser.exec is_blank h op a; Some (mkTab (Some h') (idle t), answer h op a)
      | None =>
          match op with
          | Browser.OpPoll => let '(p, events) := BrowserTaint.core_poll_events (idle t) in Some (mkTab None p, Events events)
          | _ => Some (t, Failed)
          end
      end
  | Opens config identity db objects =>
      match Browser.init config identity db objects (tab_page t) with
      | None => None
      | Some (Err _) => Some (t, Failed)
      | Some (Ok h) => Some (mkTab (Some h) (idle t), Returns JNull)
      end
  end.

Fixpoint tab_run (t : Tab) (ms : list (Meaning * Ambient)) : option (Tab * list Answer) :=
  match ms with
  | [] => Some (t, [])
  | (m, a) :: ms => '(t, ok) ← tab_step t m a; '(t, oks) ← tab_run t ms; Some (t, ok :: oks)
  end.

(** *** The exports implement it *)

Definition to_option {A} (x : JsRes A) : option A := match x with Ok v => Some v | Err _ => None end.

Lemma told_arg {A B} (ans : B -> Answer) t (x : JsRes A) (f : A -> Tab * JsRes B) :
  told ans (with_arg t x f) = match to_option x with Some v => told ans (f v) | None => Some (t, Failed) end.
Proof. by destruct x. Qed.

Lemma told_core {A} (ans : A -> Answer) t (f : Handle -> Handle * Res A) op a : op <> Browser.OpPoll ->
  (forall h, Browser.exec is_blank h op a = Some (f h).1 /\ answer_of ans (f h).2 = answer h op a) ->
  told ans (with_core t f) = tab_step t (Does op) a.
Proof.
  intros Hp Hf. unfold with_core, tab_step, told. destruct (CORE t) as [h|]; [|by destruct op].
  destruct (Hf h) as [-> <-]. destruct (f h) as [h' [x|e]]; done.
Qed.

Lemma to_option_hex32 label s : to_option (decode_32byte_hex label s) = hex32 s.
Proof. unfold decode_32byte_hex, hex32. destruct (hex_decode s); cbn; [|done]. case_decide; by case_guard. Qed.

Lemma to_option_token s : to_option (decode_biscuit_token_hex s) = hex_some s.
Proof. unfold decode_biscuit_token_hex, hex_some. destruct (hex_decode s) as [[]|]; cbn; try done; by case_guard. Qed.

Lemma to_option_message s : to_option (decode_termination_message s) = hex_some s.
Proof. unfold decode_termination_message, hex_some. destruct (hex_decode s) as [[]|]; cbn; try done; by case_guard. Qed.

Lemma to_option_ok_or {A} (o : option A) (e : string) : to_option (ok_or o e) = o.
Proof. by destruct o. Qed.

Lemma to_option_json v : to_option (js_to_json v) = js_value v.
Proof. destruct v; [done..|apply to_option_ok_or]. Qed.

Lemma to_option_all {A} (f : string -> JsRes A) g l : (forall s, to_option (f s) = g s) ->
  to_option (decode_all f l) = mapM g l.
Proof.
  intros Hf. induction l as [|s l IH]; [done|]. cbn. rewrite <- Hf, <- IH. destruct (f s); cbn; [|done].
  by destruct (decode_all f l).
Qed.

Lemma to_option_signer entry : to_option (co_signature entry) = co_signer entry.
Proof.
  unfold co_signature, co_signer. destruct (field_str entry "did"); cbn; [|done].
  destruct (field_str entry "signatureHex"); cbn; [|done]. destruct (hex_decode _); cbn; [|done]. case_decide; by case_guard.
Qed.

Lemma to_option_signers v : to_option (parse_co_signatures v) = co_signers v.
Proof.
  unfold parse_co_signatures, co_signers. rewrite <- to_option_json. destruct (js_to_json v) as [[]|]; try done. cbn.
  match goal with |- context [co_signatures ?l] => induction l as [|e es IH]; [done|] end.
  cbn. rewrite <- to_option_signer, <- IH. destruct (co_signature e); cbn; [|done]. by destruct (co_signatures es).
Qed.

Lemma to_option_config keys ca path :
  to_option (decode_config keys ca path) =
  match mapM hex32 keys, from_option (fmap Some ∘ hex32) (Some None) ca, mapM hex32 path with
  | Some keys, Some ca, Some path => Some (deployment keys ca (map Ble.of_be_bytes path))
  | _, _, _ => None
  end.
Proof.
  unfold decode_config.
  rewrite <- (to_option_all decode_root_ca_key_hex hex32 keys) by (intros; apply to_option_hex32).
  rewrite <- (to_option_all (decode_32byte_hex "schema_version_path") hex32 path) by (intros; apply to_option_hex32).
  destruct (decode_all decode_root_ca_key_hex keys); cbn; [|done]. destruct ca as [k|]; cbn.
  - rewrite <- (to_option_hex32 "migration_ca_key"). destruct (decode_32byte_hex _ k); cbn; [|done].
    by destruct (decode_all _ path).
  - by destruct (decode_all _ path).
Qed.

Lemma init_refines t db objects identity keys migration_ca path :
  (core_init t db objects identity keys migration_ca path ≫= told nothing) =
  match to_option (decode_config keys migration_ca path) with
  | Some config => tab_step t (Opens config identity db objects) (mkAmbient 0 0 0)
  | None => Some (t, Failed)
  end.
Proof.
  unfold core_init, tab_step. destruct (decode_config _ _ _) as [config|e]; [|done]. cbn [to_option].
  by destruct (Browser.init _ _ _ _ _) as [[h|e]|].
Qed.

Lemma write_refines t table key data a : told Returns (core_write t table key data a) = tab_step t (meaning (CallWrite table key data)) a.
Proof.
  unfold core_write. rewrite told_arg, to_option_json. cbn [meaning]. destruct (js_value data) as [v|]; [|done]. cbn.
  unfold with_core. destruct (CORE t) as [h|]; [|done]. cbn.
  destruct (Browser.write h table key v a) as [h' [w|e]]; cbn; [|done]. unfold json_to_js. by destruct (json_to_string _).
Qed.

Lemma message_refines t raw a :
  (core_receive_peer_message t raw a ≫= told nothing) = tab_step t (meaning (CallReceivePeerMessage raw)) a.
Proof.
  unfold core_receive_peer_message. cbn [meaning]. destruct (gossip_from_bytes raw) as [msg|]; [|done]. cbn.
  destruct (CORE t) as [h|]; [|done]. destruct (Browser.receive_peer_message h msg a) as [[h' [x|e]]|]; done.
Qed.

Lemma call_refines t call a : perform t call a = tab_step t (meaning call) a.
Proof.
  destruct call; cbn [perform].
  - rewrite init_refines, to_option_config. cbn [meaning]. destruct (mapM _ _); [|done].
    destruct (from_option _ _ _); [|done]. by destruct (mapM _ _).
  - unfold core_register_root_ca_key. rewrite told_arg. unfold decode_root_ca_key_hex. rewrite to_option_hex32.
    cbn [meaning]. destruct (hex32 _); [|done]. apply told_core; [done|]. intros h. cbn [Browser.exec answer].
    destruct (Browser.register_root_ca_key h _ _) as [h' []]; done.
  - unfold core_register_root_ca_key_with_token. rewrite told_arg. unfold decode_root_ca_key_hex. rewrite to_option_hex32.
    cbn [meaning]. destruct (hex32 _); [|done]. cbn. rewrite told_arg, to_option_token. destruct (hex_some _); [|done].
    apply told_core; [done|]. intros h. cbn [Browser.exec answer]. destruct (Browser.register_root_ca_key h _ _) as [h' []]; done.
  - unfold core_register_migration_ca_key. rewrite told_arg, to_option_hex32. cbn [meaning]. destruct (hex32 _); [|done].
    by apply told_core.
  - apply write_refines.
  - unfold core_present_token. cbn [meaning].
    rewrite <- (told_core (fun l => Returns (JString (trust_upper l))) t (fun h => Browser.present_biscuit_token h token_hex a) (Browser.OpPresentToken token_hex)) by done.
    by destruct (with_core t _) as [t' []].
  - unfold core_initiate_revocation. cbn [meaning]. destruct (is_blank manager_token), (is_blank target_did); try done.
    by apply told_core.
  - unfold core_verify_data. rewrite told_arg, to_option_hex32. cbn [meaning]. destruct (hex32 _); [|done]. cbn.
    rewrite told_arg, to_option_ok_or. destruct (hex_decode _); [|done]. by apply told_core.
  - unfold core_admin_close_ico. rewrite told_arg, to_option_ok_or. cbn [meaning]. destruct (uuid_parse _); [|done]. cbn.
    rewrite told_arg, to_option_ok_or. destruct (hex_decode _); [|done]. by apply told_core.
  - unfold core_activate_saturate_mode. rewrite told_arg, to_option_token. cbn [meaning]. destruct (hex_some _); [|done].
    by apply told_core.
  - unfold core_renew_saturate_mode. rewrite told_arg, to_option_token. cbn [meaning]. destruct (hex_some _); [|done].
    by apply told_core.
  - unfold core_terminate_saturate_mode. rewrite told_arg, to_option_message. cbn [meaning]. destruct (hex_some _); [|done]. cbn.
    rewrite told_arg, to_option_signers. destruct (co_signers _); [|done]. by apply told_core.
  - apply message_refines.
  - unfold core_poll_events. cbn. by destruct (CORE t).
Qed.

Lemma page_run_refines calls : forall t, page_run t calls = tab_run t (prod_map meaning id <$> calls).
Proof.
  induction calls as [|[call a] calls IH]; intros t; [done|]. cbn. rewrite call_refines.
  destruct (tab_step _ _ _) as [[t' ok]|]; cbn; [|done]. by rewrite IH.
Qed.

(** What a list of calls asks of the handle it finds. *)
Definition opens (m : Meaning) : bool := match m with Opens _ _ _ _ => true | _ => false end.
Definition operations (calls : list (Call * Ambient)) : list (Browser.Op * Ambient) :=
  omap (fun c => match meaning c.1 with Does op => Some (op, c.2) | _ => None end) calls.

Lemma run_operations calls : forall t h, CORE t = Some h -> Forall (fun c => opens (meaning c.1) = false) calls ->
  (CORE ∘ fst) <$> page_run t calls = Some <$> Browser.run is_blank h (operations calls).
Proof.
  induction calls as [|[call a] calls IH]; intros t h Hc Hall; [cbn; by rewrite Hc|].
  inversion_clear Hall as [|? ? Ho Hall']. cbn [page_run]. rewrite call_refines. cbn in Ho.
  assert (operations ((call, a) :: calls) = match meaning call with Does op => [(op, a)] | _ => [] end ++ operations calls)
    as -> by (unfold operations; cbn; by destruct (meaning call)).
  destruct (meaning call) as [|op|]; cbn; [|rewrite Hc; cbn|done].
  - rewrite <- (IH t h Hc Hall'). by destruct (page_run t calls) as [[]|].
  - destruct (Browser.exec is_blank h op a) as [h'|]; cbn; [|done].
    rewrite <- (IH (mkTab (Some h') (idle t)) h' eq_refl Hall'). by destruct (page_run _ calls) as [[]|].
Qed.

(** C20: the exports add nothing to the handle and leave nothing out.  Whatever a page calls, [core_init]
    again included, with whatever arguments, it ends where the sequence of what the calls mean ends, and is told what
    that answers on the way, values and events included: a call whose arguments do not decode is refused and changes
    nothing, any other is the one operation of [Browser] of its name on the decoded arguments, in their places.
    Between two calls that open a handle the page thus is a history of [Browser.run], by the
    operations its calls ask for and in their order, and panics where that does. *)
Theorem page_refines_tab (t : Tab) (calls : list (Call * Ambient)) :
  page_run t calls = tab_run t (prod_map meaning id <$> calls) /\
  (forall h, CORE t = Some h -> Forall (fun c => opens (meaning c.1) = false) calls ->
     (CORE ∘ fst) <$> page_run t calls = Some <$> Browser.run is_blank h (operations calls)).
Proof. split; [apply page_run_refines|by apply run_operations]. Qed.

End Exports.
End Exports.

(** * On the sample deployment *)


(** * On the sample deployment *)

Section Witness.
Import SampleTab Exports.

Let no_uuid (_ : string) : option IncidentId := None.
Let page : Tab (C := nat * list bytes) := mkTab (Some tab) BrowserTaint.empty_page.

(** The page writes what has no JSON text, revokes the other device, and is handed the event. *)
Let calls : list (Call * Ambient) :=
  [(CallWrite "people" "name" NoString, clock 1);
   (CallInitiateRevocation (Identity.did (identity 2)) "token", clock 2); (CallPollEvents, clock 3)].

Lemma page_refines_tab_witness :
  match snd <$> page_run never no_uuid page calls with
  | Some [Failed; Returns JNull; Events (BrowserTaint.TrustLevelChanged _ new :: _)] => bool_decide (new = "Revoked")
  | _ => false
  end = true /\
  (CORE ∘ fst) <$> page_run never no_uuid page calls =
    Some <$> Browser.run never tab
      [(Browser.OpInitiateRevocation (Identity.did (identity 2)) "token", clock 2); (Browser.OpPoll, clock 3)].
Proof.
  split; [vm_compute; reflexivity|].
  destruct (page_refines_tab never no_uuid page calls) as [_ Hh]. apply (Hh tab); [reflexivity|].
  repeat constructor.
Defined.

(** A second [core_init] replaces the handle, and with it what has been revoked. *)
Example second_init_forgets :
  (fun r => (fun h => bool_decide (Identity.did (identity 2) ∈ Crdt.revoked_dids (Browser.crdt h))) <$> CORE r.1) <$>
    page_run never no_uuid page (calls ++ [(CallInit (Some one_row) Browser.no_objects (identity 1) [] None [], clock 4)]) =
  Some (Some false).
Proof. vm_compute. reflexivity. Qed.
End Witness.
