(* ===== verification/Device.v ===== *)
(** * A device over time

    Theorems about histories of a [CoreHandle].  [ComponentStep] is one component moving by one of
    its own operations while the others stand still; every operation of the handle is a sequence
    of such steps, so what holds of every history of a component holds of it inside a device:
    the rows of the DAG, the revoked DIDs, the trust level, the schema, the tiers.  Two theorems
    follow a revocation across the components. *)

From S2P Require Import Prelude Types Projection Scheduler Fragment Dag Identity Auth Revocation Saturate Contamination Schema SchemaText.
From S2P Require Import Automerge Verify Crdt Ledgers Migration CloudQueue Durability CloudLedger Transport Store Sandbox Core Sample.

Module Device.
Import Trust Core.

Section Device.
#[local] Existing Instance Contamination.grows_preorder.
Context `{!Automerge} `{!Bs58} `{!Ed25519} `{!BiscuitLib} `{!SerdeJson} `{!Codecs}.
Context `{!LruCache (string * string) Session.ResumptionCredential} `{!Noise} `{!NoiseStream bytes} `{!SelectOrder}.
Context `{!HashIter N Z} `{!HashIter string nat} `{!HashIter N (list (option Fragment.DeltaFragment))}.
Context `{!HashIter string Discovery.PeerState} `{!HashIter N Contamination.IncidentContextObject}.
Context `{!HashIter N Contamination.CompositeIncidentInstance}.
Context {C : Type} `{!Outbound C}.
Context (is_blank : string -> bool).

Implicit Types h : CoreHandle (C := C).

(** ** The CRDT engine of a device

    It moves by its own operations, or its rows receive tags. *)

Definition engine_exec : CrdtEngine -> Crdt.EngineOp -> CrdtEngine :=
  Crdt.exec zstd_encode canonical_json sha256 delta_to_json json_to_string error_to_string.

Inductive EngineMove (e : CrdtEngine) : CrdtEngine -> Prop :=
| move_exec op : EngineMove e (engine_exec e op)
| move_tags db : Contamination.grows (fun _ _ => True) (Crdt.dag e) db ->
    EngineMove e (Crdt.set_store e db (Crdt.automerge_docs e)).

Lemma engine_tag (e : CrdtEngine) id t :
  EngineMove e (Crdt.set_store e (Contamination.append_tag (Crdt.dag e) id t) (Crdt.automerge_docs e)).
Proof. constructor. by apply Contamination.append_tag_grows. Qed.

Lemma engine_replay (e : CrdtEngine) delta now :
  EngineMove e (rt_apply (ReplayTarget := replay_engine) e delta now).1.
Proof.
  cbn. destruct (Crdt.apply _ _ _ _ e delta now) as [[e' rs] r] eqn:He.
  replace e' with (engine_exec e (Crdt.OpApply delta now)); [constructor|].
  unfold engine_exec. cbn. by rewrite He.
Qed.

(** What a history of the engine preserves. *)
Record engine_after (e e' : CrdtEngine) : Prop := {
  ea_did : Crdt.author_did e' = Crdt.author_did e;
  ea_revoked : Crdt.revoked_dids e ⊆ Crdt.revoked_dids e';
  ea_rows : forall id row, Dag.dag_nodes (Crdt.dag e') !! id = Some row ->
    Dag.r_author_did row = Crdt.author_did e \/ Dag.r_author_did row ∉ Crdt.revoked_dids e \/
    exists row0, Dag.dag_nodes (Crdt.dag e) !! id = Some row0 /\ Dag.r_author_did row0 = Dag.r_author_did row
}.

#[local] Instance engine_after_preorder : PreOrder engine_after.
Proof.
  split.
  - intros e. split; [done|done|]. intros id row Hr. right; right. by exists row.
  - intros e1 e2 e3 [Hd1 Hv1 Hr1] [Hd2 Hv2 Hr2]. split; [congruence|set_solver|].
    intros id row Hrow. destruct (Hr2 id row Hrow) as [?|[Hn|(row0 & Hrow0 & <-)]];
      [left; congruence|right; left; set_solver|by apply (Hr1 id)].
Qed.

Lemma engine_move_after e e' : EngineMove e e' -> engine_after e e'.
Proof.
  intros [op|db Hg].
  - destruct (Crdt.exec_frame zstd_encode canonical_json sha256 delta_to_json json_to_string error_to_string e op)
      as (Ha & _ & _ & Hrows).
    split; [exact Ha|apply Crdt.exec_revoked|]. intros id row Hr.
    destruct (Hrows id row Hr) as [?|[?|(d & now & _ & (Hn & _) & _ & <-)]]; auto.
  - split; [done|done|]. intros id row Hr. right; right. cbn in Hr.
    destruct (Contamination.g_rows _ _ _ Hg id) as (more & _ & Heq). rewrite Heq in Hr.
    destruct (Dag.dag_nodes (Crdt.dag e) !! id) as [row0|]; [|done]. injection Hr as <-. by exists row0.
Qed.

Lemma engine_moves_after e e' : rtc EngineMove e e' -> engine_after e e'.
Proof. induction 1 as [e|e1 e2 e3 Hm _ IH]; [done|]. etrans; [by apply engine_move_after|done]. Qed.

(** ** One component at a time *)

(** The migration pipeline sees the handle as its [World]; [keys] is the history of the CA keys. *)
Definition mig_world h (keys : list bytes) : Migration.World (E := CrdtEngine) :=
  Migration.mkWorld (migration h) (crdt h) (migration_jobs h) keys.

#[local] Instance engine_host : Migration.CrdtHost CrdtEngine :=
  Migration.crdt_host zstd_encode canonical_json delta_to_json error_to_string.

Definition migration_moves : Migration.World (E := CrdtEngine) -> Migration.World (E := CrdtEngine) -> Prop :=
  Migration.Step sha256 f64_parse f64_display pest_error delta_of_json.

Definition ledger_serve (l : CloudLedger.CloudLedger) (sends : list (bytes * Z)) : CloudLedger.CloudLedger :=
  CloudLedger.serve zstd_encode canonical_json delta_to_json delta_of_json error_to_string hex_encode l sends.

Definition receive_revocation (h : CoreHandle (C := C)) (rev_delta : Revocation.RevocationDelta) (now : Z) :=
  Revocation.process_incoming_delta sha256_bytes (Crdt.dag (crdt h)) (revocation h) rev_delta now.

(** [allowed] restricts the operations of the capability manager. *)
Inductive ComponentStep (allowed : Capability.Op -> Prop) h : CoreHandle (C := C) -> Prop :=
| rows_step table key v : ComponentStep allowed h (set_store h (Store.write json_to_string (store h) table key v).1)
| engine_step e : EngineMove (crdt h) e -> ComponentStep allowed h (set_crdt h e)
| tag_step root source now : ComponentStep allowed h (tag_contamination_root h root source now)
| verify_step root did sig expiry secs now : ComponentStep allowed h
    (with_cce h (fun c => Contamination.engine_verify_data incident_ids c root did sig expiry secs now)).1
| close_step id did sig expiry secs now : ComponentStep allowed h
    (with_cce h (fun c => Contamination.engine_admin_close c id did sig expiry secs now)).1
| capability_step op : allowed op -> ComponentStep allowed h (set_capability h (Capability.apply_op (capability h) op))
| transport_step op : ComponentStep allowed h (set_transport h (transport_exec (transport h) op))
| durability_step d : DurabilityProofs.step (durability h) d -> ComponentStep allowed h (set_durability h d)
| ledger_step sends : ComponentStep allowed h (set_ledger h (ledger_serve (cloud_ledger h) sends))
| revocation_step rev_delta now :
    ComponentStep allowed h (set_revocation h (receive_revocation h rev_delta now).1.1)
| migration_step m c js :
    (forall keys, exists keys', migration_moves (mig_world h keys) (Migration.mkWorld m c js keys')) ->
    rtc EngineMove (crdt h) c ->
    ComponentStep allowed h (set_jobs (set_crdt (set_migration h m) c) (dispatched h) js)
| dispatch_step d : ComponentStep allowed h (set_jobs h d (migration_jobs h))
| inbound_step q : ComponentStep allowed h (set_inbound h q)
| records_step rs : ComponentStep allowed h (emit_records h rs)
| tiers_step ts : ComponentStep allowed h (emit_tiers h ts).

(** ** Every operation of the handle is a sequence of such steps *)

Definition served (l l' : CloudLedger.CloudLedger) : Prop := exists sends, l' = ledger_serve l sends.
#[local] Instance served_preorder : PreOrder served.
Proof.
  split; [intros l; by exists []|]. intros l1 l2 l3 [s1 ->] [s2 ->]. exists (s1 ++ s2).
  symmetry. apply CloudLedger.serve_app.
Qed.

Section Moves.
Context (allowed : Capability.Op -> Prop).
Abbreviation moves := (rtc (ComponentStep allowed)).

Lemma moves_engine h e op : engine_exec (crdt h) op = e -> moves h (set_crdt h e).
Proof. intros <-. apply rtc_once, engine_step. constructor. Qed.

Lemma moves_tags h root source now : moves h (tag_contamination_root h root source now).
Proof. apply rtc_once, tag_step. Qed.

Lemma moves_gossip h rev_delta now : moves h (enqueue_revocation_gossip h rev_delta now).
Proof. exact (rtc_once _ _ (transport_step allowed h (Mesh.EnqueueOutbound (revocation_wrapper rev_delta) now))). Qed.

(** A step of the migration engine that leaves the jobs and the CRDT engine alone. *)
Lemma moves_migration h m :
  (forall keys, migration_moves (mig_world h keys) (Migration.mkWorld m (crdt h) (migration_jobs h) keys)) ->
  moves h (set_migration h m).
Proof.
  intros Hs. apply rtc_once.
  exact (migration_step allowed h m (crdt h) (migration_jobs h) (fun keys => ex_intro _ keys (Hs keys)) (rtc_refl _ _)).
Qed.

Lemma moves_register_written h table delta tag compacted a :
  moves h (register_written h table delta tag compacted a).1.
Proof.
  unfold register_written.
  set (h1 := match tag with Some (ContaminatedByHumanReaction _) => _ | _ => h end).
  assert (moves h h1) as Hh1 by (unfold h1; destruct tag as [[]|]; done || apply moves_tags). clearbody h1.
  etrans; [exact Hh1|]. clear Hh1.
  pose proof (DurabilityProofs.step_write (durability h1) (d_id delta) (default [] (delta_to_json delta)) (d_causal_parents delta))
    as Hd. destruct (Durability.register_delta _ _ _ _ _ _) as [d [[]|e]]; cbn [fst] in Hd;
    [|by apply rtc_once, durability_step].
  etrans; [by apply rtc_once, durability_step|].
  set (d' := if compacted then _ else d).
  assert (moves (set_durability h1 d) (set_durability h1 d')) as Hd'.
  { unfold d'. destruct compacted; [|done].
    apply rtc_once. exact (durability_step allowed (set_durability h1 d) _ (DurabilityProofs.step_compact d (d_id delta))). }
  etrans; [exact Hd'|]. clear Hd'. set (h2 := set_durability h1 d').
  destruct (Migration.record_corrupted_window_write _ _ _ _ _) as [m r] eqn:Hm.
  destruct (Mesh.send_delta _ _ _ _ _) as [t r'] eqn:Ht. cbn [fst].
  etrans; [apply (moves_migration h2 m)|].
  - intros keys. pose proof (Migration.step_capture sha256 f64_parse f64_display pest_error delta_of_json
      (mig_world h2 keys) table (default [] (delta_to_json delta)) (d_created_at delta)) as Hc.
    unfold mig_world in Hc at 2. cbn [Migration.mig] in Hc. rewrite Hm in Hc. exact Hc.
  - pose proof (transport_step allowed (set_migration h2 m) (Mesh.SendDelta (local_did (set_migration h2 m)) delta)) as Hs.
    unfold transport_exec, Mesh.exec in Hs. rewrite Ht in Hs. by apply rtc_once.
Qed.

Lemma moves_write h table key data a : moves h (write h table key data a).1.
Proof.
  unfold write. destruct (ensure_local_trust_allows_io h); [|done].
  pose proof (rows_step allowed h table key data) as Hrows.
  destruct (Store.write _ _ _ _ _) as [rows [[]|e]]; [|done].
  etrans; [apply rtc_once, Hrows|]. set (h1 := set_store h rows).
  destruct (Crdt.write_scalar _ (crdt h1) table key data) as [c [b|e]] eqn:Hw; cbn [fst];
    (etrans; [apply (moves_engine h1 c (Crdt.OpWrite table key data)); exact (f_equal fst Hw)|]); [|done].
  destruct (Crdt.maybe_compact c table _) as [c2 compacted] eqn:Hc.
  etrans; [apply (moves_engine (set_crdt h1 c) c2 (Crdt.OpCompact table)); exact (f_equal fst Hc)|].
  destruct (Crdt.produce_delta_with_tags _ _ _ _ c2 _ _ _ _ _) as [c3 [delta|e]] eqn:Hp; cbn [fst];
    (etrans; [eapply (moves_engine (set_crdt h1 c2) c3 (Crdt.OpProduce _ _ _ _ _)); exact (f_equal fst Hp)|]);
    [|done].
  apply (moves_register_written (set_crdt h1 c3)).
Qed.

Lemma moves_effects h now effects : moves h (foldl (run_effect now) h effects).
Proof.
  revert h. induction effects as [|effect effects IH]; intros h; cbn; [done|]. etrans; [|apply IH].
  destruct effect as [target complete|target ids]; cbn; [apply moves_gossip|]. clear IH.
  revert h. induction ids as [|id ids IH]; intros h; cbn; [done|]. etrans; [apply moves_tags|apply IH].
Qed.

Lemma moves_process_revocation h rev_delta a :
  (forall now, allowed (Capability.OpRevoke now)) -> moves h (process_revocation h rev_delta a).1.
Proof.
  intros Hallowed. unfold process_revocation.
  destruct (Revocation.process_incoming_delta _ _ _ _ _) as [[r effects] result] eqn:Hr.
  etrans; [apply rtc_once, (revocation_step _ _ rev_delta (now_micros a))|].
  unfold receive_revocation. rewrite Hr. cbn [fst].
  etrans; [apply (moves_effects (set_revocation h r) (now_micros a) effects)|].
  generalize (foldl (run_effect (now_micros a)) (set_revocation h r) effects). clear -Hallowed. intros h.
  destruct result as [[]|]; cbn [fst]; try done.
  etrans; [apply (moves_engine h (Crdt.mark_did_revoked (crdt h) (Revocation.target_did rev_delta))
    (Crdt.OpRevoke (Revocation.target_did rev_delta))); reflexivity|].
  case_bool_decide; [|done]. apply rtc_once.
  exact (capability_step allowed (set_crdt h (Crdt.mark_did_revoked (crdt h) (Revocation.target_did rev_delta)))
    (Capability.OpRevoke (now_micros a)) (Hallowed _)).
Qed.

Lemma moves_initiate_revocation h target token a :
  (forall now, allowed (Capability.OpRevoke now)) -> moves h (initiate_revocation is_blank h target token a).1.
Proof.
  intros Hallowed. unfold initiate_revocation. destruct (is_blank token), (is_blank target); try done.
  destruct (Revocation.produce_partial_delta _ _ _ _ _) as [partial|e]; [|done].
  etrans; [apply (moves_gossip h partial (now_micros a))|].
  pose proof (moves_process_revocation (enqueue_revocation_gossip h partial (now_micros a)) partial a Hallowed) as Hm.
  by destruct (process_revocation _ _ _) as [h' r].
Qed.

(** A call that changes the transport by one of its operations. *)
Lemma moves_transport h op t : transport_exec (transport h) op = t -> moves h (set_transport h t).
Proof. intros <-. apply rtc_once, transport_step. Qed.

Lemma moves_receipt h state_hash a : moves h (issue_durability_receipt h state_hash a).
Proof.
  unfold issue_durability_receipt. destruct (Keypair.sign _ _) as [sig|]; [|done].
  eapply (moves_transport h (Mesh.SendReceipt _)). reflexivity.
Qed.

Lemma moves_saturate h token message sigs a :
  moves h (activate_saturate_mode h token a).1 /\ moves h (renew_saturate_mode h token a).1 /\
  moves h (terminate_saturate_mode h message sigs a).1.
Proof.
  unfold activate_saturate_mode, renew_saturate_mode, terminate_saturate_mode. split_and!.
  - destruct (verify_disaster_alert_token h token a) as [now|]; [|done].
    destruct (Mesh.activate_saturate_mode _ _ _ _) as [t r] eqn:Ht.
    apply (moves_transport h (Mesh.ActivateSaturate (local_did h) token now)). exact (f_equal fst Ht).
  - destruct (verify_disaster_alert_token h token a) as [now|]; [|done].
    destruct (Mesh.renew_saturate_mode _ _ _ _) as [t r] eqn:Ht.
    apply (moves_transport h (Mesh.RenewSaturate (local_did h) token now)). exact (f_equal fst Ht).
  - destruct message as [|b message]; [done|]. destruct (Identity.sign _ _) as [sig|]; [|done].
    destruct (Mesh.terminate_saturate_mode _ _ _ _) as [t r] eqn:Ht.
    apply (moves_transport h (Mesh.TerminateSaturate ((local_did h, sig) :: sigs) (b :: message) (now_secs a))).
    exact (f_equal fst Ht).
Qed.

Lemma moves_resolve h root id token a :
  moves h (verify_contamination h root token a).1 /\ moves h (admin_close_ico h id token a).1.
Proof.
  unfold verify_contamination, admin_close_ico. split.
  - destruct (manager_authority _ _ _ _) as [[sig expiry]|]; [apply rtc_once, verify_step|done].
  - destruct (manager_authority _ _ _ _) as [[sig expiry]|]; [apply rtc_once, close_step|done].
Qed.

(** *** Messages *)

Lemma moves_store_write h table key v : moves h (store_write h table key v).
Proof. apply rtc_once, rows_step. Qed.

Lemma moves_envelope_loop h tbl rkey obj app_data : moves h (envelope_loop h tbl rkey obj app_data).1.
Proof.
  revert h app_data. induction obj as [|[k v] obj IH]; intros h app_data; cbn [envelope_loop]; [done|].
  repeat case_bool_decide; cbn [andb fst]; auto using moves_store_write.
Qed.

Lemma moves_project h delta : moves h (project_merged h delta).
Proof.
  unfold project_merged. destruct (d_automerge_bytes delta) as [|b bs]; [done|].
  destruct (json_of_bytes _) as [[]|]; try done.
  - unfold project_envelope. destruct (as_str (Store.object_get l "_tirbase_table")) as [tbl|]; [|done].
    destruct (as_str (Store.object_get l "_tirbase_key")) as [rkey|]; [|done].
    pose proof (moves_envelope_loop h tbl rkey l []) as Hl.
    destruct (envelope_loop h tbl rkey l []) as [h' [|x app]]; [done|].
    etrans; [exact Hl|apply moves_store_write].
  - unfold project_document. destruct (as_str (Crdt.read_scalar _ _ "_tirbase_table")) as [tbl|]; [|done].
    destruct (as_str (Crdt.read_scalar _ _ "_tirbase_key")) as [rkey|]; [|done].
    destruct (Crdt.read_scalar _ _ rkey); [apply moves_store_write|done].
Qed.

Lemma moves_inbound_delta h delta a : moves h (inbound_delta h delta a).1.
Proof.
  unfold inbound_delta, Crdt.apply_incoming_delta.
  destruct (Crdt.apply _ _ _ _ (crdt h) delta (now_micros a)) as [[c records] outcome] eqn:Hc.
  assert (moves h (emit_records (set_crdt h c) records)) as Hm.
  { etrans; [apply (moves_engine h c (Crdt.OpApply delta (now_micros a))); exact (f_equal (fst ∘ fst) Hc)|].
    apply rtc_once, records_step. }
  destruct outcome as [[n|reason|reason]|e]; cbn [fst]; try exact Hm; (etrans; [exact Hm|]).
  - etrans; [apply moves_project|apply moves_receipt].
  - set (h1 := emit_records _ _). destruct (Migration.quarantine_incoming _ _ _ _ _ _ _) as [m r] eqn:Hq. cbn [fst].
    apply (moves_migration h1 m). intros keys.
    pose proof (Migration.step_quarantine sha256 f64_parse f64_display pest_error delta_of_json (mig_world h1 keys)
      (d_author_did delta) (default (d_automerge_bytes delta) (delta_to_json delta)) (Some (d_schema_hash delta))
      (Quarantine.from_merge reason) (now_micros a)) as Hs.
    unfold mig_world in Hs at 2. cbn [Migration.mig] in Hs. rewrite Hq in Hs. exact Hs.
Qed.

Lemma moves_inbound_migration_revocation h mig_rev a : moves h (inbound_migration_revocation h mig_rev a).
Proof.
  unfold inbound_migration_revocation.
  assert (forall h m r, Migration.receive_revocation_delta (migration h) mig_rev (now_micros a) = (m, r) ->
    moves h (set_migration h m)) as Hm.
  { clear. intros h m r Hr. apply moves_migration. intros keys.
    pose proof (Migration.step_revoke sha256 f64_parse f64_display pest_error delta_of_json (mig_world h keys)
      mig_rev (now_micros a)) as Hs.
    unfold mig_world in Hs at 2. cbn [Migration.mig] in Hs. rewrite Hr in Hs. exact Hs. }
  destruct (Migration.receive_revocation_delta _ _ _) as [m [applied|e]] eqn:Hr; [|by eapply Hm].
  etrans; [by eapply Hm|]. clear Hm Hr. generalize (set_migration h m). clear h. intros h.
  etrans; [|apply moves_tags]. destruct (Migration.target_schema_for_migration m _) as [schema|]; [|done].
  apply rtc_once, engine_step. constructor.
  by apply (Contamination.append_all_grows (fun _ _ => True)).
Qed.

Lemma moves_receive_inbound h msg a :
  (forall now, allowed (Capability.OpRevoke now)) -> moves h (receive_inbound h msg a).1.
Proof.
  intros Hallowed. destruct msg; cbn [receive_inbound fst]; try done.
  - apply moves_inbound_delta.
  - pose proof (DurabilityProofs.step_receipt (durability h) receipt (now_secs a)) as Hs.
    destruct (Durability.inbound_receipt _ _ _) as [d tiers]. cbn [fst].
    etrans; [by apply rtc_once, durability_step|apply rtc_once, tiers_step].
  - by apply moves_process_revocation.
  - apply rtc_once, dispatch_step.
  - apply moves_inbound_migration_revocation.
Qed.

Lemma moves_drain h msgs a count :
  (forall now, allowed (Capability.OpRevoke now)) -> moves h (drain h msgs a count).1.
Proof.
  intros Hallowed. revert h count. induction msgs as [|msg msgs IH]; intros h count; cbn [drain]; [done|].
  pose proof (moves_receive_inbound (set_inbound h msgs) msg a Hallowed) as Hm.
  etrans; [apply rtc_once, (inbound_step _ _ msgs)|].
  destruct (receive_inbound _ _ _) as [h' [[]|e]]; [|exact Hm]. etrans; [exact Hm|apply IH].
Qed.

(** *** Jobs and background loops *)

Lemma moves_jobs h m c js :
  (forall keys, migration_moves (mig_world h keys) (Migration.mkWorld m c js keys)) -> rtc EngineMove (crdt h) c ->
  moves h (set_jobs (set_crdt (set_migration h m) c) (dispatched h) js).
Proof.
  intros Hs Hc. apply rtc_once. exact (migration_step allowed h m c js (fun keys => ex_intro _ keys (Hs keys)) Hc).
Qed.

Lemma moves_job_prepare h i : moves h (job_prepare h i).
Proof.
  unfold job_prepare. destruct (dispatched h !! i) as [mig_delta|]; [|done].
  destruct (Migration.prepare_migration _ _ _ _ _ _ _) as [m [prepared|e]] eqn:Hp.
  - etrans; [apply rtc_once, (dispatch_step _ _ (delete i (dispatched h)))|].
    exact (moves_jobs (set_jobs h (delete i (dispatched h)) (migration_jobs h)) m (crdt h)
      (Migration.Executing prepared :: migration_jobs h) (fun keys => Migration.step_prepare _ _ _ _ _ (mig_world h keys) _ _ _ _ Hp)
      (rtc_refl _ _)).
  - pose proof (moves_migration h m (fun keys => Migration.step_refuse _ _ _ _ _ (mig_world h keys) _ _ _ _ Hp)) as Hm.
    assert (moves h (set_jobs (set_migration h m) (delete i (dispatched h)) (migration_jobs h))) as Hm'
      by (etrans; [exact Hm|apply rtc_once, (dispatch_step _ (set_migration h m) (delete i (dispatched h)))]).
    by destruct e.
Qed.

Lemma moves_job_row h i table key v : moves h (job_row h i table key v).
Proof. unfold job_row. case_match; [|done]. case_match; done || apply moves_store_write. Qed.

Lemma moves_job_advance h i outcome a : moves h (job_advance h i outcome a).
Proof.
  unfold job_advance. destruct (migration_jobs h !! i) as [job|] eqn:Hi; [|done].
  apply delete_Permutation in Hi. set (rest := delete i (migration_jobs h)) in *. clearbody rest.
  destruct job as [p|source|source new_current|source new_current].
  - destruct (Migration.finish_migration _ _ _ _) as [m r] eqn:Hf.
    assert (r <> Ok Migration.Success -> moves h (set_jobs (set_migration h m) (dispatched h) rest)) as Hfail.
    { intros Hr. exact (moves_jobs h m (crdt h) rest
        (fun keys => Migration.step_finish_failure _ _ _ _ _ (mig_world h keys) p rest m outcome r Hi Hf Hr) (rtc_refl _ _)). }
    destruct r as [[]|e]; [|by apply Hfail..].
    exact (moves_jobs h m (crdt h) (Migration.Committed (Migration.local_schema_hash (migration h)) :: rest)
      (fun keys => Migration.step_finish_success _ _ _ _ _ (mig_world h keys) p rest m outcome Hi Hf)
      (rtc_refl _ _)).
  - exact (moves_jobs h (migration h) (crdt h)
      (Migration.Advancing source (Migration.local_schema_hash (migration h)) :: rest)
      (fun keys => Migration.step_read_current _ _ _ _ _ (mig_world h keys) source rest Hi)
      (rtc_refl _ _)).
  - exact (moves_jobs h (migration h) (Crdt.set_current_schema (crdt h) new_current)
      (Migration.Replaying source new_current :: rest)
      (fun keys => Migration.step_advance _ _ _ _ _ (mig_world h keys) source new_current rest Hi)
      (rtc_once _ _ (move_exec _ (Crdt.OpSetCurrent new_current)))).
  - destruct (Migration.replay_corrupted_windows _ _ _ _ _ _) as [m c] eqn:Hr.
    apply (moves_jobs h m c rest).
    + change replay_engine with (Migration.host_replay (CrdtHost := engine_host)) in Hr.
      intros keys. by eapply (Migration.step_replay _ _ _ _ _ (mig_world h keys) source new_current rest (now_micros a) m c).
    + pose proof (Migration.replay_windows_moves (ReplayTarget0 := replay_engine) delta_of_json (rtc EngineMove) (migration h) source new_current (crdt h)
        (now_micros a)) as Hw. rewrite Hr in Hw.
      apply Hw; intros; apply rtc_once; [apply engine_replay|apply engine_tag].
Qed.

Lemma moves_cloud_sync h a : moves h (run_cloud_sync_cycle h a).1.
Proof.
  unfold run_cloud_sync_cycle. set (conn := CloudLedger.CloudLedgerConnection _ _ _ _ _ _ _).
  set (refetch := fun _ _ => _).
  pose proof (DurabilityProofs.step_sync (durability h) CloudLedger.CloudLedger conn refetch (cloud_ledger h)) as Hd.
  assert (served (cloud_ledger h)
    (Durability.run_cloud_sync_cycle (CloudConnection0 := conn) refetch (durability h) (cloud_ledger h)).1.1.2) as [sends Hl].
  { unfold Durability.run_cloud_sync_cycle. case_match; [done|].
    pose proof (CloudQueue.sync_loop_moves (CloudConnection0 := conn) served refetch
      (Durability.cloud_queue (durability h)) (cloud_ledger h)) as Hs.
    destruct (CloudQueue.cloud_sync_loop _ _ _) as [[q l'] result]. destruct (Durability.ack_all _ _) as [d ev].
    apply Hs. intros l id b. by exists [(b, now_micros a)]. }
  destruct (Durability.run_cloud_sync_cycle _ _ _) as [[[d l] tiers] result]. cbn [fst snd] in *. subst l.
  etrans; [by apply rtc_once, durability_step|].
  etrans; [apply rtc_once, (ledger_step _ (set_durability h d) sends)|]. apply rtc_once, tiers_step.
Qed.

End Moves.

(** The capability operations an operation of the handle may use: a token is presented only by
    [present_biscuit_token]. *)
Definition may_use (op : Op) (c : Capability.Op) : Prop :=
  match c with
  | Capability.OpPresent _ _ _ => exists token_hex, op = OpPresentToken token_hex
  | _ => True
  end.

Lemma exec_moves h op a : rtc (ComponentStep (may_use op)) h (exec is_blank h op a).
Proof.
  assert (forall now, may_use op (Capability.OpRevoke now)) as Hrevoke by done.
  destruct op as [table key data|token_hex|key token|key|target token|token|token|message sigs|root token|id token|data|
    |i|i table key v|i outcome| |threshold| | | |op]; cbn [exec].
  - apply moves_write.
  - unfold present_biscuit_token. destruct (hex_decode token_hex) as [[|b bs]|]; [done| |done].
    destruct (Capability.present_token _ _ _ _) as [c r] eqn:Hc. cbn [fst].
    replace c with (Capability.apply_op (capability h) (Capability.OpPresent (b :: bs) (now_secs a) (now_micros a)))
      by (cbn; by rewrite Hc).
    apply rtc_once, capability_step. by exists token_hex.
  - unfold register_root_ca_key. destruct (Capability.register_root_ca_key _ _ _) as [c r] eqn:Hc. cbn [fst].
    replace c with (Capability.apply_op (capability h) (Capability.OpRegister key token)) by (cbn; by rewrite Hc).
    by apply rtc_once, capability_step.
  - apply rtc_once. exact (migration_step _ h (Migration.register_ca_public_key (migration h) key) (crdt h) (migration_jobs h)
      (fun keys => ex_intro _ (key :: keys) (Migration.step_key _ _ _ _ _ (mig_world h keys) key)) (rtc_refl _ _)).
  - by apply moves_initiate_revocation.
  - by apply (moves_saturate _ h token [] [] a).
  - by apply (moves_saturate _ h token [] [] a).
  - by apply (moves_saturate _ h [] message sigs a).
  - by apply (moves_resolve _ h root 0%N token a).
  - by apply (moves_resolve _ h 0%N id token a).
  - unfold on_gossip. destruct (Mesh.on_gossip _ _ _ _) as [t msg] eqn:Ht.
    etrans; [apply (moves_transport _ h (Mesh.Gossip data) t); exact (f_equal fst Ht)|apply rtc_once, inbound_step].
  - by apply moves_drain.
  - apply moves_job_prepare.
  - apply moves_job_row.
  - apply moves_job_advance.
  - apply moves_cloud_sync.
  - apply rtc_once, durability_step, DurabilityProofs.step_monitor.
  - by apply rtc_once, (capability_step _ h (Capability.OpMonitor (now_secs a))).
  - by apply (moves_transport _ h (Mesh.Epoch (now_micros a) (now_secs a))).
  - unfold on_mdns_discovered. generalize (Revocation.build_recent_revocation_deltas (revocation h)
      (24 * 3600 * 1000000) (now_micros a)). clear. intros rds. revert h.
    induction rds as [|rd rds IH]; intros h; cbn; [done|]. etrans; [apply moves_gossip|apply IH].
  - by apply (moves_transport _ h op).
Qed.

(** ** What that makes of a whole history *)

(** A row that was not there before, or with another text, holds the text of a value. *)
Definition rows_after (pr pr' : Projection.Projection) : Prop :=
  forall t k text, Projection.text_at pr' t k = Some text ->
    Projection.text_at pr t k = Some text \/ exists v, json_to_string v = Some text.
#[local] Instance rows_after_preorder : PreOrder rows_after.
Proof.
  split; [intros pr t k text; by left|]. intros p1 p2 p3 H12 H23 t k text Ht.
  destruct (H23 t k text Ht) as [Ht'|]; [by apply H12|by right].
Qed.

Lemma same_texts_rows_after pr pr' : Projection.same_texts pr pr' -> rows_after pr pr'.
Proof. intros Hs t k text Ht. rewrite Hs in Ht. by left. Qed.

Lemma store_write_rows_after pr table key v : rows_after pr (Store.write json_to_string pr table key v).1.
Proof.
  destruct (Store.write json_to_string pr table key v) as [pr' r] eqn:Hw. cbn [fst].
  apply Store.write_spec in Hw as [(text & flag & Ht & _ & _ & Hrow)|(-> & _)]; [|done].
  intros t k text'. unfold Projection.text_at. rewrite Hrow. case_decide; [|by left].
  intros [= <-]. right. by exists v.
Qed.

Record components_after (allowed : Capability.Op -> Prop) h h' : Prop := {
  ca_identity : identity h' = identity h;
  ca_rows : rows_after (store h) (store h');
  ca_engine : rtc EngineMove (crdt h) (crdt h');
  ca_capability : exists ops, Forall allowed ops /\ capability h' = Capability.run (capability h) ops;
  ca_transport : exists ops, transport h' = foldl transport_exec (transport h) ops;
  ca_durability : rtc DurabilityProofs.step (durability h) (durability h');
  ca_ledger : served (cloud_ledger h) (cloud_ledger h');
  ca_revocation : exists evs, revocation h' = (Revocation.run sha256_bytes (revocation h) evs).1;
  ca_migration : forall keys, exists keys', rtc migration_moves (mig_world h keys) (mig_world h' keys')
}.

Lemma revocation_run_app s evs evs' :
  (Revocation.run sha256_bytes s (evs ++ evs')).1 = (Revocation.run sha256_bytes (Revocation.run sha256_bytes s evs).1 evs').1.
Proof.
  revert s. induction evs as [|ev evs IH]; intros s; cbn [Revocation.run app]; [done|].
  destruct (Revocation.process _ _ _ _ _) as [[s1 es] r]. specialize (IH s1).
  destruct (Revocation.run sha256_bytes s1 (evs ++ evs')), (Revocation.run sha256_bytes s1 evs). exact IH.
Qed.

#[local] Instance components_after_preorder allowed : PreOrder (components_after allowed).
Proof.
  split.
  - intros h. split; try done; [by exists []..|]. intros keys. by exists keys.
  - intros h1 h2 h3 [] []. split; [congruence|by etrans|by etrans| | |by etrans|by etrans| |].
    + destruct ca_capability0 as (o1 & Ho1 & Hc1), ca_capability1 as (o2 & Ho2 & Hc2).
      exists (o1 ++ o2). split; [by apply Forall_app|]. unfold Capability.run in *. rewrite foldl_app. congruence.
    + destruct ca_transport0 as (o1 & Ho1), ca_transport1 as (o2 & Ho2).
      exists (o1 ++ o2). rewrite foldl_app. congruence.
    + destruct ca_revocation0 as (e1 & He1), ca_revocation1 as (e2 & He2).
      exists (e1 ++ e2). rewrite revocation_run_app. congruence.
    + intros keys. destruct (ca_migration0 keys) as (k1 & Hk1), (ca_migration1 k1) as (k2 & Hk2).
      exists k2. by etrans.
Qed.

(** The operations of the contamination engine on the shared file. *)
Lemma with_cce_after allowed {A} h (f : Contamination.CausalContaminationEngine -> Contamination.CausalContaminationEngine * A) :
  Contamination.grows (fun _ _ => True) (Crdt.dag (crdt h)) (Contamination.db (Contamination.core (f (cce_view h)).1)) ->
  Projection.same_texts (store h) (Contamination.proj (Contamination.core (f (cce_view h)).1)) ->
  components_after allowed h (with_cce h f).1.
Proof.
  intros Hg Htexts. unfold with_cce. destruct (f (cce_view h)) as [c x]. cbn [fst] in *.
  split; try done; try (by exists []); [by apply same_texts_rows_after|by apply rtc_once, move_tags|].
  intros keys. exists keys. apply rtc_once.
  exact (Migration.step_host _ _ _ _ _ (mig_world h keys) (crdt (put_cce h c))).
Qed.

Lemma step_components allowed h h' : ComponentStep allowed h h' -> components_after allowed h h'.
Proof.
  destruct 1 as [table key v|e He|root source now|root did sig expiry secs now|id did sig expiry secs now|op Hop|op|d Hd|sends
    |rd now|m c js Hm Hc|d|q|rs|ts]; try done;
    try (split; try done; try (by exists []); try (intros keys; by exists keys); fail).
  - split; try done; try (by exists []); [apply store_write_rows_after|intros keys; by exists keys].
  - split; try done; try (by exists []); [by apply rtc_once|]. intros keys. exists keys. apply rtc_once.
    exact (Migration.step_host _ _ _ _ _ (mig_world h keys) e).
  - pose proof (Contamination.tag_root_result incident_ids (cce_view h) root source now) as Hr.
    apply with_cce_after; destruct (Contamination.tag_contamination_root _ _ _ _ _) as [c r]; destruct Hr as (Hdb & Hp & _);
      cbn [fst]; [rewrite Hdb; by apply (Contamination.append_all_grows (fun _ _ => True))|].
    rewrite Hp. apply Contamination.same_texts_mark.
  - pose proof (Contamination.verify_data_grows incident_ids root did sig expiry secs now (Contamination.core (cce_view h))) as Hg.
    pose proof (Contamination.verify_data_texts incident_ids root did sig expiry secs now (Contamination.core (cce_view h))) as Hx.
    apply with_cce_after; unfold Contamination.engine_verify_data;
      by destruct (Contamination.verify_data _ _ _ _ _ _ _ _) as [s [l|e]].
  - apply with_cce_after; unfold Contamination.engine_admin_close;
      by destruct (Contamination.admin_close _ _ _ _ _ _ _) as [incs r].
  - split; try done; try (by exists []); [|intros keys; by exists keys].
    exists [op]. split; [by constructor|done].
  - split; try done; try (by exists []); [|intros keys; by exists keys]. by exists [op].
  - split; try done; try (by exists []); [by apply rtc_once|intros keys; by exists keys].
  - split; try done; try (by exists []); [by exists sends|intros keys; by exists keys].
  - split; try done; try (by exists []); [|intros keys; by exists keys].
    exists [Revocation.mkIncoming (Dag.nodes_by_author (Crdt.dag (crdt h)) (Revocation.target_did rd)) rd now].
    cbn. unfold receive_revocation, Revocation.process_incoming_delta.
    by destruct (Revocation.process _ _ _ _ _) as [[s es] r].
  - split; try done; try (by exists []). intros keys. destruct (Hm keys) as [keys' Hs]. exists keys'. by apply rtc_once.
Qed.

Lemma moves_components allowed h h' : rtc (ComponentStep allowed) h h' -> components_after allowed h h'.
Proof. induction 1 as [h|h1 h2 h3 Hs _ IH]; [done|]. etrans; [by apply step_components|done]. Qed.

Lemma components_mono (P Q : Capability.Op -> Prop) h h' :
  (forall c, P c -> Q c) -> components_after P h h' -> components_after Q h h'.
Proof.
  intros HPQ [Hi Hr He (ops & Hops & Hc)]. split; try done. exists ops. split; [|done]. by eapply Forall_impl.
Qed.

(** The operations of the manager some operation of a history may use. *)
Definition some_may_use (ops : list (Op * Ambient)) (c : Capability.Op) : Prop :=
  match c with
  | Capability.OpPresent _ _ _ => exists token_hex a, (OpPresentToken token_hex, a) ∈ ops
  | _ => True
  end.

Lemma run_components h ops : components_after (some_may_use ops) h (run is_blank h ops).
Proof.
  revert h. induction ops as [|[op a] ops IH]; intros h; [done|]. cbn [run foldl fst snd]. etrans.
  - eapply components_mono; [|apply moves_components, exec_moves]. intros [] Hc; try done.
    destruct Hc as [token_hex ->]. exists token_hex, a. left.
  - eapply components_mono; [|apply IH]. intros [] Hc; try done.
    destruct Hc as (token_hex & a' & Hin). exists token_hex, a'. by right.
Qed.

(** ** From the start *)

Lemma register_definitions_moves e versions defs e' :
  register_definitions e versions defs = Ok e' -> rtc EngineMove e e'.
Proof.
  revert e versions. induction defs as [|schema defs IH]; intros e [|version versions]; cbn [register_definitions];
    try (by intros [= ->]).
  destruct (Crdt.register_schema_definition sha256 e version schema) as [e1 [[]|err]] eqn:Hr; [|done].
  intros Hd%IH. etrans; [|exact Hd]. apply rtc_once.
  replace e1 with (engine_exec e (Crdt.OpRegister version schema)); [constructor|].
  exact (f_equal fst Hr).
Qed.

Lemma register_schemas_moves e path defs e' : register_schemas e path defs = Ok e' -> rtc EngineMove e e'.
Proof.
  unfold register_schemas. destruct path as [|h0 path].
  { destruct defs; [by intros [= ->]|done]. }
  destruct (_ && _); [done|]. intros Hd%register_definitions_moves. etrans; [|exact Hd].
  exact (rtc_once _ _ (move_exec e (Crdt.OpSetCurrent h0))).
Qed.

Definition first_schema (config : DeploymentConfig) : SchemaIdentifierHash :=
  match schema_definitions config with
  | s :: _ => Schema.identifier_hash sha256 s
  | [] => DEFAULT_SCHEMA_HASH
  end.

(** The engine as [init] opens it, before the schemas are registered. *)
Definition fresh_engine (config : DeploymentConfig) (id : Identity.IdentityManager) (db : Persistent) : CrdtEngine :=
  Crdt.new (Identity.signing_key id) (Identity.public_key_bytes id) (Identity.did id) (first_schema config)
    (p_dag db) (p_automerge_docs db).

Record initial (config : DeploymentConfig) (id : Identity.IdentityManager) (db : Persistent) h : Prop := {
  in_identity : identity h = id;
  in_rows : store h = p_rows db;
  in_engine : rtc EngineMove (fresh_engine config id db) (crdt h);
  in_revocation : revocation h =
    Revocation.new (Nat.max (revocation_m config) 1) (Nat.max (revocation_n config) 1);
  in_capability : capability h = Capability.new (root_ca_keys config) (86400 <? biscuit_ttl_secs config);
  in_durability : exists cfg anchor, Quorum.k cfg = Nat.max (quorum_k config) 1 /\
    durability h = Durability.with_anchor cfg anchor;
  in_ledger : cloud_ledger h = CloudLedger.new_in_memory (Identity.signing_key id) (Identity.did id) (first_schema config);
  in_migration : exists local, migration h =
      Migration.new (default (replicate 32 0%N) (migration_ca_public_key config)) local (schema_version_path config)
        (Nat.max (revocation_m config) 1) (p_quarantine_ledger db) (p_sidecar_ledger db)
        (build_schema_def_map (schema_definitions config));
  in_jobs : migration_jobs h = []
}.

Lemma init_initial config id db mesh h : init config id db mesh = Ok h -> initial config id db h.
Proof.
  unfold init. fold (first_schema config). fold (fresh_engine config id db).
  destruct (register_schemas _ _ _) as [c|e] eqn:Hc; [|done]. cbn. intros [= <-].
  split; try done; [by eapply register_schemas_moves| |].
  - cbn. eexists _, _. split; [|done]. done.
  - by eexists.
Qed.

(** C1: A device refines its components.  Whatever the host calls, whatever arrives and in whatever
    order the tasks and jobs run, each component is in a state that its own operations reach
    from the state [init] gives it, so every theorem about the histories of a component holds
    of it inside a device; a token is presented to the capability manager only by the host;
    the rows of the DAG come from the engine's own operations and gain nothing but tags. *)
Theorem device_refines_components (config : DeploymentConfig) (id : Identity.IdentityManager) (db : Persistent)
    (mesh : option C) (h0 : CoreHandle) (ops : list (Op * Ambient)) :
  init config id db mesh = Ok h0 ->
  let h := run is_blank h0 ops in
  rtc EngineMove (fresh_engine config id db) (crdt h) /\
  (exists evs, revocation h = (Revocation.run sha256_bytes
     (Revocation.new (Nat.max (revocation_m config) 1) (Nat.max (revocation_n config) 1)) evs).1) /\
  (exists cops, capability h =
     Capability.run (Capability.new (root_ca_keys config) (86400 <? biscuit_ttl_secs config)) cops /\
     forall token secs micros, Capability.OpPresent token secs micros ∈ cops ->
       exists token_hex a, (OpPresentToken token_hex, a) ∈ ops) /\
  (exists cfg anchor, Quorum.k cfg = Nat.max (quorum_k config) 1 /\
     DurabilityProofs.reachable cfg anchor (durability h)) /\
  (exists key schema0 m q sc defs keys, rtc migration_moves
     (Migration.start key schema0 (schema_version_path config) m q sc defs (crdt h0)) (mig_world h keys)) /\
  (exists sends, cloud_ledger h = ledger_serve
     (CloudLedger.new_in_memory (Identity.signing_key id) (Identity.did id) (first_schema config)) sends) /\
  (exists tops, transport h = foldl transport_exec (transport h0) tops).
Proof.
  intros Hinit. destruct (init_initial _ _ _ _ _ Hinit) as [_ _ He Hr Hc (cfg & anchor & Hk & Hd) Hl (local & Hm) Hj].
  cbn zeta. destruct (run_components h0 ops) as [_ _ Ce (cops & Hall & Cc) Ct Cd [sends Cl] [evs Cr] Cm].
  split_and!; [by etrans|exists evs; by rewrite Cr, Hr| | | |exists sends; by rewrite Cl, Hl|done].
  - exists cops. split; [by rewrite Cc, Hc|]. intros token secs micros Hin.
    rewrite Forall_forall in Hall. apply (Hall _ Hin).
  - exists cfg, anchor. split; [done|]. unfold DurabilityProofs.reachable. by rewrite <- Hd.
  - pose (key := default (replicate 32 0%N) (migration_ca_public_key config)).
    destruct (Cm [key]) as [keys Hw]. unfold mig_world at 1 in Hw. rewrite Hm, Hj in Hw.
    by repeat eexists.
Qed.

(** ** The rows are typed *)

(** Every row of the file is the text of a value. *)
Definition readable (pr : Projection.Projection) : Prop :=
  forall t k text, Projection.text_at pr t k = Some text -> is_Some (json_of_string text).

Lemma read_readable pr table key :
  readable pr -> Projection.sql_name table = true ->
  exists found, Store.read json_of_string pr table key = Ok found /\
    (found = None <-> Projection.row_at pr table key = None).
Proof.
  intros Hr Hn. rewrite Store.read_row_at by done. specialize (Hr table key). unfold Projection.text_at in Hr.
  destruct (Projection.row_at pr table key) as [r|]; [|by exists None].
  destruct (Hr _ eq_refl) as [v ->]. by exists (Some v).
Qed.

Lemma query_rows_readable number_eqb filter (rows : list (string * Projection.ProjRow)) :
  (forall k r, (k, r) ∈ rows -> is_Some (json_of_string (Projection.p_data_json r))) ->
  exists found, Store.query_rows json_of_string number_eqb filter rows = Ok found.
Proof.
  induction rows as [|[k r] rows IH]; intros Hr; cbn [Store.query_rows]; [by eexists|].
  destruct (Hr k r) as [v ->]; [left|]. destruct IH as [found ->]; [intros k' r' Hin; by eapply Hr; right|]. by eexists.
Qed.

Lemma query_readable number_eqb pr table filter :
  readable pr -> Projection.sql_name table = true ->
  exists found, Store.query json_of_string number_eqb pr table filter = Ok found.
Proof.
  intros Hr Hn. unfold Store.query. rewrite Hn. destruct (Projection.table_rows pr table) as [rows|] eqn:Ht; [|by eexists].
  apply query_rows_readable. intros k r Hin. rewrite select_perm in Hin. apply elem_of_map_to_list in Hin.
  apply (Hr table k). unfold Projection.text_at, Projection.row_at. rewrite Hn, Ht. cbn. by rewrite Hin.
Qed.

(** C15: the rows stay typed.  A device that starts on rows which all hold JSON text never fails to
    decode one: whatever has happened, as long as it is not revoked, [read] answers with the
    value of the row or says that there is none, and every query succeeds; only a table name
    that breaks the SQL statement (a double quote, a NUL) is an error of the store in both. *)
Theorem rows_stay_typed (number_eqb : Number -> Number -> bool) (config : DeploymentConfig)
    (id : Identity.IdentityManager) (db : Persistent) (mesh : option C) (h0 : CoreHandle) (ops : list (Op * Ambient)) :
  init config id db mesh = Ok h0 -> readable (p_rows db) ->
  (forall v text, json_to_string v = Some text -> is_Some (json_of_string text)) ->
  let h := run is_blank h0 ops in
  trust_level h <> Revoked ->
  (forall table key,
     match Projection.row_at (store h) table key with
     | Some _ => exists v, read h table key =
         Ok (mkQueryResult table key v (Capability.unverified_warning (capability h)) false)
     | None => read h table key = Err (LocalStoreWriteFailed
         (if Projection.sql_name table then "key not found in table" else "Read failed"))
     end) /\
  (forall table filter,
     if Projection.sql_name table then exists rows, query number_eqb h table filter = Ok rows
     else query number_eqb h table filter = Err (LocalStoreWriteFailed "Prepare query failed")).
Proof.
  intros Hinit Hdb Hjson h Htrust.
  assert (readable (store h)) as Hr.
  { intros t k text Ht. destruct (ca_rows _ _ _ (run_components h0 ops) t k text Ht) as [Ht0|[v Hv]]; [|by eapply Hjson].
    apply (Hdb t k). by rewrite <- (in_rows _ _ _ _ (init_initial _ _ _ _ _ Hinit)). }
  assert (ensure_local_trust_allows_io h = Ok tt) as He.
  { unfold ensure_local_trust_allows_io. unfold trust_level in Htrust. by rewrite bool_decide_eq_false_2. }
  split.
  - intros table key. unfold read. rewrite He. cbn [mbind result_bind].
    destruct (Projection.sql_name table) eqn:Hn.
    2:{ unfold Projection.row_at, Store.read. by rewrite Hn. }
    destruct (read_readable _ table key Hr Hn) as (found & Hf & Hiff). rewrite Hf. destruct found as [v|], (Projection.row_at (store h) table key); cbn.
    + by eexists.
    + by destruct Hiff as [_ Hx]; specialize (Hx eq_refl).
    + by destruct Hiff as [Hx _]; specialize (Hx eq_refl).
    + done.
  - intros table filter. unfold query. rewrite He. cbn [mbind result_bind].
    destruct (Projection.sql_name table) eqn:Hn; [|unfold Store.query; by rewrite Hn].
    destruct (query_readable number_eqb _ table filter Hr Hn) as [found ->]. by eexists.
Qed.

(** ** The sandbox *)

(** The rows a run of the sandbox writes are the [OpJobRow] of the job that runs it. *)
Lemma sandbox_as_job_rows `{!WasmRuntime} h i p a deadline :
  migration_jobs h !! i = Some (Migration.Executing p) ->
  exists ws, (Sandbox.execute_native json_to_string json_of_string json_of_bytes (Migration.p_transform_bytes p)
      (Migration.p_timeout_secs p) deadline (store h)).1 = Store.native_writes json_to_string (store h) ws /\
    run is_blank h (map (fun w => (OpJobRow i w.1.1 w.1.2 w.2, a)) ws) =
      set_store h (Store.native_writes json_to_string (store h) ws).
Proof.
  intros Hi. pose proof (Sandbox.sandbox_confined_spec json_to_string json_of_string json_of_bytes
    (Migration.p_transform_bytes p) (Migration.p_timeout_secs p) deadline (store h)) as Hs.
  destruct (Sandbox.execute_native _ _ _ _ _ _ _) as [pr r]. destruct Hs as ([ws ->] & _). exists ws. split; [done|].
  clear r deadline. revert h Hi. induction ws as [|[[table key] v] ws IH]; intros h Hi; [by destruct h|].
  cbn [map run foldl fst snd exec]. unfold job_row. rewrite Hi. unfold run in IH. rewrite IH by done. done.
Qed.

(** ** Restarting *)

Lemma register_definitions_frame e versions defs e' :
  register_definitions e versions defs = Ok e' -> exists ds, e' = Crdt.set_definitions e ds.
Proof.
  revert e versions. induction defs as [|schema defs IH]; intros e [|version versions]; cbn [register_definitions];
    try (intros [= <-]; exists (Crdt.schema_definitions e); by destruct e).
  unfold Crdt.register_schema_definition. case_decide; [|done]. intros [ds ->]%IH. by eexists.
Qed.

Lemma register_schemas_frame e path defs e' :
  register_schemas e path defs = Ok e' ->
  Crdt.dag e' = Crdt.dag e /\ Crdt.doc e' = Crdt.doc e /\ Crdt.lamport e' = Crdt.lamport e /\
  Crdt.revoked_dids e' = Crdt.revoked_dids e.
Proof.
  unfold register_schemas. destruct path as [|h0 path]; [destruct defs; [by intros [= <-]|done]|].
  destruct (_ && _); [done|]. by intros [ds ->]%register_definitions_frame.
Qed.

(** What a restart finds in the file. *)
Record on_file h h' : Prop := {
  of_rows : store h' = store h;
  of_dag : Crdt.dag (crdt h') = Crdt.dag (crdt h);
  of_quarantine : Migration.quarantine_ledger (migration h') = Migration.quarantine_ledger (migration h);
  of_sidecar : Migration.sidecar_ledger (migration h') = Migration.sidecar_ledger (migration h)
}.

(** C29: what a restart keeps.  A device started again on the file another run left has its rows, its
    DAG and its two migration ledgers.  Everything else starts afresh: what was still queued for
    the ledger is no longer queued, no tier is remembered, the document and the clock are empty,
    no device is revoked any more, the local one included, and no incident is open. *)
Theorem restart_forgets (config : DeploymentConfig) (id : Identity.IdentityManager) h (mesh : option C) (h' : CoreHandle) :
  init config id (persistent h) mesh = Ok h' ->
  on_file h h' /\
  Durability.cloud_queue (durability h') = [] /\
  (forall delta_id, Durability.durability_tier (durability h') delta_id = Durability.Uncommitted) /\
  Crdt.doc (crdt h') = am_new (Identity.public_key_bytes id) /\ Crdt.lamport (crdt h') = 0 /\
  Crdt.revoked_dids (crdt h') = ∅ /\ trust_level h' <> Revoked /\
  Contamination.incidents (Contamination.core (cce h')) = ∅.
Proof.
  unfold init. destruct (register_schemas _ _ _) as [c|e] eqn:Hc; [|done].
  apply register_schemas_frame in Hc as (Hdag & Hdoc & Hlam & Hrev). cbn. intros [= <-].
  split_and!; try done.
Qed.

(** ** Revocation, across the components *)

(** A device started by [init] and what happened to it since. *)
Definition started (config : DeploymentConfig) (id : Identity.IdentityManager) (db : Persistent)
    (ops : list (Op * Ambient)) h : Prop :=
  exists mesh h0, init config id db mesh = Ok h0 /\ h = run is_blank h0 ops.

Lemma started_facts config id db ops h :
  started config id db ops h ->
  identity h = id /\ Crdt.author_did (crdt h) = Identity.did id /\
  Revocation.sub_wf sha256_bytes (revocation h) /\
  Revocation.threshold_m (revocation h) = Nat.max (revocation_m config) 1.
Proof.
  intros (mesh & h0 & Hinit & ->). destruct (init_initial _ _ _ _ _ Hinit) as [Hi _ He Hr _ _ _ _ _].
  destruct (run_components h0 ops) as [Ci _ Ce _ _ _ _ [evs Cr] _].
  split; [congruence|]. split.
  - destruct (engine_moves_after _ _ Ce) as [-> _ _]. by destruct (engine_moves_after _ _ He) as [-> _ _].
  - pose proof (Revocation.run_spec sha256_bytes (revocation h0) evs) as Hs. rewrite Cr.
    rewrite Hr in *. destruct (Revocation.run _ _ evs) as [s es].
    destruct Hs as (Hwf & Hm & _); [apply Revocation.new_sub_wf|]. cbn [fst]. by rewrite Hm.
Qed.

(** A valid revocation is carried out in one call, and the CRDT engine and the trust level
    follow. *)
Lemma process_revocation_applied h rev_delta a :
  Revocation.sub_wf sha256_bytes (revocation h) -> (0 < Revocation.threshold_m (revocation h))%nat ->
  Revocation.validate_revocation_delta sha256_bytes (revocation h) rev_delta = Ok tt ->
  let h' := (process_revocation h rev_delta a).1 in
  Revocation.target_did rev_delta ∈ Crdt.revoked_dids (crdt h') /\
  (Revocation.target_did rev_delta = local_did h -> trust_level h' = Revoked).
Proof.
  intros Hwf Hm Hval. cbn zeta. unfold process_revocation, Revocation.process_incoming_delta.
  pose proof (Revocation.validated_is_applied_spec sha256_bytes
    (Dag.nodes_by_author (Crdt.dag (crdt h)) (Revocation.target_did rev_delta)) (revocation h) rev_delta (now_micros a)
    Hwf Hm Hval) as Happ.
  destruct (Revocation.process _ _ _ _ _) as [[r effects] result]. destruct Happ as [-> _].
  pose proof (moves_components _ _ _ (moves_effects (fun _ => True) (set_revocation h r) (now_micros a) effects)) as Hc.
  pose proof (ca_identity _ _ _ Hc) as Hid. cbn [identity set_revocation] in Hid.
  set (h1 := foldl _ _ effects) in *. clearbody h1.
  change (local_did (set_crdt h1 _)) with (local_did h1). unfold local_did. rewrite Hid.
  case_bool_decide; (split; [cbn; set_solver|done]).
Qed.

(** C22: an effective revocation of another device shuts that device out.  Once a device has
    received a revocation message that carries the threshold of valid signatures and whose target
    is not the device's own DID, no later event, whatever the host calls, the mesh delivers or the
    jobs replay, adds a node of the target to the DAG: every one there is later was there when the
    message had been processed.  The revocation of the device itself is left out because it is
    different: a revoked device that presents a valid token may write again, and its writes are
    nodes of the target ([revoked_device_locked_out] says what holds until it does). *)
Theorem revoked_author_shut_out (config : DeploymentConfig) (id : Identity.IdentityManager) (db : Persistent)
    (before after : list (Op * Ambient)) (h : CoreHandle) (rev_delta : Revocation.RevocationDelta) (a : Ambient) :
  started config id db before h ->
  Revocation.validate_revocation_delta sha256_bytes (revocation h) rev_delta = Ok tt ->
  Revocation.target_did rev_delta <> Identity.did id ->
  let h1 := (receive_inbound h (Mesh.InboundRevocationDelta rev_delta) a).1 in
  forall delta_id row, Dag.dag_nodes (Crdt.dag (crdt (run is_blank h1 after))) !! delta_id = Some row ->
  Dag.r_author_did row = Revocation.target_did rev_delta ->
  exists row1, Dag.dag_nodes (Crdt.dag (crdt h1)) !! delta_id = Some row1 /\ Dag.r_author_did row1 = Dag.r_author_did row.
Proof.
  intros Hst Hval Hne h1 delta_id row Hrow Hauthor.
  destruct (started_facts _ _ _ _ _ Hst) as (_ & Hdid & Hwf & Hm).
  assert (Crdt.author_did (crdt h1) = Identity.did id) as Hdid1.
  { rewrite <- Hdid. apply (ea_did _ _ (engine_moves_after _ _ (ca_engine _ _ _ (moves_components _ _ _
      (moves_receive_inbound (fun _ => True) h (Mesh.InboundRevocationDelta rev_delta) a (fun _ => I)))))). }
  destruct (process_revocation_applied h rev_delta a Hwf ltac:(lia) Hval) as [Hin _].
  change (process_revocation h rev_delta a).1 with h1 in Hin.
  pose proof (engine_moves_after _ _ (ca_engine _ _ _ (run_components h1 after))) as [_ _ Hrows].
  destruct (Hrows _ _ Hrow) as [Hown|[Hnot|?]]; [|rewrite Hauthor in Hnot|done]; [|done].
  exfalso. congruence.
Qed.

(** C10: A revoked device is locked out of its own data.  Once a valid revocation of the device
    itself has been received, then for as long as the host presents no token, whatever else
    happens, [write], [read] and [query] answer with an authorisation failure, and [write]
    changes nothing. *)
Theorem revoked_device_locked_out (number_eqb : Number -> Number -> bool) (config : DeploymentConfig)
    (id : Identity.IdentityManager) (db : Persistent) (before after : list (Op * Ambient)) (h : CoreHandle)
    (rev_delta : Revocation.RevocationDelta) (a : Ambient) :
  started config id db before h ->
  Revocation.validate_revocation_delta sha256_bytes (revocation h) rev_delta = Ok tt ->
  Revocation.target_did rev_delta = Identity.did id ->
  (forall token_hex a', (OpPresentToken token_hex, a') ∉ after) ->
  let h1 := (receive_inbound h (Mesh.InboundRevocationDelta rev_delta) a).1 in
  let h2 := run is_blank h1 after in
  let refused {A} : Res A := Err (AuthorisationFailed "device is REVOKED") in
  forall table key data filter a',
    write h2 table key data a' = (h2, refused) /\ read h2 table key = refused /\
    query number_eqb h2 table filter = refused.
Proof.
  intros Hst Hval Hself Hno h1 h2 refused table key data filter a'.
  destruct (started_facts _ _ _ _ _ Hst) as (Hid & _ & Hwf & Hm).
  destruct (process_revocation_applied h rev_delta a Hwf ltac:(lia) Hval) as [_ Hl].
  change (process_revocation h rev_delta a).1 with h1 in Hl.
  assert (trust_level h2 = Revoked) as Htrust.
  { unfold trust_level in *. destruct (ca_capability _ _ _ (run_components h1 after)) as (cops & Hall & Hc).
    fold h2 in Hc. rewrite Hc. rewrite Forall_forall in Hall. apply Capability.revoked_sticky.
    - apply Hl. unfold local_did. congruence.
    - intros token secs micros Hin. destruct (Hall _ Hin) as (token_hex & a1 & Hin'). by apply (Hno token_hex a1). }
  assert (ensure_local_trust_allows_io h2 = Err (AuthorisationFailed "device is REVOKED")) as He.
  { unfold ensure_local_trust_allows_io. unfold trust_level in Htrust. by rewrite bool_decide_eq_true_2. }
  unfold write, read, query. rewrite He. done.
Qed.

(** A revocation that the mesh carries as the payload of a Delta is not seen by who receives it: the
    Delta has no author and no signature, and is rejected or quarantined. *)
Lemma gossiped_revocation_ignored h rev_delta a :
  let h' := (receive_inbound h (Mesh.InboundDelta (revocation_wrapper rev_delta)) a).1 in
  revocation h' = revocation h /\ capability h' = capability h /\ store h' = store h /\
  Crdt.revoked_dids (crdt h') = Crdt.revoked_dids (crdt h).
Proof.
  cbn zeta. cbn [receive_inbound]. set (delta := revocation_wrapper rev_delta). unfold inbound_delta, Crdt.apply_incoming_delta.
  pose proof (Crdt.apply_outcome_spec zstd_encode canonical_json delta_to_json error_to_string (crdt h) delta (now_micros a)) as Ho.
  destruct (Crdt.apply _ _ _ _ _ _ _) as [[c records] outcome]. destruct Ho as [_ Hr].
  destruct Hr as [Hc Hout]; [by intros (_ & _ & Hv)|].
  destruct Hout as [(reason & -> & _)|(record & -> & _)]; cbn [fst]; [|by rewrite Hc].
  destruct (Migration.quarantine_incoming _ _ _ _ _ _ _) as [m r]. cbn. by rewrite Hc.
Qed.

End Device.
End Device.

(** * On the sample deployment *)

Section Witness.
Import Core Sample Device.

Definition OpWriteRow (key : string) : Op := OpWrite "people" key (JString "ada").

(** The writer's first write, then a cloud cycle and a second write. *)
Definition busy : list (Op * Ambient) :=
  [(OpWriteRow "name", clock 1); (OpCloudSync, clock 2); (OpWriteRow "surname", clock 3)].

Lemma device_refines_components_witness :
  let h := run never writer busy in
  CloudLedger.committed_count (cloud_ledger h) = 1%nat /\
  exists sends, cloud_ledger h = ledger_serve
    (CloudLedger.new_in_memory (Identity.signing_key (identity 1)) (Identity.did (identity 1)) 0%N) sends.
Proof.
  split; [vm_compute; reflexivity|].
  destruct (device_refines_components never config (identity 1) empty_file (Some (10%nat, [])) writer busy
    (from_ok_eq (Sample.started 1) eq_refl)) as (_ & _ & _ & _ & _ & Hl & _). exact Hl.
Defined.

Lemma rows_stay_typed_witness :
  let h := run never writer busy in
  (exists v, read h "people" "name" =
     Ok (mkQueryResult "people" "name" v (Capability.unverified_warning (capability h)) false)) /\
  read h "people" "age" = Err (LocalStoreWriteFailed "key not found in table").
Proof.
  destruct (rows_stay_typed never (fun _ _ => false) config (identity 1) empty_file (Some (10%nat, [])) writer busy
    (from_ok_eq (Sample.started 1) eq_refl)) as [Hr _].
  - intros t k text Ht. unfold Projection.text_at, Projection.row_at in Ht. destruct (Projection.sql_name t); discriminate Ht.
  - intros v text Ht. destruct v; cbn in Ht; try discriminate Ht; injection Ht as <-.
    + by eexists.
    + destruct b; by eexists.
    + cbn. unfold json_value. repeat case_bool_decide; try (by eexists).
    + cbn. unfold json_value. repeat case_bool_decide; try (by eexists).
  - vm_compute. discriminate.
  - split.
    + specialize (Hr "people" "name"). set (row := Projection.row_at _ _ _) in Hr.
      assert (is_Some row) as [r Hrow] by (vm_compute; by eexists). rewrite Hrow in Hr.
      destruct Hr as [v Hr]. exists v. exact Hr.
    + specialize (Hr "people" "age"). set (row := Projection.row_at _ _ _) in Hr.
      assert (row = None) as Hrow by (vm_compute; reflexivity). rewrite Hrow in Hr. exact Hr.
Defined.

Lemma restart_forgets_witness :
  let h := run never writer [(OpWriteRow "name", clock 1)] in
  length (Durability.cloud_queue (durability h)) = 1%nat /\
  exists h' : CoreHandle (C := nat * list bytes), init config (identity 1) (persistent h) None = Ok h' /\ Durability.cloud_queue (durability h') = [] /\
    Store.read json_of_string (store h') "people" "name" = Ok (Some (JString "ada")).
Proof.
  split; [vm_compute; reflexivity|].
  destruct (init config (identity 1) (persistent (run never writer [(OpWriteRow "name", clock 1)])) None) as [h'|e] eqn:Hi.
  - destruct (restart_forgets config (identity 1) _ None h' Hi) as ([Hs _ _ _] & Hq & _ & _ & _ & _ & Ht & _).
    exists h'. split; [done|]. split; [exact Hq|]. rewrite Hs. reflexivity.
  - exfalso. discriminate Hi.
Defined.

(** A revocation of a DID, signed by the manager with key 2. *)
Definition revoked_by_two (target : Did) : Revocation.RevocationDelta :=
  Revocation.mkRevDelta target (flat_map (fun ev => Revocation.signatures (Revocation.i_delta ev))
    (Revocation.partial sha256_bytes target 9 <$> [[2]]%N)) 9.

Lemma revoked_author_shut_out_witness :
  let rev_delta := revoked_by_two (Identity.did (identity 2)) in
  let h1 := (receive_inbound writer (Mesh.InboundRevocationDelta rev_delta) (clock 1)).1 in
  let h2 := run never h1 busy in
  size (Dag.dag_nodes (Crdt.dag (crdt h2))) = 2%nat /\
  forall delta_id row, Dag.dag_nodes (Crdt.dag (crdt h2)) !! delta_id = Some row ->
    Dag.r_author_did row = Identity.did (identity 2) -> False.
Proof.
  split; [vm_compute; reflexivity|]. intros delta_id row Hrow Ha.
  destruct (revoked_author_shut_out never config (identity 1) empty_file [] busy writer
    (revoked_by_two (Identity.did (identity 2))) (clock 1)) with delta_id row as (row1 & Hrow1 & _).
  - exists (Some (10%nat, [])), writer. split; [exact (from_ok_eq (Sample.started 1) eq_refl)|done].
  - vm_compute. reflexivity.
  - vm_compute. discriminate.
  - exact Hrow.
  - exact Ha.
  - assert (Dag.dag_nodes (Crdt.dag (crdt (receive_inbound writer (Mesh.InboundRevocationDelta
      (revoked_by_two (Identity.did (identity 2)))) (clock 1)).1)) = ∅) as Hempty by reflexivity.
    rewrite Hempty in Hrow1. rewrite lookup_empty in Hrow1. discriminate Hrow1.
Defined.

Lemma revoked_device_locked_out_witness :
  let rev_delta := revoked_by_two (Identity.did (identity 1)) in
  let h1 := (receive_inbound writer (Mesh.InboundRevocationDelta rev_delta) (clock 1)).1 in
  let h2 := run never h1 busy in
  is_ok (write writer "people" "name" (JString "ada") (clock 1)).2 = true /\
  read h2 "people" "name" = Err (AuthorisationFailed "device is REVOKED").
Proof.
  split; [vm_compute; reflexivity|].
  refine (proj1 (proj2 (revoked_device_locked_out never (fun _ _ => false) config (identity 1) empty_file [] busy writer
    (revoked_by_two (Identity.did (identity 1))) (clock 1) _ _ _ _ "people" "name" JNull None (clock 4)))).
  - exists (Some (10%nat, [])), writer. split; [exact (from_ok_eq (Sample.started 1) eq_refl)|done].
  - vm_compute. reflexivity.
  - reflexivity.
  - intros token_hex a' Hin. repeat (apply elem_of_cons in Hin as [?|Hin]; [done|]). by apply elem_of_nil in Hin.
Defined.
End Witness.

