(* ===== verification/Delivery.v ===== *)
(** * One write, followed through

    [write] on every branch, and what becomes of a successful write: on the channel of the mesh, in
    the projection of a peer that receives it, in the ledger after a cloud cycle, and in tier 1
    when enough peers have answered with their receipts. *)

From S2P Require Import Prelude Types Projection Scheduler Fragment Dag Identity Auth Revocation Saturate Contamination Schema SchemaText.
From S2P Require Import Automerge Verify Crdt Ledgers Migration CloudQueue Durability CloudLedger Transport Store Sandbox Core Sample.

Module Delivery.
Import Trust Core.

Section Delivery.
#[local] Existing Instance Contamination.grows_preorder.
Context `{!Automerge} `{!Bs58} `{!Ed25519} `{!BiscuitLib} `{!SerdeJson} `{!Codecs}.
Context `{!LruCache (string * string) Session.ResumptionCredential} `{!Noise} `{!SelectOrder}.
Context `{!HashIter N Z} `{!HashIter string nat} `{!HashIter N (list (option Fragment.DeltaFragment))}.
Context `{!HashIter string Discovery.PeerState} `{!HashIter N Contamination.IncidentContextObject}.
Context `{!HashIter N Contamination.CompositeIncidentInstance}.
Context {C : Type} `{!Outbound C}.

Implicit Types h : CoreHandle (C := C).

(** ** The rows *)

(** The text of a row, whatever its contamination flag. *)
Definition stores (pr : Projection.Projection) (table key text : string) : Prop :=
  Projection.p_data_json <$> Projection.row_at pr table key = Some text.

Lemma store_write_stores pr table key v pr' :
  Store.write json_to_string pr table key v = (pr', Ok tt) ->
  exists text, json_to_string v = Some text /\ stores pr' table key text.
Proof.
  intros Hw. apply Store.write_spec in Hw as [(text & flag & Ht & _ & _ & Hrow)|(_ & _ & reason & [=])].
  exists text. split; [done|]. unfold stores. rewrite Hrow. by rewrite decide_True.
Qed.

(** A row is there under a name that SQL takes. *)
Lemma stores_name pr table key text : stores pr table key text -> Projection.sql_name table = true.
Proof. unfold stores, Projection.row_at. by destruct (Projection.sql_name table). Qed.

Lemma read_stores pr table key text v :
  stores pr table key text -> json_of_string text = Some v -> Store.read json_of_string pr table key = Ok (Some v).
Proof.
  intros Hs Hv. rewrite Store.read_row_at by (by eapply stores_name). unfold stores in Hs.
  destruct (Projection.row_at pr table key) as [r|]; [|done]. cbn in Hs. injection Hs as ->. by rewrite Hv.
Qed.

Lemma stores_mark_rows pr rows table key text :
  stores pr table key text -> stores (Contamination.mark_rows pr rows) table key text.
Proof.
  unfold stores. rewrite Contamination.row_at_mark_rows. case_decide; [|done].
  by destruct (Projection.row_at pr table key).
Qed.

(** The node of a Delta, with the serialised Delta it keeps. *)
Definition holds h (id : DeltaId) (bs : option bytes) : Prop :=
  exists row, Dag.dag_nodes (Crdt.dag (crdt h)) !! id = Some row /\ Dag.r_delta_bytes row = bs.

(** Tagging a root keeps what the rows say and the nodes there are. *)
Lemma tag_root_keeps h root source now :
  let h' := tag_contamination_root h root source now in
  (forall table key text, stores (store h) table key text -> stores (store h') table key text) /\
  (forall id bs, holds h id bs -> holds h' id bs) /\
  durability h' = durability h /\ transport h' = transport h /\ identity h' = identity h /\
  capability h' = capability h /\ migration h' = migration h /\ cloud_ledger h' = cloud_ledger h.
Proof.
  cbn zeta. unfold tag_contamination_root, with_cce.
  pose proof (Contamination.tag_root_result incident_ids (cce_view h) root source now) as Hr.
  destruct (Contamination.tag_contamination_root _ _ _ _ _) as [c r]. destruct Hr as (Hdb & Hproj & _). cbn [fst].
  split_and!; try done.
  - intros table key text Hs. cbn. rewrite Hproj. by apply stores_mark_rows.
  - intros id bs (row & Hrow & Hbs). unfold holds. cbn. rewrite Hdb.
    destruct (Contamination.g_rows _ _ _ (Contamination.append_all_grows (fun _ _ => True) (Crdt.dag (crdt h))
      (Contamination.walk_dag_descendants (Crdt.dag (crdt h)) root)
      (Contaminated root (incident_ids (Contamination.next (Contamination.core (cce_view h)))))
      (fun _ _ => I)) id) as (more & _ & Hx).
    eexists. split; [etrans; [exact Hx|by rewrite Hrow]|exact Hbs].
Qed.

(** ** [write], branch by branch *)

(** The tags a write signs into its Delta. *)
Definition write_tags h (table key : string) : list DeltaTag :=
  match human_reaction_tag h table key with Some t => [t] | None => [] end.

(** What the document and the signature make of a write. *)
Record produced h (table key : string) (data : Json) (delta : Delta) : Prop := {
  pr_document : exists e1 b, Crdt.write_scalar json_to_string (crdt h) table key data = (e1, Ok b) /\
    d_automerge_bytes delta = b;
  pr_author : d_author_did delta = Crdt.author_did (crdt h);
  pr_schema : d_schema_hash delta = Crdt.known_schema_hash (crdt h);
  pr_tags : d_tags delta = write_tags h table key;
  pr_lamport : d_lamport delta = wrap_u64 (Crdt.lamport (crdt h) + 1);
  pr_signed : d_signature delta = ed_sign (Crdt.secret_key (crdt h)) (Crdt.canonical_bytes canonical_json delta);
  pr_stored : is_ok (zstd_encode (d_automerge_bytes delta)) = true
}.

(** [h'] has the node of the Delta; one that [h] did not have yet keeps the serialised Delta. *)
Definition recorded h h' (delta : Delta) : Prop :=
  exists bs, holds h' (d_id delta) bs /\
    (Dag.dag_nodes (Crdt.dag (crdt h)) !! d_id delta = None -> bs = delta_to_json delta).

Lemma maybe_compact_same (e : CrdtEngine) table policy :
  let e' := (Crdt.maybe_compact e table policy).1 in
  Crdt.author_did e' = Crdt.author_did e /\ Crdt.secret_key e' = Crdt.secret_key e /\ Crdt.lamport e' = Crdt.lamport e /\
  Crdt.known_schema_hash e' = Crdt.known_schema_hash e /\
  forall id, Dag.dag_nodes (Crdt.dag e) !! id = None -> Dag.dag_nodes (Crdt.dag e') !! id = None.
Proof.
  cbn zeta. unfold Crdt.maybe_compact. destruct (am_get_changes _) as [d cs]. destruct (Schema.should_compact _ _); [|done].
  unfold Crdt.compact_table. destruct (am_save _) as [d1 b1], (am_save d1). split_and!; [done..|].
  intros id Hid. cbn. by rewrite lookup_fmap, Hid.
Qed.

Lemma insert_node zstd (db : Dag.Tables) node db' :
  Dag.insert zstd db node = (db', Ok tt) ->
  is_ok (zstd (Dag.payload node)) = true /\
  exists row, Dag.dag_nodes db' !! Dag.delta_id node = Some row /\
    (Dag.dag_nodes db !! Dag.delta_id node = None -> Dag.r_delta_bytes row = Dag.delta_bytes node).
Proof.
  unfold Dag.insert, Dag.compress_payload. destruct (zstd _); [|done]. cbn. intros [= <-]. split; [done|]. cbn.
  destruct (Dag.dag_nodes db !! Dag.delta_id node) as [row|] eqn:E; [by exists row|].
  rewrite lookup_insert_eq. by eexists.
Qed.

Lemma produce_produced h table key data e1 b c compacted e' delta now :
  Crdt.write_scalar json_to_string (crdt h) table key data = (e1, Ok b) ->
  Crdt.maybe_compact e1 table (Crdt.compaction_policy_for e1 table) = (c, compacted) ->
  Crdt.produce_delta_with_tags zstd_encode canonical_json sha256 delta_to_json c b Low [] (write_tags h table key) now =
    (e', Ok delta) ->
  produced h table key data delta /\
  exists row, Dag.dag_nodes (Crdt.dag e') !! d_id delta = Some row /\
    (Dag.dag_nodes (Crdt.dag (crdt h)) !! d_id delta = None -> Dag.r_delta_bytes row = delta_to_json delta).
Proof.
  intros Hw Hc Hp.
  pose proof (Crdt.write_scalar_frame json_to_string (crdt h) table key data) as Hf. rewrite Hw in Hf. cbn [fst] in Hf.
  pose proof (maybe_compact_same e1 table (Crdt.compaction_policy_for e1 table)) as Hs. rewrite Hc in Hs. cbn [fst] in Hs.
  destruct Hs as (Ha & Hk & Hl & Hh & Hnone).
  apply Crdt.produce_spec in Hp as (Hl' & Hdl & Hda & Hds & Hdb & Hdt & _ & _ & Hsig & g & Hins & ->).
  apply insert_node in Hins as [Hz Hnode]. rewrite Hf in Ha, Hk, Hl, Hh. cbn in Ha, Hk, Hl, Hh, Hz, Hnode.
  split; [split; try congruence; by eexists _, _|]. destruct Hnode as (row & Hrow & Hb). exists row. split; [exact Hrow|].
  intros Hfresh. apply Hb, Hnone. by rewrite Hf.
Qed.

(** The durability subsystem once the Delta is registered. *)
Definition registered (d : Durability.DurabilitySubsystem) (delta : Delta) (compacted : bool)
  : Durability.DurabilitySubsystem :=
  let d := (Durability.register_delta d (d_id delta) (d_id delta) (default [] (delta_to_json delta))
              (d_causal_parents delta) ∅).1 in
  if compacted then Durability.set_queue d (CloudQueue.mark_compacted (Durability.cloud_queue d) (d_id delta)) else d.

Lemma registered_facts d delta compacted :
  (Durability.register_delta d (d_id delta) (d_id delta) (default [] (delta_to_json delta)) (d_causal_parents delta) ∅).2 =
    Ok tt ->
  Durability.durability_tier (registered d delta compacted) (d_id delta) = Durability.Uncommitted /\
  d_id delta ∈ CloudQueue.ids (Durability.cloud_queue (registered d delta compacted)).
Proof.
  unfold registered, Durability.register_delta, CloudQueue.enqueue. cbn [Durability.cloud_queue Durability.set_states].
  destruct (_ >=? _); [done|]. intros _. cbn [fst]. split.
  - unfold Durability.durability_tier. destruct compacted; cbn; by rewrite lookup_insert_eq.
  - assert (d_id delta ∈ CloudQueue.ids (Durability.cloud_queue d ++
      [CloudQueue.new_entry (d_id delta) (default [] (delta_to_json delta)) (d_causal_parents delta)])) as Hin.
    { unfold CloudQueue.ids. rewrite map_app. apply elem_of_app. right. left. }
    destruct compacted; [|exact Hin]. cbn. unfold CloudQueue.mark_compacted.
    by rewrite DurabilityProofs.ids_update_first by done.
Qed.

(** What [register_written] does with the Delta. *)
Lemma register_written_cases h table delta tag compacted a :
  let '(h', r) := register_written h table delta tag compacted a in
  (forall tbl key text, stores (store h) tbl key text -> stores (store h') tbl key text) /\
  (forall id bs, holds h id bs -> holds h' id bs) /\
  cloud_ledger h' = cloud_ledger h /\
  match r with
  | Ok res => res = mkWriteResult (d_id delta) Durability.Uncommitted (Capability.unverified_warning (capability h)) /\
      (Durability.register_delta (durability h) (d_id delta) (d_id delta) (default [] (delta_to_json delta))
         (d_causal_parents delta) ∅).2 = Ok tt /\
      durability h' = registered (durability h) delta compacted /\
      transport h' = (Mesh.send_delta delta_to_json gossip_to_bytes (transport h) (local_did h) delta).1
  | Err e => e = CloudQueueFull (CloudQueue.depth (Durability.cloud_queue (durability h))) /\
      Durability.cloud_queue (durability h') = Durability.cloud_queue (durability h) /\ transport h' = transport h
  end.
Proof.
  unfold register_written.
  set (h1 := match tag with Some (ContaminatedByHumanReaction _) => _ | _ => h end).
  assert ((forall tbl key text, stores (store h) tbl key text -> stores (store h1) tbl key text) /\
    (forall id bs, holds h id bs -> holds h1 id bs) /\
    durability h1 = durability h /\ transport h1 = transport h /\ identity h1 = identity h /\
    capability h1 = capability h /\ cloud_ledger h1 = cloud_ledger h) as (Hs & Hn & Hd & Ht & Hi & Hc & Hl).
  { unfold h1. destruct tag as [[]|]; try done.
    destruct (tag_root_keeps h (d_id delta) (Contamination.HumanReaction incident_id) (now_micros a))
      as (? & ? & ? & ? & ? & ? & _ & ?). by split_and!; auto. }
  clearbody h1. rewrite <- Hd, <- Ht, <- Hc. unfold local_did. rewrite <- Hi. clear Hd Ht Hc Hi.
  unfold registered. unfold Durability.register_delta, CloudQueue.enqueue.
  cbn [Durability.cloud_queue Durability.set_states].
  destruct (_ >=? _); [by split_and!|]. cbn [fst snd].
  destruct (Migration.record_corrupted_window_write _ _ _ _ _) as [m r].
  destruct (Mesh.send_delta _ _ (transport _) _ delta) as [t r']. by repeat split.
Qed.

Lemma write_cases h (table key : string) (data : Json) (a : Ambient) :
  let '(h', r) := write h table key data a in
  match r with
  | Ok res => trust_level h <> Revoked /\ exists text delta compacted,
      json_to_string data = Some text /\ stores (store h') table key text /\
      produced h table key data delta /\ recorded h h' delta /\ cloud_ledger h' = cloud_ledger h /\
      res = mkWriteResult (d_id delta) Durability.Uncommitted (Capability.unverified_warning (capability h)) /\
      (Durability.register_delta (durability h) (d_id delta) (d_id delta) (default [] (delta_to_json delta))
         (d_causal_parents delta) ∅).2 = Ok tt /\
      durability h' = registered (durability h) delta compacted /\
      transport h' = (Mesh.send_delta delta_to_json gossip_to_bytes (transport h) (local_did h) delta).1
  | Err e => transport h' = transport h /\
      Durability.cloud_queue (durability h') = Durability.cloud_queue (durability h) /\
      (h' = h /\ (trust_level h = Revoked \/ json_to_string data = None \/ Projection.sql_name table = false) \/
       trust_level h <> Revoked /\
       exists text, json_to_string data = Some text /\ stores (store h') table key text /\
         (durability h' = durability h \/
          e = CloudQueueFull (CloudQueue.depth (Durability.cloud_queue (durability h))) /\
          exists delta, produced h table key data delta /\ recorded h h' delta))
  end.
Proof.
  unfold write, ensure_local_trust_allows_io. case_bool_decide as Htrust; [split_and!; auto|].
  destruct (Store.write json_to_string (store h) table key data) as [rows [[]|e]] eqn:Hs.
  2:{ apply Store.write_spec in Hs as [(? & ? & _ & _ & [=] & _)|(_ & Hwhy & _)]. split_and!; auto. }
  apply store_write_stores in Hs as (text & Htext & Hrow).
  change (human_reaction_tag (set_store h rows) table key) with (human_reaction_tag h table key).
  change (crdt (set_store h rows)) with (crdt h).
  destruct (Crdt.write_scalar json_to_string (crdt h) table key data) as [e1 [b|err]] eqn:Hw.
  2:{ split_and!; [done..|]. right. split; [done|]. exists text. by split_and!; auto. }
  destruct (Crdt.maybe_compact e1 table (Crdt.compaction_policy_for e1 table)) as [c compacted] eqn:Hc.
  destruct (Crdt.produce_delta_with_tags zstd_encode canonical_json sha256 delta_to_json c b Low []
    (match human_reaction_tag h table key with Some t => [t] | None => [] end) (now_micros a)) as [c3 [delta|err]] eqn:Hp.
  2:{ split_and!; [done..|]. right. split; [done|]. exists text. by split_and!; auto. }
  pose proof (produce_produced _ _ _ _ _ _ _ _ _ _ _ Hw Hc Hp) as (Hprod & row & Hnode & Hfresh).
  pose proof (register_written_cases (set_crdt (set_store h rows) c3) table delta (human_reaction_tag h table key) compacted a)
    as Hreg.
  destruct (register_written _ _ _ _ _ _) as [h' r]. destruct Hreg as (Hst & Hn & Hl & Hr).
  assert (recorded h h' delta) as Hrec by (exists (Dag.r_delta_bytes row); split; [apply Hn; by exists row|done]).
  destruct r as [res|err].
  - destruct Hr as (-> & Ht & Hq & Hsend). split; [done|]. exists text, delta, compacted. split_and!; auto.
  - destruct Hr as (-> & Hq & Hsend). split_and!; [done..|]. right. split; [done|]. exists text. split_and!; auto.
    right. split; [done|]. by exists delta.
Qed.

(** C4: [write] on every branch.  A successful write has put the row's text into the table it was
    written to, a Delta signed by this device under its current schema into the DAG, an entry
    for it into the cloud queue, its tier is [Uncommitted], and it was handed to the transport.
    A failed write has sent nothing.  It has changed nothing when the device is revoked, the
    value cannot be serialised or the table's name breaks the SQL statement; otherwise the row stays in the table although the write failed,
    and when it is the cloud queue that is full the Delta stays in the DAG as well, neither
    queued nor sent. *)
Theorem write_outcome h (table key : string) (data : Json) (a : Ambient) :
  let '(h', r) := write h table key data a in
  match r with
  | Ok res => trust_level h <> Revoked /\ exists text delta, json_to_string data = Some text /\
      stores (store h') table key text /\ produced h table key data delta /\ recorded h h' delta /\
      res = mkWriteResult (d_id delta) Durability.Uncommitted (Capability.unverified_warning (capability h)) /\
      Durability.durability_tier (durability h') (d_id delta) = Durability.Uncommitted /\
      d_id delta ∈ CloudQueue.ids (Durability.cloud_queue (durability h')) /\
      transport h' = (Mesh.send_delta delta_to_json gossip_to_bytes (transport h) (local_did h) delta).1
  | Err e => transport h' = transport h /\
      Durability.cloud_queue (durability h') = Durability.cloud_queue (durability h) /\
      (h' = h /\ (trust_level h = Revoked \/ json_to_string data = None \/ Projection.sql_name table = false) \/
       trust_level h <> Revoked /\
       exists text, json_to_string data = Some text /\ stores (store h') table key text /\
         (durability h' = durability h \/
          e = CloudQueueFull (CloudQueue.depth (Durability.cloud_queue (durability h))) /\
          exists delta, produced h table key data delta /\ recorded h h' delta))
  end.
Proof.
  pose proof (write_cases h table key data a) as Hc. destruct (write h table key data a) as [h' [res|e]]; [|exact Hc].
  destruct Hc as (Ht & text & delta & compacted & Hx & Hs & Hp & Hr & _ & -> & Hreg & Hd & Hsend).
  destruct (registered_facts _ _ compacted Hreg) as [Htier Hq]. rewrite <- Hd in Htier, Hq.
  split; [done|]. by exists text, delta.
Qed.

(** ** At a peer *)

(** What a receiver makes of a value that the document holds as this scalar: text that reads as
    JSON becomes the value it spells. *)
Definition retyped (v : Json) : Json :=
  match v with JString s => default (JString s) (json_of_string s) | other => other end.

(** The engine merges the document without a conflict and then reads these keys as it does. *)
Definition merges_cleanly (e : CrdtEngine) (d : Doc) (keys : list string) : Prop :=
  exists m, am_merge (Crdt.doc e) d = (m, None) /\
    Verify.lww (Verify.capture_conflicts (Crdt.doc e) d) = [] /\ Verify.rga (Verify.capture_conflicts (Crdt.doc e) d) = [] /\
    forall k, k ∈ keys -> am_get m k = am_get d k.

Lemma apply_doc (e : CrdtEngine) delta now d keys :
  Crdt.accepted canonical_json e delta -> Crdt.load_incoming_doc (d_automerge_bytes delta) = Some d ->
  merges_cleanly e d keys ->
  forall k, k ∈ keys ->
  am_get (Crdt.doc (Crdt.apply zstd_encode canonical_json delta_to_json error_to_string e delta now).1.1) k = am_get d k.
Proof.
  intros Hacc Hload (m & Hm & Hl & Hr & Hk) k Hin. unfold Crdt.apply.
  destruct (Crdt.gate_spec canonical_json error_to_string e delta) as [[_ [pk ->]]|[Hn _]]; [|done].
  set (e0 := if match Crdt.classify_incoming_schema _ _ with Crdt.Additive => true | _ => false end then _ else e).
  assert (Crdt.doc e0 = Crdt.doc e) as Hd by (unfold e0; by destruct (Crdt.classify_incoming_schema _ _)). clearbody e0.
  assert (Crdt.merge_document e0 delta = (Crdt.set_doc e0 m, Ok tt)) as ->.
  { unfold Crdt.merge_document. by rewrite Hload, Hd, Hm, Hl, Hr. }
  match goal with |- context [Crdt.insert_dag_node _ _ ?x delta] => set (e2 := x) end.
  destruct (Crdt.insert_dag_node zstd_encode delta_to_json e2 delta) as [e3 r] eqn:Hi.
  apply Crdt.insert_dag_node_frame in Hi as [-> _]. destruct r; cbn; by apply Hk.
Qed.

(** The receipt a device issues for a Delta it has merged. *)
Definition issued (id : Identity.IdentityManager) (delta_id : DeltaId) (a : Ambient) : Receipt.DurabilityReceipt :=
  Receipt.mkReceipt (uuid a) delta_id (Identity.did id)
    (ed_sign (Identity.signing_key id) (Receipt.receipt_signing_payload delta_id (uuid a))) None None (now_micros a).

Lemma issue_sends h delta_id a :
  transport (issue_durability_receipt h delta_id a) =
    (Mesh.send_receipt gossip_to_bytes (transport h) (issued (identity h) delta_id a)).1.
Proof. done. Qed.

(** A Delta whose document names its row last ends up in that row. *)
Lemma inbound_projects h delta a d table key sv v text id1 id2 id3 :
  Crdt.accepted canonical_json (crdt h) delta -> is_ok (zstd_encode (d_automerge_bytes delta)) = true ->
  d_automerge_bytes delta <> [] -> json_of_bytes (d_automerge_bytes delta) = None ->
  am_load (d_automerge_bytes delta) = Some d ->
  merges_cleanly (crdt h) d ["_tirbase_table"; "_tirbase_key"; key] ->
  am_get d "_tirbase_table" = Some (VScalar (SStr table), id1) ->
  am_get d "_tirbase_key" = Some (VScalar (SStr key), id2) ->
  am_get d key = Some (VScalar sv, id3) ->
  match sv with SBytes _ | SCounter _ | STimestamp _ | SUnknown _ _ => False | _ => True end ->
  v = retyped (Crdt.json_of_scalar hex_encode sv) -> json_to_string v = Some text ->
  Projection.sql_name table = true ->
  let '(h', r) := inbound_delta h delta a in
  r = Ok tt /\ stores (store h') table key text /\ capability h' = capability h /\ inbound_rx h' = inbound_rx h /\
  is_Some (Dag.dag_nodes (Crdt.dag (crdt h')) !! d_id delta) /\
  exists h1, h' = issue_durability_receipt h1 (d_id delta) a /\ transport h1 = transport h /\ identity h1 = identity h.
Proof.
  intros Hacc Hz Hne Hbin Hload Hmerge Ht Hk Hv Hsv -> Htext Hname. unfold inbound_delta, Crdt.apply_incoming_delta.
  assert (Crdt.load_incoming_doc (d_automerge_bytes delta) = Some d) as Hl
    by (unfold Crdt.load_incoming_doc; by destruct (d_automerge_bytes delta)).
  pose proof (apply_doc (crdt h) delta (now_micros a) d _ Hacc Hl Hmerge) as Hdoc.
  pose proof (Crdt.apply_outcome_spec zstd_encode canonical_json delta_to_json error_to_string (crdt h) delta (now_micros a)) as Ho.
  destruct (Crdt.apply _ _ _ _ (crdt h) delta (now_micros a)) as [[c records] outcome]. destruct Ho as [Ho _].
  destruct (Ho Hacc) as (-> & _ & Hst & _). cbn [fst] in Hdoc.
  destruct Hst as (-> & _ & Hnode & _).
  { split; [|done]. intros d0 Hd0. rewrite Hl in Hd0. injection Hd0 as <-. by destruct Hmerge as (m & -> & _). }
  set (h1 := emit_records (set_crdt h c) []).
  assert (forall k sv0 id, k ∈ ["_tirbase_table"; "_tirbase_key"; key] -> am_get d k = Some (VScalar sv0, id) ->
    match sv0 with SBytes _ | SCounter _ | STimestamp _ | SUnknown _ _ => True
    | _ => Crdt.read_scalar hex_encode (crdt h1) k = Some (Crdt.json_of_scalar hex_encode sv0) end) as Hread.
  { intros k sv0 id Hin Hget. eapply Crdt.read_scalar_get. change (crdt h1) with c. by rewrite Hdoc. }
  assert (project_merged h1 delta = store_write h1 table key (retyped (Crdt.json_of_scalar hex_encode sv))) as ->.
  { unfold project_merged. destruct (d_automerge_bytes delta) as [|x b]; [done|]. rewrite Hbin. unfold project_document.
    rewrite (Hread "_tirbase_table" (SStr table) id1 ltac:(set_solver) Ht),
      (Hread "_tirbase_key" (SStr key) id2 ltac:(set_solver) Hk). cbn [Crdt.json_of_scalar as_str].
    specialize (Hread key sv id3 ltac:(set_solver) Hv). unfold retyped. destruct sv; done || by rewrite Hread. }
  set (h2 := store_write h1 table key _).
  assert (stores (store h2) table key text) as Hs2.
  { unfold h2, store_write. destruct (Store.write json_to_string (store h1) table key _) as [rows [[]|e]] eqn:Hw.
    - apply store_write_stores in Hw as (text' & Htext' & Hs). rewrite Htext in Htext'. by injection Htext' as <-.
    - apply Store.write_spec in Hw as [(? & ? & _ & _ & [=] & _)|(_ & [Hn|Hn] & _)]; congruence. }
  assert (store (issue_durability_receipt h2 (d_id delta) a) = store h2 /\
    capability (issue_durability_receipt h2 (d_id delta) a) = capability h /\
    inbound_rx (issue_durability_receipt h2 (d_id delta) a) = inbound_rx h /\
    crdt (issue_durability_receipt h2 (d_id delta) a) = c) as (E1 & E2 & E3 & E4).
  { unfold issue_durability_receipt. by destruct (Keypair.sign _ _). }
  split_and!; [done|by rewrite E1|done|done|by rewrite E4|]. by exists h2.
Qed.

(** ** From a write to a peer *)

(** What the codecs of the other crates are relied on for: a gossiped Delta reads back, and a saved
    document is neither empty nor JSON text. *)
Record codec_laws : Prop := {
  cl_gossip : forall d, gossip_from_bytes (gossip_to_bytes (Mesh.InboundDelta d)) = Some (Mesh.InboundDelta d);
  cl_binary : forall d, (am_save d).2 <> [] /\ json_of_bytes (am_save d).2 = None
}.

(** The payload of a Delta comes in and the channel, empty before, is drained. *)
Definition deliver h (delta : Delta) (a : Ambient) : CoreHandle (C := C) :=
  (process_inbound_messages (on_gossip h (gossip_to_bytes (Mesh.InboundDelta delta))) a).1.

Lemma deliver_inbound h delta a :
  gossip_from_bytes (gossip_to_bytes (Mesh.InboundDelta delta)) = Some (Mesh.InboundDelta delta) -> inbound_rx h = [] ->
  deliver h delta a = (inbound_delta (set_inbound (set_transport h (transport h)) []) delta a).1.
Proof.
  intros Hg Hrx. unfold deliver, process_inbound_messages, on_gossip, Mesh.on_gossip. rewrite Hg, Hrx.
  cbn [Mesh.process_wire_message app].
  change (drain ?x (inbound_rx (set_inbound _ ?l)) a 0) with (drain x l a 0). cbn [drain receive_inbound].
  change (set_inbound (set_inbound (set_transport h (transport h)) [Mesh.InboundDelta delta]) [])
    with (set_inbound (set_transport h (transport h)) []).
  by destruct (inbound_delta _ delta a) as [h' [[]|e]].
Qed.

(** C3: A write reaches a peer.  The Delta of a successful write is handed to the transport; at any
    device that has not revoked the writer, knows the writer's current schema and can merge the
    document without a conflict, receiving its payload makes the row readable under the same
    table and key, stores the Delta and sends a signed receipt for it.  The value read is the one written, as the scalar the
    document holds, except that text which is itself JSON is read as what it spells. *)
Theorem write_reaches_peer `{Hlaws : !AutomergeLaws} `{Hsaved : !AutomergeSaved} (writer peer : CoreHandle (C := C))
    (table key : string) (data : Json) (a b : Ambient) (writer' : CoreHandle (C := C)) (res : WriteResult)
    (sv : ScalarValue) (text : string) :
  codec_laws ->
  Crdt.author_did (crdt writer) = Did.derive_did (ed_public (Crdt.secret_key (crdt writer))) ->
  write writer table key data a = (writer', Ok res) ->
  Crdt.scalar_of_json json_to_string data = Ok (Some sv) -> key <> "_tirbase_table" -> key <> "_tirbase_key" ->
  let v := retyped (Crdt.json_of_scalar hex_encode sv) in
  json_to_string v = Some text -> json_of_string text = Some v ->
  trust_level peer <> Revoked -> inbound_rx peer = [] ->
  Crdt.author_did (crdt writer) ∉ Crdt.revoked_dids (crdt peer) ->
  Crdt.known_schema_hash (crdt writer) ∈ Crdt.known_schemas (crdt peer) ->
  (forall bs d, (Crdt.write_scalar json_to_string (crdt writer) table key data).2 = Ok bs -> am_load bs = Some d ->
     merges_cleanly (crdt peer) d ["_tirbase_table"; "_tirbase_key"; key]) ->
  exists delta, wr_delta_id res = d_id delta /\
    transport writer' = (Mesh.send_delta delta_to_json gossip_to_bytes (transport writer) (local_did writer) delta).1 /\
    let peer' := deliver peer delta b in
    read peer' table key = Ok (mkQueryResult table key v (Capability.unverified_warning (capability peer)) false) /\
    is_Some (Dag.dag_nodes (Crdt.dag (crdt peer')) !! d_id delta) /\
    transport peer' = (Mesh.send_receipt gossip_to_bytes (transport peer) (issued (identity peer) (d_id delta) b)).1.
Proof.
  intros [Hgossip Hbinary] Hauthor Hwrite Hsv Hkt Hkk v Htext Hback Htrust Hrx Hrev Hknown Hmerge.
  pose proof (write_cases writer table key data a) as Hcases. rewrite Hwrite in Hcases.
  destruct Hcases as (_ & text0 & delta & _ & _ & Hrow & Hprod & _ & _ & -> & _ & _ & Hsend).
  apply stores_name in Hrow as Hname. exists delta. split; [done|]. split; [done|]. cbn zeta.
  destruct Hprod as [(e1 & bs & Hws & Hbytes) Hda Hds _ _ Hsig Hz].
  destruct (Crdt.write_scalar_doc json_to_string Hlaws _ _ _ _ _ _ Hws)
    as (v0 & d & Hv0 & _ & -> & Hget & Ht & Hk & _).
  rewrite Hsv in Hv0. injection Hv0 as <-.
  destruct (Hget sv eq_refl) as [id3 Hg3]. destruct (Ht Hkt) as [id1 Hg1]. destruct (Hk Hkk) as [id2 Hg2].
  destruct (Hsaved d) as (d' & Hload & Hsame). rewrite <- Hsame in Hg1, Hg2, Hg3.
  rewrite deliver_inbound by done.
  pose proof (inbound_projects (set_inbound (set_transport peer (transport peer)) []) delta b d' table key sv v text
    id1 id2 id3) as Hproj.
  destruct (inbound_delta _ delta b) as [peer' r]. destruct Hproj as (-> & Hst & Hcap & _ & Hnode & h1 & -> & Ht1 & Hi1); try done.
  - eapply (Crdt.signed_accepted canonical_json); [by rewrite Hda|done|by rewrite Hda|by rewrite Hds].
  - rewrite Hbytes. apply Hbinary.
  - rewrite Hbytes. apply Hbinary.
  - by rewrite Hbytes.
  - apply (Hmerge (am_save d).2 d'); [by rewrite Hws|done].
  - clear -Hsv. destruct sv; try done; destruct data; cbn in Hsv; repeat case_match; congruence.
  - cbn [fst]. split; [|split; [done|by rewrite issue_sends, Ht1, Hi1]]. unfold read, ensure_local_trust_allows_io. rewrite Hcap.
    change (capability (set_inbound _ _)) with (capability peer).
    unfold trust_level in Htrust. rewrite bool_decide_eq_false_2 by done. cbn [mbind result_bind].
    by rewrite (read_stores _ _ _ _ _ Hst Hback).
Qed.

(** ** Back to the writer: tier 1 *)

(** A Delta that has the untagged receipts of these issuers, and no other. *)
Record counting (cfg : Quorum.QuorumConfig) (delta_id : DeltaId) (issuers : list Did)
    (d : Durability.DurabilitySubsystem) : Prop := {
  co_anchor : Durability.anchor d = None;
  co_state : exists keys q, Durability.states d !! delta_id = Some
      (let reached := bool_decide (Quorum.k cfg <= length issuers)%nat in
       Durability.mkState delta_id (if reached then Durability.Tier1 else Durability.Uncommitted) keys q reached) /\
    Quorum.config q = cfg /\ length (Quorum.receipts q) = length issuers /\
    Quorum.seen_issuers q = list_to_set issuers /\ Spatial.tag_counts (Quorum.spatial q) = ∅ /\
    Quorum.tier1_achieved q = bool_decide (Quorum.k cfg <= length issuers)%nat
}.

(** Receipts without a tag are always diverse enough. *)
Lemma untagged_diverse (s : Spatial.SpatialDiversityTracker) m f total :
  Spatial.tag_counts s = ∅ -> (m = 0%nat -> total <> 0%nat) -> Spatial.satisfies_diversity s m f total = Ok true.
Proof.
  intros Hs Hm. unfold Spatial.satisfies_diversity, Spatial.distinct_tag_count. rewrite Hs, map_size_empty.
  destruct (Nat.ltb_spec 0 m) as [|Hle]; [done|]. destruct (Nat.eqb_spec total 0) as [H0'|_]; [exfalso; apply Hm; lia|].
  assert (hm_iter (∅ : gmap string nat) = []) as ->; [|done].
  apply nil_length_inv. by rewrite length_hm_iter.
Qed.

Lemma add_untagged q (r : Receipt.DurabilityReceipt) n :
  (0 < Quorum.k (Quorum.config q))%nat -> length (Quorum.receipts q) = n -> Receipt.spatial_tag r = None ->
  Receipt.issuer_did r ∉ Quorum.seen_issuers q -> Spatial.tag_counts (Quorum.spatial q) = ∅ ->
  let reached m := bool_decide (Quorum.k (Quorum.config q) <= m)%nat in
  Quorum.tier1_achieved q = reached n ->
  let '(q', res) := Quorum.add_receipt_with_tag q r None in
  res = Ok (reached (S n) && negb (reached n)) /\ Quorum.config q' = Quorum.config q /\
  length (Quorum.receipts q') = S n /\ Quorum.seen_issuers q' = {[Receipt.issuer_did r]} ∪ Quorum.seen_issuers q /\
  Spatial.tag_counts (Quorum.spatial q') = ∅ /\ Quorum.tier1_achieved q' = reached (S n).
Proof.
  intros Hk Hn Htag Hnew Htags reached Hach. unfold Quorum.add_receipt_with_tag. rewrite decide_False, Htag by done.
  cbn [Quorum.tier1_achieved Quorum.receipts Quorum.config Quorum.spatial Spatial.add].
  rewrite Hach, length_app, Hn. cbn [length]. rewrite Nat.add_1_r. unfold reached.
  rewrite untagged_diverse; [|exact Htags|done].
  destruct (Nat.leb_spec (Quorum.k (Quorum.config q)) (S n)).
  - rewrite (bool_decide_eq_true_2 (_ <= S n)%nat) by lia.
    destruct (bool_decide_reflect (Quorum.k (Quorum.config q) <= n)%nat); cbn;
      by rewrite ?length_app, ?Hn, ?Nat.add_1_r.
  - rewrite andb_false_r, !bool_decide_eq_false_2 by lia. cbn. by rewrite length_app, Hn, Nat.add_1_r.
Qed.

Lemma counting_step cfg delta_id issuers d id a now :
  (0 < Quorum.k cfg)%nat -> counting cfg delta_id issuers d ->
  Identity.did id = Did.derive_did (ed_public (Identity.signing_key id)) -> Identity.did id ∉ issuers ->
  counting cfg delta_id (Identity.did id :: issuers) (Durability.inbound_receipt d (issued id delta_id a) now).1.
Proof.
  intros Hk [Ha (keys & q & Hst & Hcfg & Hlen & Hseen & Htags & Hach)] Hdid Hnew.
  set (r := issued id delta_id a).
  assert (Did.resolve_did (Receipt.issuer_did r) = Ok (ed_public (Identity.signing_key id))) as Hres.
  { cbn. rewrite Hdid. apply Did.resolve_derive; [apply ed_public_length|apply ed_public_bytes]. }
  assert (Receipt.verify_receipt r (ed_public (Identity.signing_key id)) delta_id = Ok tt) as Hv.
  { apply Receipt.verify_receipt_ok. split; [done|]. apply Keypair.verify_sign. }
  pose proof (add_untagged q r (length issuers)) as Hadd. rewrite Hcfg, Hseen in Hadd.
  specialize (Hadd Hk Hlen eq_refl ltac:(set_solver) Htags Hach).
  unfold Durability.inbound_receipt. rewrite Hres. change (Receipt.state_hash r) with delta_id.
  change (Receipt.issuer_did r) with (Identity.did id) in *.
  unfold Durability.receive_receipt, Durability.register_peer_key. change (Receipt.issuer_did r) with (Identity.did id).
  cbn [Durability.states Durability.set_states Durability.anchor].
  rewrite lookup_alter_eq, Hst. cbn [fmap option_fmap option_map Durability.peer_public_keys Durability.ds_state_hash].
  rewrite lookup_insert_eq, Hv, Ha. cbn [Durability.diversity_tag Durability.quorum Durability.tier Durability.compaction_permitted].
  destruct (Quorum.add_receipt_with_tag q r None) as [q' res].
  destruct Hadd as (-> & Hc' & Hl' & Hs' & Ht' & Ha').
  destruct (bool_decide_reflect (Quorum.k cfg <= length issuers)%nat) as [Hold|Hold];
    [rewrite andb_false_r|rewrite andb_true_r]; cbn [andb].
  - split; [done|]. eexists _, q'. cbn. rewrite lookup_insert_eq, bool_decide_eq_true_2 by lia.
    split; [done|]. split_and!; try done. by rewrite Ha', bool_decide_eq_true_2 by lia.
  - destruct (bool_decide_reflect (Quorum.k cfg <= S (length issuers))%nat) as [Hnow|Hnow]; cbn [andb].
    + split; [done|]. eexists _, q'. cbn.
      rewrite lookup_insert_eq, bool_decide_eq_true_2 by lia. by split_and!.
    + split; [done|]. eexists _, q'. cbn. rewrite lookup_insert_eq, bool_decide_eq_false_2 by lia. by split_and!.
Qed.

(** The writer takes these receipts in, one after the other. *)
Definition collect h (receipts : list Receipt.DurabilityReceipt) (a : Ambient) : CoreHandle (C := C) :=
  foldl (fun h r => (receive_inbound h (Mesh.InboundDurabilityReceipt r) a).1) h receipts.

Lemma collect_counting cfg delta_id peers b a h issuers :
  (0 < Quorum.k cfg)%nat -> counting cfg delta_id issuers (durability h) ->
  Forall (fun p => Identity.did p = Did.derive_did (ed_public (Identity.signing_key p))) peers ->
  NoDup (map Identity.did peers) -> (forall p, p ∈ peers -> Identity.did p ∉ issuers) ->
  counting cfg delta_id (rev (map Identity.did peers) ++ issuers)
    (durability (collect h (map (fun p => issued p delta_id b) peers) a)).
Proof.
  intros Hk. revert h issuers. induction peers as [|p peers IH]; intros h issuers Hc Hall Hnd Hnew; [exact Hc|].
  inversion_clear Hall as [|? ? Hp Hps]. cbn [map] in Hnd. apply NoDup_cons in Hnd as [Hnotin Hnd].
  cbn [map rev]. rewrite <- app_assoc. cbn [app]. unfold collect. cbn [map foldl]. apply IH; [|done..|].
  - cbn [receive_inbound]. pose proof (counting_step cfg delta_id issuers (durability h) p b (now_secs a) Hk Hc Hp
      (Hnew p ltac:(left))) as Hstep.
    destruct (Durability.inbound_receipt _ _ _) as [d tiers]. exact Hstep.
  - intros p' Hin [Heq|Hold]%elem_of_cons; [|by eapply Hnew; [right|]].
    apply Hnotin. rewrite <- Heq. apply list_elem_of_fmap. by exists p'.
Qed.

Lemma registered_counting d delta compacted :
  Durability.anchor d = None -> (0 < Quorum.k (Durability.quorum_config d))%nat ->
  counting (Durability.quorum_config d) (d_id delta) [] (registered d delta compacted).
Proof.
  intros Ha Hk. unfold registered, Durability.register_delta.
  destruct (CloudQueue.enqueue _ _) as [q r]. split; [by destruct compacted|].
  exists ∅, (Quorum.new (Durability.quorum_config d)).
  assert (bool_decide (Quorum.k (Durability.quorum_config d) <= length (@nil Did))%nat = false) as ->
    by (apply bool_decide_eq_false_2; cbn; lia).
  by destruct compacted; cbn; rewrite lookup_insert_eq.
Qed.

(** C23: receipts take a write to tier 1.  On a device without beacons, when a successful write's Delta has
    come back with the receipts of distinct peers, its tier is [Tier1] exactly when there are at
    least [quorum_k] of them; receipts issued by [issue_durability_receipt] carry no tag, so the
    diversity the deployment asks for plays no part. *)
Theorem receipts_reach_tier1 (writer writer' : CoreHandle (C := C)) (table key : string) (data : Json)
    (a b c : Ambient) (res : WriteResult) (peers : list Identity.IdentityManager) :
  Durability.anchor (durability writer) = None -> (0 < Quorum.k (Durability.quorum_config (durability writer)))%nat ->
  write writer table key data a = (writer', Ok res) ->
  Forall (fun p => Identity.did p = Did.derive_did (ed_public (Identity.signing_key p))) peers ->
  NoDup (map Identity.did peers) ->
  let final := collect writer' (map (fun p => issued p (wr_delta_id res) b) peers) c in
  Durability.durability_tier (durability final) (wr_delta_id res) =
    (if bool_decide (Quorum.k (Durability.quorum_config (durability writer)) <= length peers)%nat then Durability.Tier1
     else Durability.Uncommitted).
Proof.
  intros Ha Hk Hwrite Hall Hnd. cbn zeta. pose proof (write_cases writer table key data a) as Hcases.
  rewrite Hwrite in Hcases. destruct Hcases as (_ & _ & delta & compacted & _ & _ & _ & _ & _ & -> & _ & Hdur & _).
  cbn [wr_delta_id]. pose proof (registered_counting (durability writer) delta compacted Ha Hk) as Hc.
  rewrite <- Hdur in Hc.
  destruct (collect_counting _ _ peers b c _ _ Hk Hc Hall Hnd ltac:(set_solver)) as [_ (keys & q & Hst & _)].
  unfold Durability.durability_tier. rewrite Hst. cbn [Durability.tier].
  by rewrite length_app, length_rev, length_map, Nat.add_0_r.
Qed.

(** ** In the ledger: tier 2 *)

Lemma registered_alone d delta compacted :
  Durability.cloud_queue d = [] ->
  exists e, Durability.cloud_queue (registered d delta compacted) = [e] /\
    CloudQueue.q_delta_id e = d_id delta /\ CloudQueue.q_causal_parents e = d_causal_parents delta /\
    CloudQueue.q_tier2_durable e = false /\
    CloudQueue.q_delta_bytes e = (if compacted then None else Some (default [] (delta_to_json delta))) /\
    CloudQueue.q_compacted e = compacted.
Proof.
  intros Hq. unfold registered, Durability.register_delta, CloudQueue.enqueue.
  cbn [Durability.cloud_queue Durability.set_states]. rewrite Hq.
  destruct compacted; [|by eexists; repeat split]. cbn [CloudQueue.depth length app].
  change (Z.of_nat 0 >=? CloudQueue.MAX_QUEUE_DEPTH) with false. cbn [fst].
  unfold CloudQueue.mark_compacted.
  cbn [Durability.cloud_queue Durability.set_queue CloudQueue.update_first CloudQueue.new_entry CloudQueue.q_delta_id].
  rewrite decide_True by done. by eexists; repeat split.
Qed.

(** The Delta is committed at the ledger and in its DAG. *)
Definition in_ledger h (id : DeltaId) : Prop :=
  id ∈ CloudLedger.committed (cloud_ledger h) /\
  is_Some (Dag.dag_nodes (Crdt.dag (CloudLedger.engine (cloud_ledger h))) !! id).

(** C9: A write reaches the ledger.  When nothing else waits in the cloud queue, the next cloud cycle
    after a successful write puts the Delta into the ledger's DAG, empties the queue and takes
    the Delta to tier 2, compaction of its bytes or not, provided the ledger knows the schema,
    has not revoked the writer and can merge the document. *)
Theorem write_reaches_ledger `{Hlaws : !AutomergeLaws} (writer writer' : CoreHandle (C := C)) (table key : string)
    (data : Json) (a b : Ambient) (res : WriteResult) :
  let ledger := cloud_ledger writer in
  let engine := CloudLedger.engine ledger in
  (forall d, exists bs, delta_to_json d = Some bs /\ delta_of_json bs = Some d) ->
  Crdt.author_did (crdt writer) = Did.derive_did (ed_public (Crdt.secret_key (crdt writer))) ->
  Durability.cloud_queue (durability writer) = [] ->
  write writer table key data a = (writer', Ok res) ->
  Dag.dag_nodes (Crdt.dag (crdt writer)) !! wr_delta_id res = None ->
  Forall (fun e => Z.of_nat (length (CloudQueue.q_causal_parents e)) < 2 ^ 64) (Durability.cloud_queue (durability writer')) ->
  wr_delta_id res ∉ CloudLedger.committed ledger ->
  Crdt.author_did (crdt writer) ∉ Crdt.revoked_dids engine ->
  Crdt.known_schema_hash (crdt writer) ∈ Crdt.known_schemas engine ->
  (forall bs d, (Crdt.write_scalar json_to_string (crdt writer) table key data).2 = Ok bs ->
     Crdt.load_incoming_doc bs = Some d -> (am_merge (Crdt.doc engine) d).2 = None) ->
  let '(final, _) := run_cloud_sync_cycle writer' b in
  Durability.durability_tier (durability final) (wr_delta_id res) = Durability.Tier2 /\
  Durability.cloud_queue (durability final) = [] /\ in_ledger final (wr_delta_id res).
Proof.
  cbn zeta. intros Hjson Hauthor Hempty Hwrite Hfresh Hparents Hnew Hrev Hknown Hmerge.
  pose proof (write_cases writer table key data a) as Hcases. rewrite Hwrite in Hcases.
  destruct Hcases as (_ & _ & delta & compacted & _ & _ & Hprod & (row_bytes & (row & Hrow & Hrb) & Hrec) & Hl & -> & Hreg & Hdur & _).
  cbn [wr_delta_id] in *. destruct (Hjson delta) as (bs & Hbs & Hback).
  destruct (registered_alone (durability writer) delta compacted Hempty) as (e & Hq & Hid & Hpar & Ht2 & Hb & Hcomp).
  destruct (registered_facts _ _ compacted Hreg) as [Htier _]. rewrite <- Hdur in Hq, Htier.
  rewrite Hq in Hparents. apply Forall_cons in Hparents as [Hparents _].
  destruct Hprod as [(e1 & bytes & Hws & Hbytes) Hda Hds _ _ Hsig Hz].
  pose proof (CloudLedger.send_stored zstd_encode canonical_json delta_to_json delta_of_json error_to_string hex_encode
    (cloud_ledger writer) (now_micros b) bs delta Hback Hnew) as Hsend.
  destruct (CloudLedger.send _ _ _ _ _ _ _ _ bs) as [l' answer] eqn:Hs. destruct Hsend as (-> & Hcom & Hled).
  { eapply (Crdt.signed_accepted canonical_json); [by rewrite Hda|done|by rewrite Hda|by rewrite Hds]. }
  { split; [|done]. intros d. rewrite Hbytes. apply (Hmerge bytes d). by rewrite Hws. }
  unfold run_cloud_sync_cycle, Durability.run_cloud_sync_cycle, Durability.cloud_queue_depth. rewrite Hq.
  cbn [CloudQueue.depth length Nat.eqb].
  erewrite (CloudQueue.sync_single _ e (cloud_ledger writer') l' bs tt); [|done|done| |].
  - cbn [Durability.ack_all CloudQueue.acknowledged_ids foldl fst snd]. unfold Durability.on_cloud_ack. cbn.
    rewrite Hid. unfold Durability.durability_tier in *. cbn. rewrite lookup_alter_eq.
    destruct (Durability.states (durability writer') !! d_id delta) eqn:Hst; [done|].
    rewrite Hdur in Hst. exfalso. revert Hst. clear. unfold registered, Durability.register_delta.
    destruct (CloudQueue.enqueue _ _). by destruct compacted; cbn; rewrite lookup_insert_eq.
  - unfold CloudQueue.resolve_bytes. rewrite Hb, Hcomp. destruct compacted; [|by rewrite Hbs].
    rewrite Hid. unfold Crdt.refetch_delta_bytes, Dag.refetch_bytes. rewrite Hrow. cbn. rewrite Hrb, Hrec by done. done.
  - cbn [CloudQueue.send_delta CloudLedger.CloudLedgerConnection]. by rewrite Hl.
Qed.

End Delivery.
End Delivery.

(** * The writer's row on the sample deployment *)

Section Witness.
Import Core Sample Delivery.

#[local] Existing Instance Registers.registers_laws.
#[local] Existing Instance Registers.registers_saved.

Lemma sample_codec_laws : codec_laws.
Proof. split; [intros d; cbn; by rewrite unpack_pack|intros d; by split]. Qed.

Definition written : CoreHandle (C := nat * list bytes) * Res WriteResult :=
  write writer "people" "name" (JString "ada") (clock 1).
Definition written_bytes : bytes :=
  match (Crdt.write_scalar json_to_string (crdt writer) "people" "name" (JString "ada")).2 with Ok b => b | Err _ => [] end.
Definition written_doc : Doc := default (am_new []) (am_load written_bytes).

Lemma written_doc_eq bs d :
  (Crdt.write_scalar json_to_string (crdt writer) "people" "name" (JString "ada")).2 = Ok bs -> am_load bs = Some d ->
  d = written_doc.
Proof. intros Hbs Hd. unfold written_doc, written_bytes. by rewrite Hbs, Hd. Qed.

Lemma written_merges : merges_cleanly (crdt peer) written_doc ["_tirbase_table"; "_tirbase_key"; "name"].
Proof.
  exists (am_merge (Crdt.doc (crdt peer)) written_doc).1. split_and!.
  - rewrite (surjective_pairing (am_merge _ _)) at 1. f_equal.
  - vm_compute. done.
  - vm_compute. done.
  - intros k Hk. repeat (apply elem_of_cons in Hk as [->|Hk]; [vm_compute; reflexivity|]). by apply elem_of_nil in Hk.
Qed.

Lemma write_reaches_peer_witness :
  exists res delta, written.2 = Ok res /\ wr_delta_id res = d_id delta /\
    read (deliver peer delta (clock 2)) "people" "name" =
      Ok (mkQueryResult "people" "name" (JString "ada") None false).
Proof.
  assert (is_ok written.2 = true) as Hok by (vm_compute; reflexivity).
  unfold written in *. destruct (write _ _ _ _ _) as [w [res|e]] eqn:Hw; [|done].
  destruct (write_reaches_peer writer peer "people" "name" (JString "ada") (clock 1) (clock 2) w res (SStr "ada") "sada")
    as (delta & Hid & _ & Hread & _); [apply sample_codec_laws|reflexivity|exact Hw|reflexivity|done|done|reflexivity|reflexivity
      |vm_compute; discriminate|reflexivity|by apply (bool_decide_unpack _)|by apply (bool_decide_unpack _)|..].
  - intros bs d Hbs Hd. rewrite (written_doc_eq _ _ Hbs Hd). apply written_merges.
  - exists res, delta. split; [done|]. split; [done|]. rewrite Hread. reflexivity.
Defined.

Lemma receipts_reach_tier1_witness :
  exists w res, written = (w, Ok res) /\
    let final := collect w (map (fun p => issued p (wr_delta_id res) (clock 2)) [identity 2]) (clock 3) in
    Durability.durability_tier (durability w) (wr_delta_id res) = Durability.Uncommitted /\
    Durability.durability_tier (durability final) (wr_delta_id res) = Durability.Tier1.
Proof.
  assert (is_ok written.2 = true) as Hok by (vm_compute; reflexivity).
  pose proof (receipts_reach_tier1 writer written.1 "people" "name" (JString "ada") (clock 1) (clock 2) (clock 3)) as Ht.
  unfold written in *. destruct (write _ _ _ _ _) as [w [res|e]] eqn:Hw; [|done]. exists w, res. split; [done|].
  specialize (Ht res). split.
  - specialize (Ht [] eq_refl ltac:(vm_compute; lia) eq_refl (Forall_nil_2 _) (NoDup_nil_2)). exact Ht.
  - apply (Ht [identity 2] eq_refl ltac:(vm_compute; lia) eq_refl).
    + apply Forall_singleton. reflexivity.
    + apply NoDup_singleton.
Defined.

Lemma write_reaches_ledger_witness :
  exists w res, written = (w, Ok res) /\
    let final := (run_cloud_sync_cycle w (clock 2)).1 in
    Durability.durability_tier (durability final) (wr_delta_id res) = Durability.Tier2 /\
    in_ledger final (wr_delta_id res).
Proof.
  assert (is_ok written.2 = true) as Hok by (vm_compute; reflexivity).
  assert (match written.2 with Ok res => bool_decide (Dag.dag_nodes (Crdt.dag (crdt writer)) !! wr_delta_id res = None)
    | Err _ => false end = true) as Hfresh by (vm_compute; reflexivity).
  assert (forallb (fun e => Z.of_nat (length (CloudQueue.q_causal_parents e)) <? 2 ^ 64)
    (Durability.cloud_queue (durability written.1)) = true) as Hparents by (vm_compute; reflexivity).
  pose proof (write_reaches_ledger writer written.1 "people" "name" (JString "ada") (clock 1) (clock 2)) as Ht.
  unfold written in *. destruct (write _ _ _ _ _) as [w [res|e]] eqn:Hw; [|done]. exists w, res. split; [done|].
  specialize (Ht res). cbn [fst snd] in *. destruct (run_cloud_sync_cycle w (clock 2)) as [final r] eqn:Hf.
  destruct Ht as (Htier & _ & Hin); [..|by split].
  - intros d. exists (pack d). split; [done|]. cbn. by rewrite unpack_pack.
  - reflexivity.
  - reflexivity.
  - reflexivity.
  - by apply bool_decide_eq_true in Hfresh.
  - apply Forall_forall. intros e He. rewrite forallb_forall in Hparents. apply Z.ltb_lt, Hparents.
    by apply list_elem_of_In.
  - apply not_elem_of_empty.
  - apply not_elem_of_empty.
  - by apply (bool_decide_unpack _).
  - intros bs d _ _. reflexivity.
Defined.
End Witness.
