(* ===== verification/Interop.v ===== *)
(** * A write from one build to the other

    What the native handle of [Core] and the browser handle of [Browser] write, and what either makes
    of it when it comes in: the row arrives whichever build wrote it. *)

From S2P Require Import Prelude Types Projection Scheduler Fragment Dag Identity Auth Revocation Saturate Contamination Schema SchemaText.
From S2P Require Import Automerge Verify Crdt BrowserCrdt BrowserTaint Ledgers Migration CloudQueue Durability.
From S2P Require Import CloudLedger Transport Store Sandbox Core Sample Browser Tab TabLife Delivery.

Module Interop.
Import Trust Delivery.

Section Interop.
Context `{!Automerge} `{!Bs58} `{!Ed25519} `{!BiscuitLib} `{!SerdeJson} `{!Codecs} `{!WasmRuntime} `{!IdbCursor}.
Context `{!LruCache (string * string) Session.ResumptionCredential} `{!Noise} `{!SelectOrder}.
Context `{!HashIter N Z} `{!HashIter string nat} `{!HashIter N (list (option Fragment.DeltaFragment))}.
Context `{!HashIter string Discovery.PeerState} `{!HashIter N Contamination.IncidentContextObject}.
Context `{!HashIter N Contamination.CompositeIncidentInstance} `{!HashIter (string * string) N}.
Context {C : Type} `{!Outbound C}.

Implicit Types h : Core.CoreHandle (C := C).
Implicit Types t : Browser.CoreHandle (C := C).

(** ** What is sent *)

(** The Delta of a write on an engine, of either build. *)
Record written_by (e : CrdtEngine) (table key : string) (data : Json) (delta : Delta) : Prop := {
  wb_document : exists e1, Crdt.write_scalar json_to_string e table key data = (e1, Ok (d_automerge_bytes delta));
  wb_author : d_author_did delta = Crdt.author_did e;
  wb_schema : d_schema_hash delta = Crdt.known_schema_hash e;
  wb_signed : d_signature delta = ed_sign (Crdt.secret_key e) (Crdt.canonical_bytes canonical_json delta)
}.

Lemma device_written h (table key : string) (data : Json) (a : Ambient) h' res :
  Core.write h table key data a = (h', Ok res) ->
  Projection.sql_name table = true /\
  exists delta, Core.wr_delta_id res = d_id delta /\ written_by (Core.crdt h) table key data delta.
Proof.
  intros Hw. pose proof (write_cases h table key data a) as Hc. rewrite Hw in Hc.
  destruct Hc as (_ & text & delta & _ & _ & Hrow & [(e1 & b & Hws & <-) Ha Hs _ _ Hsig _] & _ & _ & -> & _).
  split; [by eapply stores_name|]. exists delta. split; [done|]. split; try done. by exists e1.
Qed.

Lemma tab_produced (e : CrdtEngine) b prio parents tags now e' delta :
  BrowserCrdt.produce_delta_with_tags canonical_json sha256 e b prio parents tags now = (e', Ok delta) ->
  d_automerge_bytes delta = b /\ d_author_did delta = Crdt.author_did e /\ d_schema_hash delta = Crdt.known_schema_hash e /\
  d_signature delta = ed_sign (Crdt.secret_key e) (Crdt.canonical_bytes canonical_json delta).
Proof. unfold BrowserCrdt.produce_delta_with_tags, Keypair.sign, BrowserCrdt.insert_dag_node. by intros [= _ <-]. Qed.

Lemma tab_written t (table key : string) (data : Json) (a : Ambient) t' res :
  Browser.write t table key data a = (t', Ok res) ->
  exists delta, Core.wr_delta_id res = d_id delta /\ written_by (Browser.crdt t) table key data delta.
Proof.
  unfold Browser.write. destruct (Browser.ensure_local_trust_allows_io t); [|done].
  destruct (Store.wasm_write _ _ _ _ _) as [s [[]|e]]; [|done]. change (Browser.crdt (Browser.set_store t s)) with (Browser.crdt t).
  destruct (Crdt.write_scalar json_to_string (Browser.crdt t) table key data) as [c [b|e]] eqn:Hws; [|done].
  pose proof (Crdt.write_scalar_frame json_to_string (Browser.crdt t) table key data) as Hf. rewrite Hws in Hf. cbn [fst] in Hf.
  set (t1 := Browser.set_crdt (Browser.set_store t s) c).
  assert (exists d, Browser.crdt (Browser.compact_after_write t1 table (Core.now_micros a)).1 = Crdt.set_doc (Browser.crdt t) d)
    as (d & Hd).
  { unfold Browser.compact_after_write. destruct (Store.kv _); [|exists (Crdt.doc c); exact Hf].
    unfold BrowserCrdt.maybe_compact. destruct (am_get_changes _) as [d cs].
    destruct (BrowserCrdt.should_compact_idb _ _); [unfold BrowserCrdt.compact_table_idb; destruct (am_save d)|];
      cbn; rewrite Hf; by eexists. }
  destruct (Browser.compact_after_write t1 table _) as [t2 compacted]. cbn [fst] in Hd.
  destruct (BrowserCrdt.produce_delta_with_tags _ _ _ _ _ _ _ _) as [c3 [delta|e]] eqn:Hp; [|done].
  apply tab_produced in Hp as (Hb & Ha & Hs & Hsig). rewrite Hd in Ha, Hs, Hsig.
  match goal with |- context [Browser.register_written ?x _ _ _ ?tg _ _] =>
    pose proof (TabLife.register_written_spec x table key delta tg compacted a) as Hreg;
    destruct (Browser.register_written x table key delta tg compacted a) as [t3 r] end.
  intros [= -> ->]. destruct Hreg as (_ & _ & _ & _ & Hq). exists delta. split.
  - destruct (_ <=? _); destruct Hq as [Hq _]; [done|]. by injection Hq as ->.
  - split; [exists c; by rewrite Hb|done..].
Qed.

(** ** What comes in *)

(** The document of a written Delta, as a receiver loads it. *)
Lemma written_document `{Hlaws : !AutomergeLaws} `{Hsaved : !AutomergeSaved} e table key data delta sv :
  written_by e table key data delta -> Crdt.scalar_of_json json_to_string data = Ok (Some sv) ->
  key <> "_tirbase_table" -> key <> "_tirbase_key" -> codec_laws ->
  d_automerge_bytes delta <> [] /\ json_of_bytes (d_automerge_bytes delta) = None /\
  exists d id1 id2 id3, am_load (d_automerge_bytes delta) = Some d /\
    am_get d "_tirbase_table" = Some (VScalar (SStr table), id1) /\
    am_get d "_tirbase_key" = Some (VScalar (SStr key), id2) /\ am_get d key = Some (VScalar sv, id3) /\
    match sv with SBytes _ | SCounter _ | STimestamp _ | SUnknown _ _ => False | _ => True end.
Proof.
  intros [(e1 & Hws) _ _ _] Hsv Hkt Hkk [_ Hbin].
  destruct (Crdt.write_scalar_doc json_to_string Hlaws _ _ _ _ _ _ Hws) as (v0 & d & Hv0 & _ & -> & Hget & Ht & Hk & _).
  rewrite Hsv in Hv0. injection Hv0 as <-. destruct (Hget sv eq_refl) as [id3 Hg3].
  destruct (Ht Hkt) as [id1 Hg1]. destruct (Hk Hkk) as [id2 Hg2]. destruct (Hsaved d) as (d' & Hload & Hsame).
  destruct (Hbin d) as [Hne Hb]. split_and!; [done..|]. exists d', id1, id2, id3. rewrite !Hsame. split_and!; try done.
  clear -Hsv. destruct sv; try done; destruct data; cbn in Hsv; repeat case_match; congruence.
Qed.

(** A tab merges the document as a native engine does. *)
Lemma tab_apply_doc (e : CrdtEngine) delta now d keys :
  Crdt.accepted canonical_json e delta -> Crdt.load_incoming_doc (d_automerge_bytes delta) = Some d ->
  merges_cleanly e d keys ->
  exists n, (BrowserCrdt.apply canonical_json error_to_string e delta now).2 = Ok (Crdt.Merged n) /\
    (BrowserCrdt.apply canonical_json error_to_string e delta now).1.2 = [] /\
    forall k, k ∈ keys -> am_get (Crdt.doc (BrowserCrdt.apply canonical_json error_to_string e delta now).1.1) k = am_get d k.
Proof.
  intros Hacc Hload (m & Hm & Hl & Hr & Hk). unfold BrowserCrdt.apply.
  destruct (Crdt.gate_spec canonical_json error_to_string e delta) as [[_ [pk ->]]|[Hn _]]; [|done].
  set (e0 := if match Crdt.classify_incoming_schema _ _ with Crdt.Additive => true | _ => false end then _ else e).
  assert (Crdt.doc e0 = Crdt.doc e) as Hd by (unfold e0; by destruct (Crdt.classify_incoming_schema _ _)). clearbody e0.
  assert (Crdt.merge_document e0 delta = (Crdt.set_doc e0 m, Ok tt)) as ->.
  { unfold Crdt.merge_document. by rewrite Hload, Hd, Hm, Hl, Hr. }
  eexists. split; [reflexivity|]. split; [done|]. intros k Hin. by apply Hk.
Qed.

Lemma tab_projects t delta a d table key sv id1 id2 id3 text :
  Crdt.accepted canonical_json (Browser.crdt t) delta ->
  d_automerge_bytes delta <> [] -> json_of_bytes (d_automerge_bytes delta) = None ->
  am_load (d_automerge_bytes delta) = Some d ->
  merges_cleanly (Browser.crdt t) d ["_tirbase_table"; "_tirbase_key"; key] ->
  am_get d "_tirbase_table" = Some (VScalar (SStr table), id1) ->
  am_get d "_tirbase_key" = Some (VScalar (SStr key), id2) -> am_get d key = Some (VScalar sv, id3) ->
  match sv with SBytes _ | SCounter _ | STimestamp _ | SUnknown _ _ => False | _ => True end ->
  json_to_string (retyped (Crdt.json_of_scalar hex_encode sv)) = Some text ->
  exists t', Browser.inbound_delta t delta a = (t', Ok tt) /\ Browser.capability t' = Browser.capability t /\
    Store.wasm_read (Browser.store t') table key = Some (retyped (Crdt.json_of_scalar hex_encode sv)).
Proof.
  intros Hacc Hne Hbin Hload Hmerge Ht Hk Hv Hsv Htext. unfold Browser.inbound_delta, Browser.apply_incoming_delta, BrowserCrdt.apply_incoming_delta.
  assert (Crdt.load_incoming_doc (d_automerge_bytes delta) = Some d) as Hl
    by (unfold Crdt.load_incoming_doc; by destruct (d_automerge_bytes delta)).
  destruct (tab_apply_doc (Browser.crdt t) delta (Core.now_micros a) d _ Hacc Hl Hmerge) as (n & Hout & Hrec & Hdoc).
  destruct (BrowserCrdt.apply _ _ _ delta _) as [[c rs] outcome]. cbn [fst snd] in *. subst outcome rs.
  cbn [Browser.inbound_outcome]. set (t1 := Browser.record_authored_delta _ _ _).
  assert (forall k sv0 id, k ∈ ["_tirbase_table"; "_tirbase_key"; key] -> am_get d k = Some (VScalar sv0, id) ->
    match sv0 with SBytes _ | SCounter _ | STimestamp _ | SUnknown _ _ => True
    | _ => Crdt.read_scalar hex_encode (Browser.crdt t1) k = Some (Crdt.json_of_scalar hex_encode sv0) end) as Hread.
  { intros k sv0 id Hin Hget. eapply Crdt.read_scalar_get. change (Browser.crdt t1) with c. by rewrite Hdoc. }
  assert (Browser.project_merged t1 delta =
    Browser.project_row t1 (d_id delta) table key (retyped (Crdt.json_of_scalar hex_encode sv))) as ->.
  { unfold Browser.project_merged. destruct (d_automerge_bytes delta) as [|x b]; [done|]. rewrite Hbin.
    unfold Browser.project_document.
    rewrite (Hread "_tirbase_table" (SStr table) id1 ltac:(set_solver) Ht),
      (Hread "_tirbase_key" (SStr key) id2 ltac:(set_solver) Hk). cbn [Crdt.json_of_scalar Core.as_str].
    specialize (Hread key sv id3 ltac:(set_solver) Hv). unfold retyped. destruct sv; done || by rewrite Hread. }
  destruct (Durability.register_delta _ _ _ _ _ _) as [dur r]. eexists. split; [reflexivity|]. split; [done|].
  cbn [Browser.store Browser.set_durability Browser.project_row Browser.record_delta_row Browser.set_page Browser.set_taint
    Browser.set_store]. unfold Store.wasm_write. rewrite Htext. unfold Store.wasm_read, Store.insert_row. cbn [fst Store.tables].
  rewrite lookup_insert_eq. cbn. by rewrite lookup_insert_eq.
Qed.

(** ** Either way *)

(** What a receiver must be for the Delta written on [e] to reach it. *)
Definition takes (e peer : CrdtEngine) (table key : string) (data : Json) : Prop :=
  Crdt.author_did e ∉ Crdt.revoked_dids peer /\ Crdt.known_schema_hash e ∈ Crdt.known_schemas peer /\
  forall bs d, (Crdt.write_scalar json_to_string e table key data).2 = Ok bs -> am_load bs = Some d ->
    merges_cleanly peer d ["_tirbase_table"; "_tirbase_key"; key].

(** The row is there at every native device, if its table has a name that SQL takes, and at every
    tab that takes the Delta. *)
Definition arrives (e : CrdtEngine) (table key : string) (data v : Json) (delta : Delta) : Prop :=
  (forall (peer : Core.CoreHandle (C := C)) b, Projection.sql_name table = true -> Capability.trust_level (Core.capability peer) <> Revoked -> Core.inbound_rx peer = [] ->
     takes e (Core.crdt peer) table key data -> is_ok (zstd_encode (d_automerge_bytes delta)) = true ->
     Core.read (deliver peer delta b) table key =
       Ok (Core.mkQueryResult table key v (Capability.unverified_warning (Core.capability peer)) false)) /\
  (forall (tab : Browser.CoreHandle (C := C)) b, Capability.trust_level (Browser.capability tab) <> Revoked -> takes e (Browser.crdt tab) table key data ->
     exists tab', Browser.receive_peer_message tab (Mesh.InboundDelta delta) b = Some (tab', Ok tt) /\
       Browser.read tab' table key =
         Ok (Core.mkQueryResult table key v (Capability.unverified_warning (Browser.capability tab)) false)).

Lemma written_arrives `{Hlaws : !AutomergeLaws} `{Hsaved : !AutomergeSaved} (e : CrdtEngine) (table key : string)
    (data : Json) (delta : Delta) (sv : ScalarValue) (text : string) :
  codec_laws -> Crdt.author_did e = Did.derive_did (ed_public (Crdt.secret_key e)) ->
  Crdt.scalar_of_json json_to_string data = Ok (Some sv) -> key <> "_tirbase_table" -> key <> "_tirbase_key" ->
  let v := retyped (Crdt.json_of_scalar hex_encode sv) in
  json_to_string v = Some text -> json_of_string text = Some v ->
  written_by e table key data delta -> arrives e table key data v delta.
Proof.
  intros Hcodec Hauthor Hsv Hkt Hkk v Htext Hback Hwr. pose proof Hwr as [(e1 & Hws) Hda Hds Hsig].
  destruct (written_document _ _ _ _ _ _ Hwr Hsv Hkt Hkk Hcodec) as (Hne & Hbin & d & id1 & id2 & id3 & Hload & Hg1 & Hg2 & Hg3 & Hok).
  assert (forall peer, takes e peer table key data -> Crdt.accepted canonical_json peer delta /\
    merges_cleanly peer d ["_tirbase_table"; "_tirbase_key"; key]) as Htk.
  { intros peer (Hrev & Hknown & Hm). split; [|by apply (Hm (d_automerge_bytes delta) d); [rewrite Hws|]].
    eapply (Crdt.signed_accepted canonical_json); [by rewrite Hda|done|by rewrite Hda|by rewrite Hds]. }
  split.
  - intros peer b Hname Htrust Hrx Ht Hz. destruct (Htk _ Ht) as [Hacc Hmerge]. rewrite deliver_inbound by (done || apply Hcodec).
    pose proof (inbound_projects (Core.set_inbound (Core.set_transport peer (Core.transport peer)) []) delta b d table key sv v text
      id1 id2 id3 Hacc Hz Hne Hbin Hload Hmerge Hg1 Hg2 Hg3 Hok eq_refl Htext Hname) as Hproj.
    destruct (Core.inbound_delta _ delta b) as [peer' r]. destruct Hproj as (-> & Hst & Hcap & _). cbn [fst].
    unfold Core.read, Core.ensure_local_trust_allows_io. rewrite Hcap.
    change (Core.capability (Core.set_inbound _ _)) with (Core.capability peer).
    rewrite bool_decide_eq_false_2 by done. cbn [mbind result_bind]. by rewrite (read_stores _ _ _ _ _ Hst Hback).
  - intros tab b Htrust Ht. destruct (Htk _ Ht) as [Hacc Hmerge].
    destruct (tab_projects tab delta b d table key sv id1 id2 id3 text) as (tab' & Hin & Hcap & Hread); try done.
    exists tab'. unfold Browser.receive_peer_message. cbn [Mesh.process_wire_message Browser.receive_inbound_wasm].
    assert (Browser.set_transport tab (Browser.transport tab) = tab) as -> by (by destruct tab).
    rewrite Hin. split; [done|]. unfold Browser.read, Browser.ensure_local_trust_allows_io. rewrite Hcap.
    rewrite bool_decide_eq_false_2 by done. cbn [mbind result_bind]. by rewrite Hread.
Qed.

(** C2: A write crosses the builds.  What a native device or a tab writes, a scalar under a key of its own,
    arrives as a row at every native device and at every tab, of either build, that knows the schema,
    has not revoked the writer, is not revoked itself and merges the document without a conflict
    (at a native device under a table name without double quote or NUL, which a native write has):
    there [read] answers with the value, or, for text that spells JSON, with what it spells. *)
Theorem write_crosses_builds `{Hlaws : !AutomergeLaws} `{Hsaved : !AutomergeSaved} (table key : string) (data : Json)
    (a : Ambient) (sv : ScalarValue) (text : string) :
  codec_laws ->
  Crdt.scalar_of_json json_to_string data = Ok (Some sv) -> key <> "_tirbase_table" -> key <> "_tirbase_key" ->
  let v := retyped (Crdt.json_of_scalar hex_encode sv) in
  json_to_string v = Some text -> json_of_string text = Some v ->
  let own (e : CrdtEngine) := Crdt.author_did e = Did.derive_did (ed_public (Crdt.secret_key e)) in
  (forall (device device' : Core.CoreHandle (C := C)) res,
     own (Core.crdt device) -> Core.write device table key data a = (device', Ok res) ->
     Projection.sql_name table = true /\
     exists delta, Core.wr_delta_id res = d_id delta /\ arrives (Core.crdt device) table key data v delta) /\
  (forall (tab tab' : Browser.CoreHandle (C := C)) res,
     own (Browser.crdt tab) -> Browser.write tab table key data a = (tab', Ok res) ->
     exists delta, Core.wr_delta_id res = d_id delta /\ arrives (Browser.crdt tab) table key data v delta).
Proof.
  intros Hcodec Hsv Hkt Hkk v Htext Hback own. split.
  - intros device device' res Hown Hw. apply device_written in Hw as (Hname & delta & Hid & Hwr). split; [done|]. exists delta. split; [done|].
    by eapply written_arrives.
  - intros tab tab' res Hown Hw. apply tab_written in Hw as (delta & Hid & Hwr). exists delta. split; [done|].
    by eapply written_arrives.
Qed.
End Interop.
End Interop.

(** * On the sample deployment *)

Section Witness.
Import SampleTab Delivery Interop.
#[local] Existing Instance Registers.registers_laws.
#[local] Existing Instance Registers.registers_saved.

Let ada : Json := JString "ada".
Definition sent_doc (e : CrdtEngine) : Doc :=
  match (Crdt.write_scalar json_to_string e "people" "name" ada).2 with
  | Ok b => default (am_new []) (am_load b)
  | Err _ => am_new []
  end.

(** What [takes] asks, of one document. *)
Lemma takes_sent (e peer : CrdtEngine) :
  Crdt.author_did e ∉ Crdt.revoked_dids peer -> Crdt.known_schema_hash e ∈ Crdt.known_schemas peer ->
  (am_merge (Crdt.doc peer) (sent_doc e)).2 = None ->
  Verify.lww (Verify.capture_conflicts (Crdt.doc peer) (sent_doc e)) = [] ->
  Verify.rga (Verify.capture_conflicts (Crdt.doc peer) (sent_doc e)) = [] ->
  Forall (fun k => am_get (am_merge (Crdt.doc peer) (sent_doc e)).1 k = am_get (sent_doc e) k)
    ["_tirbase_table"; "_tirbase_key"; "name"] ->
  takes e peer "people" "name" ada.
Proof.
  intros Hrev Hknown Hm Hl Hr Hk. split_and!; [done..|]. intros bs d Hbs Hd.
  assert (d = sent_doc e) as -> by (unfold sent_doc; by rewrite Hbs, Hd).
  exists (am_merge (Crdt.doc peer) (sent_doc e)).1. split_and!; [|done..|by apply Forall_forall].
  rewrite (surjective_pairing (am_merge _ _)) at 1. by rewrite Hm.
Qed.

Ltac sample_takes :=
  apply takes_sent; [apply (bool_decide_unpack _); vm_compute; exact I|apply (bool_decide_unpack _); vm_compute; exact I
    |vm_compute; reflexivity..|repeat constructor; vm_compute; reflexivity].

(** A tab writes, and a native device reads; a native device writes, and a tab reads. *)
Lemma write_crosses_builds_witness :
  (exists delta, Core.read (deliver peer delta (clock 2)) "people" "name" =
     Ok (Core.mkQueryResult "people" "name" ada None false)) /\
  (exists delta other', Browser.receive_peer_message other (Mesh.InboundDelta delta) (clock 2) = Some (other', Ok tt) /\
     Browser.read other' "people" "name" = Ok (Core.mkQueryResult "people" "name" ada None false)).
Proof.
  destruct (write_crosses_builds "people" "name" ada (clock 1) (SStr "ada") "sada") as [Hdevice Htab];
    [apply sample_codec_laws|reflexivity|done|done|reflexivity|reflexivity|]. split.
  - assert (is_ok (Browser.write tab "people" "name" ada (clock 1)).2 = true) as Hok by (vm_compute; reflexivity).
    destruct (Browser.write tab "people" "name" ada (clock 1)) as [tab' [res|e]] eqn:Hw; [|discriminate Hok].
    destruct (Htab tab tab' res) as (delta & _ & Hpeer & _); [reflexivity|exact Hw|]. exists delta.
    rewrite Hpeer; [reflexivity|reflexivity|vm_compute; discriminate|reflexivity|sample_takes|reflexivity].
  - assert (is_ok (Core.write writer "people" "name" ada (clock 1)).2 = true) as Hok by (vm_compute; reflexivity).
    destruct (Core.write writer "people" "name" ada (clock 1)) as [writer' [res|e]] eqn:Hw; [|discriminate Hok].
    destruct (Hdevice writer writer' res) as (_ & delta & _ & _ & Hother); [reflexivity|exact Hw|]. exists delta.
    destruct (Hother other (clock 2)) as (other' & Hm & Hr); [vm_compute; discriminate|sample_takes|].
    exists other'. split; [exact Hm|]. rewrite Hr. reflexivity.
Defined.
End Witness.
