(* ===== verification/Diagnostics.v ===== *)
(** * Startup diagnostics: [diagnostics/mod.rs]

    What [CoreHandle::init] tells the operator about the limits of a deployment.  The text of a
    message is left out; an entry is its severity and its code. *)

From S2P Require Import Prelude Types Identity Revocation Core.

Module Diagnostics.
Import Core.

Inductive DiagnosticSeverity := Info | Warning.
#[export] Instance DiagnosticSeverity_eq_dec : EqDecision DiagnosticSeverity.
Proof. solve_decision. Defined.

Record DiagnosticEntry := mkEntry {
  severity : DiagnosticSeverity;
  code : string
}.

Definition emit_startup_diagnostics (config : DeploymentConfig) : list DiagnosticEntry :=
  [mkEntry Info "UNVERIFIED_RETENTION"; mkEntry Info "LORA_DUTY_CYCLE"; mkEntry Info "TREE_TOPOLOGY"] ++
  (if negb (anchor_attested_location config) then [mkEntry Info "TAG_SPOOF_RISK"] else []) ++
  (if (revocation_m config =? 1)%nat && (revocation_n config =? 1)%nat then [mkEntry Warning "UNILATERAL_EXILE"] else []) ++
  (if biscuit_ttl_secs config >? 24 * 3600 then [mkEntry Warning "EXTENDED_TTL"] else []) ++
  [mkEntry Info "CCE_INMEMORY_ONLY"].

(** An operator is warned that one manager can exile a device. *)
Definition warns_of_exile (config : DeploymentConfig) : bool :=
  existsb (fun e => String.eqb (code e) "UNILATERAL_EXILE") (emit_startup_diagnostics config).

Lemma warns_of_exile_iff config :
  warns_of_exile config = (revocation_m config =? 1)%nat && (revocation_n config =? 1)%nat.
Proof.
  unfold warns_of_exile, emit_startup_diagnostics. rewrite !existsb_app. cbn.
  by destruct (anchor_attested_location config), (_ && _), (biscuit_ttl_secs config >? _).
Qed.

(** The warning depends on [revocation_n], which decides nothing: with a threshold of one, or of
    zero, a single key revokes a device whatever [revocation_n] is. *)
Lemma exile_unwarned `{!Bs58} `{!Ed25519} (sha256 : bytes -> bytes) config target now seed :
  (revocation_m config <= 1)%nat -> (revocation_n config <> 1)%nat -> target <> "" -> target <> Did.derive_did (ed_public seed) ->
  warns_of_exile config = false /\
  target ∈ Revocation.revoked_dids (Revocation.run sha256
    (Revocation.new (Nat.max (revocation_m config) 1) (Nat.max (revocation_n config) 1))
    [Revocation.partial sha256 target now seed]).1.
Proof.
  intros Hm Hn Hempty Ht. split.
  - rewrite warns_of_exile_iff. destruct (Nat.eqb_spec (revocation_n config) 1); [done|]. by rewrite andb_false_r.
  - set (s0 := Revocation.new _ _).
    destruct (Revocation.run_partials sha256 s0 target now [seed] (Revocation.new_sub_wf sha256 _ _) Hempty)
      as (_ & Hthr & _ & _ & Hnot); [cbn; set_solver|cbn; set_solver|].
    cbn [fmap list_fmap] in *. set (s1 := (Revocation.run _ _ _).1) in *.
    destruct (decide (target ∈ Revocation.revoked_dids s1)) as [|Hout]; [done|].
    destruct (Hnot Hout) as (_ & Hsub & Hlt). exfalso. specialize (Hlt ltac:(done)). rewrite Hthr in Hlt.
    unfold s0 in Hlt. cbn [Revocation.threshold_m Revocation.new] in Hlt.
    destruct (Revocation.sigs_of (Revocation.store s1) target) as [|sig sigs] eqn:Hs; [|cbn in Hlt; lia].
    set_solver.
Qed.
End Diagnostics.
